(* ===== verification/_CoqProject ===== *)
-Q . S2P
Prelude.v
Io.v
Utf.v
Order.v
PartError.v
Mbr.v
Crc.v
GptHeader.v
GptPartition.v
GptTable.v
GptLayout.v
GptPlan.v
GptIo.v
FatTypes.v
FatLayout.v
FatSize.v
FatBoot.v
FatClusters.v
FatShort.v
FatEntry.v
FatTree.v
FatDir.v
FatBuild.v
Text.v
Str.v
Cpio.v
KmodDeps.v
KmodOrder.v
KmodGlob.v
KmodLoad.v
LuksHeader.v
LuksKeyslot.v
LuksDm.v
LuksMeta.v
LuksVolume.v
SvcService.v
SvcNotify.v
SvcRestart.v
SvcProcess.v
SvcSuper.v
SvcInv.v
SvcRun.v
SvcLoader.v
SvcLog.v
NetFrame.v
NetDhcp.v
NetSlaac.v
NetTypes.v
NetDns.v
NetActor.v
NetActorInv.v
NetActorProps.v
NetSuper.v
NetSuperInv.v
NetSuperProps.v
FileSys.v
Perm.v
SysConfig.v
Auth.v
Rbac.v
VmHost.v
VmActor.v
VmInv.v
VmRecover.v
Wizard.v
WizardPlan.v
WizardBind.v
Timed.v
Kmsg.v
