(* ===== verification/Prelude.v ===== *)
(** * Verification of muak

    muak is an immutable Linux distribution written in Rust: a service
    supervisor, daemons for the network and the workloads, and the tools that
    build its disk images. This library models the parts below as executable
    definitions and proves what makes them correct. Paths are relative to
    src/.

    ** The parts and how they interact

    - [parttable] (libs/parttable/src) reads, plans and writes GPT and MBR
      partition tables; the image tools place partitions with it.
    - [fatfs] (libs/fatfs/src) formats the FAT32 volume of the EFI system
      partition, which such a table places, and streams files into it.
    - [granola] (init/granola/src) is the first process: it loads service
      definitions, starts them behind their dependencies, listens for their
      notifications, restarts them and keeps their logs.
    - [networkd] (services/networkd/src) with netlib (libs/netlib/src) is one
      of the services: a supervisor with one actor per network interface,
      which obtains addresses by DHCP, by router advertisements or from the
      configuration.
    - [kmod] (libs/kmod/src) and modd (services/modd/src) load the kernel
      modules of the devices that appear.
    - [luks2] (libs/luks2/src) formats and opens the encrypted data volume.
    - [config] (libs/config/src) holds the system configuration, the
      permissions and the file of authorized users; provisiond
      (services/provisiond/src) changes that file and apid (services/apid)
      checks every request against it before it forwards it.
    - [workloadd] (services/workloadd/src) owns the virtual machines, their
      disks, devices and state files.
    - [timed] (services/timed/src) sets the clock, and kmsg (libs/kmsg/src)
      writes to the kernel log.
    - [ramune] (toolchain/ramune/src) writes initramfs archives, and wizard
      (toolchain/wizard/src) plans and connects the steps that build an image.

    ** Layers every component shares

    [Prelude]: outcomes ([res] with [Ok], [Err] and [Panic], a monad whose
    bind is the [?] operator), the saturating, wrapping and checked operations
    on machine integers (an integer is a [Z] with its width written out), byte
    slices, endian codecs, the hint databases and tactics. [Utf] and [Text]:
    strings as scalar values with UTF-8 and UTF-16 and the [str] operations
    used. [Io]: the traits Read and Write as classes with laws, and the
    provided loops read_exact, write_all and copy. [Crc]: CRC-32 as a class.

    ** Partition tables (libs/parttable/src)

    [PartError] error.rs; [Mbr] mbr.rs; [GptHeader] gpt/header.rs;
    [GptPartition] gpt/partition.rs; [GptTable] gpt/table.rs; [GptLayout]
    gpt/layout.rs; [GptPlan] gpt/plan.rs; [GptIo] gpt/io.rs. The state is the
    record [Table]; each method is one definition. Theorems: codecs round
    trip and say what they accept; the table methods refine a finite map from
    slots to partitions; placing keeps partitions disjoint and in range and
    succeeds exactly when there is room; [smallest_disk] ends at the least
    size; a written disk is read back through any reader that keeps its laws,
    from the backup copy too.

    ** FAT32 images (libs/fatfs/src)

    [FatTypes] types.rs and error.rs; [FatLayout] layout.rs; [FatSize],
    [FatBuild] builder/mod.rs and builder/write.rs; [FatBoot] boot.rs;
    [FatClusters] builder/clusters.rs and table.rs; [FatShort] name/short.rs;
    [FatEntry] name/entry.rs and name/lfn.rs; [FatTree] tree.rs; [FatDir]
    dir.rs. Theorems: an accepted layout fits the disk; cluster runs tile the
    data region and the table chains exactly them; short names are distinct;
    long names are reassembled by a reference reader; and
    [build_image_correct] puts the parts together: the stream of [build]
    holds the boot sectors, both tables, each directory and each file at its
    place.

    ** Service supervisor (init/granola/src)

    [SvcService] supervisor/service.rs; [SvcNotify] runtime/notify.rs and
    supervisor/notify.rs; [SvcRestart] supervisor/restart.rs; [SvcProcess]
    supervisor/spawner.rs and supervisor/reaper.rs; [SvcSuper]
    supervisor/mod.rs, dependency.rs and status.rs; [SvcLoader] loader.rs;
    [SvcLog] supervisor/logger. The loop is a step relation over the record
    [Supervisor]; between two handlers the environment may end children and
    queue datagrams. [SvcInv] holds the invariant by rule induction and
    [SvcRun] its consequences: one process per service, starts only behind
    ready dependencies, the restart policy, the published snapshot.
    [SvcLoader] shows that accepted definitions have no cycle and that pending
    services therefore never wait for each other. The classes [Spawn] and [Reap] are the source's traits with the laws the
    supervisor relies on; the real back ends are instances over [Os].

    ** Network daemon (services/networkd/src, libs/netlib/src)

    [NetFrame] dhcp/framing.rs; [NetDhcp] dhcp; [NetSlaac] slaac and
    netlib's slaac; [NetTypes] the state machines, names, configuration and
    snapshots; [NetDns] dns.rs; [NetActor] interface; [NetSuper] supervisor.
    An actor's handlers are programs of the monad [handler] over the actor's
    record and the kernel's state; the supervisor sees actors through handles,
    the commands queued for them and their published snapshots. Where it waits
    for an actor the wait may not end: [NeverReturns] is that outcome, and the
    supervisor takes no step after it.
    [NetActorInv] and [NetSuperInv] prove what holds in every reachable state
    (timers, lease and published stage agree, and stages are published along
    the edges of the life cycle; the roles name registered interfaces, each
    once); [NetActorProps] and [NetSuperProps] prove the
    behaviour of single events: failover, initialization, renewal, loss of the
    link.

    ** Initramfs archives (toolchain/ramune/src)

    [Cpio]: cpio.rs, archive.rs, compress.rs and error.rs. A reference reader
    of the format finds in a written archive exactly the entries, sorted by
    path, with their contents, and the predicted size is exact.

    ** Kernel modules (libs/kmod/src, services/modd/src)

    [KmodDeps] text.rs and deps.rs; [KmodOrder] the lookups and the load order
    of deps.rs; [KmodGlob] aliases.rs; [KmodLoad] kernel.rs, sysfs.rs and the
    daemon. Theorems: the load order lists every module that is reachable
    once, dependencies first; the backtracking matcher ends and decides an
    inductive relation; for every sequence of events and failures a module is
    initialized once, behind all its dependencies.

    ** Encrypted volumes (libs/luks2/src)

    [LuksHeader] header.rs and error.rs; [LuksKeyslot] keyslot.rs and xts.rs;
    [LuksDm] dm/abi.rs, dm/table.rs and dm/crypt.rs; [LuksMeta] metadata.rs,
    digest.rs and key.rs; [LuksVolume] lib.rs and dm/device.rs, on a block
    device whose writes may fail and leave a prefix. Theorems: headers,
    splitter, cipher mode and keyslots round trip; a formatted volume is
    opened by its passphrase with its key; only a key that a digest accepts is
    used; tokens are read back.

    ** Configuration and access control (libs/config/src,
    services/provisiond/src/ipc/auth.rs, services/apid)

    [Perm] permission.rs; [SysConfig] system, error.rs and version.rs; [Auth]
    auth.rs and the enrollment handlers; [Rbac] the build script, the check,
    the handler and the connection pool of apid. [FileSys] is the file system
    with write times that they share with workloadd. Theorems: an atomic write
    leaves the old or the new document; a cache that is read after a change
    shows the file; the generated rules are the annotations of the protocol
    files; a request that the rule of its method allows goes to the back end of
    its service, where there is one, and any other is refused, those of a
    revoked certificate among them.

    ** Workload daemon (services/workloadd/src)

    [VmHost] the hypervisor drivers, disk images, subvolumes and devices;
    [VmActor] actor/state.rs and persistence; [VmInv] and [VmRecover] the
    invariant over every sequence of commands, restarts and failures. A
    command is a program of a monad over the host and the table of machines,
    and keeps what it changed when a later call fails. Theorems, where the state
    files themselves can be read and written: state files and entries agree, a restarted daemon finds every machine again, what each
    command does, and that it leaves the other machines alone.

    ** Time and the kernel log (services/timed/src, libs/kmsg/src)

    [Timed]: packets, source selection, one synchronization and the loop, with
    an accepted configuration always starting the daemon. [Kmsg]: records,
    their truncation and the fallback.

    ** Image pipeline (toolchain/wizard/src)

    [Wizard]: the declarations of the nodes (nodes), and the graph, planner and
    binding of pipeline. [WizardPlan]: planning succeeds for every list of
    artifacts but overlays without an overlay, and gives exactly the nodes
    needed, in the order of their dependencies, with the declared inputs.
    [WizardBind]: such a graph binds, every pipe with one reader and the
    producer of its stream as writer. A preflight, which is not modelled, is
    taken to change names and sizes of streams only ([relabelled]).

    ** Code that is not in the repository

    A third-party function or the kernel is a class or an argument, with its
    documented behaviour as laws, and the witnesses instantiate it:
    [Crc32] (crc32fast), [Uppercase] (the Unicode table of the standard
    library), [Read] and [Write] (any stream), [Spawn], [Reap] and [Os]
    (processes), [Clock] (readings of the monotonic clock), [Watch] (tokio's
    watch channel), [NetOps] and [Connector] (netlink and sockets), [Waits]
    (what an actor does while the supervisor waits for it), the TOML
    parser (an argument of the loader); [Zstd], [Sha256], [Aes256],
    [Argon2id], [Pbkdf2], [Base64], [Base16], [Random] and [NewUuid]
    (compression, cryptography and randomness); [ModKernel] and [DmKernel]
    (modules and device mapper); [SerdeJson], [VmJson], [JsonText],
    [TomlCodec] and [TomlState] (codecs, of which the round trip is used);
    [Semver], [Pki]; [HashIter], [HashValues] and [HandleIter] (the iteration
    order of hash maps); and the texts of foreign errors and values
    ([IoDisplay], [IoText], [ErrnoDisplay], [ErrorText], [EntryDebug],
    [ValueText]).

    ** Fuel and bounds

    Loops whose recursion is not structural take fuel. [smallest_disk] and
    [image_size_for] cap the size they grow, so the iterations the theorems
    give are enough whatever the input; the stream loops take the length of
    the stream, since each round that does not stop transfers a byte; the
    DHCP option and advertisement parsers take the length of the buffer, since
    each option consumes at least its header; variable substitution takes the
    length of the text; the module order takes one more than the number of
    modules and the planner of images one more than the number of node kinds,
    since each level of their recursion visits a new one; the glob matcher
    takes a product of the lengths of text and pattern; the search for a free
    token takes the size of the map. Out of fuel is a value of its own ([None] or an
    explicit constructor) that the theorems exclude. Event loops are step
    relations and need none.

    ** Not modelled

    Glue whose behaviour is that of the kernel or of a dependency: sockets,
    signals and gRPC of the services, netlink requests, device nodes, mounts,
    the terminal interface and the command line, cryptography and
    certificates, procedural macros, the SELinux policy and the end-to-end
    tests. The writers of erofs and btrfs images, the OCI client, the
    TPM commands, UKI and signature formats, the installation and update
    handlers of provisiond and the registry tools are code of their own size
    and are left out: nothing modelled here calls them, except that the nodes
    of wizard, whose work is not modelled either, run some of them. *)

From stdpp Require Export base numbers list strings pretty option gmap sorting.
From Stdlib Require Export ZArith Lia.

#[global] Open Scope Z_scope.
Declare Scope muak_scope.
Delimit Scope muak_scope with muak.
#[global] Open Scope muak_scope.

(** ** Outcomes

    A fallible Rust function returns [Ok] or [Err]; a function that can
    abort (division by zero, an overflow check, [copy_from_slice] with
    different lengths) can also end in [Panic]. *)

Inductive res (E A : Type) : Type :=
| Ok (a : A)
| Err (e : E)
| Panic.
Arguments Ok {E A} a.
Arguments Err {E A} e.
Arguments Panic {E A}.

#[global] Instance res_ret {E} : MRet (res E) := fun _ a => Ok a.
#[global] Instance res_bind {E} : MBind (res E) := fun _ _ f m =>
  match m with
  | Ok a => f a
  | Err e => Err e
  | Panic => Panic
  end.
#[global] Instance res_fmap {E} : FMap (res E) := fun _ _ f m =>
  match m with
  | Ok a => Ok (f a)
  | Err e => Err e
  | Panic => Panic
  end.

(** [Option::ok_or_else]. *)
Definition ok_or {E A} (o : option A) (e : E) : res E A :=
  match o with Some a => Ok a | None => Err e end.

(** [Result::ok], on outcomes that did not panic. *)
Definition ok {E A} (r : res E A) : option A :=
  match r with Ok a => Some a | _ => None end.

(** [Result::map_err]. *)
Definition map_err {E F A} (f : E → F) (r : res E A) : res F A :=
  match r with Ok a => Ok a | Err e => Err (f e) | Panic => Panic end.

Definition is_ok {E A} (r : res E A) : bool :=
  match r with Ok _ => true | _ => false end.

(** Sequencing of a fallible step over a list (a [for] loop with [?], or
    [collect] into a [Result]). *)
Fixpoint foldM {E S A} (f : S → A → res E S) (s : S) (l : list A) : res E S :=
  match l with
  | [] => Ok s
  | a :: l' => f s a ≫= fun s' => foldM f s' l'
  end.

Fixpoint mapM_res {E A B} (f : A → res E B) (l : list A) : res E (list B) :=
  match l with
  | [] => Ok []
  | a :: l' => f a ≫= fun b => mapM_res f l' ≫= fun bs => Ok (b :: bs)
  end.

Lemma bind_ret {E A B} (a : A) (f : A → res E B) : Ok a ≫= f = f a.
Proof. done. Qed.

Lemma bind_Ok {E A B} (m : res E A) (f : A → res E B) b :
  m ≫= f = Ok b ↔ ∃ a, m = Ok a ∧ f a = Ok b.
Proof. destruct m; simpl; naive_solver. Qed.

Lemma fmap_Ok {E A B} (m : res E A) (f : A → B) b :
  f <$> m = Ok b ↔ ∃ a, m = Ok a ∧ f a = b.
Proof. destruct m; simpl; naive_solver. Qed.

Lemma ok_or_Ok {E A} (o : option A) (e : E) a :
  ok_or o e = Ok a ↔ o = Some a.
Proof. destruct o; simpl; naive_solver. Qed.

Lemma map_err_Ok {E F A} (f : E → F) (r : res E A) a :
  map_err f r = Ok a ↔ r = Ok a.
Proof. destruct r; simpl; naive_solver. Qed.

Lemma foldM_app {E S A} (f : S → A → res E S) s (l1 l2 : list A) :
  foldM f s (l1 ++ l2) = foldM f s l1 ≫= fun s' => foldM f s' l2.
Proof.
  revert s; induction l1 as [|a l1 IH]; intros s; simpl; [done|].
  destruct (f s a); simpl; auto.
Qed.

(** An invariant of the loop body is an invariant of the loop. *)
Lemma foldM_inv {E S A} (P : S → Prop) (f : S → A → res E S) l s s' :
  (∀ a t t', a ∈ l → P t → f t a = Ok t' → P t') →
  P s → foldM f s l = Ok s' → P s'.
Proof.
  revert s; induction l as [|a l IH]; intros s Hf Hs H; simpl in *.
  { by injection H as <-. }
  apply bind_Ok in H as (t & Ht & H). eapply IH; [|eapply Hf; eauto; set_solver|done].
  intros; eapply Hf; eauto. set_solver.
Qed.

(** Two loop bodies that agree wherever an invariant holds. *)
Lemma foldM_ext_inv {E S A} (P : S → Prop) (f g : S → A → res E S) l s :
  P s → (∀ t a, a ∈ l → P t → f t a = g t a) →
  (∀ t a t', a ∈ l → P t → g t a = Ok t' → P t') →
  foldM f s l = foldM g s l.
Proof.
  revert s; induction l as [|a l IH]; intros s Hs Hfg Hg; [done|]. simpl.
  rewrite Hfg by (done || set_solver). destruct (g s a) as [t| |] eqn:Ht; simpl; [|done..].
  apply IH; [eapply Hg; [|done|done]; set_solver| |].
  - intros; apply Hfg; set_solver.
  - intros t' a' t'' Ha'. apply Hg. set_solver.
Qed.

Lemma mapM_res_Ok {E A B} (f : A → res E B) l bs :
  mapM_res f l = Ok bs ↔ Forall2 (λ a b, f a = Ok b) l bs.
Proof.
  revert bs; induction l as [|a l IH]; intros bs; simpl.
  - split; [intros [= <-]; constructor | inversion 1; done].
  - rewrite bind_Ok. split.
    + intros (b & Hb & H). apply bind_Ok in H as (bs' & H & [= <-]).
      constructor; [done|]. by apply IH.
    + inversion 1 as [|? b ? bs' Hb H']; subst. exists b; split; [done|].
      apply bind_Ok. exists bs'; split; [by apply IH|done].
Qed.

(** Inverts a chain of binds that ended in [Ok]. *)
Ltac inv_ok :=
  repeat match goal with
  | H : mbind _ _ = Ok _ |- _ =>
      let a := fresh "v" in let Ha := fresh "Hv" in
      apply bind_Ok in H; destruct H as (a & Ha & H)
  | H : _ <$> _ = Ok _ |- _ =>
      let a := fresh "v" in let Ha := fresh "Hv" in
      apply fmap_Ok in H; destruct H as (a & Ha & H)
  | H : ok_or _ _ = Ok _ |- _ => apply ok_or_Ok in H
  | H : map_err _ _ = Ok _ |- _ => apply map_err_Ok in H
  | H : Ok _ = Ok _ |- _ => injection H as H
  | H : Err _ = Ok _ |- _ => discriminate H
  | H : Panic = Ok _ |- _ => discriminate H
  end.

(** ** Unsigned machine integers

    A [uN] is a [Z] in [0 .. 2^N - 1]; [usize] is 64 bits wide, as on the
    two supported architectures. *)

Definition is_uint (w z : Z) : Prop := 0 ≤ z < 2 ^ w.
Abbreviation is_u8 := (is_uint 8).
Abbreviation is_u16 := (is_uint 16).
Abbreviation is_u32 := (is_uint 32).
Abbreviation is_u64 := (is_uint 64).

#[global] Instance is_uint_dec w z : Decision (is_uint w z).
Proof. unfold is_uint. apply _. Defined.

Definition uint_max (w : Z) : Z := 2 ^ w - 1.

Definition checked_add (w a b : Z) : option Z :=
  if a + b <=? uint_max w then Some (a + b) else None.
Definition checked_sub (a b : Z) : option Z :=
  if b <=? a then Some (a - b) else None.
Definition checked_mul (w a b : Z) : option Z :=
  if a * b <=? uint_max w then Some (a * b) else None.
Definition checked_div (a b : Z) : option Z :=
  if b =? 0 then None else Some (a / b).

Definition saturating_add (w a b : Z) : Z := Z.min (a + b) (uint_max w).
Definition saturating_sub (a b : Z) : Z := Z.max 0 (a - b).
Definition saturating_mul (w a b : Z) : Z := Z.min (a * b) (uint_max w).

Definition wrapping_add (w a b : Z) : Z := (a + b) mod 2 ^ w.
Definition wrapping_sub (w a b : Z) : Z := (a - b) mod 2 ^ w.
Definition wrapping_mul (w a b : Z) : Z := (a * b) mod 2 ^ w.

(** [uN::try_from]. *)
Definition try_from (w z : Z) : option Z :=
  if (0 <=? z) && (z <=? uint_max w) then Some z else None.

(** [div_ceil] for a divisor that is not zero; [div_ceil_checked] panics
    on zero, as the operator does. *)
Definition div_ceil (a b : Z) : Z := a / b + (if a mod b =? 0 then 0 else 1).
Definition div_ceil_checked {E} (a b : Z) : res E Z :=
  if b =? 0 then Panic else Ok (div_ceil a b).

(** The overflow behaviour of arithmetic that is neither checked nor
    saturating nor wrapping depends on the build profile: [debug] builds
    panic, the [release] profile of the workspace wraps. *)
Inductive profile := debug | release.

(** [u64::next_multiple_of]: panics when [b] is zero; on overflow it panics
    in a debug build and wraps in a release build. *)
Definition next_multiple_of {E} (p : profile) (a b : Z) : res E Z :=
  if b =? 0 then Panic
  else if a mod b =? 0 then Ok a
  else let m := a + (b - a mod b) in
       if m <=? uint_max 64 then Ok m
       else match p with debug => Panic | release => Ok (m mod 2 ^ 64) end.

Lemma div_ceil_spec a b : 0 < b → b * (div_ceil a b - 1) < a ≤ b * div_ceil a b.
Proof.
  intros Hb. unfold div_ceil.
  pose proof (Z.div_mod a b ltac:(lia)). pose proof (Z.mod_pos_bound a b Hb).
  destruct (Z.eqb_spec (a mod b) 0); nia.
Qed.

Lemma div_ceil_nonneg a b : 0 ≤ a → 0 < b → 0 ≤ div_ceil a b.
Proof. intros. pose proof (div_ceil_spec a b). nia. Qed.

Lemma div_ceil_0 b : 0 < b → div_ceil 0 b = 0.
Proof. intros. unfold div_ceil. by rewrite Z.div_0_l, Z.mod_0_l by lia. Qed.

Lemma div_ceil_le_l a b : 0 ≤ a → 0 < b → div_ceil a b ≤ a.
Proof. intros. pose proof (div_ceil_spec a b). nia. Qed.

(** [div_ceil] is the least number of [b]-sized units that hold [a]. *)
Lemma div_ceil_least a b q : 0 < b → a ≤ b * q → div_ceil a b ≤ q.
Proof. intros. pose proof (div_ceil_spec a b). nia. Qed.

Lemma div_ceil_unique a b q : 0 < b → b * (q - 1) < a ≤ b * q → div_ceil a b = q.
Proof. intros. pose proof (div_ceil_spec a b). nia. Qed.

(** The least multiple of [b] that is at least [a]. *)
Definition round_up (a b : Z) : Z := b * div_ceil a b.

Lemma round_up_spec a b : 0 < b → a ≤ round_up a b < a + b ∧ (b | round_up a b).
Proof.
  intros. unfold round_up. pose proof (div_ceil_spec a b).
  split; [nia|]. exists (div_ceil a b); lia.
Qed.

Lemma round_up_least a b m : 0 < b → a ≤ m → (b | m) → round_up a b ≤ m.
Proof.
  intros Hb Ha [q ->]. unfold round_up.
  pose proof (div_ceil_least a b q). nia.
Qed.

Lemma round_up_mono a a' b : 0 < b → a ≤ a' → round_up a b ≤ round_up a' b.
Proof.
  intros. pose proof (round_up_spec a' b). apply round_up_least; lia || tauto.
Qed.

Lemma next_multiple_of_round_up {E} p a b :
  0 < b → round_up a b ≤ uint_max 64 →
  next_multiple_of (E:=E) p a b = Ok (round_up a b).
Proof.
  intros Hb. unfold next_multiple_of, round_up, div_ceil.
  rewrite (proj2 (Z.eqb_neq b 0)) by lia.
  pose proof (Z.div_mod a b ltac:(lia)).
  destruct (Z.eqb_spec (a mod b) 0); intros.
  - f_equal. lia.
  - rewrite (proj2 (Z.leb_le _ _)) by lia. f_equal. lia.
Qed.

Lemma next_multiple_of_overflow {E} p a b :
  0 < b → a ≤ uint_max 64 → uint_max 64 < round_up a b →
  next_multiple_of (E:=E) p a b =
    match p with debug => Panic | release => Ok (round_up a b mod 2 ^ 64) end.
Proof.
  intros Hb Ha. unfold next_multiple_of, round_up, div_ceil.
  rewrite (proj2 (Z.eqb_neq b 0)) by lia. pose proof (Z.div_mod a b ltac:(lia)).
  destruct (Z.eqb_spec (a mod b) 0); intros; [lia|].
  rewrite (proj2 (Z.leb_gt _ _)) by lia. destruct p; [done|]. do 2 f_equal. lia.
Qed.

(** What [next_multiple_of] can return: the rounded value, or, after an
    overflow of a release build, that value wrapped. *)
Lemma next_multiple_of_inv {E} p a b m :
  next_multiple_of (E:=E) p a b = Ok m → 0 ≤ b →
  0 < b ∧ (m = round_up a b ∧ (a mod b = 0 ∨ m ≤ uint_max 64) ∨
           uint_max 64 < round_up a b ∧ m = round_up a b mod 2 ^ 64).
Proof.
  unfold next_multiple_of, round_up, div_ceil. intros H Hb.
  destruct (Z.eqb_spec b 0); [done|]. split; [lia|].
  pose proof (Z.div_mod a b ltac:(lia)).
  destruct (Z.eqb_spec (a mod b) 0).
  { left. injection H as <-. lia. }
  destruct (Z.leb_spec (a + (b - a mod b)) (uint_max 64)).
  { left. injection H as <-. lia. }
  destruct p; [done|]. right. injection H as <-. split; [lia|].
  f_equal. lia.
Qed.

Lemma try_from_Some w z v : try_from w z = Some v ↔ v = z ∧ 0 ≤ z ≤ uint_max w.
Proof.
  unfold try_from.
  destruct (Z.leb_spec 0 z), (Z.leb_spec z (uint_max w)); naive_solver lia.
Qed.

Lemma try_from_None w z : try_from w z = None ↔ z < 0 ∨ uint_max w < z.
Proof.
  unfold try_from. destruct (Z.leb_spec 0 z), (Z.leb_spec z (uint_max w)); simpl;
    split; intros; done || lia.
Qed.

Lemma try_from_ok w z : is_uint w z → try_from w z = Some z.
Proof. intros H. apply try_from_Some. unfold is_uint, uint_max in *. lia. Qed.

Lemma checked_add_Some w a b c : checked_add w a b = Some c ↔ c = a + b ∧ a + b ≤ uint_max w.
Proof. unfold checked_add. destruct (Z.leb_spec (a + b) (uint_max w)); naive_solver lia. Qed.

Lemma checked_add_None w a b : checked_add w a b = None ↔ uint_max w < a + b.
Proof. unfold checked_add. destruct (Z.leb_spec (a + b) (uint_max w)); naive_solver lia. Qed.

Lemma checked_sub_Some a b c : checked_sub a b = Some c ↔ c = a - b ∧ b ≤ a.
Proof. unfold checked_sub. destruct (Z.leb_spec b a); naive_solver lia. Qed.

Lemma checked_mul_Some w a b c : checked_mul w a b = Some c ↔ c = a * b ∧ a * b ≤ uint_max w.
Proof. unfold checked_mul. destruct (Z.leb_spec (a * b) (uint_max w)); naive_solver lia. Qed.

(** Unfolds the width-bounded operators for [lia]. *)
Ltac uint_unfold :=
  unfold saturating_add, saturating_sub, saturating_mul, is_uint, uint_max in *.
Ltac ulia := uint_unfold; lia.

(** Case analysis on the integer tests the code branches on. *)
Ltac zcases :=
  repeat match goal with
  | |- context [Z.eqb ?a ?b] => destruct (Z.eqb_spec a b)
  | |- context [Z.leb ?a ?b] => destruct (Z.leb_spec a b)
  | |- context [Z.ltb ?a ?b] => destruct (Z.ltb_spec a b)
  | H : context [Z.eqb ?a ?b] |- _ => destruct (Z.eqb_spec a b)
  | H : context [Z.leb ?a ?b] |- _ => destruct (Z.leb_spec a b)
  | H : context [Z.ltb ?a ?b] |- _ => destruct (Z.ltb_spec a b)
  end.

(** ** Byte buffers

    Arrays and slices of bytes are lists of [Z]; [bytes_ok] says that every
    element is a byte. *)

Definition bytes_ok (l : list Z) : Prop := Forall is_u8 l.
Definition zlen {A} (l : list A) : Z := Z.of_nat (length l).
Lemma zlen_app {A} (l k : list A) : zlen (l ++ k) = zlen l + zlen k.
Proof. unfold zlen. rewrite length_app. lia. Qed.

Lemma zlen_nonneg {A} (l : list A) : 0 ≤ zlen l.
Proof. unfold zlen. lia. Qed.
Definition zeros (n : nat) : list Z := replicate n 0.
Arguments zeros : simpl never.

(** The bytes of an ASCII literal, as in [b"EFI PART"]. *)
Definition str_bytes (s : string) : list Z :=
  (λ a, Z.of_N (Ascii.N_of_ascii a)) <$> String.list_ascii_of_string s.

Section slices.
Context {A : Type}.
Implicit Types l d : list A.

(** [l.get(a..b)]. *)
Definition slice (a b : nat) l : option (list A) :=
  if bool_decide (a ≤ b)%nat && bool_decide (b ≤ length l)%nat
  then Some (take (b - a) (drop a l)) else None.

(** [l] with the elements from index [a] on overwritten by [d]. *)
Definition splice (a : nat) d l : list A :=
  take a l ++ d ++ drop (a + length d) l.

(** [if let Some(dst) = l.get_mut(a..b) { dst.copy_from_slice(d) }]. *)
Definition copy_range {E} (a b : nat) d l : res E (list A) :=
  match slice a b l with
  | None => Ok l
  | Some dst =>
      if bool_decide (length d = length dst) then Ok (splice a d l) else Panic
  end.

Lemma slice_Some a b l s :
  slice a b l = Some s ↔ (a ≤ b ≤ length l)%nat ∧ s = take (b - a) (drop a l).
Proof. unfold slice. repeat case_bool_decide; simpl; naive_solver lia. Qed.

Lemma slice_ok a b l :
  (a ≤ b ≤ length l)%nat → slice a b l = Some (take (b - a) (drop a l)).
Proof. intros. by apply slice_Some. Qed.

Lemma length_slice a b l s : slice a b l = Some s → length s = (b - a)%nat.
Proof. intros [? ->]%slice_Some. rewrite length_take, length_drop. lia. Qed.

Lemma length_splice a d l :
  (a + length d ≤ length l)%nat → length (splice a d l) = length l.
Proof. intros. unfold splice. rewrite !length_app, length_take, length_drop. lia. Qed.

Lemma lookup_splice a d l i :
  (a + length d ≤ length l)%nat →
  splice a d l !! i =
    if bool_decide (a ≤ i < a + length d)%nat then d !! (i - a)%nat else l !! i.
Proof.
  intros. unfold splice. case_bool_decide.
  - rewrite lookup_app_r, length_take by (rewrite length_take; lia).
    rewrite Nat.min_l by lia. by rewrite lookup_app_l by lia.
  - destruct (decide (i < a)%nat).
    + rewrite lookup_app_l by (rewrite length_take; lia). by apply lookup_take_lt.
    + rewrite lookup_app_r, length_take by (rewrite length_take; lia).
      rewrite Nat.min_l by lia. rewrite lookup_app_r by lia.
      rewrite lookup_drop. f_equal. lia.
Qed.

Lemma lookup_slice a b l s i :
  slice a b l = Some s → (i < b - a)%nat → s !! i = l !! (a + i)%nat.
Proof.
  intros [? ->]%slice_Some Hi. by rewrite lookup_take_lt, lookup_drop by lia.
Qed.

Lemma slice_splice_same a b d l :
  (a + length d ≤ length l)%nat → b = (a + length d)%nat →
  slice a b (splice a d l) = Some d.
Proof.
  intros H ->. rewrite slice_ok by (rewrite length_splice; lia). f_equal.
  unfold splice. rewrite drop_app_length' by (rewrite length_take; lia).
  rewrite take_app_length'; [done|lia].
Qed.

Lemma slice_splice_other a d l a' b' :
  (a + length d ≤ length l)%nat → (b' ≤ a ∨ a + length d ≤ a')%nat →
  slice a' b' (splice a d l) = slice a' b' l.
Proof.
  intros H Hd. unfold slice. rewrite length_splice by done.
  repeat case_bool_decide; simpl; try done. f_equal.
  apply list_eq; intros i. destruct (decide (i < b' - a')%nat).
  - rewrite !lookup_take_lt, !lookup_drop by done.
    rewrite lookup_splice by done. rewrite bool_decide_eq_false_2; [done|lia].
  - rewrite !lookup_take_ge; [done|lia|lia].
Qed.

Lemma copy_range_ok {E} a b d l :
  (a ≤ b ≤ length l)%nat → length d = (b - a)%nat →
  copy_range (E:=E) a b d l = Ok (splice a d l).
Proof.
  intros Hr Hd. unfold copy_range. rewrite slice_ok by done.
  rewrite bool_decide_eq_true_2; [done|]. rewrite length_take, length_drop. lia.
Qed.

Lemma length_copy_range {E} a b d l l' :
  copy_range (E:=E) a b d l = Ok l' → length l' = length l.
Proof.
  unfold copy_range. intros Hc. destruct (slice a b l) as [old|] eqn:Hs; [|naive_solver].
  case_bool_decide as Hl; [|done]. injection Hc as <-.
  pose proof (length_slice _ _ _ _ Hs). apply slice_Some in Hs as [? _].
  apply length_splice. lia.
Qed.

(** Writing back what the range already holds changes nothing. *)
Lemma splice_slice a b l d : slice a b l = Some d → splice a d l = l.
Proof.
  intros Hs. pose proof (length_slice _ _ _ _ Hs) as Hlen.
  apply slice_Some in Hs as [Hr ->].
  apply list_eq; intros i. rewrite lookup_splice by (rewrite Hlen; lia).
  rewrite Hlen. case_bool_decide; [|done].
  rewrite lookup_take_lt, lookup_drop by lia. f_equal. lia.
Qed.

Lemma splice_splice a d d' l :
  length d = length d' → (a + length d ≤ length l)%nat →
  splice a d' (splice a d l) = splice a d' l.
Proof.
  intros Hd Hl. apply list_eq; intros i.
  rewrite !lookup_splice by (rewrite ?length_splice; lia).
  rewrite Hd. by case_bool_decide.
Qed.

Lemma splice_comm a d a' d' l :
  (a + length d ≤ length l)%nat → (a' + length d' ≤ length l)%nat →
  (a + length d ≤ a' ∨ a' + length d' ≤ a)%nat →
  splice a d (splice a' d' l) = splice a' d' (splice a d l).
Proof.
  intros. apply list_eq; intros i.
  rewrite !lookup_splice by (rewrite ?length_splice; lia).
  repeat case_bool_decide; done || lia.
Qed.

(** [l.chunks_exact(n)]: the full [n]-element chunks of [l]. *)
Fixpoint chunks_fuel (fuel n : nat) l : list (list A) :=
  match fuel with
  | O => []
  | S fuel =>
      if bool_decide (n ≤ length l)%nat
      then take n l :: chunks_fuel fuel n (drop n l) else []
  end.
Definition chunks_exact (n : nat) l : list (list A) := chunks_fuel (length l) n l.
End slices.

Lemma chunks_fuel_concat {A} (n : nat) (ls : list (list A)) (fuel : nat) :
  (0 < n)%nat → Forall (λ c, length c = n) ls → (length ls ≤ fuel)%nat →
  chunks_fuel fuel n (concat ls) = ls.
Proof.
  intros Hn. revert fuel; induction ls as [|c ls IH]; intros fuel Hls Hf; simpl.
  - destruct fuel; simpl; [done|]. case_bool_decide; [simpl in *; lia|done].
  - apply Forall_cons in Hls as [Hc Hls]. destruct fuel; simpl in *; [lia|].
    rewrite bool_decide_eq_true_2 by (rewrite length_app; lia).
    rewrite take_app_length', drop_app_length' by done. f_equal. apply IH; [done|lia].
Qed.

Lemma length_concat_const {A} (n : nat) (ls : list (list A)) :
  Forall (λ c, length c = n) ls → length (concat ls) = (length ls * n)%nat.
Proof.
  induction 1 as [|c ls Hc _ IH]; [done|]. simpl. rewrite length_app. lia.
Qed.

Lemma chunks_exact_concat {A} (n : nat) (ls : list (list A)) :
  (0 < n)%nat → Forall (λ c, length c = n) ls → chunks_exact n (concat ls) = ls.
Proof.
  intros Hn Hls. unfold chunks_exact. apply chunks_fuel_concat; [done..|].
  rewrite (length_concat_const n) by done. nia.
Qed.

(** ** Little-endian integers: [to_le_bytes] and [from_le_bytes] *)

Fixpoint to_le_bytes (n : nat) (z : Z) : list Z :=
  match n with
  | O => []
  | S n => z mod 256 :: to_le_bytes n (z / 256)
  end.

Fixpoint from_le_bytes (l : list Z) : Z :=
  match l with
  | [] => 0
  | b :: l => b + 256 * from_le_bytes l
  end.

Lemma length_to_le_bytes n z : length (to_le_bytes n z) = n.
Proof. revert z; induction n; intros; simpl; auto. Qed.

Lemma to_le_bytes_ok n z : bytes_ok (to_le_bytes n z).
Proof.
  revert z; induction n; intros; constructor; [|by apply IHn].
  unfold is_uint. pose proof (Z.mod_pos_bound z 256). lia.
Qed.

Lemma from_to_le_bytes n z : 0 ≤ z < 256 ^ Z.of_nat n → from_le_bytes (to_le_bytes n z) = z.
Proof.
  revert z; induction n as [|n IH]; intros z Hz; simpl.
  - change (256 ^ Z.of_nat 0) with 1 in Hz. lia.
  - rewrite Nat2Z.inj_succ, Z.pow_succ_r in Hz by lia. rewrite IH.
    + pose proof (Z.div_mod z 256). lia.
    + split; [apply Z.div_pos; lia|]. apply Z.div_lt_upper_bound; lia.
Qed.

(** The integer a reader of the format finds at an offset. *)
Definition le_at (n off : nat) (bytes : list Z) : Z :=
  match slice off (off + n) bytes with Some b => from_le_bytes b | None => -1 end.

Lemma le_at_bytes n off b z :
  slice off (off + n) b = Some (to_le_bytes n z) → 0 ≤ z < 256 ^ Z.of_nat n → le_at n off b = z.
Proof. intros Hs Hz. unfold le_at. rewrite Hs. by apply from_to_le_bytes. Qed.

Lemma from_le_bytes_range l : bytes_ok l → 0 ≤ from_le_bytes l < 256 ^ zlen l.
Proof.
  unfold zlen. induction 1 as [|b l Hb _ IH]; simpl from_le_bytes; [simpl; lia|].
  simpl length. rewrite Nat2Z.inj_succ, Z.pow_succ_r by lia. unfold is_uint in Hb. lia.
Qed.

Lemma to_from_le_bytes l : bytes_ok l → to_le_bytes (length l) (from_le_bytes l) = l.
Proof.
  induction 1 as [|b l Hb _ IH]; [done|]. simpl. unfold is_uint in Hb.
  replace ((b + 256 * from_le_bytes l) mod 256) with b.
  2: { rewrite (Z.mul_comm 256), Z.mod_add, Z.mod_small; lia. }
  replace ((b + 256 * from_le_bytes l) / 256) with (from_le_bytes l).
  2: { rewrite (Z.mul_comm 256), Z.div_add, Z.div_small; lia. }
  by rewrite IH.
Qed.

Lemma from_to_le_16 z : is_u16 z → from_le_bytes (to_le_bytes 2 z) = z.
Proof. intros. apply from_to_le_bytes. exact H. Qed.
Lemma from_to_le_32 z : is_u32 z → from_le_bytes (to_le_bytes 4 z) = z.
Proof. intros. apply from_to_le_bytes. exact H. Qed.
Lemma from_to_le_64 z : is_u64 z → from_le_bytes (to_le_bytes 8 z) = z.
Proof. intros. apply from_to_le_bytes. exact H. Qed.

(** Big-endian integers. *)
Definition to_be_bytes (n : nat) (z : Z) : list Z := rev (to_le_bytes n z).
Definition from_be_bytes (l : list Z) : Z := from_le_bytes (rev l).

Lemma length_to_be_bytes n z : length (to_be_bytes n z) = n.
Proof. unfold to_be_bytes. by rewrite length_rev, length_to_le_bytes. Qed.

Lemma to_be_bytes_ok n z : bytes_ok (to_be_bytes n z).
Proof. unfold to_be_bytes, bytes_ok. apply Forall_rev, to_le_bytes_ok. Qed.

Lemma from_to_be_bytes n z : 0 ≤ z < 256 ^ Z.of_nat n → from_be_bytes (to_be_bytes n z) = z.
Proof. intros. unfold from_be_bytes, to_be_bytes. rewrite rev_involutive. by apply from_to_le_bytes. Qed.

Arguments to_le_bytes : simpl never.
Arguments from_le_bytes : simpl never.

(** ** Automation

    [muak_len] normalises the length of a buffer under construction,
    [muak_slice] reads a field back out of nested writes; [buffer] applies
    both to a sequence of [copy_range] writes. *)

Create HintDb muak discriminated.
#[export] Hint Resolve to_le_bytes_ok length_to_le_bytes : muak.

Lemma length_zeros n : length (zeros n) = n.
Proof. apply length_replicate. Qed.

Lemma zeros_ok n : bytes_ok (zeros n).
Proof. apply Forall_replicate. unfold is_uint. lia. Qed.
#[export] Hint Resolve length_zeros zeros_ok : muak.

Lemma slice_zeros a b n : (a ≤ b ≤ n)%nat → slice a b (zeros n) = Some (zeros (b - a)).
Proof.
  intros. rewrite slice_ok by (rewrite length_zeros; lia). f_equal.
  unfold zeros. rewrite drop_replicate, take_replicate. f_equal. lia.
Qed.

Lemma splice_ok a d l : bytes_ok d → bytes_ok l → bytes_ok (splice a d l).
Proof.
  intros Hd Hl. unfold splice. apply Forall_app; split; [by apply Forall_take|].
  apply Forall_app; split; [done|by apply Forall_drop].
Qed.
#[export] Hint Resolve splice_ok : muak.

Lemma slice_bytes_ok a b l s : slice a b l = Some s → bytes_ok l → bytes_ok s.
Proof. intros [_ ->]%slice_Some Hl. by apply Forall_take, Forall_drop. Qed.

(** Side conditions on buffer lengths. *)
Ltac solve_len :=
  repeat (rewrite ?length_zeros, ?length_to_le_bytes, ?length_replicate, ?length_app,
            ?length_fmap, ?length_take, ?length_drop;
          try (rewrite length_splice; [|solve_len]));
  simpl length in *; lia.

Ltac buf_put := rewrite copy_range_ok by (split_and?; solve_len); rewrite ?bind_ret.
Ltac buf_get :=
  repeat first
    [ rewrite slice_splice_same by solve_len
    | rewrite slice_splice_other by (first [left; lia | right; solve_len | solve_len])
    | rewrite slice_zeros by lia ].

Lemma slice_mid {A} a b (l pre mid post : list A) :
  l = pre ++ mid ++ post → length pre = a → (a + length mid)%nat = b → slice a b l = Some mid.
Proof.
  intros -> <- <-. apply slice_Some. rewrite !length_app, drop_app_length.
  split; [lia|]. replace (length pre + length mid - length pre)%nat with (length mid) by lia.
  by rewrite take_app_length.
Qed.

Lemma slice_app_l {A} a b (l k : list A) s : slice a b l = Some s → slice a b (l ++ k) = Some s.
Proof.
  intros [Hab ->]%slice_Some. apply slice_Some. rewrite length_app.
  split; [lia|]. rewrite drop_app_le by lia. rewrite take_app_le; [done|].
  rewrite length_drop. lia.
Qed.

(** The element at index [i], as in [l.get(i)] with a 64-bit index. *)
Definition get {A} (l : list A) (i : Z) : option A := l !! Z.to_nat i.
Definition get_or {A} (l : list A) (i : Z) (d : A) : A := default d (get l i).

(** Position of the first and of the last element with a property, as
    [Iterator::position] and [rposition]. *)
Fixpoint position {A} (f : A → bool) (l : list A) : option nat :=
  match l with
  | [] => None
  | a :: l => if f a then Some O else S <$> position f l
  end.

Fixpoint rposition {A} (f : A → bool) (l : list A) : option nat :=
  match l with
  | [] => None
  | a :: l => match rposition f l with
              | Some i => Some (S i)
              | None => if f a then Some O else None
              end
  end.

Lemma position_None {A} (f : A → bool) l :
  position f l = None ↔ Forall (λ a, f a = false) l.
Proof.
  induction l as [|a l IH]; simpl; [by split; [constructor|]|].
  rewrite Forall_cons, <-IH. destruct (f a); simpl; [naive_solver|].
  destruct (position f l); naive_solver.
Qed.

Lemma position_app_first {A} (f : A → bool) l a l' :
  Forall (λ x, f x = false) l → f a = true → position f (l ++ a :: l') = Some (length l).
Proof.
  induction 1 as [|x l Hx _ IH]; intros Ha; simpl; [by rewrite Ha|].
  rewrite Hx, IH by done. done.
Qed.

(** [for (slot, x) in slots.iter_mut().zip(xs) { *slot = f(x) }]. *)
Fixpoint zip_assign {A B} (f : B → A) (slots : list A) (xs : list B) : list A :=
  match slots, xs with
  | _ :: slots, x :: xs => f x :: zip_assign f slots xs
  | slots, _ => slots
  end.

Lemma length_zip_assign {A B} (f : B → A) slots xs :
  length (zip_assign f slots xs) = length slots.
Proof. revert xs; induction slots; intros [|x xs]; simpl; auto. Qed.

Lemma zip_assign_app {A B} (f : B → A) slots xs :
  zip_assign f slots xs = (f <$> take (length slots) xs) ++ drop (length xs) slots.
Proof.
  revert xs; induction slots as [|s slots IH]; intros [|x xs]; simpl; try done.
  by rewrite IH.
Qed.

(** A 16-byte array (a GUID), element by element. *)
Lemma length_16_inv {A} (l : list A) :
  length l = 16%nat →
  ∃ a b c d e f g h i j k m n o p q, l = [a; b; c; d; e; f; g; h; i; j; k; m; n; o; p; q].
Proof.
  intros Hl. do 16 (destruct l as [|? l]; [discriminate|]).
  destruct l; [|discriminate]. by repeat eexists.
Qed.

(** ** Buffers filled slot by slot *)

Lemma splice_app {A} (pre mid rest d : list A) :
  length d = length mid → splice (length pre) d (pre ++ mid ++ rest) = pre ++ d ++ rest.
Proof.
  intros Hd. unfold splice. rewrite take_app_length. rewrite Hd, <-drop_drop.
  by rewrite drop_app_length, drop_app_length.
Qed.

(** The image of an array of optional records in a zeroed region: the
    encoding of each record in its slot, zeros elsewhere. *)
Definition slot_bytes {A} (n : nat) (enc : A → list Z) (o : option A) : list Z :=
  match o with Some e => enc e | None => zeros n end.
Definition slots_image {A} (n : nat) (enc : A → list Z) (es : list (option A)) : list Z :=
  concat (slot_bytes n enc <$> es).

Lemma foldM_slots {E A} (base n : nat) (enc : A → list Z)
    (f : list Z → nat * option A → res E (list Z)) (es : list (option A)) :
  (∀ buf j, f buf (j, None) = Ok buf) →
  (∀ buf j e, Some e ∈ es → length (enc e) = n ∧
     f buf (j, Some e) = copy_range (base + j * n) (base + j * n + n) (enc e) buf) →
  ∀ i pre post, length pre = (base + i * n)%nat →
  foldM f (pre ++ zeros (length es * n) ++ post) (imap (λ j o, ((i + j)%nat, o)) es)
    = Ok (pre ++ slots_image n enc es ++ post).
Proof.
  intros HN HS. induction es as [|o es IH]; intros i pre post Hpre; [done|].
  cbn [imap foldM length]. rewrite Nat.add_0_r.
  assert (Hz : zeros (S (length es) * n) = zeros n ++ zeros (length es * n)).
  { unfold zeros. by rewrite <-replicate_add. }
  assert (Hstep : f (pre ++ zeros (S (length es) * n) ++ post) (i, o)
    = Ok ((pre ++ slot_bytes n enc o) ++ zeros (length es * n) ++ post)).
  { rewrite Hz. destruct o as [e|]; simpl.
    - destruct (HS (pre ++ (zeros n ++ zeros (length es * n)) ++ post) i e) as [Hl ->];
        [set_solver|].
      rewrite copy_range_ok by solve_len.
      rewrite <-Hpre, <-!app_assoc, splice_app by solve_len. done.
    - rewrite HN. by rewrite <-!app_assoc. }
  rewrite Hstep. simpl.
  assert (Hlen : length (slot_bytes n enc o) = n).
  { destruct o as [e|]; simpl; [|apply length_zeros]. apply (HS [] O e). set_solver. }
  rewrite (imap_ext _ (λ j o, ((S i + j)%nat, o))) by (intros; simpl; f_equal; lia).
  rewrite IH.
  - unfold slots_image. simpl. by rewrite <-!app_assoc.
  - intros buf j e He. apply HS. set_solver.
  - rewrite length_app, Hlen. lia.
Qed.

Lemma foldM_omap {E S A B} (f : S → B → res E S) (g : A → option B) s (l : list A) :
  foldM f s (omap g l) = foldM (λ s a, match g a with Some b => f s b | None => Ok s end) s l.
Proof.
  revert s; induction l as [|a l IH]; intros s; [done|]. simpl.
  destruct (g a); simpl; [|by rewrite <-IH]. destruct (f s b); simpl; auto.
Qed.

Lemma slots_image_chunks {A} (n : nat) (enc : A → list Z) es :
  (0 < n)%nat → (∀ e, Some e ∈ es → length (enc e) = n) →
  chunks_exact n (slots_image n enc es) = slot_bytes n enc <$> es.
Proof.
  intros Hn Henc. apply chunks_exact_concat; [done|].
  apply Forall_forall. intros c [o [-> Ho]]%list_elem_of_fmap.
  destruct o; simpl; [by apply Henc|apply length_zeros].
Qed.

Lemma length_slots_image {A} (n : nat) (enc : A → list Z) es :
  (∀ e, Some e ∈ es → length (enc e) = n) →
  length (slots_image n enc es) = (length es * n)%nat.
Proof.
  intros Henc. unfold slots_image. rewrite (length_concat_const n).
  - by rewrite length_fmap.
  - apply Forall_forall. intros c [o [-> Ho]]%list_elem_of_fmap.
    destruct o; simpl; [by apply Henc|apply length_zeros].
Qed.

Lemma slots_image_ok {A} (n : nat) (enc : A → list Z) es :
  (∀ e, Some e ∈ es → bytes_ok (enc e)) → bytes_ok (slots_image n enc es).
Proof.
  intros Henc. apply Forall_concat. apply Forall_forall.
  intros c [o [-> Ho]]%list_elem_of_fmap. destruct o; simpl; [by apply Henc|apply zeros_ok].
Qed.
