(* ===== verification/Io.v ===== *)
(** Byte streams: the parts of [std::io::Read] and [std::io::Write] the
    disk-image crates use.

    The crates are generic in [R: Read] and [W: Write]; the classes [Read]
    and [Write] are those traits (one call that may transfer fewer bytes
    than asked), and [read_exact], [write_all] and [copy_to_sink] are the
    provided methods written out as loops. [ReadLaws] and [WriteLaws] state
    what a client relies on; the byte slice, a reader that returns one byte
    per call, [Vec<u8>] and a size-limited sink are the instances. *)

From S2P Require Import Prelude.

Inductive io_error :=
| UnexpectedEof
| WriteZero
| OtherIo (code : Z).

(** ** Writers *)

Class Write (W : Type) :=
  write : W → list Z → res io_error (nat * W).

(** [Write::write_all]: calls [write] until the buffer is consumed; a call
    that accepts nothing is the error [WriteZero]. A call that claims more
    bytes than it was given makes the reslicing panic. *)
Fixpoint write_all_fuel `{Write W} (fuel : nat) (w : W) (buf : list Z) : res io_error W :=
  match buf, fuel with
  | [], _ => Ok w
  | _ :: _, O => Panic
  | _ :: _, S fuel =>
      '(n, w) ← write w buf;
      if bool_decide (n = 0)%nat then Err WriteZero
      else if bool_decide (length buf < n)%nat then Panic
      else write_all_fuel fuel w (drop n buf)
  end.
Definition write_all `{Write W} (w : W) (buf : list Z) : res io_error W :=
  write_all_fuel (length buf) w buf.

Class WriteLaws (W : Type) `{Write W} := {
  written : W → list Z;
  write_prefix w buf n w' :
    write w buf = Ok (n, w') →
    (n ≤ length buf)%nat ∧ written w' = written w ++ take n buf;
}.

Section write_all.
Context `{WriteLaws W}.

Lemma write_all_fuel_written fuel (w : W) buf w' :
  write_all_fuel fuel w buf = Ok w' → written w' = written w ++ buf.
Proof.
  revert w buf; induction fuel as [|fuel IH]; intros w buf Hw.
  { destruct buf; simpl in Hw; inv_ok; subst. by rewrite app_nil_r. }
  destruct buf as [|b buf]; [simpl in Hw; inv_ok; subst; by rewrite app_nil_r|].
  simpl in Hw. inv_ok. destruct v as [n w1].
  repeat case_bool_decide; try discriminate.
  apply write_prefix in Hv as [_ Hw1]. apply IH in Hw.
  rewrite Hw, Hw1, <-app_assoc. by rewrite take_drop.
Qed.

(** A successful [write_all] appended exactly the buffer. *)
Lemma write_all_written (w : W) buf w' :
  write_all w buf = Ok w' → written w' = written w ++ buf.
Proof. apply write_all_fuel_written. Qed.
End write_all.

(** [Vec<u8>] as a writer: every call takes the whole buffer. *)
#[global] Instance vec_write : Write (list Z) := fun w buf => Ok (length buf, w ++ buf).
#[global] Program Instance vec_write_laws : WriteLaws (list Z) := {| written := fun w => w |}.
Next Obligation. intros w buf n w' [= <- <-]. by rewrite firstn_all. Qed.

Lemma vec_write_all (w buf : list Z) : write_all w buf = Ok (w ++ buf).
Proof.
  unfold write_all. destruct buf as [|b buf]; simpl; [by rewrite app_nil_r|].
  rewrite bool_decide_eq_false_2 by lia. rewrite drop_all. by destruct (length buf).
Qed.

(** A sink of fixed capacity ([&mut [u8]]): it accepts what still fits. *)
Record limited := { room : nat; sunk : list Z }.
#[global] Instance limited_write : Write limited := fun w buf =>
  let n := Nat.min (room w) (length buf) in
  Ok (n, {| room := room w - n; sunk := sunk w ++ take n buf |}).
#[global] Program Instance limited_write_laws : WriteLaws limited := {| written := sunk |}.
Next Obligation. intros w buf n w' [= <- <-]. split; [lia|done]. Qed.

(** ** Readers *)

Class Read (R : Type) :=
  read : R → nat → res io_error (list Z * R).

(** [Read::read_exact]: reads until the buffer is full; an empty read is
    the error [UnexpectedEof]. *)
Fixpoint read_exact_fuel `{Read R} (fuel : nat) (r : R) (n : nat) (acc : list Z)
    : res io_error (list Z * R) :=
  if bool_decide (n = 0)%nat then Ok (acc, r)
  else match fuel with
  | O => Panic
  | S fuel =>
      '(bs, r) ← read r n;
      match bs with
      | [] => Err UnexpectedEof
      | _ => read_exact_fuel fuel r (n - length bs) (acc ++ bs)
      end
  end.
Definition read_exact `{Read R} (r : R) (n : nat) : res io_error (list Z * R) :=
  read_exact_fuel n r n [].

(** Size of the stack buffer [io::copy] moves bytes through. *)
Definition COPY_BUF : nat := N.to_nat 8192.

(** [io::copy(&mut reader.take(n), &mut sink())]: discards up to [n] bytes
    and reports how many there were. *)
Fixpoint copy_to_sink_fuel `{Read R} (fuel : nat) (r : R) (n : nat) (count : Z)
    : res io_error (Z * R) :=
  if bool_decide (n = 0)%nat then Ok (count, r)
  else match fuel with
  | O => Panic
  | S fuel =>
      '(bs, r) ← read r (Nat.min n COPY_BUF);
      match bs with
      | [] => Ok (count, r)
      | _ => copy_to_sink_fuel fuel r (n - length bs) (count + zlen bs)
      end
  end.
Definition copy_to_sink `{Read R} (r : R) (n : Z) : res io_error (Z * R) :=
  copy_to_sink_fuel (Z.to_nat n) r (Z.to_nat n) 0.

Class ReadLaws (R : Type) `{Read R} := {
  remaining : R → list Z;
  read_total (r : R) n : ∃ bs r', read r n = Ok (bs, r');
  read_prefix (r : R) n bs r' :
    read r n = Ok (bs, r') → (length bs ≤ n)%nat ∧ remaining r = bs ++ remaining r';
  read_progress (r : R) n bs r' :
    read r n = Ok (bs, r') → (0 < n)%nat → remaining r ≠ [] → bs ≠ [];
}.

Section read_exact.
Context `{ReadLaws R}.

Lemma read_exact_fuel_spec fuel (r : R) n acc :
  (n ≤ fuel)%nat → (n ≤ length (remaining r))%nat →
  ∃ r', read_exact_fuel fuel r n acc = Ok (acc ++ take n (remaining r), r') ∧
        remaining r' = drop n (remaining r).
Proof.
  revert r n acc; induction fuel as [|fuel IH]; intros r n acc Hf Hn.
  { replace n with O by lia. simpl. exists r. by rewrite take_0, app_nil_r, drop_0. }
  simpl. case_bool_decide.
  { subst n. exists r. by rewrite take_0, app_nil_r, drop_0. }
  destruct (read_total r n) as (bs & r1 & Hr). rewrite Hr. simpl.
  pose proof (read_progress _ _ _ _ Hr) as Hp. apply read_prefix in Hr as [Hlen Hrem].
  destruct bs as [|b bs]; [destruct Hp; [lia| |done]; intros Hnil;
    rewrite Hnil in Hn; simpl in Hn; lia|].
  rewrite Hrem, length_app in Hn.
  destruct (IH r1 (n - length (b :: bs))%nat (acc ++ b :: bs)) as (r' & Hr' & Hd);
    [simpl in *; lia|lia|].
  exists r'. rewrite Hr', Hd, Hrem.
  rewrite take_app_ge, drop_app_ge by lia. by rewrite <-app_assoc.
Qed.

(** [read_exact] returns the next [n] bytes and leaves the rest, however
    the reader splits them over its calls. *)
Lemma read_exact_spec (r : R) n :
  (n ≤ length (remaining r))%nat →
  ∃ r', read_exact r n = Ok (take n (remaining r), r') ∧
        remaining r' = drop n (remaining r).
Proof. intros. by apply (read_exact_fuel_spec n r n []). Qed.

Lemma read_exact_fuel_eof fuel (r : R) n acc :
  (n ≤ fuel)%nat → (length (remaining r) < n)%nat →
  read_exact_fuel fuel r n acc = Err UnexpectedEof.
Proof.
  revert r n acc; induction fuel as [|fuel IH]; intros r n acc Hf Hn; [lia|].
  simpl. rewrite bool_decide_eq_false_2 by lia.
  destruct (read_total r n) as (bs & r1 & Hr). rewrite Hr. simpl.
  apply read_prefix in Hr as [Hlen Hrem]. destruct bs as [|b bs]; [done|].
  rewrite Hrem, length_app in Hn. apply IH; simpl in *; lia.
Qed.

Lemma read_exact_eof (r : R) n :
  (length (remaining r) < n)%nat → read_exact r n = Err UnexpectedEof.
Proof. by apply read_exact_fuel_eof. Qed.

Lemma read_exact_inv (r : R) n bs r' :
  read_exact r n = Ok (bs, r') →
  length bs = n ∧ remaining r = bs ++ remaining r'.
Proof.
  intros Hr. destruct (decide (n ≤ length (remaining r))%nat) as [Hn|Hn].
  - destruct (read_exact_spec r n Hn) as (r1 & Hr1 & Hd). rewrite Hr1 in Hr.
    injection Hr as <- <-. rewrite Hd, take_drop, length_take. split; [lia|done].
  - rewrite read_exact_eof in Hr by lia. discriminate.
Qed.

Lemma copy_to_sink_fuel_spec fuel (r : R) n c :
  (n ≤ fuel)%nat →
  ∃ r', copy_to_sink_fuel fuel r n c
          = Ok (c + Z.of_nat (Nat.min n (length (remaining r))), r') ∧
        remaining r' = drop n (remaining r).
Proof.
  revert r n c; induction fuel as [|fuel IH]; intros r n c Hf.
  { replace n with O by lia. simpl. exists r. rewrite drop_0. by rewrite Z.add_0_r. }
  cbn [copy_to_sink_fuel]. case_bool_decide.
  { subst n. exists r. simpl. by rewrite drop_0, Z.add_0_r. }
  destruct (read_total r (Nat.min n COPY_BUF)) as (bs & r1 & Hr). rewrite Hr. simpl.
  pose proof (read_progress _ _ _ _ Hr) as Hp. apply read_prefix in Hr as [Hlen Hrem].
  assert (0 < COPY_BUF)%nat as Hbuf by (unfold COPY_BUF; lia).
  destruct bs as [|b bs].
  { exists r1. simpl in Hrem. rewrite <-Hrem. destruct (remaining r) as [|x l]; last first.
    { destruct Hp; [lia|done|done]. }
    simpl. rewrite Nat.min_0_r, Z.add_0_r. by destruct n. }
  destruct (IH r1 (n - length (b :: bs))%nat (c + zlen (b :: bs))) as (r' & Hr' & Hd);
    [simpl in *; lia|].
  exists r'. rewrite Hr', Hd, Hrem. rewrite drop_app_ge by lia. split; [|done].
  do 2 f_equal. rewrite length_app. unfold zlen. simpl length in *. lia.
Qed.

Lemma copy_to_sink_spec (r : R) n :
  0 ≤ n →
  ∃ r', copy_to_sink r n = Ok (Z.min n (zlen (remaining r)), r') ∧
        remaining r' = drop (Z.to_nat n) (remaining r).
Proof.
  intros. destruct (copy_to_sink_fuel_spec (Z.to_nat n) r (Z.to_nat n) 0)
    as (r' & Hr & Hd); [done|].
  exists r'. unfold copy_to_sink. rewrite Hr, Hd. split; [|done].
  do 2 f_equal. unfold zlen. lia.
Qed.
End read_exact.

(** [&[u8]] as a reader. *)
#[global] Instance slice_read : Read (list Z) := fun r n => Ok (take n r, drop n r).
#[global] Program Instance slice_read_laws : ReadLaws (list Z) := {| remaining := fun r => r |}.
Next Obligation. intros r n. by eexists _, _. Qed.
Next Obligation.
  intros r n bs r' [= <- <-]. rewrite length_take. split; [lia|by rewrite take_drop].
Qed.
Next Obligation. intros r n bs r' [= <- <-] Hn Hr. by destruct r, n; simpl; try lia. Qed.

(** A reader that returns at most one byte per call. *)
Record trickle := { trickle_bytes : list Z }.
#[global] Instance trickle_read : Read trickle := fun r n =>
  let k := Nat.min n 1 in
  Ok (take k (trickle_bytes r), {| trickle_bytes := drop k (trickle_bytes r) |}).
#[global] Program Instance trickle_read_laws : ReadLaws trickle :=
  {| remaining := trickle_bytes |}.
Next Obligation. intros r n. by eexists _, _. Qed.
Next Obligation.
  intros r n bs r' [= <- <-]. rewrite length_take. split; [lia|simpl; by rewrite take_drop].
Qed.
Next Obligation.
  intros [bs] n ? r' [= <- <-] Hn Hr. simpl in *. destruct bs; [done|].
  by replace (Nat.min n 1) with 1%nat by lia.
Qed.
