(* ===== verification/Utf.v ===== *)
(** Rust strings as sequences of Unicode scalar values, with the UTF-16 and
    UTF-8 encodings of the standard library ([str::encode_utf16],
    [String::from_utf16_lossy], [char::encode_utf8]). *)

From S2P Require Import Prelude.

(** A [char] is a scalar value: a code point that is not a surrogate. *)
Definition is_char (c : Z) : Prop := 0 ≤ c < 0xD800 ∨ 0xE000 ≤ c ≤ 0x10FFFF.
#[global] Instance is_char_dec c : Decision (is_char c).
Proof. unfold is_char. apply _. Defined.

Abbreviation ustring := (list Z).
Definition is_ustring (s : ustring) : Prop := Forall is_char s.

(** The scalar values of an ASCII literal. *)
Definition ustr (s : string) : ustring := str_bytes s.

Definition REPLACEMENT : Z := 0xFFFD.

(** ** UTF-16 *)

Definition utf16_units (c : Z) : list Z :=
  if c <? 0x10000 then [c]
  else [0xD800 + (c - 0x10000) / 0x400; 0xDC00 + (c - 0x10000) mod 0x400].

Definition encode_utf16 (s : ustring) : list Z := s ≫= utf16_units.

Definition is_surrogate (u : Z) : bool := (0xD800 <=? u) && (u <=? 0xDFFF).
Definition is_low_surrogate (u : Z) : bool := (0xDC00 <=? u) && (u <=? 0xDFFF).

(** [String::from_utf16_lossy]: an unpaired surrogate becomes U+FFFD. *)
Fixpoint from_utf16_lossy (us : list Z) : ustring :=
  match us with
  | [] => []
  | u :: rest =>
      if negb (is_surrogate u) then u :: from_utf16_lossy rest
      else if 0xDC00 <=? u then REPLACEMENT :: from_utf16_lossy rest
      else match rest with
           | [] => [REPLACEMENT]
           | v :: rest' =>
               if is_low_surrogate v
               then 0x10000 + (u - 0xD800) * 0x400 + (v - 0xDC00) :: from_utf16_lossy rest'
               else REPLACEMENT :: from_utf16_lossy rest
           end
  end.

(** ** UTF-8 *)

Definition encode_utf8 (c : Z) : list Z :=
  if c <? 0x80 then [c]
  else if c <? 0x800 then [0xC0 + c / 0x40; 0x80 + c mod 0x40]
  else if c <? 0x10000 then
    [0xE0 + c / 0x1000; 0x80 + c / 0x40 mod 0x40; 0x80 + c mod 0x40]
  else
    [0xF0 + c / 0x40000; 0x80 + c / 0x1000 mod 0x40; 0x80 + c / 0x40 mod 0x40;
     0x80 + c mod 0x40].

(** The bytes of a string, and [str] comparison by them. *)
Definition utf8 (s : ustring) : list Z := s ≫= encode_utf8.
Fixpoint lex_leb (a b : list Z) : bool :=
  match a, b with
  | [], _ => true
  | _ :: _, [] => false
  | x :: a, y :: b => (x <? y) || ((x =? y) && lex_leb a b)
  end.
Definition str_le (a b : ustring) : Prop := lex_leb (utf8 a) (utf8 b) = true.
#[global] Instance str_le_dec a b : Decision (str_le a b).
Proof. unfold str_le. apply _. Defined.

(** ** Lemmas *)

Lemma utf16_units_range c : is_char c → Forall is_u16 (utf16_units c).
Proof.
  unfold is_char, utf16_units, is_uint. intros Hc.
  destruct (Z.ltb_spec c 0x10000); repeat constructor; try lia.
  all: pose proof (Z.mod_pos_bound (c - 0x10000) 0x400).
  all: pose proof (Z.div_pos (c - 0x10000) 0x400).
  all: pose proof (Z.div_lt_upper_bound (c - 0x10000) 0x400 0x400); lia.
Qed.

Lemma encode_utf16_cons c s : encode_utf16 (c :: s) = utf16_units c ++ encode_utf16 s.
Proof. done. Qed.

Lemma encode_utf16_range s : is_ustring s → Forall is_u16 (encode_utf16 s).
Proof.
  induction 1 as [|c s Hc _ IH]; [constructor|].
  apply Forall_app; split; [by apply utf16_units_range|done].
Qed.

(** A NUL unit can only come from a NUL character. *)
Lemma utf16_units_nonzero c : is_char c → c ≠ 0 → Forall (λ u, u ≠ 0) (utf16_units c).
Proof.
  unfold is_char, utf16_units. intros Hc H0.
  destruct (Z.ltb_spec c 0x10000); repeat constructor; try lia.
  all: pose proof (Z.mod_pos_bound (c - 0x10000) 0x400).
  all: pose proof (Z.div_pos (c - 0x10000) 0x400); lia.
Qed.

Lemma encode_utf16_nonzero s :
  is_ustring s → Forall (λ c, c ≠ 0) s → Forall (λ u, u ≠ 0) (encode_utf16 s).
Proof.
  intros Hs H0. induction Hs as [|c s Hc _ IH]; [constructor|].
  apply Forall_cons in H0 as [? ?].
  apply Forall_app; split; [by apply utf16_units_nonzero|auto].
Qed.

(** Decoding one encoded scalar value in front of any tail. *)
Lemma from_utf16_lossy_units c us :
  is_char c → from_utf16_lossy (utf16_units c ++ us) = c :: from_utf16_lossy us.
Proof.
  intros Hc. unfold utf16_units. unfold is_char in Hc.
  destruct (Z.ltb_spec c 0x10000) as [Hlt|Hge]; cbn [app from_utf16_lossy].
  - unfold is_surrogate. rewrite (proj2 (andb_false_iff _ _)); [done|].
    destruct Hc; [left; apply Z.leb_gt | right; apply Z.leb_gt]; lia.
  - assert (0 ≤ (c - 0x10000) / 0x400 < 0x400) as Hq.
    { split; [apply Z.div_pos; lia | apply Z.div_lt_upper_bound; lia]. }
    pose proof (Z.mod_pos_bound (c - 0x10000) 0x400 ltac:(lia)) as Hm.
    pose proof (Z.div_mod (c - 0x10000) 0x400 ltac:(lia)) as Hd.
    unfold is_surrogate, is_low_surrogate.
    repeat match goal with
    | |- context [?a <=? ?b] =>
        first [rewrite (proj2 (Z.leb_le a b)) by lia | rewrite (proj2 (Z.leb_gt a b)) by lia]
    end.
    simpl. f_equal. lia.
Qed.

Lemma from_utf16_lossy_app s us :
  is_ustring s → from_utf16_lossy (encode_utf16 s ++ us) = s ++ from_utf16_lossy us.
Proof.
  induction 1 as [|c s Hc _ IH]; [done|].
  rewrite encode_utf16_cons, <-app_assoc, from_utf16_lossy_units, IH by done. done.
Qed.

(** UTF-16 round trip. *)
Lemma from_utf16_lossy_encode s : is_ustring s → from_utf16_lossy (encode_utf16 s) = s.
Proof.
  intros. rewrite <-(app_nil_r (encode_utf16 s)), from_utf16_lossy_app by done.
  by rewrite app_nil_r.
Qed.

Lemma encode_utf8_ok c : is_char c → bytes_ok (encode_utf8 c).
Proof.
  unfold is_char, encode_utf8, bytes_ok, is_uint. intros Hc.
  pose proof (Z.mod_pos_bound c 0x40 ltac:(lia)).
  pose proof (Z.mod_pos_bound (c / 0x40) 0x40 ltac:(lia)).
  pose proof (Z.mod_pos_bound (c / 0x1000) 0x40 ltac:(lia)).
  zcases; repeat constructor; try lia.
  all: try (apply Z.add_nonneg_nonneg; [lia|apply Z.div_pos; lia]).
  all: match goal with
       | |- ?k + ?x / ?d < _ =>
           pose proof (Z.div_lt_upper_bound x d (2 ^ 8 - k) ltac:(lia) ltac:(lia)); lia
       end.
Qed.

Lemma encode_utf8_ascii c : 0 ≤ c < 0x80 → encode_utf8 c = [c].
Proof. intros. unfold encode_utf8. by rewrite (proj2 (Z.ltb_lt _ _)) by lia. Qed.

Lemma lex_leb_total a b : lex_leb a b = true ∨ lex_leb b a = true.
Proof.
  revert b; induction a as [|x a IH]; intros [|y b]; simpl; auto.
  destruct (Z.ltb_spec x y), (Z.ltb_spec y x); simpl; auto.
  assert (x = y) as -> by lia. rewrite Z.eqb_refl. simpl. apply IH.
Qed.

#[global] Instance str_le_total : Total str_le.
Proof. intros a b. apply lex_leb_total. Qed.
