(* ===== verification/Order.v ===== *)
(** Sorting and searching as the standard library documents them:
    [slice::sort_by], which is stable, and [slice::binary_search_by]. *)

From S2P Require Import Prelude Utf.

(** ** Stable sorting *)

Section sort.
Context {A : Type} (leb : A → A → bool).

Fixpoint insert_sorted (x : A) (l : list A) : list A :=
  match l with
  | [] => [x]
  | y :: l' => if leb x y then x :: l else y :: insert_sorted x l'
  end.

Definition stable_sort (l : list A) : list A := foldr insert_sorted [] l.

Lemma insert_sorted_perm x l : insert_sorted x l ≡ₚ x :: l.
Proof.
  induction l as [|y l IH]; simpl; [done|].
  destruct (leb x y); [done|]. rewrite IH. apply perm_swap.
Qed.

Lemma stable_sort_perm l : stable_sort l ≡ₚ l.
Proof. induction l as [|x l IH]; simpl; [done|]. by rewrite insert_sorted_perm, IH. Qed.

Definition sorted (l : list A) : Prop := StronglySorted (λ x y, leb x y = true) l.

Context (leb_total : ∀ x y, leb x y = true ∨ leb y x = true).
Context (leb_trans : ∀ x y z, leb x y = true → leb y z = true → leb x z = true).

Lemma insert_sorted_sorted x l : sorted l → sorted (insert_sorted x l).
Proof.
  induction l as [|y l IH]; intros Hs; simpl; [by repeat constructor|].
  inversion Hs as [|? ? Hl Hy]; subst. destruct (leb x y) eqn:Hxy.
  - constructor; [done|]. constructor; [done|].
    eapply Forall_impl; [exact Hy|]. intros z Hz. simpl in Hz. by eapply leb_trans.
  - constructor; [by apply IH|]. rewrite insert_sorted_perm. constructor; [|done].
    destruct (leb_total x y); congruence.
Qed.

Lemma stable_sort_sorted l : sorted (stable_sort l).
Proof. induction l; simpl; [constructor|by apply insert_sorted_sorted]. Qed.

Lemma insert_sorted_head x l : Forall (λ y, leb x y = true) l → insert_sorted x l = x :: l.
Proof. intros Hl. destruct l as [|y l]; [done|]. simpl. inversion Hl as [|? ? Hy]; subst. by rewrite Hy. Qed.

(** A sorted list is left alone. *)
Lemma stable_sort_id l : sorted l → stable_sort l = l.
Proof.
  induction 1 as [|x l Hs IH Hx]; [done|]. simpl. rewrite IH. by apply insert_sorted_head.
Qed.
End sort.

(** Sorting commutes with a map that keeps the order. *)
Lemma stable_sort_fmap {A B} (f : A → B) (leb1 : A → A → bool) (leb2 : B → B → bool) l :
  (∀ x y, leb1 x y = leb2 (f x) (f y)) →
  f <$> stable_sort leb1 l = stable_sort leb2 (f <$> l).
Proof.
  intros Hf. induction l as [|x l IH]; [done|].
  rewrite fmap_cons. unfold stable_sort in *. cbn [foldr]. rewrite <-IH. clear IH.
  induction (foldr (insert_sorted leb1) [] l) as [|y s IH]; [done|].
  rewrite fmap_cons. cbn [insert_sorted]. rewrite <-Hf. destruct (leb1 x y); [done|]. rewrite fmap_cons. by rewrite IH.
Qed.

(** ** Byte strings in lexicographic order *)

Lemma lex_leb_trans a b c : lex_leb a b = true → lex_leb b c = true → lex_leb a c = true.
Proof.
  revert b c; induction a as [|x a IH]; intros [|y b] [|z c]; simpl; try done.
  destruct (Z.ltb_spec x y), (Z.ltb_spec y z), (Z.ltb_spec x z); simpl; try lia; try done;
    destruct (Z.eqb_spec x y), (Z.eqb_spec y z), (Z.eqb_spec x z); simpl; try lia; try done.
  apply IH.
Qed.

Lemma lex_leb_antisym a b : lex_leb a b = true → lex_leb b a = true → a = b.
Proof.
  revert b; induction a as [|x a IH]; intros [|y b]; simpl; try done.
  destruct (Z.ltb_spec x y), (Z.ltb_spec y x); simpl; try lia;
    destruct (Z.eqb_spec x y), (Z.eqb_spec y x); simpl; try lia; try done.
  intros. f_equal; [done|]. by apply IH.
Qed.

(** [Iterator::cmp] on bytes. *)
Definition lex_cmp (a b : list Z) : comparison :=
  if bool_decide (a = b) then Eq else if lex_leb a b then Lt else Gt.

Lemma lex_cmp_eq a b : lex_cmp a b = Eq ↔ a = b.
Proof. unfold lex_cmp. case_bool_decide; [done|]. by destruct (lex_leb a b). Qed.

Lemma lex_cmp_gt a b : lex_cmp a b = Gt ↔ lex_leb a b = false.
Proof.
  unfold lex_cmp. case_bool_decide as Hab.
  - subst. destruct (lex_leb_total b b) as [E|E]; by rewrite E.
  - by destruct (lex_leb a b).
Qed.

(** ** Binary search

    [slice::binary_search_by]: the half of the range that can hold the
    target is kept until one element is left. [f] compares an element with
    the target. *)

Section search.
Context {A : Type} (f : A → comparison).

Fixpoint search_loop (fuel : nat) (l : list A) (base size : nat) : nat :=
  match fuel with
  | O => base
  | S fuel =>
      if (1 <? size)%nat then
        let half := (size / 2)%nat in
        let mid := (base + half)%nat in
        let base := match f <$> l !! mid with Some Gt => base | _ => mid end in
        search_loop fuel l base (size - half)
      else base
  end.

Definition binary_search_by (l : list A) : option nat :=
  let base := search_loop (length l) l 0 (length l) in
  match f <$> l !! base with Some Eq => Some base | _ => None end.

Lemma binary_search_found l i : binary_search_by l = Some i → ∃ x, l !! i = Some x ∧ f x = Eq.
Proof.
  unfold binary_search_by. destruct (l !! search_loop _ _ _ _) as [x|] eqn:Hx; simpl; [|done].
  destruct (f x) eqn:Hf; try done. intros [= <-]. eauto.
Qed.

(** The range that is kept: what lies below it is not greater than the
    target, what lies above it is greater. *)
Lemma search_loop_spec fuel l base size :
  (∀ i j x y, l !! i = Some x → l !! j = Some y → (i ≤ j)%nat → f x = Gt → f y = Gt) →
  (size ≤ fuel)%nat → (0 < size)%nat → (base + size ≤ length l)%nat →
  (∀ i x, l !! i = Some x → (base + size ≤ i)%nat → f x = Gt) →
  (base = O ∨ ∃ x, l !! base = Some x ∧ f x ≠ Gt) →
  let r := search_loop fuel l base size in
  (r < length l)%nat ∧ (∀ i x, l !! i = Some x → (r < i)%nat → f x = Gt) ∧
  (r = O ∨ ∃ x, l !! r = Some x ∧ f x ≠ Gt).
Proof.
  intros Hm. revert base size; induction fuel as [|fuel IH]; intros base size Hf Hs Hl Ha Hb;
    [lia|].
  cbn [search_loop]. destruct (Nat.ltb_spec 1 size) as [H1|H1]; last first.
  { assert (size = 1%nat) as -> by lia. split_and!; [lia| |done].
    intros i x Hi Hlt. apply (Ha i x Hi). lia. }
  assert (0 < size / 2)%nat by (apply Nat.div_str_pos; lia).
  assert (size / 2 < size)%nat by (apply Nat.div_lt; lia).
  pose proof (Nat.Div0.mul_div_le size 2).
  set (half := (size / 2)%nat) in *. clearbody half.
  destruct (lookup_lt_is_Some_2 l (base + half)) as [m Hmid]; [lia|].
  rewrite Hmid. simpl. destruct (f m) eqn:Hfm.
  1, 2: apply IH; [lia|lia|lia| |right; exists m; split; [done|congruence]];
        intros i x Hi Hle; apply (Ha i x Hi); lia.
  apply IH; [lia|lia|lia| |done].
  intros i x Hi Hle. apply (Hm (base + half)%nat i m x Hmid Hi); [lia|done].
Qed.
End search.

(** In a list sorted by a byte key the search finds an element with the key
    exactly when there is one. *)
Lemma binary_search_complete {A} (key : A → list Z) (l : list A) (k : list Z) :
  sorted (λ x y, lex_leb (key x) (key y)) l →
  (∃ x, x ∈ l ∧ key x = k) →
  is_Some (binary_search_by (λ x, lex_cmp (key x) k) l).
Proof.
  intros Hs (x & Hx & Hk). apply list_elem_of_lookup in Hx as [i Hi].
  set (f := λ x, lex_cmp (key x) k).
  assert (∀ i j x y, l !! i = Some x → l !! j = Some y → (i ≤ j)%nat → lex_leb (key x) (key y) = true)
    as Hle.
  { clear -Hs. intros i j x y Hi Hj Hij. destruct (decide (i = j)) as [->|].
    - assert (x = y) as -> by congruence. by destruct (lex_leb_total (key y) (key y)).
    - eapply (StronglySorted_app_1_elem_of (λ x y, lex_leb (key x) (key y) = true)
        (take j l) (drop j l)).
      + by rewrite take_drop.
      + apply list_elem_of_lookup. exists i. by rewrite lookup_take_lt by lia.
      + apply list_elem_of_lookup. exists 0%nat. rewrite lookup_drop. by rewrite Nat.add_0_r. }
  assert (i < length l)%nat as Hlen by by eapply lookup_lt_Some.
  destruct (search_loop_spec f (length l) l 0 (length l)) as (Hr & Ha & Hb); [..|by left|].
  { intros a b u v Hu Hv Hab Hgt. apply lex_cmp_gt. apply lex_cmp_gt in Hgt.
    apply not_true_is_false. intros Hv'. rewrite (lex_leb_trans _ _ _ (Hle _ _ _ _ Hu Hv Hab) Hv')
      in Hgt. done. }
  1-3: lia.
  { intros j y Hj Hge. apply lookup_lt_Some in Hj. lia. }
  change (is_Some (binary_search_by f l)). unfold binary_search_by. set (r := search_loop f (length l) l 0 (length l)) in *.
  destruct (lookup_lt_is_Some_2 l r Hr) as [y Hy]. rewrite Hy. simpl.
  assert (f x = Eq) as Hfx by by apply lex_cmp_eq.
  assert (i ≤ r)%nat as Hir.
  { apply Nat.le_ngt. intros Hlt. pose proof (Ha i x Hi Hlt). congruence. }
  destruct (f y) eqn:Hfy; [done|exfalso..].
  - assert (lex_leb (key x) (key y) = true) as H1 by by eapply Hle.
    subst f. simpl in *. rewrite Hk in H1. unfold lex_cmp in Hfy. case_bool_decide as Hne; [done|].
    destruct (lex_leb (key y) k) eqn:E; [|done]. apply Hne. by apply lex_leb_antisym.
  - destruct Hb as [Hb|(z & Hz & Hfz)]; [|congruence].
    assert (i = O) as -> by lia. rewrite Hb in Hy. simplify_eq. congruence.
Qed.
