(* ===== verification/PartError.v ===== *)
(** Errors of the [parttable] crate (libs/parttable/src/error.rs). *)

From S2P Require Import Prelude Io.

Inductive ParttableError :=
| Io (e : io_error)
| Gpt (msg : string)
| InvalidPlacement (msg : string).

(** The [?] operator on an I/O result ([#[from] std::io::Error]). *)
Definition from_io {A} (r : res io_error A) : res ParttableError A := map_err Io r.
