(* ===== verification/Mbr.v ===== *)
(** Master Boot Record codec (libs/parttable/src/mbr.rs).

    Models the partition entry, its 16-byte encoding, the protective MBR and
    the sector reader and writer; shows the round trip of a written sector
    and what a protective MBR contains. *)

From S2P Require Import Prelude Io PartError.

Definition MBR_PARTITION_ENTRY_OFFSET : nat := 446.
Definition MBR_BOOT_SIGNATURE : list Z := [0x55; 0xAA].
Definition MBR_EFI_SYSTEM_TYPE : Z := 0xEF.
Definition MBR_PROTECTIVE_GPT_TYPE : Z := 0xEE.
Definition MBR_BYTES : nat := 512.
Definition MBR_ENTRY_SIZE : nat := 16.
Definition MBR_ENTRIES : nat := 4.

Record PartitionEntry := {
  bootable : bool;
  partition_type : Z;
  starting_lba : Z;
  size_lba : Z;
}.

Definition put {E} (bytes : list Z) (a b : nat) (data : list Z) : res E (list Z) :=
  copy_range a b data bytes.

Definition le_u32 (bytes : list Z) (a b : nat) : option Z :=
  v ← slice a b bytes;
  if bool_decide (length v = 4%nat) then Some (from_le_bytes v) else None.

Definition to_bytes {E} (e : PartitionEntry) : res E (list Z) :=
  entry ← put (zeros MBR_ENTRY_SIZE) 0 1 [if bootable e then 1 else 0];
  entry ← put entry 1 4 [0x00; 0x02; 0x00];
  entry ← put entry 4 5 [partition_type e];
  entry ← put entry 5 8 [0xFF; 0xFF; 0xFF];
  entry ← put entry 8 12 (to_le_bytes 4 (starting_lba e));
  put entry 12 16 (to_le_bytes 4 (size_lba e)).

Definition decode (bytes : list Z) : option PartitionEntry :=
  ptype ← bytes !! 4%nat;
  if ptype =? 0 then None else
  boot ← bytes !! 0%nat;
  start ← le_u32 bytes 8 12;
  size ← le_u32 bytes 12 16;
  Some {| bootable := negb (boot =? 0); partition_type := ptype;
          starting_lba := start; size_lba := size |}.

Definition bytes {E} (entry : PartitionEntry) : res E (list Z) :=
  enc ← to_bytes entry;
  mbr ← put (zeros MBR_BYTES) MBR_PARTITION_ENTRY_OFFSET
            (MBR_PARTITION_ENTRY_OFFSET + MBR_ENTRY_SIZE) enc;
  put mbr (MBR_BYTES - 2) MBR_BYTES MBR_BOOT_SIGNATURE.

Definition protective_size_lba (disk_size sector_size : Z) : Z :=
  match checked_div disk_size sector_size with
  | None => 0
  | Some sectors =>
      default (uint_max 32)
        (try_from 32 (Z.min (saturating_sub sectors 1) (uint_max 32)))
  end.

Definition protective_entry (disk_size sector_size : Z) : PartitionEntry :=
  {| bootable := false; partition_type := MBR_PROTECTIVE_GPT_TYPE;
     starting_lba := 1; size_lba := protective_size_lba disk_size sector_size |}.

Definition protective_bytes {E} (disk_size sector_size : Z) : res E (list Z) :=
  bytes (protective_entry disk_size sector_size).

(** One iteration of the loop of [write]. *)
Definition write_entry {E} (sector : list Z) (slot : nat * option PartitionEntry)
    : res E (list Z) :=
  match slot.2 with
  | Some entry =>
      let offset := (MBR_PARTITION_ENTRY_OFFSET + slot.1 * MBR_ENTRY_SIZE)%nat in
      enc ← to_bytes entry;
      put sector offset (offset + MBR_ENTRY_SIZE) enc
  | None => Ok sector
  end.

Definition write `{Write W} (writer : W) (entries : list (option PartitionEntry))
    : res ParttableError W :=
  sector ← foldM write_entry (zeros MBR_BYTES) (imap pair entries);
  sector ← put sector (MBR_BYTES - 2) MBR_BYTES MBR_BOOT_SIGNATURE;
  from_io (write_all writer sector).

Definition read `{Read R} (reader : R)
    : res ParttableError (list (option PartitionEntry) * R) :=
  '(sector, reader) ← from_io (read_exact reader MBR_BYTES);
  let signature := slice (MBR_BYTES - 2) MBR_BYTES sector in
  if bool_decide (signature ≠ Some MBR_BOOT_SIGNATURE)
  then Err (Gpt "invalid MBR boot signature")
  else
    let tail := drop MBR_PARTITION_ENTRY_OFFSET sector in
    let entries_region := take (MBR_ENTRIES * MBR_ENTRY_SIZE) tail in
    Ok (zip_assign decode (replicate MBR_ENTRIES None)
          (chunks_exact MBR_ENTRY_SIZE entries_region), reader).

(** ** Invariant *)

(** The field widths of an entry, and a type that marks it as used. *)
Definition entry_ok (e : PartitionEntry) : Prop :=
  is_u8 (partition_type e) ∧ partition_type e ≠ 0 ∧
  is_u32 (starting_lba e) ∧ is_u32 (size_lba e).
#[global] Instance entry_ok_dec e : Decision (entry_ok e).
Proof. unfold entry_ok. apply _. Defined.

(** The 16 bytes of an entry, field by field. *)
Definition entry_image (e : PartitionEntry) : list Z :=
  (if bootable e then 1 else 0) :: [0x00; 0x02; 0x00] ++ partition_type e ::
  [0xFF; 0xFF; 0xFF] ++ to_le_bytes 4 (starting_lba e) ++ to_le_bytes 4 (size_lba e).

(** ** Lemmas *)

Ltac mbr_consts :=
  unfold MBR_BYTES, MBR_PARTITION_ENTRY_OFFSET, MBR_ENTRY_SIZE, MBR_ENTRIES in *.

Lemma to_bytes_image {E} e : to_bytes (E:=E) e = Ok (entry_image e).
Proof. done. Qed.

Lemma mbr_length_entry_image e : length (entry_image e) = MBR_ENTRY_SIZE.
Proof. done. Qed.

Lemma mbr_decode_image e : entry_ok e → decode (entry_image e) = Some e.
Proof.
  intros (_ & Hne & Hs & Hz). unfold decode, le_u32.
  change (entry_image e !! 4%nat) with (Some (partition_type e)).
  change (entry_image e !! 0%nat) with (Some (if bootable e then 1 else 0)).
  change (slice 8 12 (entry_image e)) with (Some (to_le_bytes 4 (starting_lba e))).
  change (slice 12 16 (entry_image e)) with (Some (to_le_bytes 4 (size_lba e))).
  cbn -[from_le_bytes to_le_bytes Z.eqb]. rewrite (proj2 (Z.eqb_neq _ _)) by done.
  rewrite !from_to_le_32 by done. destruct e as [[] ? ? ?]; done.
Qed.

Lemma mbr_decode_zeros : decode (zeros MBR_ENTRY_SIZE) = None.
Proof. done. Qed.

(** The sector [write] produces: boot code, the four slots, the signature. *)
Definition sector_image (entries : list (option PartitionEntry)) : list Z :=
  zeros MBR_PARTITION_ENTRY_OFFSET ++ slots_image MBR_ENTRY_SIZE entry_image entries
  ++ MBR_BOOT_SIGNATURE.

Lemma length_sector_image entries :
  length entries = MBR_ENTRIES → length (sector_image entries) = MBR_BYTES.
Proof.
  intros Hl. unfold sector_image. rewrite !length_app, length_zeros.
  rewrite length_slots_image by (intros; apply mbr_length_entry_image). by rewrite Hl.
Qed.

Lemma sector_image_ok entries :
  (∀ e, Some e ∈ entries → is_u8 (partition_type e)) → bytes_ok (sector_image entries).
Proof.
  intros He. unfold sector_image. repeat (apply Forall_app; split).
  - apply zeros_ok.
  - apply slots_image_ok. intros e Hin. specialize (He e Hin). unfold entry_image.
    repeat first [apply Forall_app; split | apply to_le_bytes_ok | apply Forall_nil
      | apply Forall_cons; split]; try ulia. destruct (bootable e); ulia.
  - repeat constructor; ulia.
Qed.

Lemma mbr_write_image `{Write W} (w : W) entries :
  length entries = MBR_ENTRIES →
  write w entries = from_io (write_all w (sector_image entries)).
Proof.
  intros Hl. unfold write.
  assert (zeros MBR_BYTES = zeros MBR_PARTITION_ENTRY_OFFSET
    ++ zeros (length entries * MBR_ENTRY_SIZE) ++ zeros 2) as -> by by rewrite Hl.
  rewrite (imap_ext _ (λ j o, ((0 + j)%nat, o))) by done.
  rewrite (foldM_slots MBR_PARTITION_ENTRY_OFFSET MBR_ENTRY_SIZE entry_image) by done.
  rewrite bind_ret. unfold put.
  assert (Hlen : length (slots_image MBR_ENTRY_SIZE entry_image entries) = 64%nat).
  { rewrite length_slots_image by done. by rewrite Hl. }
  rewrite copy_range_ok; [|rewrite !length_app, !length_zeros, Hlen; mbr_consts; simpl; lia|done].
  rewrite bind_ret. apply (f_equal (λ s, from_io (write_all w s))). rewrite app_assoc.
  change (MBR_BYTES - 2)%nat with 510%nat.
  assert (length (zeros MBR_PARTITION_ENTRY_OFFSET
    ++ slots_image MBR_ENTRY_SIZE entry_image entries) = 510%nat) as Hpre.
  { rewrite length_app, Hlen. done. }
  rewrite <-Hpre at 1. rewrite <-(app_nil_r (zeros 2)), splice_app by done.
  by rewrite app_nil_r, <-app_assoc.
Qed.

(** Reading what [write] produced, through any reader of those bytes. *)
Lemma mbr_read_image `{ReadLaws R} (r : R) entries rest :
  length entries = MBR_ENTRIES → (∀ e, Some e ∈ entries → entry_ok e) →
  remaining r = sector_image entries ++ rest →
  ∃ r', read r = Ok (entries, r') ∧ remaining r' = rest.
Proof.
  intros Hl Hok Hr. pose proof (length_sector_image _ Hl) as Hlen.
  destruct (read_exact_spec r MBR_BYTES) as (r' & Hread & Hrest).
  { rewrite Hr, length_app. lia. }
  exists r'. rewrite Hr, <-Hlen, take_app_length, drop_app_length in *.
  split; [|done]. unfold read. rewrite Hlen in Hread. rewrite Hread. cbn [from_io map_err]. rewrite bind_ret.
  assert (Himg : length (slots_image MBR_ENTRY_SIZE entry_image entries) = 64%nat).
  { rewrite length_slots_image by done. by rewrite Hl. }
  rewrite bool_decide_eq_false_2.
  2: { intros Hne; apply Hne. change (MBR_BYTES - 2)%nat with 510%nat.
    rewrite slice_ok by (rewrite Hlen; unfold MBR_BYTES; lia). f_equal.
    unfold sector_image. rewrite app_assoc, drop_app_length'; [done|].
    rewrite length_app, length_zeros, Himg. done. }
  do 2 f_equal. unfold sector_image. rewrite drop_app_length' by (by rewrite length_zeros).
  rewrite take_app_length' by (by rewrite Himg).
  rewrite slots_image_chunks by (done || (unfold MBR_ENTRY_SIZE; lia)).
  rewrite zip_assign_app, length_replicate, drop_ge, app_nil_r.
  2: { rewrite length_fmap, length_replicate. lia. }
  rewrite firstn_all2 by (rewrite length_fmap; lia). rewrite <-list_fmap_compose.
  rewrite <-(list_fmap_id entries) at 2. apply list_fmap_ext.
  intros i [e|] Hi; simpl; [|apply mbr_decode_zeros].
  apply mbr_decode_image, Hok. by eapply list_elem_of_lookup_2.
Qed.

Lemma mbr_bytes_image {E} e :
  bytes (E:=E) e = Ok (sector_image [Some e; None; None; None]).
Proof. reflexivity. Qed.

Lemma protective_size_spec disk_size sector_size :
  0 ≤ disk_size → 0 < sector_size →
  protective_size_lba disk_size sector_size
    = Z.min (saturating_sub (disk_size / sector_size) 1) (uint_max 32).
Proof.
  intros Hd Hs. unfold protective_size_lba, checked_div.
  rewrite (proj2 (Z.eqb_neq _ _)) by lia.
  rewrite try_from_ok; [done|]. ulia.
Qed.

(** ** Properties *)

(** A sector written by [mbr::write] from any four entries (used ones
    well formed) is 512 bytes long, and [mbr::read] of those bytes, through
    any reader and whatever follows them, returns exactly those entries and
    consumes exactly the sector. *)
Theorem mbr_roundtrip entries :
  length entries = MBR_ENTRIES → (∀ e, Some e ∈ entries → entry_ok e) →
  ∃ sector, write (W:=list Z) [] entries = Ok sector ∧ length sector = MBR_BYTES ∧
  ∀ R `(ReadLaws R) (r : R) rest, remaining r = sector ++ rest →
    ∃ r', read r = Ok (entries, r') ∧ remaining r' = rest.
Proof.
  intros Hl Hok. exists (sector_image entries).
  rewrite mbr_write_image, vec_write_all by done. split_and!; [done|by apply length_sector_image|].
  intros. by apply mbr_read_image.
Qed.

Lemma mbr_roundtrip_witness :
  let e := {| bootable := true; partition_type := MBR_EFI_SYSTEM_TYPE;
              starting_lba := 2048; size_lba := 65536 |} in
  ∃ sector, write (W:=list Z) [] [None; Some e; None; None] = Ok sector ∧
    ∃ r', read {| trickle_bytes := sector ++ [7] |} = Ok ([None; Some e; None; None], r').
Proof.
  intros e.
  destruct (mbr_roundtrip [None; Some e; None; None]) as (sector & Hw & _ & Hr).
  - reflexivity.
  - intros e' He. apply elem_of_cons in He as [|He]; [discriminate|].
    apply elem_of_cons in He as [[= ->]|He]; [|set_solver].
    vm_compute. intuition congruence.
  - exists sector. split; [exact Hw|].
    destruct (Hr trickle trickle_read trickle_read_laws {| trickle_bytes := sector ++ [7] |} [7] eq_refl)
      as (r' & H & _).
    exists r'. exact H.
Defined.

(** The protective MBR of a disk holds one entry, of type 0xEE from LBA
    1, whose extent ends with the disk, or covers 2^32 - 1 sectors when the
    disk is larger than the 32-bit field can say; the other slots are empty. *)
Theorem protective_mbr_covers_disk disk_size sector_size :
  is_u64 disk_size → 0 < sector_size → sector_size ≤ disk_size →
  ∃ sector e, protective_bytes (E:=ParttableError) disk_size sector_size = Ok sector ∧
    length sector = MBR_BYTES ∧
    read sector = Ok ([Some e; None; None; None], []) ∧
    partition_type e = MBR_PROTECTIVE_GPT_TYPE ∧ bootable e = false ∧
    starting_lba e = 1 ∧
    starting_lba e + size_lba e = Z.min (disk_size / sector_size) (2 ^ 32).
Proof.
  intros Hd Hs Hle. set (e := protective_entry disk_size sector_size).
  assert (Hq : 1 ≤ disk_size / sector_size) by (apply Z.div_le_lower_bound; lia).
  pose proof (protective_size_spec disk_size sector_size ltac:(apply Hd) Hs) as Hsize.
  exists (sector_image [Some e; None; None; None]), e.
  split_and!; [apply mbr_bytes_image|by apply length_sector_image| |done|done|done|].
  - destruct (mbr_read_image (sector_image [Some e; None; None; None])
      [Some e; None; None; None] []) as (r' & Hr & Hrest); [done| |by rewrite app_nil_r|].
    + intros e' He'. apply elem_of_cons in He' as [[= ->]|]; [|set_solver].
      unfold entry_ok, e, protective_entry, MBR_PROTECTIVE_GPT_TYPE; simpl.
      rewrite Hsize. ulia.
    + simpl in Hrest. rewrite Hr, Hrest. done.
  - unfold e, protective_entry; simpl. rewrite Hsize. ulia.
Qed.

Lemma protective_mbr_covers_disk_witness :
  ∃ sector e, protective_bytes (E:=ParttableError) (1024 * 512) 512 = Ok sector ∧
    read sector = Ok ([Some e; None; None; None], []) ∧
    starting_lba e + size_lba e = 1024.
Proof.
  destruct (protective_mbr_covers_disk (1024 * 512) 512)
    as (sector & e & Hb & _ & Hr & _ & _ & _ & Hs).
  - unfold is_uint. lia.
  - lia.
  - lia.
  - exists sector, e. split; [exact Hb|]. split; [exact Hr|]. rewrite Hs. reflexivity.
Defined.
