(* ===== verification/Crc.v ===== *)
(** The [crc32fast] dependency, which only its callers are under src/:
    [crc32fast::hash] is a parameter, of which the code uses that it is a
    function of the bytes with a 32-bit result. The IEEE CRC-32 is the
    instance the witnesses use. *)

From S2P Require Import Prelude.

Class Crc32 := {
  crc32_hash : list Z → Z;
  crc32_range bs : is_u32 (crc32_hash bs);
}.

Definition crc32_step (c : Z) : Z :=
  if Z.odd c then Z.lxor (Z.shiftr c 1) 0xEDB88320 else Z.shiftr c 1.
Definition crc32_byte (c b : Z) : Z :=
  Nat.iter 8 crc32_step (Z.lxor c (b mod 256)).
Definition crc32_ieee (bs : list Z) : Z :=
  Z.lxor (fold_left crc32_byte bs 0xFFFFFFFF) 0xFFFFFFFF.

Lemma lxor_u32 a b : is_u32 a → is_u32 b → is_u32 (Z.lxor a b).
Proof.
  unfold is_uint. intros Ha Hb. split; [apply Z.lxor_nonneg; lia|].
  destruct (Z.eq_dec (Z.lxor a b) 0) as [->|Hne]; [lia|].
  assert (0 ≤ Z.lxor a b) by (apply Z.lxor_nonneg; lia).
  apply Z.log2_lt_pow2; [lia|].
  pose proof (Z.log2_lxor a b ltac:(lia) ltac:(lia)).
  assert (∀ z, 0 ≤ z < 2 ^ 32 → Z.log2 z < 32) as Hlog.
  { intros z Hz. destruct (Z.eq_dec z 0) as [->|]; [done|]. apply Z.log2_lt_pow2; lia. }
  pose proof (Hlog a Ha). pose proof (Hlog b Hb). lia.
Qed.

Lemma crc32_step_u32 c : is_u32 c → is_u32 (crc32_step c).
Proof.
  intros Hc. assert (is_u32 (Z.shiftr c 1)).
  { rewrite Z.shiftr_div_pow2 by lia. unfold is_uint in *. change (2 ^ 1) with 2.
    split; [apply Z.div_pos; lia|]. apply Z.div_lt_upper_bound; lia. }
  unfold crc32_step. destruct (Z.odd c); [|done]. apply lxor_u32; [done|].
  unfold is_uint. lia.
Qed.

Lemma crc32_ieee_u32 bs : is_u32 (crc32_ieee bs).
Proof.
  unfold crc32_ieee. apply lxor_u32; [|unfold is_uint; lia].
  assert (∀ c, is_u32 c → is_u32 (fold_left crc32_byte bs c)) as Hf.
  { induction bs as [|b bs IH]; intros c Hc; simpl; [done|]. apply IH.
    unfold crc32_byte. assert (is_u32 (Z.lxor c (b mod 256))) as Hx.
    { apply lxor_u32; [done|]. pose proof (Z.mod_pos_bound b 256). unfold is_uint. lia. }
    revert Hx. generalize (Z.lxor c (b mod 256)). intros z Hz. simpl.
    do 8 apply crc32_step_u32. done. }
  apply Hf. unfold is_uint. lia.
Qed.

Definition crc32_instance : Crc32 :=
  {| crc32_hash := crc32_ieee; crc32_range := crc32_ieee_u32 |}.

(** The check value of the CRC-32 catalogue. *)
Example crc32_check : crc32_ieee (str_bytes "123456789") = 0xCBF43926.
Proof. vm_compute. reflexivity. Qed.
