(* ===== verification/GptHeader.v ===== *)
(** GPT header wire format (libs/parttable/src/gpt/header.rs).

    Models [GptHeader::parse] and [GptHeader::encode] with their field
    accessors; shows that a parsed encoding gives the header back and which
    sectors [parse] accepts. *)

From S2P Require Import Prelude Io PartError Crc.

Definition GPT_HEADER_SIZE : nat := 92.
Definition HDR_SIGNATURE : nat * nat := (0, 8)%nat.
Definition HDR_REVISION : nat * nat := (8, 12)%nat.
Definition HDR_SIZE : nat * nat := (12, 16)%nat.
Definition HDR_CRC : nat * nat := (16, 20)%nat.
Definition HDR_CURRENT_LBA : nat * nat := (24, 32)%nat.
Definition HDR_BACKUP_LBA : nat * nat := (32, 40)%nat.
Definition HDR_FIRST_USABLE : nat * nat := (40, 48)%nat.
Definition HDR_LAST_USABLE : nat * nat := (48, 56)%nat.
Definition HDR_DISK_GUID : nat * nat := (56, 72)%nat.
Definition HDR_ENTRIES_LBA : nat * nat := (72, 80)%nat.
Definition HDR_ENTRIES_COUNT : nat * nat := (80, 84)%nat.
Definition HDR_ENTRY_SIZE : nat * nat := (84, 88)%nat.
Definition HDR_ENTRIES_CRC : nat * nat := (88, 92)%nat.

Definition SIGNATURE : list Z := str_bytes "EFI PART".

Record GptHeader := {
  entries_lba : Z;
  first_usable_lba : Z;
  last_usable_lba : Z;
  disk_guid : list Z;
  entries_count : Z;
  entries_size : Z;
  entries_crc : Z;
}.

Definition field (sector : list Z) (range : nat * nat) : res ParttableError (list Z) :=
  ok_or (slice range.1 range.2 sector) (Gpt "GPT header truncated").

Definition le_u32 (sector : list Z) (range : nat * nat) : res ParttableError Z :=
  bytes ← field sector range;
  if bool_decide (length bytes = 4%nat) then Ok (from_le_bytes bytes)
  else Err (Gpt "GPT header field truncated").

Definition le_u64 (sector : list Z) (range : nat * nat) : res ParttableError Z :=
  bytes ← field sector range;
  if bool_decide (length bytes = 8%nat) then Ok (from_le_bytes bytes)
  else Err (Gpt "GPT header field truncated").

Definition put {E} (header : list Z) (range : nat * nat) (bytes : list Z) : res E (list Z) :=
  copy_range range.1 range.2 bytes header.

(** [u32::try_from(GPT_HEADER_SIZE).unwrap_or(0)]. *)
Definition header_size_u32 : Z := default 0 (try_from 32 (Z.of_nat GPT_HEADER_SIZE)).

Section codec.
Context `{Crc32}.

Definition parse (sector : list Z) : res ParttableError GptHeader :=
  signature ← field sector HDR_SIGNATURE;
  if bool_decide (signature ≠ SIGNATURE) then Err (Gpt "invalid GPT signature") else
  revision ← le_u32 sector HDR_REVISION;
  if revision <? 0x00010000 then Err (Gpt "unsupported GPT revision") else
  header_size ← le_u32 sector HDR_SIZE;
  if header_size <? header_size_u32 then Err (Gpt "GPT header too small") else
  header_crc ← le_u32 sector HDR_CRC;
  prefix ← field sector (0%nat, GPT_HEADER_SIZE);
  crc_buffer ← put prefix HDR_CRC (zeros 4);
  if negb (crc32_hash crc_buffer =? header_crc) then Err (Gpt "GPT header CRC mismatch") else
  guid ← field sector HDR_DISK_GUID;
  e_lba ← le_u64 sector HDR_ENTRIES_LBA;
  first ← le_u64 sector HDR_FIRST_USABLE;
  last ← le_u64 sector HDR_LAST_USABLE;
  count ← le_u32 sector HDR_ENTRIES_COUNT;
  size ← le_u32 sector HDR_ENTRY_SIZE;
  crc ← le_u32 sector HDR_ENTRIES_CRC;
  Ok {| entries_lba := e_lba; first_usable_lba := first; last_usable_lba := last;
        disk_guid := guid; entries_count := count; entries_size := size;
        entries_crc := crc |}.

(** The LBA of the entries array written into a header copy. *)
Definition encoded_entries_lba {E} (h : GptHeader) (backup : bool)
    (sector_count sector_size : Z) : res E Z :=
  if backup then
    sectors ← div_ceil_checked
      (saturating_mul 64 (entries_count h) (entries_size h)) sector_size;
    Ok (saturating_sub (saturating_sub sector_count 1) sectors)
  else Ok (entries_lba h).

Definition encode {E} (h : GptHeader) (backup : bool)
    (sector_count sector_size crc : Z) : res E (list Z) :=
  header ← put (zeros GPT_HEADER_SIZE) HDR_SIGNATURE SIGNATURE;
  header ← put header HDR_REVISION (to_le_bytes 4 0x00010000);
  header ← put header HDR_SIZE (to_le_bytes 4 header_size_u32);
  let '(current_lba, backup_lba) :=
    if backup then (saturating_sub sector_count 1, 1)
    else (1, saturating_sub sector_count 1) in
  header ← put header HDR_CURRENT_LBA (to_le_bytes 8 current_lba);
  header ← put header HDR_BACKUP_LBA (to_le_bytes 8 backup_lba);
  header ← put header HDR_FIRST_USABLE (to_le_bytes 8 (first_usable_lba h));
  header ← put header HDR_LAST_USABLE (to_le_bytes 8 (last_usable_lba h));
  header ← put header HDR_DISK_GUID (disk_guid h);
  e_lba ← encoded_entries_lba h backup sector_count sector_size;
  header ← put header HDR_ENTRIES_LBA (to_le_bytes 8 e_lba);
  header ← put header HDR_ENTRIES_COUNT (to_le_bytes 4 (entries_count h));
  header ← put header HDR_ENTRY_SIZE (to_le_bytes 4 (entries_size h));
  header ← put header HDR_ENTRIES_CRC (to_le_bytes 4 crc);
  let header_crc := crc32_hash header in
  header ← put header HDR_CRC (to_le_bytes 4 header_crc);
  copy_range 0 GPT_HEADER_SIZE header (zeros 512).

End codec.

(** ** Invariant: the fields have their width. *)

Definition header_ok (h : GptHeader) : Prop :=
  is_u64 (entries_lba h) ∧ is_u64 (first_usable_lba h) ∧ is_u64 (last_usable_lba h) ∧
  length (disk_guid h) = 16%nat ∧ bytes_ok (disk_guid h) ∧
  is_u32 (entries_count h) ∧ is_u32 (entries_size h) ∧ is_u32 (entries_crc h).
#[global] Instance header_ok_dec h : Decision (header_ok h).
Proof. unfold header_ok, bytes_ok. apply _. Defined.

(** The header with the entries location and checksum [encode] writes. *)
Definition with_entries (h : GptHeader) (lba crc : Z) : GptHeader :=
  {| entries_lba := lba; first_usable_lba := first_usable_lba h;
     last_usable_lba := last_usable_lba h; disk_guid := disk_guid h;
     entries_count := entries_count h; entries_size := entries_size h;
     entries_crc := crc |}.

(** ** Lemmas *)

(** The 92 bytes of a header, field by field, with the given checksum. *)
Definition header_image (h : GptHeader) (current backup lba crc : Z) (hcrc : list Z) : list Z :=
  SIGNATURE ++ to_le_bytes 4 0x00010000 ++ to_le_bytes 4 92 ++ hcrc ++ zeros 4 ++
  to_le_bytes 8 current ++ to_le_bytes 8 backup ++
  to_le_bytes 8 (first_usable_lba h) ++ to_le_bytes 8 (last_usable_lba h) ++
  disk_guid h ++ to_le_bytes 8 lba ++ to_le_bytes 4 (entries_count h) ++
  to_le_bytes 4 (entries_size h) ++ to_le_bytes 4 crc.

Lemma length_header_image h cur bak lba crc hcrc :
  length (disk_guid h) = 16%nat → length hcrc = 4%nat →
  length (header_image h cur bak lba crc hcrc) = GPT_HEADER_SIZE.
Proof.
  intros Hg Hc. unfold header_image. rewrite !length_app, !length_to_le_bytes, Hg, Hc.
  rewrite length_zeros. reflexivity.
Qed.

Section lemmas.
Context `{Crc32}.

Definition current_of (backup : bool) (sector_count : Z) : Z :=
  if backup then saturating_sub sector_count 1 else 1.

(** [encode] writes the fields at their offsets, with the checksum of the
    header whose checksum field is zero. *)
Lemma header_encode_image {E} h backup sc ss crc lba :
  length (disk_guid h) = 16%nat → encoded_entries_lba (E:=E) h backup sc ss = Ok lba →
  encode (E:=E) h backup sc ss crc =
    Ok (let img := header_image h (current_of backup sc) (current_of (negb backup) sc) lba crc in
        img (to_le_bytes 4 (crc32_hash (img (zeros 4)))) ++ zeros 420).
Proof.
  intros Hg Hlba. unfold encode. unfold current_of, header_image.
  destruct h as [? ? ? g ? ? ?]. simpl in Hg.
  destruct (length_16_inv g Hg) as (?&?&?&?&?&?&?&?&?&?&?&?&?&?&?&?&->). clear Hg.
  rewrite Hlba. destruct backup; reflexivity.
Qed.

Lemma le_u32_slice sector range z :
  slice range.1 range.2 sector = Some (to_le_bytes 4 z) → is_u32 z →
  le_u32 sector range = Ok z.
Proof.
  intros Hs Hz. unfold le_u32, field. rewrite Hs. cbn [ok_or]. rewrite bind_ret.
  rewrite bool_decide_eq_true_2 by apply length_to_le_bytes. by rewrite from_to_le_32.
Qed.

Lemma le_u64_slice sector range z :
  slice range.1 range.2 sector = Some (to_le_bytes 8 z) → is_u64 z →
  le_u64 sector range = Ok z.
Proof.
  intros Hs Hz. unfold le_u64, field. rewrite Hs. cbn [ok_or]. rewrite bind_ret.
  rewrite bool_decide_eq_true_2 by apply length_to_le_bytes. by rewrite from_to_le_64.
Qed.

(** [parse] of a header image with a matching checksum, whatever follows. *)
Lemma header_parse_image h cur bak lba crc rest :
  header_ok h → is_u64 lba → is_u32 crc →
  let img := header_image h cur bak lba crc in
  parse (img (to_le_bytes 4 (crc32_hash (img (zeros 4)))) ++ rest)
    = Ok (with_entries h lba crc).
Proof.
  intros (_ & Hf & Hl & Hg & _ & Hn & Hs & _) Hlba Hcrc img.
  destruct h as [? fu lu g n s ?]; simpl in Hf, Hl, Hg, Hn, Hs.
  destruct (length_16_inv g Hg) as (?&?&?&?&?&?&?&?&?&?&?&?&?&?&?&?&->). clear Hg.
  set (sector := img (to_le_bytes 4 (crc32_hash (img (zeros 4)))) ++ rest).
  assert (field sector HDR_SIGNATURE = Ok SIGNATURE) as Hsig by reflexivity.
  assert (field sector (0%nat, GPT_HEADER_SIZE)
    = Ok (img (to_le_bytes 4 (crc32_hash (img (zeros 4)))))) as Hpre by reflexivity.
  assert (field sector HDR_DISK_GUID
    = Ok [x; x0; x1; x2; x3; x4; x5; x6; x7; x8; x9; x10; x11; x12; x13; x14])
    as Hguid by reflexivity.
  unfold parse. rewrite Hsig, bind_ret.
  rewrite bool_decide_eq_false_2 by (intros Hne; by apply Hne).
  rewrite (le_u32_slice _ HDR_REVISION 0x10000), bind_ret by (reflexivity || ulia).
  rewrite (le_u32_slice _ HDR_SIZE 92), bind_ret by (reflexivity || ulia).
  rewrite (le_u32_slice _ HDR_CRC (crc32_hash (img (zeros 4)))), bind_ret
    by (reflexivity || apply crc32_range).
  rewrite Hpre, bind_ret. cbn [Z.ltb Z.compare].
  change (0x10000 <? 0x10000) with false. change (92 <? header_size_u32) with false.
  cbv iota.
  replace (put (E:=ParttableError) (img (to_le_bytes 4 (crc32_hash (img (zeros 4)))))
    HDR_CRC (zeros 4)) with (Ok (E:=ParttableError) (img (zeros 4))) by reflexivity.
  rewrite bind_ret, Z.eqb_refl. cbn [negb]. cbv iota.
  rewrite Hguid, bind_ret.
  rewrite (le_u64_slice _ HDR_ENTRIES_LBA lba), bind_ret by (reflexivity || done).
  rewrite (le_u64_slice _ HDR_FIRST_USABLE fu), bind_ret by (reflexivity || done).
  rewrite (le_u64_slice _ HDR_LAST_USABLE lu), bind_ret by (reflexivity || done).
  rewrite (le_u32_slice _ HDR_ENTRIES_COUNT n), bind_ret by (reflexivity || done).
  rewrite (le_u32_slice _ HDR_ENTRY_SIZE s), bind_ret by (reflexivity || done).
  rewrite (le_u32_slice _ HDR_ENTRIES_CRC crc), bind_ret by (reflexivity || done).
  reflexivity.
Qed.
End lemmas.

(** ** Properties *)

Lemma encoded_entries_lba_ok {E} h backup sc ss :
  header_ok h → is_u64 sc → (backup = true → 0 < ss) →
  ∃ lba, encoded_entries_lba (E:=E) h backup sc ss = Ok lba ∧ is_u64 lba.
Proof.
  intros (Hlba & _ & _ & _ & _ & Hc & Hs & _) Hsc Hss.
  unfold encoded_entries_lba. destruct backup; [|by eexists].
  unfold div_ceil_checked. rewrite (proj2 (Z.eqb_neq _ _)) by (specialize (Hss eq_refl); lia).
  eexists; split; [done|].
  pose proof (div_ceil_nonneg (saturating_mul 64 (entries_count h) (entries_size h)) ss).
  specialize (Hss eq_refl).
  assert (0 ≤ saturating_mul 64 (entries_count h) (entries_size h)) by (uint_unfold; nia).
  uint_unfold. lia.
Qed.

(** Encoding a header, primary or backup copy, never panics (for a
    nonzero sector size), fills exactly one 512-byte sector, and parsing that
    sector gives the header back with the entries location of that copy and
    the entries checksum that was written. *)
Theorem gpt_header_roundtrip `{Crc32} h backup sector_count sector_size crc :
  header_ok h → is_u64 sector_count → 0 < sector_size → is_u32 crc →
  ∃ sector lba,
    encode (E:=ParttableError) h backup sector_count sector_size crc = Ok sector ∧
    length sector = 512%nat ∧
    encoded_entries_lba (E:=ParttableError) h backup sector_count sector_size = Ok lba ∧
    parse sector = Ok (with_entries h lba crc).
Proof.
  intros Hh Hsc Hss Hcrc.
  destruct (encoded_entries_lba_ok (E:=ParttableError) h backup sector_count sector_size)
    as (lba & Hlba & Hlba64); [done|done|lia|].
  assert (length (disk_guid h) = 16%nat) as Hg by apply Hh.
  eexists _, lba. split_and!; [by apply header_encode_image| |done|by apply header_parse_image].
  rewrite length_app, length_header_image by (done || apply length_to_le_bytes). done.
Qed.

Lemma gpt_header_roundtrip_witness :
  let h := {| entries_lba := 2; first_usable_lba := 34; last_usable_lba := 16318;
              disk_guid := replicate 16 0xCD; entries_count := 128; entries_size := 128;
              entries_crc := 0 |} in
  ∃ sector, encode (H:=crc32_instance) (E:=ParttableError) h true 0x4000 512 0xDEADBEEF
              = Ok sector ∧
    parse (H:=crc32_instance) sector = Ok (with_entries h 16351 0xDEADBEEF).
Proof.
  intros h.
  destruct (@gpt_header_roundtrip crc32_instance h true 0x4000 512 0xDEADBEEF)
    as (sector & lba & He & _ & Hl & Hp).
  - unfold header_ok, is_uint, bytes_ok, h; simpl. split_and!; try lia.
    repeat constructor; lia.
  - unfold is_uint; lia.
  - lia.
  - unfold is_uint; lia.
  - exists sector. split; [exact He|]. vm_compute in Hl. injection Hl as <-. exact Hp.
Defined.

Lemma le_u32_range sector range z : bytes_ok sector → le_u32 sector range = Ok z → is_u32 z.
Proof.
  intros Hok Hz. unfold le_u32, field in Hz. inv_ok. case_bool_decide as H4; inv_ok.
  subst z. pose proof (slice_bytes_ok _ _ _ _ Hv Hok) as Hb.
  apply from_le_bytes_range in Hb. unfold zlen in Hb. rewrite H4 in Hb. exact Hb.
Qed.

Lemma le_u64_range sector range z : bytes_ok sector → le_u64 sector range = Ok z → is_u64 z.
Proof.
  intros Hok Hz. unfold le_u64, field in Hz. inv_ok. case_bool_decide as H8; inv_ok.
  subst z. pose proof (slice_bytes_ok _ _ _ _ Hv Hok) as Hb.
  apply from_le_bytes_range in Hb. unfold zlen in Hb. rewrite H8 in Hb. exact Hb.
Qed.

Lemma gpt_header_parse_ok `{Crc32} sector h :
  bytes_ok sector → parse sector = Ok h → header_ok h.
Proof.
  intros Hok Hp. unfold parse in Hp. inv_ok.
  case_bool_decide; [discriminate|]. inv_ok.
  destruct (Z.ltb_spec v0 0x10000); [discriminate|]. inv_ok.
  destruct (Z.ltb_spec v1 header_size_u32); [discriminate|]. inv_ok.
  destruct (Z.eqb_spec (crc32_hash v4) v2); [|discriminate].
  cbn [negb] in Hp. inv_ok. subst h. unfold field in Hv5. inv_ok.
  unfold header_ok; simpl.
  split_and!; eauto using le_u32_range, le_u64_range.
  - by apply length_slice in Hv5.
  - by eapply slice_bytes_ok.
Qed.

(** [parse] accepts only sectors that carry the signature, a revision of
    at least 1.0, a declared size of at least 92 bytes and a stored checksum
    equal to that of the first 92 bytes with the checksum field zeroed; the
    fields of an accepted header have their widths. *)
Theorem gpt_header_parse_sound `{Crc32} sector h :
  length sector = 512%nat → bytes_ok sector → parse sector = Ok h →
  take 8 sector = SIGNATURE ∧
  (∃ rev size crc, le_u32 sector HDR_REVISION = Ok rev ∧ 0x10000 ≤ rev ∧
     le_u32 sector HDR_SIZE = Ok size ∧ 92 ≤ size ∧
     le_u32 sector HDR_CRC = Ok crc ∧
     crc32_hash (splice 16 (zeros 4) (take 92 sector)) = crc) ∧
  header_ok h.
Proof.
  intros Hlen Hok Hp. pose proof (gpt_header_parse_ok _ _ Hok Hp) as Hh.
  unfold parse in Hp. inv_ok.
  case_bool_decide as Hsig; [discriminate|]. inv_ok.
  destruct (Z.ltb_spec v0 0x10000); [discriminate|]. inv_ok.
  destruct (Z.ltb_spec v1 header_size_u32) as [|Hsize]; [discriminate|]. inv_ok.
  destruct (Z.eqb_spec (crc32_hash v4) v2) as [Hc|]; [|discriminate].
  cbn [negb] in Hp. inv_ok.
  unfold field in Hv, Hv3. inv_ok.
  split; [|split; [|done]].
  - apply slice_Some in Hv as [_ ->]. exact Hsig.
  - exists v0, v1, v2. change header_size_u32 with 92 in Hsize. split_and!; try done.
    rewrite <-Hc. apply slice_Some in Hv3 as [_ Hv3]. simpl in Hv3. rewrite drop_0 in Hv3.
    unfold put in Hv4. rewrite copy_range_ok in Hv4.
    + injection Hv4 as <-. by rewrite Hv3.
    + rewrite Hv3. simpl. rewrite length_take. lia.
    + done.
Qed.

Definition sample_header : GptHeader :=
  {| entries_lba := 2; first_usable_lba := 34; last_usable_lba := 16318;
     disk_guid := replicate 16 0xCD; entries_count := 128; entries_size := 128;
     entries_crc := 0xDEADBEEF |}.
Definition sample_sector : list Z :=
  match encode (H:=crc32_instance) (E:=ParttableError) sample_header false 0x4000 512 0xDEADBEEF
  with Ok s => s | _ => [] end.

Lemma gpt_header_parse_sound_witness :
  parse (H:=crc32_instance) sample_sector = Ok sample_header ∧
  take 8 sample_sector = SIGNATURE ∧ header_ok sample_header.
Proof.
  assert (parse (H:=crc32_instance) sample_sector = Ok sample_header) as Hp
    by (vm_compute; reflexivity).
  destruct (@gpt_header_parse_sound crc32_instance sample_sector sample_header)
    as (Hs & _ & Hh).
  - vm_compute; reflexivity.
  - apply (bool_decide_eq_true_1 (Forall is_u8 sample_sector)). vm_compute; reflexivity.
  - exact Hp.
  - split; [exact Hp|]. split; [exact Hs|exact Hh].
Defined.
