(* ===== verification/GptPartition.v ===== *)
(** GPT partition entry wire format (libs/parttable/src/gpt/partition.rs).

    Models [Partition], its 128-byte encoding and decoding; shows the round
    trip, names that do not fit included. *)

From S2P Require Import Prelude Utf.

Definition LINUX_FS_GUID : list Z :=
  [0xaf; 0x3d; 0xc6; 0x0f; 0x83; 0x84; 0x72; 0x47;
   0x8e; 0x79; 0x3d; 0x69; 0xd8; 0x47; 0x7d; 0xe4].

Definition ENT_TYPE_GUID : nat * nat := (0, 16)%nat.
Definition ENT_UNIQUE_GUID : nat * nat := (16, 32)%nat.
Definition ENT_STARTING_LBA : nat * nat := (32, 40)%nat.
Definition ENT_ENDING_LBA : nat * nat := (40, 48)%nat.
Definition ENT_ATTRIBUTES : nat * nat := (48, 56)%nat.
Definition ENT_NAME_START : nat := 56.
Definition ENT_NAME_MAX_BYTES : nat := 72.

Record Partition := {
  type_guid : list Z;
  unique_guid : list Z;
  starting_lba : Z;
  ending_lba : Z;
  attributes : Z;
  name : ustring;
}.

#[global] Instance Partition_eq_dec : EqDecision Partition.
Proof. solve_decision. Defined.

Definition put {E} (bytes : list Z) (range : nat * nat) (data : list Z) : res E (list Z) :=
  copy_range range.1 range.2 data bytes.

(** [bytes.get(range)], the private helper [slice] of the source. *)
Definition field (bytes : list Z) (range : nat * nat) : option (list Z) :=
  slice range.1 range.2 bytes.

Definition le_u64 (bytes : list Z) (range : nat * nat) : option Z :=
  value ← field bytes range;
  if bool_decide (length value = 8%nat) then Some (from_le_bytes value) else None.

Definition NAME_RANGE : nat * nat :=
  (ENT_NAME_START, ENT_NAME_START + ENT_NAME_MAX_BYTES)%nat.

(** The name field: 36 two-byte chunks, the first ones overwritten by the
    UTF-16 units of the name. *)
Definition name_bytes (nm : ustring) : list Z :=
  concat (zip_assign (to_le_bytes 2) (chunks_exact 2 (zeros ENT_NAME_MAX_BYTES))
            (encode_utf16 nm)).

Definition encode {E} (p : Partition) : res E (list Z) :=
  bytes ← put (zeros 128) ENT_TYPE_GUID (type_guid p);
  bytes ← put bytes ENT_UNIQUE_GUID (unique_guid p);
  bytes ← put bytes ENT_STARTING_LBA (to_le_bytes 8 (starting_lba p));
  bytes ← put bytes ENT_ENDING_LBA (to_le_bytes 8 (ending_lba p));
  bytes ← put bytes ENT_ATTRIBUTES (to_le_bytes 8 (attributes p));
  put bytes NAME_RANGE (name_bytes (name p)).

Definition decode_name (bytes : list Z) : option ustring :=
  raw ← field bytes NAME_RANGE;
  let units := from_le_bytes <$> chunks_exact 2 raw in
  let end_ := default (length units) (position (λ u, u =? 0) units) in
  from_utf16_lossy <$> slice 0 end_ units.

Definition decode (bytes : list Z) : option Partition :=
  tguid ← field bytes ENT_TYPE_GUID;
  if bool_decide (tguid = zeros 16) then None else
  uguid ← field bytes ENT_UNIQUE_GUID;
  nm ← decode_name bytes;
  start ← le_u64 bytes ENT_STARTING_LBA;
  end_ ← le_u64 bytes ENT_ENDING_LBA;
  attrs ← le_u64 bytes ENT_ATTRIBUTES;
  Some {| type_guid := tguid; unique_guid := uguid; starting_lba := start;
          ending_lba := end_; attributes := attrs; name := nm |}.

(** ** Invariant *)

(** Field widths, a type GUID that marks the slot as used, and a name made
    of scalar values other than NUL. *)
Definition partition_ok (p : Partition) : Prop :=
  length (type_guid p) = 16%nat ∧ bytes_ok (type_guid p) ∧ type_guid p ≠ zeros 16 ∧
  length (unique_guid p) = 16%nat ∧ bytes_ok (unique_guid p) ∧
  is_u64 (starting_lba p) ∧ is_u64 (ending_lba p) ∧ is_u64 (attributes p) ∧
  is_ustring (name p) ∧ Forall (λ c, c ≠ 0) (name p).
#[global] Instance partition_ok_dec p : Decision (partition_ok p).
Proof. unfold partition_ok, bytes_ok, is_ustring. apply _. Defined.

(** The name fits the 36 UTF-16 units of its field. *)
Definition name_fits (p : Partition) : Prop := (length (encode_utf16 (name p)) ≤ 36)%nat.

(** What survives of a name: its first 36 units. *)
Definition stored_name (nm : ustring) : ustring :=
  from_utf16_lossy (take 36 (encode_utf16 nm)).

Definition with_name (p : Partition) (nm : ustring) : Partition :=
  {| type_guid := type_guid p; unique_guid := unique_guid p;
     starting_lba := starting_lba p; ending_lba := ending_lba p;
     attributes := attributes p; name := nm |}.

(** ** Lemmas *)

(** The name field as its 36 units: the stored ones and zeros. *)
Lemma name_bytes_units nm :
  name_bytes nm = concat (to_le_bytes 2 <$>
    (take 36 (encode_utf16 nm) ++ replicate (36 - length (encode_utf16 nm)) 0)).
Proof.
  unfold name_bytes.
  change (chunks_exact 2 (zeros ENT_NAME_MAX_BYTES)) with (replicate 36 (to_le_bytes 2 0)).
  rewrite zip_assign_app, fmap_app, length_replicate. do 2 f_equal.
  rewrite fmap_replicate. by rewrite drop_replicate.
Qed.

Lemma length_name_bytes nm : length (name_bytes nm) = 72%nat.
Proof.
  rewrite name_bytes_units, (length_concat_const 2).
  - rewrite length_fmap, length_app, length_take, length_replicate. lia.
  - apply Forall_fmap, Forall_forall. intros; apply length_to_le_bytes.
Qed.

(** The first 56 bytes of an entry. *)
Definition entry_prefix (p : Partition) : list Z :=
  type_guid p ++ unique_guid p ++ to_le_bytes 8 (starting_lba p) ++
  to_le_bytes 8 (ending_lba p) ++ to_le_bytes 8 (attributes p).

Definition entry_image (p : Partition) : list Z := entry_prefix p ++ name_bytes (name p).

Lemma length_entry_prefix p :
  length (type_guid p) = 16%nat → length (unique_guid p) = 16%nat →
  length (entry_prefix p) = 56%nat.
Proof.
  intros Ht Hu. unfold entry_prefix. by rewrite !length_app, Ht, Hu, !length_to_le_bytes.
Qed.

Lemma part_length_entry_image p :
  length (type_guid p) = 16%nat → length (unique_guid p) = 16%nat →
  length (entry_image p) = 128%nat.
Proof.
  intros. unfold entry_image.
  rewrite length_app, length_entry_prefix, length_name_bytes by done. done.
Qed.

Lemma part_encode_image {E} p :
  length (type_guid p) = 16%nat → length (unique_guid p) = 16%nat →
  encode (E:=E) p = Ok (entry_image p).
Proof.
  intros Ht Hu. pose proof (length_entry_prefix p Ht Hu) as Hpre.
  trans (put (E:=E) (entry_prefix p ++ zeros 72) NAME_RANGE (name_bytes (name p))).
  - destruct p as [tg ug ? ? ? ?]; simpl in Ht, Hu.
    destruct (length_16_inv tg Ht) as (?&?&?&?&?&?&?&?&?&?&?&?&?&?&?&?&->).
    destruct (length_16_inv ug Hu) as (?&?&?&?&?&?&?&?&?&?&?&?&?&?&?&?&->).
    reflexivity.
  - pose proof (length_name_bytes (name p)) as Hn. unfold put.
    rewrite copy_range_ok.
    2: { rewrite length_app, Hpre, length_zeros. split; apply Nat.leb_le; reflexivity. }
    2: { rewrite Hn. reflexivity. }
    f_equal. pose proof (splice_app (entry_prefix p) (zeros 72) [] (name_bytes (name p))) as Hs.
    rewrite Hpre, !app_nil_r in Hs. apply Hs. by rewrite Hn.
Qed.

Lemma entry_image_ok p : partition_ok p → bytes_ok (entry_image p).
Proof.
  intros (_ & Ht & _ & _ & Hu & _). unfold entry_image, entry_prefix.
  rewrite name_bytes_units.
  repeat (apply Forall_app; split); try done; try apply to_le_bytes_ok.
  apply Forall_concat, Forall_fmap, Forall_forall. intros; apply to_le_bytes_ok.
Qed.

(** The units of the name field read back. *)
Lemma decode_units us :
  Forall is_u16 us → Forall (λ u, u ≠ 0) us → (length us ≤ 36)%nat →
  let units := us ++ replicate (36 - length us) 0 in
  slice 0 (default (length units) (position (λ u, u =? 0) units)) units = Some us.
Proof.
  intros H16 Hnz Hlen units. subst units.
  assert (Forall (λ u, (u =? 0) = false) us) as Hz.
  { eapply Forall_impl; [exact Hnz|]. intros u Hu. by apply Z.eqb_neq. }
  destruct (36 - length us)%nat as [|k] eqn:Hk; simpl replicate.
  - rewrite app_nil_r. rewrite (proj2 (position_None _ us)) by done. simpl.
    rewrite slice_ok by lia. rewrite drop_0, Nat.sub_0_r. by rewrite firstn_all.
  - rewrite position_app_first by done. simpl default.
    rewrite slice_ok by (rewrite length_app; lia).
    rewrite drop_0, Nat.sub_0_r. by rewrite take_app_length.
Qed.

Lemma decode_name_image pre nm :
  length pre = 56%nat → is_ustring nm → Forall (λ c, c ≠ 0) nm →
  decode_name (pre ++ name_bytes nm) = Some (stored_name nm).
Proof.
  intros Hpre Hu Hnz. unfold decode_name, field.
  rewrite slice_ok by (rewrite length_app, Hpre, length_name_bytes; split; apply Nat.leb_le; reflexivity).
  simpl mbind. rewrite drop_app_length' by done.
  rewrite firstn_all2 by (rewrite length_name_bytes; apply Nat.leb_le; reflexivity).
  rewrite name_bytes_units, chunks_exact_concat by
    (lia || (apply Forall_fmap, Forall_forall; intros; apply length_to_le_bytes)).
  set (us := take 36 (encode_utf16 nm)).
  assert (Forall is_u16 us) as H16 by (apply Forall_take; by apply encode_utf16_range).
  assert (Forall (λ u, u ≠ 0) us) as Hus by (apply Forall_take; by apply encode_utf16_nonzero).
  assert (length us ≤ 36)%nat as Hlen by (unfold us; rewrite length_take; lia).
  rewrite <-list_fmap_compose.
  assert (Hid : (from_le_bytes ∘ to_le_bytes 2) <$>
    (us ++ replicate (36 - length (encode_utf16 nm)) 0)
    = us ++ replicate (36 - length us) 0).
  { rewrite fmap_app, fmap_replicate. f_equal.
    - rewrite <-(list_fmap_id us) at 2. apply Forall_fmap_ext.
      eapply Forall_impl; [exact H16|]. intros u Hu16. simpl. by apply from_to_le_16.
    - unfold us. rewrite length_take. f_equal. lia. }
  rewrite Hid. by rewrite decode_units.
Qed.

Lemma part_le_u64_field bytes range z :
  field bytes range = Some (to_le_bytes 8 z) → is_u64 z → le_u64 bytes range = Some z.
Proof.
  intros Hf Hz. unfold le_u64. rewrite Hf. cbn [mbind option_bind].
  rewrite bool_decide_eq_true_2 by apply length_to_le_bytes. by rewrite from_to_le_64.
Qed.

(** Decoding an entry image, with the name as far as it was stored. *)
Lemma part_decode_image p :
  partition_ok p → decode (entry_image p) = Some (with_name p (stored_name (name p))).
Proof.
  intros (Ht & _ & Hz & Hu & _ & Hs & He & Ha & Hn & Hnz).
  pose proof (decode_name_image (entry_prefix p) (name p)
    (length_entry_prefix p Ht Hu) Hn Hnz) as Hname.
  destruct p as [tg ug st en at_ nm]; simpl in Ht, Hz, Hu, Hs, He, Ha, Hn, Hnz.
  destruct (length_16_inv tg Ht) as (?&?&?&?&?&?&?&?&?&?&?&?&?&?&?&?&->).
  destruct (length_16_inv ug Hu) as (?&?&?&?&?&?&?&?&?&?&?&?&?&?&?&?&->).
  set (img := entry_image _).
  assert (field img ENT_TYPE_GUID
    = Some [x; x0; x1; x2; x3; x4; x5; x6; x7; x8; x9; x10; x11; x12; x13; x14])
    as Htg by reflexivity.
  assert (field img ENT_UNIQUE_GUID
    = Some [x15; x16; x17; x18; x19; x20; x21; x22; x23; x24; x25; x26; x27; x28; x29; x30])
    as Hug by reflexivity.
  unfold decode. rewrite Htg. cbn [mbind option_bind].
  rewrite bool_decide_eq_false_2 by done. rewrite Hug. cbn [mbind option_bind].
  fold (entry_image {| type_guid := [x; x0; x1; x2; x3; x4; x5; x6; x7; x8; x9; x10; x11;
    x12; x13; x14]; unique_guid := [x15; x16; x17; x18; x19; x20; x21; x22; x23; x24; x25;
    x26; x27; x28; x29; x30]; starting_lba := st; ending_lba := en; attributes := at_;
    name := nm |}) in Hname. fold img in Hname. rewrite Hname. cbn [mbind option_bind].
  rewrite (part_le_u64_field img ENT_STARTING_LBA st) by (reflexivity || done).
  rewrite (part_le_u64_field img ENT_ENDING_LBA en) by (reflexivity || done).
  rewrite (part_le_u64_field img ENT_ATTRIBUTES at_) by (reflexivity || done).
  reflexivity.
Qed.

Lemma part_decode_zeros : decode (zeros 128) = None.
Proof. reflexivity. Qed.

Lemma stored_name_fits p : partition_ok p → name_fits p → stored_name (name p) = name p.
Proof.
  intros (_&_&_&_&_&_&_&_& Hn &_) Hf. unfold stored_name.
  rewrite firstn_all2 by done. by apply from_utf16_lossy_encode.
Qed.

Lemma decode_encode p :
  partition_ok p → name_fits p → decode (entry_image p) = Some p.
Proof.
  intros Hp Hf. rewrite part_decode_image, stored_name_fits by done. by destruct p.
Qed.

(** ** Properties *)

(** Every well-formed partition encodes, without panic, to 128 bytes
    that decode to the same partition with its name cut to the 36 UTF-16
    units of the field; a name that fits survives unchanged. *)
Theorem gpt_partition_roundtrip p :
  partition_ok p →
  ∃ bytes, encode (E:=unit) p = Ok bytes ∧ length bytes = 128%nat ∧ bytes_ok bytes ∧
    decode bytes = Some (with_name p (stored_name (name p))) ∧
    (name_fits p → decode bytes = Some p).
Proof.
  intros Hp. assert (Hp' := Hp). destruct Hp' as (Ht & _ & _ & Hu & _).
  exists (entry_image p).
  split_and!; [by apply part_encode_image|by apply part_length_entry_image|by apply entry_image_ok
    |by apply part_decode_image|by apply decode_encode].
Qed.

(** A name of 35 ASCII letters and one astral character: the surrogate pair
    is cut in half and the last character decodes to U+FFFD. *)
Definition sample_partition (nm : ustring) : Partition :=
  {| type_guid := LINUX_FS_GUID; unique_guid := replicate 16 7; starting_lba := 2048;
     ending_lba := 4095; attributes := 0; name := nm |}.

Lemma gpt_partition_roundtrip_witness :
  (∃ bytes, encode (E:=unit) (sample_partition (ustr "EFI")) = Ok bytes ∧
     decode bytes = Some (sample_partition (ustr "EFI"))) ∧
  (∃ bytes, encode (E:=unit) (sample_partition (replicate 35 97 ++ [0x1F600])) = Ok bytes ∧
     decode bytes = Some (sample_partition (replicate 35 97 ++ [REPLACEMENT]))).
Proof.
  split.
  - destruct (gpt_partition_roundtrip (sample_partition (ustr "EFI")))
      as (bytes & He & _ & _ & _ & Hd).
    + apply (bool_decide_eq_true_1 (partition_ok _)). vm_compute. reflexivity.
    + exists bytes. split; [exact He|]. apply Hd. vm_compute. lia.
  - destruct (gpt_partition_roundtrip (sample_partition (replicate 35 97 ++ [0x1F600])))
      as (bytes & He & _ & _ & Hd & _).
    + apply (bool_decide_eq_true_1 (partition_ok _)). vm_compute. reflexivity.
    + exists bytes. split; [exact He|exact Hd].
Defined.
