(* ===== verification/GptTable.v ===== *)
(** In-memory GPT table (libs/parttable/src/gpt/table.rs).

    [Table] is the record of the source, one definition per method. The
    abstract view of a table is the finite map from slot numbers to
    partitions; [table_refines_map] shows that the methods implement lookup,
    insertion, deletion and least-free-key on it. *)

From S2P Require Import Prelude Io PartError Crc GptPartition GptHeader.

Definition ENTRIES_COUNT : nat := 128.
Definition ENTRY_SIZE : Z := 128.

Record Table := {
  sector_size : Z;
  disk_guid : list Z;
  first_usable_lba : Z;
  last_usable_lba : Z;
  entries : list (option Partition);
}.

(** [u64::try_from(ENTRIES_COUNT).unwrap_or(0)] and its 32-bit sibling. *)
Definition entries_count_u64 : Z := default 0 (try_from 64 (Z.of_nat ENTRIES_COUNT)).
Definition entries_count_u32 : Z := default 0 (try_from 32 (Z.of_nat ENTRIES_COUNT)).

Definition slot_number (index : nat) : Z :=
  saturating_add 32 (default 0 (try_from 32 (Z.of_nat index))) 1.

Definition create (sector_count ssize : Z) (guid : list Z) : res ParttableError Table :=
  entries_sectors ← div_ceil_checked (saturating_mul 64 ENTRY_SIZE entries_count_u64) ssize;
  let first_usable := saturating_add 64 2 entries_sectors in
  last_usable ← ok_or
    (checked_sub sector_count entries_sectors ≫= λ count, checked_sub count 2)
    (Gpt "disk too small for GPT");
  Ok {| sector_size := ssize; disk_guid := guid; first_usable_lba := first_usable;
        last_usable_lba := last_usable; entries := replicate ENTRIES_COUNT None |}.

Definition from_parts (first last : Z) (guid : list Z) (ssize : Z)
    (es : list (option Partition)) : res ParttableError Table :=
  if bool_decide (length es ≠ ENTRIES_COUNT)
  then Err (Gpt "invalid partition entries length")
  else Ok {| sector_size := ssize; disk_guid := guid; first_usable_lba := first;
             last_usable_lba := last; entries := es |}.

Definition to_header (t : Table) : GptHeader :=
  {| GptHeader.entries_lba := 2;
     GptHeader.first_usable_lba := first_usable_lba t;
     GptHeader.last_usable_lba := last_usable_lba t;
     GptHeader.disk_guid := disk_guid t;
     GptHeader.entries_count := entries_count_u32;
     GptHeader.entries_size := ENTRY_SIZE;
     GptHeader.entries_crc := 0 |}.

Definition primary_gpt_size (t : Table) : Z :=
  saturating_mul 64 (first_usable_lba t) (sector_size t).

Definition backup_data_offset {E} (t : Table) (sector_count : Z) : res E Z :=
  let entries_size := saturating_mul 64 ENTRY_SIZE entries_count_u64 in
  entries_sectors ← div_ceil_checked entries_size (sector_size t);
  Ok (saturating_mul 64 (saturating_sub (saturating_sub sector_count 1) entries_sectors)
        (sector_size t)).

(** Enumeration of the used slots; [used_partitions] clones what
    [partitions] borrows. *)
Definition numbered (slot : nat * option Partition) : option (Z * Partition) :=
  (λ p, (slot_number slot.1, p)) <$> slot.2.

Definition partitions (t : Table) : list (Z * Partition) :=
  omap numbered (imap pair (entries t)).

Definition used_partitions (t : Table) : list (Z * Partition) := partitions t.

Definition has_used_partitions (t : Table) : bool :=
  existsb (λ e, bool_decide (is_Some e)) (entries t).

Definition partition (t : Table) (number : Z) : option Partition :=
  mjoin (get (entries t) (saturating_sub number 1)).

Definition is_partition_used (t : Table) (number : Z) : bool :=
  bool_decide (is_Some (partition t number)).

Definition highest_used_partition_number (t : Table) : option Z :=
  fst <$> head (omap numbered (reverse (imap pair (entries t)))).

(** [Iterator::max] over the ending LBAs. *)
Definition last_used_ending_lba (t : Table) : option Z :=
  foldl (λ m e, Some (match m with Some m => Z.max m e | None => e end)) None
    (ending_lba <$> omap id (entries t)).

Definition next_free_slot (t : Table) : option Z :=
  find (λ number, negb (is_partition_used t number)) (seqZ 1 entries_count_u32).

Definition with_entries (t : Table) (es : list (option Partition)) : Table :=
  {| sector_size := sector_size t; disk_guid := disk_guid t;
     first_usable_lba := first_usable_lba t; last_usable_lba := last_usable_lba t;
     entries := es |}.

Definition set_partition (t : Table) (number : Z) (p : Partition) : Table :=
  with_entries t (<[Z.to_nat (saturating_sub number 1) := Some p]> (entries t)).

Definition remove_partition (t : Table) (number : Z) : res ParttableError Table :=
  index ← ok_or (checked_sub number 1) (Gpt "invalid partition number");
  slot ← ok_or (get (entries t) index) (Gpt "partition number out of range");
  match slot with
  | None => Err (Gpt ("partition " +:+ pretty number +:+ " is already not set"))
  | Some _ => Ok (with_entries t (<[Z.to_nat index := None]> (entries t)))
  end.

(** ** Invariants *)

(** The widths of the fields, 128 slots, well-formed used slots. *)
Definition table_ok (t : Table) : Prop :=
  0 < sector_size t ∧ is_u64 (sector_size t) ∧
  length (disk_guid t) = 16%nat ∧ bytes_ok (disk_guid t) ∧
  is_u64 (first_usable_lba t) ∧ is_u64 (last_usable_lba t) ∧
  length (entries t) = ENTRIES_COUNT ∧
  (∀ p, Some p ∈ entries t → partition_ok p).

(** Every used partition is a nonempty extent of the usable area, and no
    two used partitions share an LBA. *)
Definition in_bounds (t : Table) (p : Partition) : Prop :=
  first_usable_lba t ≤ starting_lba p ∧ starting_lba p ≤ ending_lba p ∧
  ending_lba p ≤ last_usable_lba t.
Definition disjoint (p q : Partition) : Prop :=
  ending_lba p < starting_lba q ∨ ending_lba q < starting_lba p.
Definition layout_ok (t : Table) : Prop :=
  (∀ p, Some p ∈ entries t → in_bounds t p) ∧
  (∀ i j p q, entries t !! i = Some (Some p) → entries t !! j = Some (Some q) →
     i ≠ j → disjoint p q).

(** ** Abstract view: slot number to partition *)

Definition slots (t : Table) : gmap Z Partition := list_to_map (partitions t).

(** ** Lemmas *)

Lemma slot_number_spec (i : nat) : (i < 2 ^ 16)%nat → slot_number i = Z.of_nat i + 1.
Proof.
  intros Hi. assert (Z.of_nat i < 65536) by (change 65536 with (Z.of_nat (2 ^ 16)); lia).
  unfold slot_number. rewrite try_from_ok by (uint_unfold; lia). simpl. uint_unfold. lia.
Qed.

Lemma elem_of_partitions t n p :
  length (entries t) = ENTRIES_COUNT →
  (n, p) ∈ partitions t ↔ 1 ≤ n ∧ entries t !! Z.to_nat (n - 1) = Some (Some p).
Proof.
  intros Hl. unfold partitions. rewrite list_elem_of_omap. split.
  - intros ([i o] & Hi & Hn).
    apply list_elem_of_lookup in Hi as [k Hk]. rewrite list_lookup_imap in Hk.
    destruct (entries t !! k) as [o'|] eqn:He; simplify_eq/=.
    destruct o as [q|]; simplify_eq/=. unfold numbered in Hn; simpl in Hn; simplify_eq.
    pose proof (lookup_lt_Some _ _ _ He) as Hlt. rewrite Hl in Hlt. unfold ENTRIES_COUNT in Hlt.
    rewrite slot_number_spec by (etrans; [exact Hlt|]; apply Nat.leb_le; reflexivity).
    split; [lia|]. by replace (Z.to_nat (Z.of_nat i + 1 - 1)) with i by lia.
  - intros [Hn He]. exists (Z.to_nat (n - 1), Some p). split.
    + apply list_elem_of_lookup. exists (Z.to_nat (n - 1)).
      rewrite list_lookup_imap, He. done.
    + unfold numbered; simpl. pose proof (lookup_lt_Some _ _ _ He) as Hlt.
      rewrite Hl in Hlt. unfold ENTRIES_COUNT in Hlt.
      rewrite slot_number_spec by (etrans; [exact Hlt|]; apply Nat.leb_le; reflexivity).
      do 2 f_equal. lia.
Qed.

Lemma partitions_NoDup t :
  length (entries t) = ENTRIES_COUNT → NoDup (partitions t).*1.
Proof.
  intros Hl. unfold partitions.
  assert (∀ (es : list (option Partition)) k, (k + length es ≤ ENTRIES_COUNT)%nat →
    NoDup (omap numbered (imap (λ i, pair (k + i)%nat) es)).*1 ∧
    ∀ n, n ∈ (omap numbered (imap (λ i, pair (k + i)%nat) es)).*1 → Z.of_nat k < n) as Hgen.
  { intros es. induction es as [|o es IH]; intros k Hk; simpl.
    { split; [constructor|]. set_solver. }
    rewrite (imap_ext _ (λ i, pair (S k + i)%nat)) by (intros; simpl; f_equal; lia).
    destruct (IH (S k)) as [IH1 IH2]; [simpl in *; lia|].
    assert (Z.of_nat k + 1 = slot_number (k + 0)) as Hs.
    { rewrite Nat.add_0_r, slot_number_spec; [done|]. simpl in Hk. unfold ENTRIES_COUNT in Hk.
      apply (Nat.lt_le_trans _ 128); [lia|]. apply Nat.leb_le; reflexivity. }
    destruct o as [p|]; simpl; rewrite <-?Hs.
    - split.
      + constructor; [|done]. intros Hin%IH2. lia.
      + intros n [->|Hn]%elem_of_cons; [lia|]. apply IH2 in Hn. lia.
    - split; [done|]. intros n Hn%IH2. lia. }
  rewrite (imap_ext _ (λ i, pair (0 + i)%nat)) by done.
  apply (Hgen (entries t) 0%nat). lia.
Qed.

Lemma lookup_slots t n :
  length (entries t) = ENTRIES_COUNT →
  slots t !! n = if 1 <=? n then mjoin (entries t !! Z.to_nat (n - 1)) else None.
Proof.
  intros Hl. apply option_eq. intros p. unfold slots.
  rewrite <-elem_of_list_to_map by by apply partitions_NoDup.
  rewrite elem_of_partitions by done. destruct (Z.leb_spec 1 n).
  - destruct (entries t !! _) as [[q|]|]; simpl; naive_solver.
  - split; [lia|done].
Qed.

Lemma partition_slots t n :
  length (entries t) = ENTRIES_COUNT → 1 ≤ n → partition t n = slots t !! n.
Proof.
  intros Hl Hn. rewrite lookup_slots by done. rewrite (proj2 (Z.leb_le _ _)) by done.
  unfold partition, get. do 3 f_equal. ulia.
Qed.

Lemma slots_lookup_range t n p :
  length (entries t) = ENTRIES_COUNT → slots t !! n = Some p → 1 ≤ n ≤ 128.
Proof.
  intros Hl. rewrite lookup_slots by done. destruct (Z.leb_spec 1 n); [|done].
  destruct (entries t !! _) as [o|] eqn:He; [|done]. intros _.
  apply lookup_lt_Some in He. rewrite Hl in He. unfold ENTRIES_COUNT in He. lia.
Qed.

Lemma length_set_partition t n p :
  length (entries (set_partition t n p)) = length (entries t).
Proof. apply length_insert. Qed.

Lemma slots_update t n i o :
  length (entries t) = ENTRIES_COUNT → 1 ≤ n → i = Z.to_nat (n - 1) →
  (i < length (entries t))%nat →
  slots (with_entries t (<[i := o]> (entries t)))
    = match o with Some p => <[n := p]> (slots t) | None => delete n (slots t) end.
Proof.
  intros Hl Hn -> Hi. apply map_eq; intros k.
  rewrite lookup_slots by (simpl; by rewrite length_insert). cbn [entries with_entries].
  destruct (decide (k = n)) as [->|Hne].
  - rewrite (proj2 (Z.leb_le _ _)) by done. rewrite list_lookup_insert_eq by done.
    destruct o; [by rewrite lookup_insert_eq|by rewrite lookup_delete_eq].
  - trans (slots t !! k).
    + rewrite lookup_slots by done. destruct (Z.leb_spec 1 k); [|done].
      rewrite list_lookup_insert_ne by lia. done.
    + destruct o; [by rewrite lookup_insert_ne|by rewrite lookup_delete_ne].
Qed.

Lemma set_partition_slots t n p :
  length (entries t) = ENTRIES_COUNT → 1 ≤ n ≤ 128 →
  slots (set_partition t n p) = <[n := p]> (slots t).
Proof.
  intros Hl Hn. unfold set_partition. apply (slots_update t n _ (Some p)); [done|lia|ulia|].
  rewrite Hl. unfold ENTRIES_COUNT. ulia.
Qed.

Lemma set_partition_out_of_range t n p :
  length (entries t) = ENTRIES_COUNT → 128 < n → set_partition t n p = t.
Proof.
  intros Hl Hn. unfold set_partition. rewrite list_insert_ge; [by destruct t|].
  rewrite Hl. unfold ENTRIES_COUNT. ulia.
Qed.

Lemma remove_partition_slots t n :
  length (entries t) = ENTRIES_COUNT → 0 ≤ n →
  match remove_partition t n with
  | Ok t' => is_Some (slots t !! n) ∧ slots t' = delete n (slots t)
  | Err _ => slots t !! n = None
  | Panic => False
  end.
Proof.
  intros Hl Hn. unfold remove_partition, checked_sub.
  rewrite (lookup_slots t n) by done.
  destruct (Z.leb_spec 1 n); cbn [ok_or]; [rewrite bind_ret|done].
  unfold get. destruct (entries t !! Z.to_nat (n - 1)) as [[p|]|] eqn:He;
    cbn [ok_or]; rewrite ?bind_ret; simpl; try done.
  split; [done|]. apply (slots_update t n _ None); [done..|]. by eapply lookup_lt_Some.
Qed.

(** The first number of an interval that passes a test. *)
Lemma find_seqZ (f : Z → bool) a k :
  0 ≤ k →
  match find f (seqZ a k) with
  | Some n => a ≤ n < a + k ∧ f n = true ∧ ∀ m, a ≤ m < n → f m = false
  | None => ∀ m, a ≤ m < a + k → f m = false
  end.
Proof.
  intros Hk. revert a. pattern k. apply natlike_ind; [simpl; lia| |done].
  clear k Hk. intros k Hk IH a. unfold Z.succ. rewrite Z.add_1_r, seqZ_cons by lia. simpl.
  destruct (f a) eqn:Hf; [split_and!; [lia..|done|lia]|].
  specialize (IH (Z.succ a)). rewrite Z.pred_succ.
  destruct (find f (seqZ (Z.succ a) k)).
  - destruct IH as (? & ? & Hm). split_and!; [lia..|done|].
    intros m Hm'. destruct (decide (m = a)) as [->|]; [done|]. apply Hm. lia.
  - intros m Hm. destruct (decide (m = a)) as [->|]; [done|]. apply IH. lia.
Qed.

Lemma next_free_slot_slots t :
  length (entries t) = ENTRIES_COUNT →
  match next_free_slot t with
  | Some n => 1 ≤ n ≤ 128 ∧ slots t !! n = None ∧
              ∀ m, 1 ≤ m < n → is_Some (slots t !! m)
  | None => ∀ m, 1 ≤ m ≤ 128 → is_Some (slots t !! m)
  end.
Proof.
  intros Hl. unfold next_free_slot.
  change entries_count_u32 with 128.
  pose proof (find_seqZ (λ number, negb (is_partition_used t number)) 1 128 ltac:(lia)) as Hf.
  assert (∀ n, 1 ≤ n → negb (is_partition_used t n) = false → is_Some (slots t !! n)) as Hu.
  { intros n Hn Hb. unfold is_partition_used in Hb. rewrite partition_slots in Hb by done.
    by case_bool_decide. }
  destruct (find _ _) as [n|].
  - destruct Hf as (Hn & Hb & Hlt). split_and!; [lia..| |].
    + unfold is_partition_used in Hb. rewrite partition_slots in Hb by (done || lia).
      case_bool_decide as Hs; [done|]. by apply eq_None_not_Some.
    + intros m Hm. apply Hu; [lia|]. by apply Hlt.
  - intros m Hm. apply Hu; [lia|]. apply Hf. lia.
Qed.

Lemma last_used_ending_lba_max t :
  match last_used_ending_lba t with
  | Some m => (∃ p, Some p ∈ entries t ∧ ending_lba p = m) ∧
              ∀ p, Some p ∈ entries t → ending_lba p ≤ m
  | None => ∀ p, Some p ∉ entries t
  end.
Proof.
  unfold last_used_ending_lba.
  induction (entries t) as [|o es IH] using rev_ind; [simpl; set_solver|].
  rewrite omap_app, fmap_app, foldl_app. destruct o as [p|]; simpl.
  2: { destruct (foldl _ _ _) as [m|].
    - destruct IH as [(p & Hp & Hm) Hle]. split; [exists p; set_solver|].
      intros q [Hq|Hq]%elem_of_app; [by apply Hle|]. set_solver.
    - intros p Hp. apply (IH p). set_solver. }
  destruct (foldl _ _ _) as [m|].
  - destruct IH as [(q & Hq & Hm) Hle]. split.
    + destruct (Z.max_spec m (ending_lba p)) as [[? ->]|[? ->]];
        [exists p; set_solver|exists q; set_solver].
    + intros q' [Hq'|Hq']%elem_of_app.
      * specialize (Hle q' Hq'). lia.
      * apply list_elem_of_singleton in Hq'. simplify_eq. lia.
  - split; [exists p; set_solver|]. intros q [Hq|Hq]%elem_of_app; [by destruct (IH q)|].
    apply list_elem_of_singleton in Hq. simplify_eq. lia.
Qed.

(** ** Properties *)

(** C17: A table implements the finite map from slot numbers 1..128 to
    partitions: [partition] is lookup, [set_partition] insertion,
    [remove_partition] deletion (an error exactly on an unused number),
    [partitions] lists the bindings once each, and [next_free_slot] is the
    least unused number. *)
Theorem table_refines_map t :
  length (entries t) = ENTRIES_COUNT →
  (∀ n, 1 ≤ n → partition t n = slots t !! n) ∧
  (∀ n p, slots t !! n = Some p → 1 ≤ n ≤ 128) ∧
  (∀ n p, 1 ≤ n ≤ 128 → slots (set_partition t n p) = <[n := p]> (slots t)) ∧
  (∀ n, 0 ≤ n → match remove_partition t n with
                | Ok t' => is_Some (slots t !! n) ∧ slots t' = delete n (slots t)
                | Err _ => slots t !! n = None
                | Panic => False
                end) ∧
  (NoDup (partitions t).*1 ∧ ∀ n p, (n, p) ∈ partitions t ↔ slots t !! n = Some p) ∧
  match next_free_slot t with
  | Some n => 1 ≤ n ≤ 128 ∧ slots t !! n = None ∧ ∀ m, 1 ≤ m < n → is_Some (slots t !! m)
  | None => ∀ m, 1 ≤ m ≤ 128 → is_Some (slots t !! m)
  end.
Proof.
  intros Hl. split_and!.
  - intros. by apply partition_slots.
  - intros. by eapply slots_lookup_range.
  - intros. by apply set_partition_slots.
  - intros. by apply remove_partition_slots.
  - by apply partitions_NoDup.
  - intros n p. unfold slots. by rewrite <-elem_of_list_to_map by by apply partitions_NoDup.
  - by apply next_free_slot_slots.
Qed.

Definition empty_table : Table :=
  {| sector_size := 512; disk_guid := replicate 16 0xCD; first_usable_lba := 34;
     last_usable_lba := 65502; entries := replicate ENTRIES_COUNT None |}.

Lemma table_refines_map_witness :
  let t := set_partition empty_table 2 (sample_partition []) in
  slots t = <[2 := sample_partition []]> (slots empty_table) ∧ next_free_slot t = Some 1.
Proof.
  destruct (table_refines_map empty_table) as (_ & _ & Hset & _).
  - reflexivity.
  - split; [apply Hset; lia|]. vm_compute. reflexivity.
Defined.

(** Sectors of the entries array. *)
Definition entries_sectors (ssize : Z) : Z := div_ceil 16384 ssize.

Lemma entries_sectors_range ssize : 0 < ssize → 0 ≤ entries_sectors ssize ≤ 16384.
Proof.
  intros. unfold entries_sectors. split; [apply div_ceil_nonneg|apply div_ceil_le_l]; lia.
Qed.

(** [create] as one test on the disk size. *)
Lemma create_eq sector_count ssize guid :
  0 < ssize →
  create sector_count ssize guid =
    if entries_sectors ssize + 2 <=? sector_count
    then Ok {| sector_size := ssize; disk_guid := guid;
               first_usable_lba := 2 + entries_sectors ssize;
               last_usable_lba := sector_count - entries_sectors ssize - 2;
               entries := replicate ENTRIES_COUNT None |}
    else Err (Gpt "disk too small for GPT").
Proof.
  intros Hs. unfold create, div_ceil_checked.
  rewrite (proj2 (Z.eqb_neq _ _)) by lia. rewrite bind_ret.
  change (saturating_mul 64 ENTRY_SIZE entries_count_u64) with 16384.
  fold (entries_sectors ssize). pose proof (entries_sectors_range ssize Hs).
  replace (saturating_add 64 2 (entries_sectors ssize)) with (2 + entries_sectors ssize) by ulia.
  unfold checked_sub. destruct (Z.leb_spec (entries_sectors ssize) sector_count); simpl.
  - destruct (Z.leb_spec 2 (sector_count - entries_sectors ssize)),
      (Z.leb_spec (entries_sectors ssize + 2) sector_count); simpl; try lia; done.
  - by rewrite (proj2 (Z.leb_gt _ _)) by lia.
Qed.

Lemma empty_layout_ok t : entries t = replicate ENTRIES_COUNT None → layout_ok t.
Proof.
  intros Ee. unfold layout_ok. rewrite Ee. split.
  - intros p Hp'. apply elem_of_replicate in Hp'. naive_solver.
  - intros i j p q Hi. apply lookup_replicate in Hi. naive_solver.
Qed.

(** [Table::create] fails exactly when the disk has no room for both
    copies of the GPT. Otherwise the table is empty and well formed, the
    primary region ends where the usable area begins, the backup entries
    start right after the last usable sector, and the backup header is the
    last sector of the disk. *)
Theorem create_geometry sector_count ssize guid :
  is_u64 sector_count → 0 < ssize → is_u64 ssize → sector_count * ssize ≤ uint_max 64 →
  length guid = 16%nat → bytes_ok guid →
  match create sector_count ssize guid with
  | Ok t =>
      table_ok t ∧ layout_ok t ∧ slots t = ∅ ∧
      primary_gpt_size t = (2 + entries_sectors ssize) * ssize ∧
      primary_gpt_size t = first_usable_lba t * ssize ∧
      backup_data_offset (E:=ParttableError) t sector_count
        = Ok ((last_usable_lba t + 1) * ssize) ∧
      last_usable_lba t + entries_sectors ssize + 1 = sector_count - 1
  | Err e => e = Gpt "disk too small for GPT" ∧ sector_count < entries_sectors ssize + 2
  | Panic => False
  end.
Proof.
  intros Hc Hs Hs64 Hbytes Hg Hgb. rewrite create_eq by done.
  pose proof (entries_sectors_range ssize Hs) as He.
  destruct (Z.leb_spec (entries_sectors ssize + 2) sector_count); [|split; [done|lia]].
  split_and!; cbn [first_usable_lba last_usable_lba].
  - unfold table_ok; cbn [sector_size disk_guid first_usable_lba last_usable_lba entries].
    split_and!; try done; try ulia.
    intros p Hp'. apply elem_of_replicate in Hp'. naive_solver.
  - by apply empty_layout_ok.
  - reflexivity.
  - unfold primary_gpt_size; simpl. uint_unfold. nia.
  - unfold primary_gpt_size; simpl. uint_unfold. nia.
  - unfold backup_data_offset, div_ceil_checked; cbn [sector_size].
    rewrite (proj2 (Z.eqb_neq _ _)) by lia. rewrite bind_ret.
    change (saturating_mul 64 ENTRY_SIZE entries_count_u64) with 16384.
    fold (entries_sectors ssize). f_equal. uint_unfold. nia.
  - lia.
Qed.

Lemma create_geometry_witness :
  ∃ t, create 65536 512 (replicate 16 0xCD) = Ok t ∧ slots t = ∅ ∧
    backup_data_offset (E:=ParttableError) t 65536 = Ok (65503 * 512).
Proof.
  pose proof (create_geometry 65536 512 (replicate 16 0xCD)) as Hg.
  destruct (create 65536 512 (replicate 16 0xCD)) as [t|e|] eqn:Ht;
    [|vm_compute in Ht; discriminate..].
  destruct Hg as (_ & _ & Hs & _ & _ & Hb & Hl);
    [unfold is_uint; lia|lia|unfold is_uint; lia|unfold uint_max; lia|reflexivity| |].
  { apply (bool_decide_eq_true_1 (Forall is_u8 _)). vm_compute. reflexivity. }
  exists t. split; [reflexivity|]. split; [exact Hs|].
  rewrite Hb. vm_compute in Ht. injection Ht as <-. reflexivity.
Defined.
