(* ===== verification/GptLayout.v ===== *)
(** GPT partition placement (libs/parttable/src/gpt/layout.rs).

    Models [PlacementRequest] and [place] with every early return and its
    message. Shows that placement keeps the used partitions disjoint and
    inside the usable area, where the placed partition lies, and exactly
    when a placement succeeds. *)

From S2P Require Import Prelude Io Utf PartError Crc GptPartition GptHeader GptTable.

Definition ALIGN_1_MIB_SECTORS : Z := 2048.

Inductive Slot :=
| Auto
| Exact (number : Z).

Inductive Start :=
| FirstUsable
| AfterLastUsed
| AtOrAfter (lba : Z)
| AfterPartition (number : Z).

Inductive PartSize :=
| Bytes (n : Z)
| Lbas (n : Z)
| FillToLastUsable.

Record Placement := {
  number : Z;
  placed : Partition;
}.

Record PlacementRequest := {
  req_slot : Slot;
  req_start : Start;
  req_size : PartSize;
  alignment_lba : Z;
  req_type_guid : list Z;
  req_unique_guid : list Z;
  req_attributes : Z;
  req_name : ustring;
}.

Abbreviation placement_result := (res ParttableError).

Definition checked_next_lba (ending : Z) (context : string) : placement_result Z :=
  ok_or (checked_add 64 ending 1)
    (InvalidPlacement ("partition start LBA overflowed " +:+ context)).

Definition checked_end_lba (start lbas : Z) : placement_result Z :=
  ok_or (checked_add 64 start (saturating_sub lbas 1))
    (InvalidPlacement "partition end LBA overflowed").

Definition nonzero_lbas (lbas : Z) : placement_result Z :=
  if negb (lbas =? 0) then Ok lbas
  else Err (InvalidPlacement "partition size must be greater than zero").

Definition resolve_start_anchor (t : Table) (s : Start) : placement_result Z :=
  match s with
  | FirstUsable => Ok (first_usable_lba t)
  | AfterLastUsed =>
      match last_used_ending_lba t with
      | None => Ok (first_usable_lba t)
      | Some lba => checked_next_lba lba "after last used partition"
      end
  | AtOrAfter lba => Ok lba
  | AfterPartition n =>
      match partition t n with
      | Some p => checked_next_lba (ending_lba p) ("after partition " +:+ pretty n)
      | None => Err (InvalidPlacement
                       ("cannot place after missing partition " +:+ pretty n))
      end
  end.

Definition resolve_exact_slot (t : Table) (n : Z) : placement_result Z :=
  if negb (is_partition_used t n) then Ok n
  else Err (InvalidPlacement ("partition slot " +:+ pretty n +:+ " is already in use")).

Definition resolve_end_lba (t : Table) (start : Z) (size : PartSize) (ssize : Z)
    : placement_result Z :=
  match size with
  | Bytes bytes =>
      lbas ← div_ceil_checked bytes ssize;
      lbas ← nonzero_lbas lbas;
      checked_end_lba start lbas
  | Lbas lbas =>
      lbas ← nonzero_lbas lbas;
      checked_end_lba start lbas
  | FillToLastUsable => Ok (last_usable_lba t)
  end.

(** The overlap test of [validate_partition_range] on one used partition. *)
Definition overlaps (n start end_ : Z) (entry : Z * Partition) : bool :=
  negb (entry.1 =? n) && (start <=? ending_lba entry.2) && (starting_lba entry.2 <=? end_).

Definition validate_partition_range (t : Table) (n start end_ : Z) : placement_result unit :=
  if end_ <? start then
    Err (InvalidPlacement ("partition " +:+ pretty n +:+ " start LBA " +:+ pretty start
           +:+ " is after end LBA " +:+ pretty end_))
  else if start <? first_usable_lba t then
    Err (InvalidPlacement ("partition " +:+ pretty n +:+ " starts before first usable LBA "
           +:+ pretty (first_usable_lba t)))
  else if last_usable_lba t <? end_ then
    Err (InvalidPlacement ("partition " +:+ pretty n +:+ " ends after last usable LBA "
           +:+ pretty (last_usable_lba t)))
  else match find (overlaps n start end_) (partitions t) with
  | Some (existing, _) =>
      Err (InvalidPlacement ("partition " +:+ pretty n +:+ " overlaps partition "
             +:+ pretty existing))
  | None => Ok tt
  end.

(** [PlacementRequest::place]; the table is mutated only by the last step,
    so an error leaves it as it was. *)
Definition place (prof : profile) (req : PlacementRequest) (t : Table) (ssize : Z)
    : placement_result (Placement * Table) :=
  n ← match req_slot req with
      | Auto => ok_or (next_free_slot t) (InvalidPlacement "no free GPT partition slots")
      | Exact n => resolve_exact_slot t n
      end;
  anchor ← resolve_start_anchor t (req_start req);
  start ← next_multiple_of prof anchor (alignment_lba req);
  end_ ← resolve_end_lba t start (req_size req) ssize;
  _ ← validate_partition_range t n start end_;
  let p := {| type_guid := req_type_guid req; unique_guid := req_unique_guid req;
              starting_lba := start; ending_lba := end_;
              attributes := req_attributes req; name := req_name req |} in
  Ok ({| number := n; placed := p |}, set_partition t n p).

(** [PlacementRequest::new], [slot] and [start]. *)
Definition new (tg ug : list Z) (nm : ustring) (sz : PartSize) : PlacementRequest :=
  {| req_slot := Auto; req_start := FirstUsable; req_size := sz;
     alignment_lba := ALIGN_1_MIB_SECTORS; req_type_guid := tg; req_unique_guid := ug;
     req_attributes := 0; req_name := nm |}.

Definition slot (r : PlacementRequest) (s : Slot) : PlacementRequest :=
  {| req_slot := s; req_start := req_start r; req_size := req_size r;
     alignment_lba := alignment_lba r; req_type_guid := req_type_guid r;
     req_unique_guid := req_unique_guid r; req_attributes := req_attributes r;
     req_name := req_name r |}.

Definition start (r : PlacementRequest) (s : Start) : PlacementRequest :=
  {| req_slot := req_slot r; req_start := s; req_size := req_size r;
     alignment_lba := alignment_lba r; req_type_guid := req_type_guid r;
     req_unique_guid := req_unique_guid r; req_attributes := req_attributes r;
     req_name := req_name r |}.

(** ** Well-formed requests *)

Definition slot_ok (s : Slot) : Prop :=
  match s with Auto => True | Exact n => 1 ≤ n ≤ 128 end.
Definition start_ok (s : Start) : Prop :=
  match s with AtOrAfter lba => is_u64 lba | AfterPartition n => is_u32 n | _ => True end.
Definition size_ok (s : PartSize) : Prop :=
  match s with Bytes n | Lbas n => is_u64 n | FillToLastUsable => True end.

Definition request_ok (r : PlacementRequest) : Prop :=
  start_ok (req_start r) ∧ size_ok (req_size r) ∧ is_u64 (alignment_lba r) ∧
  length (req_type_guid r) = 16%nat ∧ bytes_ok (req_type_guid r) ∧
  req_type_guid r ≠ zeros 16 ∧
  length (req_unique_guid r) = 16%nat ∧ bytes_ok (req_unique_guid r) ∧
  is_u64 (req_attributes r) ∧ is_ustring (req_name r) ∧
  Forall (λ c, c ≠ 0) (req_name r).

(** The partition a request asks for, at a given extent. *)
Definition partition_of (r : PlacementRequest) (s e : Z) : Partition :=
  {| type_guid := req_type_guid r; unique_guid := req_unique_guid r;
     starting_lba := s; ending_lba := e; attributes := req_attributes r;
     name := req_name r |}.

(** The sector count a sized request occupies. *)
Definition size_lbas (sz : PartSize) (ssize : Z) : option Z :=
  match sz with
  | Bytes n => Some (div_ceil n ssize)
  | Lbas n => Some n
  | FillToLastUsable => None
  end.

(** ** Lemmas *)

Lemma validate_ok t n s e :
  validate_partition_range t n s e = Ok tt ↔
  s ≤ e ∧ first_usable_lba t ≤ s ∧ e ≤ last_usable_lba t ∧
  ∀ m q, (m, q) ∈ partitions t → m ≠ n → ending_lba q < s ∨ e < starting_lba q.
Proof.
  unfold validate_partition_range.
  destruct (Z.ltb_spec e s); [split; [done|lia]|].
  destruct (Z.ltb_spec s (first_usable_lba t)); [split; [done|lia]|].
  destruct (Z.ltb_spec (last_usable_lba t) e); [split; [done|lia]|].
  destruct (find _ _) as [[m q]|] eqn:Hf.
  - apply find_some in Hf as [Hin Ho]. apply list_elem_of_In in Hin.
    unfold overlaps in Ho; simpl in Ho. split; [done|]. intros (_ & _ & _ & Hd).
    destruct (Z.eqb_spec m n); [done|]. specialize (Hd m q Hin ltac:(done)).
    destruct (Z.leb_spec s (ending_lba q)), (Z.leb_spec (starting_lba q) e);
      simpl in Ho; done || lia.
  - split; [|done]. intros _. split_and!; try done. intros m q Hin Hne.
    apply list_elem_of_In in Hin. pose proof (find_none _ _ Hf _ Hin) as Ho.
    unfold overlaps in Ho; simpl in Ho. rewrite (proj2 (Z.eqb_neq _ _)) in Ho by done.
    destruct (Z.leb_spec s (ending_lba q)), (Z.leb_spec (starting_lba q) e);
      simpl in Ho; try done; lia.
Qed.

Lemma place_inv prof req t ssize pl t' :
  place prof req t ssize = Ok (pl, t') →
  ∃ n anchor s e,
    pl = {| number := n; placed := partition_of req s e |} ∧
    t' = set_partition t n (partition_of req s e) ∧
    match req_slot req with
    | Auto => next_free_slot t = Some n
    | Exact k => n = k ∧ is_partition_used t k = false
    end ∧
    resolve_start_anchor t (req_start req) = Ok anchor ∧
    next_multiple_of (E:=ParttableError) prof anchor (alignment_lba req) = Ok s ∧
    resolve_end_lba t s (req_size req) ssize = Ok e ∧
    validate_partition_range t n s e = Ok tt.
Proof.
  unfold place. intros H. inv_ok. destruct v3. simplify_eq.
  exists v, v0, v1, v2. split_and!; try done.
  destruct (req_slot req); inv_ok; [done|]. unfold resolve_exact_slot in Hv.
  destruct (is_partition_used t number0) eqn:Hu; simpl in Hv; naive_solver.
Qed.

(** The index a slot number writes to. *)
Lemma unused_slot_free t n :
  length (entries t) = ENTRIES_COUNT →
  is_partition_used t n = false →
  ∀ p, entries t !! Z.to_nat (saturating_sub n 1) ≠ Some (Some p).
Proof.
  intros Hl Hu p Hp. unfold is_partition_used, partition, get in Hu. rewrite Hp in Hu.
  simpl in Hu. done.
Qed.

Lemma next_free_slot_unused t n :
  next_free_slot t = Some n → is_partition_used t n = false.
Proof.
  unfold next_free_slot. intros [_ Hn]%find_some. by destruct (is_partition_used t n).
Qed.

Lemma validated_disjoint t n s e req :
  length (entries t) = ENTRIES_COUNT → 0 ≤ n → is_partition_used t n = false →
  validate_partition_range t n s e = Ok tt →
  ∀ q, Some q ∈ entries t → disjoint (partition_of req s e) q.
Proof.
  intros Hl Hn Hu (_ & _ & _ & Hd)%validate_ok q Hq.
  apply list_elem_of_lookup in Hq as [i Hi].
  assert ((Z.of_nat i + 1, q) ∈ partitions t) as Hin.
  { apply elem_of_partitions; [done|]. split; [lia|].
    by replace (Z.to_nat (Z.of_nat i + 1 - 1)) with i by lia. }
  destruct (decide (Z.of_nat i + 1 = n)) as [<-|Hne].
  - destruct (unused_slot_free t (Z.of_nat i + 1) Hl Hu q).
    rewrite <-Hi. f_equal. ulia.
  - destruct (Hd _ _ Hin Hne); unfold disjoint; simpl; lia.
Qed.

Lemma elem_of_set_partition t n p q :
  Some q ∈ entries (set_partition t n p) → q = p ∨ Some q ∈ entries t.
Proof.
  intros [i Hi]%list_elem_of_lookup. simpl in Hi.
  apply list_lookup_insert_Some in Hi as [(_ & Hq & _)|[_ Hi]]; [naive_solver|].
  right. by eapply list_elem_of_lookup_2.
Qed.

(** Writing a free slot with an extent of the usable area that meets no used
    partition keeps the layout. *)
Lemma set_partition_layout t n p :
  layout_ok t → in_bounds t p → (∀ q, Some q ∈ entries t → disjoint p q) →
  layout_ok (set_partition t n p).
Proof.
  intros [Hin Hdis] Hp Hnew. split.
  - intros q [->|Hq]%elem_of_set_partition; [done|]. by apply (Hin q).
  - intros i j q r Hi Hj Hij. simpl in Hi, Hj.
    apply list_lookup_insert_Some in Hi as [(Ei & Hq & _)|[Hi1 Hi]];
      apply list_lookup_insert_Some in Hj as [(Ej & Hr & _)|[Hj1 Hj]]; simplify_eq.
    + apply Hnew. by eapply list_elem_of_lookup_2.
    + destruct (Hnew q) as [?|?]; [by eapply list_elem_of_lookup_2|..]; unfold disjoint; lia.
    + by apply (Hdis i j).
Qed.

Lemma partition_of_ok req s e :
  request_ok req → is_u64 s → is_u64 e → partition_ok (partition_of req s e).
Proof.
  intros (_ & _ & _ & ? & ? & ? & ? & ? & ? & ? & ?) ? ?. by unfold partition_ok.
Qed.

Definition slot_nonneg (s : Slot) : Prop :=
  match s with Auto => True | Exact n => 0 ≤ n end.

Lemma place_slot prof req t ssize pl t' :
  slot_nonneg (req_slot req) → length (entries t) = ENTRIES_COUNT →
  place prof req t ssize = Ok (pl, t') →
  ∃ s e, pl = {| number := number pl; placed := partition_of req s e |} ∧
    t' = set_partition t (number pl) (partition_of req s e) ∧
    0 ≤ number pl ∧ is_partition_used t (number pl) = false ∧
    validate_partition_range t (number pl) s e = Ok tt.
Proof.
  intros Hs Hl H. apply place_inv in H as (n & a & s & e & -> & -> & Hn & _ & _ & _ & Hv).
  exists s, e. simpl. destruct (req_slot req) as [|k].
  - assert (Hn' := Hn). apply next_free_slot_unused in Hn'.
    pose proof (next_free_slot_slots t Hl) as Hf. rewrite Hn in Hf.
    destruct Hf as (Hf & _). split_and!; try done; lia.
  - destruct Hn as [-> Hu]. done.
Qed.

(** An overflowing alignment is never accepted: with an alignment that
    divides 2^64 a release build wraps to LBA 0, before the usable area. *)
Lemma aligned_start prof anchor al s (first : Z) :
  next_multiple_of (E:=ParttableError) prof anchor al = Ok s →
  is_u64 anchor → is_u64 al → (al | 2 ^ 64) → 0 < first → first ≤ s →
  s = round_up anchor al.
Proof.
  intros Hs Ha Hal Hdiv Hf Hle. apply next_multiple_of_inv in Hs; [|apply Hal].
  destruct Hs as [Hpos [[? _]|[Hov Hs]]]; [done|].
  pose proof (round_up_least anchor al (2 ^ 64) Hpos ltac:(uint_unfold; lia) Hdiv) as Hl.
  assert (round_up anchor al = 2 ^ 64) as He by (uint_unfold; lia).
  rewrite He, Z.mod_same in Hs by lia. lia.
Qed.

Lemma resolve_end_inv t s size ssize e :
  resolve_end_lba t s size ssize = Ok e → size_ok size → 0 < ssize →
  match size_lbas size ssize with
  | Some lbas => 0 < lbas ∧ e = s + lbas - 1
  | None => e = last_usable_lba t
  end.
Proof.
  intros He Hs Hss. destruct size as [n|n|]; simpl in *; [| |by inv_ok];
    unfold div_ceil_checked, nonzero_lbas, checked_end_lba in He.
  - rewrite (proj2 (Z.eqb_neq _ _)), bind_ret in He by lia.
    pose proof (div_ceil_nonneg n ssize).
    destruct (Z.eqb_spec (div_ceil n ssize) 0); simpl in He; [done|].
    inv_ok. apply checked_add_Some in He as [-> _]. ulia.
  - destruct (Z.eqb_spec n 0); simpl in He; [done|].
    inv_ok. apply checked_add_Some in He as [-> _]. ulia.
Qed.

Lemma anchor_u64 t st a :
  table_ok t → start_ok st → resolve_start_anchor t st = Ok a → is_u64 a.
Proof.
  intros (_ & _ & _ & _ & Hf & _ & _ & Hp) Hs Ha.
  assert (∀ p, Some p ∈ entries t → is_u64 (ending_lba p)) as He by (intros p ?; by apply Hp).
  assert (∀ e c v, is_u64 e → checked_next_lba e c = Ok v → is_u64 v) as Hnext.
  { intros e c v He' Hv. unfold checked_next_lba in Hv. inv_ok.
    apply checked_add_Some in Hv as [-> ?]. ulia. }
  destruct st as [| |lba|n]; simpl in *; inv_ok; subst; try done.
  - pose proof (last_used_ending_lba_max t) as Hm.
    destruct (last_used_ending_lba t) as [m|]; [|by inv_ok; subst].
    destruct Hm as [(p & Hin & <-) _]. eapply Hnext; [|done]. by apply He.
  - unfold partition, get in Ha. destruct (entries t !! _) as [[p|]|] eqn:Hl; simpl in Ha;
      try done. eapply Hnext; [|done]. apply He. by eapply list_elem_of_lookup_2.
Qed.

(** ** Properties *)

(** Whatever its slot number, a placement keeps every partition of the table. *)
Lemma set_unused_slots t n p :
  length (entries t) = ENTRIES_COUNT → 0 ≤ n → is_partition_used t n = false →
  slots t ⊆ slots (set_partition t n p).
Proof.
  intros Hl Hn Hu. destruct (decide (128 < n)) as [Hbig|Hsmall].
  { by rewrite set_partition_out_of_range. }
  assert (∃ m, 1 ≤ m ≤ 128 ∧ set_partition t n p = set_partition t m p ∧ is_partition_used t m = false)
    as (m & Hm & -> & Hum).
  { destruct (decide (n = 0)) as [->|]; [|exists n; split_and!; [lia..|done|done]].
    exists 1. split; [lia|]. unfold set_partition, is_partition_used, partition in *.
    by replace (saturating_sub 1 1) with (saturating_sub 0 1) by done. }
  rewrite set_partition_slots by done. apply insert_subseteq. apply eq_None_not_Some.
  unfold is_partition_used in Hum. rewrite partition_slots in Hum by (done || lia). by case_bool_decide.
Qed.

(** C2: A successful placement, from any request and in either build
    profile, keeps the table well formed and its layout valid: the used
    partitions stay inside the usable area and pairwise disjoint. No partition
    of the table is changed or removed; and when the slot number is one of the
    128, the slot was free and the table differs in that slot only, which holds
    the partition that is reported. *)
Theorem place_preserves_layout prof req t ssize pl t' :
  table_ok t → layout_ok t → request_ok req → slot_nonneg (req_slot req) →
  place prof req t ssize = Ok (pl, t') →
  table_ok t' ∧ layout_ok t' ∧ slots t ⊆ slots t' ∧
  (slot_ok (req_slot req) →
   slots t !! number pl = None ∧ slots t' = <[number pl := placed pl]> (slots t)).
Proof.
  intros Ht Hlay Hreq Hslot Hp.
  assert (length (entries t) = ENTRIES_COUNT) as Hl by apply Ht.
  assert (slot_ok (req_slot req) → 1 ≤ number pl ≤ 128) as Hrange.
  { apply place_inv in Hp as (n & a & s & e & -> & _ & Hn & _). cbn [number].
    destruct (req_slot req) as [|k]; cbn [slot_ok]; [|by destruct Hn as [-> _]].
    intros _. pose proof (next_free_slot_slots t Hl) as Hf. rewrite Hn in Hf. naive_solver. }
  apply place_slot in Hp as (s & e & Hpl & -> & Hn & Hu & Hv); [|done..].
  pose proof (proj1 (validate_ok _ _ _ _) Hv) as (Hse & Hfs & Hel & _).
  split_and!.
  - destruct Ht as (? & ? & ? & ? & Hf & Hla & ? & Hparts).
    unfold table_ok; simpl. rewrite length_insert. split_and!; try done.
    intros q [->|Hq]%elem_of_set_partition; [|by apply Hparts].
    apply partition_of_ok; [done|ulia..].
  - apply set_partition_layout; [done|by unfold in_bounds|].
    by apply validated_disjoint with (n := number pl).
  - by apply set_unused_slots.
  - intros Hs%Hrange. rewrite set_partition_slots by done. split.
    + unfold is_partition_used in Hu. rewrite partition_slots in Hu by (done || lia).
      apply eq_None_not_Some. by case_bool_decide.
    + by rewrite Hpl.
Qed.

(** Where a placement with an in-range slot puts the partition: in an
    unused slot (the least one for [Auto]), starting at the first multiple of
    the alignment at or after the anchor, with exactly the requested sector
    count (or up to the last usable LBA), with the attributes of the request;
    no other slot changes. The alignment is one that divides 2^64, as the
    1 MiB default does. *)
Theorem place_position prof req t ssize pl t' :
  table_ok t → request_ok req → slot_ok (req_slot req) → 0 < ssize →
  0 < first_usable_lba t → (alignment_lba req | 2 ^ 64) →
  place prof req t ssize = Ok (pl, t') →
  ∃ anchor s e,
    resolve_start_anchor t (req_start req) = Ok anchor ∧
    s = round_up anchor (alignment_lba req) ∧
    match size_lbas (req_size req) ssize with
    | Some lbas => 0 < lbas ∧ e - s + 1 = lbas
    | None => e = last_usable_lba t
    end ∧
    placed pl = partition_of req s e ∧
    slots t !! number pl = None ∧
    slots t' = <[number pl := partition_of req s e]> (slots t) ∧
    (req_slot req = Auto → next_free_slot t = Some (number pl)).
Proof.
  intros Ht Hreq Hslot Hss Hf Hdiv Hp.
  assert (length (entries t) = ENTRIES_COUNT) as Hl by apply Ht.
  apply place_inv in Hp as (n & a & s & e & -> & -> & Hn & Ha & Hs & He & Hv).
  pose proof (proj1 (validate_ok _ _ _ _) Hv) as (_ & Hfs & _ & _).
  assert (1 ≤ n ≤ 128 ∧ slots t !! n = None) as [Hrange Hfree].
  { destruct (req_slot req) as [|k]; simpl in *.
    - pose proof (next_free_slot_slots t Hl) as Hfs'. rewrite Hn in Hfs'. naive_solver.
    - destruct Hn as [-> Hu]. split; [done|]. unfold is_partition_used in Hu.
      rewrite partition_slots in Hu by (done || lia).
      apply eq_None_not_Some. by case_bool_decide. }
  exists a, s, e. cbn [number placed]. destruct Hreq as (Hst & Hsz & Hal & _). split_and!.
  - done.
  - eapply aligned_start; [done|by eapply anchor_u64|done..].
  - apply resolve_end_inv in He; [|done..]. destruct (size_lbas _ _); [lia|done].
  - done.
  - done.
  - by apply set_partition_slots.
  - intros E. by rewrite E in Hn.
Qed.

(** The slot a request may take. *)
Definition slot_choice (t : Table) (s : Slot) (n : Z) : Prop :=
  match s with
  | Auto => next_free_slot t = Some n
  | Exact k => n = k ∧ slots t !! k = None
  end.

(** The extent a request computes from its anchor. *)
Definition extent_end (t : Table) (s : Z) (sz : PartSize) (ssize : Z) : Z :=
  match size_lbas sz ssize with
  | Some lbas => s + lbas - 1
  | None => last_usable_lba t
  end.

(** The extent is usable: a positive size, inside the area, meeting nothing. *)
Definition extent_fits (t : Table) (s : Z) (sz : PartSize) (ssize : Z) : Prop :=
  let e := extent_end t s sz ssize in
  (match size_lbas sz ssize with Some lbas => 0 < lbas | None => True end) ∧
  first_usable_lba t ≤ s ∧ s ≤ e ∧ e ≤ last_usable_lba t ∧
  ∀ m q, slots t !! m = Some q → e < starting_lba q ∨ ending_lba q < s.

Lemma resolve_end_complete t s size ssize :
  table_ok t → 0 < ssize → extent_fits t s size ssize →
  resolve_end_lba t s size ssize = Ok (extent_end t s size ssize).
Proof.
  intros Ht Hss (Hpos & _ & _ & Hle & _). assert (is_u64 (last_usable_lba t)) as Hl by apply Ht.
  unfold extent_end in *. destruct size as [n|n|]; simpl in *; [| |done];
    unfold div_ceil_checked, nonzero_lbas, checked_end_lba.
  - rewrite (proj2 (Z.eqb_neq ssize 0)) by lia. simpl.
    rewrite (proj2 (Z.eqb_neq (div_ceil n ssize) 0)) by lia. simpl.
    unfold checked_add. rewrite (proj2 (Z.leb_le _ _)) by ulia. simpl. f_equal. ulia.
  - rewrite (proj2 (Z.eqb_neq n 0)) by lia. simpl.
    unfold checked_add. rewrite (proj2 (Z.leb_le _ _)) by ulia. simpl. f_equal. ulia.
Qed.

Lemma slot_choice_resolves t s n :
  length (entries t) = ENTRIES_COUNT → slot_ok s → slot_choice t s n →
  match s with
  | Auto => ok_or (next_free_slot t) (InvalidPlacement "no free GPT partition slots")
  | Exact k => resolve_exact_slot t k
  end = Ok n ∧ 1 ≤ n ≤ 128 ∧ slots t !! n = None.
Proof.
  intros Hl Hs Hc. destruct s as [|k]; simpl in *.
  - pose proof (next_free_slot_slots t Hl) as Hf. rewrite Hc in *. naive_solver.
  - destruct Hc as [-> Hc]. split; [|done]. unfold resolve_exact_slot, is_partition_used.
    rewrite partition_slots by (done || lia). rewrite Hc. done.
Qed.

Section succeeds.
Context (prof : profile) (req : PlacementRequest) (t : Table) (ssize : Z).
Context (Ht : table_ok t) (Hreq : request_ok req) (Hslot : slot_ok (req_slot req)).
Context (Hss : 0 < ssize) (Hf : 0 < first_usable_lba t) (Hdiv : (alignment_lba req | 2 ^ 64)).

Lemma alignment_pos : 0 < alignment_lba req.
Proof using Hreq Hdiv.
  destruct Hreq as (_ & _ & Hal & _). destruct (Z.eq_dec (alignment_lba req) 0) as [E|].
  - rewrite E in Hdiv. by apply Z.divide_0_l in Hdiv.
  - ulia.
Qed.

Lemma place_extent_fits pl t' :
  place prof req t ssize = Ok (pl, t') →
  ∃ n anchor, slot_choice t (req_slot req) n ∧
    resolve_start_anchor t (req_start req) = Ok anchor ∧
    extent_fits t (round_up anchor (alignment_lba req)) (req_size req) ssize.
Proof using Ht Hreq Hslot Hss Hf Hdiv.
  intros Hp. assert (length (entries t) = ENTRIES_COUNT) as Hl by apply Ht.
  apply place_inv in Hp as (n & a & s & e & -> & -> & Hn & Ha & Hs & He & Hv).
  destruct Hreq as (Hst & Hsz & Hal64 & _).
  pose proof (proj1 (validate_ok _ _ _ _) Hv) as (Hse & Hfs & Hel & Hd).
  pose proof (aligned_start _ _ _ _ _ Hs (anchor_u64 _ _ _ Ht Hst Ha) Hal64 Hdiv Hf Hfs) as Es.
  apply resolve_end_inv in He; [|done..].
  assert (is_partition_used t n = false ∧ slots t !! n = None) as [Hu Hfree].
  { assert (is_partition_used t n = false ∧ 1 ≤ n) as [Hu Hn1].
    { destruct (req_slot req); simpl in *; [|naive_solver lia].
      split; [by apply next_free_slot_unused|].
      pose proof (next_free_slot_slots t Hl) as Hfree. rewrite Hn in Hfree. lia. }
    split; [done|]. unfold is_partition_used in Hu. rewrite partition_slots in Hu by done.
    apply eq_None_not_Some. by case_bool_decide. }
  exists n, a. split_and!; [|done|].
  - destruct (req_slot req); simpl in *; [done|]. by destruct Hn as [-> _].
  - rewrite <-Es. assert (extent_end t s (req_size req) ssize = e) as Hend.
    { unfold extent_end. destruct (size_lbas _ _); [lia|done]. }
    unfold extent_fits. rewrite Hend. split_and!; try done.
    { destruct (size_lbas _ _); [lia|done]. }
    intros m q Hm. destruct (decide (m = n)) as [->|Hne]; [by rewrite Hfree in Hm|].
    apply elem_of_list_to_map_2 in Hm. destruct (Hd m q Hm Hne); lia.
Qed.

Lemma extent_fits_place n anchor :
  slot_choice t (req_slot req) n → resolve_start_anchor t (req_start req) = Ok anchor →
  extent_fits t (round_up anchor (alignment_lba req)) (req_size req) ssize →
  ∃ pl t', place prof req t ssize = Ok (pl, t').
Proof using Ht Hreq Hslot Hss Hdiv.
  intros Hn Ha Hfit. pose proof alignment_pos as Hal.
  assert (length (entries t) = ENTRIES_COUNT) as Hl by apply Ht.
  assert (is_u64 (last_usable_lba t)) as Hl64 by apply Ht.
  destruct (slot_choice_resolves t _ n Hl Hslot Hn) as (Hres & Hn1 & Hfree).
  pose proof Hfit as (_ & Hfs & Hse & Hel & Hd).
  unfold place. rewrite Hres, bind_ret, Ha, bind_ret.
  rewrite next_multiple_of_round_up, bind_ret by (done || ulia).
  rewrite resolve_end_complete, bind_ret by done.
  rewrite (proj2 (validate_ok _ _ _ _)); [by eexists _, _|].
  split_and!; try done. intros m q Hm Hne.
  assert (slots t !! m = Some q) as Hq
    by (apply elem_of_list_to_map_1; [by apply partitions_NoDup|done]).
  destruct (Hd m q Hq); lia.
Qed.
End succeeds.

(** A step that never panics and whose only error is [InvalidPlacement]. *)
Definition refuses {A} (r : placement_result A) : Prop :=
  match r with Err e => ∃ msg, e = InvalidPlacement msg | Panic => False | Ok _ => True end.

Lemma refuses_anchor t st : refuses (resolve_start_anchor t st).
Proof.
  unfold resolve_start_anchor, checked_next_lba, ok_or. destruct st; repeat case_match; simplify_eq/=; eauto.
Qed.
Lemma refuses_slot t st :
  refuses (match st with
           | Auto => ok_or (next_free_slot t) (InvalidPlacement "no free GPT partition slots")
           | Exact n => resolve_exact_slot t n
           end).
Proof. unfold resolve_exact_slot, ok_or. destruct st; repeat case_match; simplify_eq/=; eauto. Qed.
Lemma refuses_end t start sz ssize : 0 < ssize → refuses (resolve_end_lba t start sz ssize).
Proof.
  intros Hss. unfold resolve_end_lba, div_ceil_checked, nonzero_lbas, checked_end_lba, ok_or.
  rewrite (proj2 (Z.eqb_neq ssize 0)) by lia.
  unfold refuses. destruct sz; cbn [mbind res_bind]; repeat (case_match; simplify_eq/=); eauto.
Qed.
Lemma refuses_range t n start end_ : refuses (validate_partition_range t n start end_).
Proof. unfold validate_partition_range. repeat case_match; simplify_eq/=; eauto. Qed.

Lemma place_errors prof req t ssize :
  0 < ssize → 0 < alignment_lba req → table_ok t → request_ok req → slot_ok (req_slot req) →
  match place prof req t ssize with
  | Err e => ∃ msg, e = InvalidPlacement msg
  | Panic => prof = debug
  | Ok _ => True
  end ∧
  (prof = debug → (place prof req t ssize = Panic ↔ ∃ n anchor, slot_choice t (req_slot req) n ∧
     resolve_start_anchor t (req_start req) = Ok anchor ∧ uint_max 64 < round_up anchor (alignment_lba req))).
Proof.
  intros Hss Hal Ht Hreq Hslot. assert (length (entries t) = ENTRIES_COUNT) as Hl by apply Ht.
  pose proof (slot_choice_resolves t (req_slot req)) as Hch. unfold place.
  pose proof (refuses_slot t (req_slot req)) as H1.
  destruct (match req_slot req with Auto => _ | Exact _ => _ end) as [n|e|] eqn:En; [| |done]; cycle 1.
  { cbn [mbind res_bind]. split; [done|]. intros _. split; [done|]. intros (n & a & Hn & _).
    by destruct (Hch n Hl Hslot Hn) as [? _]. }
  cbn [mbind res_bind]. pose proof (refuses_anchor t (req_start req)) as H2.
  destruct (resolve_start_anchor t (req_start req)) as [a|e|] eqn:Ea; [| |done]; cycle 1.
  { cbn [mbind res_bind]. split; [done|]. intros _. split; [done|]. by intros (n' & a & _ & ? & _). }
  cbn [mbind res_bind]. assert (is_u64 a) as Ha by (by eapply anchor_u64; [|apply Hreq|]).
  assert (slot_choice t (req_slot req) n) as Hn.
  { destruct (req_slot req) as [|k]; cbn in *; [by destruct (next_free_slot t); simplify_eq/=|].
    unfold resolve_exact_slot in En. destruct (is_partition_used t k) eqn:Hu; simplify_eq/=.
    split; [done|]. unfold is_partition_used in Hu. rewrite partition_slots in Hu by (done || lia).
    apply eq_None_not_Some. by case_bool_decide. }
  assert (∀ start, let r := (end_ ← resolve_end_lba t start (req_size req) ssize;
      _ ← validate_partition_range t n start end_;
      let p := {| type_guid := req_type_guid req; unique_guid := req_unique_guid req;
                  starting_lba := start; ending_lba := end_;
                  attributes := req_attributes req; name := req_name req |} in
      Ok ({| number := n; placed := p |}, set_partition t n p) : placement_result (Placement * Table)) in
    refuses r) as Hrest.
  { intros start. pose proof (refuses_end t start (req_size req) ssize Hss) as H3.
    destruct (resolve_end_lba t start (req_size req) ssize) as [e|e|]; try done. cbn [mbind res_bind].
    pose proof (refuses_range t n start e) as H4. by destruct (validate_partition_range t n start e). }
  destruct (decide (round_up a (alignment_lba req) ≤ uint_max 64)) as [Hle|Hgt].
  - rewrite next_multiple_of_round_up by done. cbn [mbind res_bind].
    specialize (Hrest (round_up a (alignment_lba req))). cbn in Hrest.
    match goal with |- context [match ?r with Ok _ => True | Err _ => _ | Panic => _ end] => destruct r end; cbn in Hrest; try done.
    + split; [done|]. intros _. split; [done|]. intros (? & ? & _ & [= <-] & ?). lia.
    + split; [done|]. intros _. split; [done|]. intros (? & ? & _ & [= <-] & ?). lia.
  - rewrite next_multiple_of_overflow by (done || unfold is_uint in Ha; uint_unfold; lia).
    destruct prof; cbn [mbind res_bind].
    + split; [done|]. intros _. split; [|done]. intros _. exists n, a. split_and!; [done..|lia].
    + split; [|done]. specialize (Hrest (round_up a (alignment_lba req) mod 2 ^ 64)). cbn in Hrest.
      match goal with |- match ?r with Ok _ => True | Err _ => _ | Panic => _ end => destruct r end; done.
Qed.

(** C16: [place] succeeds exactly when there is a slot to take, the anchor
    resolves and the aligned extent is usable; the placed extent is then the
    one computed from the anchor. Every other request is answered with
    [InvalidPlacement], except that a debug build panics, exactly when aligning
    the anchor leaves the 64-bit range. *)
Theorem place_succeeds_iff prof req t ssize :
  table_ok t → request_ok req → slot_ok (req_slot req) → 0 < ssize →
  0 < first_usable_lba t → (alignment_lba req | 2 ^ 64) →
  ((∃ pl t', place prof req t ssize = Ok (pl, t')) ↔
   ∃ n anchor, slot_choice t (req_slot req) n ∧
     resolve_start_anchor t (req_start req) = Ok anchor ∧
     extent_fits t (round_up anchor (alignment_lba req)) (req_size req) ssize) ∧
  (∀ e, place prof req t ssize = Err e → ∃ msg, e = InvalidPlacement msg) ∧
  (place prof req t ssize = Panic ↔
   prof = debug ∧ ∃ n anchor, slot_choice t (req_slot req) n ∧
     resolve_start_anchor t (req_start req) = Ok anchor ∧
     uint_max 64 < round_up anchor (alignment_lba req)).
Proof.
  intros. split_and!; [split|..].
  - intros (pl & t' & Hp). by eapply place_extent_fits.
  - intros (n & a & Hn & Ha & Hfit). by eapply extent_fits_place.
  - intros e E. destruct (place_errors prof req t ssize) as [He _]; try done; [by eapply alignment_pos|]. by rewrite E in He.
  - destruct (place_errors prof req t ssize) as [He Hp]; try done; [by eapply alignment_pos|]. split.
    + intros E. rewrite E in He. split; [done|]. by apply Hp.
    + intros [Hd Hex]. by apply Hp.
Qed.

(** An exact slot number beyond the 128 slots is accepted: the request
    is answered with [Ok] and a placement, but no slot of the table changes. *)
Theorem place_out_of_range_slot_lost prof req t ssize pl t' k :
  length (entries t) = ENTRIES_COUNT → req_slot req = Exact k → 128 < k →
  place prof req t ssize = Ok (pl, t') → number pl = k ∧ t' = t.
Proof.
  intros Hl Hs Hk Hp.
  apply place_inv in Hp as (n & a & s & e & -> & -> & Hn & _). rewrite Hs in Hn.
  destruct Hn as [-> _]. split; [done|]. by apply set_partition_out_of_range.
Qed.

(** ** Witnesses *)

Definition sample_request : PlacementRequest :=
  new LINUX_FS_GUID (replicate 16 7) (ustr "DATA") (Bytes 1048576).

Lemma sample_request_ok : request_ok sample_request.
Proof.
  unfold request_ok, start_ok, size_ok, bytes_ok, is_ustring. simpl.
  split_and!; try done; try (unfold is_uint; simpl; lia).
  all: first [ apply (bool_decide_eq_true_1 (Forall is_u8 _)); vm_compute; reflexivity
             | apply (bool_decide_eq_true_1 (Forall is_char _)); vm_compute; reflexivity
             | apply (bool_decide_eq_true_1 (Forall _ _)); vm_compute; reflexivity ].
Qed.

Lemma empty_table_ok : table_ok empty_table.
Proof.
  unfold table_ok, empty_table; simpl. split_and!; try done; try (unfold is_uint; lia).
  - repeat constructor; unfold is_uint; lia.
  - intros p Hp. change (Some p ∈ replicate ENTRIES_COUNT (@None Partition)) in Hp.
    apply elem_of_replicate in Hp. naive_solver.
Qed.

Definition sample_extent : Partition := partition_of sample_request 2048 4095.
Lemma sample_place :
  place release sample_request empty_table 512
    = Ok ({| number := 1; placed := sample_extent |}, set_partition empty_table 1 sample_extent).
Proof. vm_compute. reflexivity. Qed.

(** The slot number zero is accepted: the partition is reported as number 0 and
    stored in slot 1. *)
Example place_slot_zero :
  place release (slot sample_request (Exact 0)) empty_table 512
    = Ok ({| number := 0; placed := sample_extent |}, set_partition empty_table 1 sample_extent).
Proof. vm_compute. reflexivity. Qed.

Lemma place_preserves_layout_witness :
  let t' := set_partition empty_table 1 sample_extent in
  table_ok t' ∧ layout_ok t' ∧ slots empty_table ⊆ slots t' ∧
  (slot_ok Auto → slots empty_table !! 1 = None ∧ slots t' = <[1 := sample_extent]> (slots empty_table)).
Proof.
  apply (place_preserves_layout release sample_request empty_table 512
    {| number := 1; placed := sample_extent |}).
  - exact empty_table_ok.
  - apply empty_layout_ok. reflexivity.
  - exact sample_request_ok.
  - exact I.
  - exact sample_place.
Defined.

Lemma place_position_witness :
  slots (set_partition empty_table 1 sample_extent) = <[1 := sample_extent]> (slots empty_table).
Proof.
  destruct (place_position release sample_request empty_table 512
    {| number := 1; placed := sample_extent |} (set_partition empty_table 1 sample_extent))
    as (a & s & e & _ & _ & _ & Hpl & _ & Hs & _).
  - exact empty_table_ok.
  - exact sample_request_ok.
  - exact I.
  - lia.
  - reflexivity.
  - exists (2 ^ 53). reflexivity.
  - exact sample_place.
  - simpl in Hpl. rewrite Hs, <-Hpl. reflexivity.
Defined.

Lemma place_succeeds_iff_witness :
  ∃ n anchor, slot_choice empty_table Auto n ∧
    resolve_start_anchor empty_table FirstUsable = Ok anchor ∧
    extent_fits empty_table (round_up anchor 2048) (Bytes 1048576) 512.
Proof.
  apply (proj1 (place_succeeds_iff release sample_request empty_table 512 empty_table_ok sample_request_ok I
    ltac:(lia) ltac:(reflexivity) (ex_intro _ (2 ^ 53) eq_refl))).
  eexists _, _. exact sample_place.
Defined.

Lemma place_out_of_range_slot_lost_witness :
  ∃ pl, place release (slot sample_request (Exact 200)) empty_table 512 = Ok (pl, empty_table) ∧
    number pl = 200.
Proof.
  assert (∃ pl t', place release (slot sample_request (Exact 200)) empty_table 512
    = Ok (pl, t')) as (pl & t' & Hp).
  { eexists _, _. vm_compute. reflexivity. }
  destruct (place_out_of_range_slot_lost release (slot sample_request (Exact 200))
    empty_table 512 pl t' 200) as [Hn Ht].
  - reflexivity.
  - reflexivity.
  - lia.
  - exact Hp.
  - exists pl. rewrite Hp, Ht. split; [reflexivity|exact Hn].
Defined.
