(* ===== verification/GptPlan.v ===== *)
(** Sizing of GPT disk images (libs/parttable/src/gpt/plan.rs).

    [smallest_disk] loops over growing sector counts; the model bounds the
    number of iterations by fuel, [None] meaning that the loop is still
    running. Shows termination, the value it returns for a request of the
    default kind, and what happens to a request no disk can satisfy. *)

From S2P Require Import Prelude Io Utf PartError Crc GptPartition GptHeader GptTable GptLayout.

Definition SECTOR_SIZE : Z := 512.
Definition ALIGN_1_MIB_BYTES : Z := saturating_mul 64 ALIGN_1_MIB_SECTORS SECTOR_SIZE.

Definition entries_sector_count {E} (ssize : Z) : res E Z :=
  div_ceil_checked (saturating_mul 64 ENTRY_SIZE entries_count_u64) ssize.

Definition primary_gpt_size {E} (ssize : Z) : res E Z :=
  entries_sectors ← entries_sector_count ssize;
  Ok (saturating_mul 64 (saturating_add 64 2 entries_sectors) ssize).

Definition growth_overflow_error : ParttableError :=
  InvalidPlacement "disk sector count overflowed while growing".

(** One iteration of the loop: the result, or the next sector count. *)
Definition smallest_disk_step (prof : profile) (ssize step : Z) (guid : list Z)
    (req : PlacementRequest) (sector_count : Z) : res ParttableError Z + Z :=
  match create sector_count ssize guid with
  | Err e => inl (Err e)
  | Panic => inl Panic
  | Ok t =>
      match place prof req t ssize with
      | Ok _ => inl (Ok sector_count)
      | Err (InvalidPlacement _) =>
          match checked_add 64 sector_count step with
          | Some n => inr n
          | None => inl (Err growth_overflow_error)
          end
      | Err e => inl (Err e)
      | Panic => inl Panic
      end
  end.

Fixpoint smallest_disk (fuel : nat) (prof : profile) (base ssize step : Z) (guid : list Z)
    (req : PlacementRequest) : option (res ParttableError Z) :=
  match fuel with
  | O => None
  | S fuel =>
      match smallest_disk_step prof ssize step guid req base with
      | inl r => Some r
      | inr n => smallest_disk fuel prof n ssize step guid req
      end
  end.

(** ** Lemmas *)

Section smallest_disk.
Context (prof : profile) (ssize step : Z) (guid : list Z) (req : PlacementRequest).

Lemma smallest_disk_grows n n' :
  smallest_disk_step prof ssize step guid req n = inr n' → n' = n + step ∧ n + step ≤ uint_max 64.
Proof.
  unfold smallest_disk_step. destruct (create _ _ _); try done.
  destruct (place _ _ _ _) as [?|[]|]; try done.
  destruct (checked_add 64 n step) as [m|] eqn:Hc; [|done].
  intros [= <-]. by apply checked_add_Some in Hc.
Qed.

(** Iterations that grow are iterations of the loop. *)
Lemma smallest_disk_skip (k fuel : nat) base :
  (∀ j : nat, (j < k)%nat → smallest_disk_step prof ssize step guid req
     (base + Z.of_nat j * step) = inr (base + Z.of_nat (S j) * step)) →
  smallest_disk (k + fuel) prof base ssize step guid req
    = smallest_disk fuel prof (base + Z.of_nat k * step) ssize step guid req.
Proof.
  revert base; induction k as [|k IH]; intros base Hk.
  { simpl. by rewrite Z.mul_0_l, Z.add_0_r. }
  simpl. pose proof (Hk 0%nat ltac:(lia)) as H0.
  rewrite Z.mul_0_l, Z.add_0_r in H0. rewrite H0. rewrite IH.
  - f_equal. lia.
  - intros j Hj. specialize (Hk (S j) ltac:(lia)).
    replace (base + Z.of_nat 1 * step + Z.of_nat j * step)
      with (base + Z.of_nat (S j) * step) by lia. rewrite Hk. f_equal. lia.
Qed.

(** A run returns once the counter would overflow. *)
Lemma smallest_disk_bounded (k : nat) base :
  0 < step → uint_max 64 < base + Z.of_nat k * step →
  ∃ r, smallest_disk (S k) prof base ssize step guid req = Some r.
Proof.
  intros Hs. revert base; induction k as [|k IH]; intros base Hk.
  - simpl. destruct (smallest_disk_step _ _ _ _ _ _) as [r|n] eqn:E; [by eexists|].
    apply smallest_disk_grows in E. lia.
  - change (smallest_disk (S (S k)) prof base ssize step guid req) with
      (match smallest_disk_step prof ssize step guid req base with
       | inl r => Some r
       | inr n => smallest_disk (S k) prof n ssize step guid req end).
    destruct (smallest_disk_step _ _ _ _ _ _) as [r|n] eqn:E; [by eexists|].
    apply smallest_disk_grows in E as [-> _]. apply IH. lia.
Qed.
End smallest_disk.

(** The created table is well formed, with a first usable LBA past the
    header. *)
Lemma created_table n ssize guid :
  is_u64 n → 0 < ssize → is_u64 ssize → length guid = 16%nat → bytes_ok guid →
  entries_sectors ssize + 2 ≤ n →
  ∃ t, create n ssize guid = Ok t ∧ table_ok t ∧
    first_usable_lba t = 2 + entries_sectors ssize ∧
    last_usable_lba t = n - entries_sectors ssize - 2 ∧
    entries t = replicate ENTRIES_COUNT None.
Proof.
  intros Hn Hs Hs64 Hg Hgb Hle. pose proof (entries_sectors_range ssize Hs).
  rewrite create_eq, (proj2 (Z.leb_le _ _)) by done.
  eexists; split; [reflexivity|].
  cbn [first_usable_lba last_usable_lba entries]. split_and!; try done.
  unfold table_ok; cbn [sector_size disk_guid first_usable_lba last_usable_lba entries].
  split_and!; try done; try ulia.
  intros p Hp. apply elem_of_replicate in Hp. naive_solver.
Qed.

Lemma empty_slots t m :
  entries t = replicate ENTRIES_COUNT None → slots t !! m = None.
Proof.
  intros He. rewrite lookup_slots by (rewrite He; apply length_replicate).
  rewrite He. destruct (1 <=? m); [|done].
  destruct (replicate _ _ !! _) as [o|] eqn:E; [|done].
  apply lookup_replicate in E as [-> _]. done.
Qed.

Lemma empty_next_free t :
  entries t = replicate ENTRIES_COUNT None → next_free_slot t = Some 1.
Proof.
  intros He. pose proof (next_free_slot_slots t) as Hf. rewrite He in Hf.
  specialize (Hf eq_refl). destruct (next_free_slot t) as [n|].
  - destruct Hf as (Hn & _ & Hlt). destruct (decide (n = 1)) as [->|]; [done|].
    destruct (Hlt 1 ltac:(lia)) as [p Hp]. by rewrite empty_slots in Hp.
  - destruct (Hf 1 ltac:(lia)) as [p Hp]. by rewrite empty_slots in Hp.
Qed.

(** ** The errors of [place] are all of the placement kind *)

Definition placement_err {A} (r : res ParttableError A) : Prop :=
  ∀ e, r = Err e → ∃ msg, e = InvalidPlacement msg.

Create HintDb placement discriminated.

Lemma placement_err_Ok {A} (a : A) : placement_err (Ok a).
Proof. by intros e. Qed.
Lemma placement_err_Panic {A} : placement_err (@Panic _ A).
Proof. by intros e. Qed.
Lemma placement_err_Err {A} msg : placement_err (@Err _ A (InvalidPlacement msg)).
Proof. intros e [= <-]. by eexists. Qed.
Lemma placement_err_ok_or {A} (o : option A) msg :
  placement_err (ok_or o (InvalidPlacement msg)).
Proof. destruct o; [apply placement_err_Ok|apply placement_err_Err]. Qed.
Lemma placement_err_bind {A B} (m : res ParttableError A) (f : A → res ParttableError B) :
  placement_err m → (∀ a, placement_err (f a)) → placement_err (m ≫= f).
Proof. intros Hm Hf. destruct m; simpl; [apply Hf| |by intros e]. intros e' [= <-]. by apply Hm. Qed.
#[export] Hint Resolve placement_err_Ok placement_err_Panic placement_err_Err
  placement_err_ok_or placement_err_bind : placement.

Lemma div_ceil_placement_err a b : placement_err (div_ceil_checked a b).
Proof. unfold div_ceil_checked. destruct (b =? 0); auto with placement. Qed.
Lemma next_multiple_placement_err prof a b : placement_err (next_multiple_of prof a b).
Proof.
  unfold next_multiple_of. destruct (b =? 0), (a mod b =? 0); auto with placement.
  destruct (_ <=? _), prof; auto with placement.
Qed.
Lemma nonzero_placement_err n : placement_err (nonzero_lbas n).
Proof. unfold nonzero_lbas. destruct (negb _); auto with placement. Qed.
#[export] Hint Resolve div_ceil_placement_err next_multiple_placement_err
  nonzero_placement_err : placement.

Lemma anchor_placement_err t s : placement_err (resolve_start_anchor t s).
Proof.
  unfold resolve_start_anchor, checked_next_lba.
  destruct s; auto with placement; case_match; auto with placement.
Qed.
Lemma end_placement_err t s sz ssize : placement_err (resolve_end_lba t s sz ssize).
Proof. unfold resolve_end_lba, checked_end_lba. destruct sz; eauto 10 with placement. Qed.
Lemma validate_placement_err t n s e : placement_err (validate_partition_range t n s e).
Proof.
  unfold validate_partition_range. repeat case_match; auto with placement.
Qed.
#[export] Hint Resolve anchor_placement_err end_placement_err validate_placement_err : placement.

Lemma place_placement_err prof req t ssize : placement_err (place prof req t ssize).
Proof.
  unfold place, resolve_exact_slot. apply placement_err_bind.
  { destruct (req_slot req); [|destruct (negb _)]; auto with placement. }
  intros n. repeat (apply placement_err_bind; [auto with placement|intros ?]).
  auto with placement.
Qed.

Lemma bind_no_panic {E A B} (m : res E A) (f : A → res E B) :
  m ≠ Panic → (∀ a, m = Ok a → f a ≠ Panic) → m ≫= f ≠ Panic.
Proof. destruct m; naive_solver. Qed.

Lemma ok_or_no_panic {E A} (o : option A) (e : E) : ok_or o e ≠ Panic.
Proof. by destruct o. Qed.

Lemma resolve_end_no_panic t s sz ssize : 0 < ssize → resolve_end_lba t s sz ssize ≠ Panic.
Proof.
  intros Hss. unfold resolve_end_lba, div_ceil_checked, nonzero_lbas, checked_end_lba.
  rewrite (proj2 (Z.eqb_neq ssize 0)) by lia.
  destruct sz; [apply bind_no_panic; [done|intros ? _]|..]; [..|done];
    (apply bind_no_panic; [by destruct (negb _)|intros; apply ok_or_no_panic]).
Qed.

(** [place] panics only when the alignment of its anchor does. *)
Lemma place_no_panic prof req t ssize :
  0 < ssize →
  (∀ a, resolve_start_anchor t (req_start req) = Ok a →
     next_multiple_of (E:=ParttableError) prof a (alignment_lba req) ≠ Panic) →
  place prof req t ssize ≠ Panic.
Proof.
  intros Hss Hal. unfold place. apply bind_no_panic.
  { unfold resolve_exact_slot.
    destruct (req_slot req); [apply ok_or_no_panic|by destruct (negb _)]. }
  intros n _. apply bind_no_panic.
  { unfold resolve_start_anchor, checked_next_lba.
    repeat case_match; apply ok_or_no_panic || done. }
  intros a Ha. apply bind_no_panic; [by apply Hal|].
  intros s _. apply bind_no_panic; [by apply resolve_end_no_panic|].
  intros e _. apply bind_no_panic; [|done].
  unfold validate_partition_range. by repeat case_match.
Qed.

(** ** Requests of the default kind *)

Section default_request.
Context (prof : profile) (ssize step : Z) (guid : list Z) (req : PlacementRequest) (lbas : Z).
Context (Hss : 0 < ssize) (Hss64 : is_u64 ssize) (Hg : length guid = 16%nat) (Hgb : bytes_ok guid).
Context (Hreq : request_ok req) (Hslot : req_slot req = Auto).
Context (Hstart : req_start req = FirstUsable) (Hdiv : (alignment_lba req | 2 ^ 64)).
Context (Hsize : size_lbas (req_size req) ssize = Some lbas).

(** The least sector count of a disk that holds both GPT copies and the
    aligned partition. *)
Definition needed_sectors : Z :=
  round_up (2 + entries_sectors ssize) (alignment_lba req) + lbas + entries_sectors ssize + 1.

Lemma first_alignment :
  ∀ a, a = 2 + entries_sectors ssize → round_up a (alignment_lba req) ≤ uint_max 64.
Proof using Hss Hreq Hdiv.
  clear Hg. intros a ->. pose proof (alignment_pos req Hreq Hdiv) as Hal.
  pose proof (entries_sectors_range ssize Hss).
  destruct (round_up_spec (2 + entries_sectors ssize) (alignment_lba req) Hal) as [[_ Hr] _].
  assert (alignment_lba req ≤ 2 ^ 63).
  { assert (is_u64 (alignment_lba req)) as [_ Hlt] by apply Hreq.
    destruct Hdiv as [q Hq]. assert (2 ≤ q) by nia. nia. }
  unfold uint_max. lia.
Qed.

(** One iteration at a sector count that holds the two GPT copies. *)
Lemma default_step n :
  is_u64 n → entries_sectors ssize + 2 ≤ n → 0 ≤ step →
  smallest_disk_step prof ssize step guid req n =
    if (0 <? lbas) && (needed_sectors <=? n) then inl (Ok n)
    else match checked_add 64 n step with
         | Some m => inr m
         | None => inl (Err growth_overflow_error)
         end.
Proof using Hss Hss64 Hg Hgb Hreq Hslot Hstart Hdiv Hsize.
  intros Hn Hle Hstep.
  destruct (created_table n ssize guid) as (t & Hc & Ht & Hf & Hl & He); [done..|].
  pose proof (alignment_pos req Hreq Hdiv) as Hal.
  pose proof (entries_sectors_range ssize Hss) as Hes.
  destruct (round_up_spec (2 + entries_sectors ssize) (alignment_lba req) Hal) as [Hr _].
  assert (slot_ok (req_slot req)) as Hso by by rewrite Hslot.
  assert (0 < first_usable_lba t) as Hf0 by lia.
  assert (resolve_start_anchor t (req_start req) = Ok (2 + entries_sectors ssize)) as Hanchor.
  { rewrite Hstart. simpl. by rewrite Hf. }
  assert (Hfail : (∀ r, place prof req t ssize ≠ Ok r) →
    smallest_disk_step prof ssize step guid req n = match checked_add 64 n step with
      | Some m => inr m | None => inl (Err growth_overflow_error) end).
  { intros Hno. unfold smallest_disk_step. rewrite Hc.
    destruct (place prof req t ssize) as [r|e|] eqn:Hp; [by destruct (Hno r)|..].
    - apply place_placement_err in Hp as [msg ->]. done.
    - apply place_no_panic in Hp; [done|done|]. intros a Ha. rewrite Hanchor in Ha.
      injection Ha as <-.
      by rewrite next_multiple_of_round_up by (done || by apply first_alignment). }
  destruct (Z.ltb_spec 0 lbas); [destruct (Z.leb_spec needed_sectors n)|]; simpl.
  - unfold smallest_disk_step. rewrite Hc.
    destruct (extent_fits_place prof req t ssize Ht Hreq Hso Hss Hdiv
      1 (2 + entries_sectors ssize)) as (pl & t' & ->); [| | |done].
    + rewrite Hslot. by apply empty_next_free.
    + done.
    + unfold extent_fits, extent_end. rewrite Hsize, Hf, Hl. unfold needed_sectors in *.
      split_and!; try lia. intros m q Hm. by rewrite empty_slots in Hm.
  - apply Hfail. intros [pl t'] Hp.
    apply place_extent_fits in Hp as (n' & a & _ & Ha & Hfit); [|done..].
    rewrite Hanchor in Ha. injection Ha as <-.
    unfold extent_fits, extent_end in Hfit. rewrite Hsize, Hl in Hfit.
    unfold needed_sectors in *. lia.
  - apply Hfail. intros [pl t'] Hp.
    apply place_extent_fits in Hp as (n' & a & _ & _ & Hfit); [|done..].
    unfold extent_fits, extent_end in Hfit. rewrite Hsize in Hfit. lia.
Qed.
End default_request.

(** The hypotheses on a geometry and a default request, in one place. *)
Definition plan_ok (ssize : Z) (guid : list Z) (req : PlacementRequest) : Prop :=
  0 < ssize ∧ is_u64 ssize ∧ length guid = 16%nat ∧ bytes_ok guid ∧ request_ok req ∧
  req_slot req = Auto ∧ req_start req = FirstUsable ∧ (alignment_lba req | 2 ^ 64).

(** ** Properties *)

(** For a positive step the loop of [smallest_disk] always ends, whatever
    the request: within one iteration more than it takes the sector count to
    leave the 64-bit range. *)
Theorem smallest_disk_terminates prof base ssize step guid req :
  0 ≤ base → 0 < step →
  ∃ r, smallest_disk (S (Z.to_nat (uint_max 64 / step + 1))) prof base ssize step guid req
       = Some r.
Proof.
  intros Hb Hs. apply smallest_disk_bounded; [done|].
  rewrite Z2Nat.id by (pose proof (Z.div_pos (uint_max 64) step); unfold uint_max in *; lia).
  pose proof (Z.div_mod (uint_max 64) step ltac:(lia)).
  pose proof (Z.mod_pos_bound (uint_max 64) step ltac:(lia)). nia.
Qed.

Lemma smallest_disk_terminates_witness :
  ∃ r, smallest_disk (S (Z.to_nat (uint_max 64 / 2048 + 1))) release 2048 512 2048
         (replicate 16 0xCD) sample_request = Some r.
Proof. apply (smallest_disk_terminates release 2048 512 2048); lia. Defined.

(** For a request of the default kind with a positive size, the sector
    count [smallest_disk] returns is the least one of the grid
    [base, base + step, ...] that holds both GPT copies and the aligned
    partition. *)
Theorem smallest_disk_least prof base ssize step guid req lbas :
  plan_ok ssize guid req → size_lbas (req_size req) ssize = Some lbas → 0 < lbas →
  is_u64 base → entries_sectors ssize + 2 ≤ base → 0 < step →
  let k := Z.max 0 (div_ceil (needed_sectors ssize req lbas - base) step) in
  base + k * step ≤ uint_max 64 →
  smallest_disk (Z.to_nat k + 1) prof base ssize step guid req = Some (Ok (base + k * step)).
Proof.
  intros (Hss & Hss64 & Hg & Hgb & Hreq & Hslot & Hst & Hdiv) Hsz Hpos Hb Hle Hstep k Hmax.
  set (needed := needed_sectors ssize req lbas) in *.
  pose proof (div_ceil_spec (needed - base) step Hstep) as Hk.
  assert (∀ j : Z, 0 ≤ j ≤ k → is_u64 (base + j * step)) as Hu by (intros; uint_unfold; nia).
  rewrite smallest_disk_skip.
  - rewrite Z2Nat.id by lia. simpl.
    rewrite (default_step prof ssize step guid req lbas) by
      (done || (apply Hu; lia) || nia || lia).
    fold needed. rewrite (proj2 (Z.ltb_lt _ _)), (proj2 (Z.leb_le _ _)) by (done || nia). done.
  - intros j Hj. assert (0 ≤ Z.of_nat j < k) as Hjk by lia.
    rewrite (default_step prof ssize step guid req lbas) by
      (done || (apply Hu; lia) || nia || lia).
    fold needed. rewrite (proj2 (Z.leb_gt _ _)) by nia. rewrite andb_false_r.
    unfold checked_add. rewrite (proj2 (Z.leb_le _ _)) by nia. f_equal. lia.
Qed.

Lemma sample_plan_ok : plan_ok 512 (replicate 16 0xCD) sample_request.
Proof.
  unfold plan_ok. split_and!; try done; try (unfold is_uint; lia).
  - repeat constructor; unfold is_uint; lia.
  - apply sample_request_ok.
  - by exists (2 ^ 53).
Qed.

Lemma smallest_disk_least_witness :
  smallest_disk 3 release 2048 512 2048 (replicate 16 0xCD) sample_request = Some (Ok 6144).
Proof.
  apply (smallest_disk_least release 2048 512 2048 (replicate 16 0xCD) sample_request 2048).
  - exact sample_plan_ok.
  - reflexivity.
  - lia.
  - unfold is_uint; lia.
  - vm_compute; discriminate.
  - lia.
  - vm_compute; discriminate.
Defined.

(** A request no disk can satisfy, one of zero size, is not reported
    when its placement fails: the loop keeps growing the disk for as long as
    the sector count fits 64 bits, and forever when the step is zero. *)
Theorem smallest_disk_retries_hopeless_request prof base ssize step guid req (k : nat) :
  plan_ok ssize guid req → size_lbas (req_size req) ssize = Some 0 →
  is_u64 base → entries_sectors ssize + 2 ≤ base → 0 ≤ step →
  base + Z.of_nat k * step ≤ uint_max 64 →
  smallest_disk k prof base ssize step guid req = None.
Proof.
  intros (Hss & Hss64 & Hg & Hgb & Hreq & Hslot & Hst & Hdiv) Hsz Hb Hle Hstep Hmax.
  rewrite <-(Nat.add_0_r k). rewrite smallest_disk_skip; [done|].
  intros j Hj. rewrite (default_step prof ssize step guid req 0) by
    (done || (uint_unfold; nia) || nia).
  simpl. unfold checked_add. rewrite (proj2 (Z.leb_le _ _)) by nia. f_equal. lia.
Qed.

Definition empty_request : PlacementRequest :=
  new LINUX_FS_GUID (replicate 16 7) (ustr "DATA") (Bytes 0).

Lemma smallest_disk_retries_hopeless_request_witness :
  smallest_disk 1000 release 2048 512 2048 (replicate 16 0xCD) empty_request = None ∧
  smallest_disk 1000 release 2048 512 0 (replicate 16 0xCD) empty_request = None.
Proof.
  assert (plan_ok 512 (replicate 16 0xCD) empty_request) as Hp.
  { destruct sample_plan_ok as (H1 & H2 & H3 & H4 & H5 & H6 & H7 & H8).
    unfold plan_ok. split_and!; try done.
    destruct H5 as (_ & _ & ?). unfold request_ok, size_ok, start_ok; simpl in *.
    split_and!; try tauto. }
  split.
  - apply (smallest_disk_retries_hopeless_request release 2048 512 2048).
    + exact Hp.
    + reflexivity.
    + unfold is_uint; lia.
    + vm_compute; discriminate.
    + lia.
    + unfold uint_max; lia.
  - apply (smallest_disk_retries_hopeless_request release 2048 512 0).
    + exact Hp.
    + reflexivity.
    + unfold is_uint; lia.
    + vm_compute; discriminate.
    + lia.
    + unfold uint_max; lia.
Defined.
