(* ===== verification/GptIo.v ===== *)
(** GPT streaming input and output (libs/parttable/src/gpt/io.rs).

    [read], [write_primary] and [write_backup] over any reader and writer
    that keep the laws of [Io]; shows that a written table is read back, from
    either a fast or a trickling reader, and where the two copies go. *)

From S2P Require Import Prelude Io Utf PartError Crc Mbr GptPartition GptHeader GptTable.

Definition ENTRIES_BYTES : nat := N.to_nat 0x4000.

Section io.
Context `{Crc32}.

Definition skip `{Read R} (reader : R) (n : Z) : res ParttableError R :=
  '(copied, reader) ← from_io (copy_to_sink reader n);
  if copied <? n then Err (Gpt "stream ended before GPT entries") else Ok reader.

Definition validate_geometry (h : GptHeader) : res ParttableError () :=
  if negb (entries_count h =? entries_count_u32)
  then Err (Gpt "unsupported partition entries count")
  else if negb (entries_size h =? ENTRY_SIZE)
  then Err (Gpt "unsupported partition entry size")
  else Ok ().

Definition decode_table (h : GptHeader) (ssize : Z) (bytes : list Z) : res ParttableError Table :=
  from_parts (GptHeader.first_usable_lba h) (GptHeader.last_usable_lba h)
    (GptHeader.disk_guid h) ssize
    (GptPartition.decode <$> chunks_exact (Z.to_nat ENTRY_SIZE) bytes).

(** The probe of the header sector: the reader, the stream position, the
    sector size it implies and the 512 bytes read last. *)
Definition probe `{Read R} (reader : R) : res ParttableError (R * Z * Z * list Z) :=
  '(_, reader) ← from_io (read_exact reader 512);
  '(buffer, reader) ← from_io (read_exact reader 512);
  let position := saturating_add 64 512 512 in
  if bool_decide (take 8 buffer = SIGNATURE) then Ok (reader, position, 512, buffer)
  else
    reader ← skip reader (saturating_sub 4096 position);
    '(buffer, reader) ← from_io (read_exact reader 512);
    Ok (reader, saturating_add 64 4096 512, 4096, buffer).

Definition read `{Read R} (reader : R) : res ParttableError (Table * R) :=
  '(reader, position, ssize, buffer) ← probe reader;
  header ← GptHeader.parse buffer;
  _ ← validate_geometry header;
  entries_offset ← ok_or (checked_mul 64 (entries_lba header) ssize)
    (Gpt "partition entries LBA overflowed");
  reader ← (if position <? entries_offset
            then skip reader (saturating_sub entries_offset position) else Ok reader);
  '(bytes, reader) ← from_io (read_exact reader ENTRIES_BYTES);
  if negb (entries_crc header =? crc32_hash bytes)
  then Err (Gpt "partition entries CRC mismatch")
  else
    table ← decode_table header ssize bytes;
    Ok (table, reader).

(** One iteration of the loop of [partition_entries_bytes]; [get_mut] skips
    a slot that does not fit the array. *)
Definition put_entry {E} (buffer : list Z) (slot : Z * Partition) : res E (list Z) :=
  encoded ← GptPartition.encode slot.2;
  let offset := saturating_mul 64 (saturating_sub slot.1 1) ENTRY_SIZE in
  let end_ := saturating_add 64 offset ENTRY_SIZE in
  copy_range (Z.to_nat offset) (Z.to_nat end_) encoded buffer.

Definition partition_entries_bytes {E} (t : Table) : res E (list Z) :=
  foldM put_entry (zeros ENTRIES_BYTES) (partitions t).

Definition write_region `{Write W} (t : Table) (sector_count : Z) (backup : bool) (writer : W)
    : res ParttableError W :=
  es ← partition_entries_bytes t;
  let crc := crc32_hash es in
  header ← GptHeader.encode (to_header t) backup sector_count (sector_size t) crc;
  writer ← (if backup then from_io (write_all writer es) else Ok writer);
  writer ← from_io (write_all writer header);
  if negb backup then from_io (write_all writer es) else Ok writer.

Definition write_primary `{Write W} (t : Table) (sector_count : Z) (writer : W)
    : res ParttableError W :=
  disk_size ← ok_or (checked_mul 64 sector_count (sector_size t)) (Gpt "disk size overflowed");
  protective_mbr ← protective_bytes disk_size (sector_size t);
  writer ← from_io (write_all writer protective_mbr);
  write_region t sector_count false writer.

Definition write_backup `{Write W} (t : Table) (sector_count : Z) (writer : W)
    : res ParttableError W :=
  write_region t sector_count true writer.

End io.

(** ** Lemmas *)

(** The entries array: the slots in order, unused ones as zeros. *)
Definition entries_image (t : Table) : list Z := slots_image 128 entry_image (entries t).

Lemma table_entry_length t p :
  table_ok t → Some p ∈ entries t → length (entry_image p) = 128%nat.
Proof.
  intros Ht Hp. apply Ht in Hp as (? & _ & _ & ? & _). by apply part_length_entry_image.
Qed.

Lemma length_entries_image t : table_ok t → length (entries_image t) = ENTRIES_BYTES.
Proof.
  intros Ht. unfold entries_image. rewrite length_slots_image by (intros; by eapply table_entry_length).
  destruct Ht as (_&_&_&_&_&_& -> &_). reflexivity.
Qed.

Lemma put_entry_copy {E} buf j p :
  length (type_guid p) = 16%nat → length (unique_guid p) = 16%nat →
  (j < ENTRIES_COUNT)%nat →
  put_entry (E:=E) buf (slot_number j, p)
    = copy_range (0 + j * 128) (0 + j * 128 + 128) (entry_image p) buf.
Proof.
  intros Ht Hu Hj. unfold ENTRIES_COUNT in Hj.
  unfold put_entry. cbn [fst snd]. rewrite part_encode_image, bind_ret by done.
  rewrite slot_number_spec by (etrans; [exact Hj|]; apply Nat.ltb_lt; reflexivity).
  unfold ENTRY_SIZE.
  replace (saturating_mul 64 (saturating_sub (Z.of_nat j + 1) 1) 128)
    with (Z.of_nat j * 128) by ulia.
  replace (saturating_add 64 (Z.of_nat j * 128) 128)
    with (Z.of_nat j * 128 + 128) by ulia.
  f_equal; lia.
Qed.

(** The loop of [partition_entries_bytes] fills the slots in order. *)
Lemma partition_entries_image {E} t :
  table_ok t → partition_entries_bytes (E:=E) t = Ok (entries_image t).
Proof.
  intros Ht. assert (length (entries t) = ENTRIES_COUNT) as Hl by apply Ht.
  unfold partition_entries_bytes, partitions. rewrite foldM_omap.
  pose (f := λ (buf : list Z) (a : nat * option Partition),
    match a.2 with
    | Some p => copy_range (E:=E) (0 + a.1 * 128) (0 + a.1 * 128 + 128) (entry_image p) buf
    | None => Ok buf
    end).
  trans (foldM f (zeros ENTRIES_BYTES) (imap pair (entries t))).
  - apply (foldM_ext_inv (λ _, True)); [done| |done].
    intros buf [j o] Hin _. apply elem_of_lookup_imap in Hin as (j' & o' & [= <- <-] & Ho).
      unfold f, numbered. destruct o as [p|]; [|done]. cbn [fst snd fmap option_fmap option_map].
      assert (Some p ∈ entries t) as Hp by by eapply list_elem_of_lookup_2.
      apply Ht in Hp as (? & _ & _ & ? & _). apply put_entry_copy; [done..|].
      rewrite <-Hl. by eapply lookup_lt_Some.
  - pose proof (foldM_slots (E:=E) 0 128 entry_image f (entries t)) as Hs.
    rewrite (imap_ext _ (λ j o, ((0 + j)%nat, o))) by done.
    specialize (Hs ltac:(done)). ospecialize (Hs _).
    { intros buf j e He. split; [by eapply table_entry_length|done]. }
    specialize (Hs 0%nat [] []). rewrite !app_nil_r, Hl in Hs. simpl app in Hs.
    change (ENTRIES_COUNT * 128)%nat with ENTRIES_BYTES in Hs. by apply Hs.
Qed.

(** The bytes of the two copies. *)
Section images.
Context `{Crc32}.

Definition header_sector (t : Table) (backup : bool) (sector_count : Z) : list Z :=
  let lba := if backup
    then saturating_sub (saturating_sub sector_count 1) (entries_sectors (sector_size t))
    else 2 in
  let img := header_image (to_header t) (current_of backup sector_count)
    (current_of (negb backup) sector_count) lba (crc32_hash (entries_image t)) in
  img (to_le_bytes 4 (crc32_hash (img (zeros 4)))) ++ zeros 420.

Definition protective_sector (t : Table) (sector_count : Z) : list Z :=
  sector_image [Some (protective_entry (sector_count * sector_size t) (sector_size t));
                None; None; None].

Definition primary_image (t : Table) (sector_count : Z) : list Z :=
  protective_sector t sector_count ++ header_sector t false sector_count ++ entries_image t.
Definition backup_image (t : Table) (sector_count : Z) : list Z :=
  entries_image t ++ header_sector t true sector_count.

Lemma to_header_ok t : table_ok t → header_ok (to_header t).
Proof.
  intros (? & ? & ? & ? & ? & ? & _). unfold header_ok, to_header; simpl.
  split_and!; try done; ulia.
Qed.

Lemma to_header_encode {E} t backup sc :
  table_ok t →
  GptHeader.encode (E:=E) (to_header t) backup sc (sector_size t) (crc32_hash (entries_image t))
    = Ok (header_sector t backup sc).
Proof.
  intros Ht. unfold header_sector. apply header_encode_image; [apply Ht|].
  unfold encoded_entries_lba. destruct backup; [|done].
  unfold div_ceil_checked. rewrite (proj2 (Z.eqb_neq _ _)) by (destruct Ht; lia).
  rewrite bind_ret. do 2 f_equal.
Qed.

Lemma length_header_sector t backup sc :
  table_ok t → length (header_sector t backup sc) = 512%nat.
Proof.
  intros Ht. unfold header_sector. rewrite length_app, length_header_image; [done|apply Ht|].
  apply length_to_le_bytes.
Qed.

Lemma header_sector_parse t sc :
  table_ok t →
  GptHeader.parse (header_sector t false sc)
    = Ok (GptHeader.with_entries (to_header t) 2 (crc32_hash (entries_image t))).
Proof.
  intros Ht. unfold header_sector. apply header_parse_image;
    [by apply to_header_ok|ulia|apply crc32_range].
Qed.

Lemma header_sector_signature t backup sc : take 8 (header_sector t backup sc) = SIGNATURE.
Proof. reflexivity. Qed.

Lemma primary_image_ok t sc : table_ok t → bytes_ok (primary_image t sc).
Proof.
  intros Ht. unfold primary_image. apply Forall_app; split.
  { apply sector_image_ok. intros e He. apply elem_of_cons in He as [[= ->]|]; [|set_solver].
    by split. }
  assert (bytes_ok (GptHeader.disk_guid (to_header t))) by apply Ht.
  apply Forall_app; split.
  - unfold header_sector, header_image.
    repeat (apply Forall_app; split); try done; try apply to_le_bytes_ok; try apply zeros_ok.
    repeat constructor; ulia.
  - apply slots_image_ok. intros p Hp. by apply entry_image_ok, Ht.
Qed.

Section write.
Context `{Write W}.

Lemma write_region_eq (w : W) t sc backup :
  table_ok t →
  write_region t sc backup w =
    if backup then w ← from_io (write_all w (entries_image t));
                   from_io (write_all w (header_sector t true sc))
    else w ← from_io (write_all w (header_sector t false sc));
         from_io (write_all w (entries_image t)).
Proof.
  intros Ht. unfold write_region. rewrite partition_entries_image, bind_ret by done.
  rewrite to_header_encode, bind_ret by done. destruct backup; cbn [negb].
  - destruct (from_io (write_all w (entries_image t))) as [w'| |]; [|done..].
    rewrite !bind_ret. by destruct (from_io _).
  - by rewrite bind_ret.
Qed.

Lemma write_primary_eq (w : W) t sc :
  table_ok t → is_u64 sc → sc * sector_size t ≤ uint_max 64 →
  write_primary t sc w =
    w ← from_io (write_all w (protective_sector t sc));
    w ← from_io (write_all w (header_sector t false sc));
    from_io (write_all w (entries_image t)).
Proof.
  intros Ht Hsc Hmul. unfold write_primary. unfold checked_mul at 1.
  rewrite (proj2 (Z.leb_le _ _)) by done. cbn [ok_or]. rewrite bind_ret.
  unfold protective_bytes. rewrite mbr_bytes_image, bind_ret.
  destruct (from_io _); [|done..]. rewrite !bind_ret. by apply write_region_eq.
Qed.
End write.
End images.

Definition with_sector_size (t : Table) (ssize : Z) : Table :=
  {| sector_size := ssize; disk_guid := disk_guid t;
     first_usable_lba := first_usable_lba t; last_usable_lba := last_usable_lba t;
     entries := entries t |}.

Definition names_fit (t : Table) : Prop := ∀ p, Some p ∈ entries t → name_fits p.

Lemma decode_entries_image t :
  table_ok t → names_fit t →
  GptPartition.decode <$> chunks_exact 128 (entries_image t) = entries t.
Proof.
  intros Ht Hn. unfold entries_image.
  rewrite slots_image_chunks by (lia || (intros; by eapply table_entry_length)).
  rewrite <-list_fmap_compose. rewrite <-(list_fmap_id (entries t)) at 2.
  apply list_fmap_ext. intros i [p|] Hi; simpl; [|apply part_decode_zeros].
  apply list_elem_of_lookup_2 in Hi. apply decode_encode; [by apply Ht|by apply Hn].
Qed.

Section stream.
Context `{Crc32}.

Lemma length_protective_sector t sc : length (protective_sector t sc) = 512%nat.
Proof. by apply length_sector_image. Qed.

(** Reading [n] bytes off a stream that starts with a block of that size. *)
Lemma read_block `{ReadLaws R} (r : R) n block rest :
  length block = n → remaining r = block ++ rest →
  ∃ r', read_exact r n = Ok (block, r') ∧ remaining r' = rest.
Proof.
  intros Hl Hr. destruct (read_exact_spec r n) as (r' & Hx & Hd).
  { rewrite Hr, length_app. lia. }
  exists r'. rewrite Hx, Hd, Hr. rewrite take_app_length', drop_app_length' by done. done.
Qed.

Lemma read_primary_image `{ReadLaws R} (r : R) t sc rest :
  table_ok t → names_fit t → remaining r = primary_image t sc ++ rest →
  ∃ r', read r = Ok (with_sector_size t 512, r') ∧ remaining r' = rest.
Proof.
  intros Ht Hn Hr. unfold primary_image in Hr. rewrite <-!app_assoc in Hr.
  destruct (read_block r 512 _ _ (length_protective_sector t sc) Hr) as (r1 & Hr1 & Hrem1).
  destruct (read_block r1 512 _ _ (length_header_sector t false sc Ht) Hrem1)
    as (r2 & Hr2 & Hrem2).
  destruct (read_block r2 ENTRIES_BYTES _ _ (length_entries_image t Ht) Hrem2)
    as (r3 & Hr3 & Hrem3).
  exists r3. split; [|done]. unfold read, probe.
  rewrite Hr1. cbn [from_io map_err]. rewrite bind_ret. rewrite Hr2.
  cbn [from_io map_err]. rewrite bind_ret.
  rewrite bool_decide_eq_true_2 by apply header_sector_signature. rewrite bind_ret.
  rewrite header_sector_parse, bind_ret by done.
  change (validate_geometry _) with (Ok (E:=ParttableError) ()). rewrite bind_ret.
  cbn [GptHeader.entries_lba GptHeader.with_entries].
  change (ok_or (checked_mul 64 2 512) _) with (Ok (E:=ParttableError) 1024). rewrite bind_ret.
  change (saturating_add 64 512 512 <? 1024) with false. cbv iota. rewrite bind_ret.
  rewrite Hr3. cbn [from_io map_err]. rewrite bind_ret.
  cbn [GptHeader.entries_crc GptHeader.with_entries]. rewrite Z.eqb_refl. cbn [negb]. cbv iota.
  unfold decode_table, from_parts. change (Z.to_nat ENTRY_SIZE) with 128%nat.
  rewrite decode_entries_image by done.
  rewrite bool_decide_eq_false_2 by (intros Hne; apply Hne; apply Ht). done.
Qed.

Lemma write_primary_vec t sc :
  table_ok t → is_u64 sc → sc * sector_size t ≤ uint_max 64 →
  write_primary t sc ([] : list Z) = Ok (primary_image t sc).
Proof.
  intros Ht Hsc Hmul. rewrite write_primary_eq by done.
  rewrite !vec_write_all. cbn [from_io map_err]. rewrite bind_ret, vec_write_all.
  cbn [from_io map_err]. rewrite bind_ret, vec_write_all. cbn [from_io map_err].
  unfold primary_image. by rewrite app_nil_l, <-app_assoc.
Qed.

(** C1: Reading back what [write_primary] put of a table, whose names fit
    an entry, on any lawful writer, with any lawful reader and whatever
    follows on the disk, gives the table again, with the sector size 512 of the probed layout, and consumes
    exactly the bytes written. A table whose sectors have 512 bytes is
    therefore read back unchanged; one of 4096-byte sectors is not. *)
Theorem gpt_write_read_roundtrip `{ReadLaws R} `{WriteLaws W} (w w' : W) (r : R)
    t sector_count rest :
  table_ok t → names_fit t → is_u64 sector_count →
  sector_count * sector_size t ≤ uint_max 64 →
  written w = [] → write_primary t sector_count w = Ok w' →
  remaining r = written w' ++ rest →
  ∃ r', read r = Ok (with_sector_size t 512, r') ∧ remaining r' = rest.
Proof.
  intros Ht Hn Hsc Hmul Hw Hp Hr. rewrite write_primary_eq in Hp by done.
  unfold from_io in Hp. inv_ok.
  apply write_all_written in Hv, Hv0, Hp.
  rewrite Hp, Hv0, Hv, Hw, <-!app_assoc in Hr. rewrite app_nil_l in Hr.
  apply (read_primary_image r t sector_count rest); [done..|].
  rewrite Hr. unfold primary_image. by rewrite <-!app_assoc.
Qed.

(** Where the copies go, for a table of 512-byte sectors on a disk of
    [sector_count] sectors: writing to memory succeeds; the primary copy is
    34 sectors, the protective MBR, the header and the entries; the backup
    copy, written at [backup_data_offset], is the entries and a header and
    ends exactly at the end of the disk. *)
Theorem gpt_copies_layout t sector_count :
  table_ok t → sector_size t = 512 → is_u64 sector_count → 33 ≤ sector_count →
  sector_count * 512 ≤ uint_max 64 →
  ∃ primary backup off,
    write_primary t sector_count ([] : list Z) = Ok primary ∧
    write_backup t sector_count ([] : list Z) = Ok backup ∧
    zlen primary = 34 * 512 ∧
    take (Z.to_nat 16384) (drop 1024 primary) = take (Z.to_nat 16384) backup ∧
    backup_data_offset (E:=ParttableError) t sector_count = Ok off ∧
    off + zlen backup = sector_count * 512.
Proof.
  intros Ht Hss Hsc Hmin Hmax.
  exists (primary_image t sector_count), (backup_image t sector_count),
    ((sector_count - 33) * 512).
  pose proof (length_entries_image t Ht) as He.
  change ENTRIES_BYTES with (Z.to_nat 16384) in He.
  assert (zlen (entries_image t) = 16384) as HeZ by (unfold zlen; rewrite He; lia).
  split_and!.
  - apply write_primary_vec; [done..|]. by rewrite Hss.
  - unfold write_backup. rewrite write_region_eq by done.
    rewrite vec_write_all. cbn [from_io map_err]. rewrite bind_ret, vec_write_all. done.
  - unfold primary_image, zlen in *. rewrite !length_app, length_protective_sector,
      length_header_sector by done. lia.
  - unfold primary_image, backup_image. rewrite app_assoc, drop_app_length'.
    + rewrite <-He. by rewrite take_app_length, firstn_all.
    + rewrite length_app, length_protective_sector, length_header_sector by done. done.
  - unfold backup_data_offset, div_ceil_checked. rewrite Hss. cbn [Z.eqb]. rewrite bind_ret.
    change (div_ceil _ 512) with 32. f_equal. ulia.
  - unfold backup_image, zlen in *. rewrite !length_app, length_header_sector by done. lia.
Qed.
End stream.

(** A 32 MiB disk with one partition, in sectors of 512 or of 4096 bytes. *)
Definition sample_table (ssize : Z) : Table :=
  with_sector_size (set_partition empty_table 1 (sample_partition (ustr "EFI"))) ssize.

Lemma sample_table_ok ssize :
  0 < ssize → is_u64 ssize → table_ok (sample_table ssize) ∧ names_fit (sample_table ssize).
Proof.
  intros Hs Hs64.
  assert (∀ p, Some p ∈ entries (sample_table ssize) → p = sample_partition (ustr "EFI")) as He.
  { intros p Hp. apply list_elem_of_lookup in Hp as [i Hi].
    destruct i as [|i]; [by injection Hi as <-|].
    apply (lookup_replicate_1 127) in Hi as [? _]. discriminate. }
  split.
  - unfold table_ok. cbn [sector_size sample_table with_sector_size disk_guid first_usable_lba
      last_usable_lba entries].
    split_and!; try done; try ulia.
    + repeat constructor; ulia.
    + intros p ->%He. apply (bool_decide_eq_true_1 (partition_ok _)). vm_compute. reflexivity.
  - intros p ->%He. unfold name_fits. vm_compute. lia.
Qed.

Lemma gpt_write_read_roundtrip_witness :
  (∃ bytes r', write_primary (H:=crc32_instance) (sample_table 512) 65536 ([] : list Z) = Ok bytes ∧
     read (H:=crc32_instance) {| trickle_bytes := bytes ++ [1; 2; 3] |}
       = Ok (sample_table 512, r') ∧ remaining r' = [1; 2; 3]) ∧
  (∃ bytes r', write_primary (H:=crc32_instance) (sample_table 4096) 65536 ([] : list Z) = Ok bytes ∧
     read (H:=crc32_instance) bytes = Ok (with_sector_size (sample_table 4096) 512, r')).
Proof.
  split.
  - destruct (sample_table_ok 512) as [Ht Hn]; [lia|unfold is_uint; lia|].
    assert (is_u64 65536) as Hsc by (unfold is_uint; lia).
    assert (65536 * 512 ≤ uint_max 64) as Hmul by (unfold uint_max; lia).
    pose proof (write_primary_vec (H:=crc32_instance) (sample_table 512) 65536 Ht Hsc Hmul) as Hw.
    destruct (gpt_write_read_roundtrip (H:=crc32_instance) ([] : list Z)
      (primary_image (H:=crc32_instance) (sample_table 512) 65536)
      {| trickle_bytes := primary_image (H:=crc32_instance) (sample_table 512) 65536 ++ [1; 2; 3] |}
      (sample_table 512) 65536 [1; 2; 3] Ht Hn Hsc Hmul) as (r' & Hr & Hrest);
      [reflexivity|exact Hw|reflexivity|].
    eexists _, r'. split; [exact Hw|]. split; [exact Hr|exact Hrest].
  - destruct (sample_table_ok 4096) as [Ht Hn]; [lia|unfold is_uint; lia|].
    assert (is_u64 65536) as Hsc by (unfold is_uint; lia).
    assert (65536 * 4096 ≤ uint_max 64) as Hmul by (unfold uint_max; lia).
    pose proof (write_primary_vec (H:=crc32_instance) (sample_table 4096) 65536 Ht Hsc Hmul) as Hw.
    destruct (gpt_write_read_roundtrip (H:=crc32_instance) ([] : list Z)
      (primary_image (H:=crc32_instance) (sample_table 4096) 65536)
      (primary_image (H:=crc32_instance) (sample_table 4096) 65536)
      (sample_table 4096) 65536 [] Ht Hn Hsc Hmul) as (r' & Hr & _);
      [reflexivity|exact Hw|symmetry; apply app_nil_r|].
    eexists _, r'. split; [exact Hw|exact Hr].
Defined.

Lemma gpt_copies_layout_witness :
  ∃ primary backup,
    write_primary (H:=crc32_instance) (sample_table 512) 65536 ([] : list Z) = Ok primary ∧
    write_backup (H:=crc32_instance) (sample_table 512) 65536 ([] : list Z) = Ok backup ∧
    zlen primary = 17408 ∧ 65503 * 512 + zlen backup = 65536 * 512.
Proof.
  destruct (sample_table_ok 512) as [Ht _]; [lia|unfold is_uint; lia|].
  destruct (gpt_copies_layout (H:=crc32_instance) (sample_table 512) 65536)
    as (primary & backup & off & Hp & Hb & Hlp & _ & Ho & Hlb).
  - exact Ht.
  - reflexivity.
  - unfold is_uint; lia.
  - lia.
  - unfold uint_max; lia.
  - exists primary, backup. vm_compute in Ho. injection Ho as <-.
    split; [exact Hp|]. split; [exact Hb|]. split; [exact Hlp|exact Hlb].
Defined.

Section read_sound.
Context `{Crc32} `{ReadLaws R}.

Lemma from_io_exact (r : R) n bs r' :
  from_io (read_exact r n) = Ok (bs, r') → length bs = n ∧ remaining r = bs ++ remaining r'.
Proof. intros Hr%map_err_Ok. by apply read_exact_inv. Qed.

Lemma skip_inv (r : R) n r' :
  0 ≤ n → skip r n = Ok r' →
  n ≤ zlen (remaining r) ∧ remaining r' = drop (Z.to_nat n) (remaining r).
Proof.
  intros Hn Hs. unfold skip in Hs.
  destruct (copy_to_sink_spec r n Hn) as (r1 & Hc & Hd).
  rewrite Hc in Hs. cbn [from_io map_err] in Hs. rewrite bind_ret in Hs.
  destruct (Z.ltb_spec (Z.min n (zlen (remaining r))) n); [discriminate|].
  injection Hs as <-. split; [lia|done].
Qed.

(** The header sector [probe] settles on, and where it leaves the stream. *)
Lemma probe_inv (r : R) r' pos ssize buffer :
  probe r = Ok (r', pos, ssize, buffer) →
  ssize = (if bool_decide (take 8 (drop 512 (remaining r)) = SIGNATURE) then 512 else 4096) ∧
  pos = ssize + 512 ∧
  buffer = take 512 (drop (Z.to_nat ssize) (remaining r)) ∧ length buffer = 512%nat ∧
  pos ≤ zlen (remaining r) ∧
  remaining r' = drop (Z.to_nat pos) (remaining r).
Proof.
  intros Hp. unfold probe in Hp. inv_ok. destruct v as [b0 r1]. inv_ok. destruct v as [b1 r2].
  apply from_io_exact in Hv as [Hl0 Hr0], Hv0 as [Hl1 Hr1].
  rewrite Hr0, Hr1. rewrite drop_app_length' by done.
  rewrite (take_app_le b1) by (rewrite Hl1; apply Nat.leb_le; reflexivity).
  case_bool_decide as Hsig; inv_ok.
  - simplify_eq. split_and!; try done.
    + rewrite drop_app_length' by done. by rewrite take_app_length'.
    + unfold zlen. rewrite !length_app, Hl0, Hl1. ulia.
    + rewrite app_assoc, drop_app_length'; [done|]. by rewrite length_app, Hl0, Hl1.
  - destruct v0 as [b2 r4]. inv_ok. simplify_eq. rename buffer into b2, r' into r4.
    change (saturating_sub 4096 (saturating_add 64 512 512)) with 3072 in Hv.
    apply skip_inv in Hv as [Hlen Hdrop]; [|lia].
    apply from_io_exact in Hv0 as [Hl2 Hr2]. rewrite Hdrop in Hr2.
    assert (Hpre : remaining r2 = take (Z.to_nat 3072) (remaining r2) ++ b2 ++ remaining r4)
      by (rewrite <-Hr2; by rewrite take_drop).
    assert (Hl3 : length (take (Z.to_nat 3072) (remaining r2)) = Z.to_nat 3072)
      by (rewrite length_take; unfold zlen in Hlen; lia).
    rewrite Hpre, !app_assoc, <-(app_assoc _ b2).
    assert (Hl4 : length ((b0 ++ b1) ++ take (Z.to_nat 3072) (remaining r2)) = Z.to_nat 4096)
      by (rewrite !length_app, Hl0, Hl1, Hl3; lia).
    split_and!; try done.
    + rewrite drop_app_length' by done. by rewrite take_app_length'.
    + unfold zlen. rewrite length_app, Hl4, length_app, Hl2. ulia.
    + rewrite app_assoc, drop_app_length'; [done|]. rewrite length_app, Hl4, Hl2. reflexivity.
Qed.

Lemma skip_to_inv (r r' : R) pos off :
  is_u64 pos → is_u64 off →
  (if pos <? off then skip r (saturating_sub off pos) else Ok r) = Ok r' →
  remaining r' = drop (Z.to_nat (Z.max 0 (off - pos))) (remaining r) ∧
  Z.max 0 (off - pos) ≤ zlen (remaining r).
Proof.
  intros Hpos Hoff Hs. destruct (Z.ltb_spec pos off).
  - apply skip_inv in Hs as [Hl Hd]; [|ulia].
    replace (Z.max 0 (off - pos)) with (saturating_sub off pos) by ulia. done.
  - injection Hs as <-. rewrite Z.max_l, drop_0 by lia. unfold zlen. split; [done|lia].
Qed.

(** [read] returns a table only from a stream whose header sector (at
    byte 512 when the signature is there, else at 4096) parses, announces
    128 entries of 128 bytes, and whose 16384 entry bytes, at the announced
    LBA or right after the header when that LBA lies before, carry the
    announced checksum; the table is the decoding of those bytes, and the
    reader is left right behind them. *)
Theorem gpt_read_sound (r r' : R) t :
  bytes_ok (remaining r) → read r = Ok (t, r') →
  ∃ ssize h,
    ssize = (if bool_decide (take 8 (drop 512 (remaining r)) = SIGNATURE) then 512 else 4096) ∧
    GptHeader.parse (take 512 (drop (Z.to_nat ssize) (remaining r))) = Ok h ∧
    GptHeader.entries_count h = 128 ∧ GptHeader.entries_size h = 128 ∧
    (let off := Z.max (ssize + 512) (GptHeader.entries_lba h * ssize) in
     let es := take ENTRIES_BYTES (drop (Z.to_nat off) (remaining r)) in
     off + 16384 ≤ zlen (remaining r) ∧ crc32_hash es = GptHeader.entries_crc h ∧
     remaining r' = drop (Z.to_nat (off + 16384)) (remaining r) ∧
     t = {| sector_size := ssize; disk_guid := GptHeader.disk_guid h;
            first_usable_lba := GptHeader.first_usable_lba h;
            last_usable_lba := GptHeader.last_usable_lba h;
            entries := GptPartition.decode <$> chunks_exact 128 es |}).
Proof.
  intros Hok Hr. unfold read in Hr. inv_ok. destruct v as [[[r1 pos] ssize] buffer].
  apply probe_inv in Hv as (Hss & -> & -> & Hlb & Hposlen & Hrem1). inv_ok.
  rename v into h, v1 into off, v2 into r2, v3 into v. destruct v as [es r3].
  assert (entries_count h = 128 ∧ entries_size h = 128) as [Hc Hes].
  { unfold validate_geometry in Hv0.
    destruct (Z.eqb_spec (entries_count h) entries_count_u32); [|discriminate].
    destruct (Z.eqb_spec (entries_size h) ENTRY_SIZE); [|discriminate]. done. }
  assert (header_ok h) as Hh.
  { eapply gpt_header_parse_ok; [|exact Hv]. by apply Forall_take, Forall_drop. }
  unfold checked_mul in Hv1.
  destruct (Z.leb_spec (entries_lba h * ssize) (uint_max 64)); [|discriminate].
  injection Hv1 as <-.
  assert (0 ≤ ssize ≤ 4096) as Hssz by (rewrite Hss; case_bool_decide; lia).
  apply skip_to_inv in Hv2 as [Hrem2 Hlen2]; [|ulia|destruct Hh; uint_unfold; nia].
  apply from_io_exact in Hv3 as [Hle Hrem3].
  destruct (Z.eqb_spec (entries_crc h) (crc32_hash es)) as [Hcrc|]; [|discriminate].
  cbn [negb] in Hr. apply bind_Ok in Hr as (t1 & Hv1 & [= -> ->]).
  unfold decode_table, from_parts in Hv1. case_bool_decide as Hn; [discriminate|].
  injection Hv1 as <-. exists ssize, h. split_and!; try done. intros off es'.
  set (gap := Z.max 0 (entries_lba h * ssize - (ssize + 512))) in *.
  rewrite Hrem1, drop_drop, Hrem3 in Hrem2.
  replace (Z.to_nat (ssize + 512) + Z.to_nat gap)%nat with (Z.to_nat off) in Hrem2 by lia.
  assert (es = es') as <- by (unfold es'; by rewrite <-Hrem2, take_app_length').
  rewrite Hrem1 in Hlen2. unfold zlen in *. rewrite length_drop in Hlen2.
  apply (f_equal length) in Hrem2 as Hlen. rewrite length_app, length_drop, Hle in Hlen.
  change ENTRIES_BYTES with (Z.to_nat 16384) in *.
  split_and!; [lia|done| |done].
  replace (Z.to_nat (off + 16384)) with (Z.to_nat off + Z.to_nat 16384)%nat by lia.
  rewrite <-drop_drop, <-Hrem2, drop_app_length'; done.
Qed.
End read_sound.

Lemma gpt_read_sound_witness :
  ∃ r', read (H:=crc32_instance) (primary_image (H:=crc32_instance) (sample_table 512) 65536)
          = Ok (sample_table 512, r') ∧ ∃ h,
    GptHeader.parse (H:=crc32_instance)
      (take 512 (drop 512 (primary_image (H:=crc32_instance) (sample_table 512) 65536))) = Ok h ∧
    GptHeader.entries_count h = 128.
Proof.
  destruct (sample_table_ok 512) as [Ht Hn]; [lia|unfold is_uint; lia|].
  destruct (read_primary_image (H:=crc32_instance)
    (primary_image (H:=crc32_instance) (sample_table 512) 65536) (sample_table 512) 65536 [])
    as (r' & Hr & _); [exact Ht|exact Hn|symmetry; apply app_nil_r|].
  exists r'. split; [exact Hr|].
  destruct (gpt_read_sound (H:=crc32_instance)
    (primary_image (H:=crc32_instance) (sample_table 512) 65536) r' (sample_table 512))
    as (ssize & h & Hss & Hp & Hc & _);
    [apply primary_image_ok; exact Ht|exact Hr|].
  exists h. rewrite bool_decide_eq_true_2 in Hss.
  - subst ssize. split; [exact Hp|exact Hc].
  - reflexivity.
Defined.
