(* ===== verification/FatTypes.v ===== *)
(** Data of the FAT32 image builder (libs/fatfs/src/types.rs, error.rs).

    Constants, the layout and cluster-map records, the free-space accounting
    of the [FSInfo] sector and the alignment of the FAT region. A path or a
    file name is a string of Unicode scalar values ([ustring]). *)

From S2P Require Import Prelude Io Utf.

Inductive FatError :=
| Io (e : io_error)
| Fat (msg : string).
Definition from_io {A} (r : res io_error A) : res FatError A := map_err Io r.

Definition SECTOR_SIZE : Z := 512.
Definition DATA_ALIGN_BYTES : Z := 4 * 1024.
Definition DATA_ALIGN_SECTORS : Z := DATA_ALIGN_BYTES / SECTOR_SIZE.
Definition FAT_COUNT : Z := 2.
Definition ROOT_CLUSTER : Z := 2.
Definition FAT32_EOC : Z := 0x0FFFFFFF.
Definition UNKNOWN_CLUSTER : Z := 0xFFFFFFFF.
Definition ATTR_DIRECTORY : Z := 0x10.
Definition ATTR_ARCHIVE : Z := 0x20.
Definition ATTR_LFN : Z := 0x0F.
Definition ATTR_VOLUME_ID : Z := 0x08.
Definition VOLUME_ID : Z := 0x12345678.
Definition VOLUME_LABEL : list Z := str_bytes "MUAKOS     ".
Definition FSINFO_SECTOR : Z := 1.
Definition BACKUP_BOOT_SECTOR : Z := 6.
Definition MIN_RESERVED_SECTORS : Z := 7.
Definition FAT32_MIN_CLUSTERS : Z := 0xFFF5.
Definition RESERVED_SECTORS : Z := 8.
Definition FAT_ENTRY_SIZE : Z := 4.
Definition MAX_IMAGE_SIZE : Z := saturating_mul 64 0xFFFFFFFF SECTOR_SIZE.

Record FileMeta := { path : ustring; size : Z }.

Record FatLayout := {
  total_sectors : Z;
  reserved_sectors : Z;
  fat_sectors : Z;
  spc : Z;
  data_cluster_count : Z;
}.

Record ClusterMap := {
  dir_starts : list Z;
  dir_counts : list Z;
  file_starts : list Z;
  file_counts : list Z;
  file_sizes : list Z;
}.

Record FsInfo := { free_clusters : Z; next_free : Z }.

Definition sum_list (l : list Z) : Z := foldr Z.add 0 l.

(** [Iterator::sum::<u64>]: panics on overflow in a debug build, wraps in a
    release build. *)
Definition sum_u64 {E} (prof : profile) (l : list Z) : res E Z :=
  let s := sum_list l in
  if s <=? uint_max 64 then Ok s
  else match prof with debug => Panic | release => Ok (s mod 2 ^ 64) end.

(** [FsInfo::from_map]. *)
Definition from_map {E} (prof : profile) (map : ClusterMap) (layout : FatLayout) : res E FsInfo :=
  dirs ← sum_u64 prof (dir_counts map);
  files ← sum_u64 prof (file_counts map);
  let used := saturating_add 64 dirs files in
  let free := saturating_sub (data_cluster_count layout) used in
  let next :=
    if free =? 0 then UNKNOWN_CLUSTER
    else default UNKNOWN_CLUSTER (try_from 32 (saturating_add 64 ROOT_CLUSTER used)) in
  Ok {| free_clusters := default UNKNOWN_CLUSTER (try_from 32 free); next_free := next |}.

Definition align_fat_sectors (fat_secs reserved : Z) : Z :=
  let overhead := saturating_add 64 reserved (saturating_mul 64 FAT_COUNT fat_secs) in
  let aligned := saturating_mul 64 (div_ceil overhead DATA_ALIGN_SECTORS) DATA_ALIGN_SECTORS in
  let pad := saturating_sub aligned overhead in
  saturating_add 64 fat_secs (div_ceil pad FAT_COUNT).

Definition min_image_size : Z :=
  let entries_per_sector := SECTOR_SIZE / FAT_ENTRY_SIZE in
  let fat_secs := div_ceil (saturating_add 64 FAT32_MIN_CLUSTERS 2)
    (saturating_sub entries_per_sector FAT_COUNT) in
  let fat_secs := align_fat_sectors fat_secs RESERVED_SECTORS in
  let total := saturating_add 64 (saturating_add 64 FAT32_MIN_CLUSTERS RESERVED_SECTORS)
    (saturating_mul 64 FAT_COUNT fat_secs) in
  saturating_mul 64 total SECTOR_SIZE.
Definition MIN_IMAGE_SIZE : Z := min_image_size.

(** ** Lemmas *)

(** Where no bound is reached, the FAT grows to the next page boundary:
    half of the sectors between the overhead and that boundary. *)
Lemma align_fat_sectors_eq f :
  0 ≤ f ≤ 2 ^ 60 →
  RESERVED_SECTORS + 2 * align_fat_sectors f RESERVED_SECTORS
    = round_up (RESERVED_SECTORS + 2 * f) DATA_ALIGN_SECTORS.
Proof.
  intros Hf. unfold align_fat_sectors, RESERVED_SECTORS, FAT_COUNT.
  change DATA_ALIGN_SECTORS with 8.
  replace (saturating_add 64 8 (saturating_mul 64 2 f)) with (8 + 2 * f) by ulia.
  pose proof (round_up_spec (8 + 2 * f) 8 ltac:(lia)) as [Hr [q Hq]].
  unfold round_up in *. set (d := div_ceil (8 + 2 * f) 8) in *.
  replace (saturating_mul 64 d 8) with (8 * d) by (uint_unfold; lia).
  replace (saturating_sub (8 * d) (8 + 2 * f)) with (8 * d - 8 - 2 * f) by ulia.
  pose proof (div_ceil_spec (8 * d - 8 - 2 * f) 2 ltac:(lia)).
  set (h := div_ceil (8 * d - 8 - 2 * f) 2) in *.
  replace (saturating_add 64 f h) with (f + h) by ulia. lia.
Qed.

Lemma sum_u64_ok {E} prof l : sum_list l ≤ uint_max 64 → sum_u64 (E:=E) prof l = Ok (sum_list l).
Proof. intros Hs. unfold sum_u64. by rewrite (proj2 (Z.leb_le _ _)). Qed.

Lemma sum_list_app l1 l2 : sum_list (l1 ++ l2) = sum_list l1 + sum_list l2.
Proof. induction l1 as [|x l1 IH]; simpl; [done|]. unfold sum_list in *. lia. Qed.

Lemma sum_list_nonneg l : Forall (λ z, 0 ≤ z) l → 0 ≤ sum_list l.
Proof. induction 1; simpl; [done|]. unfold sum_list in *. lia. Qed.

Lemma elem_of_sum_list c l : Forall (λ z, 0 ≤ z) l → c ∈ l → c ≤ sum_list l.
Proof.
  induction 1 as [|z l Hz Hl IH]; intros Hin; [set_solver|].
  pose proof (sum_list_nonneg l Hl). unfold sum_list in *. simpl.
  apply elem_of_cons in Hin as [->|Hin]; [lia|]. specialize (IH Hin). lia.
Qed.
