(* ===== verification/FatLayout.v ===== *)
(** FAT32 layout selection (libs/fatfs/src/layout.rs).

    [compute] tries cluster sizes from 64 sectors down; the theorems say what
    an accepted layout guarantees, which sizes are accepted, and for which
    images, smaller than 8 KiB, the wrapping subtractions of [test_spc]
    produce a layout larger than the disk. *)

From S2P Require Import Prelude Io Utf FatTypes.

Definition test_spc (prof : profile) (s total rsvd root_secs : Z)
    : res FatError (option (Z * Z * Z)) :=
  let data_sectors := wrapping_sub 64 total rsvd in
  let total_clusters := data_sectors / s in
  if total_clusters =? 0 then Ok None else
  let fat_entries := saturating_add 64 total_clusters 2 in
  match checked_mul 64 fat_entries FAT_ENTRY_SIZE with
  | None => Ok None
  | Some fat_bytes =>
      m ← next_multiple_of prof fat_bytes SECTOR_SIZE;
      let fat_secs := align_fat_sectors (m / SECTOR_SIZE) rsvd in
      let actual := wrapping_sub 64
        (wrapping_sub 64 data_sectors (wrapping_mul 64 fat_secs FAT_COUNT)) root_secs in
      let final_clusters := actual / s in
      if final_clusters =? 0 then Ok None else Ok (Some (fat_secs, final_clusters, s))
  end.

Definition spc_values : list Z := [64; 32; 16; 8; 4; 2; 1].

(** The loop of [compute] over the cluster sizes still to try. *)
Fixpoint select (prof : profile) (total : Z) (spcs : list Z) : res FatError FatLayout :=
  match spcs with
  | [] => Err (Fat "image size insufficient for any FAT type")
  | s :: spcs =>
      r ← test_spc prof s total RESERVED_SECTORS 0;
      match r with
      | Some (fat_secs, clusters, _) =>
          if FAT32_MIN_CLUSTERS <=? clusters then
            Ok {| total_sectors := total; reserved_sectors := RESERVED_SECTORS;
                  fat_sectors := fat_secs; spc := s; data_cluster_count := clusters |}
          else select prof total spcs
      | None => select prof total spcs
      end
  end.

Definition compute (prof : profile) (image_size : Z) : res FatError FatLayout :=
  if MAX_IMAGE_SIZE <? image_size then
    Err (Fat ("image too large for FAT32: " +:+ pretty image_size +:+ " bytes > "
              +:+ pretty MAX_IMAGE_SIZE))
  else
    let total := image_size / SECTOR_SIZE in
    if total <? 2 then Err (Fat "image too small for reserved area")
    else select prof total spc_values.

(** ** Invariant of an accepted layout *)

(** First sector of the data region. *)
Definition data_start (l : FatLayout) : Z := reserved_sectors l + FAT_COUNT * fat_sectors l.

(** The regions fit the disk, the FAT has an entry for every cluster, the
    data region starts on a page, and the cluster count is one of FAT32. *)
Definition layout_ok (l : FatLayout) : Prop :=
  reserved_sectors l = RESERVED_SECTORS ∧ spc l ∈ spc_values ∧
  0 < fat_sectors l ∧
  data_start l + data_cluster_count l * spc l ≤ total_sectors l < 2 ^ 32 ∧
  (data_cluster_count l + 2) * FAT_ENTRY_SIZE ≤ fat_sectors l * SECTOR_SIZE ∧
  (DATA_ALIGN_BYTES | data_start l * SECTOR_SIZE) ∧
  FAT32_MIN_CLUSTERS ≤ data_cluster_count l < 2 ^ 28 - 16.

(** ** Reference definition *)

(** Sectors of one FAT copy and clusters for a cluster size [s], over
    unbounded integers. *)
Definition fat_secs_for (s total : Z) : Z :=
  (round_up (8 + 2 * div_ceil (((total - 8) / s + 2) * 4) 512) 8 - 8) / 2.
Definition clusters_for (s total : Z) : Z := (total - 8 - 2 * fat_secs_for s total) / s.

Lemma spc_cases s : s ∈ spc_values →
  s = 64 ∨ s = 32 ∨ s = 16 ∨ s = 8 ∨ s = 4 ∨ s = 2 ∨ s = 1.
Proof. unfold spc_values. rewrite !elem_of_cons, elem_of_nil. tauto. Qed.

Lemma fat_secs_for_spec s total :
  0 < s → 8 ≤ total →
  let f := fat_secs_for s total in
  let g := div_ceil (((total - 8) / s + 2) * 4) 512 in
  8 + 2 * f = round_up (8 + 2 * g) 8 ∧ g ≤ f ≤ g + 3 ∧ 1 ≤ g ∧
  (512 * (g - 1) < ((total - 8) / s + 2) * 4 ≤ 512 * g).
Proof.
  intros Hs Ht f g. unfold f, fat_secs_for. fold g.
  assert (0 ≤ (total - 8) / s) by (apply Z.div_pos; lia).
  pose proof (div_ceil_spec (((total - 8) / s + 2) * 4) 512 ltac:(lia)) as Hg. fold g in Hg.
  pose proof (round_up_spec (8 + 2 * g) 8 ltac:(lia)) as [Hr [q Hq]].
  rewrite Hq in *.
  assert ((q * 8 - 8) / 2 = 4 * q - 4) as -> by (symmetry; apply (Z.div_unique _ _ _ 0); lia).
  lia.
Qed.

(** Below the wrap-around [test_spc] computes the reference values. *)
Lemma test_spc_eq prof s total :
  s ∈ spc_values → 16 ≤ total < 2 ^ 32 →
  0 ≤ total - 8 - 2 * fat_secs_for s total ∧
  test_spc prof s total RESERVED_SECTORS 0 =
    Ok (if (total - 8) / s =? 0 then None
        else if clusters_for s total =? 0 then None
        else Some (fat_secs_for s total, clusters_for s total, s)).
Proof.
  intros Hs Ht. assert (1 ≤ s ≤ 64) as Hs64 by (apply spc_cases in Hs; lia).
  pose proof (fat_secs_for_spec s total ltac:(lia) ltac:(lia)) as Hf. simpl in Hf.
  set (g := div_ceil (((total - 8) / s + 2) * 4) 512) in *.
  destruct Hf as (Hf & Hfg & Hg1 & Hg).
  assert (0 ≤ (total - 8) / s ≤ total - 8) as Hq.
  { split; [apply Z.div_pos; lia|]. apply Z.div_le_upper_bound; nia. }
  assert (0 ≤ total - 8 - 2 * fat_secs_for s total) as Hnn.
  { pose proof (round_up_least (8 + 2 * g) 8 (8 * (total / 8)) ltac:(lia)) as Hl.
    pose proof (Z.div_mod total 8 ltac:(lia)). pose proof (Z.mod_pos_bound total 8 ltac:(lia)).
    ospecialize (Hl _ _); [lia| |lia]. by exists (total / 8); lia. }
  split; [done|]. unfold test_spc, RESERVED_SECTORS.
  replace (wrapping_sub 64 total 8) with (total - 8)
    by (unfold wrapping_sub; rewrite Z.mod_small; lia).
  destruct (Z.eqb_spec ((total - 8) / s) 0); [done|].
  replace (saturating_add 64 ((total - 8) / s) 2) with ((total - 8) / s + 2) by ulia.
  unfold checked_mul, FAT_ENTRY_SIZE. rewrite (proj2 (Z.leb_le _ _)) by ulia.
  unfold SECTOR_SIZE. rewrite next_multiple_of_round_up, bind_ret by
    (lia || (unfold round_up; fold g; ulia)).
  replace (round_up (((total - 8) / s + 2) * 4) 512 / 512) with g
    by (unfold round_up; fold g; rewrite Z.mul_comm, Z.div_mul; lia).
  pose proof (align_fat_sectors_eq g ltac:(lia)) as Ha.
  change RESERVED_SECTORS with 8 in Ha. change DATA_ALIGN_SECTORS with 8 in Ha.
  assert (align_fat_sectors g 8 = fat_secs_for s total) as -> by lia.
  replace (wrapping_sub 64 (wrapping_sub 64 (total - 8)
    (wrapping_mul 64 (fat_secs_for s total) FAT_COUNT)) 0)
    with (total - 8 - 2 * fat_secs_for s total).
  { fold (clusters_for s total).
    by destruct (Z.eqb_spec (clusters_for s total) 0). }
  unfold wrapping_sub, wrapping_mul, FAT_COUNT.
  rewrite (Z.mod_small (_ * 2)) by lia. rewrite Z.sub_0_r, (Z.mod_small (_ - _)) by lia.
  rewrite Z.mod_small; lia.
Qed.

(** The loop as a choice of the first cluster size with enough clusters. *)
Lemma select_eq prof total spcs :
  (∀ s, s ∈ spcs → s ∈ spc_values) → 16 ≤ total < 2 ^ 32 →
  select prof total spcs =
    match find (λ s, FAT32_MIN_CLUSTERS <=? clusters_for s total) spcs with
    | Some s => Ok {| total_sectors := total; reserved_sectors := RESERVED_SECTORS;
                      fat_sectors := fat_secs_for s total; spc := s;
                      data_cluster_count := clusters_for s total |}
    | None => Err (Fat "image size insufficient for any FAT type")
    end.
Proof.
  intros Hin Ht. induction spcs as [|s spcs IH]; [done|].
  assert (s ∈ spc_values) as Hs by (apply Hin; set_solver).
  pose proof (spc_cases s Hs) as Hcases.
  destruct (test_spc_eq prof s total Hs Ht) as [Hnn Heq].
  cbn [select find]. rewrite Heq, bind_ret.
  assert (clusters_for s total ≤ (total - 8) / s) as Hle.
  { apply Z.div_le_mono; [lia|].
    pose proof (fat_secs_for_spec s total ltac:(lia) ltac:(lia)) as Hf. simpl in Hf. lia. }
  destruct (Z.eqb_spec ((total - 8) / s) 0) as [H0|H0].
  { rewrite (proj2 (Z.leb_gt _ _)) by (unfold FAT32_MIN_CLUSTERS; lia). apply IH. set_solver. }
  destruct (Z.eqb_spec (clusters_for s total) 0) as [Hc|Hc].
  { rewrite (proj2 (Z.leb_gt _ _)) by (unfold FAT32_MIN_CLUSTERS; lia). apply IH. set_solver. }
  destruct (Z.leb_spec FAT32_MIN_CLUSTERS (clusters_for s total)); [done|].
  apply IH. set_solver.
Qed.

(** Doubling the cluster size never enlarges the FAT. *)
Lemma fat_secs_for_double s total :
  0 < s → 8 ≤ total → fat_secs_for (2 * s) total ≤ fat_secs_for s total.
Proof.
  intros Hs Ht.
  pose proof (fat_secs_for_spec s total Hs Ht) as H1.
  pose proof (fat_secs_for_spec (2 * s) total ltac:(lia) Ht) as H2. simpl in H1, H2.
  assert ((total - 8) / (2 * s) ≤ (total - 8) / s) as Hle by (apply Z.div_le_compat_l; lia).
  assert (div_ceil (((total - 8) / (2 * s) + 2) * 4) 512
    ≤ div_ceil (((total - 8) / s + 2) * 4) 512) as Hg.
  { apply div_ceil_least; [lia|]. lia. }
  pose proof (round_up_mono (8 + 2 * div_ceil (((total - 8) / (2 * s) + 2) * 4) 512)
    (8 + 2 * div_ceil (((total - 8) / s + 2) * 4) 512) 8 ltac:(lia) ltac:(lia)). lia.
Qed.

Lemma clusters_for_double s total :
  0 < s → 8 ≤ total → clusters_for s total < 2 * (clusters_for (2 * s) total + 1).
Proof.
  intros Hs Ht. pose proof (fat_secs_for_double s total Hs Ht) as Hf. unfold clusters_for.
  apply Z.div_lt_upper_bound; [done|].
  pose proof (Z.mul_succ_div_gt (total - 8 - 2 * fat_secs_for (2 * s) total) (2 * s)
    ltac:(lia)). lia.
Qed.

(** With one sector per cluster, 66581 sectors are the least that hold the
    FAT32 minimum of clusters. *)
Lemma clusters_for_1 total :
  16 ≤ total → FAT32_MIN_CLUSTERS ≤ clusters_for 1 total ↔ 66581 ≤ total.
Proof.
  intros Ht. pose proof (fat_secs_for_spec 1 total ltac:(lia) ltac:(lia)) as Hf. simpl in Hf.
  unfold clusters_for. rewrite Z.div_1_r in *.
  set (f := fat_secs_for 1 total) in *. set (g := div_ceil ((total - 8 + 2) * 4) 512) in *.
  destruct Hf as (Hf & Hfg & Hg1 & Hg). unfold FAT32_MIN_CLUSTERS.
  pose proof (round_up_spec (8 + 2 * g) 8 ltac:(lia)) as [Hr [q Hq]]. rewrite <-Hf in *. lia.
Qed.

Lemma clusters_for_least s total :
  s ∈ spc_values → 16 ≤ total → FAT32_MIN_CLUSTERS ≤ clusters_for s total → 66581 ≤ total.
Proof.
  intros Hs Ht Hc. destruct (decide (s = 1)) as [->|Hne].
  { by apply clusters_for_1. }
  assert (2 ≤ s) as Hs2 by (apply spc_cases in Hs; lia).
  pose proof (fat_secs_for_spec s total ltac:(lia) ltac:(lia)) as Hf. simpl in Hf.
  pose proof (Z.mul_div_le (total - 8 - 2 * fat_secs_for s total) s ltac:(lia)) as Hm.
  fold (clusters_for s total) in Hm. unfold FAT32_MIN_CLUSTERS in *. nia.
Qed.

(** A cluster size [compute] settles on gives a layout in order. *)
Lemma chosen_layout_ok s total :
  s ∈ spc_values → 16 ≤ total < 2 ^ 32 →
  FAT32_MIN_CLUSTERS ≤ clusters_for s total < 2 ^ 28 - 16 →
  layout_ok {| total_sectors := total; reserved_sectors := RESERVED_SECTORS;
               fat_sectors := fat_secs_for s total; spc := s;
               data_cluster_count := clusters_for s total |}.
Proof.
  intros Hs Ht Hc. assert (0 < s) as Hs0 by (apply spc_cases in Hs; lia).
  pose proof (fat_secs_for_spec s total Hs0 ltac:(lia)) as Hf. simpl in Hf.
  set (g := div_ceil (((total - 8) / s + 2) * 4) 512) in *. destruct Hf as (Hf & Hfg & Hg1 & Hg).
  destruct (test_spc_eq release s total Hs Ht) as [Hnn _].
  pose proof (Z.mul_div_le (total - 8 - 2 * fat_secs_for s total) s Hs0) as Hm.
  fold (clusters_for s total) in Hm.
  assert (clusters_for s total ≤ (total - 8) / s) as Hle by (apply Z.div_le_mono; lia).
  unfold layout_ok, data_start; cbn [total_sectors reserved_sectors fat_sectors spc
    data_cluster_count]. change RESERVED_SECTORS with 8. change FAT_COUNT with 2.
  split_and!; try done; try lia.
  - unfold FAT_ENTRY_SIZE, SECTOR_SIZE. lia.
  - rewrite Hf. unfold round_up. exists (div_ceil (8 + 2 * g) 8).
    unfold SECTOR_SIZE, DATA_ALIGN_BYTES. lia.
Qed.

Definition enough (total s : Z) : bool := FAT32_MIN_CLUSTERS <=? clusters_for s total.

(** [find] on a descending list returns the largest element that passes. *)
Lemma find_descending (f : Z → bool) l :
  StronglySorted (λ a b, b < a) l →
  match find f l with
  | Some s => s ∈ l ∧ f s = true ∧ ∀ s', s' ∈ l → s < s' → f s' = false
  | None => ∀ s, s ∈ l → f s = false
  end.
Proof.
  induction 1 as [|a l _ IH Ha]; simpl; [set_solver|].
  rewrite Forall_forall in Ha. destruct (f a) eqn:Hf.
  - split_and!; [set_solver|done|]. intros s' [->|Hs']%elem_of_cons Hlt; [lia|].
    specialize (Ha s' Hs'). lia.
  - destruct (find f l) as [s|].
    + destruct IH as (Hs & Hfs & Hlt). split_and!; [set_solver|done|].
      intros s' [->|Hs']%elem_of_cons ?; [done|]. by apply Hlt.
    + intros s [->|Hs]%elem_of_cons; [done|]. by apply IH.
Qed.

Lemma spc_values_descending : StronglySorted (λ a b, b < a) spc_values.
Proof. unfold spc_values. repeat constructor. Qed.

(** The first cluster size, from the largest down, with enough clusters. *)
Lemma find_spc total :
  16 ≤ total < 2 ^ 32 →
  match find (enough total) spc_values with
  | Some s => s ∈ spc_values ∧ FAT32_MIN_CLUSTERS ≤ clusters_for s total < 2 ^ 28 - 16 ∧
      ∀ s', s' ∈ spc_values → s < s' → clusters_for s' total < FAT32_MIN_CLUSTERS
  | None => total < 66581
  end.
Proof.
  intros Ht. pose proof (find_descending (enough total) _ spc_values_descending) as Hf.
  destruct (find (enough total) spc_values) as [s|].
  - destruct Hf as (Hs & Hyes & Hno).
    assert (∀ s', s' ∈ spc_values → s < s' → clusters_for s' total < FAT32_MIN_CLUSTERS) as Hlt.
    { intros s' Hs' Hlt. by apply Z.leb_gt, Hno. }
    split_and!; [done|by apply Z.leb_le| |done].
    destruct (decide (s = 64)) as [->|Hne].
    + unfold clusters_for. apply Z.div_lt_upper_bound; [lia|].
      pose proof (fat_secs_for_spec 64 total ltac:(lia) ltac:(lia)) as Hg. simpl in Hg. lia.
    + assert (0 < s ∧ 2 * s ∈ spc_values) as [Hs0 H2s].
      { apply spc_cases in Hs. unfold spc_values.
        destruct_or! Hs; subst s; try lia; (split; [lia|]); simpl; set_solver. }
      specialize (Hlt _ H2s ltac:(lia)).
      pose proof (clusters_for_double s total Hs0 ltac:(lia)).
      unfold FAT32_MIN_CLUSTERS in *. lia.
  - destruct (decide (66581 ≤ total)) as [Hge|]; [|lia].
    apply clusters_for_1 in Hge; [|lia]. specialize (Hf 1 ltac:(unfold spc_values; set_solver)).
    apply Z.leb_gt in Hf. lia.
Qed.

Lemma layout_ok_ranges l :
  layout_ok l → 1 ≤ spc l ≤ 64 ∧ 0 < total_sectors l < 2 ^ 32 ∧ 0 < fat_sectors l < 2 ^ 32.
Proof.
  intros (Hr & Hs & Hf & Ht & _ & _ & Hc). unfold data_start, FAT_COUNT, FAT32_MIN_CLUSTERS in *.
  rewrite Hr in Ht. unfold RESERVED_SECTORS in Ht.
  assert (1 ≤ spc l ≤ 64) by (apply spc_cases in Hs; lia). split_and!; nia.
Qed.

(** [compute] on an image of at least 16 sectors. *)
Lemma compute_eq prof image_size :
  16 * SECTOR_SIZE ≤ image_size ≤ MAX_IMAGE_SIZE →
  let total := image_size / SECTOR_SIZE in
  16 ≤ total < 2 ^ 32 ∧ compute prof image_size =
    match find (enough total) spc_values with
    | Some s => Ok {| total_sectors := total; reserved_sectors := RESERVED_SECTORS;
                      fat_sectors := fat_secs_for s total; spc := s;
                      data_cluster_count := clusters_for s total |}
    | None => Err (Fat "image size insufficient for any FAT type")
    end.
Proof.
  intros Hmin total. change MAX_IMAGE_SIZE with (0xFFFFFFFF * 512) in *.
  unfold total, SECTOR_SIZE in *.
  pose proof (Z.div_mod image_size 512 ltac:(lia)).
  pose proof (Z.mod_pos_bound image_size 512 ltac:(lia)).
  assert (16 ≤ image_size / 512 < 2 ^ 32) by lia. split; [done|].
  unfold compute, SECTOR_SIZE. change MAX_IMAGE_SIZE with (0xFFFFFFFF * 512).
  rewrite !(proj2 (Z.ltb_ge _ _)) by lia. by rewrite select_eq.
Qed.

Lemma compute_found prof image_size :
  MIN_IMAGE_SIZE ≤ image_size ≤ MAX_IMAGE_SIZE →
  ∃ l, compute prof image_size = Ok l ∧ layout_ok l ∧
       total_sectors l = image_size / SECTOR_SIZE.
Proof.
  change MIN_IMAGE_SIZE with (66581 * 512). intros Hs.
  destruct (compute_eq prof image_size) as [Ht ->]; [unfold SECTOR_SIZE; lia|].
  pose proof (find_spc _ Ht) as Hf. destruct (find _ _) as [s|].
  - destruct Hf as (? & ? & _). eexists. split_and!; [done|by apply chosen_layout_ok|done].
  - unfold SECTOR_SIZE in Hf. pose proof (Z.div_le_lower_bound image_size 512 66581). lia.
Qed.

Lemma compute_inv prof image_size l :
  16 * SECTOR_SIZE ≤ image_size → compute prof image_size = Ok l →
  layout_ok l ∧ total_sectors l = image_size / SECTOR_SIZE ∧ image_size ≤ MAX_IMAGE_SIZE.
Proof.
  intros Hmin Hc. destruct (decide (image_size ≤ MAX_IMAGE_SIZE)) as [Hmax|Hmax]; last first.
  { unfold compute in Hc. rewrite (proj2 (Z.ltb_lt _ _)) in Hc by lia. discriminate. }
  destruct (compute_eq prof image_size) as [Ht Heq]; [lia|]. rewrite Heq in Hc.
  pose proof (find_spc _ Ht) as Hs. destruct (find _ _) as [s|]; [|discriminate].
  injection Hc as <-. destruct Hs as (? & ? & _). split_and!; [by apply chosen_layout_ok|done|done].
Qed.

(** C32: From eight kilobytes up, [compute] accepts exactly the image sizes
    between [MIN_IMAGE_SIZE] and [MAX_IMAGE_SIZE], in both build profiles.
    An accepted layout fits the image, has a FAT entry for every cluster, a
    data region that starts on a page boundary and a FAT32 cluster count, and
    uses the largest cluster size that leaves enough clusters. *)
Theorem compute_layout_correct prof image_size :
  16 * SECTOR_SIZE ≤ image_size →
  match compute prof image_size with
  | Ok l => MIN_IMAGE_SIZE ≤ image_size ≤ MAX_IMAGE_SIZE ∧
      total_sectors l = image_size / SECTOR_SIZE ∧ layout_ok l ∧
      ∀ s, s ∈ spc_values → spc l < s →
        clusters_for s (total_sectors l) < FAT32_MIN_CLUSTERS
  | Err _ => image_size < MIN_IMAGE_SIZE ∨ MAX_IMAGE_SIZE < image_size
  | Panic => False
  end.
Proof.
  intros Hmin. destruct (decide (image_size ≤ MAX_IMAGE_SIZE)) as [Hmax|Hmax]; last first.
  { unfold compute. rewrite (proj2 (Z.ltb_lt _ _)) by lia. right. lia. }
  destruct (compute_eq prof image_size) as [Ht ->]; [lia|].
  pose proof (find_spc _ Ht) as Hs. set (total := image_size / SECTOR_SIZE) in *.
  pose proof (Z.mul_div_le image_size SECTOR_SIZE ltac:(done)) as Hdm.
  pose proof (Z.mul_succ_div_gt image_size SECTOR_SIZE ltac:(done)).
  change MIN_IMAGE_SIZE with (66581 * SECTOR_SIZE). unfold SECTOR_SIZE in *.
  destruct (find (enough total) spc_values) as [s|]; [|left; lia].
  destruct Hs as (Hs & Hc & Hlarger).
  pose proof (clusters_for_least s total Hs ltac:(lia) ltac:(lia)).
  split_and!; [lia..|done|by apply chosen_layout_ok|done].
Qed.

Lemma compute_layout_correct_witness :
  ∃ l, compute debug (36 * 1024 * 1024) = Ok l ∧ layout_ok l ∧ spc l = 1.
Proof.
  pose proof (compute_layout_correct debug (36 * 1024 * 1024)) as Hc.
  destruct (compute debug (36 * 1024 * 1024)) as [l| |] eqn:Hl; [|vm_compute in Hl; discriminate..].
  destruct Hc as (_ & _ & Hok & _); [unfold SECTOR_SIZE; lia|].
  exists l. split; [reflexivity|]. split; [exact Hok|].
  vm_compute in Hl. injection Hl as <-. reflexivity.
Defined.

(** Images of 2 to 15 sectors, 8 excepted, are accepted too: the
    subtractions of [test_spc] wrap around, and the layout claims more data
    clusters than the image has sectors. *)
Theorem compute_accepts_tiny_images prof total :
  2 ≤ total < 16 → total ≠ 8 →
  ∃ l, compute prof (total * SECTOR_SIZE) = Ok l ∧
       total_sectors l = total ∧ total < data_cluster_count l.
Proof.
  intros Ht Hne.
  assert (total = 2 ∨ total = 3 ∨ total = 4 ∨ total = 5 ∨ total = 6 ∨ total = 7 ∨ total = 9 ∨
    total = 10 ∨ total = 11 ∨ total = 12 ∨ total = 13 ∨ total = 14 ∨ total = 15) as Hcases by lia.
  destruct_or! Hcases; subst total; destruct prof; (eexists; split; [vm_compute; reflexivity|done]).
Qed.

Lemma compute_accepts_tiny_images_witness :
  ∃ l, compute release (4 * SECTOR_SIZE) = Ok l ∧ 4 < data_cluster_count l.
Proof.
  destruct (compute_accepts_tiny_images release 4) as (l & Hl & _ & Hc); [lia|lia|].
  exists l. split; [exact Hl|exact Hc].
Defined.
