(* ===== verification/FatSize.v ===== *)
(** Sizing of a FAT volume for a payload ([image_size_for] of
    libs/fatfs/src/builder/mod.rs).

    The loop grows the image by [FREE_SLACK] until the layout has room; it
    ends within [size_iterations] rounds, since the size is capped. *)

From S2P Require Import Prelude Io Utf FatTypes FatLayout.

Definition DIRECTORY_OVERHEAD : Z := 2 ^ 20.
Definition FREE_SLACK : Z := 4 * 2 ^ 20.

Definition capacity (l : FatLayout) : Z :=
  saturating_mul 64 (saturating_mul 64 (data_cluster_count l) (spc l)) SECTOR_SIZE.

(** One round of the loop: the answer, or the next size to try. *)
Definition size_step (prof : profile) (target sz : Z) : res FatError (Z + Z) :=
  geometry ← compute prof sz;
  if target <=? capacity geometry then Ok (inl sz)
  else if MAX_IMAGE_SIZE <=? sz then Err (Fat "volume would exceed the FAT32 ceiling")
  else
    grown ← next_multiple_of prof (saturating_add 64 sz FREE_SLACK) SECTOR_SIZE;
    Ok (inr (Z.min grown MAX_IMAGE_SIZE)).

Fixpoint size_loop (fuel : nat) (prof : profile) (target sz : Z) : option (res FatError Z) :=
  match fuel with
  | O => None
  | S fuel =>
      match size_step prof target sz with
      | Ok (inl sz) => Some (Ok sz)
      | Ok (inr sz) => size_loop fuel prof target sz
      | Err e => Some (Err e)
      | Panic => Some Panic
      end
  end.

Definition image_size_for (fuel : nat) (prof : profile) (total_data : Z)
    : option (res FatError Z) :=
  let target := saturating_add 64 (saturating_add 64 total_data DIRECTORY_OVERHEAD) FREE_SLACK in
  match next_multiple_of prof (Z.max target MIN_IMAGE_SIZE) SECTOR_SIZE with
  | Ok sz => size_loop fuel prof target sz
  | Err e => Some (Err e)
  | Panic => Some Panic
  end.

(** The space a payload needs. *)
Definition needed (total_data : Z) : Z := total_data + DIRECTORY_OVERHEAD + FREE_SLACK.

(** Rounds that are enough from the least size up to the largest one. *)
Definition size_iterations : Z := (MAX_IMAGE_SIZE - MIN_IMAGE_SIZE) / FREE_SLACK + 2.

(** Capacity of the largest volume. *)
Definition max_capacity : Z :=
  match compute release MAX_IMAGE_SIZE with Ok l => capacity l | _ => 0 end.

(** ** Lemmas *)

Lemma capacity_eq l : layout_ok l → capacity l = data_cluster_count l * spc l * SECTOR_SIZE.
Proof.
  intros (_ & Hs & _ & _ & _ & _ & Hc). assert (1 ≤ spc l ≤ 64) by (apply spc_cases in Hs; lia).
  unfold capacity, FAT32_MIN_CLUSTERS, SECTOR_SIZE in *. uint_unfold. nia.
Qed.

(** A round on a size between the bounds, a multiple of the sector size. *)
Lemma size_step_eq prof target sz :
  MIN_IMAGE_SIZE ≤ sz ≤ MAX_IMAGE_SIZE → (SECTOR_SIZE | sz) →
  ∃ l, compute prof sz = Ok l ∧ layout_ok l ∧ total_sectors l = sz / SECTOR_SIZE ∧
    size_step prof target sz =
      if target <=? capacity l then Ok (inl sz)
      else if MAX_IMAGE_SIZE <=? sz then Err (Fat "volume would exceed the FAT32 ceiling")
      else Ok (inr (Z.min (sz + FREE_SLACK) MAX_IMAGE_SIZE)).
Proof.
  intros Hs [q Hq]. destruct (compute_found prof sz Hs) as (l & Hl & Hok & Ht).
  exists l. split_and!; [done..|]. unfold size_step. rewrite Hl, bind_ret.
  destruct (target <=? capacity l); [done|]. destruct (MAX_IMAGE_SIZE <=? sz); [done|].
  change MAX_IMAGE_SIZE with (0xFFFFFFFF * 512) in *. unfold FREE_SLACK, SECTOR_SIZE in *.
  replace (saturating_add 64 sz (4 * 2 ^ 20)) with (sz + 4 * 2 ^ 20) by
    (change MIN_IMAGE_SIZE with (66581 * 512) in *; ulia).
  assert (round_up (sz + 4 * 2 ^ 20) 512 = sz + 4 * 2 ^ 20) as Hr.
  { apply Z.le_antisymm; [|apply round_up_spec; lia].
    apply round_up_least; [lia..|]. exists (q + 8192). lia. }
  rewrite next_multiple_of_round_up, bind_ret by (lia || (rewrite Hr; ulia)). by rewrite Hr.
Qed.

(** What the loop answers: a size with room, the first of its kind along
    the steps from [sz], or the error of a payload no volume can hold. *)
Definition size_answer (prof : profile) (target sz : Z) (r : res FatError Z) : Prop :=
  match r with
  | Ok sz' =>
      sz ≤ sz' ≤ MAX_IMAGE_SIZE ∧ (SECTOR_SIZE | sz') ∧
      (∃ l, compute prof sz' = Ok l ∧ layout_ok l ∧
            target ≤ data_cluster_count l * spc l * SECTOR_SIZE) ∧
      (∀ k : nat, sz + Z.of_nat k * FREE_SLACK < sz' →
        ∃ l, compute prof (sz + Z.of_nat k * FREE_SLACK) = Ok l ∧
             data_cluster_count l * spc l * SECTOR_SIZE < target)
  | Err _ => max_capacity < target
  | Panic => False
  end.

Lemma max_compute prof l : compute prof MAX_IMAGE_SIZE = Ok l → max_capacity = capacity l.
Proof. intros Hl. destruct prof; vm_compute in Hl; injection Hl as <-; vm_compute; reflexivity. Qed.

Lemma max_capacity_lt :
  max_capacity < uint_max 64 - SECTOR_SIZE ∧ max_capacity < MAX_IMAGE_SIZE - SECTOR_SIZE.
Proof. split; vm_compute; reflexivity. Qed.

#[local] Opaque max_capacity.

Lemma size_loop_spec fuel prof target sz :
  MIN_IMAGE_SIZE ≤ sz ≤ MAX_IMAGE_SIZE → (SECTOR_SIZE | sz) →
  MAX_IMAGE_SIZE - sz ≤ (Z.of_nat fuel - 1) * FREE_SLACK →
  ∃ r, size_loop fuel prof target sz = Some r ∧ size_answer prof target sz r.
Proof.
  revert sz; induction fuel as [|fuel IH]; intros sz Hs Hq Hf.
  { unfold FREE_SLACK in Hf. lia. }
  destruct (size_step_eq prof target sz Hs Hq) as (l & Hl & Hok & Ht & Hstep).
  cbn [size_loop]. rewrite Hstep. pose proof (capacity_eq l Hok) as Hcap.
  destruct (Z.leb_spec target (capacity l)) as [Hroom|Hroom].
  { eexists. split; [done|]. split_and!; [lia..|done|exists l; split_and!; [done..|lia]|].
    intros k Hk. unfold FREE_SLACK in Hk. lia. }
  destruct (Z.leb_spec MAX_IMAGE_SIZE sz) as [Hmax|Hmax].
  { eexists. split; [done|]. simpl. assert (sz = MAX_IMAGE_SIZE) as -> by lia.
    by rewrite (max_compute prof l). }
  set (sz1 := Z.min (sz + FREE_SLACK) MAX_IMAGE_SIZE).
  destruct (IH sz1) as (r & Hr & Hans).
  - unfold sz1, FREE_SLACK. lia.
  - unfold sz1. destruct (Z.min_spec (sz + FREE_SLACK) MAX_IMAGE_SIZE) as [[_ ->]|[_ ->]].
    + apply Z.divide_add_r; [done|]. by exists 8192.
    + by exists 0xFFFFFFFF.
  - unfold sz1, FREE_SLACK in *. lia.
  - exists r. split; [done|]. destruct r as [sz'| |]; [|done..].
    destruct Hans as (Hle & Hdiv & Hfit & Hbefore).
    split_and!; [unfold sz1, FREE_SLACK in *; lia|lia|done|done|].
    intros [|k] Hk.
    + exists l. replace (sz + Z.of_nat 0 * FREE_SLACK) with sz by lia. split; [done|lia].
    + assert (sz1 = sz + FREE_SLACK) as Hsz1 by (unfold sz1, FREE_SLACK in *; lia).
      specialize (Hbefore k). rewrite Hsz1 in Hbefore.
      replace (sz + Z.of_nat (S k) * FREE_SLACK) with (sz + FREE_SLACK + Z.of_nat k * FREE_SLACK)
        by (unfold FREE_SLACK; lia). apply Hbefore. unfold FREE_SLACK in *. lia.
Qed.

(** A size the layout refuses ends the loop at once. *)
Lemma size_loop_err fuel prof target sz e :
  size_iterations ≤ Z.of_nat fuel → compute prof sz = Err e →
  size_loop fuel prof target sz = Some (Err e).
Proof.
  intros Hf Hc. destruct fuel as [|fuel]; [by vm_compute in Hf|].
  cbn [size_loop]. unfold size_step. by rewrite Hc.
Qed.

(** C39: [image_size_for] ends within [size_iterations] rounds (524289) for
    every payload. It answers the first size, in steps of 4 MiB from the
    payload plus 5 MiB rounded up to a sector, at least the FAT32 minimum,
    whose layout has room for the payload and 5 MiB more; it fails only
    when the largest volume has no such room. It panics exactly in a debug
    build and where the space the payload needs exceeds the last sector boundary
    below 2^64. *)
Theorem image_size_for_correct fuel prof total_data :
  is_u64 total_data → size_iterations ≤ Z.of_nat fuel →
  ∃ r, image_size_for fuel prof total_data = Some r ∧
  (r = Panic ↔ prof = debug ∧ 2 ^ 64 - SECTOR_SIZE < needed total_data) ∧
  match r with
  | Ok sz => size_answer prof (needed total_data)
        (round_up (Z.max (needed total_data) MIN_IMAGE_SIZE) SECTOR_SIZE) (Ok sz)
  | Err _ => max_capacity < needed total_data
  | Panic => True
  end.
Proof.
  intros Hd Hf. unfold image_size_for. set (target := saturating_add 64 _ _).
  assert (target = Z.min (needed total_data) (uint_max 64)) as Htgt.
  { unfold target, needed, DIRECTORY_OVERHEAD, FREE_SLACK. ulia. }
  destruct max_capacity_lt as [Hcap Hcap'].
  assert (MIN_IMAGE_SIZE = 66581 * 512) as Hmin by reflexivity.
  assert (MAX_IMAGE_SIZE = 0xFFFFFFFF * 512) as Hmax by reflexivity.
  set (start := Z.max target MIN_IMAGE_SIZE).
  pose proof (round_up_spec start SECTOR_SIZE ltac:(done)) as [Hr Hdiv].
  destruct (decide (round_up start SECTOR_SIZE ≤ uint_max 64)) as [Hle|Hgt].
  - rewrite next_multiple_of_round_up by (exact Hle || reflexivity).
    assert (¬ 2 ^ 64 - SECTOR_SIZE < needed total_data) as Hfit.
    { destruct Hdiv as [q Hq]. unfold SECTOR_SIZE, uint_max in *. lia. }
    destruct (decide (round_up start SECTOR_SIZE ≤ MAX_IMAGE_SIZE)) as [Hm|Hm].
    + destruct (size_loop_spec fuel prof target (round_up start SECTOR_SIZE)) as (r & Hl & Ha).
      * lia.
      * done.
      * unfold size_iterations in Hf. pose proof (Z.mul_succ_div_gt
          (MAX_IMAGE_SIZE - MIN_IMAGE_SIZE) FREE_SLACK ltac:(done)). unfold FREE_SLACK in *. lia.
      * exists r. split; [done|]. assert (target = needed total_data) as Ht.
        { unfold uint_max in *. lia. }
        unfold start in Ha. rewrite Ht in Ha.
        destruct r as [sz|e|]; cbn [size_answer] in Ha; [| |destruct Ha];
          (split; [|exact Ha]); split; [discriminate|intros [_ Hn]; destruct (Hfit Hn)|discriminate|intros [_ Hn]; destruct (Hfit Hn)].
    + exists (Err (Fat ("image too large for FAT32: " +:+ pretty (round_up start SECTOR_SIZE)
        +:+ " bytes > " +:+ pretty MAX_IMAGE_SIZE))). split.
      * apply size_loop_err; [exact Hf|]. unfold compute.
        assert (MAX_IMAGE_SIZE <? round_up start SECTOR_SIZE = true) as ->
          by (apply Z.ltb_lt; lia). reflexivity.
      * split; [split; [discriminate|intros [_ Hn]; destruct (Hfit Hn)]|]. unfold SECTOR_SIZE, uint_max in *. lia.
  - assert (2 ^ 64 - SECTOR_SIZE < needed total_data) as Hbig.
    { unfold SECTOR_SIZE, uint_max in *. lia. }
    assert (round_up start SECTOR_SIZE = 2 ^ 64) as H64.
    { destruct Hdiv as [q Hq]. unfold SECTOR_SIZE, uint_max in *. lia. }
    rewrite next_multiple_of_overflow by (unfold uint_max, SECTOR_SIZE in *; lia).
    rewrite H64. destruct prof; [exists Panic; split; [reflexivity|split; [split; [intros _; split; [reflexivity|exact Hbig]|reflexivity]|exact I]]|].
    exists (Err (Fat "image too small for reserved area")).
    split; [|split; [split; [discriminate|intros [Hn _]; discriminate Hn]|unfold SECTOR_SIZE in *; lia]].
    apply size_loop_err; [exact Hf|reflexivity].
Qed.

Lemma image_size_for_correct_witness :
  ∃ r, image_size_for (Z.to_nat size_iterations) debug (69 * 2 ^ 20) = Some r ∧
    match r with
    | Ok sz => size_answer debug (74 * 2 ^ 20) (74 * 2 ^ 20) (Ok sz)
    | Err _ => max_capacity < 74 * 2 ^ 20
    | Panic => False
    end.
Proof.
  destruct (image_size_for_correct (Z.to_nat size_iterations) debug (69 * 2 ^ 20))
    as (r & Hr & Hpanic & Ha).
  - unfold is_uint; lia.
  - rewrite Z2Nat.id; [reflexivity|vm_compute; discriminate].
  - exists r. split; [exact Hr|]. change (needed (69 * 2 ^ 20)) with (74 * 2 ^ 20) in Ha.
    destruct r as [sz|e|].
    + change (round_up (Z.max (74 * 2 ^ 20) MIN_IMAGE_SIZE) SECTOR_SIZE) with (74 * 2 ^ 20) in Ha.
      exact Ha.
    + exact Ha.
    + destruct (proj1 Hpanic eq_refl) as [_ Hp]. vm_compute in Hp. discriminate.
Defined.
