(* ===== verification/FatBoot.v ===== *)
(** FAT32 boot sector and [FSInfo] sector (libs/fatfs/src/boot.rs).

    The two encoders and what a FAT driver reads back from them: [bpb] is the
    reference view of a boot sector, by the offsets of the FAT32 on-disk
    format. *)

From S2P Require Import Prelude Io Utf FatTypes FatLayout.

Definition SECTOR_BYTES : nat := 512.
Definition SECTORS_PER_TRACK : Z := 32.
Definition HEADS : Z := 64.
Definition MEDIA : Z := 0xF8.
Definition DRIVE_NUMBER : Z := 0x80.
Definition EXTENDED_SIGNATURE : Z := 0x29.
Definition FSINFO_LEAD : Z := 0x41615252.
Definition FSINFO_STRUCT : Z := 0x61417272.
Definition FSINFO_TRAIL : Z := 0xAA550000.
Definition BOOT_CODE : list Z :=
  [0x0E; 0x1F; 0xBE; 0x77; 0x7C; 0xAC; 0x22; 0xC0; 0x74; 0x0B; 0x56; 0xB4; 0x0E; 0xBB; 0x07; 0x00;
   0xCD; 0x10; 0x5E; 0xEB; 0xF0; 0x32; 0xE4; 0xCD; 0x16; 0xCD; 0x19; 0xEB; 0xFE; 0x54; 0x68; 0x69;
   0x73; 0x20; 0x69; 0x73; 0x20; 0x6E; 0x6F; 0x74; 0x20; 0x61; 0x20; 0x62; 0x6F; 0x6F; 0x74; 0x61;
   0x62; 0x6C; 0x65; 0x20; 0x64; 0x69; 0x73; 0x6B; 0x2E; 0x20; 0x20; 0x50; 0x6C; 0x65; 0x61; 0x73;
   0x65; 0x20; 0x69; 0x6E; 0x73; 0x65; 0x72; 0x74; 0x20; 0x61; 0x20; 0x62; 0x6F; 0x6F; 0x74; 0x61;
   0x62; 0x6C; 0x65; 0x20; 0x66; 0x6C; 0x6F; 0x70; 0x70; 0x79; 0x20; 0x61; 0x6E; 0x64; 0x0D; 0x0A;
   0x70; 0x72; 0x65; 0x73; 0x73; 0x20; 0x61; 0x6E; 0x79; 0x20; 0x6B; 0x65; 0x79; 0x20; 0x74; 0x6F;
   0x20; 0x74; 0x72; 0x79; 0x20; 0x61; 0x67; 0x61; 0x69; 0x6E; 0x20; 0x2E; 0x2E; 0x2E; 0x20; 0x0D;
   0x0A].

Definition put {E} (buf : list Z) (offset : nat) (src : list Z) : res E (list Z) :=
  copy_range offset (offset + length src) src buf.

(** [uN::try_from(z).unwrap_or(d)] in little-endian bytes. *)
Definition le_or (n : nat) (d z : Z) : list Z :=
  to_le_bytes n (default d (try_from (8 * Z.of_nat n) z)).

Definition sector {E} (layout : FatLayout) : res E (list Z) :=
  boot ← put (zeros SECTOR_BYTES) 0 [0xEB; 0x58; 0x90];
  boot ← put boot 3 (str_bytes "MSWIN4.1");
  boot ← put boot 11 (le_or 2 0 SECTOR_SIZE);
  boot ← put boot 13 [default 1 (try_from 8 (spc layout))];
  boot ← put boot 14 (le_or 2 0 (reserved_sectors layout));
  boot ← put boot 16 [default 0 (try_from 8 FAT_COUNT)];
  boot ← put boot 21 [MEDIA];
  boot ← put boot 24 (to_le_bytes 2 SECTORS_PER_TRACK);
  boot ← put boot 26 (to_le_bytes 2 HEADS);
  boot ← put boot 32 (le_or 4 0 (total_sectors layout));
  boot ← put boot 36 (le_or 4 0 (fat_sectors layout));
  boot ← put boot 44 (to_le_bytes 4 ROOT_CLUSTER);
  boot ← put boot 48 (to_le_bytes 2 FSINFO_SECTOR);
  boot ← put boot 50 (to_le_bytes 2 BACKUP_BOOT_SECTOR);
  boot ← put boot 64 [DRIVE_NUMBER];
  boot ← put boot 66 [EXTENDED_SIGNATURE];
  boot ← put boot 67 (to_le_bytes 4 VOLUME_ID);
  boot ← put boot 71 VOLUME_LABEL;
  boot ← put boot 82 (str_bytes "FAT32   ");
  boot ← put boot 90 BOOT_CODE;
  put boot 510 [0x55; 0xAA].

Definition fsinfo {E} (info : FsInfo) : res E (list Z) :=
  sec ← put (zeros SECTOR_BYTES) 0 (to_le_bytes 4 FSINFO_LEAD);
  sec ← put sec 484 (to_le_bytes 4 FSINFO_STRUCT);
  sec ← put sec 488 (to_le_bytes 4 (free_clusters info));
  sec ← put sec 492 (to_le_bytes 4 (next_free info));
  put sec 508 (to_le_bytes 4 FSINFO_TRAIL).

(** ** Reference view: the fields a driver reads *)

Record bpb := {
  bytes_per_sector : Z; sectors_per_cluster : Z; reserved : Z; num_fats : Z;
  root_entries : Z; total16 : Z; fat16 : Z; total32 : Z; fat32 : Z;
  root_cluster : Z; fsinfo_sector : Z; backup_sector : Z; boot_signature : Z }.

Definition read_bpb (b : list Z) : bpb :=
  {| bytes_per_sector := le_at 2 11 b; sectors_per_cluster := le_at 1 13 b;
     reserved := le_at 2 14 b; num_fats := le_at 1 16 b; root_entries := le_at 2 17 b;
     total16 := le_at 2 19 b; fat16 := le_at 2 22 b; total32 := le_at 4 32 b;
     fat32 := le_at 4 36 b; root_cluster := le_at 4 44 b; fsinfo_sector := le_at 2 48 b;
     backup_sector := le_at 2 50 b; boot_signature := le_at 2 510 b |}.

(** ** Lemmas *)

(** The boot sector as one block. *)
Definition boot_image (l : FatLayout) : list Z :=
  [0xEB; 0x58; 0x90] ++ str_bytes "MSWIN4.1" ++ le_or 2 0 SECTOR_SIZE ++
  [default 1 (try_from 8 (spc l))] ++ le_or 2 0 (reserved_sectors l) ++ [2; 0; 0; 0; 0; MEDIA; 0; 0] ++
  to_le_bytes 2 SECTORS_PER_TRACK ++ to_le_bytes 2 HEADS ++ zeros 4 ++
  le_or 4 0 (total_sectors l) ++ le_or 4 0 (fat_sectors l) ++ zeros 4 ++
  to_le_bytes 4 ROOT_CLUSTER ++ to_le_bytes 2 FSINFO_SECTOR ++
  to_le_bytes 2 BACKUP_BOOT_SECTOR ++ zeros 12 ++ [DRIVE_NUMBER; 0; EXTENDED_SIGNATURE] ++
  to_le_bytes 4 VOLUME_ID ++ VOLUME_LABEL ++ str_bytes "FAT32   " ++ BOOT_CODE ++
  zeros 291 ++ [0x55; 0xAA].

Definition fsinfo_image (i : FsInfo) : list Z :=
  to_le_bytes 4 FSINFO_LEAD ++ zeros 480 ++ to_le_bytes 4 FSINFO_STRUCT ++
  to_le_bytes 4 (free_clusters i) ++ to_le_bytes 4 (next_free i) ++ zeros 12 ++
  to_le_bytes 4 FSINFO_TRAIL.

Lemma fsinfo_eq {E} i : fsinfo (E:=E) i = Ok (fsinfo_image i).
Proof. reflexivity. Qed.

Lemma sector_eq {E} l : sector (E:=E) l = Ok (boot_image l).
Proof. reflexivity. Qed.

Lemma le_at_or n off b d z :
  slice off (off + n) b = Some (le_or n d z) → is_uint (8 * Z.of_nat n) z →
  0 ≤ z < 256 ^ Z.of_nat n → le_at n off b = z.
Proof.
  intros Hs Hu Hz. apply le_at_bytes; [|done]. rewrite Hs. unfold le_or.
  by rewrite try_from_ok.
Qed.

Lemma length_boot_image l : length (boot_image l) = 512%nat.
Proof. reflexivity. Qed.
Lemma length_fsinfo_image i : length (fsinfo_image i) = 512%nat.
Proof. reflexivity. Qed.

(** The boot sector of an accepted layout is one sector from which a
    driver reads 512-byte sectors, the layout's cluster size, reserved,
    total and FAT sectors, two FATs, no FAT16 fields, the root directory at
    cluster 2, [FSInfo] and the backup at sectors 1 and 6, and the boot
    signature; the [FSInfo] sector carries its three signatures and the two
    counters. *)
Theorem boot_sector_describes_layout l info :
  layout_ok l → is_u32 (free_clusters info) → is_u32 (next_free info) →
  ∃ b f, sector (E:=FatError) l = Ok b ∧ length b = 512%nat ∧
    read_bpb b =
      {| bytes_per_sector := 512; sectors_per_cluster := spc l; reserved := reserved_sectors l;
         num_fats := 2; root_entries := 0; total16 := 0; fat16 := 0;
         total32 := total_sectors l; fat32 := fat_sectors l; root_cluster := 2;
         fsinfo_sector := 1; backup_sector := 6; boot_signature := 0xAA55 |} ∧
    fsinfo (E:=FatError) info = Ok f ∧ length f = 512%nat ∧
    le_at 4 0 f = FSINFO_LEAD ∧ le_at 4 484 f = FSINFO_STRUCT ∧ le_at 4 508 f = FSINFO_TRAIL ∧
    le_at 4 488 f = free_clusters info ∧ le_at 4 492 f = next_free info.
Proof.
  intros Hl Hfree Hnext. destruct (layout_ok_ranges l Hl) as (Hs & Ht & Hf).
  assert (reserved_sectors l = 8) as Hr by apply Hl.
  exists (boot_image l), (fsinfo_image info).
  split_and!; [apply sector_eq|apply length_boot_image| |apply fsinfo_eq
    |apply length_fsinfo_image|reflexivity|reflexivity|reflexivity|by apply le_at_bytes..].
  unfold read_bpb. f_equal; try reflexivity.
  - unfold le_at. change (slice 13 (13 + 1) (boot_image l))
      with (Some [default 1 (try_from 8 (spc l))]).
    rewrite try_from_ok by ulia. simpl. unfold from_le_bytes; simpl. lia.
  - apply (le_at_or _ _ _ 0); [reflexivity|rewrite Hr; ulia..].
  - apply (le_at_or _ _ _ 0); [reflexivity|ulia..].
  - apply (le_at_or _ _ _ 0); [reflexivity|ulia..].
Qed.

Lemma boot_sector_describes_layout_witness :
  ∃ l b, compute debug (36 * 1024 * 1024) = Ok l ∧ sector (E:=FatError) l = Ok b ∧
    total32 (read_bpb b) = 73728.
Proof.
  destruct (compute_found debug (36 * 1024 * 1024)) as (l & Hl & Hok & Ht).
  - split; vm_compute; discriminate.
  - destruct (boot_sector_describes_layout l {| free_clusters := 5; next_free := 7 |})
      as (b & f & Hb & _ & Hr & _).
    + exact Hok.
    + unfold is_uint; simpl; lia.
    + unfold is_uint; simpl; lia.
    + exists l, b. split; [exact Hl|]. split; [exact Hb|]. rewrite Hr. simpl. rewrite Ht. reflexivity.
Defined.
