(* ===== verification/FatClusters.v ===== *)
(** Cluster allocation and the allocation table (libs/fatfs/src/builder/
    clusters.rs, table.rs and [FsInfo::from_map] of types.rs).

    [assign_clusters] gives every directory and then every file a contiguous
    run of clusters; [make_fat] writes the chains of those runs. The theorems
    say when the allocation succeeds, that the runs tile the used part of the
    data region, and that following the table from the first cluster of a run
    visits exactly its clusters. *)

From S2P Require Import Prelude Io Utf FatTypes FatLayout.

Definition cluster_start (next_cluster : Z) : res FatError Z :=
  ok_or (try_from 32 next_cluster) (Fat "cluster index exceeds FAT32 range").

Definition advance (next_cluster count : Z) : res FatError Z :=
  ok_or (checked_add 64 next_cluster count) (Fat "cluster overflow").

(** The state of the two loops: the next free cluster and the vectors
    filled so far. *)
Definition assign_dir (cluster_bytes : Z) (st : Z * list Z * list Z) (sz : Z)
    : res FatError (Z * list Z * list Z) :=
  let '(next_cluster, starts, counts) := st in
  count ← div_ceil_checked sz cluster_bytes;
  start ← cluster_start next_cluster;
  count32 ← ok_or (try_from 32 count) (Fat "too many clusters");
  next_cluster ← advance next_cluster count;
  Ok (next_cluster, starts ++ [start], counts ++ [count32]).

Definition assign_file (cluster_bytes : Z) (st : Z * list Z * list Z) (file : FileMeta)
    : res FatError (Z * list Z * list Z) :=
  let '(next_cluster, starts, counts) := st in
  if uint_max 32 <? size file then
    Err (Fat ("file too large for FAT32 directory entry: " +:+ pretty (size file)
              +:+ " bytes > " +:+ pretty (uint_max 32)))
  else
    count ← div_ceil_checked (size file) cluster_bytes;
    start ← cluster_start next_cluster;
    next_cluster ← advance next_cluster count;
    Ok (next_cluster, starts ++ [start], counts ++ [count]).

Definition assign_clusters (files : list FileMeta) (layout : FatLayout) (dir_sizes : list Z)
    : res FatError ClusterMap :=
  let cluster_bytes := wrapping_mul 64 (spc layout) SECTOR_SIZE in
  '(next_cluster, dstarts, dcounts) ←
    foldM (assign_dir cluster_bytes) (ROOT_CLUSTER, [], []) dir_sizes;
  '(next_cluster, fstarts, fcounts) ←
    foldM (assign_file cluster_bytes) (next_cluster, [], []) files;
  let used := wrapping_sub 64 next_cluster ROOT_CLUSTER in
  if data_cluster_count layout <? used then
    Err (Fat ("need " +:+ pretty used +:+ " data clusters but only "
              +:+ pretty (data_cluster_count layout) +:+ " available"))
  else
    Ok {| dir_starts := dstarts; dir_counts := dcounts; file_starts := fstarts;
          file_counts := fcounts; file_sizes := size <$> files |}.

(** ** The allocation table *)

Definition fill_step (start count eoc : Z) (fat : list Z) (j : Z) : list Z :=
  let value :=
    if wrapping_add 64 j 1 <? count
    then default eoc (try_from 32 (wrapping_add 64 (wrapping_add 64 start j) 1))
    else eoc in
  <[Z.to_nat (wrapping_add 64 start j) := value]> fat.

Definition fill_fat_chain (fat : list Z) (start count eoc : Z) : list Z :=
  foldl (fill_step start count eoc) fat (seqZ 0 count).

Definition fill_runs (d : Z) (starts counts : list Z) (fat : list Z) : list Z :=
  foldl (λ fat i, fill_fat_chain fat (default d (starts !! i)) (default 0 (counts !! i)) FAT32_EOC)
    fat (seq 0 (length starts)).

Definition make_fat_entries (map : ClusterMap) (layout : FatLayout) : list Z :=
  let total_entries := wrapping_add 64 (data_cluster_count layout) 2 in
  let fat := replicate (Z.to_nat total_entries) 0 in
  let fat := <[0%nat := 0x0FFFFFF8]> fat in
  let fat := <[1%nat := FAT32_EOC]> fat in
  let fat := fill_runs 0 (dir_starts map) (dir_counts map) fat in
  fill_runs ROOT_CLUSTER (file_starts map) (file_counts map) fat.

Definition make_fat (map : ClusterMap) (layout : FatLayout) : list Z :=
  let bytes := concat (to_le_bytes 4 <$> make_fat_entries map layout) in
  let needed := Z.to_nat (wrapping_mul 64 (fat_sectors layout) SECTOR_SIZE) in
  if bool_decide (length bytes < needed)%nat
  then bytes ++ zeros (needed - length bytes) else bytes.

(** ** Reference definitions *)

Definition cluster_bytes (l : FatLayout) : Z := spc l * SECTOR_SIZE.

(** Consecutive runs of the given lengths from cluster [n] on. *)
Fixpoint runs_from (n : Z) (counts : list Z) : list (Z * Z) :=
  match counts with
  | [] => []
  | c :: counts => (n, c) :: runs_from (n + c) counts
  end.

Definition dir_clusters (l : FatLayout) (dir_sizes : list Z) : list Z :=
  (λ sz, div_ceil sz (cluster_bytes l)) <$> dir_sizes.
Definition file_clusters (l : FatLayout) (files : list FileMeta) : list Z :=
  (λ f, div_ceil (size f) (cluster_bytes l)) <$> files.

(** The runs of a map, directories first. *)
Definition runs (m : ClusterMap) : list (Z * Z) :=
  zip (dir_starts m) (dir_counts m) ++ zip (file_starts m) (file_counts m).

Definition file_ok (f : FileMeta) : Prop := is_u64 (size f) ∧ is_ustring (path f).

(** ** Lemmas: allocation *)

Lemma runs_from_app n cs ds :
  runs_from n (cs ++ ds) = runs_from n cs ++ runs_from (n + sum_list cs) ds.
Proof.
  revert n; induction cs as [|c cs IH]; intros n; simpl; [by rewrite Z.add_0_r|].
  rewrite IH. unfold sum_list in *. simpl. by rewrite Z.add_assoc.
Qed.

Lemma runs_from_snd n cs : (runs_from n cs).*2 = cs.
Proof. revert n; induction cs as [|c cs IH]; intros n; simpl; [done|]. by rewrite IH. Qed.

Lemma sum_list_snoc cs c : sum_list (cs ++ [c]) = sum_list cs + c.
Proof. rewrite sum_list_app. unfold sum_list; simpl. lia. Qed.

(** One loop over items with cluster counts [count], each refused when it is
    not [good]: the runs so far, or a reason to stop. *)
Section loop.
Context {A : Type} (step : Z * list Z * list Z → A → res FatError (Z * list Z * list Z)).
Context (count : A → Z) (ok good : A → Prop) (n0 : Z).
Hypothesis n0_range : is_u64 n0.
Hypothesis count_nonneg : ∀ a, ok a → 0 ≤ count a.
Hypothesis step_spec : ∀ n ss cs a,
  0 ≤ n → ok a →
  match step (n, ss, cs) a with
  | Ok st => good a ∧ n + count a ≤ uint_max 64 ∧ st = (n + count a, ss ++ [n], cs ++ [count a])
  | Err _ => ¬ good a ∨ 2 ^ 32 ≤ n + count a
  | Panic => False
  end.

Lemma loop_spec l :
  (∀ a, a ∈ l → ok a) →
  match foldM step (n0, [], []) l with
  | Ok (n, ss, cs) =>
      cs = count <$> l ∧ n = n0 + sum_list cs ∧ is_u64 n ∧ zip ss cs = runs_from n0 cs ∧
      length ss = length cs ∧ (∀ a, a ∈ l → good a)
  | Err _ => ¬ (∀ a, a ∈ l → good a) ∨ 2 ^ 32 ≤ n0 + sum_list (count <$> l)
  | Panic => False
  end.
Proof using Type*.
  induction l as [|a l IH] using rev_ind; intros Hok.
  { simpl. split_and!; try done; try apply n0_range; [unfold sum_list; simpl; lia|set_solver]. }
  specialize (IH ltac:(set_solver)). assert (ok a) as Hoka by set_solver.
  assert (0 ≤ sum_list (count <$> l)) as Hpos.
  { apply sum_list_nonneg, Forall_fmap, Forall_forall. intros; apply count_nonneg. set_solver. }
  rewrite foldM_app, fmap_app, sum_list_app. cbn [fmap list_fmap].
  assert (sum_list [count a] = count a) as -> by (unfold sum_list; simpl; lia).
  pose proof (count_nonneg a Hoka) as Ha.
  destruct (foldM step (n0, [], []) l) as [[[n ss] cs]|e|]; cbn [mbind res_bind]; [|
    destruct IH as [IH|IH]; [left; set_solver|right; lia] | done].
  destruct IH as (-> & -> & Hu & Hz & Hl & Hg). cbn [foldM].
  assert (0 ≤ n0 + sum_list (count <$> l)) as Hn0 by apply Hu.
  pose proof (step_spec _ ss (count <$> l) a Hn0 Hoka) as Hs.
  destruct (step _ a) as [st|e|]; cbn [mbind res_bind]; [| |done].
  - destruct Hs as (Hga & Hn & ->). rewrite runs_from_app.
    rewrite zip_with_app by done. rewrite Hz, sum_list_snoc, !length_app. simpl.
    split_and!; [done|lia|ulia|done|lia|set_solver].
  - destruct Hs; [left; set_solver|right; lia].
Qed.
End loop.

Section assign.
Context (l : FatLayout) (Hl : layout_ok l).

Lemma cluster_bytes_eq : wrapping_mul 64 (spc l) SECTOR_SIZE = cluster_bytes l ∧ 512 ≤ cluster_bytes l.
Proof using Hl.
  destruct Hl as (_ & Hs & _). assert (1 ≤ spc l ≤ 64) by (apply spc_cases in Hs; lia).
  unfold wrapping_mul, cluster_bytes, SECTOR_SIZE. rewrite Z.mod_small; lia.
Qed.

Lemma assign_dir_spec n ss cs sz :
  0 ≤ n → 0 ≤ sz →
  match assign_dir (cluster_bytes l) (n, ss, cs) sz with
  | Ok st => True ∧ n + div_ceil sz (cluster_bytes l) ≤ uint_max 64 ∧
      st = (n + div_ceil sz (cluster_bytes l), ss ++ [n], cs ++ [div_ceil sz (cluster_bytes l)])
  | Err _ => ¬ True ∨ 2 ^ 32 ≤ n + div_ceil sz (cluster_bytes l)
  | Panic => False
  end.
Proof using Hl.
  intros Hn Hsz. destruct cluster_bytes_eq as [_ Hcb].
  pose proof (div_ceil_nonneg sz (cluster_bytes l) Hsz ltac:(lia)) as Hc.
  unfold assign_dir, div_ceil_checked, cluster_start, advance.
  rewrite (proj2 (Z.eqb_neq _ _)) by lia. rewrite bind_ret.
  destruct (try_from 32 n) as [v|] eqn:Ht; cbn [ok_or]; [rewrite bind_ret|
    right; apply try_from_None in Ht; ulia].
  apply try_from_Some in Ht as [-> Ht].
  destruct (try_from 32 (div_ceil sz (cluster_bytes l))) as [c|] eqn:Hc32; cbn [ok_or];
    [rewrite bind_ret|right; apply try_from_None in Hc32; ulia].
  apply try_from_Some in Hc32 as [-> Hc32].
  assert (checked_add 64 n (div_ceil sz (cluster_bytes l))
    = Some (n + div_ceil sz (cluster_bytes l))) as -> by (apply checked_add_Some; ulia).
  cbn [ok_or].
  rewrite bind_ret. split_and!; [done|ulia|done].
Qed.

Lemma assign_file_spec n ss cs f :
  0 ≤ n → 0 ≤ size f →
  match assign_file (cluster_bytes l) (n, ss, cs) f with
  | Ok st => size f ≤ uint_max 32 ∧ n + div_ceil (size f) (cluster_bytes l) ≤ uint_max 64 ∧
      st = (n + div_ceil (size f) (cluster_bytes l), ss ++ [n],
            cs ++ [div_ceil (size f) (cluster_bytes l)])
  | Err _ => ¬ size f ≤ uint_max 32 ∨ 2 ^ 32 ≤ n + div_ceil (size f) (cluster_bytes l)
  | Panic => False
  end.
Proof using Hl.
  intros Hn Hsz. destruct cluster_bytes_eq as [_ Hcb].
  pose proof (div_ceil_nonneg (size f) (cluster_bytes l) Hsz ltac:(lia)) as Hc.
  pose proof (div_ceil_le_l (size f) (cluster_bytes l) Hsz ltac:(lia)) as Hc'.
  unfold assign_file, div_ceil_checked, cluster_start, advance.
  destruct (Z.ltb_spec (uint_max 32) (size f)); [left; lia|].
  rewrite (proj2 (Z.eqb_neq _ _)) by lia. rewrite bind_ret.
  destruct (try_from 32 n) as [v|] eqn:Ht; cbn [ok_or]; [rewrite bind_ret|
    right; apply try_from_None in Ht; ulia].
  apply try_from_Some in Ht as [-> Ht].
  assert (checked_add 64 n (div_ceil (size f) (cluster_bytes l))
    = Some (n + div_ceil (size f) (cluster_bytes l))) as -> by (apply checked_add_Some; ulia).
  cbn [ok_or].
  rewrite bind_ret. split_and!; [done|ulia|done].
Qed.
End assign.

(** [assign_clusters] on a layout in order. *)
Lemma assign_clusters_spec files l dir_sizes :
  layout_ok l → (∀ f, f ∈ files → 0 ≤ size f) → (∀ sz, sz ∈ dir_sizes → 0 ≤ sz) →
  let ds := dir_clusters l dir_sizes in
  let fs := file_clusters l files in
  match assign_clusters files l dir_sizes with
  | Ok m =>
      dir_counts m = ds ∧ file_counts m = fs ∧ file_sizes m = size <$> files ∧
      length (dir_starts m) = length ds ∧ length (file_starts m) = length fs ∧
      zip (dir_starts m) ds = runs_from ROOT_CLUSTER ds ∧
      zip (file_starts m) fs = runs_from (ROOT_CLUSTER + sum_list ds) fs ∧
      (∀ f, f ∈ files → size f ≤ uint_max 32) ∧
      sum_list ds + sum_list fs ≤ data_cluster_count l
  | Err _ => ¬ (∀ f, f ∈ files → size f ≤ uint_max 32) ∨
             data_cluster_count l < sum_list ds + sum_list fs
  | Panic => False
  end.
Proof.
  intros Hl Hfs Hds ds fs. destruct (cluster_bytes_eq l Hl) as [Hcb Hcb0].
  assert (∀ sz, 0 ≤ sz → 0 ≤ div_ceil sz (cluster_bytes l)) as Hnn.
  { intros sz Hsz. apply div_ceil_nonneg; [done|lia]. }
  assert (0 ≤ sum_list ds) as Hds0.
  { apply sum_list_nonneg, Forall_fmap, Forall_forall. intros; apply Hnn; auto. }
  assert (0 ≤ sum_list fs) as Hfs0.
  { apply sum_list_nonneg, Forall_fmap, Forall_forall. intros; apply Hnn; auto. }
  assert (data_cluster_count l < 2 ^ 28) as Hcount.
  { destruct Hl as (_&_&_&_&_&_& ?). lia. }
  unfold assign_clusters. rewrite Hcb.
  pose proof (loop_spec (assign_dir (cluster_bytes l)) (λ sz, div_ceil sz (cluster_bytes l))
    (λ sz, 0 ≤ sz) (λ _, True) ROOT_CLUSTER ltac:(done) Hnn
    (assign_dir_spec l Hl) dir_sizes Hds) as Hd.
  destruct (foldM _ _ dir_sizes) as [[[n1 dst] dcs]|e|]; cbn [mbind res_bind]; [|
    right; destruct Hd as [Hd|Hd]; [by destruct Hd|];
      unfold ds, dir_clusters, ROOT_CLUSTER in *; lia|done].
  destruct Hd as (-> & -> & Hdu & Hdz & Hdl & _). fold (dir_clusters l dir_sizes) in *. fold ds in Hdz, Hdl |- *.
  pose proof (loop_spec (assign_file (cluster_bytes l)) (λ f, div_ceil (size f) (cluster_bytes l))
    (λ f, 0 ≤ size f) (λ f, size f ≤ uint_max 32) (ROOT_CLUSTER + sum_list ds)
    Hdu (λ f, Hnn (size f)) (assign_file_spec l Hl) files Hfs) as Hf.
  destruct (foldM _ _ files) as [[[n2 fst_] fcs]|e|]; cbn [mbind res_bind]; [|
    destruct Hf as [Hf|Hf]; [by left|right]; unfold fs, file_clusters, ROOT_CLUSTER in *; lia|done].
  destruct Hf as (-> & -> & Hfu & Hfz & Hfl & Hgood). fold (file_clusters l files) in *.
  fold fs in Hfu, Hfz, Hfl |- *.
  replace (wrapping_sub 64 (ROOT_CLUSTER + sum_list ds + sum_list fs) ROOT_CLUSTER)
    with (sum_list ds + sum_list fs)
    by (unfold wrapping_sub, ROOT_CLUSTER in *; rewrite Z.mod_small; ulia).
  destruct (Z.ltb_spec (data_cluster_count l) (sum_list ds + sum_list fs)); [by right|].
  split_and!; done.
Qed.

(** ** Lemmas: the table *)

(** The entries of a run of [c] clusters from [s]. *)
Definition chain_value (s c j : Z) : Z := if j + 1 <? c then s + j + 1 else FAT32_EOC.
Definition chain_of (run : Z * Z) : list Z :=
  chain_value run.1 run.2 <$> seqZ 0 run.2.

Lemma length_chain_of run : 0 ≤ run.2 → zlen (chain_of run) = run.2.
Proof. intros. unfold chain_of, zlen. rewrite length_fmap, length_seqZ. lia. Qed.

Lemma fill_step_append s c pre j r :
  0 ≤ j < c → zlen pre = s + j → 0 ≤ s → s + c < 2 ^ 32 →
  fill_step s c FAT32_EOC (pre ++ 0 :: r) j = (pre ++ [chain_value s c j]) ++ r.
Proof.
  intros Hj Hp Hs Hc. unfold fill_step.
  assert (∀ x, 0 ≤ x < 2 ^ 64 → x mod 2 ^ 64 = x) as Hm by (intros; by apply Z.mod_small).
  unfold wrapping_add. rewrite (Hm (s + j)), (Hm (j + 1)), (Hm (s + j + 1)) by lia.
  unfold zlen in Hp. replace (Z.to_nat (s + j)) with (length pre + 0)%nat by lia.
  rewrite insert_app_r. simpl. rewrite <-app_assoc. simpl. do 2 f_equal.
  unfold chain_value. destruct (j + 1 <? c); [|done].
  by rewrite try_from_ok by (uint_unfold; lia).
Qed.

Lemma fill_steps_append s c pre j (m : nat) r :
  0 ≤ j → j + Z.of_nat m = c → zlen pre = s + j → 0 ≤ s → s + c < 2 ^ 32 →
  foldl (fill_step s c FAT32_EOC) (pre ++ replicate m 0 ++ r) (seqZ j (Z.of_nat m))
    = pre ++ (chain_value s c <$> seqZ j (Z.of_nat m)) ++ r.
Proof.
  revert pre j; induction m as [|m IH]; intros pre j Hj Hm Hp Hs Hc; [done|].
  rewrite Nat2Z.inj_succ, seqZ_cons by lia. rewrite Z.pred_succ. simpl.
  rewrite fill_step_append by (done || lia).
  rewrite IH by (done || lia || (unfold zlen in *; rewrite length_app; simpl; lia)).
  by rewrite <-app_assoc.
Qed.

Lemma fill_chain_append s c pre r :
  0 ≤ c → zlen pre = s → s + c < 2 ^ 32 →
  fill_fat_chain (pre ++ replicate (Z.to_nat c) 0 ++ r) s c FAT32_EOC
    = pre ++ chain_of (s, c) ++ r.
Proof.
  intros Hc Hp Hs. unfold fill_fat_chain, chain_of; cbn [fst snd].
  pose proof (fill_steps_append s c pre 0 (Z.to_nat c) r) as Hf.
  rewrite Z2Nat.id in Hf by done. apply Hf; unfold zlen in *; lia.
Qed.

(** The loops of [make_fat] run over pairs of start and count. *)
Lemma fill_runs_zip d starts counts fat :
  length starts = length counts →
  fill_runs d starts counts fat =
    foldl (λ fat run, fill_fat_chain fat run.1 run.2 FAT32_EOC) fat (zip starts counts).
Proof.
  unfold fill_runs. revert counts fat.
  induction starts as [|s starts IH]; intros [|c counts] fat Hl; try done.
  cbn [length seq foldl zip zip_with]. rewrite <-fmap_S_seq, foldl_fmap.
  rewrite <-IH by (simpl in Hl; lia). done.
Qed.

Lemma fill_runs_append n cs pre r :
  Forall (λ c, 0 ≤ c) cs → zlen pre = n → n + sum_list cs < 2 ^ 32 →
  foldl (λ fat run, fill_fat_chain fat run.1 run.2 FAT32_EOC)
    (pre ++ replicate (Z.to_nat (sum_list cs)) 0 ++ r) (runs_from n cs)
  = pre ++ concat (chain_of <$> runs_from n cs) ++ r.
Proof.
  revert n pre; induction cs as [|c cs IH]; intros n pre Hc Hp Hn; [done|].
  apply Forall_cons in Hc as [Hc0 Hc]. pose proof (sum_list_nonneg cs Hc) as Hs0.
  assert (sum_list (c :: cs) = c + sum_list cs) as Hsum by done. rewrite Hsum in *.
  cbn [runs_from foldl fmap list_fmap concat].
  rewrite Z2Nat.inj_add, replicate_add, <-app_assoc by lia. cbn [fst snd].
  rewrite fill_chain_append by (done || lia). rewrite (app_assoc pre).
  rewrite IH; [by rewrite <-!app_assoc|done| |lia].
  unfold zlen. rewrite length_app. fold (zlen pre). pose proof (length_chain_of (n, c) Hc0) as Hl.
  unfold zlen in *. simpl in Hl. lia.
Qed.

(** The whole table: two reserved entries, the chains in order, and zeros
    for the free clusters. *)
Lemma make_fat_entries_eq m l cs :
  length (dir_starts m) = length (dir_counts m) →
  length (file_starts m) = length (file_counts m) →
  runs m = runs_from ROOT_CLUSTER cs → Forall (λ c, 0 ≤ c) cs →
  sum_list cs ≤ data_cluster_count l < 2 ^ 28 →
  make_fat_entries m l =
    [0x0FFFFFF8; FAT32_EOC] ++ concat (chain_of <$> runs m) ++
    replicate (Z.to_nat (data_cluster_count l - sum_list cs)) 0.
Proof.
  intros Hd Hf Hr Hc Hsum. pose proof (sum_list_nonneg cs Hc) as Hs0.
  unfold make_fat_entries. rewrite !fill_runs_zip by done. rewrite <-foldl_app.
  fold (runs m). unfold wrapping_add. rewrite Z.mod_small by lia.
  replace (Z.to_nat (data_cluster_count l + 2))
    with (2 + (Z.to_nat (sum_list cs) + Z.to_nat (data_cluster_count l - sum_list cs)))%nat by lia.
  rewrite !replicate_add. cbn [replicate app insert list_insert]. rewrite Hr.
  apply (fill_runs_append ROOT_CLUSTER cs [0x0FFFFFF8; FAT32_EOC]); [done|done|].
  unfold ROOT_CLUSTER. lia.
Qed.

(** The run a cluster belongs to, at its place among the chains. *)
Lemma lookup_chains n cs run j :
  Forall (λ c, 0 ≤ c) cs → run ∈ runs_from n cs → 0 ≤ j < run.2 →
  n ≤ run.1 ∧ run.1 + run.2 ≤ n + sum_list cs ∧
  concat (chain_of <$> runs_from n cs) !! Z.to_nat (run.1 - n + j)
    = Some (chain_value run.1 run.2 j).
Proof.
  revert n; induction cs as [|c cs IH]; intros n Hc Hin Hj; [set_solver|].
  apply Forall_cons in Hc as [Hc0 Hc]. pose proof (sum_list_nonneg cs Hc) as Hs0.
  assert (sum_list (c :: cs) = c + sum_list cs) as -> by done.
  cbn [runs_from fmap list_fmap concat] in *.
  pose proof (length_chain_of (n, c) Hc0) as Hlen. unfold zlen in Hlen; simpl in Hlen.
  apply elem_of_cons in Hin as [->|Hin].
  - simpl in *. split_and!; [lia..|]. rewrite lookup_app_l by lia.
    unfold chain_of. rewrite list_lookup_fmap, lookup_seqZ_lt by (simpl; lia). simpl.
    do 2 f_equal. lia.
  - destruct (IH (n + c) Hc Hin Hj) as (? & ? & Hlk). split_and!; [lia..|].
    rewrite lookup_app_r by lia. rewrite <-Hlk. f_equal. lia.
Qed.

Lemma length_chains n cs :
  Forall (λ c, 0 ≤ c) cs → zlen (concat (chain_of <$> runs_from n cs)) = sum_list cs.
Proof.
  revert n; induction cs as [|c cs IH]; intros n Hc; [done|].
  apply Forall_cons in Hc as [Hc0 Hc]. cbn [runs_from fmap list_fmap concat].
  specialize (IH (n + c) Hc). pose proof (length_chain_of (n, c) Hc0) as Hl. simpl in Hl.
  unfold zlen in *. rewrite length_app.
  assert (sum_list (c :: cs) = c + sum_list cs) as -> by done. lia.
Qed.

(** A little-endian table of 32-bit entries, as a driver reads it. *)
Definition fat_entry (fat : list Z) (i : Z) : option Z :=
  from_le_bytes <$> slice (Z.to_nat (4 * i)) (Z.to_nat (4 * i + 4)) fat.

(** The clusters of a chain: follows entries up to an end-of-chain mark. *)
Fixpoint walk (fuel : nat) (fat : list Z) (cluster : Z) : option (list Z) :=
  match fuel with
  | O => None
  | S fuel =>
      e ← fat_entry fat cluster;
      if 0x0FFFFFF8 <=? e then Some [cluster] else cons cluster <$> walk fuel fat e
  end.

Lemma slice_concat (ls : list (list Z)) n i x rest :
  (∀ y, y ∈ ls → length y = n) → ls !! i = Some x →
  slice (n * i) (n * i + n) (concat ls ++ rest) = Some x.
Proof.
  revert i; induction ls as [|y ls IH]; intros i Hl Hi; [done|].
  assert (length y = n) as Hy by (apply Hl; set_solver).
  destruct i as [|i]; simpl in Hi.
  - injection Hi as ->. rewrite Nat.mul_0_r. simpl concat. rewrite <-app_assoc.
    rewrite slice_ok by (rewrite length_app; lia). rewrite drop_0, Nat.sub_0_r. simpl.
    by rewrite take_app_length'.
  - specialize (IH i ltac:(set_solver) Hi). apply slice_Some in IH as [Hle Hx].
    simpl concat. rewrite <-app_assoc. rewrite slice_ok by (rewrite length_app; lia).
    rewrite Hx. f_equal. replace (n * S i)%nat with (length y + n * i)%nat by lia.
    rewrite <-drop_drop, drop_app_length. f_equal. lia.
Qed.

Lemma make_fat_entry m l i v :
  make_fat_entries m l !! Z.to_nat i = Some v → 0 ≤ i → is_u32 v →
  fat_entry (make_fat m l) i = Some v.
Proof.
  intros Hi Hi0 Hv. unfold fat_entry.
  assert (∃ rest, make_fat m l = concat (to_le_bytes 4 <$> make_fat_entries m l) ++ rest)
    as [rest ->].
  { unfold make_fat. case_bool_decide; [by eexists|]. exists []. by rewrite app_nil_r. }
  replace (Z.to_nat (4 * i)) with (4 * Z.to_nat i)%nat by lia.
  replace (Z.to_nat (4 * i + 4)) with (4 * Z.to_nat i + 4)%nat by lia.
  rewrite (slice_concat _ 4 _ (to_le_bytes 4 v)).
  - simpl. by rewrite from_to_le_32.
  - intros y [e [-> _]]%list_elem_of_fmap. apply length_to_le_bytes.
  - by rewrite list_lookup_fmap, Hi.
Qed.

Lemma length_make_fat m l :
  zlen (make_fat_entries m l) * 4 ≤ fat_sectors l * SECTOR_SIZE < 2 ^ 64 →
  zlen (make_fat m l) = fat_sectors l * SECTOR_SIZE.
Proof.
  intros Hl. unfold make_fat, wrapping_mul, zlen in *. rewrite Z.mod_small by lia.
  assert (length (concat (to_le_bytes 4 <$> make_fat_entries m l))
    = (length (make_fat_entries m l) * 4)%nat) as Hc.
  { rewrite (length_concat_const 4); [by rewrite length_fmap|].
    apply Forall_fmap, Forall_forall. intros; apply length_to_le_bytes. }
  case_bool_decide.
  - rewrite length_app, length_zeros. lia.
  - lia.
Qed.

(** Walking a run whose entries are the ones of its chain. *)
Lemma walk_chain fat s c (k : nat) :
  2 ≤ s → s + c < 2 ^ 28 - 8 → (0 < k)%nat → Z.of_nat k ≤ c →
  (∀ j, 0 ≤ j < c → fat_entry fat (s + j) = Some (chain_value s c j)) →
  walk k fat (s + (c - Z.of_nat k)) = Some (seqZ (s + (c - Z.of_nat k)) (Z.of_nat k)).
Proof.
  intros Hs Hc Hk Hkc He. induction k as [|k IH]; [lia|].
  cbn [walk]. rewrite He by lia. cbn [mbind option_bind]. unfold chain_value.
  rewrite Nat2Z.inj_succ, seqZ_cons by lia. rewrite Z.pred_succ.
  destruct k as [|k].
  - rewrite (proj2 (Z.ltb_ge _ _)) by lia. done.
  - rewrite (proj2 (Z.ltb_lt _ _)) by lia.
    rewrite (proj2 (Z.leb_gt _ _)) by lia.
    replace (s + (c - Z.succ (Z.of_nat (S k))) + 1) with (s + (c - Z.of_nat (S k))) by lia.
    rewrite IH by lia. simpl. do 3 f_equal. lia.
Qed.

(** ** Properties *)

(** The files and directories of an allocation, with their cluster counts. *)
Definition counts (l : FatLayout) (files : list FileMeta) (dir_sizes : list Z) : list Z :=
  dir_clusters l dir_sizes ++ file_clusters l files.

Lemma counts_nonneg l files dir_sizes :
  layout_ok l → (∀ f, f ∈ files → 0 ≤ size f) → (∀ sz, sz ∈ dir_sizes → 0 ≤ sz) →
  Forall (λ c, 0 ≤ c) (counts l files dir_sizes).
Proof.
  intros Hl Hf Hd. destruct (cluster_bytes_eq l Hl) as [_ Hcb].
  apply Forall_app; split; apply Forall_fmap, Forall_forall; intros x Hx; simpl;
    (apply div_ceil_nonneg; [auto|lia]).
Qed.

Lemma runs_from_order n cs i j r1 r2 :
  Forall (λ c, 0 ≤ c) cs → (i < j)%nat →
  runs_from n cs !! i = Some r1 → runs_from n cs !! j = Some r2 →
  n ≤ r1.1 ∧ r1.1 + r1.2 ≤ r2.1.
Proof.
  assert (∀ cs n k r, Forall (λ c, 0 ≤ c) cs → runs_from n cs !! k = Some r → n ≤ r.1) as Hge.
  { clear. induction cs as [|c cs IH]; intros n k r Hc Hk; [done|].
    apply Forall_cons in Hc as [Hc0 Hc]. destruct k as [|k]; simpl in Hk; [by simplify_eq|].
    specialize (IH _ _ _ Hc Hk). lia. }
  revert n i j; induction cs as [|c cs IH]; intros n i j Hc Hij H1 H2; [done|].
  apply Forall_cons in Hc as [Hc0 Hc]. destruct j as [|j]; [lia|]. simpl in H2.
  destruct i as [|i]; simpl in H1.
  - simplify_eq; simpl. specialize (Hge _ _ _ _ Hc H2). lia.
  - destruct (IH (n + c) i j Hc ltac:(lia) H1 H2). lia.
Qed.

Lemma assign_runs files l dir_sizes m :
  layout_ok l → (∀ f, f ∈ files → 0 ≤ size f) → (∀ sz, sz ∈ dir_sizes → 0 ≤ sz) →
  assign_clusters files l dir_sizes = Ok m →
  runs m = runs_from ROOT_CLUSTER (counts l files dir_sizes) ∧
  dir_counts m = dir_clusters l dir_sizes ∧ file_counts m = file_clusters l files ∧
  length (dir_starts m) = length (dir_counts m) ∧
  length (file_starts m) = length (file_counts m) ∧
  sum_list (counts l files dir_sizes) ≤ data_cluster_count l.
Proof.
  intros Hl Hf Hd Hm. pose proof (assign_clusters_spec files l dir_sizes Hl Hf Hd) as Hs.
  rewrite Hm in Hs. destruct Hs as (Hdc & Hfc & _ & Hdl & Hfl & Hdz & Hfz & _ & Hsum).
  unfold runs, counts. rewrite runs_from_app, Hdc, Hfc, Hdz, Hfz, sum_list_app. done.
Qed.

(** C31: The allocation of clusters succeeds exactly when every file fits a
    32-bit size and the clusters of all directories and files together fit
    the data region; it then gives each of them the clusters its bytes need
    (none to an empty file), directories first, in runs that follow each
    other from cluster 2 without overlap and stay inside the data region. *)
Theorem assign_clusters_correct files l dir_sizes :
  layout_ok l → (∀ f, f ∈ files → 0 ≤ size f) → (∀ sz, sz ∈ dir_sizes → 0 ≤ sz) →
  match assign_clusters files l dir_sizes with
  | Ok m =>
      runs m = runs_from ROOT_CLUSTER (dir_clusters l dir_sizes ++ file_clusters l files) ∧
      length (runs m) = (length dir_sizes + length files)%nat ∧
      file_sizes m = size <$> files ∧
      (∀ i j r1 r2, (i < j)%nat → runs m !! i = Some r1 → runs m !! j = Some r2 →
        ROOT_CLUSTER ≤ r1.1 ∧ r1.1 + r1.2 ≤ r2.1) ∧
      (∀ f, f ∈ files → size f ≤ uint_max 32) ∧
      ROOT_CLUSTER + sum_list (runs m).*2 ≤ ROOT_CLUSTER + data_cluster_count l
  | Err _ =>
      (∃ f, f ∈ files ∧ uint_max 32 < size f) ∨
      data_cluster_count l < sum_list (dir_clusters l dir_sizes ++ file_clusters l files)
  | Panic => False
  end.
Proof.
  intros Hl Hf Hd. pose proof (assign_clusters_spec files l dir_sizes Hl Hf Hd) as Hs.
  destruct (assign_clusters files l dir_sizes) as [m|e|] eqn:Hm; [| |done].
  - destruct (assign_runs files l dir_sizes m Hl Hf Hd Hm) as (Hr & _ & _ & _ & _ & Hsum).
    pose proof (counts_nonneg l files dir_sizes Hl Hf Hd) as Hc.
    split_and!; [done| | | |apply Hs|].
    + rewrite <-(length_fmap snd (runs m)), Hr, runs_from_snd. unfold counts, dir_clusters, file_clusters.
      by rewrite length_app, !length_fmap.
    + apply Hs.
    + intros i j r1 r2 Hij. rewrite Hr. by apply runs_from_order.
    + rewrite Hr, runs_from_snd. lia.
  - rewrite sum_list_app. destruct Hs as [Hs|Hs]; [left|by right].
    destruct (decide (Exists (λ f, uint_max 32 < size f) files)) as [He|He].
    + by apply Exists_exists in He.
    + destruct Hs. intros f Hfin. destruct (decide (uint_max 32 < size f)); [|lia].
      destruct He. apply Exists_exists. eauto.
Qed.

Definition sample_layout : FatLayout :=
  match compute release (36 * 1024 * 1024) with
  | Ok l => l
  | _ => {| total_sectors := 0; reserved_sectors := 0; fat_sectors := 0; spc := 0;
            data_cluster_count := 0 |}
  end.

Lemma sample_layout_ok : layout_ok sample_layout.
Proof.
  destruct (compute_found release (36 * 1024 * 1024)) as (l & Hl & Hok & _).
  - split; vm_compute; discriminate.
  - unfold sample_layout. by rewrite Hl.
Qed.

Definition sample_files : list FileMeta :=
  [{| path := ustr "EFI/BOOT/BOOTX64.EFI"; size := 1300 |}; {| path := ustr "empty"; size := 0 |};
   {| path := ustr "a.txt"; size := 512 |}].

Lemma sample_files_ok : ∀ f, f ∈ sample_files → 0 ≤ size f.
Proof. apply Forall_forall. repeat constructor; simpl; lia. Qed.

Lemma assign_clusters_correct_witness :
  ∃ m, assign_clusters sample_files sample_layout [96; 96; 128] = Ok m ∧
       runs m = [(2, 1); (3, 1); (4, 1); (5, 3); (8, 0); (8, 1)].
Proof.
  pose proof (assign_clusters_correct sample_files sample_layout [96; 96; 128]) as Hc.
  destruct (assign_clusters sample_files sample_layout [96; 96; 128]) as [m| |] eqn:Hm;
    [|vm_compute in Hm; discriminate..].
  exists m. split; [reflexivity|].
  destruct Hc as [Hr _]; [exact sample_layout_ok|exact sample_files_ok| |].
  - apply Forall_forall. repeat constructor; lia.
  - rewrite Hr. vm_compute. reflexivity.
Defined.

(** C15: The allocation table of an allocation fills exactly the sectors of
    one FAT copy; following it from the first cluster of any nonempty run
    visits the clusters of that run in order and ends there; and the
    entries of all unallocated clusters are zero. *)
Theorem fat_chains_correct files l dir_sizes m :
  layout_ok l → (∀ f, f ∈ files → 0 ≤ size f) → (∀ sz, sz ∈ dir_sizes → 0 ≤ sz) →
  assign_clusters files l dir_sizes = Ok m →
  zlen (make_fat m l) = fat_sectors l * SECTOR_SIZE ∧
  (∀ run fuel, run ∈ runs m → 0 < run.2 → Z.to_nat run.2 = fuel →
     walk fuel (make_fat m l) run.1 = Some (seqZ run.1 run.2)) ∧
  (∀ c, ROOT_CLUSTER + sum_list (runs m).*2 ≤ c < ROOT_CLUSTER + data_cluster_count l →
     fat_entry (make_fat m l) c = Some 0).
Proof.
  intros Hl Hf Hd Hm.
  destruct (assign_runs files l dir_sizes m Hl Hf Hd Hm) as (Hr & _ & _ & Hdl & Hfl & Hsum).
  pose proof (counts_nonneg l files dir_sizes Hl Hf Hd) as Hc.
  set (cs := counts l files dir_sizes) in *. pose proof (sum_list_nonneg cs Hc) as Hs0.
  destruct (layout_ok_ranges l Hl) as (_ & _ & Hfs).
  destruct Hl as (_ & _ & _ & _ & Hfat & _ & Hcount).
  pose proof (make_fat_entries_eq m l cs Hdl Hfl Hr Hc ltac:(lia)) as He.
  assert (zlen (concat (chain_of <$> runs m)) = sum_list cs) as Hlen.
  { rewrite Hr. apply length_chains. done. }
  rewrite Hr, runs_from_snd. fold cs. split_and!.
  - apply length_make_fat. rewrite He. unfold zlen in *.
    rewrite !length_app, length_replicate. simpl length.
    unfold FAT_ENTRY_SIZE, SECTOR_SIZE in *. lia.
  - intros run fuel Hin Hpos <-.
    destruct (lookup_chains ROOT_CLUSTER cs run 0 Hc Hin ltac:(lia)) as (Hge & Hend & _).
    pose proof (walk_chain (make_fat m l) run.1 run.2 (Z.to_nat run.2)) as Hw.
    rewrite Z2Nat.id, Z.sub_diag, Z.add_0_r in Hw by lia.
    unfold ROOT_CLUSTER in *. apply Hw; try lia. intros j Hj.
    destruct (lookup_chains 2 cs run j Hc Hin Hj) as (_ & _ & Hlk).
    apply make_fat_entry; [|lia|unfold chain_value, FAT32_EOC; destruct (Z.ltb_spec (j + 1) run.2); ulia].
    rewrite He, Hr. rewrite lookup_app_r by (simpl; lia). simpl length.
    rewrite lookup_app_l by (apply lookup_lt_Some in Hlk; unfold ROOT_CLUSTER; lia).
    unfold ROOT_CLUSTER. rewrite <-Hlk. f_equal. lia.
  - intros c Hcr. apply make_fat_entry; [|unfold ROOT_CLUSTER in *; lia|ulia].
    rewrite He, app_assoc. unfold zlen, ROOT_CLUSTER in *. rewrite lookup_app_r.
    + apply lookup_replicate_2. rewrite length_app. simpl length. lia.
    + rewrite length_app. simpl length. lia.
Qed.

Lemma sample_dirs_ok : ∀ sz, sz ∈ [96; 96; 128] → 0 ≤ sz.
Proof. apply Forall_forall. repeat constructor; lia. Qed.

Lemma fat_chains_correct_witness :
  ∃ m, assign_clusters sample_files sample_layout [96; 96; 128] = Ok m ∧
       walk 3 (make_fat m sample_layout) 5 = Some [5; 6; 7].
Proof.
  destruct (assign_clusters sample_files sample_layout [96; 96; 128]) as [m| |] eqn:Hm;
    [|vm_compute in Hm; discriminate..].
  destruct (fat_chains_correct sample_files sample_layout [96; 96; 128] m)
    as (_ & Hw & _).
  - exact sample_layout_ok.
  - exact sample_files_ok.
  - exact sample_dirs_ok.
  - exact Hm.
  - exists m. split; [reflexivity|]. apply (Hw (5, 3) 3%nat); [|simpl; lia|reflexivity].
    vm_compute in Hm. injection Hm as <-. vm_compute. repeat constructor.
Defined.

Lemma chains_nonzero n cs :
  0 ≤ n → Forall (λ c, 0 ≤ c) cs →
  Forall (λ e, e ≠ 0) (concat (chain_of <$> runs_from n cs)).
Proof.
  revert n; induction cs as [|c cs IH]; intros n Hn Hc; [constructor|].
  apply Forall_cons in Hc as [Hc0 Hc]. cbn [runs_from fmap list_fmap concat].
  apply Forall_app; split; [|apply IH; [lia|done]].
  apply Forall_fmap, Forall_forall. intros j Hj%elem_of_seqZ. unfold chain_value; simpl.
  destruct (Z.ltb_spec (j + 1) c); unfold FAT32_EOC; lia.
Qed.

Lemma filter_none {A} (P : A → Prop) `{!∀ x, Decision (P x)} (l : list A) :
  Forall (λ x, ¬ P x) l → filter P l = [].
Proof. induction 1; [done|]. by rewrite filter_cons_False. Qed.
Lemma filter_all {A} (P : A → Prop) `{!∀ x, Decision (P x)} (l : list A) :
  Forall P l → filter P l = l.
Proof. induction 1; [done|]. rewrite filter_cons_True by done. by f_equal. Qed.

(** The counters of the [FSInfo] sector agree with the table: the free
    count is the number of zero entries of the FAT, and the next-free hint
    is the first such entry (the unknown mark when the volume is full). *)
Theorem fsinfo_accounts_for_table prof files l dir_sizes m :
  layout_ok l → (∀ f, f ∈ files → 0 ≤ size f) → (∀ sz, sz ∈ dir_sizes → 0 ≤ sz) →
  assign_clusters files l dir_sizes = Ok m →
  ∃ info, from_map (E:=FatError) prof m l = Ok info ∧
    is_u32 (free_clusters info) ∧ is_u32 (next_free info) ∧
    free_clusters info = zlen (filter (λ e, e = 0) (make_fat_entries m l)) ∧
    (free_clusters info = 0 → next_free info = UNKNOWN_CLUSTER) ∧
    (0 < free_clusters info →
      make_fat_entries m l !! Z.to_nat (next_free info) = Some 0 ∧
      ∀ i e, make_fat_entries m l !! i = Some e → (i < Z.to_nat (next_free info))%nat → e ≠ 0).
Proof.
  intros Hl Hf Hd Hm.
  destruct (assign_runs files l dir_sizes m Hl Hf Hd Hm) as (Hr & Hdc & Hfc & Hdl & Hfl & Hsum).
  pose proof (counts_nonneg l files dir_sizes Hl Hf Hd) as Hc.
  set (cs := counts l files dir_sizes) in *. pose proof (sum_list_nonneg cs Hc) as Hs0.
  destruct Hl as (_ & _ & _ & _ & _ & _ & Hcount).
  pose proof (make_fat_entries_eq m l cs Hdl Hfl Hr Hc ltac:(lia)) as He.
  pose proof (length_chains ROOT_CLUSTER cs Hc) as Hlen. rewrite <-Hr in Hlen.
  pose proof (chains_nonzero ROOT_CLUSTER cs ltac:(done) Hc) as Hnz. rewrite <-Hr in Hnz.
  assert (sum_list cs = sum_list (dir_counts m) + sum_list (file_counts m)) as Hsplit.
  { rewrite Hdc, Hfc. apply sum_list_app. }
  apply Forall_app in Hc as [Hc1 Hc2]. rewrite <-Hdc in Hc1. rewrite <-Hfc in Hc2.
  pose proof (sum_list_nonneg _ Hc1). pose proof (sum_list_nonneg _ Hc2).
  set (free := data_cluster_count l - sum_list cs).
  exists {| free_clusters := free;
            next_free := if free =? 0 then UNKNOWN_CLUSTER else ROOT_CLUSTER + sum_list cs |}.
  cbn [free_clusters next_free].
  assert (Forall (λ e, e ≠ 0) ([0x0FFFFFF8; FAT32_EOC] ++ concat (chain_of <$> runs m))) as Hused.
  { apply Forall_app; split; [|done]. repeat constructor; done. }
  rewrite He, app_assoc. unfold ROOT_CLUSTER, UNKNOWN_CLUSTER in *. split_and!.
  - unfold from_map. rewrite !sum_u64_ok by ulia. rewrite !bind_ret.
    replace (saturating_add 64 (sum_list (dir_counts m)) (sum_list (file_counts m)))
      with (sum_list cs) by ulia.
    replace (saturating_sub (data_cluster_count l) (sum_list cs)) with free by (unfold free; ulia).
    rewrite try_from_ok by (unfold free; ulia).
    replace (saturating_add 64 ROOT_CLUSTER (sum_list cs)) with (2 + sum_list cs)
      by (unfold ROOT_CLUSTER; ulia).
    by rewrite try_from_ok by ulia.
  - unfold free; ulia.
  - destruct (free =? 0); ulia.
  - rewrite filter_app, filter_none, filter_all by
      (exact Hused || (apply Forall_replicate; done)).
    unfold zlen, free. rewrite app_nil_l, length_replicate. lia.
  - intros ->. done.
  - intros Hpos. rewrite (proj2 (Z.eqb_neq _ _)) by lia.
    assert (length ([0x0FFFFFF8; FAT32_EOC] ++ concat (chain_of <$> runs m))
      = Z.to_nat (2 + sum_list cs)) as Hl2.
    { rewrite length_app. unfold zlen in Hlen. simpl length. lia. }
    split.
    + rewrite lookup_app_r by lia. apply lookup_replicate_2. lia.
    + intros i e Hi Hlt. rewrite lookup_app_l in Hi by lia.
      by apply (Forall_lookup_1 _ _ _ _ Hused Hi).
Qed.

Lemma fsinfo_accounts_for_table_witness :
  ∃ m info, assign_clusters sample_files sample_layout [96; 96; 128] = Ok m ∧
    from_map (E:=FatError) debug m sample_layout = Ok info ∧
    free_clusters info = zlen (filter (λ e, e = 0) (make_fat_entries m sample_layout)) ∧
    next_free info = 9.
Proof.
  destruct (assign_clusters sample_files sample_layout [96; 96; 128]) as [m| |] eqn:Hm;
    [|vm_compute in Hm; discriminate..].
  destruct (fsinfo_accounts_for_table debug sample_files sample_layout [96; 96; 128] m)
    as (info & Hi & _ & _ & Hfree & _).
  - exact sample_layout_ok.
  - exact sample_files_ok.
  - exact sample_dirs_ok.
  - exact Hm.
  - exists m, info. split; [reflexivity|]. split; [exact Hi|]. split; [exact Hfree|].
    vm_compute in Hm. injection Hm as <-. vm_compute in Hi. injection Hi as <-. reflexivity.
Defined.
