(* ===== verification/FatShort.v ===== *)
(** 8.3 short names (libs/fatfs/src/name/short.rs).

    [assign] gives a name its plain 8.3 form when that is exact and free, and
    otherwise the first free numbered alias. The theorems: aliases of one
    directory are distinct, and a name is refused only when all 999999
    numbered aliases are taken. [char::to_uppercase] is the class
    [Uppercase]. *)

From S2P Require Import Prelude Io Utf FatTypes.

(** The full case mapping of the standard library; [ascii_upper] is the
    instance that maps ASCII letters only. *)
Class Uppercase := {
  to_uppercase : Z → list Z;
  to_uppercase_chars c : is_char c → Forall is_char (to_uppercase c);
}.
Definition ascii_upper : Uppercase.
Proof.
  refine {| to_uppercase := λ c, [if (97 <=? c) && (c <=? 122) then c - 32 else c] |}.
  intros c Hc. apply Forall_singleton.
  destruct (Z.leb_spec 97 c), (Z.leb_spec c 122); simpl; try done. unfold is_char in *. lia.
Defined.

Definition NAME_LEN : nat := 11.
Definition UPPER_CAP : nat := 512.
Definition BASE_MAX : nat := 8.
Definition EXT_MAX : nat := 3.
Definition MAX_TAIL : Z := 999999.
Definition VALID : list Z := str_bytes "_^$~!#%&-@'(){}".

Record Split := { root : list Z; ext : list Z }.

Definition is_ascii_alphanumeric (b : Z) : bool :=
  ((48 <=? b) && (b <=? 57)) || ((65 <=? b) && (b <=? 90)) || ((97 <=? b) && (b <=? 122)).

Definition sanitize (b : Z) : Z :=
  if is_ascii_alphanumeric b || bool_decide (b ∈ VALID) then b else 95.

Definition split (upper : list Z) : Split :=
  match rposition (λ b, b =? 46) upper with
  | Some (S d as dot) => {| root := take dot upper; ext := drop (dot + 1) upper |}
  | _ => {| root := upper; ext := [] |}
  end.

(** The while loop of [digits]; ten rounds divide any 32-bit value down. *)
Fixpoint digits_loop (fuel : nat) (rest : Z) (count : nat) : nat :=
  match fuel with
  | O => count
  | S fuel => if 10 <=? rest then digits_loop fuel (rest / 10) (S count) else count
  end.
Definition digits (value : Z) : nat := digits_loop 10 value 1.

Section short.
Context `{Uppercase}.

(** The bytes [uppercase] produces for a name. *)
Definition upper_bytes (name : ustring) : list Z :=
  (name ≫= to_uppercase) ≫= encode_utf8.

(** The scratch buffer and the length, [None] when the buffer is full. *)
Fixpoint uppercase_loop (bytes buf : list Z) (len : nat) : list Z * option nat :=
  match bytes with
  | [] => (buf, Some len)
  | b :: bytes =>
      if bool_decide (len < length buf)%nat
      then uppercase_loop bytes (<[len := b]> buf) (S len) else (buf, None)
  end.
Definition uppercase (name : ustring) : list Z * option nat :=
  uppercase_loop (upper_bytes name) (zeros UPPER_CAP) 0.

Definition field (sp : Split) (root_max : nat) : list Z :=
  let alias := replicate NAME_LEN 32 in
  let alias := zip_assign sanitize (take root_max alias) (root sp) ++ drop root_max alias in
  take BASE_MAX alias ++ zip_assign sanitize (drop BASE_MAX alias) (ext sp).

Definition identity (name : ustring) : option (list Z) :=
  let '(upper, len) := uppercase name in
  len ← len;
  up ← slice 0 len upper;
  let sp := split up in
  if bool_decide (BASE_MAX < length (root sp))%nat || bool_decide (EXT_MAX < length (ext sp))%nat
  then None
  else if existsb (λ b, negb (sanitize b =? b)) (root sp ++ ext sp) then None
  else Some (field sp BASE_MAX).

(** Writes the [n] decimal digits of [rest], last digit first. *)
Fixpoint write_digits (n first : nat) (rest : Z) (alias : list Z) : list Z :=
  match n with
  | O => alias
  | S n => write_digits n first (rest / 10) (<[(first + n)%nat := 48 + rest mod 10]> alias)
  end.
Definition write_tail (alias : list Z) (used : nat) (tail : Z) : list Z :=
  write_digits (digits tail) (used + 1) tail alias.

Definition tailed (name : ustring) (tail : Z) : list Z :=
  let '(upper, len) := uppercase name in
  let sp := split (default upper (slice 0 (default UPPER_CAP len) upper)) in
  let base_max := (BASE_MAX - (digits tail + 1))%nat in
  let used := Nat.min (length (root sp)) base_max in
  write_tail (<[used := 126]> (field sp used)) used tail.

Definition fits (alias : list Z) (name : ustring) : bool :=
  bool_decide (identity name = Some alias).

(** [(1..=MAX_TAIL).map(..).find(..)], from [tail] for [n] more values. *)
Fixpoint find_tail (n : nat) (taken : gset (list Z)) (name : ustring) (tail : Z)
    : option (list Z) :=
  match n with
  | O => None
  | S n =>
      let alias := tailed name tail in
      if bool_decide (alias ∉ taken) then Some alias else find_tail n taken name (tail + 1)
  end.

(** The set of taken aliases is the allocator's state. The text of the
    error leaves out the name. *)
Definition assign (taken : gset (list Z)) (name : ustring)
    : res FatError (list Z * gset (list Z)) :=
  match identity name with
  | Some alias =>
      if bool_decide (alias ∉ taken) then Ok (alias, {[alias]} ∪ taken)
      else
        candidate ← ok_or (find_tail (Z.to_nat MAX_TAIL) taken name 1)
          (Fat "no free 8.3 alias left");
        Ok (candidate, {[candidate]} ∪ taken)
  | None =>
      candidate ← ok_or (find_tail (Z.to_nat MAX_TAIL) taken name 1)
        (Fat "no free 8.3 alias left");
      Ok (candidate, {[candidate]} ∪ taken)
  end.

(** The aliases of the names of one directory ([assign_aliases] of
    builder/mod.rs), in order. *)
Fixpoint assign_names (taken : gset (list Z)) (names : list ustring)
    : res FatError (list (list Z)) :=
  match names with
  | [] => Ok []
  | name :: names =>
      '(alias, taken) ← assign taken name;
      rest ← assign_names taken names;
      Ok (alias :: rest)
  end.
End short.

(** ** Lemmas: the shape of an alias *)

(** What an 8.3 field may hold: characters kept verbatim, and padding. *)
Definition short_byte (b : Z) : Prop := sanitize b = b ∨ b = 32.

Lemma sanitize_idem b : sanitize (sanitize b) = sanitize b.
Proof.
  unfold sanitize at 2 3. destruct (_ || _) eqn:Hb; [|reflexivity].
  unfold sanitize. by rewrite Hb.
Qed.

Lemma length_field sp n : length (field sp n) = NAME_LEN.
Proof.
  unfold field. rewrite length_app, length_take, length_zip_assign, length_drop.
  rewrite length_app, length_zip_assign, length_take, length_drop, length_replicate.
  unfold BASE_MAX, NAME_LEN. lia.
Qed.

Lemma zip_assign_short slots bs :
  Forall short_byte slots → Forall short_byte (zip_assign sanitize slots bs).
Proof.
  intros Hs. revert bs; induction Hs as [|s slots Hs Hss IH]; intros [|b bs]; simpl.
  - constructor.
  - constructor.
  - by constructor.
  - constructor; [left; apply sanitize_idem|apply IH].
Qed.

Lemma field_short sp n : Forall short_byte (field sp n).
Proof.
  unfold field. assert (Forall short_byte (replicate NAME_LEN 32)) as Hr
    by (apply Forall_replicate; by right).
  set (al := zip_assign _ _ _ ++ _). assert (Forall short_byte al) as Hal.
  { apply Forall_app; split; [|by apply Forall_drop].
    apply zip_assign_short. by apply Forall_take. }
  apply Forall_app; split; [by apply Forall_take|].
  apply zip_assign_short. by apply Forall_drop.
Qed.

(** The [n] last decimal digits of a number, in ASCII. *)
Fixpoint decimal (n : nat) (v : Z) : list Z :=
  match n with O => [] | S n => decimal n (v / 10) ++ [48 + v mod 10] end.

Lemma length_decimal n v : length (decimal n v) = n.
Proof. revert v; induction n; intros v; simpl; [done|]. rewrite length_app, IHn. simpl. lia. Qed.

Lemma decimal_digits n v : Forall (λ b, 48 ≤ b ≤ 57) (decimal n v).
Proof.
  revert v; induction n as [|n IH]; intros v; simpl; [done|].
  apply Forall_app; split; [done|]. repeat constructor;
    pose proof (Z.mod_pos_bound v 10); lia.
Qed.

Lemma write_digits_app n rest pre mid post :
  length mid = n →
  write_digits n (length pre) rest (pre ++ mid ++ post) = pre ++ decimal n rest ++ post.
Proof.
  revert rest mid post; induction n as [|n IH]; intros rest mid post Hm; simpl.
  { by destruct mid. }
  destruct mid as [|x mid _] using rev_ind; [done|].
  rewrite length_app in Hm; simpl in Hm.
  rewrite insert_app_r. rewrite <-(app_assoc mid). rewrite <-(Nat.add_0_r n) at 2.
  replace n with (length mid) at 2 by lia. rewrite insert_app_r. simpl.
  rewrite IH by lia. by rewrite <-!app_assoc.
Qed.

(** Reading the digits back; other characters are skipped. *)
Definition read_digit (acc b : Z) : Z :=
  if (48 <=? b) && (b <=? 57) then acc * 10 + (b - 48) else acc.
Definition read_number (bs : list Z) : Z := foldl read_digit 0 bs.

Lemma read_decimal n v :
  0 ≤ v < 10 ^ Z.of_nat n → read_number (decimal n v) = v.
Proof.
  unfold read_number. revert v; induction n as [|n IH]; intros v Hv.
  { change (10 ^ Z.of_nat 0) with 1 in Hv. simpl. lia. }
  cbn [decimal]. rewrite foldl_app.
  rewrite Nat2Z.inj_succ, Z.pow_succ_r in Hv by lia.
  rewrite IH by (split; [apply Z.div_pos; lia|apply Z.div_lt_upper_bound; lia]).
  simpl. unfold read_digit. pose proof (Z.mod_pos_bound v 10).
  rewrite (proj2 (Z.leb_le 48 _)), (proj2 (Z.leb_le _ 57)) by lia. simpl.
  pose proof (Z.div_mod v 10). lia.
Qed.

Lemma digits_loop_spec fuel rest count :
  0 ≤ rest < 10 ^ Z.of_nat (S fuel) →
  ∃ k : nat, digits_loop fuel rest count = (count + k)%nat ∧
    rest < 10 ^ Z.of_nat (S k) ∧ (k = 0%nat ∨ 10 ^ Z.of_nat k ≤ rest).
Proof.
  revert rest count; induction fuel as [|fuel IH]; intros rest count Hr.
  { exists 0%nat. simpl. split; [lia|]. split; [lia|by left]. }
  cbn [digits_loop]. destruct (Z.leb_spec 10 rest).
  - destruct (IH (rest / 10) (S count)) as (k & -> & Hlt & Hk).
    { rewrite Nat2Z.inj_succ, Z.pow_succ_r in Hr by lia.
      split; [apply Z.div_pos; lia|apply Z.div_lt_upper_bound; lia]. }
    exists (S k). split; [lia|]. rewrite (Nat2Z.inj_succ (S k)), Z.pow_succ_r by lia.
    pose proof (Z.mul_succ_div_gt rest 10). pose proof (Z.mul_div_le rest 10).
    split; [lia|]. right. rewrite Nat2Z.inj_succ, Z.pow_succ_r by lia.
    destruct Hk as [->|Hk]; [change (10 ^ Z.of_nat 0) with 1; lia|lia].
  - exists 0%nat. split; [lia|]. simpl. split; [lia|by left].
Qed.

Lemma digits_spec v :
  1 ≤ v ≤ MAX_TAIL → (1 ≤ digits v ≤ 6)%nat ∧ v < 10 ^ Z.of_nat (digits v).
Proof.
  unfold MAX_TAIL, digits. intros Hv.
  destruct (digits_loop_spec 10 v 1) as (k & -> & Hlt & Hk); [simpl Z.of_nat; lia|].
  replace (1 + k)%nat with (S k) by lia. split; [|done].
  destruct (decide (6 ≤ k)%nat) as [H6|]; [|lia].
  destruct Hk as [->|Hk]; [lia|].
  pose proof (Z.pow_le_mono_r 10 6 (Z.of_nat k) ltac:(lia) ltac:(lia)). lia.
Qed.

Lemma field_shape sp n :
  (n ≤ 8)%nat → (n ≤ length (root sp))%nat →
  field sp n = (sanitize <$> take n (root sp)) ++ replicate (8 - n) 32
               ++ zip_assign sanitize (replicate 3 32) (ext sp).
Proof.
  intros Hn Hr. unfold field, BASE_MAX, NAME_LEN.
  assert (zip_assign sanitize (take n (replicate 11 32)) (root sp) ++ drop n (replicate 11 32)
    = (sanitize <$> take n (root sp)) ++ replicate (8 - n) 32 ++ replicate 3 32) as ->.
  { rewrite zip_assign_app, take_replicate, length_replicate, drop_replicate, drop_replicate.
    replace (n `min` 11)%nat with n by lia. replace (n - length (root sp))%nat with 0%nat by lia.
    rewrite <-replicate_add. rewrite app_nil_r. do 2 f_equal. lia. }
  assert (length ((sanitize <$> take n (root sp)) ++ replicate (8 - n) 32) = 8%nat) as Hl.
  { rewrite length_app, length_fmap, length_take, length_replicate. lia. }
  rewrite !app_assoc. rewrite take_app_length', drop_app_length' by done. done.
Qed.

Section tailed.
Context `{Uppercase}.

Definition tail_split (name : ustring) : Split :=
  let '(upper, len) := uppercase name in
  split (default upper (slice 0 (default UPPER_CAP len) upper)).
Definition tail_used (name : ustring) (tail : Z) : nat :=
  Nat.min (length (root (tail_split name))) (7 - digits tail).
Definition tail_base (name : ustring) (tail : Z) : list Z :=
  (sanitize <$> take (tail_used name tail) (root (tail_split name))) ++
  126 :: decimal (digits tail) tail ++ replicate (7 - tail_used name tail - digits tail) 32.

Lemma tailed_shape name tail :
  1 ≤ tail ≤ MAX_TAIL →
  tailed name tail =
    tail_base name tail ++ zip_assign sanitize (replicate 3 32) (ext (tail_split name)).
Proof.
  intros Ht. destruct (digits_spec tail Ht) as [HD _].
  unfold tailed, tail_base, tail_used, tail_split. destruct (uppercase name) as [upper len].
  set (sp := split _). unfold BASE_MAX.
  replace (8 - (digits tail + 1))%nat with (7 - digits tail)%nat by lia.
  set (used := Nat.min (length (root sp)) (7 - digits tail)).
  rewrite field_shape by (unfold used; lia). set (E := zip_assign _ _ _).
  set (S := sanitize <$> take used (root sp)).
  assert (length S = used) as HS.
  { unfold S. rewrite length_fmap, length_take. unfold used. lia. }
  replace (8 - used)%nat with (1 + (digits tail + (7 - used - digits tail)))%nat
    by (unfold used; lia).
  rewrite !replicate_add. cbn [replicate app].
  rewrite <-HS at 1. rewrite <-(Nat.add_0_r (length S)), insert_app_r. cbn [insert list_insert].
  unfold write_tail. replace (used + 1)%nat with (length (S ++ [126]))
    by (rewrite length_app; simpl; lia).
  pose proof (write_digits_app (digits tail) tail (S ++ [126]) (replicate (digits tail) 32)
    (replicate (7 - used - digits tail) 32 ++ E) (length_replicate _ _)) as Hw.
  rewrite <-!app_assoc in Hw |- *. cbn [app] in Hw |- *. rewrite <-!app_assoc. exact Hw.
Qed.

Lemma length_tail_base name tail :
  1 ≤ tail ≤ MAX_TAIL → length (tail_base name tail) = 8%nat.
Proof.
  intros Ht. destruct (digits_spec tail Ht) as [HD _]. unfold tail_base.
  rewrite length_app, length_fmap, length_take. simpl. rewrite length_app, length_decimal,
    length_replicate. unfold tail_used. lia.
Qed.

(** The number after the last tilde of a field. *)
Definition tail_of (base : list Z) : Z :=
  match rposition (λ b, b =? 126) base with
  | Some i => read_number (drop (i + 1) base)
  | None => 0
  end.

Lemma rposition_last {A} (f : A → bool) l x r :
  f x = true → Forall (λ y, f y = false) r → rposition f (l ++ x :: r) = Some (length l).
Proof.
  intros Hx Hr. assert (rposition f r = None) as Hn.
  { induction Hr as [|y r Hy _ IH]; [done|]. simpl. by rewrite IH, Hy. }
  induction l as [|y l IH]; simpl; [by rewrite Hn, Hx|]. by rewrite IH.
Qed.

Lemma tail_of_base name tail :
  1 ≤ tail ≤ MAX_TAIL → tail_of (tail_base name tail) = tail.
Proof.
  intros Ht. destruct (digits_spec tail Ht) as [HD Hlt]. unfold tail_of, tail_base.
  pose proof (decimal_digits (digits tail) tail) as Hdec.
  rewrite rposition_last.
  - rewrite drop_app_add'; [|done]. simpl. rewrite drop_0. unfold read_number. rewrite foldl_app.
    fold (read_number (decimal (digits tail) tail)). rewrite read_decimal by lia.
    generalize (7 - tail_used name tail - digits tail)%nat as k. intros k.
    induction k as [|k IH]; [done|]. simpl. exact IH.
  - done.
  - apply Forall_app; split; [|by apply Forall_replicate].
    eapply Forall_impl; [exact Hdec|]. intros b Hb. apply Z.eqb_neq. simpl in Hb. lia.
Qed.

(** Different numbers give different aliases. *)
Lemma tailed_inj name t1 t2 :
  1 ≤ t1 ≤ MAX_TAIL → 1 ≤ t2 ≤ MAX_TAIL → tailed name t1 = tailed name t2 → t1 = t2.
Proof.
  intros H1 H2 He. apply (f_equal (take 8)) in He.
  rewrite !tailed_shape, !take_app_length' in He by (done || (symmetry; by apply length_tail_base)).
  by rewrite <-(tail_of_base name t1 H1), He, tail_of_base.
Qed.
End tailed.

Section assign.
Context `{Uppercase}.

Lemma tail_base_short name tail :
  1 ≤ tail ≤ MAX_TAIL → Forall short_byte (tail_base name tail).
Proof.
  intros Ht. unfold tail_base. apply Forall_app; split.
  { apply Forall_fmap, Forall_forall. intros; left; apply sanitize_idem. }
  constructor; [by left|]. apply Forall_app; split; [|apply Forall_replicate; by right].
  eapply Forall_impl; [apply decimal_digits|]. intros b Hb. left. simpl in Hb.
  unfold sanitize, is_ascii_alphanumeric.
  by rewrite (proj2 (Z.leb_le 48 b)), (proj2 (Z.leb_le b 57)) by lia.
Qed.

Lemma tailed_ok name tail :
  1 ≤ tail ≤ MAX_TAIL →
  length (tailed name tail) = NAME_LEN ∧ Forall short_byte (tailed name tail).
Proof.
  intros Ht. rewrite tailed_shape by done. split.
  - by rewrite length_app, length_tail_base, length_zip_assign.
  - apply Forall_app; split; [by apply tail_base_short|].
    apply zip_assign_short. apply Forall_replicate. by right.
Qed.

Lemma identity_ok name alias :
  identity name = Some alias → length alias = NAME_LEN ∧ Forall short_byte alias.
Proof.
  unfold identity. destruct (uppercase name) as [upper len]. intros Hi.
  destruct len as [len|]; [|done]. cbn [mbind option_bind] in Hi.
  destruct (slice 0 len upper); [|done]. cbn [mbind option_bind] in Hi.
  destruct (_ || _); [done|]. destruct (existsb _ _); [done|]. injection Hi as <-.
  split; [apply length_field|apply field_short].
Qed.

Lemma find_tail_spec n taken (name : ustring) tail :
  1 ≤ tail → tail + Z.of_nat n ≤ MAX_TAIL + 1 →
  match find_tail n taken name tail with
  | Some a => a ∉ taken ∧ length a = NAME_LEN ∧ Forall short_byte a
  | None => ∀ t, tail ≤ t < tail + Z.of_nat n → tailed name t ∈ taken
  end.
Proof.
  revert tail; induction n as [|n IH]; intros tail H1 H2; cbn [find_tail]; [intros; lia|].
  case_bool_decide as Ht.
  - destruct (tailed_ok name tail) as [? ?]; [lia|done].
  - specialize (IH (tail + 1) ltac:(lia) ltac:(lia)).
    destruct (find_tail n taken name (tail + 1)); [done|].
    intros t Hr. destruct (decide (t = tail)) as [->|]; [|apply IH; lia].
    by destruct (decide (tailed name tail ∈ taken)).
Qed.

(** All numbered aliases taken means as many entries in the set. *)
Lemma all_tails_taken (name : ustring) (taken : gset (list Z)) :
  (∀ t, 1 ≤ t < 1 + MAX_TAIL → tailed name t ∈ taken) → MAX_TAIL ≤ Z.of_nat (base.size taken).
Proof.
  intros Ht. set (l := tailed name <$> seqZ 1 MAX_TAIL).
  assert (NoDup l) as Hnd.
  { apply NoDup_fmap_2_strong; [|apply NoDup_seqZ].
    intros x y Hx%elem_of_seqZ Hy%elem_of_seqZ. apply tailed_inj; lia. }
  assert (list_to_set (C:=gset (list Z)) l ⊆ taken) as Hsub.
  { intros a Ha%elem_of_list_to_set. apply list_elem_of_fmap in Ha as (t & -> & Hin%elem_of_seqZ).
    apply Ht. lia. }
  apply subseteq_size in Hsub. rewrite size_list_to_set in Hsub by done.
  unfold l in Hsub. rewrite length_fmap, length_seqZ in Hsub. lia.
Qed.

Lemma assign_spec taken (name : ustring) :
  match assign taken name with
  | Ok (a, taken') => a ∉ taken ∧ taken' = {[a]} ∪ taken ∧
                      length a = NAME_LEN ∧ Forall short_byte a
  | Err _ => MAX_TAIL ≤ Z.of_nat (base.size taken)
  | Panic => False
  end.
Proof.
  assert (match (candidate ← ok_or (find_tail (Z.to_nat MAX_TAIL) taken name 1)
                   (Fat "no free 8.3 alias left");
                 Ok (candidate, {[candidate]} ∪ taken)) with
          | Ok (a, taken') => a ∉ taken ∧ taken' = {[a]} ∪ taken ∧
                              length a = NAME_LEN ∧ Forall short_byte a
          | Err _ => MAX_TAIL ≤ Z.of_nat (base.size taken)
          | Panic => False
          end) as Htail.
  { pose proof (find_tail_spec (Z.to_nat MAX_TAIL) taken name 1 ltac:(lia)) as Hf.
    rewrite Z2Nat.id in Hf by (unfold MAX_TAIL; lia). specialize (Hf ltac:(lia)).
    destruct (find_tail _ _ _ _) as [a|]; cbn [ok_or mbind res_bind].
    - naive_solver.
    - by apply all_tails_taken in Hf. }
  unfold assign. destruct (identity name) as [a|] eqn:Hi; [|exact Htail].
  case_bool_decide; [|exact Htail]. apply identity_ok in Hi as [? ?]. done.
Qed.
Lemma assign_names_spec (taken : gset (list Z)) (names : list ustring) :
  match assign_names taken names with
  | Ok aliases =>
      length aliases = length names ∧ NoDup aliases ∧
      (∀ a, a ∈ aliases → a ∉ taken ∧ length a = NAME_LEN ∧ Forall short_byte a)
  | Err _ => MAX_TAIL < Z.of_nat (base.size taken) + zlen names
  | Panic => False
  end.
Proof.
  revert taken; induction names as [|name names IH]; intros taken; simpl.
  { split_and!; [done|constructor|set_solver]. }
  pose proof (assign_spec taken name) as Ha.
  destruct (assign taken name) as [[a taken']|e|]; cbn [mbind res_bind]; [| |done].
  - destruct Ha as (Hn & -> & Hl & Hs). specialize (IH ({[a]} ∪ taken)).
    destruct (assign_names ({[a]} ∪ taken) names) as [as_|e|]; cbn [mbind res_bind]; [| |done].
    + destruct IH as (Hlen & Hnd & Hall). split_and!; [simpl; lia| |].
      * constructor; [|done]. intros Hin. apply Hall in Hin. set_solver.
      * intros b [->|Hb]%elem_of_cons; [done|]. destruct (Hall b Hb) as (? & ? & ?).
        split_and!; [set_solver|done..].
    + rewrite size_union in IH by set_solver. rewrite size_singleton in IH.
      unfold zlen in *. simpl length. lia.
  - unfold zlen. simpl length. lia.
Qed.

End assign.

(** The 8.3 aliases given to the entries of one directory are pairwise
    distinct, one per name, each of 11 valid characters; the allocation
    fails only for a directory of a million names. *)
Theorem aliases_distinct `{Uppercase} names :
  match assign_names ∅ names with
  | Ok aliases =>
      length aliases = length names ∧ NoDup aliases ∧
      (∀ a, a ∈ aliases → length a = NAME_LEN ∧ Forall short_byte a)
  | Err _ => MAX_TAIL < zlen names
  | Panic => False
  end.
Proof.
  pose proof (assign_names_spec ∅ names) as Hs. destruct (assign_names ∅ names); [|done|done].
  naive_solver.
Qed.

Lemma aliases_distinct_witness :
  ∃ aliases, assign_names (H:=ascii_upper) ∅
      [ustr "readme.txt"; ustr "README.TXT"; ustr "vmlinuz-6.12.1"; ustr "vmlinuz-6.12.2"]
    = Ok aliases ∧ NoDup aliases ∧
    aliases !! 3%nat = Some (str_bytes "VMLINU~12  ").
Proof.
  pose proof (aliases_distinct (H:=ascii_upper)
    [ustr "readme.txt"; ustr "README.TXT"; ustr "vmlinuz-6.12.1"; ustr "vmlinuz-6.12.2"]) as Ha.
  destruct (assign_names _ _) as [aliases| |] eqn:Hn; [|vm_compute in Hn; discriminate..].
  exists aliases. split; [reflexivity|]. split; [apply Ha|].
  vm_compute in Hn. injection Hn as <-. reflexivity.
Defined.
