(* ===== verification/FatEntry.v ===== *)
(** Directory entries and long file names (libs/fatfs/src/name/entry.rs,
    name/lfn.rs).

    The 32-byte encoders, the prediction of their length, and the reference
    reader of long names: what a driver reassembles from the fragments. *)

From S2P Require Import Prelude Io Utf FatTypes FatShort.

(** ** Long file names *)

Definition CHAR_LIMIT : nat := 13 * 40.
Definition FRAGMENT_CHARS : nat := 13.
Definition ENTRY_BYTES : nat := 32.
Definition LAST_FRAGMENT : Z := 0x40.

(** The UTF-16 units an LFN carries. *)
Definition lfn_units (name : ustring) : list Z := take CHAR_LIMIT (encode_utf16 name).

Definition fragment_count (name : ustring) : Z :=
  div_ceil (zlen (lfn_units name)) (Z.of_nat FRAGMENT_CHARS).

(** [u8::rotate_right(1)]. *)
Definition rotate_right1 (b : Z) : Z :=
  Z.lor (Z.shiftr b 1) (Z.shiftl (Z.land b 1) 7).

Definition checksum (alias : list Z) : Z :=
  foldl (λ sum byte, wrapping_add 8 (rotate_right1 sum) byte) 0 alias.

Definition char_offset (index : nat) : nat :=
  if bool_decide (index < 5)%nat then 1 + index * 2
  else if bool_decide (index < 11)%nat then 14 + (index - 5) * 2
  else 28 + (index - 11) * 2.

(** One iteration of the loop of [fragment]. *)
Definition put_char {E} (entry : list Z) (c : nat * Z) : res E (list Z) :=
  let offset := char_offset c.1 in copy_range offset (offset + 2) (to_le_bytes 2 c.2) entry.

Definition fragment {E} (ordinal sum : Z) (chars : list Z) : res E (list Z) :=
  let entry := zeros ENTRY_BYTES in
  let entry := <[0%nat := ordinal]> entry in
  let entry := <[11%nat := ATTR_LFN]> entry in
  let entry := <[13%nat := sum]> entry in
  foldM put_char entry (imap pair chars).

(** The loop body of [append_entries] for one fragment index. *)
Definition append_fragment {E} (chars : list Z) (total : nat) (sum : Z) (buf : list Z)
    (index : nat) : res E (list Z) :=
  let start := (index * FRAGMENT_CHARS)%nat in
  let end_ := Nat.min (start + FRAGMENT_CHARS) (length chars) in
  let chunk := default [] (slice start end_ chars) in
  let ordinal := if bool_decide (index + 1 = total)%nat then LAST_FRAGMENT else 0 in
  let value := default 0 (try_from 8 (Z.of_nat index + 1)) in
  frag ← fragment (Z.lor ordinal value) sum chunk;
  Ok (buf ++ frag).

Definition append_entries {E} (buf : list Z) (name : ustring) (sum : Z) : res E (list Z) :=
  let chars := lfn_units name in
  let total := Z.to_nat (div_ceil (zlen chars) (Z.of_nat FRAGMENT_CHARS)) in
  foldM (append_fragment chars total sum) buf (reverse (seq 0 total)).

(** ** Short entries *)

Definition ENTRY_LEN : Z := 32.
Definition DOT_BYTES : nat := 64.
Definition FIXED_DATE : Z := 0x0021.
Definition FIXED_TIME : Z := 0.

Definition put_u16 {E} (buf : list Z) (offset : nat) (value : Z) : res E (list Z) :=
  copy_range offset (offset + 2) (to_le_bytes 2 value) buf.
Definition put_u32 {E} (buf : list Z) (offset : nat) (value : Z) : res E (list Z) :=
  copy_range offset (offset + 4) (to_le_bytes 4 value) buf.

Definition entry {E} (name : list Z) (attr cluster sz : Z) : res E (list Z) :=
  enc ← copy_range 0 NAME_LEN name (zeros ENTRY_BYTES);
  let enc := <[11%nat := attr]> enc in
  enc ← put_u16 enc 14 FIXED_TIME;
  enc ← put_u16 enc 16 FIXED_DATE;
  enc ← put_u16 enc 18 FIXED_DATE;
  enc ← put_u16 enc 20 (default 0 (try_from 16 (Z.shiftr cluster 16)));
  enc ← put_u16 enc 22 FIXED_TIME;
  enc ← put_u16 enc 24 FIXED_DATE;
  enc ← put_u16 enc 26 (default 0 (try_from 16 (Z.land cluster 0xFFFF)));
  put_u32 enc 28 sz.

Definition dotted (name : list Z) : list Z := zip_assign id (replicate NAME_LEN 32) name.

Definition dot_entries {E} (me parent : Z) : res E (list Z) :=
  dot ← entry (dotted [46]) ATTR_DIRECTORY me 0;
  entries ← copy_range 0 ENTRY_BYTES dot (zeros DOT_BYTES);
  dotdot ← entry (dotted [46; 46]) ATTR_DIRECTORY parent 0;
  copy_range ENTRY_BYTES DOT_BYTES dotdot entries.

Definition label_entry {E} (label : list Z) : res E (list Z) :=
  entry label ATTR_VOLUME_ID 0 0.

Section append.
Context `{Uppercase}.

Definition append_entry {E} (buf : list Z) (name : ustring) (alias : list Z)
    (attr cluster sz : Z) : res E (list Z) :=
  buf ← (if negb (fits alias name) then append_entries buf name (checksum alias) else Ok buf);
  e ← entry alias attr cluster sz;
  Ok (buf ++ e).

Definition entry_bytes_len (name : ustring) (alias : list Z) : Z :=
  if fits alias name then ENTRY_LEN
  else saturating_mul 64 ENTRY_LEN (saturating_add 64 (fragment_count name) 1).
End append.

(** ** Reference readers *)

(** The fields of a short entry. *)
Record short_entry := { se_name : list Z; se_attr : Z; se_cluster : Z; se_size : Z }.
Definition read_short (e : list Z) : short_entry :=
  {| se_name := take 11 e; se_attr := le_at 1 11 e;
     se_cluster := le_at 2 20 e * 0x10000 + le_at 2 26 e; se_size := le_at 4 28 e |}.

(** The 13 units of a fragment. *)
Definition read_units (e : list Z) : list Z :=
  (λ i, le_at 2 (char_offset i) e) <$> seq 0 13.

Fixpoint until_nul (us : list Z) : list Z :=
  match us with
  | [] => []
  | u :: us => if u =? 0 then [] else u :: until_nul us
  end.

(** A long name: fragments are stored last first. *)
Definition read_long (frags : list (list Z)) : list Z :=
  until_nul (concat (read_units <$> reverse frags)).

(** ** Lemmas *)

Definition entry_image (name : list Z) (attr cluster sz : Z) : list Z :=
  name ++ [attr; 0; 0] ++ to_le_bytes 2 FIXED_TIME ++ to_le_bytes 2 FIXED_DATE ++
  to_le_bytes 2 FIXED_DATE ++ to_le_bytes 2 (default 0 (try_from 16 (Z.shiftr cluster 16))) ++
  to_le_bytes 2 FIXED_TIME ++ to_le_bytes 2 FIXED_DATE ++
  to_le_bytes 2 (default 0 (try_from 16 (Z.land cluster 0xFFFF))) ++ to_le_bytes 4 sz.

Lemma length_11_inv {A} (l : list A) :
  length l = 11%nat →
  ∃ a b c d e f g h i j k, l = [a; b; c; d; e; f; g; h; i; j; k].
Proof.
  intros Hl. do 11 (destruct l as [|? l]; [discriminate|]). destruct l; [|discriminate].
  by repeat eexists.
Qed.

Lemma entry_eq {E} name attr cluster sz :
  length name = 11%nat → entry (E:=E) name attr cluster sz = Ok (entry_image name attr cluster sz).
Proof.
  intros Hn. destruct (length_11_inv name Hn) as (?&?&?&?&?&?&?&?&?&?&?&->). reflexivity.
Qed.

Lemma length_entry_image name attr cluster sz :
  length name = 11%nat → length (entry_image name attr cluster sz) = 32%nat.
Proof.
  intros Hn. unfold entry_image. rewrite !length_app, !length_to_le_bytes, Hn. done.
Qed.

Lemma read_entry_image name attr cluster sz :
  length name = 11%nat → is_u32 cluster → is_u32 sz →
  read_short (entry_image name attr cluster sz)
    = {| se_name := name; se_attr := attr; se_cluster := cluster; se_size := sz |}.
Proof.
  intros Hn Hc Hs. destruct (length_11_inv name Hn) as (?&?&?&?&?&?&?&?&?&?&?&->).
  set (e := entry_image _ attr cluster sz).
  assert (Z.shiftr cluster 16 = cluster / 65536) as Hhi by by rewrite Z.shiftr_div_pow2.
  assert (Z.land cluster 0xFFFF = cluster mod 65536) as Hlo.
  { change 0xFFFF with (Z.ones 16). by rewrite Z.land_ones. }
  pose proof (Z.mod_pos_bound cluster 65536 ltac:(lia)) as Hmod.
  pose proof (Z.div_mod cluster 65536 ltac:(lia)) as Hdm.
  assert (0 ≤ cluster / 65536 < 65536) as Hdiv.
  { uint_unfold. split; [apply Z.div_pos; lia|apply Z.div_lt_upper_bound; lia]. }
  unfold read_short. f_equal.
  - unfold le_at. change (slice 11 (11 + 1) e) with (Some [attr]).
    unfold from_le_bytes; simpl. lia.
  - rewrite (le_at_bytes 2 20 e (cluster / 65536)), (le_at_bytes 2 26 e (cluster mod 65536)).
    + lia.
    + change (Some (to_le_bytes 2 (default 0 (try_from 16 (Z.land cluster 0xFFFF))))
        = Some (to_le_bytes 2 (cluster mod 65536))).
      rewrite Hlo, try_from_ok by ulia. done.
    + simpl. lia.
    + change (Some (to_le_bytes 2 (default 0 (try_from 16 (Z.shiftr cluster 16))))
        = Some (to_le_bytes 2 (cluster / 65536))).
      rewrite Hhi, try_from_ok by ulia. done.
    + simpl. lia.
  - by apply le_at_bytes.
Qed.

(** A fragment, with its units padded to 13. *)
Definition fragment_image (ordinal sum : Z) (us : list Z) : list Z :=
  ordinal :: concat (to_le_bytes 2 <$> take 5 us) ++ [ATTR_LFN; 0; sum] ++
  concat (to_le_bytes 2 <$> take 6 (drop 5 us)) ++ [0; 0] ++
  concat (to_le_bytes 2 <$> drop 11 us).
Definition pad13 (us : list Z) : list Z := us ++ replicate (13 - length us) 0.

Lemma fragment_eq {E} ordinal sum chars :
  (length chars ≤ 13)%nat →
  fragment (E:=E) ordinal sum chars = Ok (fragment_image ordinal sum (pad13 chars)).
Proof.
  intros Hl. do 13 (destruct chars as [|? chars]; [reflexivity|]).
  destruct chars as [|? chars]; [reflexivity|]. simpl in Hl. lia.
Qed.

Lemma length_13_inv {A} (l : list A) :
  length l = 13%nat →
  ∃ a b c d e f g h i j k m n, l = [a; b; c; d; e; f; g; h; i; j; k; m; n].
Proof.
  intros Hl. do 13 (destruct l as [|? l]; [discriminate|]). destruct l; [|discriminate].
  by repeat eexists.
Qed.

Lemma length_pad13 us : (length us ≤ 13)%nat → length (pad13 us) = 13%nat.
Proof. intros. unfold pad13. rewrite length_app, length_replicate. lia. Qed.

Lemma length_fragment_image ordinal sum us :
  length us = 13%nat → length (fragment_image ordinal sum us) = 32%nat.
Proof.
  intros Hl. destruct (length_13_inv us Hl) as (?&?&?&?&?&?&?&?&?&?&?&?&?&->). reflexivity.
Qed.

Lemma fragment_image_fields ordinal sum us :
  length us = 13%nat → Forall is_u16 us →
  let f := fragment_image ordinal sum us in
  length f = 32%nat ∧ f !! 0%nat = Some ordinal ∧ f !! 11%nat = Some ATTR_LFN ∧
  f !! 13%nat = Some sum ∧ read_units f = us.
Proof.
  intros Hl Hu f. destruct (length_13_inv us Hl) as (?&?&?&?&?&?&?&?&?&?&?&?&?&->).
  split_and!; [reflexivity..|].
  repeat (apply Forall_cons in Hu as [? Hu]).
  unfold read_units. cbn [seq fmap list_fmap].
  repeat (apply (f_equal2 cons); [apply le_at_bytes; [reflexivity|done]|]). done.
Qed.

(** The units of fragment [i]. *)
Definition chunk13 (chars : list Z) (i : nat) : list Z := take 13 (drop (i * 13) chars).
Definition total13 (chars : list Z) : nat := Z.to_nat (div_ceil (zlen chars) 13).

Lemma total13_spec chars :
  (13 * total13 chars < length chars + 13)%nat ∧ (length chars ≤ 13 * total13 chars)%nat.
Proof.
  unfold total13, zlen. pose proof (div_ceil_spec (Z.of_nat (length chars)) 13 ltac:(lia)). lia.
Qed.

Definition fragment_at (chars : list Z) (sum : Z) (i : nat) : list Z :=
  fragment_image
    (Z.lor (if bool_decide (i + 1 = total13 chars)%nat then LAST_FRAGMENT else 0) (Z.of_nat i + 1))
    sum (pad13 (chunk13 chars i)).

Lemma append_fragment_eq {E} chars sum buf i :
  (length chars ≤ 520)%nat → (i < total13 chars)%nat →
  append_fragment (E:=E) chars (total13 chars) sum buf i = Ok (buf ++ fragment_at chars sum i).
Proof.
  intros Hl Hi. destruct (total13_spec chars) as [Ht1 Ht2].
  unfold append_fragment, FRAGMENT_CHARS. rewrite slice_ok by lia.
  rewrite try_from_ok by ulia. cbn [default from_option id].
  replace (take (Nat.min (i * 13 + 13) (length chars) - i * 13) (drop (i * 13) chars))
    with (chunk13 chars i).
  - rewrite fragment_eq by (unfold chunk13; rewrite length_take; lia). by rewrite bind_ret.
  - unfold chunk13. destruct (decide (i * 13 + 13 ≤ length chars)%nat).
    + f_equal. lia.
    + rewrite !take_ge by (rewrite length_drop; lia). done.
Qed.

(** [append_entries] as the fragments in descending order. *)
Lemma append_entries_eq {E} buf name sum :
  let chars := lfn_units name in
  append_entries (E:=E) buf name sum
    = Ok (buf ++ concat (fragment_at chars sum <$> reverse (seq 0 (total13 chars)))).
Proof.
  intros chars. unfold append_entries. fold chars.
  change (Z.to_nat (div_ceil (zlen chars) (Z.of_nat FRAGMENT_CHARS))) with (total13 chars).
  assert (length chars ≤ 520)%nat as Hl by (unfold chars, lfn_units, CHAR_LIMIT; rewrite length_take; lia).
  assert (∀ i, i ∈ reverse (seq 0 (total13 chars)) → (i < total13 chars)%nat) as Hin.
  { intros i. rewrite elem_of_reverse, elem_of_seq. lia. }
  revert Hin buf. generalize (reverse (seq 0 (total13 chars))) as is_.
  induction is_ as [|i is_ IH]; intros Hin buf; cbn [foldM fmap list_fmap concat].
  { simpl. by rewrite app_nil_r. }
  rewrite append_fragment_eq, bind_ret by (done || (apply Hin; set_solver)).
  rewrite IH by (intros; apply Hin; set_solver). by rewrite <-app_assoc.
Qed.

(** The padded chunks, in order, are the units and the final padding. *)
Lemma chunks13_concat chars :
  concat ((λ i, pad13 (chunk13 chars i)) <$> seq 0 (total13 chars))
    = chars ++ replicate (13 * total13 chars - length chars) 0.
Proof.
  destruct (total13_spec chars) as [Ht1 Ht2]. revert Ht1 Ht2.
  generalize (total13 chars) as t. intros t. revert chars.
  induction t as [|t IH]; intros chars Ht1 Ht2.
  { destruct chars; [done|simpl in *; lia]. }
  rewrite <-cons_seq, <-fmap_S_seq. cbn [fmap list_fmap concat].
  rewrite <-list_fmap_compose.
  rewrite (list_fmap_ext _ (λ i, pad13 (chunk13 (drop 13 chars) i))); last first.
  { intros k i _. simpl. unfold chunk13. rewrite drop_drop. do 3 f_equal. }
  destruct (decide (13 ≤ length chars)%nat) as [Hge|Hlt].
  - rewrite IH by (rewrite length_drop; lia). rewrite length_drop.
    unfold pad13, chunk13. cbn [Nat.mul]. rewrite drop_0, length_take.
    replace (13 - Nat.min 13 (length chars))%nat with 0%nat by lia. rewrite app_nil_r.
    rewrite app_assoc, take_drop. do 2 f_equal. lia.
  - assert (t = 0%nat) as -> by lia. cbn [seq fmap list_fmap concat]. rewrite app_nil_r.
    unfold pad13, chunk13. cbn [Nat.mul]. rewrite drop_0, take_ge by lia. done.
Qed.

Lemma until_nul_pad us n :
  Forall (λ u, u ≠ 0) us → until_nul (us ++ replicate n 0) = us.
Proof.
  induction 1 as [|u us Hu _ IH]; simpl; [by destruct n|].
  rewrite (proj2 (Z.eqb_neq _ _)) by done. by rewrite IH.
Qed.

(** ** Properties *)

Lemma chunk13_units name i :
  is_ustring name → Forall is_u16 (pad13 (chunk13 (lfn_units name) i)) ∧
  length (pad13 (chunk13 (lfn_units name) i)) = 13%nat.
Proof.
  intros Hn. split.
  - apply Forall_app; split; [|apply Forall_replicate; ulia].
    unfold chunk13, lfn_units. by apply Forall_take, Forall_drop, Forall_take, encode_utf16_range.
  - apply length_pad13. unfold chunk13. rewrite length_take. lia.
Qed.

Section properties.
Context `{Uppercase}.

(** The number of fragments is bounded, so the prediction does not saturate. *)
Lemma fragment_count_eq name : fragment_count name = Z.of_nat (total13 (lfn_units name)) ∧
  0 ≤ fragment_count name ≤ 40.
Proof.
  destruct (total13_spec (lfn_units name)) as [H1 H2].
  assert (length (lfn_units name) ≤ 520)%nat as Hl
    by (unfold lfn_units, CHAR_LIMIT; rewrite length_take; lia).
  unfold fragment_count, total13 in *. change (Z.of_nat FRAGMENT_CHARS) with 13.
  pose proof (div_ceil_nonneg (zlen (lfn_units name)) 13).
  pose proof (div_ceil_least (zlen (lfn_units name)) 13 40). unfold zlen in *. lia.
Qed.

Lemma entry_bytes_len_eq name alias :
  entry_bytes_len name alias =
    if fits alias name then 32 else 32 * (Z.of_nat (total13 (lfn_units name)) + 1).
Proof.
  destruct (fragment_count_eq name) as [Hf Hr]. unfold entry_bytes_len, ENTRY_LEN.
  destruct (fits alias name); [done|]. rewrite <-Hf. uint_unfold. lia.
Qed.

(** The fragments written before a short entry. *)
Definition fragments (name : ustring) (alias : list Z) : list (list Z) :=
  if fits alias name then []
  else fragment_at (lfn_units name) (checksum alias) <$> reverse (seq 0 (total13 (lfn_units name))).

Lemma append_entry_eq {E} buf name alias attr cluster sz :
  length alias = 11%nat →
  append_entry (E:=E) buf name alias attr cluster sz
    = Ok (buf ++ concat (fragments name alias) ++ entry_image alias attr cluster sz).
Proof.
  intros Ha. unfold append_entry, fragments. destruct (fits alias name); cbn [negb].
  - rewrite bind_ret, entry_eq, bind_ret by done. done.
  - rewrite append_entries_eq, bind_ret, entry_eq, bind_ret by done. by rewrite <-app_assoc.
Qed.

Lemma fragments_length_eq name alias :
  length (fragments name alias) = if fits alias name then 0%nat else total13 (lfn_units name).
Proof.
  unfold fragments. destruct (fits alias name); [done|].
  by rewrite length_fmap, length_reverse, length_seq.
Qed.

Lemma length_fragments name alias f : f ∈ fragments name alias → length f = 32%nat.
Proof.
  unfold fragments. destruct (fits alias name); [set_solver|].
  intros (i & -> & _)%list_elem_of_fmap. apply length_fragment_image, length_pad13.
  unfold chunk13. rewrite length_take. lia.
Qed.

(** The bytes one directory entry takes, as announced. *)
Lemma length_append_entry name alias attr cluster sz :
  length alias = 11%nat →
  zlen (concat (fragments name alias) ++ entry_image alias attr cluster sz)
    = entry_bytes_len name alias.
Proof.
  intros Ha. unfold zlen. rewrite length_app, length_entry_image by done.
  rewrite (length_concat_const 32) by (apply Forall_forall; intros; by eapply length_fragments).
  rewrite fragments_length_eq, entry_bytes_len_eq. destruct (fits alias name); lia.
Qed.

(** The bytes [append_entry] adds for a name are 32-byte records, as
    many as [entry_bytes_len] announced. The last one is the short entry: a
    driver reads the alias, attribute, first cluster and size back from it.
    When the alias is not the name itself, the records before it are the
    fragments of the long name: reassembled, they give its UTF-16 units (the
    first 520), each carries the checksum of the alias, and the first one on
    disk, the farthest from the short entry, has the last-fragment flag. *)
Theorem append_entry_correct buf name alias attr cluster sz :
  is_ustring name → Forall (λ c, c ≠ 0) name → length alias = NAME_LEN →
  is_u32 cluster → is_u32 sz →
  ∃ frags e,
    append_entry (E:=FatError) buf name alias attr cluster sz = Ok (buf ++ concat frags ++ e) ∧
    Forall (λ f, length f = 32%nat) (frags ++ [e]) ∧
    32 * (zlen frags + 1) = entry_bytes_len name alias ∧
    read_short e
      = {| se_name := alias; se_attr := attr; se_cluster := cluster; se_size := sz |} ∧
    (fits alias name = true → frags = []) ∧
    (fits alias name = false →
      read_long frags = take 520 (encode_utf16 name) ∧
      ∀ i f, frags !! i = Some f →
        f !! 0%nat = Some (Z.lor (if bool_decide (i = 0)%nat then LAST_FRAGMENT else 0)
                             (zlen frags - Z.of_nat i)) ∧
        f !! 11%nat = Some ATTR_LFN ∧ f !! 13%nat = Some (checksum alias)).
Proof.
  intros Hn Hz Ha Hc Hs. exists (fragments name alias), (entry_image alias attr cluster sz).
  assert (length (lfn_units name) ≤ 520)%nat as Hl
    by (unfold lfn_units, CHAR_LIMIT; rewrite length_take; lia).
  split_and!.
  - by apply append_entry_eq.
  - apply Forall_app; split; [apply Forall_forall; intros; by eapply length_fragments|].
    repeat constructor. by apply length_entry_image.
  - rewrite entry_bytes_len_eq. unfold zlen. rewrite fragments_length_eq.
    destruct (fits alias name); lia.
  - by apply read_entry_image.
  - unfold fragments. by intros ->.
  - intros Hfit. pose proof (fragments_length_eq name alias) as Hlen. rewrite Hfit in Hlen.
    unfold fragments in *. rewrite Hfit in *. set (t := total13 (lfn_units name)) in *. split.
    + unfold read_long. rewrite <-fmap_reverse, reverse_involutive, <-list_fmap_compose.
      rewrite (list_fmap_ext _ (λ i, pad13 (chunk13 (lfn_units name) i))); last first.
      { intros k i _. simpl. unfold fragment_at. destruct (chunk13_units name i Hn).
        by apply fragment_image_fields. }
      unfold t. rewrite chunks13_concat. apply until_nul_pad.
      apply Forall_take. by apply encode_utf16_nonzero.
    + intros i f Hf. unfold zlen. rewrite Hlen.
      apply list_lookup_fmap_Some in Hf as (k & -> & Hk).
      pose proof (lookup_lt_Some _ _ _ Hk) as Hi. rewrite length_reverse, length_seq in Hi.
      rewrite reverse_lookup in Hk by (by rewrite length_seq). rewrite length_seq in Hk.
      apply lookup_seq in Hk as [-> _]. unfold fragment_at. fold t.
      destruct (chunk13_units name (0 + (t - S i)) Hn) as [Hu Hp].
      destruct (fragment_image_fields
        (Z.lor (if bool_decide (0 + (t - S i) + 1 = t)%nat then LAST_FRAGMENT else 0)
          (Z.of_nat (0 + (t - S i)) + 1)) (checksum alias) _ Hp Hu) as (_ & H0 & H11 & H13 & _).
      rewrite H0, H11, H13. split_and!; try done. do 2 f_equal.
      * destruct (decide (i = 0)%nat);
          [rewrite !bool_decide_eq_true_2 by lia|rewrite !bool_decide_eq_false_2 by lia]; done.
      * lia.
Qed.
End properties.

Lemma append_entry_correct_witness :
  ∃ frags e,
    append_entry (H:=ascii_upper) (E:=FatError) [] (ustr "vmlinuz-6.12.1") (str_bytes "VMLINU~11  ")
      ATTR_ARCHIVE 0x12345 99 = Ok ([] ++ concat frags ++ e) ∧
    se_cluster (read_short e) = 0x12345 ∧
    read_long frags = encode_utf16 (ustr "vmlinuz-6.12.1") ∧ zlen frags = 2.
Proof.
  destruct (append_entry_correct (H:=ascii_upper) [] (ustr "vmlinuz-6.12.1")
    (str_bytes "VMLINU~11  ") ATTR_ARCHIVE 0x12345 99)
    as (frags & e & He & _ & Hlen & Hr & _ & Hlong).
  - apply (bool_decide_eq_true_1 (Forall is_char _)). vm_compute. reflexivity.
  - apply (bool_decide_eq_true_1 (Forall (λ c, c ≠ 0) _)). vm_compute. reflexivity.
  - reflexivity.
  - unfold is_uint; lia.
  - unfold is_uint; lia.
  - exists frags, e. split; [exact He|]. rewrite Hr. split; [reflexivity|].
    destruct Hlong as [Hl _]; [vm_compute; reflexivity|]. split; [exact Hl|].
    change (entry_bytes_len _ _) with 96 in Hlen. lia.
Defined.
