(* ===== verification/FatTree.v ===== *)
(** Directory tree of a file set (libs/fatfs/src/tree.rs).

    [collect] finds every directory of the paths, orders them by length, and
    groups files and subdirectories by parent. The theorem: for paths
    relative to the root, directory 0 is the root, the directories are
    exactly the ancestors of the files, each once, and every file and every
    other directory is listed once, under its parent, which comes before it. *)

From stdpp Require Import sorting.
From S2P Require Import Prelude Io Utf FatTypes.

Inductive Kind :=
| Directory (index : nat)
| File (index : nat).

Record DirIndex := {
  dirs : list ustring;
  files_by_dir : list (list nat);
  subdirs_by_dir : list (list nat);
  parent : list nat;
}.

Definition SLASH : Z := 47.
Definition rfind_slash (p : ustring) : option nat := rposition (λ c, c =? SLASH) p.

Definition name_of (p : ustring) : ustring :=
  match rfind_slash p with Some i => drop (i + 1) p | None => p end.
Definition parent_path (p : ustring) : ustring :=
  match rfind_slash p with Some i => take i p | None => [] end.

(** The loop of [register_ancestors]; every round shortens the path. *)
Fixpoint register_loop (fuel : nat) (remaining : ustring) (st : list ustring * gset ustring)
    : list ustring * gset ustring :=
  match fuel with
  | O => st
  | S fuel =>
      match rfind_slash remaining with
      | None => st
      | Some i =>
          let remaining := take i remaining in
          let st := if bool_decide (remaining ∈ st.2) then st
                    else (st.1 ++ [remaining], {[remaining]} ∪ st.2) in
          register_loop fuel remaining st
      end
  end.
Definition register_ancestors (p : ustring) (st : list ustring * gset ustring) :=
  register_loop (length p) p st.

(** The sort key of directories: the length of the path, then the path. *)
Definition dir_leb (a b : ustring) : bool :=
  match Nat.compare (length (utf8 a)) (length (utf8 b)) with
  | Lt => true
  | Gt => false
  | Eq => lex_leb (utf8 a) (utf8 b)
  end.
Definition dir_le (a b : ustring) : Prop := dir_leb a b = true.
#[global] Instance dir_le_dec a b : Decision (dir_le a b).
Proof. unfold dir_le. apply _. Defined.

(** [dirs.iter().enumerate().map(..).collect()] into a hash map. *)
Definition index_of (ds : list ustring) : gmap ustring nat :=
  foldl (λ m e, <[e.2 := e.1]> m) ∅ (imap pair ds).

Definition group_files (files : list FileMeta) (index : gmap ustring nat) (dir_count : nat)
    : list (list nat) :=
  foldl (λ grouped e, alter (λ bucket, bucket ++ [e.1])
            (default 0%nat (index !! parent_path (path e.2))) grouped)
    (replicate dir_count []) (imap pair files).

Definition link_child (index : gmap ustring nat) (st : list (list nat) * list nat)
    (e : nat * ustring) : list (list nat) * list nat :=
  let '(subdirs, parents) := st in
  let parent_index := default 0%nat (index !! parent_path e.2) in
  if bool_decide (parent_index = e.1) then st
  else (alter (λ bucket, bucket ++ [e.1]) parent_index subdirs, <[e.1 := parent_index]> parents).
Definition link_children (ds : list ustring) (index : gmap ustring nat)
    : list (list nat) * list nat :=
  foldl (link_child index) (replicate (length ds) [], replicate (length ds) 0%nat) (imap pair ds).

Definition collect (files : list FileMeta) : DirIndex :=
  let st := foldl (λ st f, register_ancestors (path f) st) ([[]], ∅) files in
  let ds := merge_sort dir_le st.1 in
  let index := index_of ds in
  let '(subdirs, parents) := link_children ds index in
  {| dirs := ds; files_by_dir := group_files files index (length ds);
     subdirs_by_dir := subdirs; parent := parents |}.

(** Accessors. *)
Definition tree_len (t : DirIndex) : nat := length (dirs t).
Definition tree_path (t : DirIndex) (d : nat) : ustring := default [] (dirs t !! d).
Definition parent_of (t : DirIndex) (d : nat) : nat := default 0%nat (parent t !! d).
Definition tree_files (t : DirIndex) (d : nat) : list nat := default [] (files_by_dir t !! d).
Definition tree_subdirs (t : DirIndex) (d : nat) : list nat := default [] (subdirs_by_dir t !! d).

Definition tree_entries (t : DirIndex) (files : list FileMeta) (d : nat) : list (ustring * Kind) :=
  ((λ child, (name_of (tree_path t child), Directory child)) <$> tree_subdirs t d) ++
  ((λ i, (match files !! i with Some f => name_of (path f) | None => [] end, File i))
     <$> tree_files t d).

(** ** Specification *)

(** [a] is a directory on the way to [p]. *)
Definition ancestor (a p : ustring) : Prop := ∃ rest, p = a ++ SLASH :: rest.

(** A path relative to the root. *)
Definition relative (p : ustring) : Prop := head p ≠ Some SLASH.

(** ** Lemmas: paths *)

Lemma rposition_Some {A} (f : A → bool) l i :
  rposition f l = Some i →
  ∃ l1 x l2, l = l1 ++ x :: l2 ∧ length l1 = i ∧ f x = true ∧ Forall (λ y, f y = false) l2.
Proof.
  revert i; induction l as [|a l IH]; intros i Hi; simpl in Hi; [done|].
  destruct (rposition f l) as [j|] eqn:Hj.
  - injection Hi as <-. destruct (IH j eq_refl) as (l1 & x & l2 & -> & <- & Hx & Hl2).
    by exists (a :: l1), x, l2.
  - destruct (f a) eqn:Ha; [|done]. injection Hi as <-. exists [], a, l. split_and!; try done.
    clear IH. induction l as [|b l IH]; [constructor|]. simpl in Hj.
    destruct (rposition f l); [done|]. destruct (f b) eqn:Hb; [done|]. constructor; auto.
Qed.

Lemma rposition_None {A} (f : A → bool) l :
  rposition f l = None → Forall (λ y, f y = false) l.
Proof.
  induction l as [|b l IH]; [constructor|]. simpl. intros Hj.
  destruct (rposition f l); [done|]. destruct (f b) eqn:Hb; [done|]. constructor; auto.
Qed.

Lemma rfind_slash_Some p i :
  rfind_slash p = Some i →
  ∃ name, p = take i p ++ SLASH :: name ∧ SLASH ∉ name ∧ (i < length p)%nat ∧ drop (i + 1) p = name.
Proof.
  intros (l1 & x & l2 & -> & <- & Hx & Hl2)%rposition_Some. apply Z.eqb_eq in Hx as ->.
  exists l2. rewrite take_app_length. split_and!; [done| | |].
  - intros Hin. rewrite Forall_forall in Hl2. specialize (Hl2 _ Hin). done.
  - rewrite length_app. simpl. lia.
  - by rewrite drop_app_add'.
Qed.

Lemma rfind_slash_None p : rfind_slash p = None → SLASH ∉ p.
Proof.
  intros Hn%rposition_None Hin. rewrite Forall_forall in Hn. by specialize (Hn _ Hin).
Qed.

Lemma ancestor_take p i a :
  rfind_slash p = Some i → ancestor a p ↔ a = take i p ∨ ancestor a (take i p).
Proof.
  intros (name & Hp & Hn & _)%rfind_slash_Some. set (d := take i p) in *. split.
  - intros (rest & Hr). rewrite Hp in Hr. apply app_eq_inv in Hr as [(k & Hd & Hk)|(k & Ha & Hk)].
    + destruct k as [|c k]; [left; by rewrite app_nil_r in Hd|].
      simplify_eq/=. right. by exists k.
    + destruct k as [|c k]; [left; by rewrite app_nil_r in Ha|].
      simplify_eq/=. destruct Hn. set_solver.
  - rewrite Hp. intros [->|(rest & ->)]; [by exists name|].
    exists (rest ++ SLASH :: name). by rewrite <-app_assoc.
Qed.

Lemma relative_ancestor a p : relative p → ancestor a p → a ≠ [] ∧ relative a.
Proof. intros Hp (rest & ->). destruct a; [done|]. split; [done|]. exact Hp. Qed.

(** ** Lemmas: collecting the directories *)

Definition registered (st : list ustring * gset ustring) : Prop :=
  NoDup st.1 ∧ [] ∈ st.1 ∧ ∀ a, a ∈ st.2 ↔ a ∈ st.1 ∧ a ≠ [].

Lemma register_loop_spec fuel p st :
  (length p ≤ fuel)%nat → relative p → registered st →
  registered (register_loop fuel p st) ∧
  ∀ a, a ∈ (register_loop fuel p st).1 ↔ a ∈ st.1 ∨ ancestor a p.
Proof.
  revert p st; induction fuel as [|fuel IH]; intros p st Hf Hrel Hst.
  { destruct p; [|simpl in Hf; lia]. split; [done|]. intros a. simpl.
    split; [by left|]. intros [?|([|??] & Hr)]; [done|..]; by destruct a. }
  cbn [register_loop]. destruct (rfind_slash p) as [i|] eqn:Hi; last first.
  { split; [done|]. intros a. split; [by left|]. intros [?|(rest & ->)]; [done|].
    apply rfind_slash_None in Hi. set_solver. }
  pose proof (rfind_slash_Some p i Hi) as (name & Hp & _ & Hlt & _).
  assert (ancestor (take i p) p) as Hanc by (exists name; exact Hp).
  destruct (relative_ancestor _ _ Hrel Hanc) as [Hne Hrel'].
  set (d := take i p) in *. destruct Hst as (Hnd & Hroot & Hprior).
  destruct (IH d (if bool_decide (d ∈ st.2) then st else (st.1 ++ [d], {[d]} ∪ st.2)))
    as [Hreg Hin]; [unfold d; rewrite length_take; lia|done| |].
  { case_bool_decide as Hd; [done|]. unfold registered; simpl.
    assert (d ∉ st.1) as Hd' by (intros ?; by apply Hd, Hprior).
    split_and!; [|set_solver|].
    - apply NoDup_app. split_and!; [done|set_solver|by apply NoDup_singleton].
    - intros a. rewrite elem_of_union, elem_of_app, Hprior. set_solver. }
  split; [done|]. intros a. rewrite Hin, (ancestor_take p i a Hi). fold d.
  case_bool_decide as Hd; [apply Hprior in Hd|]; set_solver.
Qed.

Lemma collect_dirs files :
  (∀ f, f ∈ files → relative (path f)) →
  let st := foldl (λ st f, register_ancestors (path f) st) ([[]], ∅) files in
  registered st ∧ ∀ a, a ∈ st.1 ↔ a = [] ∨ ∃ f, f ∈ files ∧ ancestor a (path f).
Proof.
  induction files as [|f files IH] using rev_ind; intros Hrel.
  { simpl. split; [|set_solver]. split_and!; simpl; [apply NoDup_singleton|set_solver|set_solver]. }
  rewrite foldl_app. destruct IH as [Hreg Hin]; [set_solver|]. simpl.
  destruct (register_loop_spec (length (path f)) (path f)
    (foldl (λ st f, register_ancestors (path f) st) ([[]], ∅) files)) as [Hreg' Hin'];
    [done|set_solver|done|].
  split; [done|]. intros a. rewrite Hin', Hin. set_solver.
Qed.

(** The order on directories is total and puts the root first. *)
#[global] Instance dir_le_total : Total dir_le.
Proof.
  intros a b. unfold dir_le, dir_leb. rewrite (Nat.compare_antisym (length (utf8 a))).
  destruct (Nat.compare (length (utf8 a)) (length (utf8 b))); simpl; auto.
  apply lex_leb_total.
Qed.

Lemma dir_le_length a b : dir_le a b → (length (utf8 a) ≤ length (utf8 b))%nat.
Proof.
  unfold dir_le, dir_leb.
  destruct (Nat.compare_spec (length (utf8 a)) (length (utf8 b))); intros; lia || done.
Qed.

Lemma length_utf8_app a b : length (utf8 (a ++ b)) = (length (utf8 a) + length (utf8 b))%nat.
Proof. unfold utf8. by rewrite bind_app, length_app. Qed.

Lemma length_encode_utf8 c : (1 ≤ length (encode_utf8 c))%nat.
Proof. unfold encode_utf8. repeat case_match; simpl; lia. Qed.

Lemma utf8_nil a : length (utf8 a) = 0%nat → a = [].
Proof.
  destruct a as [|c a]; [done|]. change (c :: a) with ([c] ++ a). rewrite length_utf8_app.
  unfold utf8 at 1; simpl. rewrite app_nil_r. pose proof (length_encode_utf8 c). lia.
Qed.

Lemma sorted_root ds :
  [] ∈ ds → Sorted dir_le ds → head ds = Some [].
Proof.
  intros Hin Hs. destruct ds as [|d ds]; [set_solver|]. simpl. f_equal. apply utf8_nil.
  assert (Sorted (λ a b, (length (utf8 a) ≤ length (utf8 b))%nat) (d :: ds)) as Hs'.
  { clear Hin. induction Hs as [|? ? ? ? Hd]; constructor; [done|].
    inversion Hd; constructor. by apply dir_le_length. }
  apply Sorted_StronglySorted in Hs'; [|intros a b c; apply Nat.le_trans].
  apply elem_of_cons in Hin as [<-|Hin]; [done|].
  apply StronglySorted_inv in Hs' as [_ Hall]. rewrite Forall_forall in Hall.
  specialize (Hall _ Hin). unfold utf8 in Hall at 2. simpl in Hall. lia.
Qed.

(** ** Lemmas: index, buckets and parents *)

Lemma index_of_lookup ds d i :
  NoDup ds → index_of ds !! d = Some i ↔ ds !! i = Some d.
Proof.
  intros Hnd. unfold index_of. revert d i. induction ds as [|x ds IH] using rev_ind; intros d i.
  { simpl. rewrite lookup_empty. done. }
  apply NoDup_app in Hnd as (Hnd & Hx & _). rewrite imap_app, foldl_app. simpl.
  rewrite Nat.add_0_r. destruct (decide (d = x)) as [->|Hne].
  - rewrite lookup_insert_eq. split.
    + intros [= <-]. by rewrite lookup_app_r, Nat.sub_diag by lia.
    + intros Hi. destruct (decide (i < length ds)%nat).
      * rewrite lookup_app_l in Hi by done. apply list_elem_of_lookup_2 in Hi. set_solver.
      * rewrite lookup_app_r in Hi by lia. apply list_lookup_singleton_Some in Hi as [? _].
        f_equal. lia.
  - rewrite lookup_insert_ne by done. rewrite IH by done. split.
    + intros Hi. by apply lookup_app_l_Some.
    + intros [?|(_ & Hi)]%lookup_app_Some; [done|].
      apply list_lookup_singleton_Some in Hi as [_ ?]. done.
Qed.

Lemma filter_ext_elem {A} (P Q : A → Prop) `{!∀ x, Decision (P x)} `{!∀ x, Decision (Q x)} (l : list A) :
  (∀ x, x ∈ l → P x ↔ Q x) → filter P l = filter Q l.
Proof.
  induction l as [|x l IH]; intros Hpq; [done|].
  assert (filter P l = filter Q l) as Hl by (apply IH; set_solver).
  destruct (decide (P x)) as [Hp|Hp].
  - assert (Q x) by (apply Hpq; [set_solver|done]). by rewrite !filter_cons_True, Hl.
  - assert (¬ Q x) by (rewrite <-Hpq by set_solver; done). by rewrite !filter_cons_False.
Qed.

(** Indices [i] of [keys] put, in order, into bucket [keys !! i]; those
    without a key are skipped. *)
Definition bucket_step (buckets : list (list nat)) (e : nat * option nat) : list (list nat) :=
  match e.2 with Some k => alter (λ b, b ++ [e.1]) k buckets | None => buckets end.

Lemma buckets_lookup n keys d :
  (d < n)%nat →
  foldl bucket_step (replicate n []) (imap pair keys) !! d
    = Some (filter (λ i, keys !! i = Some (Some d)) (seq 0 (length keys))).
Proof.
  intros Hd. induction keys as [|k keys IH] using rev_ind.
  { by apply lookup_replicate_2. }
  rewrite imap_app, foldl_app, length_app, seq_app, filter_app. simpl. rewrite Nat.add_0_r.
  assert (filter (λ i, (keys ++ [k]) !! i = Some (Some d)) (seq 0 (length keys))
    = filter (λ i, keys !! i = Some (Some d)) (seq 0 (length keys))) as ->.
  { apply filter_ext_elem. intros i Hi%elem_of_seq. by rewrite lookup_app_l by lia. }
  unfold bucket_step at 1; simpl.
  assert ((keys ++ [k]) !! length keys = Some k) as Hlast by (by rewrite lookup_app_r, Nat.sub_diag).
  destruct (decide (k = Some d)) as [->|Hne].
  - rewrite filter_cons_True by done. rewrite filter_nil. rewrite list_lookup_alter_eq, IH. done.
  - rewrite filter_cons_False by (rewrite Hlast; naive_solver). rewrite filter_nil, app_nil_r.
    destruct k as [k|]; [|done]. rewrite list_lookup_alter_ne by naive_solver. done.
Qed.

(** The bucket loops of [group_files] and [link_children]. *)
Lemma group_files_eq files index n :
  group_files files index n =
    foldl bucket_step (replicate n [])
      (imap pair ((λ f, Some (default 0%nat (index !! parent_path (path f)))) <$> files)).
Proof.
  unfold group_files. induction files as [|f files IH] using rev_ind; [done|].
  rewrite fmap_app, !imap_app, !foldl_app, IH. simpl. by rewrite length_fmap.
Qed.

Definition child_key (index : gmap ustring nat) (i : nat) (d : ustring) : option nat :=
  let p := default 0%nat (index !! parent_path d) in if bool_decide (p = i) then None else Some p.

Lemma link_children_eq ds index :
  link_children ds index =
    (foldl bucket_step (replicate (length ds) []) (imap pair (imap (child_key index) ds)),
     imap (λ i d, default 0%nat (child_key index i d)) ds).
Proof.
  unfold link_children.
  assert (∀ (g : list (list nat)) n, (length ds ≤ n)%nat →
    foldl (link_child index) (g, replicate n 0%nat) (imap pair ds) =
    (foldl bucket_step g (imap pair (imap (child_key index) ds)),
     imap (λ i d, default 0%nat (child_key index i d)) ds ++ replicate (n - length ds) 0%nat))
    as Hgen.
  { induction ds as [|d ds IH] using rev_ind; intros g n Hn.
    { simpl. by rewrite Nat.sub_0_r. }
    rewrite length_app in *. simpl in Hn |- *. rewrite !imap_app, !foldl_app, IH by lia. simpl.
    rewrite length_imap, !Nat.add_0_r, <-app_assoc.
    replace (n - length ds)%nat with (S (n - (length ds + 1))) by lia. cbn [replicate app].
    assert (child_key index (length ds) d =
      if bool_decide (default 0%nat (index !! parent_path d) = length ds) then None
      else Some (default 0%nat (index !! parent_path d))) as -> by done.
    case_bool_decide as Hp; [done|]. apply (f_equal2 pair); [done|].
    pose proof (insert_app_r (imap (λ i d0, default 0%nat (child_key index i d0)) ds)
      (0%nat :: replicate (n - (length ds + 1)) 0%nat) 0 (default 0%nat (index !! parent_path d)))
      as Hins. rewrite length_imap, Nat.add_0_r in Hins. exact Hins. }
  rewrite Hgen by done. by rewrite Nat.sub_diag, app_nil_r.
Qed.

(** ** Property *)

Lemma sorted_lookup_length ds i j a b :
  Sorted dir_le ds → ds !! i = Some a → ds !! j = Some b → (i ≤ j)%nat →
  (length (utf8 a) ≤ length (utf8 b))%nat.
Proof.
  intros Hs. assert (Sorted (λ a b, (length (utf8 a) ≤ length (utf8 b))%nat) ds) as Hs'.
  { induction Hs as [|? ? ? ? Hd]; constructor; [done|].
    inversion Hd; constructor. by apply dir_le_length. }
  apply Sorted_StronglySorted in Hs'; [|intros x y z; apply Nat.le_trans]. clear Hs.
  revert i j. induction Hs' as [|x ds _ IH Hall]; intros i j Hi Hj Hij; [done|].
  rewrite Forall_forall in Hall. destruct i as [|i]; simpl in Hi.
  - injection Hi as ->. destruct j as [|j]; simpl in Hj; [by injection Hj as ->|].
    apply Hall. by eapply list_elem_of_lookup_2.
  - destruct j as [|j]; [lia|]. apply (IH i j); [done|done|lia].
Qed.

Section collect.
Context (files : list FileMeta) (Hrel : ∀ f, f ∈ files → relative (path f)).
Let t := collect files.

Lemma collect_eq :
  dirs t = merge_sort dir_le (foldl (λ st f, register_ancestors (path f) st) ([[]], ∅) files).1 ∧
  files_by_dir t = group_files files (index_of (dirs t)) (length (dirs t)) ∧
  (subdirs_by_dir t, parent t) = link_children (dirs t) (index_of (dirs t)).
Proof.
  unfold t, collect. destruct (link_children _ _) as [sd ps] eqn:Hl.
  cbn [dirs files_by_dir subdirs_by_dir parent]. by rewrite Hl.
Qed.

Lemma dirs_spec :
  NoDup (dirs t) ∧ Sorted dir_le (dirs t) ∧ dirs t !! 0%nat = Some [] ∧
  ∀ a, a ∈ dirs t ↔ a = [] ∨ ∃ f, f ∈ files ∧ ancestor a (path f).
Proof using Hrel.
  destruct (collect_dirs files Hrel) as [(Hnd & Hroot & _) Hin].
  destruct collect_eq as (Hd & _ & _). set (st := foldl _ _ _) in *.
  pose proof (merge_sort_Permutation dir_le st.1) as Hp. rewrite <-Hd in Hp.
  assert (Sorted dir_le (dirs t)) as Hs by (rewrite Hd; apply Sorted_merge_sort, _).
  split_and!.
  - by rewrite Hp.
  - done.
  - rewrite <-head_lookup. apply sorted_root; [by rewrite Hp|done].
  - intros a. by rewrite Hp.
Qed.

Lemma parent_in_dirs p : p ∈ dirs t → parent_path p ∈ dirs t.
Proof using Hrel.
  destruct dirs_spec as (_ & _ & _ & Hin). rewrite !Hin. unfold parent_path.
  intros Hp. destruct (rfind_slash p) as [i|] eqn:Hi; [|by left].
  destruct (rfind_slash_Some p i Hi) as (name & Hpe & _).
  destruct Hp as [->|(f & Hf & rest & Hr)]; [by apply rfind_slash_Some in Hi as (? & ? & _ & ? & _); simpl in *; lia|].
  right. exists f. split; [done|]. exists (name ++ SLASH :: rest). rewrite Hr, Hpe at 1.
  by rewrite <-app_assoc.
Qed.

Lemma parent_path_shorter p : p ≠ [] → (length (utf8 (parent_path p)) < length (utf8 p))%nat.
Proof.
  intros Hp. unfold parent_path. destruct (rfind_slash p) as [i|] eqn:Hi.
  - destruct (rfind_slash_Some p i Hi) as (name & Hpe & _). rewrite Hpe at 2.
    rewrite length_utf8_app. change (SLASH :: name) with ([SLASH] ++ name).
    rewrite length_utf8_app. assert (length (utf8 [SLASH]) = 1%nat) as -> by done. lia.
  - destruct (length (utf8 p)) eqn:Hl; [by apply utf8_nil in Hl|]. simpl. lia.
Qed.

(** The parent's index: the root's own for the root, a smaller one else. *)
Lemma parent_index d p :
  dirs t !! d = Some p →
  ∃ q, index_of (dirs t) !! parent_path p = Some q ∧ dirs t !! q = Some (parent_path p) ∧
       (d = 0%nat → q = 0%nat) ∧ ((0 < d)%nat → (q < d)%nat).
Proof using Hrel.
  intros Hd. destruct dirs_spec as (Hnd & Hs & Hroot & _).
  assert (p ∈ dirs t) as Hp by by eapply list_elem_of_lookup_2.
  apply parent_in_dirs in Hp. apply list_elem_of_lookup in Hp as [q Hq]. exists q.
  split_and!; [by apply index_of_lookup|done| |].
  - intros ->. rewrite Hroot in Hd. injection Hd as <-. by eapply (NoDup_lookup (dirs t)).
  - intros Hpos. assert (p ≠ []) as Hne.
    { intros ->. assert (d = 0%nat); [by eapply (NoDup_lookup (dirs t))|lia]. }
    apply parent_path_shorter in Hne. destruct (decide (q < d)%nat); [done|].
    pose proof (sorted_lookup_length (dirs t) d q p _ Hs Hd Hq ltac:(lia)). lia.
Qed.
Lemma parent_of_spec d p :
  dirs t !! d = Some p →
  dirs t !! parent_of t d = Some (parent_path p) ∧ ((0 < d)%nat → (parent_of t d < d)%nat) ∧
  child_key (index_of (dirs t)) d p = (if bool_decide (d = 0%nat) then None else Some (parent_of t d)).
Proof using Hrel.
  intros Hd. destruct (parent_index d p Hd) as (q & Hq & Hqd & H0 & Hpos).
  destruct collect_eq as (_ & _ & Hl). rewrite link_children_eq in Hl. injection Hl as _ Hpar.
  assert (child_key (index_of (dirs t)) d p = if bool_decide (d = 0%nat) then None else Some q)
    as Hkey.
  { unfold child_key. rewrite Hq. simpl. destruct (decide (d = 0)%nat) as [Hz|Hz].
    - rewrite !bool_decide_eq_true_2 by auto with lia. done.
    - rewrite !bool_decide_eq_false_2 by lia. done. }
  assert (parent_of t d = q) as Hpo.
  { unfold parent_of. rewrite Hpar, list_lookup_imap, Hd. simpl. rewrite Hkey.
    case_bool_decide; simpl; [symmetry; auto|done]. }
  rewrite Hpo. done.
Qed.

Lemma subdirs_spec d c :
  (d < tree_len t)%nat →
  NoDup (tree_subdirs t d) ∧
  (c ∈ tree_subdirs t d ↔ (0 < c < tree_len t)%nat ∧ parent_of t c = d).
Proof using Hrel.
  intros Hd. destruct collect_eq as (_ & _ & Hl). rewrite link_children_eq in Hl.
  injection Hl as Hsub _. unfold tree_subdirs. rewrite Hsub, buckets_lookup by exact Hd.
  simpl. split; [apply NoDup_filter, NoDup_seq|].
  rewrite list_elem_of_filter, elem_of_seq, length_imap, list_lookup_imap.
  fold (tree_len t). destruct (dirs t !! c) as [p|] eqn:Hc; simpl.
  - pose proof (lookup_lt_Some _ _ _ Hc). fold (tree_len t) in *.
    destruct (parent_of_spec c p Hc) as (_ & _ & ->).
    case_bool_decide; split; intros; naive_solver lia.
  - apply lookup_ge_None in Hc. fold (tree_len t) in Hc. naive_solver lia.
Qed.

Lemma files_spec d i :
  (d < tree_len t)%nat →
  NoDup (tree_files t d) ∧
  (i ∈ tree_files t d ↔
    ∃ f, files !! i = Some f ∧ dirs t !! d = Some (parent_path (path f))).
Proof using Hrel.
  intros Hd. destruct collect_eq as (_ & Hf & _). destruct dirs_spec as (Hnd & _ & Hroot & Hin).
  unfold tree_files. rewrite Hf, group_files_eq, buckets_lookup by exact Hd.
  simpl. split; [apply NoDup_filter, NoDup_seq|].
  rewrite list_elem_of_filter, elem_of_seq, length_fmap, list_lookup_fmap.
  destruct (files !! i) as [f|] eqn:Hi; simpl.
  - pose proof (lookup_lt_Some _ _ _ Hi).
    assert (parent_path (path f) ∈ dirs t) as Hp.
    { rewrite Hin. unfold parent_path. destruct (rfind_slash (path f)) as [k|] eqn:Hk; [|by left].
      right. exists f. split; [by eapply list_elem_of_lookup_2|].
      destruct (rfind_slash_Some _ _ Hk) as (name & Hpe & _). by exists name. }
    apply list_elem_of_lookup in Hp as [q Hq].
    rewrite (proj2 (index_of_lookup (dirs t) _ q Hnd) Hq). simpl. split.
    + intros [[= ->] _]. by exists f.
    + intros (f' & [= <-] & Hd'). split; [|lia]. do 2 f_equal. by eapply (NoDup_lookup (dirs t)).
  - split; [intros [? _]; done|]. intros (f & ? & _). done.
Qed.
End collect.

Lemma length_bucket n keys d :
  (length (default [] (foldl bucket_step (replicate n []) (imap pair keys) !! d)) ≤ length keys)%nat.
Proof.
  destruct (decide (d < n)%nat) as [Hd|Hd].
  - rewrite buckets_lookup by done. simpl. etrans; [apply length_filter|]. by rewrite length_seq.
  - rewrite lookup_ge_None_2; [simpl; lia|].
    assert (∀ g, length (foldl bucket_step g (imap pair keys)) = length g) as ->.
    { induction keys as [|k keys IH] using rev_ind; intros g; [done|].
      rewrite imap_app, foldl_app. simpl. unfold bucket_step at 1. simpl.
      destruct k; rewrite ?length_alter; apply IH. }
    rewrite length_replicate. lia.
Qed.

(** A directory has at most as many entries as there are directories and
    files. *)
Lemma length_tree_entries files d :
  zlen (tree_entries (collect files) files d)
    ≤ Z.of_nat (tree_len (collect files)) + zlen files.
Proof.
  destruct (collect_eq files) as (_ & Hf & Hl). rewrite link_children_eq in Hl.
  injection Hl as Hs _. unfold tree_entries, tree_subdirs, tree_files, zlen.
  rewrite length_app, !length_fmap, Hs, Hf, group_files_eq.
  pose proof (length_bucket (length (dirs (collect files)))
    (imap (child_key (index_of (dirs (collect files)))) (dirs (collect files))) d) as H1.
  pose proof (length_bucket (length (dirs (collect files)))
    ((λ f, Some (default 0%nat (index_of (dirs (collect files)) !! parent_path (path f)))) <$> files)
    d) as H2.
  rewrite length_imap in H1. rewrite length_fmap in H2. unfold tree_len. lia.
Qed.

(** The index built from relative paths is the directory tree of the
    files: directory 0 is the root; the directories are the root and the
    ancestors of the files, each once; the parent of any other directory is
    the directory of its path without the last component and has a smaller
    index; a directory lists as subdirectories exactly the directories whose
    parent it is, and as files exactly the files it contains, each once. *)
Theorem tree_index_correct files :
  (∀ f, f ∈ files → relative (path f)) →
  let t := collect files in
  dirs t !! 0%nat = Some [] ∧ NoDup (dirs t) ∧
  (∀ a, a ∈ dirs t ↔ a = [] ∨ ∃ f, f ∈ files ∧ ancestor a (path f)) ∧
  (∀ d p, dirs t !! d = Some p → (0 < d)%nat →
     (parent_of t d < d)%nat ∧ dirs t !! parent_of t d = Some (parent_path p)) ∧
  (∀ d c, (d < tree_len t)%nat → NoDup (tree_subdirs t d) ∧
     (c ∈ tree_subdirs t d ↔ (0 < c < tree_len t)%nat ∧ parent_of t c = d)) ∧
  (∀ d i, (d < tree_len t)%nat → NoDup (tree_files t d) ∧
     (i ∈ tree_files t d ↔
       ∃ f, files !! i = Some f ∧ dirs t !! d = Some (parent_path (path f)))).
Proof.
  intros Hrel t. destruct (dirs_spec files Hrel) as (Hnd & _ & Hroot & Hin).
  split_and!; [done..| | |].
  - intros d p Hd Hpos. destruct (parent_of_spec files Hrel d p Hd) as (? & ? & _). auto.
  - intros. by apply subdirs_spec.
  - intros. by apply files_spec.
Qed.

Definition sample_tree_files : list FileMeta :=
  [{| path := ustr "EFI/BOOT/BOOTX64.EFI"; size := 1300 |}; {| path := ustr "loader.conf"; size := 5 |};
   {| path := ustr "EFI/Linux/muak.efi"; size := 512 |}].

Lemma tree_index_correct_witness :
  dirs (collect sample_tree_files) = [[]; ustr "EFI"; ustr "EFI/BOOT"; ustr "EFI/Linux"] ∧
  parent_of (collect sample_tree_files) 3 = 1%nat ∧
  (∀ c, c ∈ tree_subdirs (collect sample_tree_files) 1 ↔
        (0 < c < 4)%nat ∧ parent_of (collect sample_tree_files) c = 1%nat).
Proof.
  destruct (tree_index_correct sample_tree_files) as (_ & _ & _ & _ & Hsub & _).
  - apply Forall_forall. repeat constructor; discriminate.
  - split; [vm_compute; reflexivity|]. split; [vm_compute; reflexivity|].
    intros c. apply (Hsub 1%nat c). vm_compute. lia.
Defined.
