(* ===== verification/FatDir.v ===== *)
(** Directory data (libs/fatfs/src/dir.rs).

    [sizes] predicts the bytes of every directory before clusters are
    assigned, [build_data] produces them afterwards; the theorem says that the
    prediction is exact and what the entries of a directory contain. *)

From stdpp Require Import sorting.
From S2P Require Import Prelude Io Utf FatTypes FatShort FatEntry FatTree.

Definition ROOT_DIR_INDEX : nat := 0.

Definition parent_cluster (tree : DirIndex) (map : ClusterMap) (d : nat) : Z :=
  let parent := parent_of tree d in
  if bool_decide (parent = ROOT_DIR_INDEX) then 0
  else default ROOT_CLUSTER (dir_starts map !! parent).

(** Attribute, first cluster and size of an entry. *)
Definition entry_fields (files : list FileMeta) (map : ClusterMap) (k : Kind) : Z * Z * Z :=
  match k with
  | Directory index => (ATTR_DIRECTORY, default ROOT_CLUSTER (dir_starts map !! index), 0)
  | File index =>
      (ATTR_ARCHIVE, default ROOT_CLUSTER (file_starts map !! index),
       default (uint_max 32)
         (try_from 32 (match files !! index with Some f => size f | None => 0 end)))
  end.

(** [write_zeros]: whole buffers of 8192 bytes and a rest. *)
Definition ZERO_BUF : Z := 8192.
Fixpoint write_zeros_fuel `{Write W} (fuel : nat) (writer : W) (rem : Z) : res FatError W :=
  if rem <=? 0 then Ok writer
  else match fuel with
  | O => Panic
  | S fuel =>
      let chunk := Z.min rem ZERO_BUF in
      writer ← from_io (write_all writer (zeros (Z.to_nat chunk)));
      write_zeros_fuel fuel writer (saturating_sub rem chunk)
  end.
Definition write_zeros `{Write W} (writer : W) (count : Z) : res FatError W :=
  write_zeros_fuel (Z.to_nat (div_ceil count ZERO_BUF)) writer count.

Section dir.
Context `{Uppercase}.

Definition size_of {E} (prof : profile) (tree : DirIndex) (files : list FileMeta)
    (aliases : list (list (list Z))) (d : nat) : res E Z :=
  let shorts := default [] (aliases !! d) in
  entries ← sum_u64 prof
    ((λ e, entry_bytes_len (fst (fst e)) (snd e)) <$> zip (tree_entries tree files d) shorts);
  let header :=
    if bool_decide (d = ROOT_DIR_INDEX) then ENTRY_LEN else saturating_mul 64 ENTRY_LEN 2 in
  Ok (saturating_add 64 header entries).

Definition sizes {E} (prof : profile) (tree : DirIndex) (files : list FileMeta)
    (aliases : list (list (list Z))) : res E (list Z) :=
  mapM_res (size_of prof tree files aliases) (seq 0 (tree_len tree)).

Definition add_entry {E} (files : list FileMeta) (map : ClusterMap) (data : list Z)
    (e : (ustring * Kind) * list Z) : res E (list Z) :=
  let '(attr, cluster, sz) := entry_fields files map (snd (fst e)) in
  append_entry data (fst (fst e)) (snd e) attr cluster sz.

Definition build_data {E} (files : list FileMeta) (tree : DirIndex) (map : ClusterMap)
    (aliases : list (list (list Z))) (d : nat) : res E (list Z) :=
  let own := default ROOT_CLUSTER (dir_starts map !! d) in
  let parent := parent_cluster tree map d in
  header ← (if bool_decide (d = ROOT_DIR_INDEX) then label_entry VOLUME_LABEL
            else dot_entries own parent);
  let shorts := default [] (aliases !! d) in
  foldM (add_entry files map) ([] ++ header) (zip (tree_entries tree files d) shorts).
End dir.

(** ** Lemmas *)

Section write_zeros.
Context `{WriteLaws W}.

Lemma write_zeros_fuel_written fuel (w w' : W) rem :
  write_zeros_fuel fuel w rem = Ok w' → written w' = written w ++ zeros (Z.to_nat rem).
Proof.
  revert w rem; induction fuel as [|fuel IH]; intros w rem Hw; cbn [write_zeros_fuel] in Hw;
    destruct (Z.leb_spec rem 0) as [Hr|Hr].
  - injection Hw as <-. replace (Z.to_nat rem) with 0%nat by lia. by rewrite app_nil_r.
  - done.
  - injection Hw as <-. replace (Z.to_nat rem) with 0%nat by lia. by rewrite app_nil_r.
  - unfold from_io in Hw. inv_ok. apply write_all_written in Hv. apply IH in Hw.
    rewrite Hw, Hv, <-app_assoc. f_equal. unfold zeros. rewrite <-replicate_add. f_equal.
    unfold ZERO_BUF, saturating_sub in *. lia.
Qed.

Lemma write_zeros_written (w w' : W) count :
  write_zeros w count = Ok w' → written w' = written w ++ zeros (Z.to_nat count).
Proof. apply write_zeros_fuel_written. Qed.
End write_zeros.

Section lemmas.
Context `{Uppercase}.

(** The bytes of one entry. *)
Definition entry_bytes (files : list FileMeta) (map : ClusterMap) (e : (ustring * Kind) * list Z)
    : list Z :=
  let '(attr, cluster, sz) := entry_fields files map (snd (fst e)) in
  concat (fragments (fst (fst e)) (snd e)) ++ entry_image (snd e) attr cluster sz.

Definition header_bytes (tree : DirIndex) (map : ClusterMap) (d : nat) : list Z :=
  if bool_decide (d = ROOT_DIR_INDEX) then entry_image VOLUME_LABEL ATTR_VOLUME_ID 0 0
  else entry_image (dotted [46]) ATTR_DIRECTORY (default ROOT_CLUSTER (dir_starts map !! d)) 0 ++
       entry_image (dotted [46; 46]) ATTR_DIRECTORY (parent_cluster tree map d) 0.

Definition dir_image (files : list FileMeta) (tree : DirIndex) (map : ClusterMap)
    (aliases : list (list (list Z))) (d : nat) : list Z :=
  header_bytes tree map d ++
  concat (entry_bytes files map <$> zip (tree_entries tree files d) (default [] (aliases !! d))).

Definition aliases_ok (aliases : list (list (list Z))) : Prop :=
  ∀ d as_ a, aliases !! d = Some as_ → a ∈ as_ → length a = NAME_LEN.

Lemma dot_entries_eq {E} me par :
  dot_entries (E:=E) me par =
    Ok (entry_image (dotted [46]) ATTR_DIRECTORY me 0 ++
        entry_image (dotted [46; 46]) ATTR_DIRECTORY par 0).
Proof. reflexivity. Qed.

Lemma add_entry_eq {E} files map data e :
  length (snd e) = NAME_LEN →
  add_entry (E:=E) files map data e = Ok (data ++ entry_bytes files map e).
Proof.
  intros He. unfold add_entry, entry_bytes.
  destruct (entry_fields files map e.1.2) as [[attr cl] sz]. by apply append_entry_eq.
Qed.

Lemma foldM_add_entry {E} files map data es :
  (∀ e, e ∈ es → length (snd e) = NAME_LEN) →
  foldM (add_entry (E:=E) files map) data es = Ok (data ++ concat (entry_bytes files map <$> es)).
Proof.
  revert data; induction es as [|e es IH]; intros data Hes; simpl; [by rewrite app_nil_r|].
  rewrite add_entry_eq, bind_ret by (apply Hes; set_solver).
  rewrite IH by (intros; apply Hes; set_solver). by rewrite <-!app_assoc.
Qed.

Lemma zip_aliases_ok aliases d (l : list (ustring * Kind)) e :
  aliases_ok aliases → e ∈ zip l (default [] (aliases !! d)) → length (snd e) = NAME_LEN.
Proof.
  intros Ha He. destruct e as [x a]. apply list_elem_of_lookup in He as [i Hi].
  apply lookup_zip_with_Some in Hi as (x' & a' & [= <- <-] & _ & Hi).
  apply list_elem_of_lookup_2 in Hi. destruct (aliases !! d) as [as_|] eqn:Hd; simpl in Hi;
    [by eapply Ha|set_solver].
Qed.

Lemma build_data_eq {E} files tree map aliases d :
  aliases_ok aliases →
  build_data (E:=E) files tree map aliases d = Ok (dir_image files tree map aliases d).
Proof.
  intros Ha. unfold build_data.
  assert ((if bool_decide (d = ROOT_DIR_INDEX) then label_entry VOLUME_LABEL
           else dot_entries (E:=E) (default ROOT_CLUSTER (dir_starts map !! d))
                  (parent_cluster tree map d)) = Ok (header_bytes tree map d)) as ->.
  { unfold header_bytes. case_bool_decide; [reflexivity|apply dot_entries_eq]. }
  rewrite bind_ret, app_nil_l. apply foldM_add_entry. intros e. by apply zip_aliases_ok.
Qed.

Lemma length_header_bytes tree map d :
  zlen (header_bytes tree map d) = if bool_decide (d = ROOT_DIR_INDEX) then 32 else 64.
Proof. unfold header_bytes, zlen. by case_bool_decide. Qed.

Lemma length_entry_bytes files map e :
  length (snd e) = NAME_LEN →
  zlen (entry_bytes files map e) = entry_bytes_len (fst (fst e)) (snd e).
Proof.
  intros Ha. unfold entry_bytes. destruct (entry_fields files map e.1.2) as [[attr cl] sz].
  by apply length_append_entry.
Qed.

Lemma length_entries files map es :
  (∀ e, e ∈ es → length (snd e) = NAME_LEN) →
  zlen (concat (entry_bytes files map <$> es)) =
    sum_list ((λ e, entry_bytes_len (fst (fst e)) (snd e)) <$> es).
Proof.
  induction es as [|e es IH]; intros Hes; [done|]. cbn [fmap list_fmap concat].
  change (sum_list ?x) with (sum_list x). unfold zlen. rewrite length_app.
  pose proof (length_entry_bytes files map e ltac:(apply Hes; set_solver)) as He.
  specialize (IH ltac:(intros; apply Hes; set_solver)). unfold zlen, sum_list in *. simpl. lia.
Qed.

Lemma entry_bytes_len_range name alias : 32 ≤ entry_bytes_len name alias ≤ 32 * 41.
Proof.
  rewrite entry_bytes_len_eq. destruct (fragment_count_eq name) as [<- ?].
  destruct (fits alias name); lia.
Qed.

Lemma sum_entry_bytes (es : list ((ustring * Kind) * list Z)) :
  0 ≤ sum_list ((λ e, entry_bytes_len (fst (fst e)) (snd e)) <$> es) ≤ 32 * 41 * zlen es.
Proof.
  induction es as [|e es IH]; [done|]. cbn [fmap list_fmap]. unfold zlen, sum_list in *. simpl.
  pose proof (entry_bytes_len_range e.1.1 e.2). lia.
Qed.

(** The prediction, when the sum of the entries stays in range. *)
Lemma size_of_eq {E} prof tree files map aliases d :
  aliases_ok aliases → zlen (tree_entries tree files d) < 2 ^ 48 →
  size_of (E:=E) prof tree files aliases d = Ok (zlen (dir_image files tree map aliases d)).
Proof.
  intros Ha Hn. unfold size_of, dir_image.
  set (es := zip (tree_entries tree files d) (default [] (aliases !! d))).
  assert (zlen es ≤ zlen (tree_entries tree files d)) as Hle.
  { unfold es, zlen. rewrite length_zip_with. lia. }
  pose proof (sum_entry_bytes es) as Hs.
  rewrite sum_u64_ok by (unfold uint_max; lia). rewrite bind_ret. f_equal.
  unfold zlen at 1. rewrite length_app, Nat2Z.inj_add.
  fold (zlen (header_bytes tree map d)) (zlen (concat (entry_bytes files map <$> es))).
  rewrite length_header_bytes, length_entries by (intros e; by apply zip_aliases_ok).
  unfold ENTRY_LEN. case_bool_decide; ulia.
Qed.
End lemmas.
