(* ===== verification/FatBuild.v ===== *)
(** The FAT image builder (libs/fatfs/src/builder/mod.rs, builder/write.rs).

    [precompute] lays a file set out, [build] streams metadata and file
    contents. The theorem locates every part of the image: reserved region,
    both FAT copies, every directory and every file at its first cluster. *)

From stdpp Require Import sorting.
From S2P Require Import Prelude Io Utf FatTypes FatLayout FatBoot FatClusters.
From S2P Require Import FatShort FatEntry FatTree FatDir.

Record Precomputed := {
  layout : FatLayout;
  tree : DirIndex;
  cluster_map : ClusterMap;
  fat_bytes : list Z;
  dir_data : list (list Z);
  fs_info : FsInfo;
  image_size : Z;
}.

Section precompute.
Context `{Uppercase}.

Definition assign_aliases (t : DirIndex) (files : list FileMeta)
    : res FatError (list (list (list Z))) :=
  mapM_res (λ d, assign_names ∅ (fst <$> tree_entries t files d)) (seq 0 (tree_len t)).

Definition precompute (prof : profile) (files : list FileMeta) (img_size : Z)
    : res FatError Precomputed :=
  layout ← compute prof img_size;
  let tree := collect files in
  aliases ← assign_aliases tree files;
  dir_sizes ← sizes prof tree files aliases;
  map ← assign_clusters files layout dir_sizes;
  let fat := make_fat map layout in
  dir_data ← mapM_res (build_data files tree map aliases) (seq 0 (tree_len tree));
  info ← from_map prof map layout;
  Ok {| layout := layout; tree := tree; cluster_map := map; fat_bytes := fat;
        dir_data := dir_data; fs_info := info; image_size := img_size |}.
End precompute.

(** ** Streaming writers *)

(** [CountWriter]: forwards to the inner writer and counts the bytes. *)
Record CountWriter (W : Type) := { inner : W; count : Z }.
Arguments inner {W}.
Arguments count {W}.
#[global] Instance count_write `{Write W} : Write (CountWriter W) := fun w buf =>
  '(n, w') ← write (inner w) buf;
  Ok (n, {| inner := w'; count := wrapping_add 64 (count w) (Z.of_nat n) |}).

Definition write_boot_sector `{Write W} (writer : W) (l : FatLayout) (info : FsInfo)
    : res FatError W :=
  boot ← sector l;
  writer ← from_io (write_all writer boot);
  fsi ← fsinfo info;
  writer ← from_io (write_all writer fsi);
  let before_backup := saturating_sub BACKUP_BOOT_SECTOR 2 in
  writer ← write_zeros writer (saturating_mul 64 before_backup SECTOR_SIZE);
  writer ← from_io (write_all writer boot);
  let after_backup := saturating_sub (reserved_sectors l) (saturating_add 64 BACKUP_BOOT_SECTOR 1) in
  write_zeros writer (saturating_mul 64 after_backup SECTOR_SIZE).

Definition write_dir `{Write W} (pre : Precomputed) (writer : W) (d : nat) : res FatError W :=
  let cluster_bytes := wrapping_mul 64 (spc (layout pre)) SECTOR_SIZE in
  let data := default [] (dir_data pre !! d) in
  writer ← from_io (write_all writer data);
  let clusters := default 1 (dir_counts (cluster_map pre) !! d) in
  let pad := saturating_sub (wrapping_mul 64 clusters cluster_bytes) (zlen data) in
  if 0 <? pad then write_zeros writer pad else Ok writer.
Definition write_dir_entries `{Write W} (writer : W) (pre : Precomputed) : res FatError W :=
  foldM (write_dir pre) writer (seq 0 (tree_len (tree pre))).

Definition write_metadata `{Write W} (writer : W) (pre : Precomputed)
    : res FatError (CountWriter W) :=
  let counted := {| inner := writer; count := 0 |} in
  counted ← write_boot_sector counted (layout pre) (fs_info pre);
  counted ← from_io (write_all counted (fat_bytes pre));
  counted ← from_io (write_all counted (fat_bytes pre));
  write_dir_entries counted pre.

(** The loop of [stream_reader]; every round moves at least one byte. *)
Fixpoint stream_loop `{Write W} `{Read R} (fuel : nat) (writer : W) (reader : R) (sz rem : Z)
    : res FatError (W * R) :=
  if rem <=? 0 then Ok (writer, reader)
  else match fuel with
  | O => Panic
  | S fuel =>
      let chunk := Z.min rem 8192 in
      '(bs, reader) ← from_io (read reader (Z.to_nat chunk));
      match bs with
      | [] => Err (Fat ("reader EOF before declared size: " +:+ pretty sz +:+ " bytes expected, "
                        +:+ pretty rem +:+ " remaining"))
      | _ =>
          writer ← from_io (write_all writer bs);
          stream_loop fuel writer reader sz (wrapping_sub 64 rem (zlen bs))
      end
  end.
Definition stream_reader `{Write W} `{Read R} (writer : W) (reader : R) (sz cluster_bytes : Z)
    : res FatError (W * R) :=
  '(writer, reader) ← stream_loop (Z.to_nat sz) writer reader sz sz;
  if cluster_bytes =? 0 then Panic else
  let pad := saturating_sub cluster_bytes (sz mod cluster_bytes) in
  if negb (pad =? cluster_bytes) then
    writer ← write_zeros writer pad;
    Ok (writer, reader)
  else Ok (writer, reader).

Definition pad_to_image `{Write W} (prof : profile) (writer : CountWriter W) (img_size : Z)
    : res FatError (CountWriter W) :=
  if img_size <=? count writer then Ok writer else
  let remaining := saturating_sub img_size (count writer) in
  aligned ← next_multiple_of prof (count writer) DATA_ALIGN_BYTES;
  let pad := Z.min (saturating_sub aligned (count writer)) remaining in
  writer ← write_zeros writer pad;
  let remaining := saturating_sub img_size (count writer) in
  if 0 <? remaining then write_zeros writer remaining else Ok writer.

(** One iteration of the loop of [build]. *)
Definition stream_file `{Write W} `{Read R} (pre : Precomputed) (st : CountWriter W * list R)
    (e : nat * R) : res FatError (CountWriter W * list R) :=
  let cluster_bytes := wrapping_mul 64 (spc (layout pre)) SECTOR_SIZE in
  let sz := default 0 (file_sizes (cluster_map pre) !! e.1) in
  '(counted, reader) ← stream_reader st.1 e.2 sz cluster_bytes;
  Ok (counted, st.2 ++ [reader]).

(** The writer and the readers, as far as they were read. *)
Definition build `{Write W} `{Read R} (prof : profile) (pre : Precomputed) (readers : list R)
    (writer : W) : res FatError (W * list R) :=
  counted ← write_metadata writer pre;
  '(counted, readers) ← foldM (stream_file pre) (counted, []) (imap pair readers);
  counted ← pad_to_image prof counted (image_size pre);
  Ok (inner counted, readers).

Definition format `{Uppercase} `{Write W} (prof : profile) (writer : W) (sz : Z)
    : res FatError W :=
  pre ← precompute prof [] sz;
  counted ← write_metadata writer pre;
  Ok (inner counted).

(** ** Lemmas: writers *)

#[global] Program Instance count_write_laws `{WriteLaws W} : WriteLaws (CountWriter W) :=
  {| written := λ w, written (inner w) |}.
Next Obligation.
  intros W ? ? w buf n w' Hw. unfold write, count_write in Hw. inv_ok. destruct v as [k w1].
  injection Hw as -> <-. by apply write_prefix in Hv.
Qed.

(** A writer whose calls take the whole buffer, as [Vec<u8>] does. *)
Class TotalWrite (W : Type) `{Write W} :=
  write_total (w : W) buf : ∃ w', write w buf = Ok (length buf, w').
#[global] Instance vec_write_total : TotalWrite (list Z).
Proof. intros w buf. by eexists. Qed.
#[global] Instance count_write_total `{TotalWrite W} : TotalWrite (CountWriter W).
Proof.
  intros w buf. destruct (write_total (inner w) buf) as [w' Hw]. eexists.
  unfold write, count_write. rewrite Hw. reflexivity.
Qed.

Lemma write_all_total `{TotalWrite W} (w : W) buf : ∃ w', write_all w buf = Ok w'.
Proof.
  unfold write_all. destruct buf as [|b buf]; [by eexists|].
  cbn [length write_all_fuel]. destruct (write_total w (b :: buf)) as [w' ->].
  rewrite bind_ret. cbn [length]. rewrite !bool_decide_eq_false_2 by lia.
  change (S (length buf)) with (length (b :: buf)). rewrite drop_all.
  exists w'. by destruct (length buf).
Qed.

Lemma write_zeros_total `{TotalWrite W} (w : W) n : ∃ w', write_zeros w n = Ok w'.
Proof.
  unfold write_zeros.
  assert (∀ fuel (w : W) rem, rem ≤ Z.of_nat fuel * ZERO_BUF →
    ∃ w', write_zeros_fuel fuel w rem = Ok w') as Hgen.
  { clear w n. induction fuel as [|fuel IH]; intros w rem Hr; cbn [write_zeros_fuel];
      destruct (Z.leb_spec rem 0); [by eexists|lia|by eexists|].
    destruct (write_all_total w (zeros (Z.to_nat (Z.min rem ZERO_BUF)))) as [w1 ->].
    cbn [from_io map_err]. rewrite bind_ret. apply IH. unfold saturating_sub, ZERO_BUF in *. lia. }
  apply Hgen. pose proof (div_ceil_spec n ZERO_BUF ltac:(done)). unfold ZERO_BUF in *. lia.
Qed.

(** [wrote w bs w']: exactly [bs] went to the sink, and the counter keeps
    counting the bytes since [base]. *)
Section wrote.
Context `{WriteLaws W} (base : Z).

Definition counts_from (w : CountWriter W) : Prop :=
  count w = (zlen (written w) - base) mod 2 ^ 64.
Definition wrote (w : CountWriter W) (bs : list Z) (w' : CountWriter W) : Prop :=
  written w' = written w ++ bs ∧ (counts_from w → counts_from w').

Lemma wrote_nil w : wrote w [] w.
Proof. split; [by rewrite app_nil_r|done]. Qed.

Lemma wrote_trans w a w1 b w2 : wrote w a w1 → wrote w1 b w2 → wrote w (a ++ b) w2.
Proof. intros [H1 H2] [H3 H4]. split; [by rewrite H3, H1, app_assoc|auto]. Qed.

Lemma write_counts (w : CountWriter W) buf n w' :
  write w buf = Ok (n, w') → counts_from w → counts_from w'.
Proof.
  intros Hw Hc. pose proof (write_prefix _ _ _ _ Hw) as [Hn Hwr].
  unfold write, count_write in Hw. inv_ok. destruct v as [k w1]. injection Hw as -> <-.
  unfold counts_from in *. cbn [count]. rewrite Hwr, Hc. unfold wrapping_add, zlen.
  rewrite length_app, length_take. rewrite Zplus_mod_idemp_l. f_equal. lia.
Qed.

Lemma write_all_fuel_counts fuel (w w' : CountWriter W) buf :
  write_all_fuel fuel w buf = Ok w' → counts_from w → counts_from w'.
Proof.
  revert w buf; induction fuel as [|fuel IH]; intros w buf Hw Hc.
  { destruct buf; simpl in Hw; inv_ok; by subst. }
  destruct buf as [|b buf]; [simpl in Hw; inv_ok; by subst|].
  cbn [write_all_fuel] in Hw. inv_ok. destruct v as [n w1].
  repeat case_bool_decide; try discriminate.
  eapply IH; [exact Hw|]. by eapply write_counts.
Qed.

Lemma write_all_wrote (w w' : CountWriter W) buf :
  from_io (write_all w buf) = Ok w' → wrote w buf w'.
Proof.
  intros Hw%map_err_Ok. split; [by apply write_all_written|].
  by eapply write_all_fuel_counts.
Qed.

Lemma write_zeros_wrote (w w' : CountWriter W) n :
  write_zeros w n = Ok w' → wrote w (zeros (Z.to_nat n)) w'.
Proof.
  intros Hw. split; [by apply write_zeros_written|]. revert Hw. unfold write_zeros.
  generalize (Z.to_nat (div_ceil n ZERO_BUF)) as fuel. intros fuel. revert w n.
  induction fuel as [|fuel IH]; intros w n Hw Hc; cbn [write_zeros_fuel] in Hw;
    destruct (n <=? 0); try done; try (by injection Hw as <-).
  apply bind_Ok in Hw as (w1 & Hw1 & Hw). eapply IH; [exact Hw|].
  apply write_all_wrote in Hw1. by apply Hw1.
Qed.

Lemma foldM_wrote {A} (f : CountWriter W → A → res FatError (CountWriter W)) (g : A → list Z) l w w' :
  (∀ w a w', a ∈ l → f w a = Ok w' → wrote w (g a) w') →
  foldM f w l = Ok w' → wrote w (concat (g <$> l)) w'.
Proof.
  revert w; induction l as [|a l IH]; intros w Hf Hw; simpl in Hw.
  { injection Hw as <-. apply wrote_nil. }
  apply bind_Ok in Hw as (w1 & Hw1 & Hw). eapply wrote_trans.
  - eapply Hf; [|exact Hw1]. set_solver.
  - apply IH; [|done]. intros. eapply Hf; [set_solver|done].
Qed.
End wrote.

(** ** Lemmas: regions of the image *)

Definition boot_region (l : FatLayout) (info : FsInfo) : list Z :=
  boot_image l ++ fsinfo_image info ++ zeros (Z.to_nat 2048) ++ boot_image l ++ zeros 512.

Definition dir_region (pre : Precomputed) (d : nat) : list Z :=
  let data := default [] (dir_data pre !! d) in
  let clusters := default 1 (dir_counts (cluster_map pre) !! d) in
  let pad := saturating_sub (wrapping_mul 64 clusters
    (wrapping_mul 64 (spc (layout pre)) SECTOR_SIZE)) (zlen data) in
  data ++ zeros (Z.to_nat pad).

Definition metadata (pre : Precomputed) : list Z :=
  boot_region (layout pre) (fs_info pre) ++ fat_bytes pre ++ fat_bytes pre ++
  concat (dir_region pre <$> seq 0 (tree_len (tree pre))).

Section regions.
Context `{WriteLaws W} (base : Z).

Lemma write_boot_wrote (w w' : CountWriter W) l info :
  layout_ok l → write_boot_sector w l info = Ok w' → wrote base w (boot_region l info) w'.
Proof.
  intros Hl Hw. unfold write_boot_sector in Hw. rewrite sector_eq, bind_ret in Hw.
  apply bind_Ok in Hw as (w1 & Hw1%(write_all_wrote base) & Hw).
  rewrite fsinfo_eq, bind_ret in Hw.
  apply bind_Ok in Hw as (w2 & Hw2%(write_all_wrote base) & Hw).
  apply bind_Ok in Hw as (w3 & Hw3%(write_zeros_wrote base) & Hw).
  apply bind_Ok in Hw as (w4 & Hw4%(write_all_wrote base) & Hw5%(write_zeros_wrote base)).
  assert (reserved_sectors l = 8) as Hr by apply Hl. rewrite Hr in Hw5.
  unfold boot_region. eapply wrote_trans; [exact Hw1|]. eapply wrote_trans; [exact Hw2|].
  eapply wrote_trans; [exact Hw3|]. eapply wrote_trans; [exact Hw4|exact Hw5].
Qed.

Lemma write_dir_wrote (w w' : CountWriter W) pre d :
  write_dir pre w d = Ok w' → wrote base w (dir_region pre d) w'.
Proof.
  intros Hw. unfold write_dir in Hw.
  apply bind_Ok in Hw as (w1 & Hw1%(write_all_wrote base) & Hw).
  eapply wrote_trans; [exact Hw1|]. destruct (Z.ltb_spec 0 (saturating_sub (wrapping_mul 64
    (default 1 (dir_counts (cluster_map pre) !! d)) (wrapping_mul 64 (spc (layout pre)) SECTOR_SIZE))
    (zlen (default [] (dir_data pre !! d))))) as [Hp|Hp].
  - by apply write_zeros_wrote.
  - injection Hw as <-. replace (Z.to_nat _) with 0%nat by lia. apply wrote_nil.
Qed.

Lemma write_metadata_wrote (w : W) pre w' :
  layout_ok (layout pre) → write_metadata w pre = Ok w' →
  wrote base {| inner := w; count := 0 |} (metadata pre) w'.
Proof.
  intros Hl Hw. unfold write_metadata in Hw.
  apply bind_Ok in Hw as (w1 & Hw1%write_boot_wrote & Hw); [|done].
  apply bind_Ok in Hw as (w2 & Hw2%(write_all_wrote base) & Hw).
  apply bind_Ok in Hw as (w3 & Hw3%(write_all_wrote base) & Hw).
  apply (foldM_wrote base _ (dir_region pre)) in Hw; [|intros; by apply write_dir_wrote].
  unfold metadata. eapply wrote_trans; [exact Hw1|]. eapply wrote_trans; [exact Hw2|].
  eapply wrote_trans; [exact Hw3|exact Hw].
Qed.
End regions.

(** The clusters of a file: its bytes and zeros up to the cluster end. *)
Definition file_region (sz cb : Z) (content : list Z) : list Z :=
  take (Z.to_nat sz) content ++ zeros (Z.to_nat (round_up sz cb - sz)).

Lemma pad_round_up sz cb :
  0 ≤ sz → 0 < cb →
  round_up sz cb - sz =
    if saturating_sub cb (sz mod cb) =? cb then 0 else saturating_sub cb (sz mod cb).
Proof.
  intros Hs Hc. pose proof (Z.mod_pos_bound sz cb Hc). pose proof (Z.div_mod sz cb ltac:(lia)).
  unfold round_up, div_ceil, saturating_sub. rewrite Z.max_r by lia.
  destruct (Z.eqb_spec (sz mod cb) 0), (Z.eqb_spec (cb - sz mod cb) cb); lia.
Qed.

Section stream.
Context `{WriteLaws W} `{ReadLaws R} (base : Z).

Lemma stream_loop_wrote fuel (w w' : CountWriter W) (r r' : R) sz rem :
  0 ≤ rem < 2 ^ 64 → stream_loop fuel w r sz rem = Ok (w', r') →
  wrote base w (take (Z.to_nat rem) (remaining r)) w' ∧ rem ≤ zlen (remaining r) ∧
  remaining r' = drop (Z.to_nat rem) (remaining r).
Proof.
  revert w r rem; induction fuel as [|fuel IH]; intros w r rem Hr Hs; cbn [stream_loop] in Hs;
    destruct (Z.leb_spec rem 0) as [Hz|Hz]; try discriminate.
  1, 2: injection Hs as <- <-; replace (Z.to_nat rem) with 0%nat by lia;
    rewrite take_0, drop_0; (split_and!; [apply wrote_nil|unfold zlen; lia|done]).
  apply bind_Ok in Hs as ([bs r1] & Hrd%map_err_Ok & Hs).
  apply read_prefix in Hrd as [Hlen Hrem].
  destruct bs as [|b bs']; [discriminate|]. set (bs := b :: bs') in *.
  apply bind_Ok in Hs as (w1 & Hw1%(write_all_wrote base) & Hs).
  assert (0 < zlen bs ≤ rem) as Hbs by (unfold zlen, bs in *; simpl in *; lia).
  replace (wrapping_sub 64 rem (zlen bs)) with (rem - zlen bs) in Hs
    by (unfold wrapping_sub; rewrite Z.mod_small; lia).
  apply IH in Hs as (Hw & Hle & Hd); [|lia].
  replace (Z.to_nat rem) with (length bs + Z.to_nat (rem - zlen bs))%nat by (unfold zlen in *; lia).
  rewrite Hrem, take_app_add, drop_app_add. split_and!; [|unfold zlen in *; rewrite length_app; lia|done].
  eapply wrote_trans; [exact Hw1|exact Hw].
Qed.

Lemma stream_reader_wrote (w w' : CountWriter W) (r r' : R) sz cb :
  0 ≤ sz < 2 ^ 64 → 0 < cb → stream_reader w r sz cb = Ok (w', r') →
  wrote base w (file_region sz cb (remaining r)) w' ∧ sz ≤ zlen (remaining r) ∧
  remaining r' = drop (Z.to_nat sz) (remaining r).
Proof.
  intros Hsz Hcb Hs. unfold stream_reader in Hs.
  apply bind_Ok in Hs as ([w1 r1] & Hl & Hs). apply stream_loop_wrote in Hl as (Hw & Hle & Hd); [|done].
  rewrite (proj2 (Z.eqb_neq _ _)) in Hs by lia.
  unfold file_region. rewrite pad_round_up by lia.
  destruct (saturating_sub cb (sz mod cb) =? cb); cbn [negb] in Hs.
  - injection Hs as <- <-. split_and!; try done. eapply wrote_trans; [exact Hw|]. apply wrote_nil.
  - apply bind_Ok in Hs as (w2 & Hw2%(write_zeros_wrote base) & [= <- <-]).
    split_and!; try done. eapply wrote_trans; [exact Hw|exact Hw2].
Qed.

Lemma pad_to_image_wrote prof (w w' : CountWriter W) img n :
  counts_from base w → zlen (written w) - base = n → 0 ≤ n < 2 ^ 62 → img < 2 ^ 62 →
  pad_to_image prof w img = Ok w' → wrote base w (zeros (Z.to_nat (img - n))) w'.
Proof.
  intros Hc Hn Hn62 Hi Hp. unfold pad_to_image in Hp.
  assert (count w = n) as Hcw.
  { unfold counts_from in Hc. rewrite Hc, Hn. apply Z.mod_small. lia. }
  rewrite Hcw in Hp. destruct (Z.leb_spec img n) as [Hle|Hlt].
  { injection Hp as <-. replace (Z.to_nat (img - n)) with 0%nat by lia. apply wrote_nil. }
  apply bind_Ok in Hp as (aligned & Hal & Hp).
  apply bind_Ok in Hp as (w1 & Hw1%(write_zeros_wrote base) & Hp).
  set (pad := Z.min (saturating_sub aligned n) (saturating_sub img n)) in *.
  assert (0 ≤ pad ≤ img - n) as Hpad by (unfold pad, saturating_sub; lia).
  assert (count w1 = n + pad) as Hcw1.
  { destruct Hw1 as [Hwr Hcc]. specialize (Hcc Hc). unfold counts_from in Hcc.
    rewrite Hcc, Hwr. unfold zlen in *. rewrite length_app, length_zeros.
    rewrite Z.mod_small; lia. }
  rewrite Hcw1 in Hp.
  replace (Z.to_nat (img - n)) with (Z.to_nat pad + Z.to_nat (img - (n + pad)))%nat by lia.
  unfold zeros. rewrite replicate_add. eapply wrote_trans; [exact Hw1|].
  destruct (Z.ltb_spec 0 (saturating_sub img (n + pad))) as [Hrem|Hrem].
  - apply write_zeros_wrote. by replace (img - (n + pad)) with (saturating_sub img (n + pad))
      by (unfold saturating_sub; lia).
  - injection Hp as <-. replace (Z.to_nat _) with 0%nat by (unfold saturating_sub in *; lia).
    apply wrote_nil.
Qed.
End stream.

(** ** Lemmas: the whole image *)

Definition cb_of (pre : Precomputed) : Z := wrapping_mul 64 (spc (layout pre)) SECTOR_SIZE.
Definition size_at (pre : Precomputed) (i : nat) : Z := default 0 (file_sizes (cluster_map pre) !! i).

Definition file_regions `{ReadLaws R} (pre : Precomputed) (k : nat) (readers : list R)
    : list (list Z) :=
  imap (λ i r, file_region (size_at pre (k + i)) (cb_of pre) (remaining r)) readers.

Lemma stream_files_wrote `{WriteLaws W} `{ReadLaws R} base pre readers k (w w' : CountWriter W)
    (rs rs' : list R) :
  (∀ i, 0 ≤ size_at pre i < 2 ^ 64) → 0 < cb_of pre →
  foldM (stream_file pre) (w, rs) (imap (λ i r, ((k + i)%nat, r)) readers) = Ok (w', rs') →
  wrote base w (concat (file_regions pre k readers)) w'.
Proof.
  intros Hsz Hcb. revert k w rs; induction readers as [|r readers IH]; intros k w rs Hf.
  { injection Hf as <- _. apply wrote_nil. }
  cbn [imap foldM] in Hf. rewrite Nat.add_0_r in Hf.
  apply bind_Ok in Hf as ([w1 rs1] & Hs & Hf). unfold stream_file in Hs; cbn [fst snd] in Hs.
  apply bind_Ok in Hs as ([w2 r2] & Hs & [= <- <-]).
  apply (stream_reader_wrote base) in Hs as (Hw & _ & _); [|apply Hsz|apply Hcb].
  unfold file_regions; cbn [imap concat]. rewrite Nat.add_0_r. eapply wrote_trans; [exact Hw|].
  rewrite (imap_ext _ (λ i r, ((S k + i)%nat, r))) in Hf by (intros; simpl; f_equal; lia).
  apply IH in Hf. unfold file_regions in Hf.
  rewrite (imap_ext _ (λ i r, file_region (size_at pre (S k + i)) (cb_of pre) (remaining r)));
    [exact Hf|]. intros i x _. simpl. do 2 f_equal. lia.
Qed.

Definition data_regions `{ReadLaws R} (pre : Precomputed) (readers : list R) : list (list Z) :=
  (dir_region pre <$> seq 0 (tree_len (tree pre))) ++ file_regions pre 0 readers.

(** Everything before the final padding. *)
Definition image_body `{ReadLaws R} (pre : Precomputed) (readers : list R) : list Z :=
  boot_region (layout pre) (fs_info pre) ++ fat_bytes pre ++ fat_bytes pre ++
  concat (data_regions pre readers).
Definition image `{ReadLaws R} (pre : Precomputed) (readers : list R) : list Z :=
  image_body pre readers ++ zeros (Z.to_nat (image_size pre - zlen (image_body pre readers))).

Lemma build_written `{WriteLaws W} `{ReadLaws R} prof pre readers (w w' : W) (rs : list R) :
  layout_ok (layout pre) → (∀ i, 0 ≤ size_at pre i < 2 ^ 64) → image_size pre < 2 ^ 62 →
  zlen (image_body pre readers) < 2 ^ 62 →
  build prof pre readers w = Ok (w', rs) → written w' = written w ++ image pre readers.
Proof.
  intros Hl Hsz Himg Hlen Hb. unfold build in Hb. set (base := zlen (written w)).
  apply bind_Ok in Hb as (w1 & Hw1%(write_metadata_wrote base) & Hb); [|done].
  apply bind_Ok in Hb as ([w2 rs2] & Hs & Hb). apply bind_Ok in Hb as (w3 & Hp & [= <- <-]).
  rewrite (imap_ext _ (λ i r, ((0 + i)%nat, r))) in Hs by done.
  assert (0 < cb_of pre) as Hcb.
  { unfold cb_of. destruct (cluster_bytes_eq (layout pre) Hl) as [-> ?]. lia. }
  apply (stream_files_wrote base) in Hs; [|done|done].
  pose proof (wrote_trans base _ _ _ _ _ Hw1 Hs) as [Hwr Hc].
  assert (metadata pre ++ concat (file_regions pre 0 readers) = image_body pre readers) as Hbody.
  { unfold metadata, image_body, data_regions. by rewrite concat_app, <-!app_assoc. }
  rewrite Hbody in Hwr. simpl in Hwr. unfold image.
  apply (pad_to_image_wrote base prof w2 w3 _ (zlen (image_body pre readers))) in Hp; try done.
  - destruct Hp as [Hp _]. simpl in Hp |- *. rewrite Hp, Hwr. by rewrite <-app_assoc.
  - apply Hc. unfold counts_from; simpl. unfold base. by rewrite Z.sub_diag.
  - simpl. rewrite Hwr. unfold base, zlen. rewrite length_app. lia.
Qed.

(** Building into memory succeeds when every reader has its bytes. *)
Lemma stream_loop_total `{TotalWrite W} `{ReadLaws R} fuel (w : W) (r : R) sz rem :
  0 ≤ rem ≤ Z.of_nat fuel → rem < 2 ^ 64 → rem ≤ zlen (remaining r) →
  ∃ w' r', stream_loop fuel w r sz rem = Ok (w', r').
Proof.
  revert w r rem; induction fuel as [|fuel IH]; intros w r rem Hf Hr Hlen; cbn [stream_loop];
    destruct (Z.leb_spec rem 0) as [Hz|Hz]; [by eexists _, _|lia|by eexists _, _|].
  destruct (read_total r (Z.to_nat (Z.min rem 8192))) as (bs & r1 & Hrd). rewrite Hrd.
  cbn [from_io map_err]. rewrite bind_ret.
  pose proof (read_progress _ _ _ _ Hrd) as Hp. apply read_prefix in Hrd as [Hl Hrem].
  destruct bs as [|b bs']; [destruct Hp; [lia| |done]; intros Hn; rewrite Hn in Hlen; unfold zlen in Hlen; simpl in Hlen; lia|].
  set (bs := b :: bs') in *. destruct (write_all_total w bs) as [w1 ->].
  cbn [from_io map_err]. rewrite bind_ret.
  assert (0 < zlen bs ≤ rem) as Hbs by (unfold zlen, bs in *; simpl in *; lia).
  replace (wrapping_sub 64 rem (zlen bs)) with (rem - zlen bs)
    by (unfold wrapping_sub; rewrite Z.mod_small; lia).
  apply IH; [lia|lia|]. rewrite Hrem in Hlen. unfold zlen in *. rewrite length_app in Hlen. lia.
Qed.

Lemma stream_reader_total `{TotalWrite W} `{ReadLaws R} (w : W) (r : R) sz cb :
  0 ≤ sz < 2 ^ 64 → sz ≤ zlen (remaining r) → 0 < cb →
  ∃ w' r', stream_reader w r sz cb = Ok (w', r').
Proof.
  intros Hsz Hlen Hcb. unfold stream_reader.
  destruct (stream_loop_total (Z.to_nat sz) w r sz sz) as (w1 & r1 & ->); [lia|lia|done|].
  rewrite bind_ret, (proj2 (Z.eqb_neq _ _)) by lia. destruct (negb _); [|by eexists _, _].
  destruct (write_zeros_total w1 (saturating_sub cb (sz mod cb))) as [w2 ->].
  rewrite bind_ret. by eexists _, _.
Qed.

Lemma foldM_total {E S A} (f : S → A → res E S) l s :
  (∀ s a, a ∈ l → ∃ s', f s a = Ok s') → ∃ s', foldM f s l = Ok s'.
Proof.
  revert s; induction l as [|a l IH]; intros s Hf; simpl; [by eexists|].
  destruct (Hf s a) as [s1 ->]; [set_solver|]. rewrite bind_ret. apply IH.
  intros; apply Hf; set_solver.
Qed.

Ltac step_total lem := let w := fresh "w" in destruct lem as [w ->];
  cbn [from_io map_err]; rewrite ?bind_ret.

Lemma write_metadata_total `{TotalWrite W} (w : W) pre :
  ∃ w', write_metadata w pre = Ok w'.
Proof.
  unfold write_metadata, write_boot_sector. rewrite sector_eq, bind_ret.
  step_total (write_all_total {| inner := w; count := 0 |} (boot_image (layout pre))).
  rewrite fsinfo_eq, bind_ret. step_total (write_all_total w0 (fsinfo_image (fs_info pre))).
  step_total (write_zeros_total w1
    (saturating_mul 64 (saturating_sub BACKUP_BOOT_SECTOR 2) SECTOR_SIZE)).
  step_total (write_all_total w2 (boot_image (layout pre))).
  step_total (write_zeros_total w3 (saturating_mul 64 (saturating_sub
    (reserved_sectors (layout pre)) (saturating_add 64 BACKUP_BOOT_SECTOR 1)) SECTOR_SIZE)).
  step_total (write_all_total w4 (fat_bytes pre)). step_total (write_all_total w5 (fat_bytes pre)).
  apply foldM_total. intros s d _. unfold write_dir.
  step_total (write_all_total s (default [] (dir_data pre !! d))).
  destruct (0 <? _); [apply write_zeros_total|by eexists].
Qed.

Lemma stream_files_total `{TotalWrite W} `{ReadLaws R} pre readers k (w : CountWriter W) (rs : list R) :
  (∀ i, 0 ≤ size_at pre i < 2 ^ 64) → 0 < cb_of pre →
  (∀ i r, readers !! i = Some r → size_at pre (k + i) ≤ zlen (remaining r)) →
  ∃ w' rs', foldM (stream_file pre) (w, rs) (imap (λ i r, ((k + i)%nat, r)) readers)
            = Ok (w', rs').
Proof.
  intros Hsz Hcb. revert k w rs; induction readers as [|r readers IH]; intros k w rs Hlen.
  { by eexists _, _. }
  destruct (stream_reader_total w r (size_at pre k) (cb_of pre)) as (w1 & r1 & Hsr);
    [apply Hsz|specialize (Hlen 0%nat r eq_refl); by rewrite Nat.add_0_r in Hlen|done|].
  assert (stream_file pre (w, rs) (k, r) = Ok (w1, rs ++ [r1])) as Hf.
  { unfold stream_file; cbn [fst snd]. fold (size_at pre k) (cb_of pre). by rewrite Hsr. }
  cbn [imap foldM]. rewrite Nat.add_0_r, Hf. cbn [mbind res_bind].
  rewrite (imap_ext _ (λ i r, ((S k + i)%nat, r))) by (intros; simpl; f_equal; lia).
  apply IH. intros i x Hi. specialize (Hlen (S i) x Hi).
  by replace (S k + i)%nat with (k + S i)%nat by lia.
Qed.

Lemma build_total `{ReadLaws R} prof pre (readers : list R) :
  layout_ok (layout pre) → (∀ i, 0 ≤ size_at pre i < 2 ^ 64) → image_size pre < 2 ^ 62 →
  zlen (image_body pre readers) < 2 ^ 62 →
  (∀ i r, readers !! i = Some r → size_at pre i ≤ zlen (remaining r)) →
  ∃ img rs, build prof pre readers ([] : list Z) = Ok (img, rs) ∧ img = image pre readers.
Proof.
  intros Hl Hsz Himg Hlen Hrd.
  assert (0 < cb_of pre) as Hcb.
  { unfold cb_of. destruct (cluster_bytes_eq (layout pre) Hl) as [-> ?]. lia. }
  assert (∃ img rs, build prof pre readers ([] : list Z) = Ok (img, rs)) as (img & rs & Hb).
  { unfold build. destruct (write_metadata_total ([] : list Z) pre) as [w1 Hw1]. rewrite Hw1, bind_ret.
    rewrite (imap_ext _ (λ i r, ((0 + i)%nat, r))) by done.
    destruct (stream_files_total pre readers 0 w1 [] Hsz Hcb) as (w2 & rs2 & Hs); [done|].
    rewrite Hs. cbn [mbind res_bind].
    apply (write_metadata_wrote 0) in Hw1; [|done].
    apply (stream_files_wrote 0) in Hs; [|done|done].
    destruct (wrote_trans 0 _ _ _ _ _ Hw1 Hs) as [Hwr Hc].
    assert (metadata pre ++ concat (file_regions pre 0 readers) = image_body pre readers) as Hbody.
    { unfold metadata, image_body, data_regions. by rewrite concat_app, <-!app_assoc. }
    rewrite Hbody in Hwr. simpl in Hwr.
    assert (count w2 = zlen (image_body pre readers)) as Hcnt.
    { assert (counts_from 0 w2) as Hcf by by apply Hc.
      unfold counts_from in Hcf; simpl in Hcf. rewrite Hcf, Hwr, Z.sub_0_r.
      apply Z.mod_small. unfold zlen in *. lia. }
    unfold pad_to_image. rewrite Hcnt. destruct (_ <=? _); [by eexists _, _|].
    pose proof (round_up_spec (zlen (image_body pre readers)) DATA_ALIGN_BYTES ltac:(done)) as [Hru _].
    rewrite next_multiple_of_round_up, bind_ret by
      (done || (unfold uint_max, DATA_ALIGN_BYTES in *; lia)).
    step_total (write_zeros_total w2 (Z.min (saturating_sub (round_up (zlen (image_body pre readers))
      DATA_ALIGN_BYTES) (zlen (image_body pre readers)))
      (saturating_sub (image_size pre) (zlen (image_body pre readers))))).
    destruct (0 <? _); [|by eexists _, _].
    destruct (write_zeros_total w (saturating_sub (image_size pre) (count w))) as [w3 ->].
    rewrite bind_ret. by eexists _, _. }
  exists img, rs. split; [done|].
  apply build_written in Hb; [|done..]. exact Hb.
Qed.

(** ** Lemmas: the geometry of a precomputed image *)

Lemma assign_aliases_ok `{Uppercase} t files aliases :
  assign_aliases t files = Ok aliases → aliases_ok aliases.
Proof.
  intros Ha%mapM_res_Ok d as_ a Hd Hin.
  destruct (Forall2_lookup_r _ _ _ _ _ Ha Hd) as (i & _ & Hn).
  pose proof (assign_names_spec ∅ (fst <$> tree_entries t files i)) as Hs. rewrite Hn in Hs.
  by apply Hs in Hin as (_ & ? & _).
Qed.

(** What [precompute] guarantees. *)
Definition planned (prof : profile) (files : list FileMeta) (pre : Precomputed)
    (dir_sizes : list Z) : Prop :=
  layout_ok (layout pre) ∧ total_sectors (layout pre) = image_size pre / SECTOR_SIZE ∧
  0 ≤ image_size pre ≤ MAX_IMAGE_SIZE ∧
  assign_clusters files (layout pre) dir_sizes = Ok (cluster_map pre) ∧
  length dir_sizes = tree_len (tree pre) ∧ dir_sizes = zlen <$> dir_data pre ∧
  fat_bytes pre = make_fat (cluster_map pre) (layout pre) ∧
  from_map (E:=FatError) prof (cluster_map pre) (layout pre) = Ok (fs_info pre).

Lemma precompute_planned `{Uppercase} prof files img pre :
  16 * SECTOR_SIZE ≤ img →
  (∀ d, zlen (tree_entries (collect files) files d) < 2 ^ 48) →
  precompute prof files img = Ok pre →
  tree pre = collect files ∧ image_size pre = img ∧
  ∃ dir_sizes, planned prof files pre dir_sizes.
Proof.
  intros Hmin Hent Hp. unfold precompute in Hp.
  apply bind_Ok in Hp as (l & Hl & Hp). apply bind_Ok in Hp as (aliases & Ha & Hp).
  apply bind_Ok in Hp as (dir_sizes & Hd & Hp). apply bind_Ok in Hp as (m & Hm & Hp).
  apply bind_Ok in Hp as (dd & Hdd & Hp). apply bind_Ok in Hp as (info & Hi & [= <-]).
  split_and!; [done..|]. exists dir_sizes.
  apply compute_inv in Hl as (Hok & Ht & Hmax); [|done].
  apply assign_aliases_ok in Ha.
  unfold sizes in Hd. apply mapM_res_Ok in Hd. apply mapM_res_Ok in Hdd.
  unfold planned. cbn [layout tree cluster_map fat_bytes dir_data fs_info image_size].
  unfold SECTOR_SIZE in *. split_and!; try done; try lia.
  - apply Forall2_length in Hd. by rewrite length_seq in Hd.
  - apply list_eq_Forall2, Forall2_fmap_r.
    apply (Forall2_trans (flip (λ d sz, size_of (E:=FatError) prof (collect files) files aliases d
        = Ok sz)) (λ d data, build_data (E:=FatError) files (collect files) m aliases d = Ok data)
      _ _ (seq 0 (tree_len (collect files)))); [|by apply Forall2_flip|done].
    intros sz d data Hs Hb. simpl in Hs. rewrite (size_of_eq prof _ _ m) in Hs by done.
    rewrite build_data_eq in Hb by done. by simplify_eq.
Qed.

Section geometry.
Context (prof : profile) (files : list FileMeta) (pre : Precomputed) (dir_sizes : list Z).
Context (Hplan : planned prof files pre dir_sizes) (Hfiles : ∀ f, f ∈ files → 0 ≤ size f).

Lemma planned_dirs_nonneg sz : sz ∈ dir_sizes → 0 ≤ sz.
Proof using Hplan.
  destruct Hplan as (_ & _ & _ & _ & _ & -> & _).
  intros (data & -> & _)%list_elem_of_fmap. unfold zlen. lia.
Qed.

Lemma planned_runs :
  let m := cluster_map pre in
  runs m = runs_from ROOT_CLUSTER (counts (layout pre) files dir_sizes) ∧
  dir_counts m = dir_clusters (layout pre) dir_sizes ∧
  file_counts m = file_clusters (layout pre) files ∧
  length (dir_starts m) = length (dir_counts m) ∧
  length (file_starts m) = length (file_counts m) ∧
  sum_list (counts (layout pre) files dir_sizes) ≤ data_cluster_count (layout pre).
Proof using Hplan Hfiles.
  destruct Hplan as (Hl & _ & _ & Hm & _). apply (assign_runs files (layout pre) dir_sizes);
    [done|done|apply planned_dirs_nonneg|done].
Qed.

Lemma planned_sizes i : size_at pre i = default 0 (size <$> files !! i) ∧ 0 ≤ size_at pre i < 2 ^ 32.
Proof using Hplan Hfiles.
  destruct Hplan as (Hl & _ & _ & Hm & _).
  pose proof (assign_clusters_spec files (layout pre) dir_sizes Hl Hfiles planned_dirs_nonneg) as Hs.
  rewrite Hm in Hs. destruct Hs as (_ & _ & Hsz & _ & _ & _ & _ & Hmax & _).
  unfold size_at. rewrite Hsz, list_lookup_fmap. split; [done|].
  destruct (files !! i) as [f|] eqn:Hf; simpl; [|lia].
  apply list_elem_of_lookup_2 in Hf. specialize (Hmax f Hf). specialize (Hfiles f Hf).
  unfold uint_max in Hmax. lia.
Qed.

Lemma planned_cb : cb_of pre = cluster_bytes (layout pre) ∧ 512 ≤ cb_of pre ≤ 64 * 512.
Proof using Hplan.
  destruct Hplan as (Hl & _). unfold cb_of. destruct (cluster_bytes_eq _ Hl) as [-> ?].
  destruct (layout_ok_ranges _ Hl) as (? & _). unfold cluster_bytes, SECTOR_SIZE in *. lia.
Qed.

(** Every region of the data area fills the clusters it was given. *)
Lemma length_dir_region d c :
  dir_clusters (layout pre) dir_sizes !! d = Some c →
  zlen (dir_region pre d) = c * cb_of pre ∧
  take (length (default [] (dir_data pre !! d))) (dir_region pre d)
    = default [] (dir_data pre !! d).
Proof using Hplan Hfiles.
  intros Hc. destruct planned_cb as [Hcb Hcbr]. destruct planned_runs as (_ & Hdc & _ & _ & _ & Hsum).
  pose proof (planned_dirs_nonneg) as Hnn. pose proof Hplan as (Hl & _ & _ & _ & _ & Hds & _).
  pose proof (counts_nonneg _ files dir_sizes Hl Hfiles Hnn) as Hcn.
  unfold dir_region. fold (cb_of pre). rewrite Hdc, Hc. cbn [default from_option id].
  assert (0 ≤ c ≤ data_cluster_count (layout pre)) as Hcr.
  { assert (c ∈ counts (layout pre) files dir_sizes) as Hin.
    { apply elem_of_app. left. by eapply list_elem_of_lookup_2. }
    split; [rewrite Forall_forall in Hcn; by apply Hcn|].
    etrans; [|exact Hsum]. by apply elem_of_sum_list. }
  unfold dir_clusters in Hc. rewrite Hds, !list_lookup_fmap in Hc.
  destruct (dir_data pre !! d) as [data|]; [|done]. injection Hc as <-.
  cbn [default from_option id]. rewrite <-Hcb in *.
  pose proof (div_ceil_spec (zlen data) (cb_of pre) ltac:(lia)) as Hdiv.
  destruct Hl as (_ & _ & _ & _ & _ & _ & Hcount).
  unfold wrapping_mul at 1. rewrite Z.mod_small by nia.
  split; [|by rewrite take_app_length].
  unfold zlen, saturating_sub in *. rewrite length_app, length_zeros. nia.
Qed.
End geometry.

(** A block at its place among blocks whose lengths are multiples of the
    cluster size. *)
Lemma concat_at cb n (rs : list (list Z)) cs i s c r tail :
  Forall2 (λ r c, zlen r = c * cb) rs cs → Forall (λ c, 0 ≤ c) cs → 0 < cb →
  runs_from n cs !! i = Some (s, c) → rs !! i = Some r →
  n ≤ s ∧ drop (Z.to_nat ((s - n) * cb)) (concat rs ++ tail) = r ++ drop (length r)
    (drop (Z.to_nat ((s - n) * cb)) (concat rs ++ tail)).
Proof.
  intros Hl Hc Hcb. revert n i. induction Hl as [|r0 c0 rs cs Hr Hl IH]; intros n i Hrun Hi; [done|].
  apply Forall_cons in Hc as [Hc0 Hc]. destruct i as [|i]; simpl in Hrun, Hi.
  - simplify_eq. rewrite Z.sub_diag, Z.mul_0_l. simpl. rewrite drop_0, <-app_assoc.
    by rewrite drop_app_length.
  - destruct (IH Hc (n + c0) i Hrun Hi) as [Hle Hd]. split; [lia|].
    assert (Z.to_nat ((s - n) * cb) = (length r0 + Z.to_nat ((s - (n + c0)) * cb))%nat) as ->.
    { unfold zlen in Hr. nia. }
    cbn [concat]. rewrite <-app_assoc, drop_app_add. exact Hd.
Qed.

Lemma length_regions cb (rs : list (list Z)) cs :
  Forall2 (λ r c, zlen r = c * cb) rs cs → zlen (concat rs) = sum_list cs * cb.
Proof.
  induction 1 as [|r c rs cs Hr Hl IH]; [done|]. cbn [concat]. unfold zlen, sum_list in *.
  rewrite length_app. simpl. lia.
Qed.

Lemma length_file_region sz cb content :
  0 ≤ sz ≤ zlen content → 0 < cb →
  zlen (file_region sz cb content) = div_ceil sz cb * cb ∧
  take (Z.to_nat sz) (file_region sz cb content) = take (Z.to_nat sz) content.
Proof.
  intros Hs Hcb. unfold file_region. pose proof (div_ceil_spec sz cb Hcb).
  assert (length (take (Z.to_nat sz) content) = Z.to_nat sz) as Hl
    by (rewrite length_take; unfold zlen in *; lia).
  split; [|by rewrite take_app_length'].
  unfold zlen. rewrite length_app, Hl, length_zeros. unfold round_up. lia.
Qed.

Section image.
Context `{ReadLaws R} (prof : profile) (files : list FileMeta) (pre : Precomputed).
Context (dir_sizes : list Z) (readers : list R).
Context (Hplan : planned prof files pre dir_sizes) (Hfiles : ∀ f, f ∈ files → 0 ≤ size f).
Context (Hreaders : Forall2 (λ f r, size f ≤ zlen (remaining r)) files readers).

Lemma reader_size i r :
  readers !! i = Some r →
  ∃ f, files !! i = Some f ∧ size_at pre i = size f ∧ 0 ≤ size f ≤ zlen (remaining r).
Proof using Hplan Hfiles Hreaders.
  intros Hr. destruct (Forall2_lookup_r _ _ _ _ _ Hreaders Hr) as (f & Hf & Hle).
  exists f. destruct (planned_sizes prof files pre dir_sizes Hplan Hfiles i) as [-> _].
  rewrite Hf. split_and!; [done|done| |done]. apply Hfiles. by eapply list_elem_of_lookup_2.
Qed.

Lemma data_regions_lengths :
  Forall2 (λ r c, zlen r = c * cb_of pre) (data_regions pre readers)
    (counts (layout pre) files dir_sizes).
Proof using Hplan Hfiles Hreaders.
  destruct (planned_cb prof files pre dir_sizes Hplan) as [Hcb Hcbr].
  apply Forall2_app.
  - apply Forall2_same_length_lookup_2.
    { unfold dir_clusters. rewrite !length_fmap, length_seq. symmetry. apply Hplan. }
    intros d r c Hr Hc. apply list_lookup_fmap_Some in Hr as (k & -> & Hk).
    apply lookup_seq in Hk as [-> _].
    by apply (length_dir_region prof files pre dir_sizes Hplan Hfiles).
  - apply Forall2_same_length_lookup_2.
    { unfold file_regions, file_clusters. rewrite length_imap, length_fmap.
      symmetry. by eapply Forall2_length. }
    intros i r c Hr Hc. unfold file_regions in Hr. rewrite list_lookup_imap in Hr.
    destruct (readers !! i) as [rd|] eqn:Hrd; [|done]. injection Hr as <-.
    destruct (reader_size i rd Hrd) as (f & Hf & Hsz & Hle).
    unfold file_clusters in Hc. rewrite list_lookup_fmap, Hf in Hc. injection Hc as <-.
    rewrite Hsz, <-Hcb. apply length_file_region; [done|lia].
Qed.

Definition data_offset : Z := data_start (layout pre) * SECTOR_SIZE.

Lemma length_boot_region l info : zlen (boot_region l info) = 8 * SECTOR_SIZE.
Proof. unfold boot_region, zlen. by rewrite !length_app. Qed.

Lemma length_fat : zlen (fat_bytes pre) = fat_sectors (layout pre) * SECTOR_SIZE.
Proof using Hplan Hfiles.
  destruct (planned_runs prof files pre dir_sizes Hplan Hfiles) as (Hr & _ & _ & Hdl & Hfl & Hsum).
  destruct Hplan as (Hl & _ & _ & _ & _ & _ & -> & _).
  pose proof (counts_nonneg _ files dir_sizes Hl Hfiles
    (planned_dirs_nonneg prof files pre dir_sizes Hplan)) as Hcn.
  destruct (layout_ok_ranges _ Hl) as (_ & _ & Hfs). pose proof Hl as (_ & _ & _ & _ & Hfat & _ & Hcount).
  apply length_make_fat. rewrite (make_fat_entries_eq _ _ _ Hdl Hfl Hr Hcn) by lia.
  pose proof (length_chains ROOT_CLUSTER _ Hcn) as Hch. rewrite <-Hr in Hch.
  pose proof (sum_list_nonneg _ Hcn).
  unfold zlen in *. rewrite !length_app, length_replicate. simpl length.
  unfold FAT_ENTRY_SIZE, SECTOR_SIZE in *. lia.
Qed.

Lemma image_prefix :
  zlen (boot_region (layout pre) (fs_info pre) ++ fat_bytes pre ++ fat_bytes pre) = data_offset.
Proof using Hplan Hfiles.
  pose proof (length_boot_region (layout pre) (fs_info pre)) as Hb. pose proof length_fat as Hf.
  unfold zlen in *. rewrite !length_app. unfold data_offset, data_start.
  destruct Hplan as ((Hr & _) & _). rewrite Hr. unfold RESERVED_SECTORS, FAT_COUNT, SECTOR_SIZE in *. lia.
Qed.

Lemma length_image_body :
  zlen (image_body pre readers) =
    data_offset + sum_list (counts (layout pre) files dir_sizes) * cb_of pre ∧
  zlen (image_body pre readers) ≤ image_size pre.
Proof using Hplan Hfiles Hreaders.
  pose proof image_prefix as Hp. pose proof (length_regions _ _ _ data_regions_lengths) as Hd.
  destruct (planned_runs prof files pre dir_sizes Hplan Hfiles) as (_ & _ & _ & _ & _ & Hsum).
  destruct (planned_cb prof files pre dir_sizes Hplan) as [Hcb Hcbr].
  assert (zlen (image_body pre readers) =
    data_offset + sum_list (counts (layout pre) files dir_sizes) * cb_of pre) as Heq.
  { unfold image_body. rewrite !app_assoc, <-(app_assoc (boot_region _ _)). unfold zlen in *.
    rewrite (length_app (_ ++ _)), Nat2Z.inj_add, Hp, Hd. done. }
  split; [done|]. rewrite Heq.
  destruct Hplan as ((Hr & _ & _ & Htot & _) & Ht & Him & _).
  rewrite Ht in Htot. pose proof (Z.mul_div_le (image_size pre) SECTOR_SIZE ltac:(done)).
  unfold data_offset. rewrite Hcb. unfold cluster_bytes, SECTOR_SIZE in *. nia.
Qed.
End image.

(** Byte offset of a cluster. *)
Definition cluster_offset (pre : Precomputed) (c : Z) : Z :=
  data_offset pre + (c - ROOT_CLUSTER) * cluster_bytes (layout pre).
(** [n] bytes of an image from a byte offset on. *)
Definition bytes_at (img : list Z) (off n : Z) : list Z :=
  take (Z.to_nat n) (drop (Z.to_nat off) img).

Section located.
Context `{ReadLaws R} (prof : profile) (files : list FileMeta) (pre : Precomputed).
Context (dir_sizes : list Z) (readers : list R).
Context (Hplan : planned prof files pre dir_sizes) (Hfiles : ∀ f, f ∈ files → 0 ≤ size f).
Context (Hreaders : Forall2 (λ f r, size f ≤ zlen (remaining r)) files readers).

Lemma region_located i s c r n :
  runs (cluster_map pre) !! i = Some (s, c) → data_regions pre readers !! i = Some r →
  0 ≤ n ≤ zlen r →
  bytes_at (image pre readers) (cluster_offset pre s) n = take (Z.to_nat n) r.
Proof using Hplan Hfiles Hreaders.
  intros Hrun Hr Hn.
  destruct (planned_runs prof files pre dir_sizes Hplan Hfiles) as (Hruns & _).
  destruct (planned_cb prof files pre dir_sizes Hplan) as [Hcb Hcbr].
  pose proof (data_regions_lengths prof files pre dir_sizes readers Hplan Hfiles Hreaders) as Hlen.
  pose proof (image_prefix prof files pre dir_sizes Hplan Hfiles) as Hpre.
  pose proof Hplan as (Hl & _). pose proof (counts_nonneg _ files dir_sizes Hl Hfiles
    (planned_dirs_nonneg prof files pre dir_sizes Hplan)) as Hcn. rewrite Hruns in Hrun.
  set (pad := zeros (Z.to_nat (image_size pre - zlen (image_body pre readers)))).
  destruct (concat_at (cb_of pre) ROOT_CLUSTER _ _ i s c r pad Hlen Hcn ltac:(lia) Hrun Hr)
    as [Hs Hd].
  unfold bytes_at, image. fold pad. unfold image_body.
  rewrite <-!app_assoc, (app_assoc (fat_bytes pre)), (app_assoc (boot_region _ _)).
  unfold cluster_offset. rewrite <-Hcb, <-Hpre.
  replace (Z.to_nat (zlen (boot_region (layout pre) (fs_info pre) ++ fat_bytes pre ++ fat_bytes pre)
      + (s - ROOT_CLUSTER) * cb_of pre))
    with (length (boot_region (layout pre) (fs_info pre) ++ fat_bytes pre ++ fat_bytes pre)
      + Z.to_nat ((s - ROOT_CLUSTER) * cb_of pre))%nat by (unfold zlen; nia).
  rewrite drop_app_add, Hd. apply take_app_le. unfold zlen in *. lia.
Qed.

Lemma image_boot :
  bytes_at (image pre readers) 0 (8 * SECTOR_SIZE) = boot_region (layout pre) (fs_info pre).
Proof.
  pose proof (length_boot_region (layout pre) (fs_info pre)) as Hb.
  unfold bytes_at, image, image_body. change (Z.to_nat 0) with 0%nat.
  rewrite drop_0, <-app_assoc. apply take_app_length'. unfold zlen in Hb. lia.
Qed.

Lemma image_fat :
  bytes_at (image pre readers) (8 * SECTOR_SIZE) (fat_sectors (layout pre) * SECTOR_SIZE)
    = fat_bytes pre ∧
  bytes_at (image pre readers) ((8 + fat_sectors (layout pre)) * SECTOR_SIZE)
    (fat_sectors (layout pre) * SECTOR_SIZE) = fat_bytes pre.
Proof using Hplan Hfiles.
  pose proof (length_boot_region (layout pre) (fs_info pre)) as Hb.
  pose proof (length_fat prof files pre dir_sizes Hplan Hfiles) as Hf.
  unfold bytes_at, image, image_body. unfold zlen in *. rewrite <-!app_assoc. split.
  - rewrite drop_app_length' by lia. apply take_app_length'. lia.
  - rewrite (app_assoc (boot_region _ _)), drop_app_length'.
    + apply take_app_length'. lia.
    + rewrite length_app. unfold SECTOR_SIZE in *. lia.
Qed.

(** The runs of directories and files, by their index. *)
Lemma image_dir_run d data s :
  dir_data pre !! d = Some data → dir_starts (cluster_map pre) !! d = Some s →
  ∃ c, runs (cluster_map pre) !! d = Some (s, c) ∧
       data_regions pre readers !! d = Some (dir_region pre d).
Proof using Hplan Hfiles.
  intros Hd Hs. destruct (planned_runs prof files pre dir_sizes Hplan Hfiles)
    as (_ & Hdc & _ & Hdl & _).
  assert (d < length (dir_counts (cluster_map pre)))%nat as Hlt
    by (rewrite <-Hdl; by eapply lookup_lt_Some).
  destruct (lookup_lt_is_Some_2 _ _ Hlt) as [c Hc]. exists c. split.
  - unfold runs. rewrite lookup_app_l by (rewrite length_zip_with; lia).
    by rewrite lookup_zip_with, Hs, Hc.
  - destruct Hplan as (_ & _ & _ & _ & Hn & Hds & _).
    assert (d < tree_len (tree pre))%nat as Hdn.
    { rewrite <-Hn, Hds, length_fmap. by eapply lookup_lt_Some. }
    unfold data_regions. rewrite lookup_app_l by (by rewrite length_fmap, length_seq).
    by rewrite list_lookup_fmap, lookup_seq_lt.
Qed.

Lemma image_file_run i r s :
  readers !! i = Some r → file_starts (cluster_map pre) !! i = Some s →
  length files = length readers →
  ∃ c, runs (cluster_map pre) !! (length (dir_data pre) + i)%nat = Some (s, c) ∧
       data_regions pre readers !! (length (dir_data pre) + i)%nat
         = Some (file_region (size_at pre i) (cb_of pre) (remaining r)).
Proof using Hplan Hfiles.
  intros Hr Hs Hlen. destruct (planned_runs prof files pre dir_sizes Hplan Hfiles)
    as (_ & Hdc & Hfc & Hdl & Hfl & _).
  destruct Hplan as (_ & _ & _ & _ & Hn & Hds & _).
  assert (length (dir_counts (cluster_map pre)) = length (dir_data pre)) as Hdd.
  { rewrite Hdc, Hds. unfold dir_clusters. by rewrite !length_fmap. }
  assert (i < length (file_counts (cluster_map pre)))%nat as Hlt
    by (rewrite <-Hfl; by eapply lookup_lt_Some).
  destruct (lookup_lt_is_Some_2 _ _ Hlt) as [c Hc]. exists c. split.
  - unfold runs. rewrite lookup_app_r by (rewrite length_zip_with; lia).
    rewrite length_zip_with, Hdl, Hdd.
    replace (length (dir_data pre) + i - Nat.min (length (dir_data pre)) (length (dir_data pre)))%nat
      with i by lia. by rewrite lookup_zip_with, Hs, Hc.
  - unfold data_regions. rewrite Hds, length_fmap in Hn.
    rewrite lookup_app_r by (rewrite length_fmap, length_seq; lia).
    rewrite length_fmap, length_seq, <-Hn.
    replace (length (dir_data pre) + i - length (dir_data pre))%nat with i by lia.
    unfold file_regions. by rewrite list_lookup_imap, Hr.
Qed.
End located.

(** C3: A file set that [precompute] accepts, built into memory from readers
    that hold the announced bytes, gives an image of exactly the requested
    size: the reserved region with the boot sector and its backup, two equal
    copies of the allocation table behind it, and every directory's entries
    and every file's contents at the offset of the cluster the table and the
    directory entries name. Any other sink that accepts the image receives
    the same bytes. *)
Theorem build_image_correct `{Uppercase} `{ReadLaws R} prof files img_size pre (readers : list R) :
  16 * SECTOR_SIZE ≤ img_size → (∀ f, f ∈ files → 0 ≤ size f) →
  Z.of_nat (tree_len (collect files)) + zlen files < 2 ^ 48 →
  precompute prof files img_size = Ok pre →
  Forall2 (λ f r, size f ≤ zlen (remaining r)) files readers →
  ∃ img rs, build prof pre readers ([] : list Z) = Ok (img, rs) ∧ zlen img = img_size ∧
    (let l := layout pre in
     bytes_at img 0 (8 * SECTOR_SIZE) = boot_region l (fs_info pre) ∧
     bytes_at img (8 * SECTOR_SIZE) (fat_sectors l * SECTOR_SIZE) = fat_bytes pre ∧
     bytes_at img ((8 + fat_sectors l) * SECTOR_SIZE) (fat_sectors l * SECTOR_SIZE) = fat_bytes pre) ∧
    (∀ d data s, dir_data pre !! d = Some data → dir_starts (cluster_map pre) !! d = Some s →
       bytes_at img (cluster_offset pre s) (zlen data) = data) ∧
    (∀ i f r s, files !! i = Some f → readers !! i = Some r →
       file_starts (cluster_map pre) !! i = Some s →
       bytes_at img (cluster_offset pre s) (size f) = take (Z.to_nat (size f)) (remaining r)) ∧
    (∀ W `(WriteLaws W) (w w' : W) rs',
       build prof pre readers w = Ok (w', rs') → written w' = written w ++ img).
Proof.
  intros Hmin Hfiles Hent Hp Hrd.
  assert (∀ d, zlen (tree_entries (collect files) files d) < 2 ^ 48) as Hent'.
  { intros d. pose proof (length_tree_entries files d). lia. }
  destruct (precompute_planned prof files img_size pre Hmin Hent' Hp) as (Htree & Himg & ds & Hplan).
  destruct (length_image_body prof files pre ds readers Hplan Hfiles Hrd) as [Hbody Hle].
  pose proof Hplan as (Hl & _ & Him & _ & Hlds & Hds & _).
  assert (image_size pre < 2 ^ 62) as H62 by (change MAX_IMAGE_SIZE with (0xFFFFFFFF * 512) in Him; lia).
  assert (∀ i, 0 ≤ size_at pre i < 2 ^ 64) as Hsz.
  { intros i. destruct (planned_sizes prof files pre ds Hplan Hfiles i) as [_ ?]. lia. }
  assert (zlen (image_body pre readers) < 2 ^ 62) as Hb62 by lia.
  destruct (build_total prof pre readers Hl Hsz H62 Hb62) as (img & rs & Hb & ->).
  { intros i r Hr. destruct (reader_size prof files pre ds readers Hplan Hfiles Hrd i r Hr)
      as (f & _ & -> & ?). lia. }
  destruct (planned_runs prof files pre ds Hplan Hfiles) as (_ & Hdc & Hfc & Hdl & Hfl & _).
  exists (image pre readers), rs. cbv zeta. split_and!; [done| | | | | | |].
  - unfold image, zlen in *. rewrite length_app, length_zeros, <-Himg. lia.
  - apply image_boot.
  - by apply (image_fat prof files pre ds).
  - by apply (image_fat prof files pre ds).
  - intros d data s Hd Hs.
    destruct (image_dir_run prof files pre ds readers Hplan Hfiles d data s Hd Hs) as (c & Hrun & Hreg).
    assert (dir_clusters (layout pre) ds !! d = Some (div_ceil (zlen data) (cluster_bytes (layout pre)))) as Hc
      by (unfold dir_clusters; rewrite Hds, !list_lookup_fmap, Hd; done).
    destruct (length_dir_region prof files pre ds Hplan Hfiles d _ Hc) as [Hlen Htake].
    rewrite Hd in Htake. cbn [default from_option id] in Htake.
    rewrite (region_located prof files pre ds readers Hplan Hfiles Hrd d s c (dir_region pre d)
      (zlen data) Hrun Hreg).
    + unfold zlen. by rewrite Nat2Z.id.
    + destruct (planned_cb prof files pre ds Hplan) as [Hcb Hcbr]. rewrite Hlen, Hcb.
      rewrite Hcb in Hcbr. pose proof (div_ceil_spec (zlen data) (cluster_bytes (layout pre)) ltac:(lia)).
      unfold zlen in *. lia.
  - intros i f r s Hf Hr Hs.
    destruct (image_file_run prof files pre ds readers Hplan Hfiles i r s Hr Hs) as (c & Hrun & Hreg).
    { by eapply Forall2_length. }
    destruct (reader_size prof files pre ds readers Hplan Hfiles Hrd i r Hr) as (f' & Hf' & Hsize & Hfr).
    rewrite Hf in Hf'. injection Hf' as <-. destruct (planned_cb prof files pre ds Hplan) as [Hcb Hcbr].
    destruct (length_file_region (size f) (cb_of pre) (remaining r) Hfr ltac:(lia)) as [Hlen Htake].
    rewrite (region_located prof files pre ds readers Hplan Hfiles Hrd _ s c _ (size f) Hrun Hreg).
    + by rewrite Hsize.
    + rewrite Hsize, Hlen. pose proof (div_ceil_spec (size f) (cb_of pre) ltac:(lia)). lia.
  - intros W HW HWL w w' rs' Hbw. by apply (build_written prof pre readers w w' rs').
Qed.

Definition sample_contents : list (list Z) := [replicate 1300 7; []; replicate 600 9].

Lemma build_image_correct_witness :
  ∃ pre img rs,
    precompute (H:=ascii_upper) debug sample_files (36 * 1024 * 1024) = Ok pre ∧
    build debug pre sample_contents ([] : list Z) = Ok (img, rs) ∧
    zlen img = 36 * 1024 * 1024 ∧
    ∀ s, file_starts (cluster_map pre) !! 2%nat = Some s →
      bytes_at img (cluster_offset pre s) 512 = replicate 512 9.
Proof.
  assert (is_ok (precompute (H:=ascii_upper) debug sample_files (36 * 1024 * 1024)) = true) as Hok
    by (vm_compute; reflexivity).
  destruct (precompute (H:=ascii_upper) debug sample_files (36 * 1024 * 1024)) as [pre| |] eqn:Hp;
    [|discriminate Hok..].
  destruct (build_image_correct (H:=ascii_upper) debug sample_files (36 * 1024 * 1024) pre
    sample_contents) as (img & rs & Hb & Hlen & _ & _ & Hf & _).
  - unfold SECTOR_SIZE; lia.
  - exact sample_files_ok.
  - vm_compute. reflexivity.
  - exact Hp.
  - repeat constructor; vm_compute; discriminate.
  - exists pre, img, rs. split; [reflexivity|]. split; [exact Hb|]. split; [exact Hlen|].
    intros s Hs. apply (Hf 2%nat {| path := ustr "a.txt"; size := 512 |} (replicate 600 9) s);
      [reflexivity|reflexivity|exact Hs].
Defined.
