(* ===== verification/Text.v ===== *)
(** Operations of the Rust [str] type and of the standard integer parser
    that the services use, on strings as lists of scalar values:
    [strip_prefix], [split_once], [lines], [str::from_utf8], [u32::from_str]
    and the decimal [Display] of unsigned integers. *)

From S2P Require Import Prelude Utf.

Definition LF : Z := 10.
Definition CR : Z := 13.

(** ** Searching *)

Fixpoint strip_prefix (p s : ustring) : option ustring :=
  match p, s with
  | [], _ => Some s
  | a :: p, c :: s => if decide (a = c) then strip_prefix p s else None
  | _ :: _, [] => None
  end.

(** [str::split_once] on a single character. *)
Fixpoint split_once (c : Z) (s : ustring) : option (ustring * ustring) :=
  match s with
  | [] => None
  | x :: s =>
      if decide (x = c) then Some ([], s)
      else match split_once c s with
           | Some (a, b) => Some (x :: a, b)
           | None => None
           end
  end.

(** The carriage return in front of a line feed belongs to the line end. *)
Definition strip_cr (l : ustring) : ustring :=
  match last l with
  | Some c => if decide (c = CR) then removelast l else l
  | None => l
  end.

(** [str::lines]: a final line feed starts no further line, and a carriage
    return is dropped only in front of a line feed. *)
Fixpoint lines_from (cur s : ustring) : list ustring :=
  match s with
  | [] => match cur with [] => [] | _ => [cur] end
  | c :: s =>
      if decide (c = LF) then strip_cr cur :: lines_from [] s
      else lines_from (cur ++ [c]) s
  end.
Definition lines (s : ustring) : list ustring := lines_from [] s.

(** ** Numbers *)

Definition digit_value (c : Z) : option Z :=
  if (48 <=? c) && (c <=? 57) then Some (c - 48) else None.

Fixpoint parse_digits (w acc : Z) (s : ustring) : option Z :=
  match s with
  | [] => Some acc
  | c :: s =>
      d ← digit_value c;
      a ← checked_mul w acc 10;
      a ← checked_add w a d;
      parse_digits w a s
  end.

(** [uN::from_str]: an optional plus sign and at least one digit. *)
Definition parse_uint (w : Z) (s : ustring) : option Z :=
  match s with
  | [] => None
  | c :: rest =>
      if decide (c = 43)
      then match rest with [] => None | _ => parse_digits w 0 rest end
      else parse_digits w 0 s
  end.

(** [Display] of an unsigned integer. *)
Fixpoint decimal_fuel (fuel : nat) (z : Z) : ustring :=
  match fuel with
  | O => []
  | S fuel => (if z <? 10 then [] else decimal_fuel fuel (z / 10)) ++ [48 + z mod 10]
  end.
Definition decimal (z : Z) : ustring := decimal_fuel 20 z.

(** ** UTF-8 *)

Definition is_cont (b : Z) : bool := (0x80 <=? b) && (b <=? 0xBF).

(** [str::from_utf8]: shortest forms of scalar values only. *)
Fixpoint from_utf8 (bs : list Z) : option ustring :=
  match bs with
  | [] => Some []
  | b :: r =>
      if b <? 0x80 then cons b <$> from_utf8 r
      else match r with
      | [] => None
      | b1 :: r1 =>
          if (0xC2 <=? b) && (b <=? 0xDF) && is_cont b1
          then cons ((b - 0xC0) * 0x40 + (b1 - 0x80)) <$> from_utf8 r1
          else match r1 with
          | [] => None
          | b2 :: r2 =>
              let c := (b - 0xE0) * 0x1000 + (b1 - 0x80) * 0x40 + (b2 - 0x80) in
              if (0xE0 <=? b) && (b <=? 0xEF) && is_cont b1 && is_cont b2
                 && (0x800 <=? c) && negb (is_surrogate c)
              then cons c <$> from_utf8 r2
              else match r2 with
              | [] => None
              | b3 :: r3 =>
                  let c := (b - 0xF0) * 0x40000 + (b1 - 0x80) * 0x1000
                           + (b2 - 0x80) * 0x40 + (b3 - 0x80) in
                  if (0xF0 <=? b) && (b <=? 0xF4) && is_cont b1 && is_cont b2 && is_cont b3
                     && (0x10000 <=? c) && (c <=? 0x10FFFF)
                  then cons c <$> from_utf8 r3
                  else None
              end
          end
      end
  end.

(** ** Lemmas *)

Lemma strip_prefix_app p s : strip_prefix p (p ++ s) = Some s.
Proof. induction p; simpl; [done|]. by rewrite decide_True by done. Qed.

Lemma strip_prefix_Some p s r : strip_prefix p s = Some r ↔ s = p ++ r.
Proof.
  split; [|intros ->; apply strip_prefix_app].
  revert s; induction p as [|a p IH]; intros [|c s]; simpl; try naive_solver.
  case_decide; [|done]. subst. intros H. f_equal. by apply IH.
Qed.

Lemma split_once_Some c s a b :
  split_once c s = Some (a, b) ↔ s = a ++ c :: b ∧ c ∉ a.
Proof.
  revert a b; induction s as [|x s IH]; intros a b; simpl.
  { split; [done|]. intros [H _]. by destruct a. }
  case_decide as Hx.
  - subst. split.
    + intros [= <- <-]. split; [done|set_solver].
    + intros [H Hc]. destruct a as [|y a]; simplify_eq/=; [done|set_solver].
  - split.
    + intros H. destruct (split_once c s) as [[a' b']|]; [|done].
      injection H as <- <-. destruct (proj1 (IH a' b') eq_refl) as [-> ?].
      split; [done|set_solver].
    + intros [H Hc]. destruct a as [|y a]; simplify_eq/=.
      destruct (IH a b) as [_ ->]; [done|]. split; [done|set_solver].
Qed.

Lemma split_once_None c s : split_once c s = None ↔ c ∉ s.
Proof.
  induction s as [|x s IH]; simpl; [set_solver|]. case_decide; [set_solver|].
  destruct (split_once c s) as [[? ?]|]; set_solver.
Qed.

Lemma strip_cr_id l : last l ≠ Some CR → strip_cr l = l.
Proof. intros H. unfold strip_cr. destruct (last l); [|done]. case_decide; naive_solver. Qed.

(** One line in front of a line feed. *)
Lemma lines_from_lf cur l s :
  LF ∉ l → lines_from cur (l ++ LF :: s) = strip_cr (cur ++ l) :: lines_from [] s.
Proof.
  revert cur; induction l as [|c l IH]; intros cur Hl; cbn [lines_from app].
  - by rewrite decide_True, app_nil_r by done.
  - rewrite decide_False by set_solver. rewrite IH by set_solver. by rewrite <-app_assoc.
Qed.

Lemma lines_lf l s :
  LF ∉ l → last l ≠ Some CR → lines (l ++ LF :: s) = l :: lines s.
Proof. intros. unfold lines. rewrite lines_from_lf by done. simpl. by rewrite strip_cr_id. Qed.

Lemma lines_from_last cur l :
  LF ∉ l → cur ++ l ≠ [] → lines_from cur l = [cur ++ l].
Proof.
  revert cur; induction l as [|c l IH]; intros cur Hl Hne; simpl.
  - rewrite app_nil_r in *. by destruct cur.
  - rewrite decide_False by set_solver. rewrite IH; [by rewrite <-app_assoc|set_solver|].
    rewrite <-app_assoc. done.
Qed.

Lemma lines_last l : LF ∉ l → l ≠ [] → lines l = [l].
Proof. intros. unfold lines. by rewrite lines_from_last. Qed.

Lemma digit_value_digit d : 0 ≤ d < 10 → digit_value (48 + d) = Some d.
Proof.
  intros Hd. unfold digit_value.
  rewrite (proj2 (Z.leb_le _ _)), (proj2 (Z.leb_le _ _)) by lia. simpl. f_equal. lia.
Qed.

(** Parsing a digit string followed by one more digit. *)
Lemma parse_digits_snoc w acc s v d :
  parse_digits w acc s = Some v → 0 ≤ d < 10 → v * 10 + d < 2 ^ w → 0 ≤ v →
  parse_digits w acc (s ++ [48 + d]) = Some (v * 10 + d).
Proof.
  revert acc; induction s as [|c s IH]; intros acc; simpl; intros H Hd Hb Hv.
  - injection H as ->. rewrite digit_value_digit by done. simpl.
    rewrite (proj2 (checked_mul_Some w v 10 (v * 10))) by (unfold uint_max; lia). simpl.
    by rewrite (proj2 (checked_add_Some w (v * 10) d (v * 10 + d))) by (unfold uint_max; lia).
  - destruct (digit_value c); simpl in *; [|done].
    destruct (checked_mul w acc 10); simpl in *; [|done].
    destruct (checked_add w z0 z); simpl in *; [|done]. by apply IH.
Qed.

Lemma parse_decimal_fuel fuel w z :
  0 ≤ z < 2 ^ w → z < 10 ^ Z.of_nat fuel → (0 < fuel)%nat →
  parse_digits w 0 (decimal_fuel fuel z) = Some z.
Proof.
  revert z; induction fuel as [|fuel IH]; intros z Hz Hf Hn; [lia|]. cbn [decimal_fuel].
  pose proof (Z.mod_pos_bound z 10 ltac:(lia)). pose proof (Z.div_mod z 10 ltac:(lia)).
  destruct (Z.ltb_spec z 10) as [Hlt|Hge].
  - rewrite (parse_digits_snoc w 0 [] 0); [f_equal|done|lia..].
    rewrite Z.mod_small by lia. lia.
  - rewrite (parse_digits_snoc w 0 _ (z / 10)); [f_equal; lia| |lia..|apply Z.div_pos; lia].
    rewrite Nat2Z.inj_succ, Z.pow_succ_r in Hf by lia.
    apply IH; [|apply Z.div_lt_upper_bound; lia|].
    + split; [apply Z.div_pos|]; lia.
    + destruct fuel; [|lia]. change (10 ^ Z.of_nat 0) with 1 in Hf. lia.
Qed.

Lemma decimal_fuel_nonempty fuel z :
  (0 < fuel)%nat → ∃ c s, decimal_fuel fuel z = c :: s.
Proof.
  destruct fuel as [|fuel]; [lia|]. intros _. cbn [decimal_fuel].
  destruct (if z <? 10 then [] else _) as [|c s]; simpl; eauto.
Qed.

Lemma decimal_fuel_digits fuel z : Forall (λ c, 48 ≤ c ≤ 57) (decimal_fuel fuel z).
Proof.
  revert z; induction fuel as [|fuel IH]; intros z; cbn [decimal_fuel]; [constructor|].
  apply Forall_app; split; [destruct (z <? 10); auto|].
  pose proof (Z.mod_pos_bound z 10). constructor; [lia|constructor].
Qed.

Lemma decimal_are_digits z : Forall (λ c, 48 ≤ c ≤ 57) (decimal z).
Proof. apply decimal_fuel_digits. Qed.

(** Every [u64] is read back from its decimal form. *)
Lemma parse_decimal w z : 0 ≤ z < 2 ^ w → w ≤ 64 → parse_uint w (decimal z) = Some z.
Proof.
  intros Hz Hw.
  assert (z < 10 ^ Z.of_nat 20) as Hlt.
  { eapply Z.lt_le_trans; [apply Hz|]. transitivity (2 ^ 64).
    - apply Z.pow_le_mono_r; lia.
    - vm_compute. discriminate. }
  pose proof (parse_decimal_fuel 20 w z Hz Hlt (Nat.lt_0_succ 19)) as Hp. clear Hlt.
  pose proof (decimal_are_digits z) as Hd. unfold decimal in *. unfold parse_uint.
  destruct (decimal_fuel_nonempty 20 z (Nat.lt_0_succ 19)) as (c & s & E). rewrite E in *.
  apply Forall_cons in Hd as [Hc _]. rewrite decide_False by lia. done.
Qed.

Lemma is_cont_true x : 0 ≤ x < 0x40 → is_cont (0x80 + x) = true.
Proof. intros. unfold is_cont. apply andb_true_iff; split; apply Z.leb_le; lia. Qed.

Ltac ztest :=
  repeat match goal with
  | |- context [?a <=? ?b] =>
      first [rewrite (proj2 (Z.leb_le a b)) by lia | rewrite (proj2 (Z.leb_gt a b)) by lia]
  | |- context [?a <? ?b] =>
      first [rewrite (proj2 (Z.ltb_lt a b)) by lia | rewrite (proj2 (Z.ltb_ge a b)) by lia]
  end.

(** Decoding one encoded scalar value in front of any tail. *)
Lemma from_utf8_char c bs :
  is_char c → from_utf8 (encode_utf8 c ++ bs) = cons c <$> from_utf8 bs.
Proof.
  intros Hc. unfold is_char in Hc. unfold encode_utf8.
  pose proof (Z.mod_pos_bound c 0x40 ltac:(lia)).
  pose proof (Z.mod_pos_bound (c / 0x40) 0x40 ltac:(lia)).
  pose proof (Z.mod_pos_bound (c / 0x1000) 0x40 ltac:(lia)).
  pose proof (Z.div_mod c 0x40 ltac:(lia)).
  pose proof (Z.div_mod (c / 0x40) 0x40 ltac:(lia)) as H40.
  pose proof (Z.div_mod (c / 0x1000) 0x40 ltac:(lia)) as H1000.
  rewrite Z.div_div in H40, H1000 by lia.
  change (0x40 * 0x40) with 0x1000 in H40. change (0x1000 * 0x40) with 0x40000 in H1000.
  destruct (Z.ltb_spec c 0x80); [|destruct (Z.ltb_spec c 0x800);
    [|destruct (Z.ltb_spec c 0x10000)]]; cbn [app from_utf8].
  - by ztest.
  - unfold is_cont. ztest. cbn [andb]. do 2 f_equal. lia.
  - assert (is_surrogate c = false) as Hs.
    { unfold is_surrogate. destruct Hc; ztest; done. }
    assert ((0xE0 + c / 0x1000 - 0xE0) * 0x1000 + (0x80 + c / 0x40 mod 0x40 - 0x80) * 0x40
            + (0x80 + c mod 0x40 - 0x80) = c) as -> by lia.
    rewrite Hs. unfold is_cont. ztest. cbn [andb negb]. done.
  - unfold is_cont.
    assert ((0xF0 + c / 0x40000 - 0xF0) * 0x40000 + (0x80 + c / 0x1000 mod 0x40 - 0x80) * 0x1000
            + (0x80 + c / 0x40 mod 0x40 - 0x80) * 0x40 + (0x80 + c mod 0x40 - 0x80) = c)
      as -> by lia.
    ztest. cbn [andb]. done.
Qed.

(** UTF-8 round trip. *)
Lemma from_utf8_utf8 s : is_ustring s → from_utf8 (utf8 s) = Some s.
Proof.
  induction 1 as [|c s Hc _ IH]; [done|].
  unfold utf8 in *. cbn [mbind list_bind]. rewrite from_utf8_char by done.
  change (list_bind _ _ encode_utf8 s) with (s ≫= encode_utf8). by rewrite IH.
Qed.
