(* ===== verification/Str.v ===== *)
(** More of the Rust [str] type, for code that works with byte offsets:
    [split], [rsplit], [rsplit_once], [strip_suffix], [trim], [len] and [get] on
    a byte range. A string is the list of its scalar values; [blen] is the
    length of its UTF-8 form, in which offsets count. *)

From S2P Require Import Prelude Utf Text.

Definition blen (s : ustring) : Z := zlen (utf8 s).

(** ** Splitting *)

(** [str::split] on a character. *)
Fixpoint split_from (c : Z) (cur s : ustring) : list ustring :=
  match s with
  | [] => [cur]
  | x :: s => if decide (x = c) then cur :: split_from c [] s else split_from c (cur ++ [x]) s
  end.
Definition split_on (c : Z) (s : ustring) : list ustring := split_from c [] s.

(** [str::rsplit(c).next()], which always yields a segment. *)
Definition last_segment (c : Z) (s : ustring) : ustring := default [] (last (split_on c s)).

(** [str::rsplit_once] on a character. *)
Definition rsplit_once (c : Z) (s : ustring) : option (ustring * ustring) :=
  '(a, b) ← split_once c (rev s); Some (rev b, rev a).

Definition strip_suffix (p s : ustring) : option ustring :=
  r ← strip_prefix (rev p) (rev s); Some (rev r).

(** ** White space *)

(** [char::is_whitespace]: the Unicode property [White_Space]. *)
Definition is_whitespace (c : Z) : bool :=
  ((9 <=? c) && (c <=? 13)) || (c =? 32) || (c =? 0x85) || (c =? 0xA0) || (c =? 0x1680)
  || ((0x2000 <=? c) && (c <=? 0x200A)) || (c =? 0x2028) || (c =? 0x2029) || (c =? 0x202F)
  || (c =? 0x205F) || (c =? 0x3000).

Fixpoint trim_start (s : ustring) : ustring :=
  match s with
  | c :: r => if is_whitespace c then trim_start r else s
  | [] => []
  end.
Definition trim_end (s : ustring) : ustring := rev (trim_start (rev s)).
Definition trim (s : ustring) : ustring := trim_end (trim_start s).

(** ** Byte ranges *)

(** [str::split_at_checked]: [None] inside a character or past the end. *)
Fixpoint split_at_bytes (n : Z) (s : ustring) : option (ustring * ustring) :=
  if n =? 0 then Some ([], s)
  else match s with
  | [] => None
  | c :: s =>
      let k := zlen (encode_utf8 c) in
      if k <=? n then '(a, b) ← split_at_bytes (n - k) s; Some (c :: a, b) else None
  end.

(** [s.get(a..b)]. *)
Definition str_get (s : ustring) (a b : Z) : option ustring :=
  if a <=? b then
    '(_, r) ← split_at_bytes a s; '(m, _) ← split_at_bytes (b - a) r; Some m
  else None.

(** ** Lemmas *)

Lemma utf8_ascii s : Forall (λ c, 0 ≤ c < 128) s → utf8 s = s.
Proof.
  induction 1 as [|c s Hc _ IH]; [done|]. unfold utf8 in *. cbn [mbind list_bind].
  by rewrite IH, encode_utf8_ascii.
Qed.

Lemma utf8_inj s t : is_ustring s → is_ustring t → utf8 s = utf8 t → s = t.
Proof.
  intros Hs Ht Heq. apply from_utf8_utf8 in Hs, Ht. rewrite Heq in Hs. congruence.
Qed.

Lemma blen_nil : blen [] = 0.
Proof. done. Qed.

Lemma blen_cons c s : blen (c :: s) = zlen (encode_utf8 c) + blen s.
Proof.
  unfold blen. change (utf8 (c :: s)) with (encode_utf8 c ++ utf8 s).
  unfold zlen. rewrite length_app. lia.
Qed.

Lemma blen_app s t : blen (s ++ t) = blen s + blen t.
Proof.
  induction s as [|c s IH]; [done|]. rewrite <-app_comm_cons, !blen_cons, IH. lia.
Qed.

Lemma blen_nonneg s : 0 ≤ blen s.
Proof. unfold blen, zlen. lia. Qed.

Lemma encode_utf8_pos c : 0 < zlen (encode_utf8 c).
Proof. unfold encode_utf8, zlen. repeat case_match; simpl; lia. Qed.

Lemma blen_ascii c : 0 ≤ c < 128 → blen [c] = 1.
Proof. intros. rewrite blen_cons, blen_nil, encode_utf8_ascii by done. done. Qed.

Lemma blen_cons_ascii c s : 0 ≤ c < 128 → blen (c :: s) = 1 + blen s.
Proof. intros. rewrite blen_cons, encode_utf8_ascii by done. done. Qed.

#[export] Hint Rewrite blen_app blen_nil blen_cons : blen.

Lemma split_at_bytes_app s t : split_at_bytes (blen s) (s ++ t) = Some (s, t).
Proof.
  induction s as [|c s IH]; [by destruct t|]. rewrite blen_cons.
  pose proof (encode_utf8_pos c). pose proof (blen_nonneg s).
  cbn [app split_at_bytes]. rewrite (proj2 (Z.eqb_neq _ _)) by lia.
  rewrite (proj2 (Z.leb_le _ _)) by lia.
  replace (zlen (encode_utf8 c) + blen s - zlen (encode_utf8 c)) with (blen s) by lia.
  by rewrite IH.
Qed.

(** The range that covers a known part. *)
Lemma str_get_mid pre mid post :
  str_get (pre ++ mid ++ post) (blen pre) (blen pre + blen mid) = Some mid.
Proof.
  unfold str_get. pose proof (blen_nonneg mid). rewrite (proj2 (Z.leb_le _ _)) by lia.
  rewrite split_at_bytes_app. cbn [mbind option_bind].
  replace (blen pre + blen mid - blen pre) with (blen mid) by lia.
  by rewrite split_at_bytes_app.
Qed.

Lemma trim_start_spec s :
  ∃ ws, s = ws ++ trim_start s ∧ Forall (λ c, is_whitespace c = true) ws ∧
        match trim_start s with c :: _ => is_whitespace c = false | [] => True end.
Proof.
  induction s as [|c s (ws & Hs & Hw & Hh)]; simpl; [by exists []|].
  destruct (is_whitespace c) eqn:Hc; [|by exists []].
  exists (c :: ws). split_and!; [simpl; by f_equal|by constructor|done].
Qed.

Lemma trim_end_spec s :
  ∃ ws, s = trim_end s ++ ws ∧ Forall (λ c, is_whitespace c = true) ws.
Proof.
  destruct (trim_start_spec (rev s)) as (ws & Hs & Hw & _). exists (rev ws). split.
  - unfold trim_end. rewrite <-rev_app_distr, <-Hs. by rewrite rev_involutive.
  - rewrite <-(rev_involutive ws) in Hw. by apply Forall_rev in Hw; rewrite rev_involutive in Hw.
Qed.

(** [s] is blanks, its trimmed form, blanks. *)
Lemma trim_spec s : ∃ a b, s = a ++ trim s ++ b ∧ s = a ++ trim_start s ∧
  Forall (λ c, is_whitespace c = true) (a ++ b).
Proof.
  destruct (trim_start_spec s) as (a & Ha & Hwa & _).
  destruct (trim_end_spec (trim_start s)) as (b & Hb & Hwb).
  exists a, b. split_and!; [|done|by apply Forall_app]. unfold trim. by rewrite <-Hb.
Qed.

Lemma trim_start_not_blank s : is_Some (head s) → (∀ c, head s = Some c → is_whitespace c = false) →
  trim_start s = s.
Proof. destruct s as [|c s]; [by intros []|]. intros _ Hc. simpl. by rewrite (Hc c eq_refl). Qed.

(** Pieces of a split, joined again. *)
Fixpoint join (c : Z) (l : list ustring) : ustring :=
  match l with
  | [] => []
  | [s] => s
  | s :: l => s ++ c :: join c l
  end.

Lemma join_cons c s l : l ≠ [] → join c (s :: l) = s ++ c :: join c l.
Proof. by destruct l. Qed.

Lemma split_from_cons c cur s : ∃ x l, split_from c cur s = (cur ++ x) :: l.
Proof.
  revert cur; induction s as [|y s IH]; intros cur; simpl.
  { exists [], []. by rewrite app_nil_r. }
  case_decide; [exists [], (split_from c [] s); by rewrite app_nil_r|].
  destruct (IH (cur ++ [y])) as (x & l & ->). exists (y :: x), l. by rewrite <-app_assoc.
Qed.

Lemma join_split_from c cur s : join c (split_from c cur s) = cur ++ s.
Proof.
  revert cur; induction s as [|y s IH]; intros cur; cbn [split_from]; [by rewrite app_nil_r|].
  case_decide as Hy.
  - subst. pose proof (IH []) as E. destruct (split_from_cons c [] s) as (x & l & Hx).
    rewrite Hx in *. rewrite join_cons by done. by rewrite E.
  - rewrite IH. by rewrite <-app_assoc.
Qed.

Lemma join_split c s : join c (split_on c s) = s.
Proof. apply (join_split_from c []). Qed.

Lemma split_from_free c cur s : c ∉ cur → Forall (λ x, c ∉ x) (split_from c cur s).
Proof.
  revert cur; induction s as [|y s IH]; intros cur Hc; simpl; [by repeat constructor|].
  case_decide; [constructor; [done|]; apply IH; set_solver|]. apply IH. set_solver.
Qed.

Lemma split_on_free c s : Forall (λ x, c ∉ x) (split_on c s).
Proof. apply split_from_free. set_solver. Qed.

Lemma split_on_nonempty c s : split_on c s ≠ [].
Proof. unfold split_on. by destruct (split_from_cons c [] s) as (x & l & ->). Qed.

Lemma join_last c l x : l ≠ [] → join c (l ++ [x]) = join c l ++ c :: x.
Proof.
  induction l as [|y l IH]; [done|]. intros _. destruct l as [|z l]; [done|].
  change ((y :: z :: l) ++ [x]) with (y :: (z :: l) ++ [x]).
  rewrite join_cons by done. rewrite IH, (join_cons c y) by done. by rewrite <-app_assoc.
Qed.

(** The last segment is a suffix. *)
Lemma last_segment_suffix c s : ∃ dir, s = dir ++ last_segment c s.
Proof.
  unfold last_segment. pose proof (join_split c s) as Hj. pose proof (split_on_nonempty c s) as Hne.
  destruct (split_on c s) as [|x l _] using rev_ind; [done|]. rewrite last_snoc. simpl.
  destruct (decide (l = [])) as [->|Hl]; [exists []; by rewrite <-Hj|].
  rewrite join_last in Hj by done. exists (join c l ++ [c]). rewrite <-Hj at 1. by rewrite <-app_assoc.
Qed.

Lemma strip_suffix_Some p s r : strip_suffix p s = Some r ↔ s = r ++ p.
Proof.
  unfold strip_suffix. split.
  - intros H. destruct (strip_prefix (rev p) (rev s)) as [q|] eqn:E; [|done].
    injection H as <-. apply strip_prefix_Some in E.
    rewrite <-(rev_involutive s), E, rev_app_distr. by rewrite rev_involutive.
  - intros ->. rewrite rev_app_distr, strip_prefix_app. cbn [mbind option_bind].
    by rewrite rev_involutive.
Qed.

Lemma rsplit_once_Some c s a b : rsplit_once c s = Some (a, b) ↔ s = a ++ c :: b ∧ c ∉ b.
Proof.
  unfold rsplit_once. split.
  - intros H. destruct (split_once c (rev s)) as [[x y]|] eqn:E; [|done].
    injection H as <- <-. apply split_once_Some in E as [E Hx]. split.
    + rewrite <-(rev_involutive s), E, rev_app_distr. simpl. by rewrite <-app_assoc.
    + rewrite list_elem_of_In, <-in_rev, <-list_elem_of_In. done.
  - intros [-> Hb].
    rewrite (proj2 (split_once_Some c _ (rev b) (rev a))).
    + cbn [mbind option_bind]. by rewrite !rev_involutive.
    + split; [rewrite rev_app_distr; simpl; by rewrite <-app_assoc|].
      rewrite list_elem_of_In, <-in_rev, <-list_elem_of_In. done.
Qed.

Lemma split_from_app c cur a b : split_from c cur (a ++ c :: b) = split_from c cur a ++ split_on c b.
Proof.
  revert cur; induction a as [|x a IH]; intros cur; simpl.
  - by rewrite decide_True.
  - case_decide; [by rewrite IH|apply IH].
Qed.

Lemma split_on_app c a b : split_on c (a ++ c :: b) = split_on c a ++ split_on c b.
Proof. apply split_from_app. Qed.

Lemma split_from_none c cur s : c ∉ s → split_from c cur s = [cur ++ s].
Proof.
  revert cur; induction s as [|x s IH]; intros cur Hs; simpl; [by rewrite app_nil_r|].
  rewrite decide_False by set_solver. rewrite IH by set_solver. by rewrite <-app_assoc.
Qed.

Lemma split_on_none c s : c ∉ s → split_on c s = [s].
Proof. apply split_from_none. Qed.

Lemma last_segment_app c a b : last_segment c (a ++ c :: b) = last_segment c b.
Proof.
  unfold last_segment. rewrite split_on_app. pose proof (split_on_nonempty c b) as Hne.
  destruct (split_on c b) as [|y l _] using rev_ind; [done|]. by rewrite app_assoc, !last_snoc.
Qed.
