(* ===== verification/Cpio.v ===== *)
(** The initramfs archive writer (toolchain/ramune/src/cpio.rs, archive.rs,
    compress.rs and error.rs).

    An archive is a sequence of [newc] entries and a trailer. The reference is
    a reader of the format ([parse_archive]); the theorems say that it finds
    in a written archive exactly the entries, sorted by path, with their
    contents, and that the predicted size is exact. *)

From S2P Require Import Prelude Io Utf Text Str Order.

(** ** Errors *)

Inductive RamuneError :=
| ReadError (file : ustring) (source : io_error)
| WriteError (file : ustring) (source : io_error)
| ZstdInitError (source : io_error)
| CompressionError (source : io_error)
| InvalidCompressionLevel (level min max : Z)
| CpioError (msg : ustring).

(** The text of an operating-system error. *)
Class IoDisplay := io_display : io_error → ustring.

(** ** Entries of the archive (cpio.rs) *)

Definition NEWC_MAGIC : ustring := ustr "070701".
Definition TRAILER : ustring := ustr "TRAILER!!!".

Record CpioHeader := {
  ino : Z; mode : Z; uid : Z; gid : Z; nlink : Z; mtime : Z; filesize : Z;
  devmajor : Z; devminor : Z; rdevmajor : Z; rdevminor : Z; namesize : Z; check : Z
}.

(** The two entry kinds fill five fields; the others keep their default. *)
Definition entry_header (ino mode size namesize : Z) : CpioHeader :=
  {| ino := ino; mode := mode; uid := 0; gid := 0; nlink := 1; mtime := 0;
     filesize := size; devmajor := 0; devminor := 0; rdevmajor := 0; rdevminor := 0;
     namesize := namesize; check := 0 |}.

(** [{:08x}] of a [u32]. *)
Definition hex_digit (d : Z) : Z := if d <? 10 then 48 + d else 87 + d.
Definition hex8 (z : Z) : ustring :=
  (λ i, hex_digit (Z.land (Z.shiftr z (4 * i)) 15)) <$> [7; 6; 5; 4; 3; 2; 1; 0].

Definition header_string (h : CpioHeader) : ustring :=
  NEWC_MAGIC ++ hex8 (ino h) ++ hex8 (mode h) ++ hex8 (uid h) ++ hex8 (gid h)
  ++ hex8 (nlink h) ++ hex8 (mtime h) ++ hex8 (filesize h) ++ hex8 (devmajor h)
  ++ hex8 (devminor h) ++ hex8 (rdevmajor h) ++ hex8 (rdevminor h) ++ hex8 (namesize h)
  ++ hex8 (check h).

Definition usize_to_u32 (value : Z) (context : ustring) : res RamuneError Z :=
  ok_or (try_from 32 value) (CpioError (context ++ ustr " exceeds CPIO limits")).

(** [u64::sum] on a build profile. *)
Definition plain_add {E} (p : profile) (a b : Z) : res E Z :=
  if a + b <=? uint_max 64 then Ok (a + b)
  else match p with debug => Panic | release => Ok ((a + b) mod 2 ^ 64) end.

Section writer.
Context {W : Type} `{Write W} `{IoDisplay} (p : profile).

Definition failed_to_write (what : ustring) (e : io_error) : RamuneError :=
  CpioError (ustr "Failed to write " ++ what ++ ustr ": " ++ io_display e).

Definition write_header (w : W) (h : CpioHeader) : res RamuneError (Z * W) :=
  let header_text := header_string h in
  w ← map_err (failed_to_write (ustr "header")) (write_all w (utf8 header_text));
  Ok (zlen (utf8 header_text), w).

Definition write_pad4 (w : W) (pos : Z) : res RamuneError (Z * W) :=
  m ← next_multiple_of p pos 4;
  let pad := saturating_sub m pos in
  if 0 <? pad then
    w ← map_err (failed_to_write (ustr "padding"))
          (write_all w (default [] (slice 0 (Z.to_nat pad) (zeros 4))));
    Ok (pad, w)
  else Ok (pad, w).

(** The payload is written by a closure over the state [X] it captures. *)
Definition write_entry {X} (w : W) (ino : Z) (name : ustring) (mode size : Z)
    (x : X) (write_data : W → X → res RamuneError (W * X)) : res RamuneError (W * X) :=
  let name_bytes := utf8 name in
  namesize ← usize_to_u32 (saturating_add 64 (zlen name_bytes) 1) (ustr "filename length");
  '(position, w) ← write_header w (entry_header ino mode size namesize);
  w ← map_err (failed_to_write (ustr "filename")) (write_all w name_bytes);
  w ← map_err (failed_to_write (ustr "null byte")) (write_all w [0]);
  let position := saturating_add 64 (saturating_add 64 position (zlen name_bytes)) 1 in
  '(pad, w) ← write_pad4 w position;
  let position := saturating_add 64 position pad in
  if 0 <? size then
    '(w, x) ← write_data w x;
    let position := saturating_add 64 position size in
    '(_, w) ← write_pad4 w position;
    Ok (w, x)
  else Ok (w, x).

Definition write_trailer (w : W) : res RamuneError W :=
  '(w, _) ← write_entry w 0 TRAILER 0 0 tt (λ w x, Ok (w, x));
  Ok w.

Definition entry_size (name : ustring) (payload_len : Z) : res RamuneError Z :=
  let name_len := zlen (utf8 name) in
  let header_end := saturating_add 64 (saturating_add 64 110 name_len) 1 in
  after_name ← next_multiple_of p header_end 4;
  if 0 <? payload_len then next_multiple_of p (saturating_add 64 after_name payload_len) 4
  else Ok after_name.

Definition trailer_size : Z := 124.
End writer.

(** ** Archives (archive.rs) *)

Record Entry := { path : ustring; emode : Z; len : Z }.

Definition SLASH : Z := 47.

Definition is_absolute (path : ustring) : bool :=
  match path with c :: _ => bool_decide (c = SLASH) | [] => false end.

(** [Path::components] yields [ParentDir] for the segments [..]. *)
Definition has_parent_dir (path : ustring) : bool :=
  existsb (λ seg, bool_decide (seg = ustr "..")) (split_on SLASH path).

Definition validate_path_not_empty (e : Entry) : res RamuneError unit :=
  match path e with
  | [] => Err (CpioError (ustr "archive path must not be empty"))
  | _ => Ok tt
  end.
Definition validate_not_absolute (e : Entry) : res RamuneError unit :=
  if is_absolute (path e)
  then Err (CpioError (ustr "archive path must not be absolute: " ++ path e))
  else Ok tt.
Definition validate_no_parent_dir (e : Entry) : res RamuneError unit :=
  if has_parent_dir (path e)
  then Err (CpioError (ustr "archive path must not contain ..: " ++ path e))
  else Ok tt.
Definition validate_no_duplicate (e : Entry) (prev : option ustring) : res RamuneError unit :=
  if bool_decide (prev = Some (path e))
  then Err (CpioError (ustr "duplicate archive path: " ++ path e))
  else Ok tt.

Fixpoint validate_from (prev : option ustring) (es : list Entry) : res RamuneError unit :=
  match es with
  | [] => Ok tt
  | e :: es =>
      _ ← validate_path_not_empty e;
      _ ← validate_not_absolute e;
      _ ← validate_no_parent_dir e;
      _ ← validate_no_duplicate e prev;
      validate_from (Some (path e)) es
  end.
Definition validate_entries (es : list Entry) : res RamuneError unit := validate_from None es.

Definition path_leb (a b : Entry) : bool := lex_leb (utf8 (path a)) (utf8 (path b)).

(** The sum of the entry sizes, and the trailer. *)
Definition sum_sizes (p : profile) (es : list Entry) : res RamuneError Z :=
  total ← foldM (λ acc e, n ← entry_size p (path e) (len e); plain_add p acc n) 0 es;
  Ok (saturating_add 64 total trailer_size).

Definition size (p : profile) (entries : list Entry) : res RamuneError Z :=
  match entries with
  | [] => Ok 0
  | _ =>
      let order := stable_sort (λ i j,
        match entries !! i, entries !! j with
        | Some a, Some b => path_leb a b
        | _, _ => true
        end) (seq 0 (length entries)) in
      sum_sizes p (omap (λ i, entries !! i) order)
  end.

Section archive.
Context {R W : Type} `{Read R} `{Write W} `{IoDisplay} (p : profile).

(** [io::copy] of a reader limited to [n] bytes. *)
Fixpoint copy_fuel (fuel : nat) (r : R) (n : nat) (w : W) (count : Z)
    : res io_error (Z * R * W) :=
  if bool_decide (n = 0)%nat then Ok (count, r, w)
  else match fuel with
  | O => Panic
  | S fuel =>
      '(bs, r) ← read r (Nat.min n COPY_BUF);
      match bs with
      | [] => Ok (count, r, w)
      | _ => w ← write_all w bs; copy_fuel fuel r (n - length bs) w (count + zlen bs)
      end
  end.
Definition io_copy_take (r : R) (n : Z) (w : W) : res io_error (Z * R * W) :=
  copy_fuel (Z.to_nat n) r (Z.to_nat n) w 0.

Definition copy_entry (path : ustring) (reader : R) (len : Z) (out : W)
    : res RamuneError (W * R) :=
  '(copied, reader, out) ← map_err (WriteError path) (io_copy_take reader len out);
  if bool_decide (copied = len) then Ok (out, reader)
  else Err (CpioError (ustr "entry stream ended early: copied " ++ decimal copied
              ++ ustr " of " ++ decimal len ++ ustr " bytes")).

Fixpoint write_pairs (ino : Z) (w : W) (pairs : list (Entry * R))
    : res RamuneError (W * list (Entry * R)) :=
  match pairs with
  | [] => Ok (w, [])
  | (e, reader) :: pairs =>
      sz ← ok_or (try_from 32 (len e)) (CpioError (ustr "file exceeds CPIO limits"));
      '(w, reader) ← write_entry p w ino (path e) (emode e) sz reader
        (λ out reader, copy_entry (path e) reader (len e) out);
      ino ← ok_or (checked_add 32 ino 1) (CpioError (ustr "CPIO inode overflowed"));
      '(w, pairs) ← write_pairs ino w pairs;
      Ok (w, (e, reader) :: pairs)
  end.

(** The pairs are sorted in place; the readers come back as the run left
    them. *)
Definition cpio (pairs : list (Entry * R)) (w : W) : res RamuneError (Z * W * list (Entry * R)) :=
  let pairs := stable_sort (λ a b, path_leb a.1 b.1) pairs in
  _ ← validate_entries (pairs.*1);
  match pairs with
  | [] => Ok (0, w, [])
  | _ =>
      total ← sum_sizes p (pairs.*1);
      '(w, pairs) ← write_pairs 1 w pairs;
      w ← write_trailer p w;
      Ok (total, w, pairs)
  end.
End archive.

(** ** Compression (compress.rs)

    The [zstd] crate: an encoder [E] over a writer [W]. *)

Definition ZSTD_WORKERS : Z := 8.

Class Zstd (W E : Type) := {
  compression_level_range : Z * Z;
  zstd_new : W → Z → res io_error E;
  zstd_multithread : E → Z → res io_error E;
  zstd_finish : E → res io_error W;
}.

Section compressed.
Context {R W E : Type} `{Read R} `{Zstd W E} `{Write E} `{IoDisplay} (p : profile).

Definition validate_level (level : Z) : res RamuneError Z :=
  let range := compression_level_range in
  if bool_decide (level = 0 ∨ range.1 ≤ level ≤ range.2) then Ok level
  else Err (InvalidCompressionLevel level range.1 range.2).

Definition encoder (w : W) (level : Z) : res RamuneError E :=
  level ← validate_level level;
  e ← map_err ZstdInitError (zstd_new w level);
  map_err ZstdInitError (zstd_multithread e ZSTD_WORKERS).

Definition compressed (pairs : list (Entry * R)) (w : W) (level : Z)
    : res RamuneError (W * list (Entry * R)) :=
  e ← encoder w level;
  '(_, e, pairs) ← cpio p pairs e;
  w ← map_err CompressionError (zstd_finish e);
  Ok (w, pairs).
End compressed.

(** ** The format: what an entry looks like and how it is read *)

Definition pad4 (n : Z) : list Z := zeros (Z.to_nat (round_up n 4 - n)).

(** Header, name and padding. *)
Definition entry_head (ino : Z) (name : ustring) (mode size : Z) : list Z :=
  let head := header_string (entry_header ino mode size (zlen (utf8 name) + 1))
              ++ utf8 name ++ [0] in
  head ++ pad4 (zlen head).
Definition entry_image (ino : Z) (name : ustring) (mode : Z) (data : list Z) : list Z :=
  entry_head ino name mode (zlen data) ++ data ++ pad4 (zlen data).

Definition hex_value (c : Z) : option Z :=
  if (48 <=? c) && (c <=? 57) then Some (c - 48)
  else if (97 <=? c) && (c <=? 102) then Some (c - 87) else None.
Fixpoint parse_hex (acc : Z) (l : list Z) : option Z :=
  match l with
  | [] => Some acc
  | c :: l => d ← hex_value c; parse_hex (acc * 16 + d) l
  end.

Record member := { m_name : ustring; m_mode : Z; m_data : list Z }.

(** One entry: fixed fields, name with its end mark, data, both padded to
    four bytes. *)
Definition parse_member (bs : list Z) : option (member * list Z) :=
  magic ← slice 0 6 bs;
  if bool_decide (magic = NEWC_MAGIC) then
    mode ← slice 14 22 bs ≫= parse_hex 0;
    fsize ← slice 54 62 bs ≫= parse_hex 0;
    nsize ← slice 94 102 bs ≫= parse_hex 0;
    let name_end := 110 + nsize in
    raw ← slice 110 (Z.to_nat (name_end - 1)) bs;
    zero ← bs !! Z.to_nat (name_end - 1);
    name ← from_utf8 raw;
    let start := round_up name_end 4 in
    data ← slice (Z.to_nat start) (Z.to_nat (start + fsize)) bs;
    if bool_decide (zero = 0)
    then Some ({| m_name := name; m_mode := mode; m_data := data |},
               drop (Z.to_nat (round_up (start + fsize) 4)) bs)
    else None
  else None.

(** Entries up to the trailer, and what follows it. *)
Fixpoint parse_archive (fuel : nat) (bs : list Z) : option (list member * list Z) :=
  match fuel with
  | O => None
  | S fuel =>
      '(m, rest) ← parse_member bs;
      if bool_decide (m_name m = TRAILER) then Some ([], rest)
      else '(ms, rest) ← parse_archive fuel rest; Some (m :: ms, rest)
  end.

(** ** Lemmas *)

(** Used instead of [injection], which would evaluate header texts. *)
Lemma Ok_pair {E A B} (a a' : A) (b b' : B) :
  Ok (E:=E) (a, b) = Ok (a', b') → a = a' ∧ b = b'.
Proof. by intros [= -> ->]. Qed.

Lemma hex_value_digit d : 0 ≤ d < 16 → hex_value (hex_digit d) = Some d.
Proof.
  intros. unfold hex_value, hex_digit. destruct (Z.ltb_spec d 10); ztest; simpl; f_equal; lia.
Qed.

Lemma hex_digit_range d : 0 ≤ d < 16 → 48 ≤ hex_digit d < 128.
Proof. intros. unfold hex_digit. destruct (Z.ltb_spec d 10); lia. Qed.

Lemma nibble z i : 0 ≤ z → 0 ≤ i → Z.land (Z.shiftr z (4 * i)) 15 = z / 16 ^ i mod 16.
Proof.
  intros. change 15 with (Z.ones 4). rewrite Z.land_ones by lia.
  rewrite Z.shiftr_div_pow2 by lia. by rewrite Z.pow_mul_r by lia.
Qed.

Lemma parse_hex8 z rest : is_u32 z → parse_hex 0 (hex8 z ++ rest) = parse_hex z rest.
Proof.
  intros Hz. unfold is_uint in Hz. unfold hex8.
  assert (∀ i j, 0 ≤ i → j = i + 1 → z / 16 ^ i mod 16 = z / 16 ^ i - 16 * (z / 16 ^ j)) as Hq.
  { intros i j Hi ->. rewrite Z.pow_add_r, <-Z.div_div, Z.pow_1_r by lia.
    pose proof (Z.div_mod (z / 16 ^ i) 16). lia. }
  cbn [fmap list_fmap app parse_hex]. rewrite !nibble by lia.
  do 8 (rewrite hex_value_digit by (apply Z.mod_pos_bound; lia); cbn [mbind option_bind parse_hex]).
  f_equal.
  rewrite (Hq 0 1), (Hq 1 2), (Hq 2 3), (Hq 3 4), (Hq 4 5), (Hq 5 6), (Hq 6 7), (Hq 7 8) by lia.
  rewrite (Z.div_small z (16 ^ 8)) by (change (16 ^ 8) with (2 ^ 32); lia).
  change (16 ^ 0) with 1. rewrite Z.div_1_r. clear.
  generalize (z / 16 ^ 1), (z / 16 ^ 2), (z / 16 ^ 3), (z / 16 ^ 4), (z / 16 ^ 5), (z / 16 ^ 6),
    (z / 16 ^ 7). lia.
Qed.

Lemma hex8_range z : 0 ≤ z → Forall (λ c, 0 ≤ c < 128) (hex8 z).
Proof.
  intros Hz. unfold hex8. apply Forall_fmap, Forall_forall. intros i Hi. simpl.
  assert (0 ≤ i) by (repeat (apply elem_of_cons in Hi as [->|Hi]; [lia|]); by apply not_elem_of_nil in Hi).
  rewrite nibble by done. pose proof (hex_digit_range (z / 16 ^ i mod 16)).
  pose proof (Z.mod_pos_bound (z / 16 ^ i) 16). lia.
Qed.

Lemma length_utf8_le s : (length (utf8 s) ≤ 4 * length s)%nat.
Proof.
  induction s as [|c s IH]; [done|].
  change (utf8 (c :: s)) with (encode_utf8 c ++ utf8 s). rewrite length_app. simpl length at 3.
  assert (length (encode_utf8 c) ≤ 4)%nat by (unfold encode_utf8; repeat case_match; simpl; lia).
  lia.
Qed.

Lemma length_hex8 z : length (hex8 z) = 8%nat.
Proof. done. Qed.

Definition header_ok (h : CpioHeader) : Prop :=
  Forall is_u32 [ino h; mode h; uid h; gid h; nlink h; mtime h; filesize h; devmajor h;
    devminor h; rdevmajor h; rdevminor h; namesize h; check h].

Lemma entry_header_ok ino mode size nsize :
  is_u32 ino → is_u32 mode → is_u32 size → is_u32 nsize →
  header_ok (entry_header ino mode size nsize).
Proof.
  intros. unfold header_ok, entry_header.
  cbn [Cpio.ino Cpio.mode uid gid nlink mtime filesize devmajor devminor rdevmajor rdevminor
    namesize check].
  repeat (apply Forall_cons; split; [first [assumption|unfold is_uint; lia]|]). constructor.
Qed.

Lemma header_string_ascii h : header_ok h → utf8 (header_string h) = header_string h.
Proof.
  intros Hh. apply utf8_ascii. unfold header_string.
  repeat (apply Forall_cons in Hh as [? Hh]). clear Hh. unfold is_uint in *.
  repeat (apply Forall_app; split); try (apply hex8_range; lia).
  by repeat constructor.
Qed.

Lemma length_header_string h : length (header_string h) = 110%nat.
Proof. done. Qed.

#[local] Arguments round_up : simpl never.

Lemma round_up_shift a n : (4 | a) → round_up (a + n) 4 = a + round_up n 4.
Proof.
  intros [k ->]. unfold round_up. rewrite (div_ceil_unique (k * 4 + n) 4 (k + div_ceil n 4));
    pose proof (div_ceil_spec n 4); lia.
Qed.

Lemma pad4_shift a n : (4 | a) → pad4 (a + n) = pad4 n.
Proof. intros. unfold pad4. rewrite round_up_shift by done. do 2 f_equal. lia. Qed.

Lemma pad4_0 a : (4 | a) → pad4 a = [].
Proof. intros. rewrite <-(Z.add_0_r a), pad4_shift by done. done. Qed.

Lemma zlen_pad4 n : zlen (pad4 n) = round_up n 4 - n.
Proof. unfold pad4, zlen. rewrite length_zeros. pose proof (round_up_spec n 4). lia. Qed.

(** Positions stay far below the width of [usize]. *)
Lemma next_multiple_of_4 {E} p n :
  0 ≤ n < 2 ^ 62 → next_multiple_of (E:=E) p n 4 = Ok (round_up n 4).
Proof.
  intros. apply next_multiple_of_round_up; [lia|].
  pose proof (round_up_spec n 4). unfold uint_max. lia.
Qed.

Lemma zlen_entry_head ino name mode size :
  zlen (entry_head ino name mode size) = round_up (111 + zlen (utf8 name)) 4.
Proof.
  unfold entry_head. rewrite zlen_app, zlen_pad4, !zlen_app.
  change (zlen (header_string _)) with 110. change (zlen [0]) with 1.
  replace (110 + (zlen (utf8 name) + 1)) with (111 + zlen (utf8 name)); lia.
Qed.

Lemma zlen_entry_image ino name mode data :
  zlen (entry_image ino name mode data)
  = round_up (111 + zlen (utf8 name)) 4 + round_up (zlen data) 4.
Proof. unfold entry_image. rewrite !zlen_app, zlen_entry_head, zlen_pad4. lia. Qed.

Lemma divide_round_up n : (4 | round_up n 4).
Proof. by apply round_up_spec. Qed.
#[local] Hint Resolve divide_round_up zlen_nonneg : core.

(** Sizes the format can express. *)
Definition name_fits (name : ustring) : Prop := zlen (utf8 name) + 1 < 2 ^ 32.
Definition entry_fits (e : Entry) : Prop := name_fits (path e) ∧ is_u32 (len e).

Lemma entry_size_ok p name n :
  name_fits name → is_u32 n →
  entry_size p name n = Ok (round_up (111 + zlen (utf8 name)) 4 + round_up n 4).
Proof.
  intros Hn Hs. unfold name_fits, is_uint in *. unfold entry_size.
  pose proof (zlen_nonneg (utf8 name)). unfold saturating_add, uint_max.
  rewrite (Z.min_l (110 + _)) by lia. rewrite Z.min_l by lia.
  pose proof (round_up_spec (111 + zlen (utf8 name)) 4).
  replace (110 + zlen (utf8 name) + 1) with (111 + zlen (utf8 name)) by lia.
  rewrite next_multiple_of_4 by lia. simpl.
  destruct (Z.ltb_spec 0 n).
  - rewrite Z.min_l by lia. rewrite next_multiple_of_4 by lia. by rewrite round_up_shift.
  - replace n with 0 by lia. change (round_up 0 4) with 0. by rewrite Z.add_0_r.
Qed.

(** *** Writing *)

(** A writer that takes at least one byte of every buffer. *)
Class ReliableWrite (W : Type) `{Write W} : Prop :=
  write_some (w : W) buf : buf ≠ [] → ∃ n w', write w buf = Ok (S n, w').

#[global] Instance vec_reliable : ReliableWrite (list Z).
Proof. intros w [|b buf] Hb; [done|]. by eexists _, _. Qed.

Section writing.
Context {W : Type} `{WriteLaws W} `{IoDisplay} (p : profile).
Implicit Types w : W.

Lemma write_pad4_written w pos n w' :
  0 ≤ pos < 2 ^ 62 → write_pad4 p w pos = Ok (n, w') →
  n = round_up pos 4 - pos ∧ written w' = written w ++ pad4 pos.
Proof.
  intros Hpos. unfold write_pad4. rewrite next_multiple_of_4 by done. simpl.
  pose proof (round_up_spec pos 4 ltac:(lia)) as [Hr _]. unfold saturating_sub.
  rewrite Z.max_r by lia. destruct (Z.ltb_spec 0 (round_up pos 4 - pos)) as [Hlt|Hge].
  - intros Hw. apply bind_Ok in Hw as (w1 & Hv & Hw). apply map_err_Ok in Hv.
    injection Hw as <- <-. split; [done|].
    apply write_all_written in Hv. rewrite Hv. f_equal.
    unfold pad4. rewrite (slice_zeros 0) by lia. by rewrite Nat.sub_0_r.
  - intros [= <- <-]. split; [done|]. unfold pad4.
    replace (round_up pos 4 - pos) with 0 by lia. by rewrite app_nil_r.
Qed.

Lemma write_entry_written {X} w ino name mode (data : list Z) (x : X) f w' x' :
  is_u32 ino → is_u32 mode → is_u32 (zlen data) →
  (∀ v v' y, f v x = Ok (v', y) → written v' = written v ++ data) →
  write_entry p w ino name mode (zlen data) x f = Ok (w', x') →
  name_fits name ∧ written w' = written w ++ entry_image ino name mode data ∧
  (if 0 <? zlen data then ∃ v v', f v x = Ok (v', x') else x' = x).
Proof.
  intros Hi Hm Hs Hf Hw. unfold write_entry, usize_to_u32 in Hw.
  apply bind_Ok in Hw as (nsz & Hn & Hw). apply ok_or_Ok, try_from_Some in Hn as [-> Hn].
  unfold saturating_add in Hn at 1 2. unfold saturating_add in Hw. unfold uint_max in *.
  pose proof (zlen_nonneg (utf8 name)) as Hnn. rewrite Z.min_l in Hn by lia.
  rewrite (Z.min_l (zlen (utf8 name) + 1)) in Hw by lia.
  assert (name_fits name) as Hfit by (unfold name_fits; lia). split; [done|].
  apply bind_Ok in Hw as ([pos w1] & Hh & Hw). unfold write_header in Hh.
  apply bind_Ok in Hh as (w0 & Hv & Hh). apply map_err_Ok in Hv. apply Ok_pair in Hh as [<- <-].
  apply write_all_written in Hv.
  rewrite header_string_ascii in Hv, Hw by (apply entry_header_ok; [assumption..|unfold is_uint; lia]).
  change (zlen (header_string _)) with 110 in Hw.
  apply bind_Ok in Hw as (w2 & H2 & Hw). apply map_err_Ok, write_all_written in H2.
  apply bind_Ok in Hw as (w3 & H3 & Hw). apply map_err_Ok, write_all_written in H3.
  rewrite (Z.min_l (110 + _)) in Hw by lia. rewrite (Z.min_l (110 + _ + 1)) in Hw by lia.
  apply bind_Ok in Hw as ([pad w4] & H4 & Hw).
  apply write_pad4_written in H4 as [-> H4]; [|lia].
  replace (110 + zlen (utf8 name) + 1) with (111 + zlen (utf8 name)) in * by lia.
  pose proof (round_up_spec (111 + zlen (utf8 name)) 4).
  assert (written w4 = written w ++ entry_head ino name mode (zlen data)) as Hhead.
  { rewrite H4, H3, H2, Hv. unfold entry_head. rewrite <-!app_assoc. do 4 f_equal.
    f_equal. rewrite !zlen_app. change (zlen (header_string _)) with 110.
    change (zlen [0]) with 1. lia. }
  unfold entry_image. destruct (Z.ltb_spec 0 (zlen data)).
  - apply bind_Ok in Hw as ([w5 y] & Hw5 & Hw). pose proof (Hf _ _ _ Hw5) as Hd.
    apply bind_Ok in Hw as ([pad2 w6] & Hw6 & Hw). injection Hw as -> ->. unfold is_uint in Hs.
    rewrite !Z.min_l in Hw6 by lia.
    replace (111 + zlen (utf8 name) + (round_up (111 + zlen (utf8 name)) 4 - (111 + zlen (utf8 name))))
      with (round_up (111 + zlen (utf8 name)) 4) in Hw6 by lia.
    apply write_pad4_written in Hw6 as [-> Hw6]; [|lia].
    rewrite pad4_shift in Hw6 by done. split; [|eauto].
    by rewrite Hw6, Hd, Hhead, <-!app_assoc.
  - injection Hw as -> ->. split; [|done]. rewrite Hhead.
    assert (data = []) as -> by (destruct data; [done|unfold zlen in *; simpl in *; lia]).
    change (pad4 (zlen [])) with (@nil Z). by rewrite !app_nil_r.
Qed.

Lemma write_trailer_written w w' :
  write_trailer p w = Ok w' → written w' = written w ++ entry_image 0 TRAILER 0 [].
Proof.
  unfold write_trailer. intros Hw. apply bind_Ok in Hw as ([v y] & He & Hw). injection Hw as ->.
  change 0 with (zlen (A:=Z) []) in He at 3.
  eapply write_entry_written in He as (_ & Hwr & _); [done|done..|].
  intros v' v'' z [= <- <-]. by rewrite app_nil_r.
Qed.
End writing.

Section copying.
Context {R W : Type} `{ReadLaws R} `{WriteLaws W} `{IoDisplay} (p : profile).
Implicit Types (r : R) (w : W) (pairs : list (Entry * R)).

Lemma copy_fuel_written fuel r n w c c' r' w' :
  copy_fuel fuel r n w c = Ok (c', r', w') →
  c' = c + Z.of_nat (Nat.min n (length (remaining r))) ∧
  written w' = written w ++ take n (remaining r) ∧ remaining r' = drop n (remaining r).
Proof.
  revert r n w c; induction fuel as [|fuel IH]; intros r n w c; cbn [copy_fuel];
    case_bool_decide as Hn; intros Hc.
  1, 3: injection Hc as <- <- <-; subst n; rewrite take_0, drop_0, app_nil_r, Nat.min_0_l;
    split_and!; [lia|done..].
  { done. }
  apply bind_Ok in Hc as ([bs r1] & Hr & Hc).
  pose proof (read_progress _ _ _ _ Hr) as Hp. apply read_prefix in Hr as [Hlen Hrem].
  assert (0 < COPY_BUF)%nat as Hbuf by (unfold COPY_BUF; lia).
  destruct bs as [|b bs].
  - injection Hc as <- <- <-. simpl in Hrem. rewrite <-Hrem.
    destruct (remaining r) as [|x l]; last by destruct Hp; [lia|done|].
    rewrite take_nil, drop_nil, app_nil_r, Nat.min_0_r. split_and!; [lia|done..].
  - apply bind_Ok in Hc as (w1 & Hw & Hc). apply write_all_written in Hw.
    apply IH in Hc as (-> & Hw' & Hr'). rewrite Hw', Hr', Hw, Hrem.
    assert (length (b :: bs) ≤ n)%nat by lia.
    rewrite take_app_ge, drop_app_ge, length_app by lia. rewrite <-app_assoc.
    split_and!; [|done..]. unfold zlen. lia.
Qed.

Lemma copy_entry_written name r n w w' r' :
  0 ≤ n → copy_entry name r n w = Ok (w', r') →
  n ≤ zlen (remaining r) ∧ written w' = written w ++ take (Z.to_nat n) (remaining r) ∧
  remaining r' = drop (Z.to_nat n) (remaining r).
Proof.
  intros Hn Hc. unfold copy_entry in Hc. apply bind_Ok in Hc as ([[c r1] w1] & Hcp & Hc).
  apply map_err_Ok, copy_fuel_written in Hcp as (Hc1 & Hw & Hr).
  case_bool_decide; [|done]. injection Hc as <- <-. unfold zlen. split_and!; [lia|done..].
Qed.

(** What one pair contributes to the archive. *)
Definition payload (pr : Entry * R) : list Z := take (Z.to_nat (len pr.1)) (remaining pr.2).
Fixpoint images (ino : Z) pairs : list Z :=
  match pairs with
  | [] => []
  | pr :: pairs => entry_image ino (path pr.1) (emode pr.1) (payload pr) ++ images (ino + 1) pairs
  end.

(** An entry and its reader as the format needs them. *)
Definition pair_ok (pr : Entry * R) : Prop :=
  entry_fits pr.1 ∧ len pr.1 ≤ zlen (remaining pr.2).

Lemma zlen_payload pr : pair_ok pr → zlen (payload pr) = len pr.1.
Proof.
  intros [[_ [? _]] Hr]. unfold payload, zlen in *. rewrite length_take. lia.
Qed.

Lemma write_pairs_written ino w pairs w' pairs' :
  is_u32 ino → Forall (λ pr, is_u32 (emode pr.1) ∧ 0 ≤ len pr.1) pairs →
  write_pairs p ino w pairs = Ok (w', pairs') →
  written w' = written w ++ images ino pairs ∧ Forall pair_ok pairs ∧
  Forall2 (λ pr pr', pr'.1 = pr.1 ∧ remaining pr'.2 = drop (Z.to_nat (len pr.1)) (remaining pr.2))
    pairs pairs'.
Proof.
  revert ino w w' pairs'; induction pairs as [|[e r] pairs IH]; intros ino w w' pairs' Hi Hm Hw;
    cbn [write_pairs] in Hw.
  { injection Hw as <- <-. rewrite app_nil_r. by repeat constructor. }
  apply Forall_cons in Hm as [[Hm Hnn] Hms]. simpl in Hm, Hnn.
  apply bind_Ok in Hw as (sz & Hsz & Hw). apply ok_or_Ok, try_from_Some in Hsz as [-> Hsz].
  assert (is_u32 (len e)) as Hu by (unfold is_uint, uint_max in *; lia).
  apply bind_Ok in Hw as ([w1 r1] & He & Hw).
  apply bind_Ok in Hw as (i & Hino & Hw). apply ok_or_Ok, checked_add_Some in Hino as [-> Hino].
  apply bind_Ok in Hw as ([w2 prs] & Hrec & Hw). injection Hw as <- <-.
  assert (len e ≤ zlen (remaining r)) as Hlen.
  { destruct (Z.ltb_spec 0 (len e)); [|pose proof (zlen_nonneg (remaining r)); lia].
    clear Hrec IH. unfold write_entry in He.
    do 5 (let x := fresh in apply bind_Ok in He as (x & _ & He); try destruct x as [? ?]).
    rewrite (proj2 (Z.ltb_lt _ _)) in He by done.
    apply bind_Ok in He as ([? ?] & He & _). by apply copy_entry_written in He as [? _]. }
  assert (zlen (payload (e, r)) = len e) as Hpay.
  { unfold payload, zlen in *. rewrite length_take. simpl. lia. }
  rewrite <-Hpay in He at 1. apply write_entry_written in He as (Hfit & Hwr & Hst); [..|].
  2, 3: done. 2: by rewrite Hpay.
  2: { intros v v' y Hc. by apply copy_entry_written in Hc as (_ & ? & _). }
  apply IH in Hrec as (Hw' & Hok & Hf2); [|unfold is_uint, uint_max in *; lia|done].
  split_and!.
  - rewrite Hw', Hwr, <-app_assoc. done.
  - constructor; [|done]. split; [|done]. done.
  - constructor; [|done]. split; [done|]. simpl. rewrite Hpay in Hst.
    destruct (Z.ltb_spec 0 (len e)) as [|].
    + destruct Hst as (? & ? & Hc). by apply copy_entry_written in Hc as (_ & _ & ->).
    + subst r1. replace (len e) with 0 by lia. done.
Qed.
End copying.

(** *** Reading back *)

Lemma header_fields ino mode size nsize :
  let h := header_string (entry_header ino mode size nsize) in
  slice 0 6 h = Some NEWC_MAGIC ∧ slice 14 22 h = Some (hex8 mode) ∧
  slice 54 62 h = Some (hex8 size) ∧ slice 94 102 h = Some (hex8 nsize).
Proof. split_and!; reflexivity. Qed.

Lemma parse_hex8_all z : is_u32 z → parse_hex 0 (hex8 z) = Some z.
Proof. intros. rewrite <-(app_nil_r (hex8 z)). by rewrite parse_hex8. Qed.

(** One entry in front of anything. *)
Lemma parse_member_image ino name mode data rest :
  is_ustring name → name_fits name → is_u32 mode → is_u32 (zlen data) →
  parse_member (entry_image ino name mode data ++ rest)
  = Some ({| m_name := name; m_mode := mode; m_data := data |}, rest).
Proof.
  intros Hname Hfit Hm Hd. unfold name_fits in Hfit. pose proof (zlen_nonneg (utf8 name)) as Hnn.
  pose proof (zlen_nonneg data) as Hdn.
  set (n := zlen (utf8 name)) in *. set (d := zlen data) in *.
  set (h := header_string (entry_header ino mode d (n + 1))).
  set (bs := entry_image ino name mode data ++ rest).
  assert (bs = h ++ utf8 name ++ [0] ++ pad4 (111 + n) ++ data ++ pad4 d ++ rest) as Ebs.
  { subst bs. unfold entry_image, entry_head. fold n d h. rewrite !zlen_app. fold n.
    change (zlen h) with 110. change (zlen [0]) with 1.
    replace (110 + (n + 1)) with (111 + n) by lia. by rewrite <-!app_assoc. }
  destruct (header_fields ino mode d (n + 1)) as (F1 & F2 & F3 & F4). fold h in F1, F2, F3, F4.
  assert (length h = 110%nat) as Hh by done. clearbody h bs.
  pose proof (round_up_spec (111 + n) 4 ltac:(lia)) as [Hru _].
  pose proof (round_up_spec d 4 ltac:(lia)) as [Hrd _].
  assert (zlen (pad4 (111 + n)) = round_up (111 + n) 4 - (111 + n)) as Hp1 by apply zlen_pad4.
  assert (zlen (pad4 d) = round_up d 4 - d) as Hp2 by apply zlen_pad4.
  assert (∀ i j s, slice i j h = Some s → slice i j bs = Some s) as Hin
    by (intros; rewrite Ebs; by apply slice_app_l).
  unfold parse_member. rewrite (Hin _ _ _ F1), (Hin _ _ _ F2), (Hin _ _ _ F3), (Hin _ _ _ F4).
  cbn [mbind option_bind].
  rewrite bool_decide_eq_true_2 by done.
  rewrite !parse_hex8_all by (done || (unfold is_uint; lia)). cbn [mbind option_bind].
  rewrite (slice_mid 110 _ bs h (utf8 name) ([0] ++ pad4 (111 + n) ++ data ++ pad4 d ++ rest))
    by (done || (subst n; unfold zlen in *; lia)). cbn [mbind option_bind].
  replace (bs !! Z.to_nat (110 + (n + 1) - 1)) with (Some 0); last first.
  { rewrite Ebs, app_assoc, lookup_app_r by (rewrite length_app; subst n; unfold zlen; lia).
    replace (Z.to_nat (110 + (n + 1) - 1) - length (h ++ utf8 name))%nat with O; [done|].
    rewrite length_app. subst n. unfold zlen. lia. }
  cbn [mbind option_bind]. rewrite from_utf8_utf8 by done. cbn [mbind option_bind].
  replace (110 + (n + 1)) with (111 + n) by lia.
  rewrite (slice_mid _ _ bs (h ++ utf8 name ++ [0] ++ pad4 (111 + n)) data (pad4 d ++ rest));
    [| by rewrite Ebs, <-!app_assoc
     | rewrite !length_app; subst n d; unfold zlen in *; simpl length; lia
     | subst d; unfold zlen in *; lia].
  cbn [mbind option_bind]. rewrite bool_decide_eq_true_2 by done. do 2 f_equal.
  rewrite round_up_shift by apply divide_round_up. rewrite Ebs, !app_assoc, drop_app_ge.
  - rewrite !length_app. replace (_ - _)%nat with O; [by rewrite drop_0|].
    subst n d. unfold zlen in *. simpl length. lia.
  - rewrite !length_app. subst n d. unfold zlen in *. simpl length. lia.
Qed.

(** *** Success on a reliable writer *)

Section success.
Context {W : Type} `{WriteLaws W} `{!ReliableWrite W} `{IoDisplay} (p : profile).
Implicit Types w : W.

Lemma write_all_ok w buf : ∃ w', write_all w buf = Ok w'.
Proof.
  unfold write_all. assert (length buf ≤ length buf)%nat as Hf by lia. revert Hf.
  generalize (length buf) at 2 3 as fuel. intros fuel; revert w buf.
  induction fuel as [|fuel IH]; intros w [|b buf] Hf; simpl in Hf; [eauto|lia|eauto|].
  cbn [write_all_fuel]. destruct (write_some w (b :: buf)) as (n & w' & Hw); [done|].
  rewrite Hw. cbn [mbind res_bind]. apply write_prefix in Hw as [Hn _]. simpl in Hn.
  rewrite !bool_decide_eq_false_2 by (simpl; lia). apply IH. rewrite length_drop. simpl. lia.
Qed.

Lemma write_all_map_ok {F} (f : io_error → F) w buf : ∃ w', map_err f (write_all w buf) = Ok w'.
Proof. destruct (write_all_ok w buf) as [w' ->]. by exists w'. Qed.

Lemma write_pad4_ok w pos : 0 ≤ pos < 2 ^ 62 → ∃ n w', write_pad4 p w pos = Ok (n, w').
Proof.
  intros. unfold write_pad4. rewrite next_multiple_of_4 by done. cbn [mbind res_bind].
  destruct (0 <? _); [|eauto].
  edestruct (write_all_map_ok (failed_to_write (ustr "padding")) w) as [w' ->].
  cbn [mbind res_bind]. eauto.
Qed.

Lemma write_entry_ok {X} w ino name mode sz (x : X) f :
  name_fits name → is_u32 sz →
  (∀ v, 0 < sz → ∃ v' x', f v x = Ok (v', x')) →
  ∃ w' x', write_entry p w ino name mode sz x f = Ok (w', x').
Proof.
  intros Hn Hs Hf. unfold write_entry, usize_to_u32, saturating_add, name_fits, is_uint in *.
  pose proof (zlen_nonneg (utf8 name)) as Hnn. unfold uint_max.
  rewrite (Z.min_l (zlen (utf8 name) + 1)) by lia. rewrite try_from_ok by (unfold is_uint; lia).
  cbn [ok_or mbind res_bind]. set (h := entry_header _ _ _ _). unfold write_header.
  destruct (write_all_map_ok (failed_to_write (ustr "header")) w (utf8 (header_string h))) as [w1 ->].
  cbn [mbind res_bind].
  assert (0 ≤ zlen (utf8 (header_string h)) ≤ 1000) as Hh.
  { split; [apply zlen_nonneg|]. clear. unfold zlen. apply Z.le_trans with (Z.of_nat 440); [|lia].
    apply inj_le. change 440%nat with (4 * length (header_string h))%nat. apply length_utf8_le. }
  set (hl := zlen (utf8 (header_string h))) in *. clearbody hl.
  destruct (write_all_map_ok (failed_to_write (ustr "filename")) w1 (utf8 name)) as [w2 ->].
  cbn [mbind res_bind].
  destruct (write_all_map_ok (failed_to_write (ustr "null byte")) w2 [0]) as [w3 ->].
  cbn [mbind res_bind]. rewrite (Z.min_l (hl + _)) by lia. rewrite (Z.min_l (hl + _ + 1)) by lia.
  set (pos := hl + zlen (utf8 name) + 1) in *.
  destruct (write_pad4_ok w3 pos) as (n & w4 & Hp); [lia|]. rewrite Hp. cbn [mbind res_bind].
  apply write_pad4_written in Hp as [-> _]; [|lia].
  pose proof (round_up_spec pos 4). rewrite (Z.min_l (pos + _)) by lia.
  destruct (Z.ltb_spec 0 sz) as [Hpos|]; [|eauto].
  destruct (Hf w4 Hpos) as (w5 & x' & ->). cbn [mbind res_bind]. rewrite Z.min_l by lia.
  match goal with |- context [write_pad4 p w5 ?q] => destruct (write_pad4_ok w5 q) as (k & w6 & ->) end;
    [lia|]. cbn [mbind res_bind]. eauto.
Qed.

Context {R : Type} `{ReadLaws R}.
Implicit Types r : R.

Lemma copy_fuel_ok fuel r n w c : (n ≤ fuel)%nat → ∃ x, copy_fuel fuel r n w c = Ok x.
Proof.
  revert r n w c; induction fuel as [|fuel IH]; intros r n w c Hf; cbn [copy_fuel].
  { replace n with O by lia. eauto. }
  case_bool_decide; [eauto|]. destruct (read_total r (Nat.min n COPY_BUF)) as (bs & r1 & Hr).
  rewrite Hr. cbn [mbind res_bind]. destruct bs as [|b bs]; [eauto|].
  destruct (write_all_ok w (b :: bs)) as [w1 ->]. cbn [mbind res_bind].
  apply IH. simpl. lia.
Qed.

Lemma copy_entry_ok name r n w :
  0 ≤ n ≤ zlen (remaining r) → ∃ w' r', copy_entry name r n w = Ok (w', r').
Proof.
  intros Hn. unfold copy_entry, io_copy_take.
  destruct (copy_fuel_ok (Z.to_nat n) r (Z.to_nat n) w 0) as [[[c r'] w'] Hc]; [done|].
  rewrite Hc. cbn [map_err mbind res_bind]. apply copy_fuel_written in Hc as [Hc _].
  rewrite bool_decide_eq_true_2; [eauto|]. unfold zlen in *. lia.
Qed.

Lemma write_pairs_ok ino w (pairs : list (Entry * R)) :
  0 ≤ ino → ino + zlen pairs < 2 ^ 32 → Forall pair_ok pairs →
  ∃ w' pairs', write_pairs p ino w pairs = Ok (w', pairs').
Proof.
  intros Hi Hlen Hall. revert ino w Hi Hlen; induction Hall as [|[e r] pairs [[Hn Hs] Hr] Hall IH];
    intros ino w Hi Hlen; cbn [write_pairs]; [eauto|]. simpl in *.
  rewrite (try_from_ok 32 (len e)) by done. cbn [ok_or mbind res_bind].
  edestruct (write_entry_ok w ino (path e) (emode e) (len e) r) as (w1 & r1 & ->); [done|done| |].
  { intros v _. apply copy_entry_ok. unfold is_uint in Hs. lia. }
  cbn [mbind res_bind]. unfold zlen in Hlen. simpl length in Hlen.
  rewrite (proj2 (checked_add_Some 32 ino 1 (ino + 1))) by (unfold uint_max; lia).
  cbn [ok_or mbind res_bind]. destruct (IH (ino + 1) w1) as (w2 & prs & ->);
    [lia|unfold zlen; lia|]. cbn [mbind res_bind]. eauto.
Qed.

Lemma write_trailer_ok w : ∃ w', write_trailer p w = Ok w'.
Proof.
  unfold write_trailer. destruct (write_entry_ok w 0 TRAILER 0 0 tt (λ w x, Ok (w, x)))
    as (w' & x & ->); [by vm_compute|done|eauto|]. cbn [mbind res_bind]. eauto.
Qed.
End success.

(** ** Validation *)

Definition path_ok (s : ustring) : Prop :=
  s ≠ [] ∧ head s ≠ Some SLASH ∧ ustr ".." ∉ split_on SLASH s.

Lemma is_absolute_true s : is_absolute s = true ↔ head s = Some SLASH.
Proof. destruct s as [|c s]; simpl; [done|]. rewrite bool_decide_eq_true. naive_solver. Qed.

Lemma has_parent_dir_true s : has_parent_dir s = true ↔ ustr ".." ∈ split_on SLASH s.
Proof.
  unfold has_parent_dir. rewrite existsb_exists. setoid_rewrite bool_decide_eq_true.
  setoid_rewrite <-list_elem_of_In. naive_solver.
Qed.

(** The checks of one entry after the path [prev]. *)
Lemma validate_step prev e es :
  validate_from prev (e :: es) = Ok tt ↔
  path_ok (path e) ∧ prev ≠ Some (path e) ∧ validate_from (Some (path e)) es = Ok tt.
Proof.
  cbn [validate_from]. unfold validate_path_not_empty, validate_not_absolute,
    validate_no_parent_dir, validate_no_duplicate, path_ok.
  rewrite <-has_parent_dir_true, <-is_absolute_true.
  destruct (path e) as [|c s] eqn:E; [split; [done|by intros [[] _]]|]. rewrite <-E.
  cbn [mbind res_bind]. destruct (is_absolute (path e)); [split; [done|intros [(_ & [] & _) _]; done]|].
  cbn [mbind res_bind]. destruct (has_parent_dir (path e)); [split; [done|intros [(_ & _ & []) _]; done]|].
  cbn [mbind res_bind]. case_bool_decide; [split; [done|naive_solver]|].
  cbn [mbind res_bind]. split; [|by intros (_ & _ & ?)].
  intros ?. split_and!; [congruence|done..].
Qed.

(** Sorted paths are checked for duplicates by comparing neighbours. *)
Lemma validate_from_sorted prev es :
  Forall (λ e, is_ustring (path e)) es →
  (∀ q, prev = Some q → is_ustring q ∧ Forall (λ e, lex_leb (utf8 q) (utf8 (path e)) = true) es) →
  sorted path_leb es →
  validate_from prev es = Ok tt ↔
  Forall path_ok (path <$> es) ∧ NoDup (path <$> es) ∧ (∀ q, prev = Some q → q ∉ path <$> es).
Proof.
  revert prev; induction es as [|e es IH]; intros prev Hu Hp Hs.
  { simpl. split; [|done]. intros _. split_and!; [constructor|constructor|].
    intros ? _. apply not_elem_of_nil. }
  apply Forall_cons in Hu as [He Hu]. apply StronglySorted_cons in Hs as [Hle Hs].
  rewrite validate_step, IH, fmap_cons, Forall_cons, NoDup_cons; [|done| |done].
  2: { intros q [= <-]. done. }
  split.
  - intros (Hpe & Hne & Hall & Hnd & Hnin). split_and!; [done..|by apply Hnin|done|].
    intros q -> [Heq|Hin]%elem_of_cons; [congruence|]. destruct (Hp q eq_refl) as [Hq Hqs].
    apply Forall_cons in Hqs as [Hqe Hqs]. apply list_elem_of_fmap in Hin as (e' & -> & Hin).
    apply Hne. f_equal. apply utf8_inj; [done..|].
    apply lex_leb_antisym; [done|]. rewrite Forall_forall in Hle. by apply Hle.
  - intros ([Hpe Hall] & [Hnin Hnd] & Hq). split_and!; [done| |done..|].
    + intros ->. by apply (Hq _ eq_refl), elem_of_cons; left.
    + by intros q [= <-].
Qed.

Lemma path_leb_total a b : path_leb a b = true ∨ path_leb b a = true.
Proof. apply lex_leb_total. Qed.
Lemma path_leb_trans a b c : path_leb a b = true → path_leb b c = true → path_leb a c = true.
Proof. apply lex_leb_trans. Qed.

(** ** Sizes *)

Definition size_of (e : Entry) : Z :=
  round_up (111 + zlen (utf8 (path e))) 4 + round_up (len e) 4.
Definition archive_size (es : list Entry) : Z := foldr (λ e n, size_of e + n) trailer_size es.

Lemma size_of_nonneg e : 0 ≤ len e → 0 ≤ size_of e.
Proof.
  intros. unfold size_of. pose proof (zlen_nonneg (utf8 (path e))).
  pose proof (round_up_spec (111 + zlen (utf8 (path e))) 4). pose proof (round_up_spec (len e) 4). lia.
Qed.

Lemma entry_size_exact p e :
  0 ≤ len e → size_of e ≤ uint_max 64 → entry_size p (path e) (len e) = Ok (size_of e).
Proof.
  intros Hl Hs. unfold size_of in *. unfold entry_size. set (n := zlen (utf8 (path e))) in *.
  assert (0 ≤ n) by apply zlen_nonneg.
  pose proof (round_up_spec (111 + n) 4 ltac:(lia)) as [? _].
  pose proof (round_up_spec (len e) 4 ltac:(lia)) as [? _].
  unfold saturating_add. rewrite (Z.min_l (110 + n)) by lia. rewrite Z.min_l by lia.
  replace (110 + n + 1) with (111 + n) by lia.
  rewrite next_multiple_of_round_up by lia. cbn [mbind res_bind].
  destruct (Z.ltb_spec 0 (len e)).
  - rewrite Z.min_l by lia. rewrite <-round_up_shift by done.
    apply next_multiple_of_round_up; [lia|]. by rewrite round_up_shift.
  - replace (len e) with 0 by lia. change (round_up 0 4) with 0. by rewrite Z.add_0_r.
Qed.

Lemma archive_size_ge es : Forall (λ e, 0 ≤ len e) es → trailer_size ≤ archive_size es.
Proof.
  induction 1 as [|e es He _ IH]; [done|]. simpl. pose proof (size_of_nonneg e He). lia.
Qed.

Lemma sum_sizes_exact p es :
  Forall (λ e, 0 ≤ len e) es → archive_size es ≤ uint_max 64 →
  sum_sizes p es = Ok (archive_size es).
Proof.
  intros Hl Hs. unfold sum_sizes.
  assert (∀ acc, 0 ≤ acc → acc + archive_size es ≤ uint_max 64 →
    foldM (λ acc e, n ← entry_size p (path e) (len e); plain_add p acc n) acc es
    = Ok (E:=RamuneError) (acc + archive_size es - trailer_size)) as Hfold.
  { clear Hs. induction Hl as [|e es He Hl IH]; intros acc Ha Hb; cbn [foldM].
    { f_equal. simpl. lia. }
    simpl in Hb. pose proof (size_of_nonneg e He). pose proof (archive_size_ge es Hl).
    unfold trailer_size in *. rewrite entry_size_exact by (done || lia). cbn [mbind res_bind].
    unfold plain_add. rewrite (proj2 (Z.leb_le _ _)) by lia. cbn [mbind res_bind].
    rewrite IH by lia. f_equal. simpl. lia. }
  rewrite Hfold by lia. cbn [mbind res_bind]. f_equal. unfold saturating_add.
  pose proof (archive_size_ge es Hl). lia.
Qed.

Lemma archive_size_perm es es' : es ≡ₚ es' → archive_size es = archive_size es'.
Proof. induction 1; simpl; lia. Qed.
#[global] Instance archive_size_proper : Proper (Permutation ==> eq) archive_size.
Proof. intros ???. by apply archive_size_perm. Qed.

Lemma omap_lookup_seq {A} (pre l : list A) :
  omap (λ i, (pre ++ l) !! i) (seq (length pre) (length l)) = l.
Proof.
  revert pre; induction l as [|x l IH]; intros pre; [done|]. simpl.
  rewrite list_lookup_middle by done. f_equal.
  rewrite <-(IH (pre ++ [x])) at 2. by rewrite <-app_assoc, length_app, Nat.add_1_r.
Qed.

Lemma omap_lookup_perm {A} (l : list A) order :
  order ≡ₚ seq 0 (length l) → omap (λ i, l !! i) order ≡ₚ l.
Proof.
  intros Ho. transitivity (omap (λ i, l !! i) (seq 0 (length l))).
  - by rewrite Ho.
  - pose proof (omap_lookup_seq [] l) as Heq. simpl in Heq. by rewrite Heq.
Qed.

Lemma size_exact p es :
  es ≠ [] → Forall (λ e, 0 ≤ len e) es → archive_size es ≤ uint_max 64 →
  size p es = Ok (archive_size es).
Proof.
  intros Hne Hl Hs. unfold size. destruct es as [|e es']; [done|]. set (es := e :: es') in *.
  set (order := stable_sort _ _).
  assert (omap (λ i, es !! i) order ≡ₚ es) as Hp by apply omap_lookup_perm, stable_sort_perm.
  rewrite sum_sizes_exact; [f_equal; by apply archive_size_perm|by rewrite Hp|].
  by rewrite (archive_size_perm _ _ Hp).
Qed.

Lemma parse_archive_S fuel bs :
  parse_archive (S fuel) bs =
  '(m, rest) ← parse_member bs;
  if bool_decide (m_name m = TRAILER) then Some ([], rest)
  else '(ms, rest) ← parse_archive fuel rest; Some (m :: ms, rest).
Proof. done. Qed.

(** ** The archive as a whole *)

Section whole.
Context {R W : Type} `{ReadLaws R} `{WriteLaws W} `{IoDisplay} (p : profile).
Implicit Types (w : W) (pairs : list (Entry * R)).

Definition pair_leb (a b : Entry * R) : bool := path_leb a.1 b.1.
Definition member_of (pr : Entry * R) : member :=
  {| m_name := path pr.1; m_mode := emode pr.1; m_data := payload pr |}.

(** The widths of the Rust types. *)
Definition entry_typed (e : Entry) : Prop :=
  is_ustring (path e) ∧ is_u32 (emode e) ∧ is_u64 (len e).

Lemma sorted_entries pairs : (stable_sort pair_leb pairs).*1 = stable_sort path_leb pairs.*1.
Proof. by apply stable_sort_fmap. Qed.

Lemma zlen_images ino pairs :
  Forall pair_ok pairs → zlen (images ino pairs) + trailer_size = archive_size pairs.*1.
Proof.
  intros Hall. revert ino; induction Hall as [|pr pairs Hp _ IH]; intros ino; [done|].
  cbn [images]. rewrite zlen_app, fmap_cons. cbn [archive_size foldr].
  fold (archive_size pairs.*1). rewrite <-(IH (ino + 1)), zlen_entry_image, zlen_payload by done.
  unfold size_of. lia.
Qed.

Lemma parse_images ino pairs rest :
  Forall pair_ok pairs → Forall (λ pr, entry_typed pr.1 ∧ path pr.1 ≠ TRAILER) pairs →
  parse_archive (S (length pairs)) (images ino pairs ++ entry_image 0 TRAILER 0 [] ++ rest)
  = Some (member_of <$> pairs, rest).
Proof.
  intros Hall Ht. revert ino Ht; induction Hall as [|pr pairs Hp _ IH]; intros ino Ht.
  { cbn [images app length parse_archive]. rewrite parse_member_image.
    - cbn [mbind option_bind]. by rewrite bool_decide_eq_true_2.
    - repeat constructor; unfold is_char; lia.
    - by vm_compute.
    - done.
    - done. }
  apply Forall_cons in Ht as [[(Hu & Hm & _) Hne] Ht]. pose proof (zlen_payload pr Hp) as Hz.
  destruct Hp as [[Hn Hl] Hr]. cbn [images length]. rewrite parse_archive_S, <-app_assoc.
  rewrite parse_member_image by (done || by rewrite Hz). cbn [mbind option_bind m_name].
  rewrite bool_decide_eq_false_2 by done. rewrite IH by done. done.
Qed.

Lemma cpio_inv pairs w total w' pairs' :
  pairs ≠ [] → Forall (λ pr, entry_typed pr.1) pairs → archive_size pairs.*1 ≤ uint_max 64 →
  cpio p pairs w = Ok (total, w', pairs') →
  let prs := stable_sort pair_leb pairs in
  total = archive_size pairs.*1 ∧ Forall pair_ok prs ∧ validate_entries prs.*1 = Ok tt ∧
  written w' = written w ++ images 1 prs ++ entry_image 0 TRAILER 0 [] ∧
  Forall2 (λ pr pr', pr'.1 = pr.1 ∧ remaining pr'.2 = drop (Z.to_nat (len pr.1)) (remaining pr.2))
    prs pairs'.
Proof.
  intros Hne Ht Hsz Hc prs. unfold cpio in Hc. fold pair_leb prs in Hc.
  assert (prs ≡ₚ pairs) as Hperm by apply stable_sort_perm.
  apply bind_Ok in Hc as ([] & Hval & Hc).
  destruct prs as [|pr0 prs0] eqn:E.
  { destruct Hne. apply Permutation_nil. by rewrite Hperm. }
  rewrite <-E in *. clear E pr0 prs0.
  assert (Forall (λ pr, is_u32 (emode pr.1) ∧ 0 ≤ len pr.1) prs) as Hm.
  { rewrite Hperm. eapply Forall_impl; [exact Ht|]. intros pr (_ & ? & [? _]). done. }
  rewrite sum_sizes_exact in Hc; [|apply Forall_fmap; eapply Forall_impl; [exact Hm|]; naive_solver
    |by rewrite (archive_size_perm _ (pairs.*1)) by by rewrite Hperm].
  cbn [mbind res_bind] in Hc. apply bind_Ok in Hc as ([w1 prs'] & Hw & Hc).
  apply bind_Ok in Hc as (w2 & Htr & Hc). injection Hc as <- <- <-.
  apply write_pairs_written in Hw as (Hw & Hok & Hf2); [|done|done].
  apply write_trailer_written in Htr. split_and!; [|done..| |done].
  - apply archive_size_perm. by rewrite Hperm.
  - by rewrite Htr, Hw, <-app_assoc.
Qed.
End whole.

(** ** Theorems *)

(** C4: An archive that [cpio] reports as written is the sorted entries in the
    [newc] format: its length is the returned total and the one [size]
    predicts, and a reader finds exactly the given members in the order of
    their paths, each with the first [len] bytes of its reader, whatever
    follows the archive. *)
Theorem cpio_archive {R W : Type} `{ReadLaws R} `{WriteLaws W} `{IoDisplay} p
    (pairs : list (Entry * R)) (w : W) total w' pairs' rest :
  pairs ≠ [] → Forall (λ pr, entry_typed pr.1 ∧ path pr.1 ≠ TRAILER) pairs →
  archive_size pairs.*1 ≤ uint_max 64 →
  cpio p pairs w = Ok (total, w', pairs') →
  ∃ archive prs, written w' = written w ++ archive ∧ zlen archive = total ∧
    size p pairs.*1 = Ok total ∧ prs ≡ₚ pairs ∧
    StronglySorted (λ a b, str_le (path a.1) (path b.1)) prs ∧ NoDup ((path ∘ fst) <$> prs) ∧
    parse_archive (S (length pairs)) (archive ++ rest) = Some (member_of <$> prs, rest) ∧
    Forall2 (λ pr pr', pr'.1 = pr.1 ∧
      remaining pr'.2 = drop (Z.to_nat (len pr.1)) (remaining pr.2)) prs pairs'.
Proof.
  intros Hne Ht Hsz Hc.
  assert (Forall (λ pr, entry_typed pr.1) pairs) as Hty by (eapply Forall_impl; [exact Ht|naive_solver]).
  apply cpio_inv in Hc as (-> & Hok & Hval & Hw & Hf2); [|done..].
  set (prs := stable_sort pair_leb pairs) in *.
  assert (prs ≡ₚ pairs) as Hperm by apply stable_sort_perm.
  assert (sorted pair_leb prs) as Hsort.
  { apply stable_sort_sorted; intros; [apply path_leb_total|by eapply path_leb_trans]. }
  exists (images 1 prs ++ entry_image 0 TRAILER 0 []), prs. split_and!; [done| | |done| | | |done].
  - rewrite zlen_app, (zlen_images 1 prs Hok) at 1. 
    by rewrite Hperm.
  - apply size_exact; [by destruct pairs| |done]. apply Forall_fmap.
    eapply Forall_impl; [exact Hty|]. by intros pr (_ & _ & [? _]).
  - exact Hsort.
  - apply validate_from_sorted in Hval as (_ & Hnd & _); [|..|done|].
    + by rewrite list_fmap_compose.
    + apply Forall_fmap. rewrite Hperm. eapply Forall_impl; [exact Hty|]. by intros pr (? & _).
    + unfold prs. rewrite sorted_entries.
      apply stable_sort_sorted; [apply path_leb_total|apply path_leb_trans].
  - rewrite <-app_assoc, <-(Permutation_length Hperm). apply parse_images; [done|].
    by rewrite Hperm.
Qed.

(** The conditions under which an archive can be written. *)
Definition writable {R} `{ReadLaws R} (pairs : list (Entry * R)) : Prop :=
  Forall path_ok ((path ∘ fst) <$> pairs) ∧ NoDup ((path ∘ fst) <$> pairs) ∧
  Forall pair_ok pairs ∧ zlen pairs < 2 ^ 32 - 1.

Lemma write_pairs_count {R W} `{Read R} `{Write W} `{IoDisplay} p ino (w : W)
    (pairs : list (Entry * R)) x :
  ino < 2 ^ 32 → write_pairs p ino w pairs = Ok x → ino + zlen pairs < 2 ^ 32.
Proof.
  revert ino w x; induction pairs as [|[e r] pairs IH]; intros ino w x Hi Hw.
  { change (zlen []) with 0. lia. }
  cbn [write_pairs] in Hw. apply bind_Ok in Hw as (sz & _ & Hw).
  apply bind_Ok in Hw as ([w1 r1] & _ & Hw). apply bind_Ok in Hw as (i & Hino & Hw).
  apply ok_or_Ok, checked_add_Some in Hino as [-> Hino].
  apply bind_Ok in Hw as (y & Hrec & _). apply IH in Hrec; [|unfold uint_max in *; lia].
  unfold zlen in *. simpl length. lia.
Qed.

(** On a writer that takes what it is given, [cpio] succeeds exactly when the
    paths are distinct, relative and free of parent segments, names and sizes
    fit their 32-bit fields, no reader ends early and the inode numbers do not
    run out. *)
Theorem cpio_succeeds_iff {R W : Type} `{ReadLaws R} `{WriteLaws W} `{!ReliableWrite W}
    `{IoDisplay} p (pairs : list (Entry * R)) (w : W) :
  Forall (λ pr, entry_typed pr.1) pairs → archive_size pairs.*1 ≤ uint_max 64 →
  (∃ x, cpio p pairs w = Ok x) ↔ writable pairs.
Proof.
  intros Ht Hsz. set (prs := stable_sort pair_leb pairs).
  assert (prs ≡ₚ pairs) as Hperm by apply stable_sort_perm.
  assert (validate_entries prs.*1 = Ok tt ↔
    Forall path_ok ((path ∘ fst) <$> pairs) ∧ NoDup ((path ∘ fst) <$> pairs)) as Hval.
  { unfold validate_entries. rewrite validate_from_sorted; [|..|done|].
    - rewrite <-list_fmap_compose, Hperm. naive_solver.
    - apply Forall_fmap. rewrite Hperm. eapply Forall_impl; [exact Ht|]. by intros pr (? & _).
    - unfold prs. rewrite sorted_entries.
      apply stable_sort_sorted; [apply path_leb_total|apply path_leb_trans]. }
  destruct (decide (pairs = [])) as [->|Hne].
  { split; [intros _|by eexists]. by repeat constructor. }
  split.
  - intros [[[total w'] pairs'] Hc]. pose proof Hc as Hc'.
    apply cpio_inv in Hc' as (_ & Hok & Hv & _); [|done..]. fold prs in Hok, Hv.
    apply Hval in Hv as [Hp Hnd]. split_and!; [done..|by rewrite <-Hperm|].
    unfold cpio in Hc. fold (@pair_leb R) prs in Hc. apply bind_Ok in Hc as (_ & _ & Hc).
    destruct prs as [|pr0 prs0] eqn:E.
    { destruct Hne. apply Permutation_nil. by rewrite Hperm. }
    apply bind_Ok in Hc as (tot & _ & Hc). apply bind_Ok in Hc as (x & Hc & _).
    apply write_pairs_count in Hc; [|done]. unfold zlen in *. rewrite <-Hperm. lia.
  - intros (Hp & Hnd & Hok & Hn). unfold cpio. fold (@pair_leb R) prs.
    rewrite (proj2 Hval) by done. cbn [mbind res_bind].
    assert (Forall (λ e, 0 ≤ len e) prs.*1) as Hl.
    { apply Forall_fmap. rewrite Hperm. eapply Forall_impl; [exact Ht|].
      by intros pr (_ & _ & [? _]). }
    rewrite <-Hperm in Hok. unfold zlen in Hn. rewrite <-Hperm in Hn, Hsz.
    destruct prs as [|pr0 prs0] eqn:E.
    { destruct Hne. apply Permutation_nil. by rewrite Hperm. }
    rewrite <-E in *. rewrite sum_sizes_exact by done. cbn [mbind res_bind].
    destruct (write_pairs_ok p 1 w prs) as (w1 & prs1 & ->); [done|unfold zlen; lia|done|].
    cbn [mbind res_bind]. destruct (write_trailer_ok p w1) as [w2 ->]. cbn [mbind res_bind]. eauto.
Qed.

(** ** Examples *)

#[local] Instance no_text : IoDisplay := λ _, [].

Definition demo : list (Entry * list Z) :=
  [({| path := ustr "init"; emode := 0x81ED; len := 3 |}, [1; 2; 3; 4]);
   ({| path := ustr "bin/sh"; emode := 0x81A4; len := 0 |}, [])].

Lemma demo_typed : Forall (λ pr, entry_typed pr.1 ∧ path pr.1 ≠ TRAILER) demo.
Proof.
  repeat constructor; simpl; try (unfold is_char; lia); try done;
    try (apply (bool_decide_unpack _); by vm_compute).
Qed.

Lemma cpio_archive_witness :
  ∃ total w' pairs', cpio release demo [] = Ok (total, w', pairs') ∧
  ∃ archive prs, written w' = [] ++ archive ∧ prs ≡ₚ demo ∧
    parse_archive 3 (archive ++ [7]) = Some (member_of <$> prs, [7]).
Proof.
  destruct (cpio release demo []) as [[[total w'] pairs']| |] eqn:E; [|by vm_compute in E..].
  exists total, w', pairs'. split; [done|].
  destruct (cpio_archive release demo [] total w' pairs' [7] ltac:(done) demo_typed)
    as (archive & prs & Hw & _ & _ & Hp & _ & _ & Hparse & _).
  - vm_compute. discriminate.
  - exact E.
  - exists archive, prs. split; [exact Hw|]. split; [exact Hp|exact Hparse].
Defined.

Lemma cpio_succeeds_iff_witness : ∃ x, cpio release demo [] = Ok x.
Proof.
  apply (cpio_succeeds_iff release demo []).
  - eapply Forall_impl; [exact demo_typed|]. by intros pr [? _].
  - vm_compute. discriminate.
  - split_and!.
    + repeat constructor; (apply (bool_decide_unpack _); by vm_compute).
    + apply (bool_decide_unpack _). by vm_compute.
    + repeat constructor; (apply (bool_decide_unpack _); by vm_compute) || by vm_compute.
    + by vm_compute.
Defined.

(** A file whose path is the trailer's name is accepted, and hides every entry
    that sorts after it. *)
Lemma trailer_name_truncates :
  let pairs : list (Entry * list Z) :=
    [({| path := TRAILER; emode := 0x81A4; len := 0 |}, []);
     ({| path := ustr "init"; emode := 0x81ED; len := 1 |}, [9])] in
  match cpio release pairs [] with
  | Ok (_, archive, _) => fst <$> parse_archive 4 archive = Some []
  | _ => False
  end.
Proof. by vm_compute. Qed.

(** An entry of more than 2^64 - 4 bytes panics in a debug build instead of
    being refused, and a release build predicts the size of an empty archive
    for it. *)
Lemma oversized_entry :
  let e := {| path := ustr "init"; emode := 0x81ED; len := uint_max 64 |} in
  cpio debug [(e, @nil Z)] (@nil Z) = Panic ∧ size release [e] = Ok trailer_size.
Proof. split; by vm_compute. Qed.
