(* ===== verification/KmodDeps.v ===== *)
(** The module dependency database (libs/kmod/src/text.rs, deps.rs).

    The source keeps one text and byte spans into it. [view] reads the spans
    back as strings; [load_view] says that the database of a text is, sorted by
    name, what a direct parse of its lines gives. *)

From S2P Require Import Prelude Io Utf Text Str Order.

(** ** Spans (text.rs) *)

Record Span := { start : Z; slen : Z }.

Definition span_slice (text : ustring) (sp : Span) : ustring :=
  default [] (str_get text (start sp) (saturating_add 64 (start sp) (slen sp))).

Definition span_at (base : Z) (raw : ustring) : Span :=
  let lead := saturating_sub (blen raw) (blen (trim_start raw)) in
  {| start := saturating_add 64 base lead; slen := blen (trim raw) |}.

(** The callback threads its captured state. *)
Fixpoint for_each_line_from {S} (offset : Z) (ls : list ustring) (callback : S → ustring → Z → S)
    (s : S) : S :=
  match ls with
  | [] => s
  | line :: ls =>
      for_each_line_from (saturating_add 64 (saturating_add 64 offset (blen line)) 1) ls callback
        (callback s line offset)
  end.
Definition for_each_line {S} (text : ustring) (callback : S → ustring → Z → S) (s : S) : S :=
  for_each_line_from 0 (split_on LF text) callback s.

(** ** The database (deps.rs) *)

Definition KO : ustring := ustr ".ko".
Definition KO_ZST : ustring := ustr ".ko.zst".
Definition SLASH : Z := 47.
Definition COLON : Z := 58.
Definition SPACE : Z := 32.
Definition DASH : Z := 45.
Definition UNDERSCORE : Z := 95.

Record Entry := { ename : Span; epath : Span; edeps : Span }.
Record DepDb := { text : ustring; modules : list Entry; dep_names : list Span }.

Definition stripped_name (filename : ustring) : option ustring :=
  match strip_suffix KO_ZST filename with
  | Some n => Some n
  | None => strip_suffix KO filename
  end.

Definition name_span (path : ustring) (base : Z) : option Span :=
  let filename := last_segment SLASH path in
  name ← stripped_name filename;
  Some {| start := saturating_add 64 base (saturating_sub (blen path) (blen filename));
          slen := blen name |}.

(** The loop over the dependencies of a line. *)
Fixpoint push_deps (dep_base : Z) (deps : list ustring) (names : list Span) : list Span :=
  match deps with
  | [] => names
  | dep :: deps =>
      let names := match name_span dep dep_base with Some sp => names ++ [sp] | None => names end in
      push_deps (saturating_add 64 (saturating_add 64 dep_base (blen dep)) 1) deps names
  end.

Definition push_module (st : list Entry * list Span) (line : ustring) (offset : Z)
    : list Entry * list Span :=
  let '(mods, names) := st in
  let lead := saturating_sub (blen line) (blen (trim_start line)) in
  let line := trim line in
  match split_once COLON line with
  | None => st
  | Some (raw_path, deps) =>
      let path := trim raw_path in
      let path_base := saturating_add 64 offset lead in
      match name_span path path_base with
      | None => st
      | Some name =>
          let dep_base := saturating_add 64 (saturating_add 64 path_base (blen raw_path)) 1 in
          let names' := push_deps dep_base (split_on SPACE deps) names in
          (mods ++ [{| ename := name; epath := span_at path_base raw_path;
                       edeps := {| start := zlen names;
                                   slen := saturating_sub (zlen names') (zlen names) |} |}],
           names')
      end
  end.

(** [key]: bytes of the name, dashes as underscores. *)
Definition key (name : ustring) : list Z :=
  (λ byte, if byte =? DASH then UNDERSCORE else byte) <$> utf8 name.

Definition key_leb (txt : ustring) (l r : Entry) : bool :=
  lex_leb (key (span_slice txt (ename l))) (key (span_slice txt (ename r))).

Definition index (txt : ustring) : DepDb :=
  let '(mods, names) := for_each_line txt push_module ([], []) in
  {| text := txt; modules := stable_sort (key_leb txt) mods; dep_names := names |}.

(** [load]: what [fs::read_to_string] returned is the argument. *)
Definition load (contents : res io_error ustring) : res io_error DepDb :=
  txt ← contents; Ok (index txt).

Definition find (db : DepDb) (module_name : ustring) : option nat :=
  binary_search_by (λ e, lex_cmp (key (span_slice (text db) (ename e))) (key module_name))
    (modules db).

Definition get_path (db : DepDb) (module_name : ustring) : option ustring :=
  i ← find db module_name;
  e ← modules db !! i;
  Some (span_slice (text db) (epath e)).

Definition len (db : DepDb) : nat := length (modules db).
Definition is_empty (db : DepDb) : bool := bool_decide (modules db = []).

(** The dependency names of an entry: [skip] and [take] on the shared list. *)
Definition dep_spans (db : DepDb) (e : Entry) : list Span :=
  take (Z.to_nat (slen (edeps e))) (drop (Z.to_nat (start (edeps e))) (dep_names db)).
Definition dep_indices (db : DepDb) (e : Entry) : list nat :=
  omap (λ sp, find db (span_slice (text db) sp)) (dep_spans db e).

(** [visit]: marks the index, visits the dependencies in order, then pushes
    the path. [None] is out of fuel. *)
Fixpoint visit (fuel : nat) (db : DepDb) (index : nat) (st : list ustring * list bool)
    : option (list ustring * list bool) :=
  match fuel with
  | O => None
  | S fuel =>
      let '(order, visited) := st in
      match visited !! index with
      | None => Some st
      | Some true => Some st
      | Some false =>
          let visited := <[index := true]> visited in
          match modules db !! index with
          | None => Some (order, visited)
          | Some e =>
              '(order, visited) ←
                foldl (λ acc dep, st ← acc; visit fuel db dep st) (Some (order, visited))
                  (dep_indices db e);
              Some (order ++ [span_slice (text db) (epath e)], visited)
          end
      end
  end.

(** The outer option is fuel, the inner one the result. *)
Definition resolve_load_order (db : DepDb) (module_name : ustring) : option (option (list ustring)) :=
  match find db module_name with
  | None => Some None
  | Some i =>
      '(order, _) ← visit (S (len db)) db i ([], replicate (len db) false);
      Some (Some order)
  end.

(** [str::replace] of one character by another. *)
Definition replace_char (a b : Z) (s : ustring) : ustring := (λ c, if c =? a then b else c) <$> s.

Definition get_module_name (path : ustring) : option ustring :=
  name ← stripped_name (last_segment SLASH path);
  Some (if bool_decide (DASH ∈ name) then replace_char DASH UNDERSCORE name else name).

(** ** The database as strings *)

Record module_line := { l_name : ustring; l_path : ustring; l_deps : list ustring }.

(** The stem of a module file name. *)
Definition module_stem (path : ustring) : option ustring := stripped_name (last_segment SLASH path).

Definition parse_line (line : ustring) : option module_line :=
  '(raw_path, deps) ← split_once COLON (trim line);
  let path := trim raw_path in
  name ← module_stem path;
  Some {| l_name := name; l_path := path; l_deps := omap module_stem (split_on SPACE deps) |}.

Definition line_leb (a b : module_line) : bool := lex_leb (key (l_name a)) (key (l_name b)).
Definition parse_deps (txt : ustring) : list module_line :=
  stable_sort line_leb (omap parse_line (split_on LF txt)).

Definition view_entry (txt : ustring) (names : list Span) (e : Entry) : module_line :=
  {| l_name := span_slice txt (ename e); l_path := span_slice txt (epath e);
     l_deps := span_slice txt <$> take (Z.to_nat (slen (edeps e)))
                                   (drop (Z.to_nat (start (edeps e))) names) |}.
Definition view (db : DepDb) : list module_line := view_entry (text db) (dep_names db) <$> modules db.

(** ** Spans point at what they were made from *)

Section spans.
Context (txt : ustring) (Hfit : blen txt ≤ uint_max 64).

Lemma sat_add_fit a b : a + b ≤ blen txt → saturating_add 64 a b = a + b.
Proof. unfold saturating_add. lia. Qed.

Lemma span_slice_mid pre mid post :
  txt = pre ++ mid ++ post → span_slice txt {| start := blen pre; slen := blen mid |} = mid.
Proof.
  intros E. unfold span_slice. cbn [start slen]. rewrite sat_add_fit.
  - rewrite E at 1. by rewrite str_get_mid.
  - rewrite E, !blen_app. pose proof (blen_nonneg post). lia.
Qed.

(** The span of a module name in a path that starts at [blen pre]. *)
Lemma name_span_spec pre path post :
  txt = pre ++ path ++ post → span_slice txt <$> name_span path (blen pre) = module_stem path.
Proof.
  intros E. unfold name_span, module_stem. destruct (last_segment_suffix SLASH path) as [dir Hd].
  set (f := last_segment SLASH path) in *. clearbody f.
  destruct (stripped_name f) as [n|] eqn:Hn; [|done]. cbn [mbind option_bind fmap option_fmap option_map].
  f_equal. assert (∃ ext, f = n ++ ext) as [ext Hf].
  { unfold stripped_name in Hn. destruct (strip_suffix KO_ZST f) eqn:Hs.
    - injection Hn as ->. apply strip_suffix_Some in Hs. eauto.
    - apply strip_suffix_Some in Hn. eauto. }
  pose proof (blen_nonneg dir). pose proof (blen_nonneg f). pose proof (blen_nonneg post).
  unfold saturating_sub. rewrite Hd, blen_app.
  replace (0 `max` (blen dir + blen f - blen f)) with (blen dir) by lia.
  rewrite sat_add_fit by (rewrite E, Hd, !blen_app; lia). rewrite <-blen_app.
  apply (span_slice_mid _ n (ext ++ post)). by rewrite E, Hd, Hf, <-!app_assoc.
Qed.

Lemma lead_spec s a : s = a ++ trim_start s → saturating_sub (blen s) (blen (trim_start s)) = blen a.
Proof.
  intros E. unfold saturating_sub. pose proof (blen_nonneg a). rewrite E at 1. rewrite blen_app. lia.
Qed.

Lemma span_at_spec pre raw post :
  txt = pre ++ raw ++ post → span_slice txt (span_at (blen pre) raw) = trim raw.
Proof.
  intros E. destruct (trim_spec raw) as (a & b & Hr & Ha & _). unfold span_at.
  rewrite (lead_spec raw a Ha). pose proof (blen_nonneg (trim raw)). pose proof (blen_nonneg b).
  pose proof (blen_nonneg post).
  rewrite sat_add_fit by (rewrite E, Hr, !blen_app; lia). rewrite <-blen_app.
  apply (span_slice_mid _ _ (b ++ post)). rewrite E. rewrite Hr at 1. by rewrite <-!app_assoc.
Qed.

Lemma push_deps_spec pre deps post names :
  deps ≠ [] → txt = pre ++ join SPACE deps ++ post →
  ∃ new, push_deps (blen pre) deps names = names ++ new ∧
         span_slice txt <$> new = omap module_stem deps.
Proof.
  revert pre names; induction deps as [|d deps IH]; intros pre names Hne E; [done|].
  cbn [push_deps]. destruct (decide (deps = [])) as [->|Hd].
  - cbn [push_deps omap]. pose proof (name_span_spec pre d post E) as Hs.
    destruct (name_span d (blen pre)) as [sp|]; cbn [fmap option_fmap option_map] in Hs.
    + exists [sp]. split; [done|]. simpl. by rewrite <-Hs.
    + exists []. split; [by rewrite app_nil_r|]. simpl. by rewrite <-Hs.
  - rewrite join_cons in E by done.
    pose proof (name_span_spec pre d (SPACE :: join SPACE deps ++ post)) as Hs.
    rewrite <-app_assoc in E. specialize (Hs E).
    pose proof (blen_nonneg (join SPACE deps)). pose proof (blen_nonneg post).
    assert (blen [SPACE] = 1) as H1 by done.
    assert (blen txt = blen pre + blen d + 1 + blen (join SPACE deps) + blen post) as Hlen.
    { rewrite E, !blen_app, blen_cons_ascii by (unfold SPACE; lia). lia. }
    rewrite (sat_add_fit (blen pre)) by lia. rewrite sat_add_fit by lia.
    replace (blen pre + blen d + 1) with (blen (pre ++ d ++ [SPACE])) by (rewrite !blen_app; lia).
    destruct (IH (pre ++ d ++ [SPACE]) (match name_span d (blen pre) with
      | Some sp => names ++ [sp] | None => names end)) as (new & -> & Hn); [done| |].
    { rewrite E. by rewrite <-!app_assoc. }
    destruct (name_span d (blen pre)) as [sp|]; cbn [fmap option_fmap option_map] in Hs.
    + exists (sp :: new). rewrite <-app_assoc. split; [done|]. rewrite fmap_cons, Hn.
      simpl. by rewrite <-Hs.
    + exists new. split; [done|]. rewrite Hn. simpl. by rewrite <-Hs.
Qed.

(** One line: nothing, or an entry that views as the parsed line, also after
    more names have been appended. *)
Lemma push_module_spec pre line post mods names :
  txt = pre ++ line ++ post →
  match parse_line line with
  | None => push_module (mods, names) line (blen pre) = (mods, names)
  | Some ml => ∃ e new, push_module (mods, names) line (blen pre) = (mods ++ [e], names ++ new) ∧
      ∀ extra, view_entry txt (names ++ new ++ extra) e = ml
  end.
Proof.
  intros E. unfold parse_line, push_module.
  destruct (trim_spec line) as (a & b & Hl & Ha & _). rewrite (lead_spec line a Ha).
  destruct (split_once COLON (trim line)) as [[raw deps]|] eqn:Hs; [|done].
  apply split_once_Some in Hs as [Hs _]. cbn [mbind option_bind].
  assert (txt = (pre ++ a) ++ raw ++ COLON :: deps ++ b ++ post) as E1.
  { rewrite E. rewrite Hl at 1. rewrite Hs. by rewrite <-!app_assoc. }
  pose proof (blen_nonneg raw). pose proof (blen_nonneg deps). pose proof (blen_nonneg (b ++ post)).
  assert (blen txt = blen pre + blen a + blen raw + 1 + blen deps + blen (b ++ post)) as Hlen.
  { rewrite E1, !blen_app, blen_cons_ascii, !blen_app by (unfold COLON; lia). lia. }
  rewrite sat_add_fit by lia. rewrite <-blen_app.
  assert (span_slice txt <$> name_span (trim raw) (blen (pre ++ a)) = module_stem (trim raw)) as Hn.
  { destruct (trim_spec raw) as (x & y & Hr & Hx & _). destruct (decide (raw = [])) as [->|Hne].
    - done.
    - assert (trim_start raw = raw) as Hts.
      { apply trim_start_not_blank; [by destruct raw|]. intros c Hc.
        destruct (trim_start_spec line) as (_ & _ & _ & Hh).
        destruct (trim_end_spec (trim_start line)) as (z & Hz & _). fold (trim line) in Hz.
        rewrite Hs in Hz. destruct raw as [|c' raw]; [done|]. injection Hc as ->.
        by rewrite Hz in Hh. }
      rewrite Hts in Hx. assert (x = []) as ->.
      { apply (f_equal length) in Hx. rewrite length_app in Hx. destruct x; simpl in Hx; [done|lia]. }
      eapply (name_span_spec _ _ (y ++ COLON :: deps ++ b ++ post)). rewrite E1.
      rewrite Hr at 1. by rewrite <-!app_assoc. }
  destruct (name_span (trim raw) (blen (pre ++ a))) as [sp|]; cbn [fmap option_fmap option_map] in Hn;
    rewrite <-Hn; cbn [mbind option_bind]; [|done].
  rewrite blen_app. rewrite (sat_add_fit (blen pre + blen a)) by lia. rewrite sat_add_fit by lia.
  replace (blen pre + blen a + blen raw + 1) with (blen (pre ++ a ++ raw ++ [COLON]))
    by (rewrite !blen_app; change (blen [COLON]) with 1; lia).
  destruct (push_deps_spec (pre ++ a ++ raw ++ [COLON]) (split_on SPACE deps) (b ++ post) names)
    as (new & -> & Hnew); [apply split_on_nonempty|rewrite join_split, E1; by rewrite <-!app_assoc|].
  eexists _, new. split; [done|]. intros extra. unfold view_entry. cbn [ename epath edeps start slen].
  f_equal.
  - rewrite <-blen_app. by eapply span_at_spec.
  - unfold saturating_sub, zlen. rewrite length_app.
    replace (Z.to_nat (Z.of_nat (length names))) with (length names) by lia.
    rewrite drop_app_length.
    replace (Z.to_nat (0 `max` _)) with (length new) by lia. by rewrite take_app_length.
Qed.

(** An invariant of the callback holds after all lines. *)
Lemma for_each_line_inv {S} (callback : S → ustring → Z → S) (P : list ustring → S → Prop) s :
  (∀ ls line pre post s, txt = pre ++ line ++ post → P ls s →
     P (ls ++ [line]) (callback s line (blen pre))) →
  P [] s → P (split_on LF txt) (for_each_line txt callback s).
Proof.
  intros Hcb. unfold for_each_line. pose proof (join_split LF txt) as E.
  pose proof (split_on_nonempty LF txt) as Hne. revert E Hne.
  generalize (split_on LF txt) as ls.
  assert (∀ ls pre s seen, ls ≠ [] → pre ++ join LF ls = txt → P seen s →
    P (seen ++ ls) (for_each_line_from (blen pre) ls callback s)) as Hgen.
  { clear s. induction ls as [|l ls IH]; intros pre s seen Hne E Hs; [done|].
    cbn [for_each_line_from]. destruct (decide (ls = [])) as [->|Hls].
    { eapply Hcb; [|done]. by rewrite app_nil_r. }
    rewrite join_cons in E by done.
    assert (blen txt = blen pre + blen l + 1 + blen (join LF ls)) as Hlen.
    { rewrite <-E, !blen_app, blen_cons_ascii by (unfold LF; lia). lia. }
    pose proof (blen_nonneg (join LF ls)).
    rewrite (sat_add_fit (blen pre)) by lia. rewrite sat_add_fit by lia.
    replace (blen pre + blen l + 1) with (blen (pre ++ l ++ [LF]))
      by (rewrite !blen_app; change (blen [LF]) with 1; lia).
    replace (seen ++ l :: ls) with ((seen ++ [l]) ++ ls) by by rewrite <-app_assoc.
    apply IH; [done|rewrite <-E; by rewrite <-!app_assoc|]. by eapply Hcb. }
  intros ls E Hne Hs. by apply (Hgen ls [] s []).
Qed.
End spans.

(** The database of a text is the sorted list of its parsed lines. *)
Lemma view_index txt : blen txt ≤ uint_max 64 → view (index txt) = parse_deps txt.
Proof.
  intros Hfit. unfold index.
  pose proof (for_each_line_inv txt Hfit push_module (λ ls st, ∀ extra,
    view_entry txt (st.2 ++ extra) <$> st.1 = omap parse_line ls) ([], [])) as H.
  destruct (for_each_line txt push_module ([], [])) as [mods names]. cbn [fst snd] in H.
  unfold view, parse_deps. cbn [text modules dep_names].
  rewrite <-(H) with (extra := []); [|intros ls line pre post [ms ns] E Hs extra|done].
  { rewrite app_nil_r. by apply stable_sort_fmap. }
  pose proof (push_module_spec txt Hfit pre line post ms ns E) as Hm. cbn [fst snd] in *.
  rewrite omap_app. simpl omap at 2. destruct (parse_line line) as [ml|].
  - destruct Hm as (e & new & -> & He). cbn [fst snd]. rewrite fmap_app, <-app_assoc, Hs.
    by rewrite fmap_cons, He.
  - rewrite Hm. cbn [fst snd]. by rewrite Hs, app_nil_r.
Qed.
