(* ===== verification/KmodOrder.v ===== *)
(** Looking modules up and ordering them for loading
    (libs/kmod/src/deps.rs: [find], [get_path], [resolve_load_order]).

    The dependency graph has the indexed modules as nodes; [depends] is its
    edge relation. The theorems: lookup finds a name exactly when a line
    defines it, and the load order lists every module reachable from the
    requested one once, dependencies first. *)

From stdpp Require Import relations.
From S2P Require Import Prelude Io Utf Text Str Order KmodDeps.

(** ** Lookup *)

Definition db_sorted (db : DepDb) : Prop := sorted (key_leb (text db)) (modules db).

Lemma index_sorted txt : db_sorted (index txt).
Proof.
  unfold index, db_sorted. destruct (for_each_line _ _ _). cbn [text modules].
  apply stable_sort_sorted; unfold key_leb; intros; [apply lex_leb_total|by eapply lex_leb_trans].
Qed.

Lemma view_lookup db i e :
  modules db !! i = Some e → view db !! i = Some (view_entry (text db) (dep_names db) e).
Proof. intros Hi. unfold view. by rewrite list_lookup_fmap, Hi. Qed.

Lemma find_sound db nm i :
  find db nm = Some i → ∃ ml, view db !! i = Some ml ∧ key (l_name ml) = key nm.
Proof.
  intros (e & He & Hk)%binary_search_found. apply lex_cmp_eq in Hk.
  eexists. split; [by apply view_lookup|done].
Qed.

Lemma find_complete db nm ml :
  db_sorted db → ml ∈ view db → key (l_name ml) = key nm → is_Some (find db nm).
Proof.
  intros Hs Hin Hk. unfold view in Hin. apply list_elem_of_fmap in Hin as (e & -> & He).
  apply (binary_search_complete (λ e, key (span_slice (text db) (ename e)))); [done|]. by exists e.
Qed.

(** A name is found exactly when some line defines it, up to dashes. *)
Lemma find_iff db nm :
  db_sorted db →
  is_Some (find db nm) ↔ ∃ ml, ml ∈ view db ∧ key (l_name ml) = key nm.
Proof.
  intros Hs. split.
  - intros [i Hi]. apply find_sound in Hi as (ml & Hml & Hk). exists ml. split; [|done].
    by eapply list_elem_of_lookup_2.
  - intros (ml & Hin & Hk). by eapply find_complete.
Qed.

(** ** The dependency graph *)

Definition deps_of (db : DepDb) (i : nat) : list nat :=
  match modules db !! i with Some e => dep_indices db e | None => [] end.
Definition depends (db : DepDb) (i j : nat) : Prop := j ∈ deps_of db i.
Definition path_of (db : DepDb) (i : nat) : ustring :=
  match modules db !! i with Some e => span_slice (text db) (epath e) | None => [] end.

(** The edges by name: the dependencies a line lists, those that are indexed. *)
Lemma deps_of_view db i ml :
  view db !! i = Some ml → deps_of db i = omap (find db) (l_deps ml).
Proof.
  unfold view. rewrite list_lookup_fmap. intros Hi. unfold deps_of.
  destruct (modules db !! i) as [e|]; [|done]. injection Hi as <-. cbn [l_deps view_entry].
  unfold dep_indices, dep_spans. generalize (take (Z.to_nat (slen (edeps e)))
    (drop (Z.to_nat (start (edeps e))) (dep_names db))). intros l.
  induction l as [|sp l IH]; [done|]. rewrite fmap_cons.
  cbn [omap list_omap]. by destruct (find db _); [f_equal|].
Qed.

Lemma path_of_view db i ml : view db !! i = Some ml → path_of db i = l_path ml.
Proof.
  unfold view. rewrite list_lookup_fmap. intros Hi. unfold path_of.
  destruct (modules db !! i) as [e|]; [|done]. by injection Hi as <-.
Qed.

Lemma find_bound db nm i : find db nm = Some i → (i < len db)%nat.
Proof. intros (e & He & _)%binary_search_found. by eapply lookup_lt_Some. Qed.

Lemma deps_of_bound db i j : j ∈ deps_of db i → (j < len db)%nat.
Proof.
  unfold deps_of. destruct (modules db !! i) as [e|]; [|by intros ?%not_elem_of_nil].
  unfold dep_indices. intros (sp & _ & Hf)%list_elem_of_omap. by eapply find_bound.
Qed.

(** ** The visit *)

Definition marked (visited : list bool) (i : nat) : Prop := visited !! i = Some true.
Definition unmarked (visited : list bool) : nat := length (filter (λ b, b = false) visited).

Lemma unmarked_insert visited i :
  visited !! i = Some false → unmarked visited = S (unmarked (<[i := true]> visited)).
Proof.
  intros Hi. assert (i < length visited)%nat by by eapply lookup_lt_Some.
  unfold unmarked. rewrite insert_take_drop by done.
  rewrite <-(take_drop_middle visited i false Hi) at 1.
  rewrite !filter_app, !length_app. rewrite !filter_cons.
  destruct (decide (false = false)); [|done]. destruct (decide (true = false)); [done|].
  simpl. lia.
Qed.

Lemma unmarked_replicate n : unmarked (replicate n false) = n.
Proof.
  induction n as [|n IH]; [done|]. unfold unmarked in *. cbn [replicate]. rewrite filter_cons.
  destruct (decide (false = false)); [|done]. simpl. by rewrite IH.
Qed.

(** What a visit that marked [new] did, starting from the marks [visited] at
    the nodes [roots]. A dependency of a new node was marked before, comes
    earlier among the new ones, or leads back to the node. *)
Record visit_post (db : DepDb) (roots : list nat) (visited : list bool) (new : list nat)
    (visited' : list bool) : Prop := {
  post_length : length visited' = length visited;
  post_unmarked : (unmarked visited' ≤ unmarked visited)%nat;
  post_marked x : marked visited' x ↔ marked visited x ∨ x ∈ new;
  post_nodup : NoDup new;
  post_fresh x : x ∈ new → ¬ marked visited x;
  post_reach x : x ∈ new → ∃ r, r ∈ roots ∧ rtc (depends db) r x;
  post_roots r : r ∈ roots → (r < length visited)%nat → marked visited' r;
  post_order l1 x l2 y : new = l1 ++ x :: l2 → depends db x y → (y < length visited)%nat →
    marked visited y ∨ y ∈ l1 ∨ rtc (depends db) y x;
  post_closed x y : x ∈ new → depends db x y → (y < length visited)%nat → marked visited' y;
}.

Lemma visit_post_nothing db visited r :
  ((r < length visited)%nat → marked visited r) → visit_post db [r] visited [] visited.
Proof.
  intros Hr. constructor; try done.
  - intros x. split; [by left|]. intros [?|?%not_elem_of_nil]; done.
  - constructor.
  - by intros x ?%not_elem_of_nil.
  - by intros x ?%not_elem_of_nil.
  - intros r' ->%list_elem_of_singleton. done.
  - intros l1 x l2 y E. by destruct l1.
  - by intros x y ?%not_elem_of_nil.
Qed.

(** Two visits in sequence. *)
Lemma visit_post_seq db rs1 rs2 v n1 v1 n2 v2 :
  visit_post db rs1 v n1 v1 → visit_post db rs2 v1 n2 v2 →
  visit_post db (rs1 ++ rs2) v (n1 ++ n2) v2.
Proof.
  intros H1 H2. pose proof (post_length _ _ _ _ _ H1) as Hlen. constructor.
  - rewrite (post_length _ _ _ _ _ H2). done.
  - pose proof (post_unmarked _ _ _ _ _ H1). pose proof (post_unmarked _ _ _ _ _ H2). lia.
  - intros x. rewrite (post_marked _ _ _ _ _ H2), (post_marked _ _ _ _ _ H1), elem_of_app. tauto.
  - apply NoDup_app. split_and!; [apply H1| |apply H2]. intros x Hx Hx2.
    apply (post_fresh _ _ _ _ _ H2 x Hx2), (post_marked _ _ _ _ _ H1). by right.
  - intros x [Hx|Hx]%elem_of_app; [by apply H1|]. intros Hm.
    apply (post_fresh _ _ _ _ _ H2 x Hx), (post_marked _ _ _ _ _ H1). by left.
  - intros x [Hx|Hx]%elem_of_app.
    + destruct (post_reach _ _ _ _ _ H1 x Hx) as (r & Hr & ?). exists r. set_solver.
    + destruct (post_reach _ _ _ _ _ H2 x Hx) as (r & Hr & ?). exists r. set_solver.
  - intros r [Hr|Hr]%elem_of_app Hlt.
    + apply (post_marked _ _ _ _ _ H2). left. by apply (post_roots _ _ _ _ _ H1).
    + apply (post_roots _ _ _ _ _ H2); [done|]. by rewrite Hlen.
  - intros l1 x l2 y E Hd Hlt. apply app_eq_inv in E as [(k & -> & E)|(k & -> & E)].
    + destruct k as [|x' k].
      * cbn [app] in E. symmetry in E. rewrite app_nil_r in H1.
        destruct (post_order _ _ _ _ _ H2 [] x l2 y) as [Hm|[?%not_elem_of_nil|?]]; [done|done|by rewrite Hlen| |done|tauto].
        apply (post_marked _ _ _ _ _ H1) in Hm as [?|?]; tauto.
      * injection E as <- E. by eapply (post_order _ _ _ _ _ H1).
    + destruct (post_order _ _ _ _ _ H2 k x l2 y) as [Hm|[Hin|?]]; [done|done|by rewrite Hlen|..].
      * apply (post_marked _ _ _ _ _ H1) in Hm as [?|?]; [tauto|]. right; left. set_solver.
      * right; left. set_solver.
      * tauto.
  - intros x y [Hx|Hx]%elem_of_app Hd Hlt.
    + apply (post_marked _ _ _ _ _ H2). left. by eapply (post_closed _ _ _ _ _ H1).
    + eapply (post_closed _ _ _ _ _ H2); [done..|]. by rewrite Hlen.
Qed.

(** Marking a node, visiting its dependencies and appending it. *)
Lemma visit_post_node db i visited new visited' :
  visited !! i = Some false →
  visit_post db (deps_of db i) (<[i := true]> visited) new visited' →
  visit_post db [i] visited (new ++ [i]) visited'.
Proof.
  intros Hi H. assert (i < length visited)%nat as Hlt by by eapply lookup_lt_Some.
  assert (∀ x, marked (<[i := true]> visited) x ↔ marked visited x ∨ x = i) as Hmk.
  { intros x. unfold marked. destruct (decide (x = i)) as [->|Hx].
    - rewrite list_lookup_insert_eq by done. tauto.
    - rewrite list_lookup_insert_ne by done. tauto. }
  assert (i ∉ new) as Hin.
  { intros Hin. apply (post_fresh _ _ _ _ _ H i Hin), Hmk. by right. }
  pose proof (post_length _ _ _ _ _ H) as Hlen. rewrite length_insert in Hlen.
  constructor.
  - done.
  - pose proof (post_unmarked _ _ _ _ _ H). rewrite (unmarked_insert visited i) by done. lia.
  - intros x. rewrite (post_marked _ _ _ _ _ H), Hmk, elem_of_app, list_elem_of_singleton. tauto.
  - apply NoDup_app. split_and!; [apply H| |apply NoDup_singleton].
    intros x Hx ->%list_elem_of_singleton. done.
  - intros x [Hx|Hx]%elem_of_app.
    + intros Hm. apply (post_fresh _ _ _ _ _ H x Hx), Hmk. by left.
    + apply list_elem_of_singleton in Hx as ->. unfold marked. by rewrite Hi.
  - intros x [Hx|Hx]%elem_of_app; exists i; (split; [by apply list_elem_of_singleton|]).
    + destruct (post_reach _ _ _ _ _ H x Hx) as (r & Hr & ?). by eapply rtc_l.
    + by apply list_elem_of_singleton in Hx as ->.
  - intros r ->%list_elem_of_singleton _. apply (post_marked _ _ _ _ _ H), or_introl, Hmk. by right.
  - intros l1 x l2 y E Hd Hy. destruct l2 as [|z l2 _] using rev_ind.
    + apply app_inj_tail in E as [-> ->].
      destruct (decide (y = x)) as [->|Hne]; [by right; right|].
      pose proof (post_roots _ _ _ _ _ H y Hd) as Hm. rewrite length_insert in Hm. specialize (Hm Hy).
      apply (post_marked _ _ _ _ _ H) in Hm as [[Hm|?]%Hmk|Hm]; tauto.
    + rewrite app_comm_cons, app_assoc in E. apply app_inj_tail in E as [-> ->].
      destruct (post_order _ _ _ _ _ H l1 x l2 y) as [[Hm| ->]%Hmk|?]; [done|done| |tauto| |tauto].
      { by rewrite length_insert. }
      right; right. destruct (post_reach _ _ _ _ _ H x) as (r & Hr & Hrx); [set_solver|].
      by eapply rtc_l.
  - intros x y [Hx|Hx]%elem_of_app Hd Hy.
    + eapply (post_closed _ _ _ _ _ H); [done..|]. by rewrite length_insert.
    + apply list_elem_of_singleton in Hx as ->.
      apply (post_roots _ _ _ _ _ H); [done|]. by rewrite length_insert.
Qed.

(** The loop over dependencies, given the behaviour of one visit. *)
Lemma visit_list db fuel ds order visited :
  (∀ i order visited, (unmarked visited < fuel)%nat → length visited = len db →
    ∃ new visited', visit fuel db i (order, visited) = Some (order ++ (path_of db <$> new), visited') ∧
      visit_post db [i] visited new visited') →
  (unmarked visited < fuel)%nat → length visited = len db →
  ∃ new visited', foldl (λ acc dep, st ← acc; visit fuel db dep st) (Some (order, visited)) ds
      = Some (order ++ (path_of db <$> new), visited') ∧ visit_post db ds visited new visited'.
Proof.
  intros Hv. revert order visited; induction ds as [|d ds IH]; intros order visited Hf Hl; cbn [foldl].
  { exists [], visited. rewrite app_nil_r. split; [done|].
    constructor; try done.
    - intros x. split; [by left|]. by intros [?|?%not_elem_of_nil].
    - constructor.
    - by intros x ?%not_elem_of_nil.
    - by intros x ?%not_elem_of_nil.
    - by intros x ?%not_elem_of_nil.
    - intros l1 x l2 y E. by destruct l1.
    - by intros x y ?%not_elem_of_nil. }
  destruct (Hv d order visited Hf Hl) as (n1 & v1 & Hd & H1). cbn [mbind option_bind]. rewrite Hd.
  destruct (IH (order ++ (path_of db <$> n1)) v1) as (n2 & v2 & Hd2 & H2).
  { pose proof (post_unmarked _ _ _ _ _ H1). lia. }
  { by rewrite (post_length _ _ _ _ _ H1). }
  exists (n1 ++ n2), v2. rewrite fmap_app, app_assoc. split; [done|].
  by apply (visit_post_seq db [d] ds visited n1 v1 n2 v2).
Qed.

(** One more unit of fuel than unmarked nodes is enough. *)
Lemma visit_spec db fuel i order visited :
  (unmarked visited < fuel)%nat → length visited = len db →
  ∃ new visited', visit fuel db i (order, visited) = Some (order ++ (path_of db <$> new), visited') ∧
    visit_post db [i] visited new visited'.
Proof.
  revert i order visited; induction fuel as [|fuel IH]; intros i order visited Hf Hl; [lia|].
  cbn [visit]. destruct (visited !! i) as [[|]|] eqn:Hi.
  - exists [], visited. rewrite app_nil_r. split; [done|]. by apply visit_post_nothing.
  - assert (i < length (modules db))%nat as Hlt.
    { apply lookup_lt_Some in Hi. by rewrite Hl in Hi. }
    destruct (lookup_lt_is_Some_2 _ _ Hlt) as [e He]. rewrite He.
    pose proof (unmarked_insert visited i Hi).
    destruct (visit_list db fuel (dep_indices db e) order (<[i := true]> visited)) as (new & v' & E & H');
      [done|lia|by rewrite length_insert|].
    rewrite E. cbn [mbind option_bind]. exists (new ++ [i]), v'. split.
    + rewrite fmap_app, app_assoc. unfold path_of at 3. simpl. by rewrite He.
    + apply visit_post_node; [done|]. unfold deps_of. by rewrite He.
  - exists [], visited. rewrite app_nil_r. split; [done|]. apply visit_post_nothing.
    intros Hlt. apply lookup_lt_is_Some_2 in Hlt as [b Hb]. congruence.
Qed.

(** ** The load order *)

(** [order] lists what is reachable from [i] once, [i] last, and every
    dependency of a module in front of it unless the two are in a cycle. *)
Record load_order (db : DepDb) (i : nat) (order : list nat) : Prop := {
  lo_nodup : NoDup order;
  lo_reach x : x ∈ order ↔ rtc (depends db) i x;
  lo_last : last order = Some i;
  lo_before l1 x l2 y : order = l1 ++ x :: l2 → depends db x y →
    y ∈ l1 ∨ rtc (depends db) y x;
}.

Lemma resolve_spec db nm i :
  find db nm = Some i →
  ∃ order, resolve_load_order db nm = Some (Some (path_of db <$> order)) ∧ load_order db i order.
Proof.
  intros Hi. pose proof (find_bound _ _ _ Hi) as Hlt. unfold resolve_load_order. rewrite Hi.
  set (v := replicate (len db) false).
  assert (length v = len db) as Hl by apply length_replicate.
  assert (v !! i = Some false) as Hvi by by apply lookup_replicate.
  assert (i < length (modules db))%nat as Hm by done.
  destruct (lookup_lt_is_Some_2 _ _ Hm) as [e He].
  assert (unmarked v = len db) as Hu by apply unmarked_replicate.
  pose proof (unmarked_insert v i Hvi) as Hui.
  destruct (visit_list db (len db) (dep_indices db e) [] (<[i := true]> v)) as (new & v' & E & H');
    [intros; by apply visit_spec|lia|by rewrite length_insert|].
  assert (path_of db i = span_slice (text db) (epath e)) as Hp by (unfold path_of; by rewrite He).
  exists (new ++ [i]). cbn [visit]. rewrite Hvi, He, E. cbn [mbind option_bind app]. split.
  { rewrite fmap_app. simpl. by rewrite Hp. }
  assert (visit_post db [i] v (new ++ [i]) v') as H.
  { apply visit_post_node; [done|]. unfold deps_of. by rewrite He. }
  assert (∀ x, ¬ marked v x) as Hnone.
  { intros x Hx. apply lookup_replicate in Hx as [? _]. done. }
  assert (∀ x y, depends db x y → (y < length v)%nat) as Hb.
  { intros x y Hd. rewrite Hl. by eapply deps_of_bound. }
  constructor.
  - apply H.
  - intros x. split.
    + intros Hx. destruct (post_reach _ _ _ _ _ H x Hx) as (r & ->%list_elem_of_singleton & ?). done.
    + intros Hr. assert (i ∈ new ++ [i]) as Hin by set_solver. revert Hin. revert H Hr.
      generalize (new ++ [i]) as order. intros order H Hr. clear -H Hr Hb Hnone. revert H.
      generalize [i] as roots. intros roots H.
      induction Hr as [|a b c Hab _ IH]; [done|]. intros Ha. apply IH.
      assert (marked v' b) as Hb' by (eapply (post_closed _ _ _ _ _ H); eauto).
      apply (post_marked _ _ _ _ _ H) in Hb' as [?|?]; [by destruct (Hnone b)|done].
  - by rewrite last_snoc.
  - intros l1 x l2 y Hx Hd.
    destruct (post_order _ _ _ _ _ H l1 x l2 y Hx Hd) as [?|?]; [by eapply Hb| |done].
    by destruct (Hnone y).
Qed.

(** ** Theorems *)

(** The database of a modules.dep text holds exactly its well-formed lines,
    sorted by name, with name, path and dependency names as written; a lookup
    succeeds exactly for the names some line defines, dashes and underscores
    identified, and then answers with the path of such a line. *)
Theorem dep_db_refines_text txt nm :
  blen txt ≤ uint_max 64 →
  view (index txt) = parse_deps txt ∧
  parse_deps txt ≡ₚ omap parse_line (split_on LF txt) ∧
  (is_Some (get_path (index txt) nm) ↔
     ∃ ml, ml ∈ parse_deps txt ∧ key (l_name ml) = key nm) ∧
  (∀ p, get_path (index txt) nm = Some p →
     ∃ ml, ml ∈ parse_deps txt ∧ key (l_name ml) = key nm ∧ l_path ml = p).
Proof.
  intros Hfit. pose proof (view_index txt Hfit) as Hview.
  assert (∀ i, find (index txt) nm = Some i → ∃ ml, parse_deps txt !! i = Some ml ∧
    key (l_name ml) = key nm ∧ get_path (index txt) nm = Some (l_path ml)) as Hget.
  { intros i Hi. pose proof (find_sound _ _ _ Hi) as (ml & Hml & Hk). rewrite <-Hview.
    exists ml. split_and!; [done..|]. unfold get_path. rewrite Hi. cbn [mbind option_bind].
    unfold view in Hml. rewrite list_lookup_fmap in Hml.
    destruct (modules (index txt) !! i); [|done]. by injection Hml as <-. }
  split_and!; [done|apply stable_sort_perm| |].
  - rewrite <-Hview, <-find_iff by apply index_sorted. split.
    + unfold get_path. destruct (find (index txt) nm); [eauto|by intros []].
    + intros [i Hi]. destruct (Hget i Hi) as (ml & _ & _ & ->). eauto.
  - intros p Hp. destruct (find (index txt) nm) as [i|] eqn:Hi.
    + destruct (Hget i eq_refl) as (ml & Hml & Hk & Hg). exists ml.
      split; [by eapply list_elem_of_lookup_2|]. split; [done|congruence].
    + unfold get_path in Hp. by rewrite Hi in Hp.
Qed.

Lemma load_order_acyclic db i order :
  load_order db i order → (∀ x, ¬ tc (depends db) x x) →
  ∀ l1 x l2 y, order = l1 ++ x :: l2 → depends db x y → y ∈ l1.
Proof.
  intros H Hac l1 x l2 y E Hd. destruct (lo_before _ _ _ H l1 x l2 y E Hd) as [?|Hr]; [done|].
  destruct (Hac x). by eapply tc_rtc_r; [apply tc_once|].
Qed.

(** C35: Resolving a name ends with the paths of the modules its module needs,
    directly or not: each once, the module itself last, and, where the
    dependencies have no cycle, every module behind all its dependencies. A
    name no line defines has no load order. *)
Theorem load_order_correct txt nm :
  blen txt ≤ uint_max 64 →
  let db := index txt in
  match find db nm with
  | None => resolve_load_order db nm = Some None ∧
            ∀ ml, ml ∈ parse_deps txt → key (l_name ml) ≠ key nm
  | Some i =>
      ∃ order ml, resolve_load_order db nm = Some (Some (path_of db <$> order)) ∧
        parse_deps txt !! i = Some ml ∧ key (l_name ml) = key nm ∧
        NoDup order ∧ (∀ x, x ∈ order ↔ rtc (depends db) i x) ∧ last order = Some i ∧
        ((∀ x, ¬ tc (depends db) x x) →
          ∀ l1 x l2 y, order = l1 ++ x :: l2 → depends db x y → y ∈ l1) ∧
        (∀ x m, parse_deps txt !! x = Some m →
           path_of db x = l_path m ∧ deps_of db x = omap (find db) (l_deps m))
  end.
Proof.
  intros Hfit db. pose proof (view_index txt Hfit) as Hview. fold db in Hview.
  destruct (find db nm) as [i|] eqn:Hi.
  - destruct (resolve_spec db nm i Hi) as (order & Hr & Ho).
    destruct (find_sound _ _ _ Hi) as (ml & Hml & Hk). rewrite Hview in Hml.
    exists order, ml. split_and!; [done..|apply Ho|apply Ho|apply Ho|by eapply load_order_acyclic|].
    intros x m Hx. rewrite <-Hview in Hx. split; [by apply path_of_view|by apply deps_of_view].
  - unfold resolve_load_order. rewrite Hi. split; [done|]. intros ml Hml Hk. rewrite <-Hview in Hml.
    destruct (find_complete db nm ml) as [i Hfi]; [apply index_sorted|done|done|]. congruence.
Qed.

Definition demo_dep : ustring := ustr "kernel/net/igc.ko.zst: kernel/ptp/ptp.ko kernel/net/lib-phy.ko
kernel/ptp/ptp.ko: kernel/pps/pps_core.ko
kernel/pps/pps_core.ko:
broken line
kernel/net/lib-phy.ko:
".

Lemma dep_db_refines_text_witness :
  get_path (index demo_dep) (ustr "lib_phy") = Some (ustr "kernel/net/lib-phy.ko") ∧
  ∃ ml, ml ∈ parse_deps demo_dep ∧ key (l_name ml) = key (ustr "lib_phy").
Proof.
  destruct (dep_db_refines_text demo_dep (ustr "lib_phy")) as (_ & _ & Hiff & _).
  - vm_compute. discriminate.
  - assert (get_path (index demo_dep) (ustr "lib_phy") = Some (ustr "kernel/net/lib-phy.ko")) as Hg
      by by vm_compute.
    split; [exact Hg|]. apply Hiff. rewrite Hg. by eexists.
Defined.

Lemma load_order_correct_witness :
  resolve_load_order (index demo_dep) (ustr "igc") = Some (Some [ustr "kernel/pps/pps_core.ko";
    ustr "kernel/ptp/ptp.ko"; ustr "kernel/net/lib-phy.ko"; ustr "kernel/net/igc.ko.zst"]) ∧
  resolve_load_order (index demo_dep) (ustr "broken") = Some None.
Proof.
  split; [by vm_compute|].
  assert (blen demo_dep ≤ uint_max 64) as Hfit by (vm_compute; discriminate).
  pose proof (load_order_correct demo_dep (ustr "broken") Hfit) as H.
  assert (find (index demo_dep) (ustr "broken") = None) as Hn by by vm_compute.
  cbv zeta in H. rewrite Hn in H. exact (proj1 H).
Defined.
