(* ===== verification/KmodGlob.v ===== *)
(** The module alias database and its pattern matcher
    (libs/kmod/src/aliases.rs).

    The matcher backtracks only to the last star. The reference is the
    inductive relation [glob]; the theorem says that the loop ends and decides
    it. *)

From S2P Require Import Prelude Io Utf Text Str KmodDeps.

(** ** The matcher *)

Definition STAR : Z := 42.
Definition QUESTION : Z := 63.

Definition to_ascii_lowercase (b : Z) : Z := if (65 <=? b) && (b <=? 90) then b + 32 else b.
Definition eq_ignore_ascii_case (a b : Z) : bool := to_ascii_lowercase a =? to_ascii_lowercase b.

(** The second loop: skips the stars that are left. *)
Fixpoint skip_stars (fuel : nat) (pattern : list Z) (pi : nat) : nat :=
  match fuel with
  | O => pi
  | S fuel =>
      if bool_decide (pattern !! pi = Some STAR) then skip_stars fuel pattern (S pi) else pi
  end.

(** The first loop; [star] is the pair of saved indices. [None] is out of
    fuel. *)
Fixpoint glob_loop (fuel : nat) (pattern text : list Z) (pi ti : nat) (star : option (nat * nat))
    : option bool :=
  match fuel with
  | O => None
  | S fuel =>
      match text !! ti with
      | None => Some (bool_decide (skip_stars (length pattern) pattern pi = length pattern))
      | Some text_byte =>
          let backtrack :=
            match star with
            | None => Some false
            | Some (sp, st) => glob_loop fuel pattern text (S sp) (S st) (Some (sp, S st))
            end in
          match pattern !! pi with
          | None => backtrack
          | Some b =>
              if b =? STAR then glob_loop fuel pattern text (S pi) ti (Some (pi, ti))
              else if b =? QUESTION then glob_loop fuel pattern text (S pi) (S ti) star
              else if eq_ignore_ascii_case b text_byte
              then glob_loop fuel pattern text (S pi) (S ti) star
              else backtrack
          end
      end
  end.

Definition glob_fuel (pattern text : list Z) : nat :=
  S ((length text + 1) * (length pattern + 1) + length pattern).
Definition glob_match_bytes (pattern text : list Z) : option bool :=
  glob_loop (glob_fuel pattern text) pattern text 0 0 None.

(** ** The database *)

Definition ALIAS_PREFIX : ustring := ustr "alias ".

Record Alias := { pattern : Span; module : Span }.
Record AliasDb := { atext : ustring; entries : list Alias }.

Definition parse_alias (line : ustring) (offset : Z) : option Alias :=
  let lead := saturating_sub (blen line) (blen (trim_start line)) in
  let line := trim line in
  rest ← strip_prefix ALIAS_PREFIX line;
  '(pat, m) ← rsplit_once SPACE rest;
  let pattern_base := saturating_add 64 (saturating_add 64 offset lead) (blen ALIAS_PREFIX) in
  Some {| pattern := span_at pattern_base pat;
          module := span_at (saturating_add 64 (saturating_add 64 pattern_base (blen pat)) 1) m |}.

Definition parse_text (txt : ustring) : list Alias :=
  for_each_line txt (λ es line offset,
    match parse_alias line offset with Some a => es ++ [a] | None => es end) [].

Definition load_aliases (contents : res io_error ustring) : res io_error AliasDb :=
  txt ← contents; Ok {| atext := txt; entries := parse_text txt |}.

Definition alias_len (db : AliasDb) : nat := length (entries db).
Definition alias_is_empty (db : AliasDb) : bool := bool_decide (entries db = []).

(** [find_map] over the entries; the matcher always answers
    ([glob_match_total]). *)
Definition find_module (db : AliasDb) (modalias : ustring) : option ustring :=
  head (omap (λ a,
    if default false (glob_match_bytes (utf8 (span_slice (atext db) (pattern a))) (utf8 modalias))
    then Some (span_slice (atext db) (module a)) else None) (entries db)).

(** ** Reference: glob patterns *)

Inductive glob : list Z → list Z → Prop :=
| glob_nil : glob [] []
| glob_star p s t : glob p t → glob (STAR :: p) (s ++ t)
| glob_any p c t : glob p t → glob (QUESTION :: p) (c :: t)
| glob_char p a b t : a ≠ STAR → a ≠ QUESTION → eq_ignore_ascii_case a b = true →
    glob p t → glob (a :: p) (b :: t).

Lemma glob_star_inv p t : glob (STAR :: p) t ↔ ∃ k, (k ≤ length t)%nat ∧ glob p (drop k t).
Proof.
  split.
  - inversion 1 as [|p' s t' Hg E1 E2| |? ? ? ? Ha]; subst; [|done..].
    exists (length s). rewrite length_app, drop_app_length. split; [lia|done].
  - intros (k & Hk & Hg). rewrite <-(take_drop k t). by constructor.
Qed.

Lemma glob_any_inv p t : glob (QUESTION :: p) t ↔ ∃ c t', t = c :: t' ∧ glob p t'.
Proof.
  split.
  - inversion 1; subst; [eauto|done].
  - intros (c & t' & -> & Hg). by constructor.
Qed.

Lemma glob_char_inv a p t :
  a ≠ STAR → a ≠ QUESTION →
  glob (a :: p) t ↔ ∃ b t', t = b :: t' ∧ eq_ignore_ascii_case a b = true ∧ glob p t'.
Proof.
  intros H1 H2. split.
  - inversion 1; subst; [done..|eauto].
  - intros (b & t' & -> & He & Hg). by constructor.
Qed.

Lemma glob_nil_inv t : glob [] t ↔ t = [].
Proof. split; [by inversion 1|intros ->; constructor]. Qed.

(** Only stars match the empty text. *)
Lemma glob_empty p : glob p [] ↔ Forall (λ c, c = STAR) p.
Proof.
  induction p as [|c p IH]; [split; [constructor|constructor]|].
  rewrite Forall_cons. destruct (decide (c = STAR)) as [->|Hs].
  - rewrite glob_star_inv. simpl. rewrite <-IH. split.
    + intros (k & Hk & Hg). assert (k = O) as -> by lia. done.
    + intros [_ Hg]. by exists O.
  - split; [|tauto]. inversion 1; subst; done.
Qed.

(** A part without stars consumes its length. *)
Lemma glob_prefix q p t :
  Forall (λ c, c ≠ STAR) q → glob (q ++ p) t →
  (length q ≤ length t)%nat ∧ glob p (drop (length q) t).
Proof.
  intros Hq. revert t; induction Hq as [|c q Hc _ IH]; intros t Hg; [simpl; split; [lia|done]|].
  rewrite <-app_comm_cons in Hg. destruct (decide (c = QUESTION)) as [->|Hn].
  - apply glob_any_inv in Hg as (b & t' & -> & Hg). apply IH in Hg as [? ?]. simpl. split; [lia|done].
  - apply glob_char_inv in Hg as (b & t' & -> & _ & Hg); [|done..].
    apply IH in Hg as [? ?]. simpl. split; [lia|done].
Qed.

(** A star may start earlier. *)
Lemma glob_star_earlier p t i k :
  (i ≤ k)%nat → glob (STAR :: p) (drop k t) → glob (STAR :: p) (drop i t).
Proof.
  intros Hik. rewrite !glob_star_inv. intros (j & Hj & Hg). rewrite drop_drop in Hg.
  destruct (decide (k ≤ length t)%nat) as [Hk|Hk].
  - exists (k - i + j)%nat. rewrite length_drop in *. rewrite drop_drop.
    split; [lia|]. by replace (i + (k - i + j))%nat with (k + j)%nat by lia.
  - exists (length (drop i t)). split; [done|]. rewrite drop_all.
    rewrite drop_ge in Hg by lia. done.
Qed.

(** ** Correctness of the loop *)

Section loop.
Context (pat txt : list Z).

Lemma skip_stars_spec fuel pi :
  (length pat ≤ pi + fuel)%nat → (pi ≤ length pat)%nat →
  skip_stars fuel pat pi = length pat ↔ Forall (λ c, c = STAR) (drop pi pat).
Proof.
  revert pi; induction fuel as [|fuel IH]; intros pi Hf Hp.
  { assert (pi = length pat) as -> by lia. simpl. rewrite drop_all. split; [constructor|done]. }
  cbn [skip_stars]. destruct (decide (pi = length pat)) as [->|Hne].
  { rewrite drop_all, lookup_ge_None_2 by lia. simpl. split; [constructor|done]. }
  destruct (lookup_lt_is_Some_2 pat pi) as [c Hc]; [lia|]. rewrite (drop_S _ _ _ Hc), Forall_cons.
  rewrite Hc. case_bool_decide as Hs.
  - injection Hs as ->. rewrite IH by lia. tauto.
  - split; [intros ->; lia|]. intros [-> _]. done.
Qed.

(** The saved star lies before the current position; between them the pattern
    has no star and is as long as the text between them. *)
Definition loop_inv (pi ti : nat) (star : option (nat * nat)) : Prop :=
  (pi ≤ length pat)%nat ∧ (ti ≤ length txt)%nat ∧
  match star with
  | None => True
  | Some (sp, st) => (sp < pi)%nat ∧ (st ≤ ti)%nat ∧ (pi - S sp = ti - st)%nat ∧
      Forall (λ c, c ≠ STAR) (take (pi - S sp) (drop (S sp) pat))
  end.

(** What is still to be tried. *)
Definition alternatives (star : option (nat * nat)) : Prop :=
  match star with
  | None => False
  | Some (sp, st) => ∃ k, (st < k ≤ length txt)%nat ∧ glob (drop (S sp) pat) (drop k txt)
  end.
Definition matches (pi ti : nat) (star : option (nat * nat)) : Prop :=
  glob (drop pi pat) (drop ti txt) ∨ alternatives star.

Definition measure (pi : nat) (star : option (nat * nat)) : nat :=
  (length txt + 1 - match star with Some (_, st) => st | None => 0 end) * (length pat + 1)
  + (length pat - pi).

(** An alternative matches at [ti] what the current attempt has left. *)
Lemma alternative_rest pi ti sp st k :
  loop_inv pi ti (Some (sp, st)) → (st < k)%nat → glob (drop (S sp) pat) (drop k txt) →
  (ti < k + (ti - st))%nat ∧ (k + (ti - st) ≤ length txt ∨ ti = st)%nat ∧
  glob (drop pi pat) (drop (k + (ti - st)) txt).
Proof.
  intros (Hp & Ht & Hsp & Hst & Hd & Hq) Hk Hg.
  assert (drop (S sp) pat = take (pi - S sp) (drop (S sp) pat) ++ drop pi pat) as E.
  { rewrite <-(take_drop (pi - S sp) (drop (S sp) pat)) at 1. rewrite drop_drop.
    by replace (S sp + (pi - S sp))%nat with pi by lia. }
  rewrite E in Hg. apply glob_prefix in Hg as [Hl Hg]; [|done].
  assert (length (take (pi - S sp) (drop (S sp) pat)) = (pi - S sp)%nat) as Hlen.
  { rewrite length_take, length_drop. lia. }
  rewrite Hlen in *. rewrite length_drop in Hl. rewrite drop_drop, Hd in Hg. split_and!; [lia|lia|done].
Qed.

Lemma matches_star pi ti star :
  loop_inv pi ti star → pat !! pi = Some STAR →
  matches pi ti star ↔ matches (S pi) ti (Some (pi, ti)).
Proof.
  intros Hinv Hs. unfold matches. rewrite (drop_S _ _ _ Hs).
  assert (glob (STAR :: drop (S pi) pat) (drop ti txt) ↔
    glob (drop (S pi) pat) (drop ti txt) ∨ alternatives (Some (pi, ti))) as Hstar.
  { rewrite glob_star_inv, length_drop. split.
    - intros (k & Hk & Hg). rewrite drop_drop in Hg. destruct k as [|k].
      + left. by rewrite Nat.add_0_r in Hg.
      + right. exists (ti + S k)%nat. split; [lia|done].
    - intros [Hg|(k & Hk & Hg)].
      + exists O. rewrite drop_0. split; [lia|done].
      + exists (k - ti)%nat. rewrite drop_drop. replace (ti + (k - ti))%nat with k by lia.
        split; [lia|done]. }
  rewrite <-Hstar. split; [|by left]. intros [Hg|Halt]; [done|].
  destruct star as [[sp st]|]; [|done]. destruct Halt as (k & Hk & Hg).
  apply (alternative_rest pi ti sp st k) in Hg as (? & _ & Hg); [|done|lia].
  rewrite (drop_S _ _ _ Hs) in Hg. eapply glob_star_earlier; [|exact Hg]. lia.
Qed.

(** A failed attempt leaves the alternatives. *)
Lemma matches_back pi ti sp st :
  (ti < length txt)%nat → (st ≤ ti)%nat → ¬ glob (drop pi pat) (drop ti txt) →
  matches pi ti (Some (sp, st)) ↔ matches (S sp) (S st) (Some (sp, S st)).
Proof.
  intros Ht Hst Hno. unfold matches, alternatives. split.
  - intros [?|(k & Hk & Hg)]; [done|]. destruct (decide (k = S st)) as [->|]; [by left|].
    right. exists k. split; [lia|done].
  - intros [Hg|(k & Hk & Hg)]; right; [exists (S st)|exists k]; (split; [lia|done]).
Qed.

Lemma matches_end pi ti star :
  loop_inv pi ti star → txt !! ti = None →
  matches pi ti star ↔ Forall (λ c, c = STAR) (drop pi pat).
Proof.
  intros Hinv Ht. apply lookup_ge_None_1 in Ht. unfold matches. rewrite (drop_ge txt ti) by done.
  rewrite glob_empty. split; [|by left]. intros [?|Halt]; [done|].
  destruct star as [[sp st]|]; [|done]. destruct Halt as (k & Hk & Hg). exfalso.
  pose proof Hinv as (_ & Ht' & _ & Hst & _).
  apply (alternative_rest pi ti sp st k) in Hg as (? & [?|?] & _); [lia|lia|done|lia].
Qed.

Lemma glob_loop_spec fuel pi ti star :
  loop_inv pi ti star → (measure pi star < fuel)%nat →
  ∃ b, glob_loop fuel pat txt pi ti star = Some b ∧ (b = true ↔ matches pi ti star).
Proof.
  revert pi ti star; induction fuel as [|fuel IH]; intros pi ti star Hinv Hf; [lia|].
  cbn [glob_loop]. destruct (txt !! ti) as [c|] eqn:Hc; last first.
  { eexists. split; [done|]. rewrite bool_decide_eq_true, matches_end by done.
    apply skip_stars_spec; [lia|apply Hinv]. }
  assert (ti < length txt)%nat as Htl by by eapply lookup_lt_Some.
  assert (¬ glob (drop pi pat) (drop ti txt) → ∃ b,
    match star with
    | None => Some false
    | Some (sp, st) => glob_loop fuel pat txt (S sp) (S st) (Some (sp, S st))
    end = Some b ∧ (b = true ↔ matches pi ti star)) as Hback.
  { intros Hno. destruct star as [[sp st]|]; last first.
    { exists false. split; [done|]. unfold matches. simpl. split; [done|tauto]. }
    pose proof Hinv as (Hp & _ & Hsp & Hst & _).
    destruct (IH (S sp) (S st) (Some (sp, S st))) as (b & Hb & Hbm).
    - split_and!; [lia|lia|lia|lia|lia|]. by rewrite Nat.sub_diag.
    - clear -Hf Hsp Hst Hp Htl. unfold measure in *. nia.
    - exists b. split; [done|]. by rewrite Hbm, (matches_back pi ti). }
  destruct (pat !! pi) as [a|] eqn:Ha; last first.
  { apply Hback. apply lookup_ge_None_1 in Ha. rewrite (drop_ge pat), glob_nil_inv by done.
    rewrite (drop_S _ _ _ Hc). done. }
  assert (pi < length pat)%nat as Hpl by by eapply lookup_lt_Some.
  assert (a ≠ STAR → loop_inv (S pi) (S ti) star) as Hnext.
  { intros Hs. destruct Hinv as (? & ? & Hst). split_and!; [lia|lia|].
    destruct star as [[sp st]|]; [|done]. destruct Hst as (Hsp & Hst & Hd & Hq).
    split_and!; [lia|lia|lia|]. replace (S pi - S sp)%nat with (S (pi - S sp)) by lia.
    rewrite (take_S_r _ _ a); [apply Forall_app; split; [done|by repeat constructor]|].
    rewrite lookup_drop. by replace (S sp + (pi - S sp))%nat with pi by lia. }
  assert (measure (S pi) star < fuel)%nat as Hm by (unfold measure in *; lia).
  destruct (Z.eqb_spec a STAR) as [->|Hs].
  { destruct (IH (S pi) ti (Some (pi, ti))) as (b & Hb & Hbm).
    - split_and!; [lia|lia|lia|lia|lia|]. by rewrite Nat.sub_diag.
    - clear -Hf Hpl Hinv Htl. destruct Hinv as (_ & _ & Hst). unfold measure in *.
      destruct star as [[sp st]|]; nia.
    - exists b. split; [done|]. by rewrite Hbm, <-matches_star. }
  destruct (Z.eqb_spec a QUESTION) as [->|Hq].
  { destruct (IH (S pi) (S ti) star) as (b & Hb & Hbm); [by apply Hnext|done|].
    exists b. split; [done|]. rewrite Hbm. unfold matches.
    rewrite (drop_S pat _ _ Ha), (drop_S txt _ _ Hc), glob_any_inv. naive_solver. }
  destruct (eq_ignore_ascii_case a c) eqn:He.
  - destruct (IH (S pi) (S ti) star) as (b & Hb & Hbm); [by apply Hnext|done|].
    exists b. split; [done|]. rewrite Hbm. unfold matches.
    rewrite (drop_S pat _ _ Ha), (drop_S txt _ _ Hc), glob_char_inv by done. naive_solver.
  - apply Hback. rewrite (drop_S pat _ _ Ha), (drop_S txt _ _ Hc), glob_char_inv by done.
    intros (b & t' & [= <- <-] & He' & _). congruence.
Qed.
End loop.

Lemma glob_match_total p t : ∃ b, glob_match_bytes p t = Some b ∧ (b = true ↔ glob p t).
Proof.
  unfold glob_match_bytes. destruct (glob_loop_spec p t (glob_fuel p t) 0 0 None) as (b & Hb & Hm).
  - split_and!; [lia|lia|done].
  - unfold measure, glob_fuel. lia.
  - exists b. split; [done|]. rewrite Hm. unfold matches. rewrite !drop_0. simpl. tauto.
Qed.

(** ** The database as strings *)

Definition parse_alias_line (line : ustring) : option (ustring * ustring) :=
  rest ← strip_prefix ALIAS_PREFIX (trim line);
  '(pat, m) ← rsplit_once SPACE rest;
  Some (trim pat, trim m).
Definition parse_aliases (txt : ustring) : list (ustring * ustring) :=
  omap parse_alias_line (split_on LF txt).

Definition alias_view (txt : ustring) (a : Alias) : ustring * ustring :=
  (span_slice txt (pattern a), span_slice txt (module a)).

Lemma parse_alias_spec txt pre line post :
  blen txt ≤ uint_max 64 → txt = pre ++ line ++ post →
  alias_view txt <$> parse_alias line (blen pre) = parse_alias_line line.
Proof.
  intros Hfit E. unfold parse_alias, parse_alias_line.
  destruct (trim_spec line) as (a & b & Hl & Ha & _). rewrite (lead_spec line a Ha).
  destruct (strip_prefix ALIAS_PREFIX (trim line)) as [rest|] eqn:Hs; [|done].
  apply strip_prefix_Some in Hs. cbn [mbind option_bind].
  destruct (rsplit_once SPACE rest) as [[pat m]|] eqn:Hr; [|done].
  apply rsplit_once_Some in Hr as [Hr _]. cbn [mbind option_bind fmap option_fmap option_map].
  assert (txt = pre ++ a ++ ALIAS_PREFIX ++ pat ++ [SPACE] ++ m ++ b ++ post) as E1.
  { rewrite E. rewrite Hl at 1. rewrite Hs, Hr. by rewrite <-!app_assoc. }
  pose proof (blen_nonneg pat). pose proof (blen_nonneg m). pose proof (blen_nonneg (b ++ post)).
  pose proof (blen_nonneg ALIAS_PREFIX).
  assert (blen txt = blen pre + blen a + blen ALIAS_PREFIX + blen pat + 1 + blen m + blen (b ++ post))
    as Hlen.
  { rewrite E1, !blen_app. change (blen [SPACE]) with 1. lia. }
  rewrite (sat_add_fit txt Hfit (blen pre)) by lia.
  rewrite (sat_add_fit txt Hfit (blen pre + blen a)) by lia.
  rewrite (sat_add_fit txt Hfit (blen pre + blen a + blen ALIAS_PREFIX)) by lia.
  rewrite (sat_add_fit txt Hfit _ 1) by lia. unfold alias_view. cbn [pattern module]. do 2 f_equal.
  - replace (blen pre + blen a + blen ALIAS_PREFIX) with (blen (pre ++ a ++ ALIAS_PREFIX))
      by (rewrite !blen_app; lia).
    apply (span_at_spec txt Hfit _ pat ([SPACE] ++ m ++ b ++ post)).
    rewrite E1. by rewrite <-!app_assoc.
  - replace (blen pre + blen a + blen ALIAS_PREFIX + blen pat + 1)
      with (blen (pre ++ a ++ ALIAS_PREFIX ++ pat ++ [SPACE]))
      by (rewrite !blen_app; change (blen [SPACE]) with 1; lia).
    apply (span_at_spec txt Hfit _ m (b ++ post)). rewrite E1. by rewrite <-!app_assoc.
Qed.

Lemma alias_view_text txt :
  blen txt ≤ uint_max 64 → alias_view txt <$> parse_text txt = parse_aliases txt.
Proof.
  intros Hfit. unfold parse_text, parse_aliases.
  apply (for_each_line_inv txt Hfit _
    (λ ls es, alias_view txt <$> es = omap parse_alias_line ls)); [|done].
  intros ls line pre post es E Hs. rewrite omap_app. simpl omap at 2.
  pose proof (parse_alias_spec txt pre line post Hfit E) as Hp.
  destruct (parse_alias line (blen pre)) as [a|]; cbn [fmap option_fmap option_map] in Hp;
    rewrite <-Hp; [by rewrite fmap_app, Hs|by rewrite Hs, app_nil_r].
Qed.

Lemma head_omap_Some {A B} (f : A → option B) l b :
  head (omap f l) = Some b ↔ ∃ l1 a l2, l = l1 ++ a :: l2 ∧ f a = Some b ∧ Forall (λ x, f x = None) l1.
Proof.
  induction l as [|x l IH]; simpl.
  { split; [done|]. intros (l1 & a & l2 & E & _). by destruct l1. }
  destruct (f x) as [y|] eqn:Hx; simpl.
  - split.
    + intros [= ->]. by exists [], x, l.
    + intros (l1 & a & l2 & E & Ha & Hl1). destruct l1 as [|z l1]; injection E as -> ->; [congruence|].
      apply Forall_cons in Hl1 as [? _]. congruence.
  - rewrite IH. split.
    + intros (l1 & a & l2 & -> & Ha & Hl1). exists (x :: l1), a, l2. split_and!; [done..|by constructor].
    + intros (l1 & a & l2 & E & Ha & Hl1). destruct l1 as [|z l1]; injection E as -> ->; [congruence|].
      apply Forall_cons in Hl1 as [_ Hl1]. by exists l1, a, l2.
Qed.

(** ** Theorems *)

(** C36: The matcher, which backtracks only to the last star, always ends and
    decides the glob relation: a star stands for any bytes, a question mark for
    one, other bytes for themselves up to ASCII case. *)
Theorem glob_match_correct p t :
  is_Some (glob_match_bytes p t) ∧ (glob_match_bytes p t = Some true ↔ glob p t).
Proof.
  destruct (glob_match_total p t) as (b & Hb & Hm). rewrite Hb. split; [eauto|].
  rewrite <-Hm. destruct b; naive_solver.
Qed.

(** A device's alias is looked up in the order of the file: the module of the
    first line whose pattern matches, and none exactly when no pattern does. *)
Theorem find_module_first txt modalias :
  blen txt ≤ uint_max 64 →
  let db := {| atext := txt; entries := parse_text txt |} in
  let hit (l : ustring * ustring) := glob (utf8 l.1) (utf8 modalias) in
  (∀ m, find_module db modalias = Some m ↔
     ∃ l1 pat l2, parse_aliases txt = l1 ++ (pat, m) :: l2 ∧ hit (pat, m) ∧ Forall (λ l, ¬ hit l) l1) ∧
  (find_module db modalias = None ↔ Forall (λ l, ¬ hit l) (parse_aliases txt)).
Proof.
  intros Hfit db hit.
  set (f := λ l : ustring * ustring,
    if default false (glob_match_bytes (utf8 l.1) (utf8 modalias)) then Some l.2 else None).
  assert (∀ l, f l = None ↔ ¬ hit l) as Hnone.
  { intros l. subst f hit. simpl. destruct (glob_match_total (utf8 l.1) (utf8 modalias)) as (b & -> & <-).
    by destruct b. }
  assert (∀ l m, f l = Some m ↔ hit l ∧ l.2 = m) as Hsome.
  { intros l m. subst f hit. simpl. destruct (glob_match_total (utf8 l.1) (utf8 modalias)) as (b & -> & <-).
    destruct b; simpl; naive_solver. }
  assert (find_module db modalias = head (omap f (parse_aliases txt))) as ->.
  { rewrite <-alias_view_text by done. unfold find_module, db. cbn [atext entries]. f_equal.
    generalize (parse_text txt) as l. induction l as [|a l IH]; [done|]. rewrite fmap_cons.
    cbn [omap list_omap]. unfold f at 1. cbn [alias_view fst snd].
    by destruct (default false _); [f_equal|]. }
  split.
  - intros m. rewrite head_omap_Some. split.
    + intros (l1 & [pat m'] & l2 & E & [Hh Hm]%Hsome & Hl1). simpl in Hm. subst m'.
      exists l1, pat, l2. split_and!; [done..|]. eapply Forall_impl; [exact Hl1|]. intros l. apply Hnone.
    + intros (l1 & pat & l2 & E & Hh & Hl1). exists l1, (pat, m), l2.
      split_and!; [done|by apply Hsome|]. eapply Forall_impl; [exact Hl1|]. intros l. apply Hnone.
  - generalize (parse_aliases txt) as ls. induction ls as [|l ls IH]; [by split|]. simpl.
    rewrite Forall_cons, <-Hnone. destruct (f l); [split; [done|naive_solver]|]. rewrite IH. naive_solver.
Qed.

Definition demo_alias : ustring := ustr "# Aliases
alias pci:v00008086d*sv* igc
alias pci:* generic
alias usb:v046Dp????d* usbhid
".

Lemma find_module_first_witness :
  find_module {| atext := demo_alias; entries := parse_text demo_alias |}
    (ustr "PCI:v00008086d0000ABCDsv01") = Some (ustr "igc") ∧
  find_module {| atext := demo_alias; entries := parse_text demo_alias |} (ustr "acpi:X") = None.
Proof.
  split; [by vm_compute|].
  assert (blen demo_alias ≤ uint_max 64) as Hfit by (vm_compute; discriminate).
  destruct (find_module_first demo_alias (ustr "acpi:X") Hfit) as [_ Hn]. apply Hn. clear Hn.
  apply Forall_forall. intros l Hl Hg.
  assert (parse_aliases demo_alias = [(ustr "pci:v00008086d*sv*", ustr "igc");
    (ustr "pci:*", ustr "generic"); (ustr "usb:v046Dp????d*", ustr "usbhid")]) as E by by vm_compute.
  rewrite E in Hl. clear E.
  destruct (glob_match_total (utf8 l.1) (utf8 (ustr "acpi:X"))) as (b & Hb & Hm).
  apply Hm in Hg. subst b.
  repeat (apply elem_of_cons in Hl as [->|Hl]; [by vm_compute in Hb|]). by apply not_elem_of_nil in Hl.
Defined.
