(* ===== verification/KmodLoad.v ===== *)
(** Loading kernel modules (libs/kmod/src/kernel.rs, sysfs.rs) and the daemon
    that does so for every device (services/modd/src/modules.rs, uevent.rs and
    main.rs).

    The kernel and the file system are the class [ModKernel]. The invariant of
    the daemon holds for every sequence of events and every failure: a module
    is initialized at most once, and only behind all its dependencies. *)

From stdpp Require Import relations.
From S2P Require Import Prelude Io Utf Text Str Order KmodDeps KmodOrder KmodGlob.

(** ** Loading one module (kernel.rs) *)

Inductive LoadError :=
| NotFound (path : ustring)
| LoadIo (e : io_error)
| Decompress (msg : ustring)
| Syscall (errno : Z)
| InvalidPath (path : ustring).

Definition EXIST : Z := 17.

(** The files of the module directory, the two system calls and the
    decompressor; [K] is the state of the kernel. *)
Class ModKernel (K : Type) := {
  path_exists : K → ustring → bool;
  open_file : K → ustring → res io_error (list Z);
  zstd_decode_all : list Z → res ustring (list Z);
  sys_init_module : K → list Z → res Z unit * K;
  sys_finit_module : K → list Z → res Z unit * K;
}.

Record ModuleLoader := { mod_dir : ustring; loaded : gset ustring }.

Definition new_loader (dir : ustring) : ModuleLoader := {| mod_dir := dir; loaded := ∅ |}.

(** [Path::join]. *)
Definition path_join (dir rel : ustring) : ustring :=
  match rel with
  | c :: _ => if c =? SLASH then rel
              else if bool_decide (last dir = Some SLASH) then dir ++ rel else dir ++ SLASH :: rel
  | [] => if bool_decide (last dir = Some SLASH) then dir else dir ++ [SLASH]
  end.

Definition DOT : Z := 46.
(** [Path::extension] of a path that ends in a file name. *)
Definition path_extension (path : ustring) : option ustring :=
  match rsplit_once DOT (last_segment SLASH path) with
  | Some ([], _) => None
  | Some (_, ext) => Some ext
  | None => None
  end.

Section load.
Context {K : Type} `{ModKernel K}.

Definition map_init_module_result (r : res Z unit) : res LoadError unit :=
  match r with
  | Ok _ => Ok tt
  | Err e => if e =? EXIST then Ok tt else Err (Syscall e)
  | Panic => Panic
  end.

Definition init_module_image (k : K) (path : ustring) : res LoadError unit * K :=
  match open_file k path with
  | Err e => (Err (LoadIo e), k)
  | Panic => (Panic, k)
  | Ok file =>
      if bool_decide (path_extension path = Some (ustr "zst")) then
        match zstd_decode_all file with
        | Err msg => (Err (Decompress (ustr "zstd: " ++ msg)), k)
        | Panic => (Panic, k)
        | Ok image =>
            let '(r, k) := sys_init_module k image in (map_init_module_result r, k)
        end
      else let '(r, k) := sys_finit_module k file in (map_init_module_result r, k)
  end.

Definition init_fn := K → ustring → res LoadError unit * K.

Definition load_by_path_with (loader : ModuleLoader) (k : K) (relative_path : ustring)
    (init : init_fn) : res LoadError bool * ModuleLoader * K :=
  match get_module_name relative_path with
  | None => (Err (InvalidPath relative_path), loader, k)
  | Some module_name =>
      if bool_decide (module_name ∈ loaded loader) then (Ok false, loader, k)
      else
        let full_path := path_join (mod_dir loader) relative_path in
        if path_exists k full_path then
          let '(r, k) := init k full_path in
          match r with
          | Ok _ => (Ok true, {| mod_dir := mod_dir loader;
                                 loaded := {[module_name]} ∪ loaded loader |}, k)
          | Err e => (Err e, loader, k)
          | Panic => (Panic, loader, k)
          end
        else (Err (NotFound full_path), loader, k)
  end.

(** The loop of [load_module_with]; [count] is what was loaded so far. *)
Fixpoint load_all (loader : ModuleLoader) (k : K) (order : list ustring) (init : init_fn)
    (count : Z) : res LoadError Z * ModuleLoader * K :=
  match order with
  | [] => (Ok count, loader, k)
  | path :: order =>
      match load_by_path_with loader k path init with
      | (Ok new, loader, k) =>
          load_all loader k order init (if new then saturating_add 64 count 1 else count)
      | (Err e, loader, k) => (Err e, loader, k)
      | (Panic, loader, k) => (Panic, loader, k)
      end
  end.

(** The load order is always found ([resolve_total]), so that no outcome is
    lost to fuel. *)
Definition load_module_with (module_name : ustring) (dep_db : DepDb) (loader : ModuleLoader) (k : K)
    (init : init_fn) : res LoadError Z * ModuleLoader * K :=
  match resolve_load_order dep_db module_name with
  | None => (Panic, loader, k)
  | Some None => (Err (NotFound module_name), loader, k)
  | Some (Some order) => load_all loader k order init 0
  end.

Definition load_by_path (loader : ModuleLoader) (k : K) (relative_path : ustring) :=
  load_by_path_with loader k relative_path init_module_image.
Definition load_module (module_name : ustring) (dep_db : DepDb) (loader : ModuleLoader) (k : K) :=
  load_module_with module_name dep_db loader k init_module_image.
End load.

(** ** Devices already present (sysfs.rs)

    What the file system answered: the bus directory if it exists, its entries,
    for each the devices directory if it exists, and for each device the text
    of its alias file. *)

Definition device := res io_error ustring.
Definition devices_dir := res io_error (list (res io_error device)).
Definition bus := option devices_dir.

Definition oks {A} (l : list (res io_error A)) : list A := omap ok l.

Definition read_modalias (d : device) : option ustring :=
  contents ← ok d;
  match trim contents with [] => None | modalias => Some modalias end.

(** The aliases in the order the callback sees them. *)
Definition for_each_modalias_in (sys_bus : option (res io_error (list (res io_error bus))))
    : res io_error (list ustring) :=
  match sys_bus with
  | None => Ok []
  | Some dir =>
      buses ← dir;
      let devices_dirs := omap id (oks buses) in
      Ok (devices_dirs ≫= λ d, match d with Ok ents => omap read_modalias (oks ents) | _ => [] end)
  end.

(** ** The daemon (modules.rs, uevent.rs, main.rs) *)

Record Loader (K : Type) := {
  alias_db : AliasDb; dep_db : DepDb; kernel : ModuleLoader; os : K
}.
Arguments alias_db {K}.
Arguments dep_db {K}.
Arguments kernel {K}.
Arguments os {K}.

Inductive UeventAction := Add | Remove | Other (act : ustring).
Record Uevent := { action : UeventAction; modalias : option ustring; subsystem : option ustring }.

Definition NUL : Z := 0.
Definition AT : Z := 64.
Definition EQUALS : Z := 61.

Definition parse_action (act : ustring) : UeventAction :=
  if bool_decide (act = ustr "add") then Add
  else if bool_decide (act = ustr "remove") then Remove else Other act.

Definition scan_keys (parts : list ustring) : option ustring * option ustring :=
  foldl (λ acc text,
    match split_once EQUALS text with
    | None => acc
    | Some (key, value) =>
        if bool_decide (key = ustr "MODALIAS") then (Some value, acc.2)
        else if bool_decide (key = ustr "SUBSYSTEM") then (acc.1, Some value)
        else acc
    end) (None, None) parts.

(** The NUL-separated parts that are text and not empty. *)
Definition uevent_parts (data : list Z) : list ustring :=
  omap (λ part, text ← from_utf8 part; match text with [] => None | _ => Some text end)
    (split_on NUL data).

Definition parse_uevent (data : list Z) : Uevent :=
  match uevent_parts data with
  | [] => {| action := Other []; modalias := None; subsystem := None |}
  | header :: parts =>
      let action := match split_once AT header with
                    | Some (act, _) => parse_action act
                    | None => Other header
                    end in
      match action with
      | Add => let '(m, s) := scan_keys parts in
               {| action := Add; modalias := m; subsystem := s |}
      | _ => {| action := action; modalias := None; subsystem := None |}
      end
  end.

Section daemon.
Context {K : Type} `{ModKernel K}.

Definition new_daemon (dir : ustring) (alias_file dep_file : res io_error ustring) (k : K)
    : res io_error (Loader K) :=
  a ← load_aliases alias_file;
  d ← load dep_file;
  Ok {| alias_db := a; dep_db := d; kernel := new_loader dir; os := k |}.

Definition load_alias (l : Loader K) (modalias : ustring) : Z * Loader K :=
  match find_module (alias_db l) modalias with
  | None => (0, l)
  | Some module_name =>
      let '(r, ld, k) := load_module module_name (dep_db l) (kernel l) (os l) in
      (match r with Ok count => count | _ => 0 end,
       {| alias_db := alias_db l; dep_db := dep_db l; kernel := ld; os := k |})
  end.

Definition load_unseen (l : Loader K) (modalias : ustring) (seen : gset ustring)
    : Z * Loader K * gset ustring :=
  if bool_decide (modalias ∈ seen) then (0, l, seen)
  else let '(n, l) := load_alias l modalias in (n, l, {[modalias]} ∪ seen).

Definition sweep (l : Loader K) (sys_bus : option (res io_error (list (res io_error bus))))
    : Z * Loader K :=
  match for_each_modalias_in sys_bus with
  | Ok aliases =>
      let '(n, l, _) := foldl (λ '(n, l, seen) modalias,
        let '(k, l, seen) := load_unseen l modalias seen in (saturating_add 64 n k, l, seen))
        (0, l, ∅) aliases in (n, l)
  | _ => (0, l)
  end.

(** One round of the main loop, for a received datagram. *)
Definition on_uevent (l : Loader K) (data : list Z) : Loader K :=
  let event := parse_uevent data in
  match action event, modalias event with
  | Add, Some modalias => (load_alias l modalias).2
  | _, _ => l
  end.

(** The daemon after its sweep and the datagrams received before the socket
    failed. *)
Definition daemon (l : Loader K) (sys_bus : option (res io_error (list (res io_error bus))))
    (datagrams : list (list Z)) : Loader K :=
  foldl on_uevent (sweep l sys_bus).2 datagrams.
End daemon.

(** ** Lemmas *)

Lemma get_module_name_join dir rel : get_module_name (path_join dir rel) = get_module_name rel.
Proof.
  unfold get_module_name. do 2 f_equal.
  assert (last dir = Some SLASH → ∃ d, dir = d ++ [SLASH]) as Hd.
  { intros (d & ->)%last_Some. eauto. }
  unfold path_join. destruct rel as [|c rel].
  - case_bool_decide as E; [|apply last_segment_app].
    destruct (Hd E) as [d ->]. apply last_segment_app.
  - destruct (c =? SLASH); [done|]. case_bool_decide as E; [|apply last_segment_app].
    destruct (Hd E) as [d ->]. rewrite <-app_assoc. apply last_segment_app.
Qed.

(** Resolving never runs out of fuel. *)
Lemma resolve_total db nm : resolve_load_order db nm ≠ None.
Proof.
  destruct (find db nm) as [i|] eqn:Hi.
  - by destruct (resolve_spec db nm i Hi) as (order & -> & _).
  - unfold resolve_load_order. by rewrite Hi.
Qed.

(** A kernel that records the module files it accepted. *)
Class TracedKernel (K : Type) `{ModKernel K} := {
  trace : K → list ustring;
  trace_ok k p u k' : init_module_image k p = (Ok u, k') → trace k' = trace k ++ [p];
  trace_fail k p r k' : init_module_image k p = (r, k') → (∀ u, r ≠ Ok u) → trace k' = trace k;
}.

Section invariant.
Context {K : Type} `{TracedKernel K}.

(** The names a loader has loaded are those the kernel accepted, each once, and
    each file the kernel accepted is that of an indexed module whose
    dependencies were accepted before. *)
Record load_inv (db : DepDb) (dir : ustring) (ld : ModuleLoader) (k : K) : Prop := {
  inv_dir : mod_dir ld = dir;
  inv_loaded nm : nm ∈ loaded ld ↔ Some nm ∈ get_module_name <$> trace k;
  inv_nodup : NoDup (get_module_name <$> trace k);
  inv_deps l1 p l2 : trace k = l1 ++ p :: l2 → ∃ i, p = path_join dir (path_of db i) ∧
    ∀ j, depends db i j → get_module_name (path_of db j) ∈ get_module_name <$> l1;
}.

Lemma load_by_path_inv db dir ld k i r ld' k' :
  load_inv db dir ld k →
  (∀ j, depends db i j → ∃ n, get_module_name (path_of db j) = Some n ∧ n ∈ loaded ld) →
  load_by_path ld k (path_of db i) = (r, ld', k') →
  load_inv db dir ld' k' ∧ (∀ n, n ∈ loaded ld → n ∈ loaded ld') ∧
  (∀ b, r = Ok b → ∃ n, get_module_name (path_of db i) = Some n ∧ n ∈ loaded ld').
Proof.
  intros Hinv Hdeps. unfold load_by_path, load_by_path_with.
  destruct (get_module_name (path_of db i)) as [n|] eqn:Hn; [|by intros [= <- <- <-]].
  case_bool_decide as Hin; [intros [= <- <- <-]; naive_solver|].
  destruct (path_exists k _); [|by intros [= <- <- <-]].
  destruct (init_module_image k (path_join (mod_dir ld) (path_of db i))) as [r0 k0] eqn:Hi.
  pose proof (inv_dir _ _ _ _ Hinv) as Hdir.
  destruct r0 as [u|e|].
  - intros [= <- <- <-]. apply trace_ok in Hi. rewrite Hdir in Hi.
    assert (get_module_name <$> trace k0 = (get_module_name <$> trace k) ++ [Some n]) as Hnames.
    { rewrite Hi, fmap_app. simpl. by rewrite get_module_name_join, Hn. }
    split_and!; [constructor| |].
    + done.
    + intros m. cbn [loaded]. rewrite Hnames, elem_of_union, elem_of_singleton, elem_of_app,
        list_elem_of_singleton, (inv_loaded _ _ _ _ Hinv). naive_solver.
    + rewrite Hnames. apply NoDup_app. split_and!; [apply Hinv| |apply NoDup_singleton].
      intros x Hx ->%list_elem_of_singleton. apply Hin. by apply (inv_loaded _ _ _ _ Hinv).
    + intros l1 p l2 E. rewrite Hi in E. destruct l2 as [|q l2 _] using rev_ind.
      * apply app_inj_tail in E as [<- <-]. exists i. split; [done|]. intros j Hj.
        destruct (Hdeps j Hj) as (m & -> & Hm). by apply (inv_loaded _ _ _ _ Hinv).
      * rewrite app_comm_cons, app_assoc in E. apply app_inj_tail in E as [E _].
        by eapply (inv_deps _ _ _ _ Hinv).
    + cbn [loaded]. set_solver.
    + intros b _. exists n. cbn [loaded]. split; [done|set_solver].
  - intros [= <- <- <-]. apply trace_fail in Hi; [|done].
    split_and!; [|done|done]. destruct Hinv. by constructor; rewrite ?Hi.
  - intros [= <- <- <-]. apply trace_fail in Hi; [|done].
    split_and!; [|done|done]. destruct Hinv. by constructor; rewrite ?Hi.
Qed.

(** The rest [todo] of a load order, behind its loaded beginning. *)
Lemma load_all_inv db dir ld k seen todo count r ld' k' :
  load_inv db dir ld k →
  (∀ l1 x l2 y, seen ++ todo = l1 ++ x :: l2 → depends db x y → y ∈ l1) →
  (∀ j, j ∈ seen → ∃ n, get_module_name (path_of db j) = Some n ∧ n ∈ loaded ld) →
  load_all ld k (path_of db <$> todo) init_module_image count = (r, ld', k') →
  load_inv db dir ld' k' ∧ (∀ n, n ∈ loaded ld → n ∈ loaded ld') ∧
  (∀ c, r = Ok c → ∀ j, j ∈ todo → ∃ n, get_module_name (path_of db j) = Some n ∧ n ∈ loaded ld').
Proof.
  revert ld k seen count; induction todo as [|i todo IH]; intros ld k seen count Hinv Hord Hseen.
  { intros [= <- <- <-]. split_and!; [done..|]. by intros c _ j ?%not_elem_of_nil. }
  rewrite fmap_cons. cbn [load_all].
  destruct (load_by_path_with ld k (path_of db i) init_module_image) as [[r1 ld1] k1] eqn:E1.
  destruct (load_by_path_inv db dir ld k i r1 ld1 k1) as (Hinv1 & Hmono & Hi); [done| |exact E1|].
  { intros j Hj. apply Hseen. by eapply (Hord seen i todo). }
  destruct r1 as [b|e|]; [|intros [= <- <- <-]; done..].
  intros E. apply (IH ld1 k1 (seen ++ [i])) in E as (Hinv2 & Hmono2 & Hall).
  - split_and!; [done|auto|]. intros c Hc j [->|Hj]%elem_of_cons; [|by eapply Hall].
    destruct (Hi b eq_refl) as (n & Hn & Hl). eauto.
  - done.
  - intros l1 x l2 y Ex. apply (Hord l1 x l2 y). by rewrite <-app_assoc in Ex.
  - intros j [Hj| ->%list_elem_of_singleton]%elem_of_app; [|by eapply Hi].
    destruct (Hseen j Hj) as (n & Hn & Hl). eauto.
Qed.

Definition acyclic (db : DepDb) : Prop := ∀ x, ¬ tc (depends db) x x.

Lemma load_module_inv db dir ld k nm r ld' k' :
  acyclic db → load_inv db dir ld k → load_module nm db ld k = (r, ld', k') →
  load_inv db dir ld' k' ∧ (∀ n, n ∈ loaded ld → n ∈ loaded ld') ∧
  (∀ c, r = Ok c → ∃ i, find db nm = Some i ∧ ∀ j, rtc (depends db) i j →
     ∃ n, get_module_name (path_of db j) = Some n ∧ n ∈ loaded ld').
Proof.
  intros Hac Hinv. unfold load_module, load_module_with.
  destruct (find db nm) as [i|] eqn:Hi.
  - destruct (resolve_spec db nm i Hi) as (order & -> & Ho). intros E.
    destruct (load_all_inv db dir ld k [] order 0 r ld' k') as (Hinv' & Hmono & Hall);
      [done|by eapply load_order_acyclic|by intros j ?%not_elem_of_nil|done|].
    split_and!; [done..|]. intros c Hc. exists i. split; [done|]. intros j Hj.
    apply (Hall c Hc). by apply (lo_reach _ _ _ Ho).
  - unfold resolve_load_order. rewrite Hi. by intros [= <- <- <-].
Qed.

(** The invariant of the daemon: its databases stay as loaded. *)
Definition daemon_inv (dir : ustring) (adb : AliasDb) (db : DepDb) (l : Loader K) : Prop :=
  alias_db l = adb ∧ dep_db l = db ∧ load_inv db dir (kernel l) (os l).

Lemma load_alias_inv dir adb db l m n l' :
  acyclic db → daemon_inv dir adb db l → load_alias l m = (n, l') →
  daemon_inv dir adb db l' ∧ (∀ x, x ∈ loaded (kernel l) → x ∈ loaded (kernel l')).
Proof.
  intros Hac (Ha & Hd & Hinv). unfold load_alias.
  destruct (find_module (alias_db l) m) as [nm|]; [|by intros [= <- <-]].
  destruct (load_module nm (dep_db l) (kernel l) (os l)) as [[r ld] k] eqn:E.
  intros [= <- <-]. rewrite Hd in E. apply (load_module_inv db dir) in E as (Hinv' & Hmono & _); [|done..].
  split; [|done]. split_and!; done.
Qed.

Lemma sweep_inv dir adb db l sys_bus :
  acyclic db → daemon_inv dir adb db l → daemon_inv dir adb db (sweep l sys_bus).2.
Proof.
  intros Hac Hinv. unfold sweep. destruct (for_each_modalias_in sys_bus) as [aliases| |]; [|done..].
  cut (∀ (n : Z) l (seen : gset ustring), daemon_inv dir adb db l → daemon_inv dir adb db
    ((foldl (λ '(n, l, seen) modalias, let '(k, l, seen) := load_unseen l modalias seen in
       (saturating_add 64 n k, l, seen)) (n, l, seen) aliases).1).2).
  { intros Hcut. specialize (Hcut 0 l ∅ Hinv). by destruct (foldl _ _ _) as [[n l'] seen']. }
  clear l Hinv. induction aliases as [|m aliases IH]; intros n l seen Hinv; [done|]. cbn [foldl].
  unfold load_unseen at 2. case_bool_decide; [by apply IH|].
  destruct (load_alias l m) as [c l'] eqn:E. apply IH. by eapply load_alias_inv.
Qed.

Lemma on_uevent_inv dir adb db l data :
  acyclic db → daemon_inv dir adb db l → daemon_inv dir adb db (on_uevent l data).
Proof.
  intros Hac Hinv. unfold on_uevent. destruct (action (parse_uevent data)); [|done..].
  destruct (modalias (parse_uevent data)) as [m|]; [|done].
  destruct (load_alias l m) as [c l'] eqn:E. by eapply load_alias_inv.
Qed.
End invariant.

(** ** Messages of the kernel *)

(** The wire form of an event: header and assignments, each followed by NUL. *)
Definition uevent_bytes (act dev : ustring) (vars : list (ustring * ustring)) : list Z :=
  join NUL (utf8 <$> (act ++ AT :: dev) :: ((λ kv, kv.1 ++ EQUALS :: kv.2) <$> vars)) ++ [NUL].

Definition last_value (k : ustring) (vars : list (ustring * ustring)) : option ustring :=
  last (omap (λ kv, if bool_decide (kv.1 = k) then Some kv.2 else None) vars).

Definition plain_text (s : ustring) : Prop := is_ustring s ∧ NUL ∉ s.

Lemma encode_utf8_no_nul c : is_char c → c ≠ 0 → NUL ∉ encode_utf8 c.
Proof.
  unfold encode_utf8, is_char, NUL. intros Hc Hn.
  pose proof (Z.mod_pos_bound c 0x40 ltac:(lia)).
  pose proof (Z.mod_pos_bound (c / 0x40) 0x40 ltac:(lia)).
  pose proof (Z.mod_pos_bound (c / 0x1000) 0x40 ltac:(lia)).
  pose proof (Z.div_pos c 0x40 ltac:(lia) ltac:(lia)).
  pose proof (Z.div_pos c 0x1000 ltac:(lia) ltac:(lia)).
  pose proof (Z.div_pos c 0x40000 ltac:(lia) ltac:(lia)).
  repeat case_match; rewrite !not_elem_of_cons; split_and!; try apply not_elem_of_nil; lia.
Qed.

Lemma utf8_no_nul s : plain_text s → NUL ∉ utf8 s.
Proof.
  intros [Hs Hn]. induction s as [|c s IH]; [apply not_elem_of_nil|].
  apply Forall_cons in Hs as [Hc Hs]. apply not_elem_of_cons in Hn as [Hn0 Hn].
  change (utf8 (c :: s)) with (encode_utf8 c ++ utf8 s). rewrite not_elem_of_app.
  split; [by apply encode_utf8_no_nul|by apply IH].
Qed.

Lemma split_on_join c l : l ≠ [] → Forall (λ s, c ∉ s) l → split_on c (join c l) = l.
Proof.
  induction l as [|s l IH]; [done|]. intros _ [Hs Hl]%Forall_cons.
  destruct (decide (l = [])) as [->|Hne]; [by apply split_on_none|].
  rewrite join_cons by done. rewrite split_on_app, IH, split_on_none by done. done.
Qed.

Lemma scan_keys_values vars :
  Forall (λ kv : ustring * ustring, EQUALS ∉ kv.1) vars →
  scan_keys ((λ kv, kv.1 ++ EQUALS :: kv.2) <$> vars)
  = (last_value (ustr "MODALIAS") vars, last_value (ustr "SUBSYSTEM") vars).
Proof.
  induction vars as [|[k v] vars IH] using rev_ind; [done|].
  intros [Hvars [Hk _]%Forall_cons]%Forall_app. specialize (IH Hvars). unfold scan_keys in *.
  rewrite fmap_app, foldl_app, IH. cbn [fmap list_fmap foldl fst snd].
  rewrite (proj2 (split_once_Some EQUALS _ k v)) by done.
  unfold last_value. rewrite !omap_app. cbn [omap list_omap fst snd].
  case_bool_decide as H1; case_bool_decide as H2; rewrite ?last_snoc, ?app_nil_r; try done.
  subst. done.
Qed.

(** An event message of the kernel is read back: the values of the last
    assignments to the alias and the subsystem for an added device, and only the
    action for other events. *)
Theorem uevent_roundtrip act dev vars :
  plain_text (act ++ AT :: dev) → AT ∉ act →
  Forall (λ kv, plain_text (kv.1 ++ EQUALS :: kv.2) ∧ EQUALS ∉ kv.1) vars →
  parse_uevent (uevent_bytes act dev vars) =
  match parse_action act with
  | Add => {| action := Add; modalias := last_value (ustr "MODALIAS") vars;
              subsystem := last_value (ustr "SUBSYSTEM") vars |}
  | other => {| action := other; modalias := None; subsystem := None |}
  end.
Proof.
  intros Hh Hat Hvars.
  set (texts := (act ++ AT :: dev) :: ((λ kv : ustring * ustring, kv.1 ++ EQUALS :: kv.2) <$> vars)).
  assert (Forall (λ s, plain_text s ∧ s ≠ []) texts) as Ht.
  { constructor; [split; [done|by destruct act]|]. apply Forall_fmap.
    eapply Forall_impl; [exact Hvars|]. intros [k v] [Hp _]. split; [done|by destruct k]. }
  assert (uevent_parts (uevent_bytes act dev vars) = texts) as Hparts.
  { unfold uevent_parts, uevent_bytes. fold texts. rewrite split_on_app, split_on_join.
    - rewrite omap_app. cbn [omap list_omap split_on split_from]. simpl from_utf8.
      cbn [mbind option_bind]. rewrite app_nil_r.
      clear -Ht. induction Ht as [|s l [[Hs _] Hne] _ IH]; [done|]. rewrite fmap_cons.
      cbn [omap list_omap]. rewrite from_utf8_utf8 by done. cbn [mbind option_bind].
      rewrite IH. by destruct s.
    - done.
    - apply Forall_fmap. eapply Forall_impl; [exact Ht|]. intros s [Hs _]. by apply utf8_no_nul. }
  unfold parse_uevent. rewrite Hparts. unfold texts.
  rewrite (proj2 (split_once_Some AT _ act dev)) by done.
  rewrite scan_keys_values; [by destruct (parse_action act)|]. eapply Forall_impl; [exact Hvars|]. by intros kv [_ ?].
Qed.

Lemma ascii_plain s : forallb (λ c, (0 <? c) && (c <? 128)) s = true → plain_text s.
Proof.
  rewrite forallb_forall. setoid_rewrite andb_true_iff. intros Hs. split.
  - apply Forall_forall. intros c Hc%list_elem_of_In. apply Hs in Hc. unfold is_char. lia.
  - intros Hn%list_elem_of_In. apply Hs in Hn as [? _]. done.
Qed.

Lemma uevent_roundtrip_witness :
  parse_uevent (uevent_bytes (ustr "add") (ustr "/devices/pci0") [(ustr "SUBSYSTEM", ustr "pci");
    (ustr "MODALIAS", ustr "pci:v8086=1")])
  = {| action := Add; modalias := Some (ustr "pci:v8086=1"); subsystem := Some (ustr "pci") |}.
Proof.
  rewrite uevent_roundtrip.
  - by vm_compute.
  - by apply ascii_plain.
  - apply (bool_decide_unpack _). by vm_compute.
  - apply Forall_cons; split; [split; [by apply ascii_plain|]|apply Forall_singleton; split; [by apply ascii_plain|]];
      (apply (bool_decide_unpack _); by vm_compute).
Defined.

(** ** The daemon *)

(** C9: With a [modules.dep] without cycles, whatever devices were present, whatever events arrive and whichever modules
    fail, the daemon has initialized every module at most once, keeps exactly
    the initialized ones as loaded, and initialized each one only after all the
    modules it depends on. *)
Theorem modules_loaded_in_order {K : Type} `{TracedKernel K} dir alias_txt dep_txt (k : K) l sys_bus
    datagrams :
  new_daemon dir (Ok alias_txt) (Ok dep_txt) k = Ok l → trace k = [] → acyclic (index dep_txt) →
  let db := index dep_txt in
  let l' := daemon l sys_bus datagrams in
  NoDup (get_module_name <$> trace (os l')) ∧
  (∀ nm, nm ∈ loaded (kernel l') ↔ Some nm ∈ get_module_name <$> trace (os l')) ∧
  (∀ l1 p l2, trace (os l') = l1 ++ p :: l2 → ∃ i, p = path_join dir (path_of db i) ∧
     ∀ j, depends db i j → get_module_name (path_of db j) ∈ get_module_name <$> l1).
Proof.
  intros Hnew Hk Hac db l'. injection Hnew as Hl.
  assert (daemon_inv dir (alias_db l) db l) as Hinv.
  { rewrite <-Hl. split_and!; [done..|]. constructor; cbn [os kernel]; rewrite ?Hk.
    - done.
    - intros nm. split; [by intros ?%not_elem_of_empty|by intros ?%not_elem_of_nil].
    - constructor.
    - intros l1 p l2 E. by destruct l1. }
  assert (daemon_inv dir (alias_db l) db l') as (_ & _ & Hinv').
  { unfold l', daemon. apply (sweep_inv dir _ db l sys_bus Hac) in Hinv. revert Hinv.
    generalize (sweep l sys_bus).2 as l0. generalize (alias_db l) as adb.
    induction datagrams as [|d ds IH]; intros adb l0 Hl0; [done|]. cbn [foldl].
    apply IH. by apply on_uevent_inv. }
  split_and!; apply Hinv'.
Qed.

(** A kernel in which every file exists and every module is accepted. *)
Class HealthyKernel (K : Type) `{ModKernel K} : Prop := {
  healthy_exists k p : path_exists k p = true;
  healthy_init k p : ∃ u k', init_module_image k p = (Ok u, k');
}.

Lemma parse_line_stem line ml : parse_line line = Some ml → module_stem (l_path ml) = Some (l_name ml).
Proof.
  unfold parse_line. destruct (split_once COLON (trim line)) as [[raw deps]|]; [|done].
  cbn [mbind option_bind]. destruct (module_stem (trim raw)) as [n|] eqn:E; [|done].
  cbn [mbind option_bind]. intros [= <-]. done.
Qed.

Lemma path_of_named txt i :
  blen txt ≤ uint_max 64 → (i < len (index txt))%nat →
  is_Some (get_module_name (path_of (index txt) i)).
Proof.
  intros Hfit Hi. pose proof (view_index txt Hfit) as Hview.
  assert (i < length (view (index txt)))%nat as Hlt by (unfold view; by rewrite length_fmap).
  destruct (lookup_lt_is_Some_2 _ _ Hlt) as [ml Hml]. rewrite (path_of_view _ _ _ Hml).
  assert (ml ∈ omap parse_line (split_on LF txt)) as Hin.
  { rewrite <-(stable_sort_perm line_leb). fold (parse_deps txt). rewrite <-Hview.
    by eapply list_elem_of_lookup_2. }
  apply list_elem_of_omap in Hin as (line & _ & Hp%parse_line_stem).
  unfold get_module_name. fold (module_stem (l_path ml)). rewrite Hp. cbn [mbind option_bind]. eauto.
Qed.

Section healthy.
Context {K : Type} `{ModKernel K} `{!HealthyKernel K}.

Lemma load_all_healthy ld (k : K) order count :
  Forall (λ p, is_Some (get_module_name p)) order → 0 ≤ count → count + zlen order ≤ uint_max 64 →
  ∃ n ld' k', load_all ld k order init_module_image count = (Ok n, ld', k') ∧ count ≤ n ∧
    (∀ p nm, p ∈ order → get_module_name p = Some nm → nm ∈ loaded ld') ∧
    (∀ nm, nm ∈ loaded ld → nm ∈ loaded ld').
Proof.
  intros Ho. revert ld k count; induction Ho as [|p order [nm Hnm] _ IH]; intros ld k count Hc Hb.
  { exists count, ld, k. split_and!; [done|lia|by intros p nm ?%not_elem_of_nil|done]. }
  assert (zlen (p :: order) = 1 + zlen order) as Hlen by (unfold zlen; simpl; lia).
  cbn [load_all]. unfold load_by_path_with at 1. rewrite Hnm. case_bool_decide as Hin.
  - destruct (IH ld k count) as (n & ld' & k' & -> & Hn & Hall & Hmono); [lia|lia|].
    exists n, ld', k'. split_and!; [done..| |done].
    intros q m [->|Hq]%elem_of_cons Hm; [|by eapply Hall]. simplify_eq. by apply Hmono.
  - rewrite healthy_exists.
    destruct (healthy_init k (path_join (mod_dir ld) p)) as (u & k1 & ->).
    set (ld1 := {| mod_dir := _; loaded := _ |}).
    assert (saturating_add 64 count 1 = count + 1) as ->.
    { unfold saturating_add. unfold zlen in *. simpl in *. lia. }
    destruct (IH ld1 k1 (count + 1)) as (n & ld' & k' & -> & Hn & Hall & Hmono); [lia|lia|].
    exists n, ld', k'. split_and!; [done|lia| |].
    + intros q m [->|Hq]%elem_of_cons Hm; [|by eapply Hall]. apply Hmono. subst ld1. simplify_eq.
      cbn [loaded]. set_solver.
    + intros m Hm. apply Hmono. subst ld1. cbn [loaded]. set_solver.
Qed.

Lemma load_all_loaded ld (k : K) order count :
  Forall (λ p, ∃ nm, get_module_name p = Some nm ∧ nm ∈ loaded ld) order →
  load_all ld k order init_module_image count = (Ok count, ld, k).
Proof.
  induction 1 as [|p order (nm & Hn & Hl) _ IH]; [done|]. cbn [load_all].
  unfold load_by_path_with. rewrite Hn. by rewrite bool_decide_eq_true_2.
Qed.
End healthy.

Lemma NoDup_bound (l : list nat) n : NoDup l → Forall (λ i, (i < n)%nat) l → (length l ≤ n)%nat.
Proof.
  intros Hnd Hb. assert (l ⊆+ seq 0 n) as Hs.
  { apply NoDup_submseteq; [done|]. intros i Hi. rewrite Forall_forall in Hb.
    apply elem_of_seq. specialize (Hb i Hi). lia. }
  apply submseteq_length in Hs. by rewrite length_seq in Hs.
Qed.

Lemma load_order_bound db nm i order :
  find db nm = Some i → load_order db i order → Forall (λ j, (j < len db)%nat) order.
Proof.
  intros Hi Ho. apply Forall_forall. intros j Hj. apply (lo_reach _ _ _ Ho) in Hj.
  apply rtc_inv_r in Hj as [->|(z & _ & Hz)]; [by eapply find_bound|by eapply deps_of_bound].
Qed.

(** When a device is added whose alias a line of modules.alias matches, and the
    kernel accepts what it is given, the module of the first matching line and
    everything it depends on end up loaded; a second event for the device
    changes nothing. *)
Theorem uevent_loads_module {K : Type} `{ModKernel K} `{!HealthyKernel K} dep_txt (l : Loader K) data m nm i :
  dep_db l = index dep_txt → blen dep_txt ≤ uint_max 64 → zlen (modules (dep_db l)) ≤ uint_max 64 →
  action (parse_uevent data) = Add → modalias (parse_uevent data) = Some m →
  find_module (alias_db l) m = Some nm → find (dep_db l) nm = Some i →
  let l' := on_uevent l data in
  (∀ j, rtc (depends (dep_db l)) i j →
     ∃ n, get_module_name (path_of (dep_db l) j) = Some n ∧ n ∈ loaded (kernel l')) ∧
  (∀ n, n ∈ loaded (kernel l) → n ∈ loaded (kernel l')) ∧
  on_uevent l' data = l'.
Proof.
  intros Hdb Hfit Hcount Ha Hm Hnm Hi l'.
  destruct (resolve_spec (dep_db l) nm i Hi) as (order & Hr & Ho).
  pose proof (load_order_bound _ _ _ _ Hi Ho) as Hb.
  assert (Forall (λ p, is_Some (get_module_name p)) (path_of (dep_db l) <$> order)) as Hnames.
  { apply Forall_fmap. eapply Forall_impl; [exact Hb|]. intros j Hj. simpl. rewrite Hdb in *.
    by apply path_of_named. }
  destruct (load_all_healthy (kernel l) (os l) (path_of (dep_db l) <$> order) 0)
    as (n & ld & k & Hl & _ & Hall & Hmono); [done|lia| |].
  { pose proof (NoDup_bound order _ (lo_nodup _ _ _ Ho) Hb). unfold zlen, len in *.
    rewrite length_fmap. lia. }
  assert (l' = {| alias_db := alias_db l; dep_db := dep_db l; kernel := ld; os := k |}) as El.
  { unfold l', on_uevent, load_alias, load_module, load_module_with. by rewrite Ha, Hm, Hnm, Hr, Hl. }
  rewrite El. cbn [kernel]. split_and!.
  - intros j Hj. apply (lo_reach _ _ _ Ho) in Hj. rewrite Forall_fmap, Forall_forall in Hnames.
    destruct (Hnames j Hj) as [x Hx]. exists x. split; [done|]. eapply Hall; [|done].
    apply list_elem_of_fmap. eauto.
  - done.
  - unfold on_uevent, load_alias, load_module, load_module_with. rewrite Ha, Hm.
    cbn [alias_db dep_db kernel os]. rewrite Hnm, Hr, load_all_loaded; [done|].
    apply Forall_forall. intros p Hp. rewrite Forall_forall in Hnames.
    destruct (Hnames p Hp) as [x Hx]. exists x. split; [done|]. by eapply Hall.
Qed.

(** ** A concrete kernel *)

Lemma acyclic_rank db (rank : nat → nat) :
  (∀ x y, depends db x y → (rank y < rank x)%nat) → acyclic db.
Proof.
  intros Hr x Hx. assert (∀ a b, tc (depends db) a b → (rank b < rank a)%nat) as H.
  { intros a b. induction 1 as [a b Hab|a b c Hab _ IH]; [by apply Hr|]. apply Hr in Hab. lia. }
  specialize (H x x Hx). lia.
Qed.

(** Every file holds its own path; accepted images are recorded. *)
#[local] Instance demo_kernel : ModKernel (list ustring) := {|
  path_exists _ _ := true;
  open_file _ p := Ok p;
  zstd_decode_all image := Ok image;
  sys_init_module k image := (Ok tt, k ++ [image]);
  sys_finit_module k image := (Ok tt, k ++ [image]);
|}.

Lemma demo_init (k : list ustring) p : init_module_image k p = (Ok tt, k ++ [p]).
Proof. unfold init_module_image. simpl. by case_bool_decide. Qed.

#[local] Program Instance demo_traced : TracedKernel (list ustring) := {| trace := λ k, k |}.
Next Obligation. intros k p u k'. rewrite demo_init. by intros [= _ <-]. Qed.
Next Obligation. intros k p r k'. rewrite demo_init. intros [= <- <-] Hr. by destruct (Hr tt). Qed.

#[local] Instance demo_healthy : HealthyKernel (list ustring).
Proof. split; [done|]. intros k p. exists tt, (k ++ [p]). apply demo_init. Qed.

Lemma demo_acyclic : acyclic (index demo_dep).
Proof.
  apply (acyclic_rank _ (λ x, match x with O => 3 | 3 => 2 | _ => 1 end)%nat).
  intros x y. unfold depends, deps_of. do 4 (destruct x as [|x]; [vm_compute;
    repeat (intros Hy; first [apply elem_of_cons in Hy as [->|Hy]; [lia|revert Hy]
                             |by apply not_elem_of_nil in Hy])|]).
  assert (modules (index demo_dep) !! S (S (S (S x))) = None) as ->.
  { apply lookup_ge_None_2. change (length (modules (index demo_dep))) with 4%nat. lia. }
  by intros ?%not_elem_of_nil.
Qed.

Definition demo_event : list Z :=
  uevent_bytes (ustr "add") (ustr "/devices/pci0") [(ustr "MODALIAS", ustr "pci:v00008086d1sv2")].

Lemma modules_loaded_in_order_witness :
  ∃ l, new_daemon (ustr "/lib/modules/6") (Ok demo_alias) (Ok demo_dep) [] = Ok l ∧
  trace (os (daemon l None [demo_event; demo_event])) =
    [ustr "/lib/modules/6/kernel/pps/pps_core.ko"; ustr "/lib/modules/6/kernel/ptp/ptp.ko";
     ustr "/lib/modules/6/kernel/net/lib-phy.ko"; ustr "/lib/modules/6/kernel/net/igc.ko.zst"] ∧
  NoDup (get_module_name <$> trace (os (daemon l None [demo_event; demo_event]))).
Proof.
  eexists. split; [reflexivity|]. split; [by vm_compute|].
  eapply (modules_loaded_in_order (ustr "/lib/modules/6") demo_alias demo_dep []);
    [reflexivity|reflexivity|exact demo_acyclic].
Defined.

Lemma uevent_loads_module_witness :
  let l := {| alias_db := {| atext := demo_alias; entries := parse_text demo_alias |};
              dep_db := index demo_dep; kernel := new_loader (ustr "/m"); os := [] |} in
  on_uevent (on_uevent l demo_event) demo_event = on_uevent l demo_event.
Proof.
  intros l.
  destruct (uevent_loads_module demo_dep l demo_event (ustr "pci:v00008086d1sv2") (ustr "igc") 0)
    as (_ & _ & Hfix); [..|exact Hfix].
  - reflexivity.
  - vm_compute. discriminate.
  - vm_compute. discriminate.
  - by vm_compute.
  - by vm_compute.
  - by vm_compute.
  - by vm_compute.
Defined.
