(* ===== verification/LuksHeader.v ===== *)
(** Errors and the binary header of LUKS2 volumes (libs/luks2/src/error.rs,
    header.rs).

    SHA-256 is a class, of which the code uses that a digest has 32 bytes. The
    theorems: a serialized header is parsed back, primary or secondary, and a
    buffer is accepted exactly when magic, version and checksum are right. *)

From S2P Require Import Prelude Io Utf Text Str.

(** ** Errors *)

Inductive Luks2Error :=
| InvalidMagic
| UnsupportedVersion (v : Z)
| ChecksumMismatch
| UnsupportedCipher (c : ustring)
| UnsupportedKdf (k : ustring)
| NoKeyslot
| WrongPassphrase
| DigestMismatch
| DeviceMapper (msg : ustring)
| Json (msg : ustring)
| LuksIo (e : io_error)
| Argon2 (code : Z)
| Base64 (code : Z)
| InvalidField (what : ustring)
| NoTpm2Token
| Rng.

(** ** Third-party functions of the header *)

Class Sha256 := sha256 : list Z → list Z.
Class Sha256Laws `{Sha256} : Prop := {
  sha256_length bs : length (sha256 bs) = 32%nat;
  sha256_bytes bs : bytes_ok (sha256 bs);
}.

(** [getrandom::fill] on a buffer of [n] bytes; [R] is the state of the
    source. *)
Class Random (R : Type) := fill : R → nat → option (list Z * R).
Class RandomLaws (R : Type) `{Random R} : Prop :=
  fill_length r n bs r' : fill r n = Some (bs, r') → length bs = n ∧ bytes_ok bs.

(** ** Layout *)

Definition LUKS_MAGIC : list Z := [0x4c; 0x55; 0x4b; 0x53; 0xba; 0xbe].
Definition LUKS2_VERSION : Z := 2.
Definition BINARY_HEADER_SIZE : nat := 4096.
Definition DEFAULT_HEADER_SIZE : Z := 16 * 1024 * 1024.
Definition CHECKSUM_ALG : ustring := ustr "sha256".
Definition SHA256_LEN : nat := 32.
Definition CHECKSUM_OFFSET : nat := 376.
Definition MAGIC_OFFSET : nat := 0.
Definition MAGIC_END : nat := 6.
Definition VERSION_OFFSET : nat := 6.
Definition VERSION_END : nat := 8.
Definition HEADER_SIZE_OFFSET : nat := 8.
Definition HEADER_SIZE_END : nat := 16.
Definition SEQUENCE_ID_OFFSET : nat := 16.
Definition SEQUENCE_ID_END : nat := 24.
Definition LABEL_OFFSET : nat := 24.
Definition LABEL_END : nat := 72.
Definition CHECKSUM_ALG_OFFSET : nat := 72.
Definition SALT_OFFSET : nat := 104.
Definition SALT_END : nat := 168.
Definition UUID_OFFSET : nat := 168.
Definition UUID_END : nat := 208.
Definition SUBSYSTEM_OFFSET : nat := 208.
Definition SUBSYSTEM_END : nat := 256.
Definition OFFSET_OFFSET : nat := 256.
Definition OFFSET_END : nat := 264.

Record Header := {
  size : Z; sequence_id : Z; label : list Z; salt : list Z; uuid : list Z;
  subsystem : list Z; checksum : list Z
}.

(** ** Buffer helpers *)

Definition copy_prefix (dst src : list Z) (len : nat) : res Luks2Error (list Z) :=
  _ ← ok_or (slice 0 len dst) (InvalidField (ustr "destination prefix out of bounds"));
  s ← ok_or (slice 0 len src) (InvalidField (ustr "source prefix out of bounds"));
  Ok (splice 0 s dst).

Definition copy_exact (n : nat) (src : list Z) : res Luks2Error (list Z) :=
  if bool_decide (length src = n) then Ok src else Err (InvalidField (ustr "slice size mismatch")).

Definition read_range (data : list Z) (a b : nat) : res Luks2Error (list Z) :=
  ok_or (slice a b data) (InvalidField (ustr "header slice out of bounds")).

Definition read_array (n : nat) (data : list Z) (a b : nat) (field : ustring)
    : res Luks2Error (list Z) :=
  s ← read_range data a b;
  if bool_decide (length s = n) then Ok s else Err (InvalidField field).

Definition write_range (buf : list Z) (a b : nat) (src : list Z) : res Luks2Error (list Z) :=
  dst ← ok_or (slice a b buf) (InvalidField (ustr "header write out of bounds"));
  if bool_decide (length dst = length src) then Ok (splice a src buf)
  else Err (InvalidField (ustr "header write size mismatch")).

Definition fill_range (buf : list Z) (a b : nat) (value : Z) : res Luks2Error (list Z) :=
  dst ← ok_or (slice a b buf) (InvalidField (ustr "header fill out of bounds"));
  Ok (splice a (replicate (length dst) value) buf).

(** ** The header *)

Definition new_header {R} `{Random R} (uuid_str label : ustring) (r : R)
    : res Luks2Error (Header * R) :=
  let label_bytes := utf8 label in
  label_buf ← copy_prefix (zeros 48) label_bytes (Nat.min (length label_bytes) 47);
  let uuid_bytes := utf8 uuid_str in
  uuid_buf ← copy_prefix (zeros 40) uuid_bytes (Nat.min (length uuid_bytes) 40);
  '(salt, r) ← ok_or (fill r 64) Rng;
  Ok ({| size := DEFAULT_HEADER_SIZE; sequence_id := 1; label := label_buf; salt := salt;
         uuid := uuid_buf; subsystem := zeros 48; checksum := zeros 64 |}, r).

Section codec.
Context `{Sha256}.

(** Serializing also stores the digest in the header. *)
Definition serialize (h : Header) (is_primary : bool) : res Luks2Error (list Z * Header) :=
  let buf := zeros BINARY_HEADER_SIZE in
  buf ← write_range buf MAGIC_OFFSET MAGIC_END LUKS_MAGIC;
  buf ← write_range buf VERSION_OFFSET VERSION_END (to_be_bytes 2 LUKS2_VERSION);
  buf ← write_range buf HEADER_SIZE_OFFSET HEADER_SIZE_END (to_be_bytes 8 (size h));
  buf ← write_range buf SEQUENCE_ID_OFFSET SEQUENCE_ID_END (to_be_bytes 8 (sequence_id h));
  buf ← write_range buf LABEL_OFFSET LABEL_END (label h);
  let alg := utf8 CHECKSUM_ALG in
  let checksum_alg_end := (CHECKSUM_ALG_OFFSET + length alg)%nat in
  buf ← write_range buf CHECKSUM_ALG_OFFSET checksum_alg_end alg;
  buf ← write_range buf SALT_OFFSET SALT_END (salt h);
  buf ← write_range buf UUID_OFFSET UUID_END (uuid h);
  buf ← write_range buf SUBSYSTEM_OFFSET SUBSYSTEM_END (subsystem h);
  let offset := if is_primary then 0 else size h in
  buf ← write_range buf OFFSET_OFFSET OFFSET_END (to_be_bytes 8 offset);
  buf ← fill_range buf CHECKSUM_OFFSET (CHECKSUM_OFFSET + 64) 0;
  let hash := sha256 buf in
  buf ← write_range buf CHECKSUM_OFFSET (CHECKSUM_OFFSET + SHA256_LEN) hash;
  checksum ← copy_prefix (checksum h) hash SHA256_LEN;
  Ok (buf, {| size := size h; sequence_id := sequence_id h; label := label h; salt := salt h;
              uuid := uuid h; subsystem := subsystem h; checksum := checksum |}).

Definition parse (data : list Z) : res Luks2Error Header :=
  if (length data <? BINARY_HEADER_SIZE)%nat then Err (InvalidField (ustr "header too short")) else
  magic ← read_range data MAGIC_OFFSET MAGIC_END;
  if bool_decide (magic ≠ LUKS_MAGIC) then Err InvalidMagic else
  version ← read_array 2 data VERSION_OFFSET VERSION_END (ustr "version");
  if bool_decide (from_be_bytes version ≠ LUKS2_VERSION)
  then Err (UnsupportedVersion (from_be_bytes version)) else
  header_size ← read_array 8 data HEADER_SIZE_OFFSET HEADER_SIZE_END (ustr "header_size");
  sequence_id ← read_array 8 data SEQUENCE_ID_OFFSET SEQUENCE_ID_END (ustr "sequence_id");
  label ← read_range data LABEL_OFFSET LABEL_END ≫= copy_exact 48;
  salt ← read_range data SALT_OFFSET SALT_END ≫= copy_exact 64;
  uuid ← read_range data UUID_OFFSET UUID_END ≫= copy_exact 40;
  subsystem ← read_range data SUBSYSTEM_OFFSET SUBSYSTEM_END ≫= copy_exact 48;
  checksum ← read_range data CHECKSUM_OFFSET (CHECKSUM_OFFSET + 64) ≫= copy_exact 64;
  verify_buf ← read_range data 0 BINARY_HEADER_SIZE;
  verify_buf ← fill_range verify_buf CHECKSUM_OFFSET (CHECKSUM_OFFSET + 64) 0;
  if bool_decide (sha256 verify_buf ≠ take SHA256_LEN checksum) then Err ChecksumMismatch else
  Ok {| size := from_be_bytes header_size; sequence_id := from_be_bytes sequence_id;
        label := label; salt := salt; uuid := uuid; subsystem := subsystem; checksum := checksum |}.
End codec.

Definition uuid_str (h : Header) : ustring :=
  let end_ := default (length (uuid h)) (position (λ byte, byte =? 0) (uuid h)) in
  default [] (slice 0 end_ (uuid h) ≫= from_utf8).

(** ** Invariant *)

Record header_ok (h : Header) : Prop := {
  ok_size : is_u64 (size h);
  ok_seq : is_u64 (sequence_id h);
  ok_label : length (label h) = 48%nat;
  ok_salt : length (salt h) = 64%nat;
  ok_uuid : length (uuid h) = 40%nat;
  ok_subsystem : length (subsystem h) = 48%nat;
  ok_checksum : length (checksum h) = 64%nat;
}.

(** ** Lemmas *)

Lemma write_range_ok buf a b src :
  (a ≤ b ≤ length buf)%nat → length src = (b - a)%nat →
  write_range buf a b src = Ok (splice a src buf).
Proof.
  intros Hab Hs. unfold write_range. rewrite slice_ok by done. cbn [ok_or mbind res_bind].
  rewrite bool_decide_eq_true_2; [done|]. rewrite length_take, length_drop. lia.
Qed.

Lemma fill_range_ok buf a b v :
  (a ≤ b ≤ length buf)%nat → fill_range buf a b v = Ok (splice a (replicate (b - a) v) buf).
Proof.
  intros Hab. unfold fill_range. rewrite slice_ok by done. cbn [ok_or mbind res_bind].
  do 3 f_equal. rewrite length_take, length_drop. lia.
Qed.

Lemma copy_prefix_ok dst src n :
  (n ≤ length dst)%nat → (n ≤ length src)%nat →
  copy_prefix dst src n = Ok (take n src ++ drop n dst).
Proof.
  intros Hd Hs. unfold copy_prefix. rewrite !slice_ok by lia. cbn [ok_or mbind res_bind].
  rewrite drop_0, Nat.sub_0_r. unfold splice. rewrite take_0, length_take. simpl.
  by rewrite Nat.min_l by done.
Qed.

(** The serialized fields, as one list. *)
Definition head_bytes (h : Header) (offset : Z) : list Z :=
  LUKS_MAGIC ++ to_be_bytes 2 LUKS2_VERSION ++ to_be_bytes 8 (size h)
  ++ to_be_bytes 8 (sequence_id h) ++ label h ++ (utf8 CHECKSUM_ALG ++ zeros 26) ++ salt h
  ++ uuid h ++ subsystem h ++ to_be_bytes 8 offset ++ zeros 112.
Definition header_image (h : Header) (offset : Z) (sum : list Z) : list Z :=
  head_bytes h offset ++ sum ++ zeros 3656.

(** Writing into the zeroed rest of a buffer. *)
Lemma splice_gap a g src pre n :
  a = (length pre + g)%nat → (g + length src ≤ n)%nat →
  splice a src (pre ++ zeros n) = (pre ++ zeros g ++ src) ++ zeros (n - g - length src).
Proof.
  intros -> Hn. unfold splice, zeros.
  rewrite take_app_ge, drop_app_ge by lia.
  replace (length pre + g - length pre)%nat with g by lia.
  replace (length pre + g + length src - length pre)%nat with (g + length src)%nat by lia.
  rewrite take_replicate, drop_replicate, <-!app_assoc. do 2 f_equal; [f_equal; lia|].
  do 2 f_equal. lia.
Qed.

Lemma length_head_bytes h offset : header_ok h → length (head_bytes h offset) = 376%nat.
Proof.
  intros []. unfold head_bytes. rewrite !length_app, !length_to_be_bytes, !length_zeros.
  change (length LUKS_MAGIC) with 6%nat. change (length (utf8 CHECKSUM_ALG)) with 6%nat. lia.
Qed.

Definition with_checksum (h : Header) (sum : list Z) : Header :=
  {| size := size h; sequence_id := sequence_id h; label := label h; salt := salt h;
     uuid := uuid h; subsystem := subsystem h; checksum := sum |}.

(** One step of the serializer on a partly written buffer. *)
Lemma write_next pre n a b src g :
  a = (length pre + g)%nat → b = (a + length src)%nat → (g + length src ≤ n)%nat →
  write_range (pre ++ zeros n) a b src
  = Ok ((pre ++ zeros g ++ src) ++ zeros (n - g - length src)).
Proof.
  intros -> -> Hn. rewrite write_range_ok; [by rewrite (splice_gap _ g)| |lia].
  rewrite length_app, length_zeros. lia.
Qed.

(** Side conditions on offsets and lengths. *)
Ltac header_consts :=
  unfold MAGIC_OFFSET, MAGIC_END, VERSION_OFFSET, VERSION_END, HEADER_SIZE_OFFSET, HEADER_SIZE_END,
    SEQUENCE_ID_OFFSET, SEQUENCE_ID_END, LABEL_OFFSET, LABEL_END, CHECKSUM_ALG_OFFSET, SALT_OFFSET,
    SALT_END, UUID_OFFSET, UUID_END, SUBSYSTEM_OFFSET, SUBSYSTEM_END, OFFSET_OFFSET, OFFSET_END,
    CHECKSUM_OFFSET, SHA256_LEN, BINARY_HEADER_SIZE.
Ltac header_side :=
  rewrite ?length_app, ?length_to_be_bytes, ?length_zeros, ?length_replicate;
  header_consts; cbn [length]; lia.

Section codec_proofs.
Context `{Sha256Laws}.

Definition header_sum (h : Header) (offset : Z) : list Z :=
  sha256 (header_image h offset (zeros 64)).

Lemma serialize_image h (primary : bool) :
  header_ok h →
  let offset := if primary then 0 else size h in
  serialize h primary =
  Ok (header_image h offset (header_sum h offset ++ zeros 32),
      with_checksum h (header_sum h offset ++ drop 32 (checksum h))).
Proof.
  intros Hok offset. pose proof Hok as []. unfold serialize. fold offset.
  set (alg := utf8 CHECKSUM_ALG). assert (length alg = 6%nat) as Halg by done.
  assert (length LUKS_MAGIC = 6%nat) as Hmagic by done.
  change (zeros BINARY_HEADER_SIZE) with (@nil Z ++ zeros 4096).
  do 6 (rewrite (write_next _ _ _ _ _ 0) by header_side; cbn [mbind res_bind]).
  rewrite (write_next _ _ _ _ _ 26) by header_side; cbn [mbind res_bind].
  do 3 (rewrite (write_next _ _ _ _ _ 0) by header_side; cbn [mbind res_bind]).
  match goal with |- context [fill_range ?b _ _ _] =>
    replace b with (head_bytes h offset ++ zeros 64 ++ zeros 3656) end.
  2: { unfold head_bytes. fold alg. rewrite <-!app_assoc. cbn [app].
       replace (zeros 0) with (@nil Z) by done. cbn [app]. do 10 f_equal.
       change (zeros 112 ++ zeros 64 ++ zeros 3656) with (zeros (112 + (64 + 3656))).
       do 2 f_equal. rewrite !length_to_be_bytes. lia. }
  pose proof (length_head_bytes h offset Hok) as Hhl.
  rewrite fill_range_ok by header_side. cbn [mbind res_bind].
  replace (splice CHECKSUM_OFFSET _ _) with (header_image h offset (zeros 64)).
  2: { symmetry. unfold header_image. replace CHECKSUM_OFFSET with (length (head_bytes h offset)) at 1.
       by apply splice_app. }
  fold (header_sum h offset). set (sum := header_sum h offset).
  assert (length sum = 32%nat) as Hsum by apply sha256_length.
  rewrite write_range_ok by (unfold header_image; header_side). cbn [mbind res_bind].
  rewrite copy_prefix_ok by (unfold SHA256_LEN; lia). cbn [mbind res_bind]. unfold with_checksum.
  do 2 f_equal; [|f_equal; unfold SHA256_LEN; by rewrite take_ge by lia].
  unfold header_image. change (zeros 64 ++ zeros 3656) with (zeros 32 ++ zeros 32 ++ zeros 3656).
  rewrite <-app_assoc. replace CHECKSUM_OFFSET with (length (head_bytes h offset)).
  by apply splice_app.
Qed.

Lemma header_image_fields h offset sum :
  header_ok h → length sum = 64%nat →
  let b := header_image h offset sum in
  length b = 4096%nat ∧ slice 0 6 b = Some LUKS_MAGIC ∧
  slice 6 8 b = Some (to_be_bytes 2 LUKS2_VERSION) ∧ slice 8 16 b = Some (to_be_bytes 8 (size h)) ∧
  slice 16 24 b = Some (to_be_bytes 8 (sequence_id h)) ∧ slice 24 72 b = Some (label h) ∧
  slice 104 168 b = Some (salt h) ∧ slice 168 208 b = Some (uuid h) ∧
  slice 208 256 b = Some (subsystem h) ∧ slice 376 440 b = Some sum.
Proof.
  intros Hok Hsum b. pose proof Hok as []. assert (length LUKS_MAGIC = 6%nat) as Hm by done.
  set (alg := utf8 CHECKSUM_ALG ++ zeros 26). assert (length alg = 32%nat) as Ha by done.
  set (v := to_be_bytes 2 LUKS2_VERSION). assert (length v = 2%nat) as Hv by done.
  set (s8 := to_be_bytes 8 (size h)). assert (length s8 = 8%nat) as H8 by apply length_to_be_bytes.
  set (q8 := to_be_bytes 8 (sequence_id h)). assert (length q8 = 8%nat) as Hq by apply length_to_be_bytes.
  set (o8 := to_be_bytes 8 offset). assert (length o8 = 8%nat) as Ho by apply length_to_be_bytes.
  assert (b = LUKS_MAGIC ++ v ++ s8 ++ q8 ++ label h ++ alg ++ salt h ++ uuid h ++ subsystem h ++ o8
    ++ zeros 112 ++ sum ++ zeros 3656) as E.
  { unfold b, header_image, head_bytes. fold alg v s8 q8 o8. by rewrite <-!app_assoc. }
  clearbody v s8 q8 o8 alg b. set (m := LUKS_MAGIC) in *. clearbody m.
  split_and!.
  - rewrite E, !length_app, !length_zeros. lia.
  - eapply (slice_mid _ _ _ []); [exact E|done|cbn [length]; lia].
  - eapply (slice_mid _ _ _ m); [exact E|lia|lia].
  - eapply (slice_mid _ _ _ (m ++ v)); [rewrite E; by rewrite <-!app_assoc|rewrite !length_app; lia|lia].
  - eapply (slice_mid _ _ _ (m ++ v ++ s8));
      [rewrite E; by rewrite <-!app_assoc|rewrite !length_app; lia|lia].
  - eapply (slice_mid _ _ _ (m ++ v ++ s8 ++ q8));
      [rewrite E; by rewrite <-!app_assoc|rewrite !length_app; lia|lia].
  - eapply (slice_mid _ _ _ (m ++ v ++ s8 ++ q8 ++ label h ++ alg));
      [rewrite E; by rewrite <-!app_assoc|rewrite !length_app; lia|lia].
  - eapply (slice_mid _ _ _ (m ++ v ++ s8 ++ q8 ++ label h ++ alg ++ salt h));
      [rewrite E; by rewrite <-!app_assoc|rewrite !length_app; lia|lia].
  - eapply (slice_mid _ _ _ (m ++ v ++ s8 ++ q8 ++ label h ++ alg ++ salt h ++ uuid h));
      [rewrite E; by rewrite <-!app_assoc|rewrite !length_app; lia|lia].
  - eapply (slice_mid _ _ _ (m ++ v ++ s8 ++ q8 ++ label h ++ alg ++ salt h ++ uuid h ++ subsystem h
      ++ o8 ++ zeros 112));
      [rewrite E; by rewrite <-!app_assoc|rewrite !length_app, !length_zeros; lia|lia].
Qed.
End codec_proofs.

(** ** Theorems *)

Lemma read_range_some data a b s : slice a b data = Some s → read_range data a b = Ok s.
Proof. intros Hs. unfold read_range. by rewrite Hs. Qed.

Lemma read_array_some n data a b f s :
  slice a b data = Some s → length s = n → read_array n data a b f = Ok s.
Proof.
  intros Hs Hn. unfold read_array. rewrite (read_range_some _ _ _ _ Hs). cbn [mbind res_bind].
  by rewrite bool_decide_eq_true_2.
Qed.

Lemma copy_exact_some n s : length s = n → copy_exact n s = Ok s.
Proof. intros. unfold copy_exact. by rewrite bool_decide_eq_true_2. Qed.

Section theorems.
Context `{Sha256Laws}.

(** The sector of which the checksum is taken. *)
Definition cleared (data : list Z) : list Z := splice 376 (zeros 64) (take 4096 data).

(** Exactly which buffers are accepted. *)
Lemma parse_ok_iff data :
  (∃ h, parse data = Ok h) ↔
  (4096 ≤ length data)%nat ∧ slice 0 6 data = Some LUKS_MAGIC ∧
  from_be_bytes (take 2 (drop 6 data)) = LUKS2_VERSION ∧
  sha256 (cleared data) = take 32 (drop 376 data).
Proof.
  unfold parse. change BINARY_HEADER_SIZE with 4096%nat.
  destruct (Nat.ltb_spec (length data) 4096) as [Hlt|Hle].
  { split; [by intros [h ?]|lia]. }
  unfold read_array, read_range. rewrite !slice_ok by header_side.
  cbn [ok_or mbind res_bind].
  rewrite !copy_exact_some by (rewrite length_take, length_drop; header_side).
  rewrite !(bool_decide_eq_true_2 (length (take _ _) = _))
    by (rewrite length_take, length_drop; header_side).
  cbn [mbind res_bind].
  rewrite fill_range_ok by (rewrite length_take, length_drop; header_side). cbn [mbind res_bind].
  change (take (MAGIC_END - MAGIC_OFFSET) (drop MAGIC_OFFSET data)) with (take 6 data).
  change (take (6 - 0) (drop 0 data)) with (take 6 data).
  change (take (VERSION_END - VERSION_OFFSET) (drop VERSION_OFFSET data)) with (take 2 (drop 6 data)).
  replace (splice CHECKSUM_OFFSET _ _) with (cleared data) by done.
  rewrite take_take. change (SHA256_LEN `min` (CHECKSUM_OFFSET + 64 - CHECKSUM_OFFSET))%nat with 32%nat.
  change CHECKSUM_OFFSET with 376%nat.
  case_bool_decide as Hm; [split; [by intros [? ?]|intros (_ & Hm' & _); by injection Hm']|].
  case_bool_decide as Hv; [split; [by intros [? ?]|intros (_ & _ & ? & _); done]|].
  case_bool_decide as Hs; [split; [by intros [? ?]|intros (_ & _ & _ & ?); done]|].
  split; [|by eexists]. intros _. split_and!; [done|by f_equal|done|done].
Qed.

(** The header read from a sector whose fields are known. *)
Lemma parse_fields data s8 q8 lb sl uu su ck :
  (4096 ≤ length data)%nat → slice 0 6 data = Some LUKS_MAGIC →
  slice 6 8 data = Some (to_be_bytes 2 LUKS2_VERSION) → slice 8 16 data = Some s8 →
  slice 16 24 data = Some q8 → slice 24 72 data = Some lb → slice 104 168 data = Some sl →
  slice 168 208 data = Some uu → slice 208 256 data = Some su → slice 376 440 data = Some ck →
  sha256 (cleared data) = take 32 ck →
  parse data = Ok {| size := from_be_bytes s8; sequence_id := from_be_bytes q8; label := lb;
                     salt := sl; uuid := uu; subsystem := su; checksum := ck |}.
Proof.
  intros Hlen F1 F2 F3 F4 F5 F6 F7 F8 F9 Hsum.
  unfold parse. header_consts. change (376 + 64)%nat with 440%nat.
  destruct (Nat.ltb_spec (length data) 4096) as [Hlt|_]; [lia|].
  rewrite (read_range_some _ _ _ _ F1). cbn [mbind res_bind].
  rewrite bool_decide_eq_false_2 by (intros Hn; by apply Hn).
  rewrite (read_array_some 2 _ _ _ _ _ F2) by apply length_to_be_bytes. cbn [mbind res_bind].
  rewrite from_to_be_bytes by (unfold LUKS2_VERSION; lia).
  rewrite bool_decide_eq_false_2 by (intros Hn; by apply Hn).
  rewrite (read_array_some 8 _ _ _ _ _ F3) by by apply length_slice in F3.
  rewrite (read_array_some 8 _ _ _ _ _ F4) by by apply length_slice in F4. cbn [mbind res_bind].
  rewrite (read_range_some _ _ _ _ F5), (read_range_some _ _ _ _ F6), (read_range_some _ _ _ _ F7),
    (read_range_some _ _ _ _ F8), (read_range_some _ _ _ _ F9). cbn [mbind res_bind].
  apply length_slice in F5, F6, F7, F8, F9. rewrite !copy_exact_some by lia. cbn [mbind res_bind].
  unfold read_range. rewrite slice_ok by lia. cbn [ok_or mbind res_bind].
  rewrite drop_0, Nat.sub_0_r, fill_range_ok by (rewrite length_take; lia).
  cbn [mbind res_bind]. change (splice 376 (replicate (440 - 376) 0) (take 4096 data)) with (cleared data).
  rewrite Hsum, bool_decide_eq_false_2 by (intros Hn; by apply Hn). done.
Qed.

Lemma cleared_image h offset sum rest :
  header_ok h → length sum = 64%nat →
  cleared (header_image h offset sum ++ rest) = header_image h offset (zeros 64).
Proof.
  intros Hok Hsum. pose proof (length_head_bytes h offset Hok) as Hhl. unfold cleared.
  rewrite take_app_le, take_ge; unfold header_image;
    [|rewrite !length_app, length_zeros; lia..].
  rewrite <-Hhl at 1. by apply splice_app.
Qed.

(** A serialized header is parsed back, whatever follows it. *)
Lemma serialize_parse h (primary : bool) rest :
  header_ok h →
  ∃ buf h' sum, serialize h primary = Ok (buf, h') ∧ length buf = 4096%nat ∧
    length sum = 32%nat ∧ parse (buf ++ rest) = Ok (with_checksum h (sum ++ zeros 32)) ∧
    take 32 (checksum h') = sum ∧ sum = sha256 (cleared (buf ++ rest)).
Proof.
  intros Hok. rewrite serialize_image by done. cbv zeta.
  generalize (if primary then 0 else size h) as offset. intros offset.
  pose proof (sha256_length (header_image h offset (zeros 64))) as Hsum.
  fold (header_sum h offset) in Hsum.
  assert (length (header_sum h offset ++ zeros 32) = 64%nat) as H64 by (rewrite length_app, Hsum; done).
  destruct (header_image_fields h offset (header_sum h offset ++ zeros 32) Hok H64) as
    (Hlen & F1 & F2 & F3 & F4 & F5 & F6 & F7 & F8 & F9).
  pose proof (cleared_image h offset _ rest Hok H64) as Hclear.
  assert (header_sum h offset = sha256 (cleared (header_image h offset (header_sum h offset ++ zeros 32)
    ++ rest))) as Hs by (by rewrite Hclear).
  exists (header_image h offset (header_sum h offset ++ zeros 32)),
    (with_checksum h (header_sum h offset ++ drop 32 (checksum h))), (header_sum h offset).
  revert Hlen F1 F2 F3 F4 F5 F6 F7 F8 F9 Hs. generalize (header_sum h offset) as sum, Hsum.
  clear Hsum H64 Hclear. intros sum Hsum.
  generalize (header_image h offset (sum ++ zeros 32)) as buf. intros buf Hlen F1 F2 F3 F4 F5 F6 F7 F8 F9 Hs.
  destruct Hok.
  split_and!; [done..| |cbn [checksum with_checksum]; by rewrite take_app_le, take_ge by lia|done].
  rewrite (parse_fields (buf ++ rest) (to_be_bytes 8 (size h)) (to_be_bytes 8 (sequence_id h)) (label h)
    (salt h) (uuid h) (subsystem h) (sum ++ zeros 32)); try by apply slice_app_l.
  - by rewrite !from_to_be_bytes.
  - rewrite length_app. lia.
  - rewrite <-Hs. by rewrite take_app_le, take_ge by lia.
Qed.

Lemma serialize_header_ok h (primary : bool) buf h' :
  header_ok h → serialize h primary = Ok (buf, h') → header_ok h' ∧ uuid h' = uuid h ∧ size h' = size h.
Proof.
  intros Hok. rewrite serialize_image by done. cbv zeta. intros [= _ <-].
  destruct Hok. split_and!; [|done..]. constructor; cbn [with_checksum size sequence_id label salt uuid subsystem checksum]; try done.
  rewrite length_app, length_drop. unfold header_sum. rewrite sha256_length. lia.
Qed.

(** Both copies of a header are read back with all fields, whatever follows them
    on the disk, and the checksum of the read header is that of its sector. *)
Theorem header_roundtrip h (primary : bool) rest :
  header_ok h →
  ∃ buf h' sum, serialize h primary = Ok (buf, h') ∧ length buf = 4096%nat ∧
    length sum = 32%nat ∧ parse (buf ++ rest) = Ok (with_checksum h (sum ++ zeros 32)) ∧
    take 32 (checksum h') = sum ∧ sum = sha256 (cleared (buf ++ rest)).
Proof. apply serialize_parse. Qed.

(** A buffer is accepted exactly when it is long enough and its magic, version
    and checksum are right. *)
Theorem header_accepted_iff data :
  (∃ h, parse data = Ok h) ↔
  (4096 ≤ length data)%nat ∧ slice 0 6 data = Some LUKS_MAGIC ∧
  from_be_bytes (take 2 (drop 6 data)) = LUKS2_VERSION ∧
  sha256 (cleared data) = take 32 (drop 376 data).
Proof. apply parse_ok_iff. Qed.
End theorems.

(** ** A concrete digest *)

#[local] Instance toy_sha : Sha256 := λ bs,
  (λ i, (foldr (λ b acc, (b + 3 * acc) mod 256) i bs) mod 256) <$> seqZ 0 32.
#[local] Instance toy_sha_laws : Sha256Laws.
Proof.
  split; intros bs; unfold sha256, toy_sha; [by rewrite length_fmap, length_seqZ|].
  apply Forall_fmap, Forall_forall. intros i _. apply Z.mod_pos_bound. lia.
Qed.

Definition demo_header : Header :=
  {| size := DEFAULT_HEADER_SIZE; sequence_id := 7; label := replicate 48 65; salt := replicate 64 9;
     uuid := replicate 40 66; subsystem := zeros 48; checksum := zeros 64 |}.

Lemma header_roundtrip_witness :
  ∃ buf h' sum, serialize demo_header false = Ok (buf, h') ∧ length buf = 4096%nat ∧
    length sum = 32%nat ∧ parse (buf ++ [1; 2]) = Ok (with_checksum demo_header (sum ++ zeros 32)) ∧
    take 32 (checksum h') = sum ∧ sum = sha256 (cleared (buf ++ [1; 2])).
Proof.
  apply (header_roundtrip demo_header false [1; 2]).
  constructor; try done; by vm_compute.
Defined.
