(* ===== verification/LuksKeyslot.v ===== *)
(** LUKS2 keyslots: AES-XTS (libs/luks2/src/xts.rs), the anti-forensic splitter
    and the encryption of a volume key (libs/luks2/src/keyslot.rs), with the
    metadata records they read (libs/luks2/src/metadata.rs).

    AES, Argon2 and Base64 are classes. The theorems are the round trips: XTS,
    the splitter for every choice of random stripes, and a keyslot under its
    passphrase. *)

From S2P Require Import Prelude Io Utf Text Str LuksHeader.

(** ** Third-party functions *)

(** The block cipher: key and block to block. *)
Class Aes256 := {
  encrypt_block : list Z → list Z → list Z;
  decrypt_block : list Z → list Z → list Z;
}.
Class Aes256Laws `{Aes256} : Prop := {
  encrypt_block_length key b : length b = 16%nat → length (encrypt_block key b) = 16%nat;
  decrypt_encrypt key b : length b = 16%nat → decrypt_block key (encrypt_block key b) = b;
}.

(** [argon2]: parameters, passphrase, salt and output length. *)
Class Argon2id := argon2 : Z → Z → Z → list Z → list Z → nat → res Z (list Z).
Class Argon2idLaws `{Argon2id} : Prop :=
  argon2_length m t p pass salt n k : argon2 m t p pass salt n = Ok k → length k = n.

Class Base64 := {
  encode_string : list Z → ustring;
  decode_vec : ustring → res Z (list Z);
}.
Class Base64Laws `{Base64} : Prop := decode_encode bs : decode_vec (encode_string bs) = Ok bs.

(** ** AES-XTS (xts.rs) *)

Definition AES_BLOCK_SIZE : nat := 16.
Inductive Mode := Encrypt | Decrypt.

Definition xor_bytes (a b : list Z) : list Z := zip_with Z.lxor a b.

(** [xor_block]: the block keeps its length, the tweak has 16 bytes. *)
Definition xor_block (block tweak : list Z) : list Z :=
  zip_with Z.lxor block tweak ++ drop (length tweak) block.

Fixpoint shift_bytes (carry : Z) (bytes : list Z) : list Z * Z :=
  match bytes with
  | [] => ([], carry)
  | b :: bytes =>
      let new_carry := Z.shiftr b 7 in
      let byte := Z.lor (Z.shiftl b 1 mod 256) carry in
      let '(rest, c) := shift_bytes new_carry bytes in
      (byte :: rest, c)
  end.

Definition gf128_mul_x (tweak : list Z) : list Z :=
  let '(shifted, carry) := shift_bytes 0 tweak in
  if carry =? 1 then
    match shifted with b :: rest => Z.lxor b 0x87 :: rest | [] => [] end
  else shifted.

(** [as_chunks_mut]: whole blocks, and the remainder. *)
Definition as_chunks (n : nat) (data : list Z) : list (list Z) * list Z :=
  (chunks_exact n data, drop (length data / n * n) data).

Section xts.
Context `{Aes256}.

Definition xts_block (mode : Mode) (key1 tweak block : list Z) : list Z :=
  let block := xor_block block tweak in
  let block := match mode with
               | Encrypt => encrypt_block key1 block
               | Decrypt => decrypt_block key1 block
               end in
  xor_block block tweak.

Fixpoint xts_blocks (mode : Mode) (key1 tweak : list Z) (blocks : list (list Z)) : list (list Z) :=
  match blocks with
  | [] => []
  | b :: blocks => xts_block mode key1 tweak b :: xts_blocks mode key1 (gf128_mul_x tweak) blocks
  end.

Definition xts_process (key tweak data : list Z) (mode : Mode) : res Luks2Error (list Z) :=
  if bool_decide (length key ≠ 64%nat)
  then Err (InvalidField (ustr "AES-XTS key must be 64 bytes"))
  else if (length data <? AES_BLOCK_SIZE)%nat
  then Err (InvalidField (ustr "data must be at least 16 bytes"))
  else
    key1 ← ok_or (slice 0 32 key) (InvalidField (ustr "invalid AES key length"));
    key2 ← ok_or (slice 32 64 key) (InvalidField (ustr "invalid AES key length"));
    let current_tweak := encrypt_block key2 tweak in
    let '(blocks, rest) := as_chunks AES_BLOCK_SIZE data in
    Ok (concat (xts_blocks mode key1 current_tweak blocks) ++ rest).

Definition xts_encrypt (key tweak data : list Z) := xts_process key tweak data Encrypt.
Definition xts_decrypt (key tweak data : list Z) := xts_process key tweak data Decrypt.
End xts.

(** ** Metadata of a keyslot (metadata.rs) *)

Record Kdf := { kdf_type : ustring; kdf_salt : ustring; time : option Z; memory : option Z; cpus : option Z }.
Record AntiForensic := { af_type : ustring; stripes : Z; af_hash : ustring }.
Record KeyslotArea := {
  area_type : ustring; area_offset : ustring; area_size : ustring; encryption : ustring;
  area_key_size : Z
}.
Record Keyslot := {
  slot_type : ustring; key_size : Z; kdf : Kdf; af : AntiForensic; area : KeyslotArea
}.

(** ** Keyslots (keyslot.rs) *)

Section keyslot.
Context `{Sha256} `{Aes256} `{Argon2id} `{Base64}.

Definition derive_key (passphrase : list Z) (k : Keyslot) : res Luks2Error (list Z) :=
  if bool_decide (kdf_type (kdf k) ≠ ustr "argon2id") then Err (UnsupportedKdf (kdf_type (kdf k))) else
  salt ← map_err LuksHeader.Base64 (decode_vec (kdf_salt (kdf k)));
  key_size ← ok_or (try_from 64 (key_size k)) (InvalidField (ustr "invalid key size"));
  let t_cost := default 4 (time (kdf k)) in
  let m_cost := default 0x100000 (memory (kdf k)) in
  let p_cost := default 4 (cpus (kdf k)) in
  map_err Argon2 (argon2 m_cost t_cost p_cost passphrase salt (Z.to_nat key_size)).

(** One chunk, hashed with its index. *)
Definition hash_chunk (index : Z) (chunk : list Z) : list Z := sha256 (to_be_bytes 4 index ++ chunk).

Fixpoint diffuse_chunks (index : Z) (chunks : list (list Z)) : res Luks2Error (list (list Z)) :=
  match chunks with
  | [] => Ok []
  | c :: chunks =>
      i ← ok_or (try_from 32 index) (InvalidField (ustr "too many AF chunks"));
      rest ← diffuse_chunks (index + 1) chunks;
      Ok (hash_chunk i c :: rest)
  end.

Definition af_diffuse (data : list Z) : res Luks2Error (list Z) :=
  let '(chunks, remainder) := as_chunks SHA256_LEN data in
  chunks' ← diffuse_chunks 0 chunks;
  match remainder with
  | [] => Ok (concat chunks')
  | _ =>
      i ← ok_or (try_from 32 (zlen chunks)) (InvalidField (ustr "too many AF chunks"));
      prefix ← ok_or (slice 0 (length remainder) (hash_chunk i remainder))
                 (InvalidField (ustr "hash shorter than remainder"));
      Ok (concat chunks' ++ prefix)
  end.

(** The random stripes, one [getrandom::fill] each. *)
Fixpoint fill_stripes {R} `{Random R} (r : R) (key_len n : nat) : res Luks2Error (list (list Z) * R) :=
  match n with
  | O => Ok ([], r)
  | S n =>
      '(s, r) ← ok_or (fill r key_len) (InvalidField (ustr "random generation failed"));
      '(rest, r) ← fill_stripes r key_len n;
      Ok (s :: rest, r)
  end.

(** The running digest over a list of stripes, each but the last diffused. *)
Definition absorb (diffusion stripe : list Z) : list Z :=
  zip_with Z.lxor diffusion stripe ++ drop (length stripe) diffusion.
Definition diffuse_stripes (diffusion : list Z) (ss : list (list Z)) : res Luks2Error (list Z) :=
  foldM (λ d s, af_diffuse (absorb d s)) diffusion ss.

(** A chunk size of zero makes [chunks_exact_mut] panic. *)
Definition af_split {R} `{Random R} (key : list Z) (stripes : Z) (r : R)
    : res Luks2Error (list Z * R) :=
  let key_size := zlen key in
  stripes ← ok_or (try_from 64 stripes) (InvalidField (ustr "invalid stripe count"));
  total ← ok_or (checked_mul 64 key_size stripes) (InvalidField (ustr "AF split size overflow"));
  if key_size =? 0 then Panic else
  '(random, r) ← fill_stripes r (length key) (Z.to_nat (saturating_sub stripes 1));
  diffusion ← diffuse_stripes (zeros (length key)) random;
  if stripes =? 0 then Err (InvalidField (ustr "missing last stripe"))
  else Ok (concat random ++ xor_bytes key diffusion, r).

Fixpoint merge_stripes (index stripes : Z) (diffusion : list Z) (ss : list (list Z))
    : res Luks2Error (list Z) :=
  match ss with
  | [] => Ok diffusion
  | s :: ss =>
      let d := absorb diffusion s in
      d ← (if index <? saturating_sub stripes 1 then af_diffuse d else Ok d);
      merge_stripes (index + 1) stripes d ss
  end.

Definition af_merge (data : list Z) (key_size stripes : Z) : res Luks2Error (list Z) :=
  stripes ← ok_or (try_from 64 stripes) (InvalidField (ustr "invalid stripe count"));
  expected_len ← ok_or (checked_mul 64 key_size stripes) (InvalidField (ustr "AF merge size overflow"));
  if bool_decide (zlen data ≠ expected_len) then Err (InvalidField (ustr "AF data size mismatch")) else
  if key_size =? 0 then Panic else
  merge_stripes 0 stripes (zeros (Z.to_nat key_size)) (chunks_exact (Z.to_nat key_size) data).

Definition encrypt_keyslot {R} `{Random R} (passphrase volume_key : list Z) (k : Keyslot) (r : R)
    : res Luks2Error (list Z * R) :=
  derived_key ← derive_key passphrase k;
  '(striped, r) ← af_split volume_key (stripes (af k)) r;
  data ← xts_encrypt derived_key (zeros 16) striped;
  Ok (data, r).

Definition decrypt_keyslot (passphrase : list Z) (k : Keyslot) (encrypted_data : list Z)
    : res Luks2Error (list Z) :=
  derived_key ← derive_key passphrase k;
  data ← xts_decrypt derived_key (zeros 16) encrypted_data;
  key_size ← ok_or (try_from 64 (key_size k)) (InvalidField (ustr "invalid key size"));
  af_merge data key_size (stripes (af k)).
End keyslot.

(** ** Lemmas on blocks *)

Lemma chunks_fuel_tail {A} (n : nat) (ls : list (list A)) (rest : list A) (fuel : nat) :
  Forall (λ c, length c = n) ls → (length rest < n)%nat → (length ls ≤ fuel)%nat →
  chunks_fuel fuel n (concat ls ++ rest) = ls.
Proof.
  intros Hls Hr. revert fuel. induction Hls as [|c ls Hc _ IH]; intros fuel Hf; cbn [concat].
  - destruct fuel; cbn [chunks_fuel app]; [done|]. case_bool_decide; [lia|done].
  - destruct fuel; cbn [chunks_fuel length] in *; [lia|]. rewrite <-app_assoc.
    rewrite bool_decide_eq_true_2 by (rewrite length_app; lia).
    rewrite take_app_length', drop_app_length' by done. f_equal. apply IH. lia.
Qed.

(** Blocks and a shorter remainder are what [as_chunks] returns. *)
Lemma as_chunks_concat (n : nat) (ls : list (list Z)) (rest : list Z) :
  Forall (λ c, length c = n) ls → (length rest < n)%nat →
  as_chunks n (concat ls ++ rest) = (ls, rest).
Proof.
  intros Hls Hr. unfold as_chunks, chunks_exact.
  assert (length (concat ls) = (length ls * n)%nat) as Hl by by apply length_concat_const.
  rewrite (chunks_fuel_tail n) by (try done; rewrite length_app, Hl; nia). f_equal.
  replace (length (concat ls ++ rest) / n)%nat with (length ls).
  { apply drop_app_length'. lia. }
  rewrite length_app, Hl. apply (Nat.div_unique _ _ _ (length rest)); lia.
Qed.

Lemma as_chunks_split (n : nat) (data : list Z) :
  (0 < n)%nat → ∃ ls rest, data = concat ls ++ rest ∧ Forall (λ c, length c = n) ls ∧ (length rest < n)%nat.
Proof.
  intros Hn. remember (length data) as m eqn:Hm. revert data Hm.
  induction (lt_wf m) as [m _ IH]. intros data ->.
  destruct (decide (length data < n)%nat) as [Hlt|Hge]; [by exists [], data|].
  destruct (IH (length (drop n data)) ltac:(rewrite length_drop; lia) (drop n data) eq_refl)
    as (ls & rest & E & Hls & Hr).
  exists (take n data :: ls), rest. cbn [concat]. rewrite <-app_assoc, <-E, take_drop.
  split_and!; [done| |done]. constructor; [rewrite length_take; lia|done].
Qed.

Lemma lxor_lxor a b : Z.lxor (Z.lxor a b) b = a.
Proof. by rewrite Z.lxor_assoc, Z.lxor_nilpotent, Z.lxor_0_r. Qed.

Lemma xor_xor (a b : list Z) : (length a ≤ length b)%nat → xor_bytes (xor_bytes a b) b = a.
Proof.
  unfold xor_bytes. revert b. induction a as [|x a IH]; intros [|y b] Hl; simpl in *; [done..|lia|].
  rewrite lxor_lxor, IH by lia. done.
Qed.

Lemma xor_bytes_comm a b : xor_bytes a b = xor_bytes b a.
Proof.
  unfold xor_bytes. revert b. induction a as [|x a IH]; intros [|y b]; simpl; [done..|].
  by rewrite Z.lxor_comm, IH.
Qed.

Lemma length_xor_bytes a b : length (xor_bytes a b) = Nat.min (length a) (length b).
Proof. apply length_zip_with. Qed.

Lemma xor_block_eq block tweak : length block = length tweak → xor_block block tweak = xor_bytes block tweak.
Proof. intros Hl. unfold xor_block. rewrite drop_ge by lia. by rewrite app_nil_r. Qed.

Lemma length_shift_bytes bs carry : length (shift_bytes carry bs).1 = length bs.
Proof.
  revert carry. induction bs as [|b bs IH]; intros carry; [done|]. cbn [shift_bytes].
  specialize (IH (Z.shiftr b 7)). destruct (shift_bytes _ bs). simpl in *. lia.
Qed.

Lemma length_gf128_mul_x t : length (gf128_mul_x t) = length t.
Proof.
  unfold gf128_mul_x. pose proof (length_shift_bytes t 0) as Hl.
  destruct (shift_bytes 0 t) as [s c]. cbn [fst] in Hl. case_match; [|done]. by destruct s.
Qed.

(** ** XTS *)

Section xts_proofs.
Context `{Aes256Laws}.

Lemma xts_block_inv key1 tweak b :
  length b = 16%nat → length tweak = 16%nat →
  length (xts_block Encrypt key1 tweak b) = 16%nat ∧
  xts_block Decrypt key1 tweak (xts_block Encrypt key1 tweak b) = b.
Proof.
  intros Hb Ht. unfold xts_block.
  rewrite (xor_block_eq b) by lia.
  assert (length (xor_bytes b tweak) = 16%nat) as H1 by (rewrite length_xor_bytes; lia).
  pose proof (encrypt_block_length key1 _ H1) as H2.
  rewrite (xor_block_eq (encrypt_block _ _)) by lia.
  assert (length (xor_bytes (encrypt_block key1 (xor_bytes b tweak)) tweak) = 16%nat) as H3
    by (rewrite length_xor_bytes; lia).
  split; [done|]. rewrite (xor_block_eq (xor_bytes _ tweak)) by lia.
  rewrite xor_xor, decrypt_encrypt by (done || lia).
  rewrite xor_block_eq, xor_xor by lia. done.
Qed.

Lemma xts_blocks_inv key1 blocks : ∀ tweak,
  Forall (λ b, length b = 16%nat) blocks → length tweak = 16%nat →
  Forall (λ b, length b = 16%nat) (xts_blocks Encrypt key1 tweak blocks) ∧
  xts_blocks Decrypt key1 tweak (xts_blocks Encrypt key1 tweak blocks) = blocks ∧
  length (xts_blocks Encrypt key1 tweak blocks) = length blocks.
Proof.
  induction blocks as [|b blocks IH]; intros tweak Hbs Ht; [by repeat constructor|].
  apply Forall_cons in Hbs as [Hb Hbs]. cbn [xts_blocks length].
  destruct (xts_block_inv key1 tweak b Hb Ht) as [? ->].
  destruct (IH (gf128_mul_x tweak) Hbs) as (? & -> & ->); [by rewrite length_gf128_mul_x|].
  split_and!; [by constructor|done..].
Qed.

Lemma xts_process_concat mode key tweak blocks rest :
  length key = 64%nat → Forall (λ b, length b = 16%nat) blocks → blocks ≠ [] → (length rest < 16)%nat →
  xts_process key tweak (concat blocks ++ rest) mode =
  Ok (concat (xts_blocks mode (take 32 key) (encrypt_block (drop 32 key) tweak) blocks) ++ rest).
Proof.
  intros Hk Hbs Hne Hr. unfold xts_process, AES_BLOCK_SIZE.
  rewrite bool_decide_eq_false_2 by (intros Hn; by apply Hn).
  assert (16 ≤ length (concat blocks ++ rest))%nat as Hlen.
  { rewrite length_app, (length_concat_const 16) by done. destruct blocks; [done|cbn [length]; lia]. }
  destruct (Nat.ltb_spec (length (concat blocks ++ rest)) 16); [lia|].
  rewrite !slice_ok by lia. cbn [ok_or mbind res_bind].
  rewrite as_chunks_concat by done. do 3 f_equal. rewrite drop_0.
  by rewrite (take_ge (drop 32 key)) by (rewrite length_drop; lia).
Qed.

(** The cipher's two directions, with the part of the data that it changes. *)
Lemma xts_encrypt_decrypt key tweak data :
  length key = 64%nat → length tweak = 16%nat → (16 ≤ length data)%nat →
  ∃ c, xts_encrypt key tweak data = Ok c ∧ length c = length data ∧
    xts_decrypt key tweak c = Ok data ∧
    drop (length data / 16 * 16) c = drop (length data / 16 * 16) data.
Proof.
  intros Hk Ht Hd. destruct (as_chunks_split 16 data) as (bs & rest & -> & Hbs & Hr); [lia|].
  assert (bs ≠ []) as Hne by (intros ->; simpl in Hd; lia).
  assert (length (encrypt_block (drop 32 key) tweak) = 16%nat) as Htw
    by by apply encrypt_block_length.
  unfold xts_encrypt, xts_decrypt. rewrite (xts_process_concat Encrypt) by done.
  eexists. split; [done|].
  destruct (xts_blocks_inv (take 32 key) bs _ Hbs Htw) as (Hes & Hinv & Hlen).
  set (es := xts_blocks Encrypt _ _ bs) in *.
  assert (length (concat bs) = (length bs * 16)%nat) as Hlb by by apply length_concat_const.
  assert (length (concat es) = (length bs * 16)%nat) as Hle
    by (rewrite <-Hlen; by apply length_concat_const).
  rewrite (xts_process_concat Decrypt), Hinv by (try done; intros E; rewrite E in Hlen; by destruct bs).
  rewrite !length_app, Hlb, Hle. split_and!; [done..|].
  replace ((length bs * 16 + length rest) / 16)%nat with (length bs)
    by (apply (Nat.div_unique _ _ _ (length rest)); lia).
  by rewrite !drop_app_length' by lia.
Qed.
End xts_proofs.

(** ** The splitter *)

Section af_proofs.
Context `{Sha256Laws}.

Lemma length_hash_chunk i c : length (hash_chunk i c) = 32%nat.
Proof. apply sha256_length. Qed.

Lemma diffuse_chunks_ok chunks : ∀ index,
  0 ≤ index → index + zlen chunks ≤ 2 ^ 32 →
  ∃ cs, diffuse_chunks index chunks = Ok cs ∧ length cs = length chunks ∧
    Forall (λ c, length c = 32%nat) cs.
Proof.
  induction chunks as [|c chunks IH]; intros index Hi Hm; [by eexists []|].
  rewrite (zlen_app [c]) in Hm || change (zlen (c :: chunks)) with (zlen ([c] ++ chunks)) in Hm.
  rewrite zlen_app in Hm. change (zlen [c]) with 1 in Hm. pose proof (zlen_nonneg chunks).
  cbn [diffuse_chunks]. rewrite try_from_ok by ulia. cbn [ok_or mbind res_bind].
  destruct (IH (index + 1)) as (cs & -> & Hl & Hf); [lia..|]. cbn [mbind res_bind].
  eexists. split; [done|]. cbn [length]. split; [lia|]. constructor; [apply length_hash_chunk|done].
Qed.

(** Keys up to the 32-bit chunk counter's range are diffused, length kept. *)
Lemma af_diffuse_ok data :
  zlen data < 2 ^ 37 → ∃ d, af_diffuse data = Ok d ∧ length d = length data.
Proof.
  intros Hd. destruct (as_chunks_split 32 data) as (cs & rest & -> & Hcs & Hr); [lia|].
  unfold af_diffuse, SHA256_LEN. rewrite as_chunks_concat by done.
  assert (length (concat cs) = (length cs * 32)%nat) as Hlc by by apply length_concat_const.
  rewrite zlen_app in Hd. unfold zlen in Hd. rewrite Hlc in Hd.
  destruct (diffuse_chunks_ok cs 0) as (cs' & -> & Hl & Hf); [lia|unfold zlen; lia|].
  assert (length (concat cs') = (length cs * 32)%nat) as Hlc'
    by (rewrite <-Hl; by apply length_concat_const).
  cbn [mbind res_bind]. destruct rest as [|x rest'] eqn:Er.
  - eexists. split; [done|]. rewrite length_app, Hlc, Hlc'. simpl. lia.
  - rewrite <-Er in *. rewrite try_from_ok by (unfold zlen; ulia). cbn [ok_or mbind res_bind].
    rewrite slice_ok by (rewrite length_hash_chunk; lia). cbn [ok_or mbind res_bind].
    eexists. split; [done|]. rewrite !length_app, Hlc, Hlc', length_take, length_drop, length_hash_chunk. lia.
Qed.

Lemma absorb_eq d s : length s = length d → absorb d s = xor_bytes d s.
Proof. intros Hl. unfold absorb. rewrite drop_ge by lia. by rewrite app_nil_r. Qed.

Lemma diffuse_stripes_ok ss : ∀ d,
  zlen d < 2 ^ 37 → Forall (λ s, length s = length d) ss →
  ∃ d', diffuse_stripes d ss = Ok d' ∧ length d' = length d.
Proof.
  induction ss as [|s ss IH]; intros d Hd Hss; [by eexists|].
  apply Forall_cons in Hss as [Hs Hss]. unfold diffuse_stripes. cbn [foldM].
  assert (length (absorb d s) = length d) as Ha.
  { rewrite absorb_eq by done. rewrite length_xor_bytes. lia. }
  destruct (af_diffuse_ok (absorb d s)) as (d1 & -> & H1); [by unfold zlen in *; rewrite Ha|].
  cbn [mbind res_bind]. rewrite Ha in H1.
  destruct (IH d1) as (d' & E & Hl); [by unfold zlen in *; rewrite H1|by rewrite H1|].
  exists d'. split; [exact E|lia].
Qed.

(** Merging the diffused stripes and the last one gives the key. *)
Lemma merge_stripes_split key stripes ss : ∀ index d dn,
  0 ≤ index → index + zlen ss = stripes - 1 → length key = length dn →
  diffuse_stripes d ss = Ok dn →
  merge_stripes index stripes d (ss ++ [xor_bytes key dn]) = Ok key.
Proof.
  induction ss as [|s ss IH]; intros index d dn Hpos Hi Hk Hdn.
  - cbn in Hdn. simplify_eq. cbn [app merge_stripes]. change (zlen []) with 0 in Hi.
    assert (index <? saturating_sub stripes 1 = false) as -> by (unfold saturating_sub; lia).
    cbn [mbind res_bind]. rewrite absorb_eq by (rewrite length_xor_bytes; lia). f_equal.
    rewrite xor_bytes_comm. apply xor_xor. lia.
  - rewrite (zlen_app [s] ss : zlen (s :: ss) = _) in Hi.
    change (zlen [s]) with 1 in Hi. pose proof (zlen_nonneg ss). cbn [app merge_stripes].
    assert (index <? saturating_sub stripes 1 = true) as -> by (unfold saturating_sub; lia).
    unfold diffuse_stripes in Hdn. cbn [foldM] in Hdn. apply bind_Ok in Hdn as (d1 & E1 & Hdn).
    rewrite E1. cbn [mbind res_bind]. apply IH; [lia..|done|exact Hdn].
Qed.

(** A random source that never fails. *)
Definition never_fails (R : Type) `{Random R} : Prop := ∀ r n, is_Some (fill r n).

Lemma fill_stripes_inv {R} `{RandomLaws R} key_len n : ∀ r ss r',
  fill_stripes r key_len n = Ok (ss, r') → length ss = n ∧ Forall (λ s, length s = key_len) ss.
Proof.
  induction n as [|n IH]; intros r ss r' E; cbn [fill_stripes] in E; [by simplify_eq|].
  inv_ok. destruct v as [s r1]. inv_ok. destruct v as [rest r2]. simplify_eq.
  apply IH in Hv0 as [<- Hf]. apply fill_length in Hv as [Hs _]. split; [done|by constructor].
Qed.

Lemma fill_stripes_ok {R} `{Random R} key_len n : ∀ r,
  never_fails R → ∃ ss r', fill_stripes r key_len n = Ok (ss, r').
Proof.
  induction n as [|n IH]; intros r Hn; [by eexists [], r|]. cbn [fill_stripes].
  destruct (Hn r key_len) as [[s r1] E]. rewrite E. cbn [ok_or mbind res_bind].
  destruct (IH r1 Hn) as (ss & r2 & ->). cbn [mbind res_bind]. eauto.
Qed.

(** What a successful split is made of. *)
Lemma af_split_inv {R} `{RandomLaws R} key stripes (r r' : R) data :
  0 < zlen key < 2 ^ 32 → af_split key stripes r = Ok (data, r') →
  zlen data = zlen key * stripes ∧ af_merge data (zlen key) stripes = Ok key.
Proof.
  intros Hk E. unfold af_split, af_merge in *.
  apply bind_Ok in E as (st & Est & E). rewrite Est. cbn [mbind res_bind].
  apply ok_or_Ok, try_from_Some in Est as [-> Hst].
  apply bind_Ok in E as (total & Et & E). apply ok_or_Ok in Et. rewrite Et. cbn [ok_or mbind res_bind].
  apply checked_mul_Some in Et as [-> _].
  assert (zlen key =? 0 = false) as Hk0 by lia. rewrite Hk0 in *.
  apply bind_Ok in E as ([ss r1] & Ef & E). apply fill_stripes_inv in Ef as [Hl Hf].
  destruct (diffuse_stripes_ok ss (zeros (length key))) as (dn & Hdn & Hdl).
  { unfold zlen in *. rewrite length_zeros. lia. }
  { by rewrite length_zeros. }
  rewrite length_zeros in Hdl. rewrite Hdn in E. cbn [mbind res_bind] in E.
  destruct (Z.eqb_spec stripes 0) as [|Hne]; [done|]. simplify_eq.
  assert (concat ss ++ xor_bytes key dn = concat (ss ++ [xor_bytes key dn])) as Ec
    by (rewrite concat_app; simpl; by rewrite app_nil_r).
  assert (Forall (λ s, length s = length key) (ss ++ [xor_bytes key dn])) as Hall.
  { apply Forall_app. split; [done|]. repeat constructor. rewrite length_xor_bytes. lia. }
  assert (zlen (concat ss ++ xor_bytes key dn) = zlen key * stripes) as Hlen.
  { rewrite Ec. unfold zlen. rewrite (length_concat_const (length key)) by done.
    rewrite length_app, Hl. cbn [length]. unfold saturating_sub. nia. }
  split; [done|]. rewrite Hlen, bool_decide_eq_false_2 by (intros Hx; by apply Hx).
  unfold zlen at 1 2. rewrite !Nat2Z.id, Ec, chunks_exact_concat by (done || (unfold zlen in Hk; lia)).
  apply merge_stripes_split; [lia| |lia|done]. unfold zlen. rewrite Hl. unfold saturating_sub. lia.
Qed.

Lemma af_split_ok {R} `{RandomLaws R} key stripes (r : R) :
  never_fails R → is_u32 stripes → 0 < stripes → 0 < zlen key < 2 ^ 32 →
  ∃ data r', af_split key stripes r = Ok (data, r').
Proof.
  intros Hn Hs Hpos Hk. unfold af_split.
  assert (is_u64 stripes) by ulia. rewrite try_from_ok by done. cbn [ok_or mbind res_bind].
  assert (checked_mul 64 (zlen key) stripes = Some (zlen key * stripes)) as ->.
  { apply checked_mul_Some. split; [done|]. ulia || (uint_unfold; nia). }
  cbn [ok_or mbind res_bind]. assert (zlen key =? 0 = false) as -> by lia.
  destruct (fill_stripes_ok (length key) (Z.to_nat (saturating_sub stripes 1)) r Hn) as (ss & r' & E).
  rewrite E. cbn [mbind res_bind]. apply fill_stripes_inv in E as [_ Hf].
  destruct (diffuse_stripes_ok ss (zeros (length key))) as (dn & -> & _).
  { unfold zlen in *. rewrite length_zeros. lia. }
  { by rewrite length_zeros. }
  cbn [mbind res_bind]. assert (stripes =? 0 = false) as -> by lia. by eexists _, _.
Qed.
End af_proofs.

(** ** Theorems *)

Section theorems.
Context `{Aes256Laws}.

(** XTS with a 64-byte key and at least one block: decryption inverts
    encryption, lengths are kept, and the bytes after the last whole block are
    not encrypted. *)
Theorem xts_roundtrip key tweak data :
  length key = 64%nat → length tweak = 16%nat → (16 ≤ length data)%nat →
  ∃ c, xts_encrypt key tweak data = Ok c ∧ length c = length data ∧
    xts_decrypt key tweak c = Ok data ∧
    drop (length data / 16 * 16) c = drop (length data / 16 * 16) data.
Proof. apply xts_encrypt_decrypt. Qed.

Context `{Sha256Laws} `{Argon2idLaws} `{Base64Laws} {R} `{RandomLaws R}.

(** The splitter for every choice of random stripes. *)
Theorem af_roundtrip key stripes (r : R) :
  never_fails R → is_u32 stripes → 0 < stripes → 0 < zlen key < 2 ^ 32 →
  ∃ data r', af_split key stripes r = Ok (data, r') ∧ zlen data = zlen key * stripes ∧
    af_merge data (zlen key) stripes = Ok key.
Proof.
  intros Hn Hs Hpos Hk. destruct (af_split_ok key stripes r Hn Hs Hpos Hk) as (data & r' & E).
  exists data, r'. split; [done|]. by eapply af_split_inv.
Qed.

(** What a keyslot needs to hold a key of 64 bytes. *)
Record keyslot_ok (k : Keyslot) : Prop := {
  slot_kdf : kdf_type (kdf k) = ustr "argon2id";
  slot_size : key_size k = 64;
  slot_stripes : is_u32 (stripes (af k)) ∧ 0 < stripes (af k);
}.

Lemma derive_key_length pass k d :
  derive_key pass k = Ok d → key_size k = 64 → length d = 64%nat.
Proof.
  unfold derive_key. intros E Hs. rewrite Hs in E. case_bool_decide; [done|].
  inv_ok. match goal with E : argon2 _ _ _ _ _ _ = Ok _ |- _ => apply argon2_length in E; rename E into El end.
  assert (try_from 64 64 = Some 64) as Ht by done. rewrite Ht in *. simplify_eq. exact El.
Qed.

(** A keyslot's data opens with the passphrase it was made with. *)
Lemma encrypt_keyslot_inv pass key k (r r' : R) data :
  key_size k = 64 → length key = 64%nat → encrypt_keyslot pass key k r = Ok (data, r') →
  zlen data = 64 * stripes (af k) ∧ decrypt_keyslot pass k data = Ok key.
Proof.
  intros Hsize Hkey E. unfold encrypt_keyslot, decrypt_keyslot in *.
  apply bind_Ok in E as (d & Hd & E). rewrite Hd. cbn [mbind res_bind].
  apply bind_Ok in E as ([striped r1] & Es & E). apply bind_Ok in E as (c & Ec & E). simplify_eq.
  apply af_split_inv in Es as [Hl Hm]; [|unfold zlen; lia].
  unfold zlen in Hl, Hm. rewrite Hkey in Hl, Hm.
  pose proof (derive_key_length _ _ _ Hd Hsize) as Hdl.
  assert (16 ≤ length striped)%nat as Hge.
  { unfold xts_encrypt, xts_process, AES_BLOCK_SIZE in Ec. case_bool_decide; [done|].
    by destruct (Nat.ltb_spec (length striped) 16). }
  destruct (xts_encrypt_decrypt d (zeros 16) striped) as (c' & Ec' & Hcl & Hdec & _); [done..|].
  rewrite Ec' in Ec. simplify_eq. unfold zlen. rewrite Hcl. split; [lia|].
  rewrite Hdec. cbn [mbind res_bind]. rewrite Hsize. change (try_from 64 64) with (Some 64).
  cbn [ok_or mbind res_bind]. exact Hm.
Qed.

Lemma encrypt_keyslot_ok pass key k d (r : R) :
  never_fails R → keyslot_ok k → length key = 64%nat → derive_key pass k = Ok d →
  ∃ data r', encrypt_keyslot pass key k r = Ok (data, r').
Proof.
  intros Hn [Hkdf Hsize [Hst Hpos]] Hkey Hd. unfold encrypt_keyslot. rewrite Hd. cbn [mbind res_bind].
  destruct (af_split_ok key (stripes (af k)) r) as (striped & r' & E); [done..|unfold zlen; lia|].
  rewrite E. cbn [mbind res_bind]. apply af_split_inv in E as [Hl _]; [|unfold zlen; lia].
  unfold zlen in Hl. pose proof (derive_key_length _ _ _ Hd Hsize) as Hdl.
  destruct (xts_encrypt_decrypt d (zeros 16) striped) as (c & -> & _); [done..|lia|].
  cbn [mbind res_bind]. eauto.
Qed.

(** A volume key put in a keyslot under a passphrase is recovered with it. *)
Theorem keyslot_roundtrip pass key k d (r : R) :
  never_fails R → keyslot_ok k → length key = 64%nat → derive_key pass k = Ok d →
  ∃ data r', encrypt_keyslot pass key k r = Ok (data, r') ∧
    zlen data = 64 * stripes (af k) ∧ decrypt_keyslot pass k data = Ok key.
Proof.
  intros Hn Hok Hkey Hd. destruct (encrypt_keyslot_ok pass key k d r Hn Hok Hkey Hd) as (data & r' & E).
  exists data, r'. split; [done|]. eapply encrypt_keyslot_inv; [apply Hok|done..].
Qed.
End theorems.

(** ** Concrete primitives *)

Module Demo.
#[local] Instance demo_sha : Sha256 := λ bs, replicate 32 (zlen bs mod 256).
#[local] Instance demo_sha_laws : Sha256Laws.
Proof.
  split; intros bs; unfold sha256, demo_sha; [apply length_replicate|].
  apply Forall_replicate. apply Z.mod_pos_bound. lia.
Qed.

(** A block cipher: the block is reversed and masked with the key's first byte. *)
#[local] Instance demo_aes : Aes256 := {|
  encrypt_block key b := (λ x, Z.lxor x (hd 0 key)) <$> rev b;
  decrypt_block key b := rev ((λ x, Z.lxor x (hd 0 key)) <$> b);
|}.
#[local] Instance demo_aes_laws : Aes256Laws.
Proof.
  split; intros key b Hb; unfold encrypt_block, decrypt_block, demo_aes.
  - by rewrite length_fmap, length_rev.
  - rewrite <-list_fmap_compose. rewrite <-(rev_involutive b) at 2. f_equal.
    rewrite <-(list_fmap_id (rev b)) at 2. apply list_fmap_ext. intros i x _. apply lxor_lxor.
Qed.

#[local] Instance demo_argon : Argon2id := λ m t p pass salt n, Ok (replicate n (zlen pass mod 256)).
#[local] Instance demo_argon_laws : Argon2idLaws.
Proof. intros m t p pass salt n k [= <-]. apply length_replicate. Qed.

#[local] Instance demo_base64 : Base64 := {| encode_string bs := bs; decode_vec s := Ok s |}.
#[local] Instance demo_base64_laws : Base64Laws.
Proof. done. Qed.

#[local] Instance demo_random : Random Z := λ r n, Some (replicate n (r mod 256), r + 1).
#[local] Instance demo_random_laws : RandomLaws Z.
Proof.
  intros r n bs r' [= <- _]. split; [apply length_replicate|].
  apply Forall_replicate. apply Z.mod_pos_bound. lia.
Qed.

Definition slot : Keyslot :=
  {| slot_type := ustr "luks2"; key_size := 64;
     kdf := {| kdf_type := ustr "argon2id"; kdf_salt := [1; 2; 3]; time := Some 1; memory := None; cpus := Some 4 |};
     af := {| af_type := ustr "luks1"; stripes := 5; af_hash := ustr "sha256" |};
     area := {| area_type := ustr "raw"; area_offset := ustr "32768"; area_size := ustr "320";
                encryption := ustr "aes-xts-plain64"; area_key_size := 64 |} |}.

Lemma xts_roundtrip_witness :
  ∃ c, xts_encrypt (replicate 64 7) (zeros 16) (seqZ 0 37) = Ok c ∧ length c = length (seqZ 0 37) ∧
    xts_decrypt (replicate 64 7) (zeros 16) c = Ok (seqZ 0 37) ∧
    drop (length (seqZ 0 37) / 16 * 16) c = drop (length (seqZ 0 37) / 16 * 16) (seqZ 0 37).
Proof. apply (xts_roundtrip (replicate 64 7) (zeros 16) (seqZ 0 37)); [done..|]. rewrite length_seqZ. lia. Defined.

Lemma af_roundtrip_witness :
  ∃ data r', af_split (seqZ 3 40) 4 10 = Ok (data, r') ∧ zlen data = zlen (seqZ 3 40) * 4 ∧
    af_merge data (zlen (seqZ 3 40)) 4 = Ok (seqZ 3 40).
Proof.
  apply (af_roundtrip (R := Z) (seqZ 3 40) 4 10).
  - intros r n. by eexists.
  - ulia.
  - lia.
  - unfold zlen. rewrite length_seqZ. lia.
Defined.

Lemma keyslot_roundtrip_witness :
  ∃ data r', encrypt_keyslot (str_bytes "secret") (replicate 64 200) slot 10 = Ok (data, r') ∧
    zlen data = 64 * stripes (af slot) ∧ decrypt_keyslot (str_bytes "secret") slot data = Ok (replicate 64 200).
Proof.
  apply (keyslot_roundtrip (R := Z) (str_bytes "secret") (replicate 64 200) slot (replicate 64 6) 10).
  - intros r n. by eexists.
  - split; [done..|]. split; [by vm_compute|done].
  - done.
  - reflexivity.
Defined.
End Demo.
