(* ===== verification/LuksDm.v ===== *)
(** The device-mapper side of LUKS2 (libs/luks2/src/dm): the ioctl structures
    (abi.rs), the table of the crypt target (table.rs) and the life of a mapping
    (crypt.rs).

    The kernel is the class [DmKernel]; [DmKernelLaws] gives the mappings
    it holds. The theorems: the layout of a table buffer, what an opened mapping
    is, and what is left behind when opening fails. *)

From stdpp Require Import gmap.
From S2P Require Import Prelude Io Utf Text Str LuksHeader.

(** ** Structures (abi.rs), little-endian with C layout *)

Definition DEFAULT_SECTOR_SIZE : Z := 4096.
Definition DM_NAME_LEN : nat := 128.
Definition DM_UUID_LEN : nat := 129.
Definition DM_VERSION : list Z := [4; 0; 0].
Definition DM_CONTROL_PATH : ustring := ustr "/dev/mapper/control".
Definition DM_TABLE_BUF_SIZE : Z := 0x4000.
Definition TARGET_TYPE : list Z := str_bytes "crypt".

Record DmIoctl := {
  dm_version : list Z; dm_data_size : Z; dm_data_start : Z; dm_target_count : Z;
  dm_open_count : Z; dm_flags : Z; dm_event_nr : Z; dm_padding : Z; dm_dev : Z;
  dm_name : list Z; dm_uuid : list Z; dm_data : list Z
}.

Record DmTargetSpec := {
  sector_start : Z; spec_length : Z; spec_status : Z; spec_next : Z; target_type : list Z
}.

Definition sizeof_DmIoctl : Z := 312.
Definition sizeof_DmTargetSpec : Z := 40.

Definition dm_ioctl_bytes (h : DmIoctl) : list Z :=
  (dm_version h ≫= to_le_bytes 4) ++ to_le_bytes 4 (dm_data_size h) ++ to_le_bytes 4 (dm_data_start h)
  ++ to_le_bytes 4 (dm_target_count h) ++ to_le_bytes 4 (dm_open_count h mod 2 ^ 32)
  ++ to_le_bytes 4 (dm_flags h) ++ to_le_bytes 4 (dm_event_nr h) ++ to_le_bytes 4 (dm_padding h)
  ++ to_le_bytes 8 (dm_dev h) ++ dm_name h ++ dm_uuid h ++ dm_data h.

Definition dm_target_spec_bytes (t : DmTargetSpec) : list Z :=
  to_le_bytes 8 (sector_start t) ++ to_le_bytes 8 (spec_length t)
  ++ to_le_bytes 4 (spec_status t mod 2 ^ 32) ++ to_le_bytes 4 (spec_next t) ++ target_type t.

Definition usize_to_u32 (value : Z) : res Luks2Error Z :=
  ok_or (try_from 32 value) (InvalidField (ustr "value exceeds u32")).

Definition ioctl_header_size_u32 : res Luks2Error Z := usize_to_u32 sizeof_DmIoctl.

Definition dm_copy_prefix (dst src : list Z) : list Z :=
  let prefix_len := Nat.min (length dst) (length src) in
  take prefix_len src ++ drop prefix_len dst.

(** The last byte of the destination is not written. *)
Definition copy_c_string (dst src : list Z) : list Z :=
  let n := (length dst - 1)%nat in
  dm_copy_prefix (take n dst) src ++ drop n dst.

Definition with_name (name : ustring) (data_size : Z) : res Luks2Error DmIoctl :=
  data_start ← ioctl_header_size_u32;
  Ok {| dm_version := DM_VERSION; dm_data_size := data_size; dm_data_start := data_start;
        dm_target_count := 0; dm_open_count := 0; dm_flags := 0; dm_event_nr := 0; dm_padding := 0;
        dm_dev := 0; dm_name := copy_c_string (zeros DM_NAME_LEN) (utf8 name);
        dm_uuid := zeros DM_UUID_LEN; dm_data := zeros 7 |}.

Definition with_name_and_uuid (name uuid : ustring) (data_size : Z) : res Luks2Error DmIoctl :=
  h ← with_name name data_size;
  Ok {| dm_version := dm_version h; dm_data_size := dm_data_size h; dm_data_start := dm_data_start h;
        dm_target_count := dm_target_count h; dm_open_count := dm_open_count h; dm_flags := dm_flags h;
        dm_event_nr := dm_event_nr h; dm_padding := dm_padding h; dm_dev := dm_dev h;
        dm_name := dm_name h; dm_uuid := copy_c_string (dm_uuid h) (utf8 uuid); dm_data := dm_data h |}.

(** ** The table (table.rs) *)

Record CryptParams := {
  cp_name : ustring; cp_dm_uuid : ustring; backing_device : ustring; volume_key : list Z;
  cipher : ustring; offset_sectors : Z; size_sectors : Z; cp_sector_size : Z
}.

(** [base16ct::lower]. *)
Class Base16 := hex_encode : list Z → ustring.
Class Base16Laws `{Base16} : Prop :=
  hex_encode_digits bs :
    zlen (hex_encode bs) = 2 * zlen bs ∧ Forall (λ c, 48 ≤ c ≤ 57 ∨ 97 ≤ c ≤ 102) (hex_encode bs).

Definition write_bytes (buffer : list Z) (offset : Z) (src : list Z) : res Luks2Error (list Z) :=
  end_ ← ok_or (checked_add 64 offset (zlen src)) (InvalidField (ustr "buffer write overflow"));
  _ ← ok_or (slice (Z.to_nat offset) (Z.to_nat end_) buffer)
        (InvalidField (ustr "buffer write out of bounds"));
  Ok (splice (Z.to_nat offset) src buffer).

Definition write_byte (buffer : list Z) (offset value : Z) : res Luks2Error (list Z) :=
  _ ← ok_or (get buffer offset) (InvalidField (ustr "buffer byte write out of bounds"));
  Ok (<[Z.to_nat offset := value]> buffer).

Definition table_params_string (params : CryptParams) (key_hex : ustring) : ustring :=
  let sp := ustr " " in
  if cp_sector_size params =? 512 then
    cipher params ++ sp ++ key_hex ++ ustr " 0 " ++ backing_device params ++ sp
    ++ decimal (offset_sectors params) ++ ustr " 2 allow_discards no_read_workqueue"
  else
    cipher params ++ sp ++ key_hex ++ ustr " 0 " ++ backing_device params ++ sp
    ++ decimal (offset_sectors params) ++ ustr " 3 allow_discards sector_size:"
    ++ decimal (cp_sector_size params) ++ ustr " no_read_workqueue".

Section table.
Context `{Base16}.

Definition build_buffer (params : CryptParams) : res Luks2Error (list Z) :=
  let params_bytes := utf8 (table_params_string params (hex_encode (volume_key params))) in
  let target_spec_size := sizeof_DmTargetSpec in
  let header_size := sizeof_DmIoctl in
  next_offset ← ok_or (v ← checked_add 64 target_spec_size (zlen params_bytes); checked_add 64 v 1)
                  (InvalidField (ustr "dm table target size overflow"));
  total_size ← ok_or (checked_add 64 header_size next_offset)
                 (InvalidField (ustr "dm table buffer size overflow"));
  let buffer_size := Z.max total_size DM_TABLE_BUF_SIZE in
  let buffer := zeros (Z.to_nat buffer_size) in
  data_size ← usize_to_u32 buffer_size;
  h ← with_name (cp_name params) data_size;
  let header :=
    {| dm_version := dm_version h; dm_data_size := dm_data_size h; dm_data_start := dm_data_start h;
       dm_target_count := 1; dm_open_count := dm_open_count h; dm_flags := dm_flags h;
       dm_event_nr := dm_event_nr h; dm_padding := dm_padding h; dm_dev := dm_dev h;
       dm_name := dm_name h; dm_uuid := dm_uuid h; dm_data := dm_data h |} in
  buffer ← write_bytes buffer 0 (dm_ioctl_bytes header);
  next ← usize_to_u32 next_offset;
  let target :=
    {| sector_start := 0; spec_length := size_sectors params; spec_status := 0; spec_next := next;
       target_type := dm_copy_prefix (zeros 16) TARGET_TYPE |} in
  buffer ← write_bytes buffer header_size (dm_target_spec_bytes target);
  params_offset ← ok_or (checked_add 64 header_size target_spec_size)
                    (InvalidField (ustr "dm params offset overflow"));
  buffer ← write_bytes buffer params_offset params_bytes;
  terminator ← ok_or (checked_add 64 params_offset (zlen params_bytes))
                 (InvalidField (ustr "dm params terminator overflow"));
  write_byte buffer terminator 0.
End table.

(** ** Mappings (crypt.rs) *)

(** The kernel: the control device, its ioctls and the device nodes. A call
    gives its result or an error number. *)
Class DmKernel (K : Type) := {
  open_control : K → (unit + Z) * K;
  dm_dev_create : DmIoctl → K → (DmIoctl + Z) * K;
  dm_dev_suspend : DmIoctl → K → (DmIoctl + Z) * K;
  dm_dev_remove : DmIoctl → K → (DmIoctl + Z) * K;
  dm_table_load : list Z → K → (unit + Z) * K;
  path_exists : ustring → K → bool;
  mknod_block : ustring → Z → K → (unit + Z) * K;
  remove_file : ustring → K → (unit + Z) * K;
}.
Class ErrnoDisplay := errno_display : Z → ustring.

Section crypt.
Context {K : Type} `{DmKernel K} `{ErrnoDisplay} `{Base16}.

(** Kernel calls keep the state when they fail. *)
Definition kio (A : Type) : Type := K → res Luks2Error A * K.
Definition kret {A} (r : res Luks2Error A) : kio A := λ k, (r, k).
Definition kbind {A B} (m : kio A) (f : A → kio B) : kio B := λ k,
  match m k with
  | (Ok a, k) => f a k
  | (Err e, k) => (Err e, k)
  | (Panic, k) => (Panic, k)
  end.

Definition call {A} (what : ustring) (f : K → (A + Z) * K) : kio A := λ k,
  let '(r, k) := f k in
  (match r with inl a => Ok a | inr e => Err (DeviceMapper (what ++ errno_display e)) end, k).

Definition open_fd : kio unit :=
  call (ustr "failed to open " ++ DM_CONTROL_PATH ++ ustr ": ") open_control.

Definition remove_device (name : ustring) : kio unit :=
  kbind (kret (s ← ioctl_header_size_u32; with_name name s)) (λ h,
  kbind (call (ustr "DM_DEV_REMOVE failed: ") (dm_dev_remove h)) (λ _, kret (Ok tt))).

Definition load_table (params : CryptParams) : kio unit :=
  kbind (kret (build_buffer params)) (λ buffer,
  call (ustr "DM_TABLE_LOAD failed: ") (dm_table_load buffer)).

Definition mapper_path (name : ustring) : ustring := ustr "/dev/mapper/" ++ name.

Definition ensure_dev_node (name : ustring) (dev : Z) : kio unit := λ k,
  if path_exists (mapper_path name) k then (Ok tt, k)
  else call (ustr "mknod " ++ mapper_path name ++ ustr " failed: ") (mknod_block (mapper_path name) dev) k.

(** On failure of [m], the mapping is removed and the failure kept. *)
Definition or_remove {A} (name : ustring) (m : kio A) : kio A := λ k,
  match m k with
  | (Err e, k) => (Err e, (remove_device name k).2)
  | r => r
  end.

Definition open_with_fd (params : CryptParams) : kio unit :=
  kbind (kret (s ← ioctl_header_size_u32; with_name_and_uuid (cp_name params) (cp_dm_uuid params) s)) (λ h,
  kbind (call (ustr "DM_DEV_CREATE failed: ") (dm_dev_create h)) (λ _,
  kbind (or_remove (cp_name params) (load_table params)) (λ _,
  kbind (kret (s ← ioctl_header_size_u32; with_name (cp_name params) s)) (λ h,
  kbind (or_remove (cp_name params)
           (call (ustr "DM_DEV_SUSPEND (resume) failed: ") (dm_dev_suspend h))) (λ resumed,
  ensure_dev_node (cp_name params) (dm_dev resumed)))))).

Definition crypt_open (params : CryptParams) : kio unit := kbind open_fd (λ _, open_with_fd params).

Definition close_with_fd (name : ustring) : kio unit :=
  kbind (remove_device name) (λ _ k, (Ok tt, (remove_file (mapper_path name) k).2)).

Definition crypt_close (name : ustring) : kio unit := kbind open_fd (λ _, close_with_fd name).
End crypt.

(** ** The buffer *)

Definition params_bytes `{Base16} (params : CryptParams) : list Z :=
  utf8 (table_params_string params (hex_encode (volume_key params))).

Definition table_size `{Base16} (params : CryptParams) : Z :=
  Z.max (353 + zlen (params_bytes params)) DM_TABLE_BUF_SIZE.

Definition table_header `{Base16} (params : CryptParams) : DmIoctl :=
  {| dm_version := DM_VERSION; dm_data_size := table_size params; dm_data_start := 312;
     dm_target_count := 1; dm_open_count := 0; dm_flags := 0; dm_event_nr := 0; dm_padding := 0;
     dm_dev := 0; dm_name := copy_c_string (zeros DM_NAME_LEN) (utf8 (cp_name params));
     dm_uuid := zeros DM_UUID_LEN; dm_data := zeros 7 |}.

Definition table_target `{Base16} (params : CryptParams) : DmTargetSpec :=
  {| sector_start := 0; spec_length := size_sectors params; spec_status := 0;
     spec_next := 41 + zlen (params_bytes params); target_type := dm_copy_prefix (zeros 16) TARGET_TYPE |}.

(** The structures one after the other, the parameters ended by a zero byte. *)
Definition table_image `{Base16} (params : CryptParams) : list Z :=
  dm_ioctl_bytes (table_header params) ++ dm_target_spec_bytes (table_target params)
  ++ params_bytes params ++ zeros (Z.to_nat (table_size params - 352 - zlen (params_bytes params))).

Lemma length_dm_copy_prefix dst src : length (dm_copy_prefix dst src) = length dst.
Proof. unfold dm_copy_prefix. rewrite length_app, length_take, length_drop. lia. Qed.

Lemma length_copy_c_string dst src : length (copy_c_string dst src) = length dst.
Proof.
  unfold copy_c_string. rewrite length_app, length_dm_copy_prefix, length_take, length_drop. lia.
Qed.

Lemma length_ioctl_bytes h :
  length (dm_version h) = 3%nat → length (dm_name h) = 128%nat → length (dm_uuid h) = 129%nat →
  length (dm_data h) = 7%nat → length (dm_ioctl_bytes h) = 312%nat.
Proof.
  intros Hv Hn Hu Hd. unfold dm_ioctl_bytes. rewrite !length_app, !length_to_le_bytes, Hn, Hu, Hd.
  by destruct (dm_version h) as [|a [|b [|c [|]]]].
Qed.

Lemma length_target_spec_bytes t :
  length (target_type t) = 16%nat → length (dm_target_spec_bytes t) = 40%nat.
Proof.
  intros Ht. unfold dm_target_spec_bytes. by rewrite !length_app, !length_to_le_bytes, Ht.
Qed.

(** Writing at the front of the zeroed rest. *)
Lemma write_bytes_next pre n offset src :
  offset = zlen pre → (length src ≤ n)%nat → zlen pre + zlen src < 2 ^ 64 →
  write_bytes (pre ++ zeros n) offset src = Ok ((pre ++ src) ++ zeros (n - length src)).
Proof.
  intros -> Hn Hmax. unfold write_bytes.
  assert (checked_add 64 (zlen pre) (zlen src) = Some (zlen pre + zlen src)) as ->
    by (apply checked_add_Some; split; [done|ulia]).
  cbn [ok_or mbind res_bind].
  rewrite slice_ok by (rewrite length_app, length_zeros; unfold zlen; lia). cbn [ok_or mbind res_bind].
  unfold zlen. rewrite Nat2Z.id, (splice_gap _ 0) by lia. cbn [app]. do 3 f_equal. lia.
Qed.

Lemma write_byte_next pre n offset :
  offset = zlen pre → (0 < n)%nat → write_byte (pre ++ zeros n) offset 0 = Ok (pre ++ zeros n).
Proof.
  intros -> Hn. unfold write_byte, get, zlen. rewrite Nat2Z.id.
  rewrite lookup_app_r, Nat.sub_diag by lia. destruct n as [|n]; [lia|].
  change (zeros (S n) !! 0%nat) with (Some 0). cbn [ok_or mbind res_bind].
  f_equal. apply list_insert_id. by rewrite lookup_app_r, Nat.sub_diag by lia.
Qed.

Section layout.
Context `{Base16}.

Lemma build_buffer_image params :
  353 + zlen (params_bytes params) < 2 ^ 32 → build_buffer params = Ok (table_image params).
Proof.
  intros Hlen. pose proof (zlen_nonneg (params_bytes params)) as Hpos.
  unfold build_buffer. fold (params_bytes params).
  unfold sizeof_DmTargetSpec, sizeof_DmIoctl.
  assert (checked_add 64 40 (zlen (params_bytes params)) = Some (40 + zlen (params_bytes params))) as ->
    by (apply checked_add_Some; split; [done|ulia]). cbn [mbind option_bind].
  assert (checked_add 64 (40 + zlen (params_bytes params)) 1 = Some (41 + zlen (params_bytes params))) as ->
    by (apply checked_add_Some; split; [lia|ulia]). cbn [ok_or mbind res_bind].
  assert (checked_add 64 312 (41 + zlen (params_bytes params)) = Some (353 + zlen (params_bytes params))) as ->
    by (apply checked_add_Some; split; [lia|ulia]). cbn [ok_or mbind res_bind].
  fold (table_size params). assert (is_u32 (table_size params)) as Hts
    by (unfold table_size, DM_TABLE_BUF_SIZE; ulia).
  assert (usize_to_u32 (table_size params) = Ok (table_size params)) as ->
    by (unfold usize_to_u32; by rewrite (try_from_ok _ _ Hts)). cbn [mbind res_bind].
  unfold with_name. change ioctl_header_size_u32 with (@Ok Luks2Error Z 312). cbn [mbind res_bind].
  cbn [dm_version dm_data_size dm_data_start dm_open_count dm_flags dm_event_nr dm_padding dm_dev dm_name
    dm_uuid dm_data]. fold (table_header params).
  assert (length (dm_ioctl_bytes (table_header params)) = 312%nat) as Hh.
  { apply length_ioctl_bytes; try done. cbn [table_header dm_name]. by rewrite length_copy_c_string. }
  assert (353 + zlen (params_bytes params) ≤ table_size params) as Hts' by (unfold table_size; lia).
  assert (length (dm_target_spec_bytes (table_target params)) = 40%nat) as Ht
    by by apply length_target_spec_bytes.
  assert (usize_to_u32 (41 + zlen (params_bytes params)) = Ok (41 + zlen (params_bytes params))) as ->
    by (unfold usize_to_u32; rewrite try_from_ok; [done|ulia]). cbn [mbind res_bind].
  fold (table_target params). unfold table_image.
  revert Hh Ht. generalize (dm_ioctl_bytes (table_header params)) as hb.
  generalize (dm_target_spec_bytes (table_target params)) as tb. intros tb hb Hh Ht.
  assert (zlen hb = 312) as Hzh by (unfold zlen; lia). assert (zlen tb = 40) as Hzt by (unfold zlen; lia).
  revert Hlen Hpos Hts Hts'. generalize (params_bytes params) as pb. generalize (table_size params) as ts.
  intros ts pb Hlen Hpos Hts Hts'.
  set (n := Z.to_nat ts). change (zeros n) with ([] ++ zeros n).
  rewrite write_bytes_next; [|done|unfold n, zlen in *; lia|rewrite Hzh; unfold zlen; simpl; lia].
  cbn [mbind res_bind app]. rewrite write_bytes_next; [|lia|unfold n, zlen in *; lia|lia].
  cbn [mbind res_bind]. change (checked_add 64 312 40) with (Some 352). cbn [ok_or mbind res_bind].
  rewrite write_bytes_next; [|rewrite zlen_app; lia|unfold n, zlen in *; lia|rewrite zlen_app; lia].
  cbn [mbind res_bind].
  assert (checked_add 64 352 (zlen pb) = Some (352 + zlen pb)) as ->
    by (apply checked_add_Some; split; [done|ulia]). cbn [ok_or mbind res_bind].
  rewrite write_byte_next; [|rewrite !zlen_app; lia|unfold n, zlen in *; lia].
  rewrite <-!app_assoc. do 5 f_equal. unfold n, zlen in *. lia.
Qed.
End layout.

(** ** What the kernel promises *)

Record mapping := Mapping { m_uuid : list Z; m_table : option (list Z); m_live : bool }.

(** The name field of a table buffer. *)
Definition table_name (buf : list Z) : list Z := take DM_NAME_LEN (drop 48 buf).

(** The documented effect of each call on the set of mappings: a failing call
    changes none, and a mapping that exists can be removed. *)
Class DmKernelLaws (K : Type) `{DmKernel K} := {
  mappings : K → gmap (list Z) mapping;
  control_same k r k' : open_control k = (r, k') → mappings k' = mappings k;
  create_ok h k h' k' :
    dm_dev_create h k = (inl h', k') →
    mappings k !! dm_name h = None ∧ mappings k' = <[dm_name h := Mapping (dm_uuid h) None false]> (mappings k);
  create_err h k e k' : dm_dev_create h k = (inr e, k') → mappings k' = mappings k;
  load_ok buf k k' :
    dm_table_load buf k = (inl tt, k') →
    mappings k' = alter (λ m, Mapping (m_uuid m) (Some buf) (m_live m)) (table_name buf) (mappings k);
  load_err buf k e k' : dm_table_load buf k = (inr e, k') → mappings k' = mappings k;
  resume_ok h k h' k' :
    dm_dev_suspend h k = (inl h', k') → dm_flags h = 0 →
    mappings k' = alter (λ m, Mapping (m_uuid m) (m_table m) true) (dm_name h) (mappings k);
  resume_err h k e k' : dm_dev_suspend h k = (inr e, k') → mappings k' = mappings k;
  remove_exists h k : is_Some (mappings k !! dm_name h) → ∃ h' k', dm_dev_remove h k = (inl h', k');
  remove_ok h k h' k' : dm_dev_remove h k = (inl h', k') → mappings k' = delete (dm_name h) (mappings k);
  remove_err h k e k' : dm_dev_remove h k = (inr e, k') → mappings k' = mappings k;
  mknod_same p d k r k' : mknod_block p d k = (r, k') → mappings k' = mappings k;
  remove_file_same p k r k' : remove_file p k = (r, k') → mappings k' = mappings k;
}.

(** The name as the kernel sees it: at most 127 bytes, padded with zeros. *)
Definition kernel_name (name : ustring) : list Z := copy_c_string (zeros DM_NAME_LEN) (utf8 name).
Definition kernel_uuid (u : ustring) : list Z := copy_c_string (zeros DM_UUID_LEN) (utf8 u).

Section mapping_proofs.
Context {K : Type} `{DmKernelLaws K} `{ErrnoDisplay} `{Base16}.

Lemma table_name_image params : table_name (table_image params) = kernel_name (cp_name params).
Proof.
  unfold table_name, table_image, dm_ioctl_bytes.
  cbn [table_header dm_version dm_data_size dm_data_start dm_target_count dm_open_count dm_flags
    dm_event_nr dm_padding dm_dev dm_name dm_uuid dm_data].
  fold (kernel_name (cp_name params)). assert (length (kernel_name (cp_name params)) = DM_NAME_LEN) as Hl
    by by apply length_copy_c_string.
  rewrite <-!app_assoc.
  repeat match goal with |- context [to_le_bytes ?n ?z ++ _] =>
    let b := fresh "b" in let Hb := fresh "Hb" in
    pose proof (length_to_le_bytes n z) as Hb; set (b := to_le_bytes n z) in *; clearbody b end.
  change (DM_VERSION ≫= to_le_bytes 4) with [4; 0; 0; 0; 0; 0; 0; 0; 0; 0; 0; 0].
  match goal with |- context [drop 48 ?l] =>
    match l with context [kernel_name ?n ++ ?r] => set (rest := r) end end.
  match goal with |- take _ (drop 48 (?l)) = _ => idtac end.
  rewrite !app_assoc, <-(app_assoc _ (kernel_name _)).
  rewrite drop_app_length' by (rewrite !length_app; cbn [length]; lia).
  by apply take_app_length'.
Qed.

Lemma remove_device_spec name k :
  is_Some (mappings k !! kernel_name name) →
  mappings (remove_device name k).2 = delete (kernel_name name) (mappings k).
Proof.
  intros Hs. unfold remove_device, kbind, kret, with_name, call.
  change ioctl_header_size_u32 with (@Ok Luks2Error Z 312). cbn [mbind res_bind].
  match goal with |- context [dm_dev_remove ?h k] => set (hd := h) end.
  destruct (remove_exists hd k Hs) as (h' & k' & E). rewrite E. cbn. by apply remove_ok in E.
Qed.

(** A live mapping with the table of [params] was added. *)
Definition mapped (params : CryptParams) (k k' : K) : Prop :=
  mappings k !! kernel_name (cp_name params) = None ∧
  mappings k' = <[kernel_name (cp_name params) :=
    Mapping (kernel_uuid (cp_dm_uuid params)) (Some (table_image params)) true]> (mappings k).

(** [mknod] for the mapping's node failed as the last call. *)
Definition node_failed (params : CryptParams) (r : res Luks2Error unit) (k' : K) : Prop :=
  ∃ d k0 e, path_exists (mapper_path (cp_name params)) k0 = false ∧
    mknod_block (mapper_path (cp_name params)) d k0 = (inr e, k') ∧
    r = Err (DeviceMapper ((ustr "mknod " ++ mapper_path (cp_name params) ++ ustr " failed: ")
                             ++ errno_display e)).

Lemma ensure_dev_node_spec name dev k r k' :
  ensure_dev_node name dev k = (r, k') →
  mappings k' = mappings k ∧
  (r = Ok tt ∨ ∃ e, path_exists (mapper_path name) k = false ∧
     mknod_block (mapper_path name) dev k = (inr e, k') ∧
     r = Err (DeviceMapper ((ustr "mknod " ++ mapper_path name ++ ustr " failed: ") ++ errno_display e))).
Proof.
  unfold ensure_dev_node, call. destruct (path_exists _ k) eqn:Ep; [intros [= <- <-]; auto|].
  destruct (mknod_block _ dev k) as [[[]|e] k1] eqn:E; intros [= <- <-]; apply mknod_same in E as Hm; eauto 10.
Qed.

Lemma resume_spec params k0 k r k' :
  mappings k = <[kernel_name (cp_name params) :=
    Mapping (kernel_uuid (cp_dm_uuid params)) (Some (table_image params)) false]> (mappings k0) →
  mappings k0 !! kernel_name (cp_name params) = None →
  kbind (kret (s ← ioctl_header_size_u32; with_name (cp_name params) s)) (λ h,
  kbind (or_remove (cp_name params)
           (call (ustr "DM_DEV_SUSPEND (resume) failed: ") (dm_dev_suspend h))) (λ resumed,
  ensure_dev_node (cp_name params) (dm_dev resumed))) k = (r, k') →
  (∃ e, r = Err e ∧ mappings k' = mappings k0) ∨
  ((r = Ok tt ∨ node_failed params r k') ∧ mapped params k0 k').
Proof.
  intros Hk Hnone. unfold kbind at 1, kret, with_name.
  change ioctl_header_size_u32 with (@Ok Luks2Error Z 312). cbn [mbind res_bind].
  match goal with |- context [dm_dev_suspend ?h] => set (hd := h) end.
  unfold kbind, or_remove, call. destruct (dm_dev_suspend hd k) as [[h'|e] k2] eqn:E.
  - apply resume_ok in E; [|done]. rewrite Hk in E.
    intros Hr. apply ensure_dev_node_spec in Hr as [Hm Hr]. right. split.
    + destruct Hr as [->|(e & ? & ? & ?)]; [by left|right]. by exists (dm_dev h'), k2, e.
    + split; [done|]. rewrite Hm, E. change (dm_name hd) with (kernel_name (cp_name params)).
      by rewrite alter_insert_eq.
  - apply resume_err in E. intros [= <- <-]. left. eexists. split; [done|].
    rewrite remove_device_spec by (rewrite E, Hk, lookup_insert_eq; by eexists).
    by rewrite E, Hk, delete_insert_eq, delete_id.
Qed.

(** Opening either fails and leaves the mappings as they were, or adds a live
    mapping whose table is that of the parameters; in the second case it
    succeeds, or the device node could not be made. *)
Lemma open_with_fd_cases params k r k' :
  353 + zlen (params_bytes params) < 2 ^ 32 →
  open_with_fd params k = (r, k') →
  (∃ e, r = Err e ∧ mappings k' = mappings k) ∨
  ((r = Ok tt ∨ node_failed params r k') ∧ mapped params k k').
Proof.
  intros Hlen. unfold open_with_fd. unfold kbind at 1, kret at 1, with_name_and_uuid, with_name at 1.
  change ioctl_header_size_u32 with (@Ok Luks2Error Z 312) at 1 2. cbn [mbind res_bind].
  match goal with |- context [dm_dev_create ?h] => set (hd := h) end.
  unfold kbind at 1, call at 1. destruct (dm_dev_create hd k) as [[h'|e] k1] eqn:E.
  2: { apply create_err in E. intros [= <- <-]. left. by eexists. }
  apply create_ok in E as [Hnone E].
  change (dm_name hd) with (kernel_name (cp_name params)) in *.
  change (dm_uuid hd) with (kernel_uuid (cp_dm_uuid params)) in E.
  unfold kbind at 1, or_remove at 1, load_table, kret at 1, kbind at 1, call at 1.
  rewrite build_buffer_image by done.
  destruct (dm_table_load (table_image params) k1) as [[[]|e] k2] eqn:El.
  - apply load_ok in El. rewrite table_name_image, E, alter_insert_eq in El.
    by apply (resume_spec params k).
  - apply load_err in El. intros [= <- <-]. left. eexists. split; [done|].
    rewrite remove_device_spec by (rewrite El, E, lookup_insert_eq; by eexists).
    by rewrite El, E, delete_insert_eq, delete_id.
Qed.
End mapping_proofs.

(** ** Theorems *)

(** The buffer of DM_TABLE_LOAD: the ioctl header with the buffer's size, one
    target at 312, the parameter text at 352 ended by a zero byte, and the
    offset of the next target after it. *)
Theorem table_buffer_layout `{Base16} params :
  353 + zlen (params_bytes params) < 2 ^ 32 →
  ∃ buf, build_buffer params = Ok buf ∧ zlen buf = table_size params ∧
    slice 0 312 buf = Some (dm_ioctl_bytes (table_header params)) ∧
    slice 312 352 buf = Some (dm_target_spec_bytes (table_target params)) ∧
    (∃ n, drop 352 buf = params_bytes params ++ zeros (S n)).
Proof.
  intros Hlen. exists (table_image params). split; [by apply build_buffer_image|].
  assert (length (dm_ioctl_bytes (table_header params)) = 312%nat) as Hh.
  { apply length_ioctl_bytes; try done. cbn [table_header dm_name]. by rewrite length_copy_c_string. }
  assert (length (dm_target_spec_bytes (table_target params)) = 40%nat) as Ht
    by by apply length_target_spec_bytes.
  unfold table_image. revert Hh Ht. generalize (dm_ioctl_bytes (table_header params)) as hb.
  generalize (dm_target_spec_bytes (table_target params)) as tb. intros tb hb Hh Ht.
  assert (353 + zlen (params_bytes params) ≤ table_size params) as Hts by (unfold table_size; lia).
  revert Hts. generalize (table_size params) as ts, (params_bytes params) as pb. intros ts pb Hts.
  split_and!.
  - rewrite !zlen_app. unfold zlen in *. rewrite length_zeros. lia.
  - eapply (slice_mid 0 312 _ []); [done|simpl; lia..].
  - eapply (slice_mid 312 352 _ hb); [done|lia..].
  - exists (Z.to_nat (ts - 352 - zlen pb) - 1)%nat.
    rewrite app_assoc, drop_app_length' by (rewrite length_app; lia). do 2 f_equal. lia.
Qed.

Section mapping_theorems.
Context {K : Type} `{DmKernelLaws K} `{ErrnoDisplay} `{Base16}.

(** Opening and closing as transactions on the mappings: a failed open leaves
    them as they were unless the node in /dev/mapper could not be made, a
    successful one adds a live mapping with the table of the parameters, and a
    successful close removes it. *)
Theorem crypt_open_outcome params k r k' :
  353 + zlen (params_bytes params) < 2 ^ 32 → crypt_open params k = (r, k') →
  (∃ e, r = Err e ∧ mappings k' = mappings k) ∨
  ((r = Ok tt ∨ node_failed params r k') ∧ mapped params k k').
Proof.
  intros Hlen. unfold crypt_open, kbind at 1, open_fd, call at 1.
  destruct (open_control k) as [[[]|e] k1] eqn:E; apply control_same in E.
  - intros Hr. apply open_with_fd_cases in Hr; [|done]. unfold mapped in *. by rewrite <-E.
  - intros [= <- <-]. left. by eexists.
Qed.

Theorem crypt_close_removes name k r k' :
  crypt_close name k = (r, k') →
  (r = Ok tt ∧ mappings k' = delete (kernel_name name) (mappings k)) ∨
  (∃ e, r = Err e ∧ mappings k' = mappings k).
Proof.
  unfold crypt_close, kbind at 1, open_fd, call at 1.
  destruct (open_control k) as [[[]|e] k1] eqn:E; apply control_same in E.
  2: { intros [= <- <-]. right. by eexists. }
  unfold close_with_fd, kbind at 1, remove_device, kbind at 1 2, kret, with_name, call.
  change ioctl_header_size_u32 with (@Ok Luks2Error Z 312). cbn [mbind res_bind].
  match goal with |- context [dm_dev_remove ?h k1] => set (hd := h) end.
  destruct (dm_dev_remove hd k1) as [[h'|e] k2] eqn:Er.
  - apply remove_ok in Er. destruct (remove_file (mapper_path name) k2) as [rf k3] eqn:Ef.
    apply remove_file_same in Ef. intros [= <- <-]. left. cbn [snd]. by rewrite Ef, Er, E.
  - apply remove_err in Er. intros [= <- <-]. right. eexists. by rewrite Er, E.
Qed.
End mapping_theorems.

(** ** A kernel whose [mknod] may fail *)

Module Demo.
Record kernel := { maps : gmap (list Z) mapping; node_errno : option Z }.
Definition with_maps (k : kernel) m : kernel := {| maps := m; node_errno := node_errno k |}.
Definition on_mapping (h : DmIoctl) (f : mapping → mapping) (k : kernel) : (DmIoctl + Z) * kernel :=
  match maps k !! dm_name h with
  | None => (inr 6, k)
  | Some _ => (inl h, with_maps k (alter f (dm_name h) (maps k)))
  end.

#[local] Instance demo_kernel : DmKernel kernel := {|
  open_control k := (inl tt, k);
  dm_dev_create h k :=
    if bool_decide (maps k !! dm_name h = None)
    then (inl h, with_maps k (<[dm_name h := Mapping (dm_uuid h) None false]> (maps k)))
    else (inr 16, k);
  dm_dev_suspend h k :=
    if dm_flags h =? 0 then on_mapping h (λ m, Mapping (m_uuid m) (m_table m) true) k else (inr 22, k);
  dm_dev_remove h k :=
    match maps k !! dm_name h with
    | None => (inr 6, k)
    | Some _ => (inl h, with_maps k (delete (dm_name h) (maps k)))
    end;
  dm_table_load buf k :=
    match maps k !! table_name buf with
    | None => (inr 6, k)
    | Some _ => (inl tt, with_maps k
        (alter (λ m, Mapping (m_uuid m) (Some buf) (m_live m)) (table_name buf) (maps k)))
    end;
  path_exists _ _ := false;
  mknod_block _ _ k := (match node_errno k with Some e => inr e | None => inl tt end, k);
  remove_file _ k := (inl tt, k);
|}.

#[local] Instance demo_kernel_laws : DmKernelLaws kernel.
Proof.
  refine {| mappings := maps |}; try (intros; simpl in *; repeat case_match; by simplify_eq).
  - intros h k h' k'. simpl. case_bool_decide; [|done]. intros [= <- <-]. done.
  - intros h k h' k'. simpl. unfold on_mapping. intros E Hf. rewrite Hf in E. simpl in E.
    case_match; by simplify_eq.
  - intros h k e k'. simpl. unfold on_mapping. repeat case_match; intros; by simplify_eq.
  - intros h k [m Hm]. simpl. rewrite Hm. by eexists _, _.
Defined.

#[local] Instance demo_errno : ErrnoDisplay := decimal.
#[local] Instance demo_hex : Base16 := λ bs, bs ≫= λ b,
  let digit d := if d <? 10 then 48 + d else 87 + d in [digit (b / 16 mod 16); digit (b mod 16)].

Definition params : CryptParams :=
  {| cp_name := ustr "state"; cp_dm_uuid := ustr "CRYPT-LUKS2-0"; backing_device := ustr "/dev/vda3";
     volume_key := [1; 254]; cipher := ustr "aes-xts-plain64"; offset_sectors := 32768;
     size_sectors := 100; cp_sector_size := 4096 |}.

Example params_text :
  table_params_string params (hex_encode (volume_key params)) =
  ustr "aes-xts-plain64 01fe 0 /dev/vda3 32768 3 allow_discards sector_size:4096 no_read_workqueue".
Proof. reflexivity. Qed.

Lemma table_buffer_layout_witness :
  ∃ buf, build_buffer params = Ok buf ∧ zlen buf = table_size params ∧
    slice 0 312 buf = Some (dm_ioctl_bytes (table_header params)) ∧
    slice 312 352 buf = Some (dm_target_spec_bytes (table_target params)) ∧
    (∃ n, drop 352 buf = params_bytes params ++ zeros (S n)).
Proof. apply (table_buffer_layout params). reflexivity. Defined.

Definition fresh (e : option Z) : kernel := {| maps := ∅; node_errno := e |}.

(** The node cannot be made: the open fails and the mapping stays live. *)
Lemma crypt_open_outcome_witness :
  ∃ r k', crypt_open params (fresh (Some 28)) = (r, k') ∧ is_ok r = false ∧
    ((∃ e, r = Err e ∧ mappings k' = mappings (fresh (Some 28))) ∨
     ((r = Ok tt ∨ node_failed params r k') ∧ mapped params (fresh (Some 28)) k')).
Proof.
  destruct (crypt_open params (fresh (Some 28))) as [r k'] eqn:E. exists r, k'. split; [done|].
  split; [|apply (crypt_open_outcome params _ _ _); [reflexivity|exact E]].
  assert (is_ok (crypt_open params (fresh (Some 28))).1 = false) as Hf by (vm_compute; done).
  by rewrite E in Hf.
Defined.

(** A failed open that leaves a live mapping behind. *)
Theorem failed_open_leaves_mapping :
  (crypt_open params (fresh None)).1 = Ok tt ∧
  is_ok (crypt_open params (fresh (Some 28))).1 = false ∧
  (m_live <$> mappings (crypt_open params (fresh (Some 28))).2 !! kernel_name (cp_name params)) = Some true.
Proof. vm_compute. done. Qed.
End Demo.
