(* ===== verification/LuksMeta.v ===== *)
(** LUKS2 metadata and key digests (libs/luks2/src/metadata.rs, digest.rs,
    key.rs).

    The JSON codec, PBKDF2 and the iteration order of hash maps are classes. A
    hash map is a [gmap]; [hash_iter] takes a seed, since every map instance has
    its own order. *)

From stdpp Require Import gmap.
From S2P Require Import Prelude Io Utf Text Str LuksHeader LuksKeyslot.

(** ** Hash maps *)

Class HashIter := hash_iter : ∀ V : Type, Z → gmap (list Z) V → list (list Z * V).
Class HashIterLaws `{HashIter} : Prop :=
  hash_iter_perm V seed (m : gmap (list Z) V) : hash_iter V seed m ≡ₚ map_to_list m.

(** ** Metadata (metadata.rs) *)

Definition AF_STRIPES : Z := 4000.
Definition CIPHER_SPEC : ustring := ustr "aes-xts-plain64".
Definition DEFAULT_JSON_SIZE : Z := 12288.
Definition DEFAULT_KEYSLOT_AREA_OFFSET : Z := 0x8000.
Definition DEFAULT_KEYSLOT_AREA_SIZE : Z := 64 * 4000.
Definition DEFAULT_KEYSLOTS_SIZE : Z := 16744448.
Definition VOLUME_KEY_SIZE_U32 : Z := 64.

Record Tpm2Token := {
  token_type : ustring; token_keyslots : list ustring; tpm2_pcrs : list Z; tpm2_hash_alg : ustring;
  tpm2_blob : ustring; tpm2_policy_hash : ustring
}.

Record Segment := {
  segment_type : ustring; segment_offset : ustring; iv_tweak : ustring; segment_size : ustring;
  segment_encryption : ustring; segment_sector_size : Z
}.

Record Digest := {
  digest_type : ustring; digest_keyslots : list ustring; digest_segments : list ustring;
  digest_hash : ustring; iterations : Z; digest_salt : ustring; digest_value : ustring
}.

Record Config := { json_size : ustring; keyslots_size : ustring }.

Record Metadata (Value : Type) := {
  keyslots : gmap (list Z) Keyslot;
  tokens : gmap (list Z) Value;
  segments : gmap (list Z) Segment;
  digests : gmap (list Z) Digest;
  config : Config
}.
Arguments keyslots {_}. Arguments tokens {_}. Arguments segments {_}. Arguments digests {_}.
Arguments config {_}.

(** [serde_json], with its errors by their text. [value_type] is
    [value.get("type").and_then(as_str)]. *)
Class SerdeJson (Value : Type) := {
  to_vec_pretty : Metadata Value → res ustring (list Z);
  from_slice : list Z → res ustring (Metadata Value);
  to_value : Tpm2Token → res ustring Value;
  from_value : Value → res ustring Tpm2Token;
  value_type : Value → option ustring;
}.
(** [exact v]: no number of [v] loses digits in text. JSON text holds no zero
    byte, since strings escape it. *)
Class SerdeJsonLaws (Value : Type) `{SerdeJson Value} := {
  exact_value : Value → Prop;
  from_to_slice m bs : map_Forall (λ _, exact_value) (tokens m) → to_vec_pretty m = Ok bs → from_slice bs = Ok m;
  to_vec_nonzero m bs : to_vec_pretty m = Ok bs → 0 ∉ bs;
  to_value_ok t : ∃ v, to_value t = Ok v ∧ from_value v = Ok t ∧ value_type v = Some (token_type t)
                       ∧ exact_value v;
}.

(** [pbkdf2_hmac_array::<Sha256, 32>]: password, salt and rounds. *)
Class Pbkdf2 := pbkdf2 : list Z → list Z → Z → list Z.

Section token.
Context `{Base64}.
Definition new_token (pcrs blob policy_digest : list Z) : Tpm2Token :=
  {| token_type := ustr "tpm2"; token_keyslots := [ustr "0"]; tpm2_pcrs := pcrs;
     tpm2_hash_alg := ustr "sha256"; tpm2_blob := encode_string blob;
     tpm2_policy_hash := encode_string policy_digest |}.
Definition sealed_blob (t : Tpm2Token) : res Luks2Error (list Z) :=
  map_err LuksHeader.Base64 (decode_vec (tpm2_blob t)).
End token.

Section metadata.
Context {Value : Type} `{SerdeJson Value} `{HashIter} `{Base64}.

Definition new_metadata (sector_size : Z) : Metadata Value :=
  {| keyslots := ∅; tokens := ∅;
     segments := <[ustr "0" :=
       {| segment_type := ustr "crypt"; segment_offset := decimal DEFAULT_HEADER_SIZE;
          iv_tweak := ustr "0"; segment_size := ustr "dynamic"; segment_encryption := CIPHER_SPEC;
          segment_sector_size := sector_size |}]> ∅;
     digests := ∅;
     config := {| json_size := decimal DEFAULT_JSON_SIZE; keyslots_size := decimal DEFAULT_KEYSLOTS_SIZE |} |}.

Definition new_keyslot (salt : list Z) : Keyslot :=
  {| slot_type := ustr "luks2"; key_size := VOLUME_KEY_SIZE_U32;
     kdf := {| kdf_type := ustr "argon2id"; kdf_salt := encode_string salt; time := Some 1;
               memory := Some 0x10000; cpus := Some 4 |};
     af := {| af_type := ustr "luks1"; stripes := AF_STRIPES; af_hash := ustr "sha256" |};
     area := {| area_type := ustr "raw"; area_offset := decimal DEFAULT_KEYSLOT_AREA_OFFSET;
                area_size := decimal DEFAULT_KEYSLOT_AREA_SIZE; encryption := CIPHER_SPEC;
                area_key_size := VOLUME_KEY_SIZE_U32 |} |}.

Definition add_keyslot (m : Metadata Value) (id : ustring) (salt : list Z) : Metadata Value :=
  {| keyslots := <[id := new_keyslot salt]> (keyslots m); tokens := tokens m; segments := segments m;
     digests := digests m; config := config m |}.

Definition add_digest (m : Metadata Value) (id : ustring) (d : Digest) : Metadata Value :=
  {| keyslots := keyslots m; tokens := tokens m; segments := segments m;
     digests := <[id := d]> (digests m); config := config m |}.

Definition to_json_buffer (m : Metadata Value) (json_size : Z) : res Luks2Error (list Z) :=
  json ← map_err Json (to_vec_pretty m);
  json_size ← ok_or (try_from 64 json_size) (InvalidField (ustr "json size exceeds usize"));
  if json_size <? zlen json
  then Err (InvalidField (ustr "JSON size " ++ decimal (zlen json) ++ ustr " exceeds buffer size "
                            ++ decimal json_size))
  else
    let buf := zeros (Z.to_nat json_size) in
    _ ← ok_or (slice 0 (length json) buf) (InvalidField (ustr "json buffer too small"));
    Ok (splice 0 json buf).

Definition from_json_buffer (data : list Z) : res Luks2Error (Metadata Value) :=
  let end_ := default (length data) (position (λ byte, byte =? 0) data) in
  json ← ok_or (slice 0 end_ data) (InvalidField (ustr "json buffer end out of bounds"));
  map_err Json (from_slice json).

Definition is_tpm2 (v : Value) : bool := bool_decide (value_type v = Some (ustr "tpm2")).

(** The least decimal id that is free. The counter saturates, so a map with
    every 32-bit id would loop; more fuel than the map has entries suffices. *)
Fixpoint next_token_id (fuel : nat) (m : gmap (list Z) Value) (next_id : Z) : option ustring :=
  match m !! decimal next_id with
  | None => Some (decimal next_id)
  | Some _ => match fuel with
              | O => None
              | S fuel => next_token_id fuel m (saturating_add 32 next_id 1)
              end
  end.

Definition find_or_alloc_tpm2_token_id (seed : Z) (m : Metadata Value) : option ustring :=
  match list_find (λ p, is_tpm2 p.2 = true) (hash_iter _ seed (tokens m)) with
  | Some (_, (id, _)) => Some id
  | None => next_token_id (base.size (tokens m)) (tokens m) 0
  end.

(** [None] of the allocation is the endless loop. *)
Definition set_tpm2_token (seed : Z) (m : Metadata Value) (token : Tpm2Token)
    : res Luks2Error (Metadata Value) :=
  value ← map_err Json (to_value token);
  match find_or_alloc_tpm2_token_id seed m with
  | None => Panic
  | Some id =>
      Ok {| keyslots := keyslots m; tokens := <[id := value]> (tokens m); segments := segments m;
            digests := digests m; config := config m |}
  end.

Definition get_tpm2_token (seed : Z) (m : Metadata Value) : res Luks2Error Tpm2Token :=
  match list_find (λ p, is_tpm2 p.2 = true) (hash_iter _ seed (tokens m)) with
  | None => Err NoTpm2Token
  | Some (_, (_, value)) => map_err Json (from_value value)
  end.
End metadata.

(** ** Digests (digest.rs) *)

Definition DIGEST_ITERATIONS : Z := 1000.
Definition SALT_LEN : nat := 32.

Section digest.
Context `{Base64} `{Pbkdf2}.

Definition create_digest {R} `{Random R} (volume_key : list Z) (keyslot_ids segment_ids : list ustring) (r : R)
    : res Luks2Error (Digest * R) :=
  '(salt, r) ← ok_or (fill r SALT_LEN) (InvalidField (ustr "random generation failed"));
  let value := pbkdf2 volume_key salt DIGEST_ITERATIONS in
  Ok ({| digest_type := ustr "pbkdf2"; digest_keyslots := keyslot_ids; digest_segments := segment_ids;
         digest_hash := ustr "sha256"; iterations := DIGEST_ITERATIONS; digest_salt := encode_string salt;
         digest_value := encode_string value |}, r).

Definition verify_digest (volume_key : list Z) (d : Digest) : res Luks2Error bool :=
  if bool_decide (digest_type d ≠ ustr "pbkdf2")
  then Err (InvalidField (ustr "unsupported digest type: " ++ digest_type d))
  else
    salt ← map_err LuksHeader.Base64 (decode_vec (digest_salt d));
    expected ← map_err LuksHeader.Base64 (decode_vec (digest_value d));
    Ok (bool_decide (pbkdf2 volume_key salt (iterations d) = expected)).
End digest.

(** ** Key material (key.rs) *)

Definition GENERATE_LEN : nat := 64.
Definition generate {R} `{Random R} (r : R) : res Luks2Error (list Z * R) := ok_or (fill r GENERATE_LEN) Rng.

(** ** Lemmas *)

Lemma position_take f (l : list Z) n :
  position f l = Some n → Forall (λ x, f x = false) (take n l) ∧ (n < length l)%nat.
Proof.
  revert n. induction l as [|x l IH]; intros n; cbn [position]; [done|].
  destruct (f x) eqn:Ef; [intros [= <-]; split; [constructor|simpl; lia]|].
  destruct (position f l) as [m|] eqn:E; [|done]. intros [= <-].
  destruct (IH m eq_refl) as [Hf Hl]. split; [by constructor|simpl; lia].
Qed.

(** Zeros end the text. *)
Lemma position_zero (bs : list Z) n :
  0 ∉ bs → default (length bs + n)%nat (position (λ byte, byte =? 0) (bs ++ zeros n)) = length bs.
Proof.
  intros Hz. destruct n as [|n].
  - rewrite app_nil_r. assert (position (λ byte, byte =? 0) bs = None) as ->; [|simpl; lia].
    apply position_None, Forall_forall. intros x Hx. apply Z.eqb_neq. congruence.
  - change (zeros (S n)) with (0 :: zeros n).
    rewrite (position_app_first _ bs 0); [done| |done].
    apply Forall_forall. intros x Hx. apply Z.eqb_neq. congruence.
Qed.

Lemma decimal_inj a b : 0 ≤ a < 2 ^ 32 → 0 ≤ b < 2 ^ 32 → decimal a = decimal b → a = b.
Proof.
  intros Ha Hb E. pose proof (parse_decimal 32 a Ha ltac:(lia)) as Pa.
  pose proof (parse_decimal 32 b Hb ltac:(lia)) as Pb. rewrite E, Pb in Pa. congruence.
Qed.

Section metadata_proofs.
Context {Value : Type} `{SerdeJsonLaws Value} `{HashIterLaws} `{Base64Laws}.
Implicit Types m : Metadata Value.

(** The padded buffer of a metadata whose text fits. *)
Lemma to_json_buffer_ok m bs n :
  to_vec_pretty m = Ok bs → zlen bs ≤ n → is_u64 n →
  to_json_buffer m n = Ok (bs ++ zeros (Z.to_nat n - length bs)).
Proof.
  intros E Hl Hn. unfold to_json_buffer. rewrite E. cbn [map_err mbind res_bind].
  rewrite try_from_ok by done. cbn [ok_or mbind res_bind].
  assert (n <? zlen bs = false) as -> by lia. unfold zlen in Hl.
  rewrite slice_ok by (rewrite length_zeros; lia). cbn [ok_or mbind res_bind]. f_equal.
  change (zeros (Z.to_nat n)) with ([] ++ zeros (Z.to_nat n)).
  rewrite (splice_gap 0 0) by (simpl; lia). cbn [app]. do 2 f_equal. lia.
Qed.

Lemma from_json_buffer_padded m bs n :
  map_Forall (λ _, exact_value) (tokens m) → to_vec_pretty m = Ok bs →
  from_json_buffer (bs ++ zeros n) = Ok m.
Proof.
  intros Hex E. unfold from_json_buffer. rewrite length_app, length_zeros, position_zero
    by by eapply to_vec_nonzero.
  rewrite slice_ok by (rewrite length_app; lia). cbn [ok_or mbind res_bind].
  rewrite drop_0, Nat.sub_0_r, take_app_length. by rewrite (from_to_slice m bs).
Qed.

(** Among [fuel + 1] consecutive ids one is free in a map of [fuel] entries. *)
Lemma next_token_id_some (mp : gmap (list Z) Value) fuel : ∀ i,
  0 ≤ i → i + Z.of_nat fuel < 2 ^ 32 - 1 →
  next_token_id fuel mp i = None →
  ∀ j, i ≤ j ≤ i + Z.of_nat fuel → is_Some (mp !! decimal j).
Proof.
  induction fuel as [|fuel IH]; intros i Hi Hmax E j Hj; cbn [next_token_id] in E;
    destruct (mp !! decimal i) as [v|] eqn:Ei; try done.
  - replace j with i by lia. by eexists.
  - assert (saturating_add 32 i 1 = i + 1) as Hs by (unfold saturating_add, uint_max; lia).
    rewrite Hs in E. destruct (decide (j = i)) as [->|]; [by eexists|].
    apply (IH (i + 1)); [lia..|done|lia].
Qed.

Lemma next_token_id_total (mp : gmap (list Z) Value) :
  Z.of_nat (base.size mp) < 2 ^ 32 - 1 →
  ∃ id, next_token_id (base.size mp) mp 0 = Some id ∧ mp !! id = None.
Proof.
  intros Hsz. destruct (next_token_id (base.size mp) mp 0) as [id|] eqn:E.
  - exists id. split; [done|]. revert E. generalize 0. induction (base.size mp) as [|n IH]; intros i;
      cbn [next_token_id]; destruct (mp !! decimal i) eqn:Ei; try done; try (by intros [= <-]).
    apply IH. lia.
  - exfalso. assert (0 + Z.of_nat (base.size mp) < 2 ^ 32 - 1) as Hm by lia.
    pose proof (next_token_id_some mp (base.size mp) 0 ltac:(lia) Hm E) as Hall.
    set (ids := (decimal ∘ Z.of_nat) <$> seq 0 (S (base.size mp))).
    assert (NoDup ids) as Hnd.
    { apply NoDup_fmap_2_strong; [|apply NoDup_seq]. intros x y Hx%elem_of_seq Hy%elem_of_seq Exy.
      apply decimal_inj in Exy; lia. }
    assert (list_to_set ids ⊆ dom mp) as Hsub.
    { intros x Hx. apply elem_of_list_to_set in Hx. unfold ids in Hx.
      apply list_elem_of_fmap in Hx as (j & -> & Hj%elem_of_seq). apply elem_of_dom, Hall. lia. }
    apply subseteq_size in Hsub. rewrite size_list_to_set, size_dom in Hsub by done.
    unfold ids in Hsub. rewrite length_fmap, length_seq in Hsub. lia.
Qed.

(** At most one token is a TPM2 token. *)
Definition one_tpm2 m : Prop :=
  ∀ id1 id2 v1 v2, tokens m !! id1 = Some v1 → tokens m !! id2 = Some v2 →
    is_tpm2 v1 = true → is_tpm2 v2 = true → id1 = id2.

Lemma hash_find_Some (seed : Z) (mp : gmap (list Z) Value) (i : nat) (id : list Z) (v : Value) :
  list_find (λ p, is_tpm2 p.2 = true) (hash_iter _ seed mp) = Some (i, (id, v)) →
  mp !! id = Some v ∧ is_tpm2 v = true.
Proof.
  intros (Hi & Hv & _)%list_find_Some. split; [|done].
  apply elem_of_map_to_list. rewrite <-(hash_iter_perm _ seed). by eapply list_elem_of_lookup_2.
Qed.

Lemma hash_find_None (seed : Z) (mp : gmap (list Z) Value) (id : list Z) (v : Value) :
  list_find (λ p, is_tpm2 p.2 = true) (hash_iter _ seed mp) = None →
  mp !! id = Some v → is_tpm2 v = false.
Proof.
  intros E%list_find_None Hv. destruct (is_tpm2 v) eqn:Et; [|done]. exfalso.
  rewrite Forall_forall in E. apply (E (id, v)); [|done].
  rewrite (hash_iter_perm _ seed). by apply elem_of_map_to_list.
Qed.

(** Setting a token replaces the TPM2 token, or adds one under a free id. *)
Lemma set_tpm2_token_spec seed m t :
  token_type t = ustr "tpm2" → Z.of_nat (base.size (tokens m)) < 2 ^ 32 - 1 → one_tpm2 m →
  ∃ v id m', set_tpm2_token seed m t = Ok m' ∧ to_value t = Ok v ∧ from_value v = Ok t ∧
    is_tpm2 v = true ∧ exact_value v ∧
    m' = {| keyslots := keyslots m; tokens := <[id := v]> (tokens m); segments := segments m;
            digests := digests m; config := config m |} ∧
    ∀ id' v', id' ≠ id → tokens m !! id' = Some v' → is_tpm2 v' = false.
Proof.
  intros Ht Hsz Hone. destruct (to_value_ok t) as (v & Ev & Ef & Etype & Hex).
  assert (is_tpm2 v = true) as Hv by (apply bool_decide_eq_true_2; by rewrite Etype, Ht).
  unfold set_tpm2_token, find_or_alloc_tpm2_token_id. rewrite Ev. cbn [map_err mbind res_bind].
  destruct (list_find _ _) as [[i [id v0]]|] eqn:El.
  - apply hash_find_Some in El as [Hid Hv0]. eexists v, id, _. split_and!; [done..|].
    intros id' v' Hne Hid'. destruct (is_tpm2 v') eqn:E'; [|done].
    by destruct Hne; eapply Hone.
  - destruct (next_token_id_total (tokens m) Hsz) as (id & -> & Hfree).
    eexists v, id, _. split_and!; [done..|]. intros id' v' _ Hid'. by eapply hash_find_None.
Qed.

Lemma get_tpm2_token_unique seed m id v t :
  tokens m !! id = Some v → is_tpm2 v = true → from_value v = Ok t →
  (∀ id' v', tokens m !! id' = Some v' → is_tpm2 v' = true → v' = v) →
  get_tpm2_token seed m = Ok t.
Proof.
  intros Hid Hv Ef Huniq. unfold get_tpm2_token.
  destruct (list_find _ _) as [[i [id' v']]|] eqn:El.
  - apply hash_find_Some in El as [Hid' Hv']. rewrite (Huniq id' v' Hid' Hv'), Ef. done.
  - by rewrite (hash_find_None seed _ id v El Hid) in Hv.
Qed.

(** The token that was set is the one that is read, in every hash order. *)
Lemma set_get_tpm2_token s1 s2 m t :
  token_type t = ustr "tpm2" → Z.of_nat (base.size (tokens m)) < 2 ^ 32 - 1 → one_tpm2 m →
  map_Forall (λ _, exact_value) (tokens m) →
  ∃ m', set_tpm2_token s1 m t = Ok m' ∧ get_tpm2_token s2 m' = Ok t ∧ one_tpm2 m' ∧
    keyslots m' = keyslots m ∧ segments m' = segments m ∧ digests m' = digests m ∧
    config m' = config m ∧ map_Forall (λ _, exact_value) (tokens m').
Proof.
  intros Ht Hsz Hone Hex.
  destruct (set_tpm2_token_spec s1 m t Ht Hsz Hone) as (v & id & m' & E & _ & Ef & Hv & Hvx & -> & Hoth).
  eexists. split; [exact E|]. split_and!; [|intros id1 id2 v1 v2|done..|by apply map_Forall_insert_2].
  - apply (get_tpm2_token_unique s2 _ id v t); cbn [tokens]; [by rewrite lookup_insert_eq|done..|].
    intros id' v' Hid' Hv'. destruct (decide (id' = id)) as [->|Hne].
    + rewrite lookup_insert_eq in Hid'. congruence.
    + rewrite lookup_insert_ne in Hid' by done. by rewrite (Hoth id' v' Hne Hid') in Hv'.
  - cbn [tokens]. intros L1 L2 T1 T2. destruct (decide (id1 = id)) as [->|N1], (decide (id2 = id)) as [->|N2].
    + done.
    + rewrite lookup_insert_ne in L2 by done. by rewrite (Hoth id2 v2 N2 L2) in T2.
    + rewrite lookup_insert_ne in L1 by done. by rewrite (Hoth id1 v1 N1 L1) in T1.
    + rewrite lookup_insert_ne in L1 by done. by rewrite (Hoth id1 v1 N1 L1) in T1.
Qed.
End metadata_proofs.

Section digest_proofs.
Context `{Base64Laws} `{Pbkdf2} {R : Type} `{Random R}.

(** A digest accepts the key it was made from, and exactly the keys with the
    same PBKDF2 value. *)
Lemma create_digest_verify key ids segs (r r' : R) d :
  create_digest key ids segs r = Ok (d, r') →
  digest_keyslots d = ids ∧ verify_digest key d = Ok true ∧
  ∃ salt, digest_salt d = encode_string salt ∧
    ∀ key', verify_digest key' d = Ok (bool_decide (pbkdf2 key' salt 1000 = pbkdf2 key salt 1000)).
Proof.
  unfold create_digest. intros E. inv_ok. destruct v as [salt r1]. simplify_eq.
  cbn [digest_keyslots]. split; [done|].
  assert (∀ key', verify_digest key' {| digest_type := ustr "pbkdf2"; digest_keyslots := ids;
    digest_segments := segs; digest_hash := ustr "sha256"; iterations := DIGEST_ITERATIONS;
    digest_salt := encode_string salt; digest_value := encode_string (pbkdf2 key salt DIGEST_ITERATIONS) |}
    = Ok (bool_decide (pbkdf2 key' salt 1000 = pbkdf2 key salt 1000))) as Hall.
  { intros key'. unfold verify_digest. cbn [digest_type digest_salt digest_value iterations].
    rewrite bool_decide_eq_false_2 by (intros Hn; by apply Hn). by rewrite !decode_encode. }
  split; [by rewrite Hall, bool_decide_eq_true_2|]. eauto.
Qed.
End digest_proofs.
