(* ===== verification/LuksVolume.v ===== *)
(** LUKS2 volumes on a device (libs/luks2/src/dm/device.rs, lib.rs).

    The device is a block device of fixed size with a schedule of I/O faults: a
    failing write may have stored a prefix. The theorems: a formatted device is
    opened by its passphrase with the volume key it was formatted with, only a
    key that a digest accepts is ever used, tokens are read back, and the second
    copies of the metadata lie inside the data segment. *)

From stdpp Require Import gmap.
From S2P Require Import Prelude Io Utf Order Text Str LuksHeader LuksKeyslot LuksDm LuksMeta.

(** ** The device (dm/device.rs) *)

Record fault := { f_error : io_error; f_written : nat }.

(** [pbsz]: what opening the device for the BLKPBSZGET ioctl and the ioctl give;
    [schedule]: one entry per file access, a healthy access once it is used up. *)
Record Device := { content : list Z; pbsz : option (bool * Z); schedule : list (option fault) }.

Definition with_content (d : Device) (bs : list Z) : Device :=
  {| content := bs; pbsz := pbsz d; schedule := schedule d |}.

Definition next_access (d : Device) : option fault * Device :=
  match schedule d with
  | [] => (None, d)
  | f :: fs => (f, {| content := content d; pbsz := pbsz d; schedule := fs |})
  end.

(** Computations on a device keep its state when they fail. *)
Definition dio (A : Type) : Type := Device → res Luks2Error A * Device.
#[global] Instance dio_ret : MRet dio := λ A a d, (Ok a, d).
#[global] Instance dio_bind : MBind dio := λ A B f m d,
  match m d with
  | (Ok a, d) => f a d
  | (Err e, d) => (Err e, d)
  | (Panic, d) => (Panic, d)
  end.
Definition lift {A} (r : res Luks2Error A) : dio A := λ d, (r, d).

Definition EINVAL : Z := 22.
Definition ENOSPC : Z := 28.

(** Seeking past the end of a block device fails. *)
Definition read_at (offset len : Z) : dio (list Z) := λ d,
  let '(f, d) := next_access d in
  match f with
  | Some f => (Err (LuksIo (f_error f)), d)
  | None =>
      if zlen (content d) <? offset then (Err (LuksIo (OtherIo EINVAL)), d)
      else match slice (Z.to_nat offset) (Z.to_nat (offset + len)) (content d) with
           | Some bs => (Ok bs, d)
           | None => (Err (LuksIo UnexpectedEof), d)
           end
  end.

Definition write_at (offset : Z) (data : list Z) : dio unit := λ d,
  let '(f, d) := next_access d in
  let room := (length (content d) - Z.to_nat offset)%nat in
  let store n := with_content d (splice (Z.to_nat offset) (take (Nat.min n room) data) (content d)) in
  match f with
  | Some f => (Err (LuksIo (f_error f)), store (f_written f))
  | None =>
      if zlen (content d) <? offset then (Err (LuksIo (OtherIo EINVAL)), d)
      else if (room <? length data)%nat then (Err (LuksIo (OtherIo ENOSPC)), store (length data))
      else (Ok tt, store (length data))
  end.

Definition is_power_of_two (z : Z) : bool := (0 <? z) && (Z.land z (z - 1) =? 0).

Definition normalize_sector_size (result : bool) (size : Z) : Z :=
  if result && (512 <=? size) && is_power_of_two size then size else DEFAULT_SECTOR_SIZE.

Definition detect_sector_size : dio Z := λ d,
  (Ok match pbsz d with
      | None => DEFAULT_SECTOR_SIZE
      | Some (result, size) => normalize_sector_size result size
      end, d).

Definition device_size : dio Z := λ d,
  let '(f, d) := next_access d in
  match f with
  | Some f => (Err (LuksIo (f_error f)), d)
  | None => (Ok (zlen (content d)), d)
  end.

(** ** Operations (lib.rs) *)

Definition BINARY_HEADER_SIZE_U64 : Z := 4096.
Definition VOLUME_KEY_SIZE : nat := 64.

(** [uuid::Uuid::new_v4] as text, drawing on the random source. *)
Class NewUuid (R : Type) := new_v4 : R → ustring * R.
Class NewUuidLaws (R : Type) `{NewUuid R} : Prop :=
  new_v4_text r : length (new_v4 r).1 = 36%nat ∧ Forall (λ c, 0 < c < 128) (new_v4 r).1.

Section volume.
Context {Value : Type} `{SerdeJson Value} `{HashIter} `{Base64} `{Pbkdf2} `{Sha256} `{Aes256}
  `{Argon2id}.

(** What [format] has made before its first write: the header as the first
    serialization leaves it is [part_header]. *)
Record volume_parts := {
  part_key : list Z; part_uuid : ustring; part_meta : Metadata Value; part_json : list Z;
  part_slot : list Z; part_primary : list Z; part_header : Header
}.

Definition format_parts {R} `{Random R} `{NewUuid R} (sector_size : Z) (passphrase : list Z)
    (label : ustring) (r : R) : res Luks2Error (volume_parts * R) :=
  '(volume_key, r) ← ok_or (fill r VOLUME_KEY_SIZE) (InvalidField (ustr "random generation failed"));
  '(kdf_salt, r) ← ok_or (fill r 64) (InvalidField (ustr "random generation failed"));
  let '(uuid, r) := new_v4 r in
  '(hdr, r) ← new_header uuid label r;
  let meta := add_keyslot (new_metadata sector_size) (ustr "0") kdf_salt in
  '(digest_entry, r) ← create_digest volume_key [ustr "0"] [ustr "0"] r;
  let meta := add_digest meta (ustr "0") digest_entry in
  keyslot ← ok_or (keyslots meta !! ustr "0") NoKeyslot;
  '(keyslot_data, r) ← encrypt_keyslot passphrase volume_key keyslot r;
  json_buf ← to_json_buffer meta DEFAULT_JSON_SIZE;
  '(primary_hdr, hdr) ← serialize hdr true;
  Ok ({| part_key := volume_key; part_uuid := uuid; part_meta := meta; part_json := json_buf;
         part_slot := keyslot_data; part_primary := primary_hdr; part_header := hdr |}, r).

Definition format {R} `{Random R} `{NewUuid R} (passphrase : list Z) (label : ustring) (r : R) : dio R :=
  sector_size ← detect_sector_size;
  '(p, r) ← lift (format_parts sector_size passphrase label r);
  _ ← write_at 0 (part_primary p);
  _ ← write_at BINARY_HEADER_SIZE_U64 (part_json p);
  _ ← write_at DEFAULT_KEYSLOT_AREA_OFFSET (part_slot p);
  '(secondary_hdr, _) ← lift (serialize (part_header p) false);
  _ ← write_at DEFAULT_HEADER_SIZE secondary_hdr;
  _ ← write_at (saturating_add 64 DEFAULT_HEADER_SIZE BINARY_HEADER_SIZE_U64) (part_json p);
  mret r.

Definition verify_candidate (seed : Z) (candidate : list Z) (slot_id : ustring) (meta : Metadata Value) : bool :=
  existsb (λ dig, bool_decide (slot_id ∈ digest_keyslots dig) &&
                  match verify_digest candidate dig with Ok b => b | _ => false end)
    ((hash_iter _ seed (digests meta)).*2).

Definition slot_leb (a b : ustring * Keyslot) : bool := lex_leb (utf8 a.1) (utf8 b.1).

Fixpoint try_slots (seed : Z) (passphrase : list Z) (meta : Metadata Value)
    (slots : list (ustring * Keyslot)) : dio (list Z) :=
  match slots with
  | [] => lift (Err WrongPassphrase)
  | (slot_id, slot) :: slots =>
      area_offset ← lift (ok_or (parse_uint 64 (area_offset (area slot)))
                            (InvalidField (ustr "invalid keyslot area offset")));
      area_size ← lift (ok_or (parse_uint 64 (area_size (area slot)))
                          (InvalidField (ustr "invalid keyslot area size")));
      area_size ← lift (ok_or (try_from 64 area_size) (InvalidField (ustr "invalid keyslot area size")));
      encrypted_data ← read_at area_offset area_size;
      match decrypt_keyslot passphrase slot encrypted_data with
      | Ok candidate =>
          if verify_candidate seed candidate slot_id meta then mret candidate
          else try_slots seed passphrase meta slots
      | Err _ => try_slots seed passphrase meta slots
      | Panic => lift Panic
      end
  end.

Definition try_keyslots (seed : Z) (passphrase : list Z) (meta : Metadata Value) : dio (list Z) :=
  try_slots seed passphrase meta (stable_sort slot_leb (hash_iter _ seed (keyslots meta))).

(** [open] up to the device mapper. *)
Definition open_params (seed : Z) (device name : ustring) (passphrase : list Z) : dio CryptParams :=
  hdr_buf ← read_at 0 (Z.of_nat BINARY_HEADER_SIZE);
  hdr ← lift (parse hdr_buf);
  json_buf ← read_at BINARY_HEADER_SIZE_U64 DEFAULT_JSON_SIZE;
  meta ← lift (from_json_buffer json_buf);
  volume_key ← try_keyslots seed passphrase meta;
  segment ← lift (ok_or (segments meta !! ustr "0") (InvalidField (ustr "no segment 0")));
  data_offset ← lift (ok_or (parse_uint 64 (segment_offset segment))
                        (InvalidField (ustr "invalid segment offset")));
  let sector_size := segment_sector_size segment in
  dev_size_bytes ← device_size;
  let data_size_bytes := saturating_sub dev_size_bytes data_offset in
  let size_sectors := Z.shiftr data_size_bytes 9 in
  let offset_sectors := Z.shiftr data_offset 9 in
  let dm_uuid := ustr "CRYPT-LUKS2-" ++ filter (λ c, c ≠ 45) (uuid_str hdr) in
  mret {| cp_name := name; cp_dm_uuid := dm_uuid; backing_device := device; volume_key := volume_key;
          cipher := CIPHER_SPEC; offset_sectors := offset_sectors; size_sectors := size_sectors;
          cp_sector_size := sector_size |}.

Definition open {K} `{DmKernel K} `{ErrnoDisplay} `{Base16} (seed : Z) (device name : ustring)
    (passphrase : list Z) (d : Device) (k : K) : res Luks2Error unit * Device * K :=
  match open_params seed device name passphrase d with
  | (Ok params, d) => let '(r, k) := crypt_open params k in (r, d, k)
  | (Err e, d) => (Err e, d, k)
  | (Panic, d) => (Panic, d, k)
  end.

Definition close {K} `{DmKernel K} `{ErrnoDisplay} (name : ustring) (k : K) : res Luks2Error unit * K :=
  crypt_close name k.

Definition read_tpm2_token (seed : Z) : dio Tpm2Token :=
  json_buf ← read_at BINARY_HEADER_SIZE_U64 DEFAULT_JSON_SIZE;
  meta ← lift (from_json_buffer json_buf);
  lift (get_tpm2_token seed meta).

Definition write_tpm2_token (seed : Z) (token : Tpm2Token) : dio unit :=
  json_buf ← read_at BINARY_HEADER_SIZE_U64 DEFAULT_JSON_SIZE;
  meta ← lift (from_json_buffer json_buf);
  meta ← lift (set_tpm2_token seed meta token);
  new_json ← lift (to_json_buffer meta DEFAULT_JSON_SIZE);
  _ ← write_at BINARY_HEADER_SIZE_U64 new_json;
  write_at (saturating_add 64 DEFAULT_HEADER_SIZE BINARY_HEADER_SIZE_U64) new_json.
End volume.

(** ** Lemmas on the device *)

(** [d] holds [bs] at [offset]. *)
Definition holds (d : Device) (offset : Z) (bs : list Z) : Prop :=
  slice (Z.to_nat offset) (Z.to_nat (offset + zlen bs)) (content d) = Some bs.

Lemma bind_dio {A B} (m : dio A) (f : A → dio B) d a d' : m d = (Ok a, d') → (m ≫= f) d = f a d'.
Proof. intros E. unfold mbind, dio_bind. by rewrite E. Qed.

Lemma bind_dio_Ok {A B} (m : dio A) (f : A → dio B) d b d' :
  (m ≫= f) d = (Ok b, d') → ∃ a d1, m d = (Ok a, d1) ∧ f a d1 = (Ok b, d').
Proof. unfold mbind, dio_bind. destruct (m d) as [[a| |] d1]; [eauto|done..]. Qed.

Lemma bind_lift {A B} (r : res Luks2Error A) (f : A → dio B) d a : r = Ok a → (lift r ≫= f) d = f a d.
Proof. by intros ->. Qed.

(** A healthy access. *)
Lemma read_at_holds d offset len bs :
  schedule d = [] → 0 ≤ offset → len = zlen bs → holds d offset bs → read_at offset len d = (Ok bs, d).
Proof.
  intros Hs Ho -> Hb. unfold read_at, next_access. rewrite Hs. unfold holds in Hb. rewrite Hb.
  apply slice_Some in Hb as [Hab _]. pose proof (zlen_nonneg bs).
  destruct (Z.ltb_spec (zlen (content d)) offset) as [Hlt|_]; [|done]. unfold zlen in Hlt. lia.
Qed.

Lemma write_at_fits d offset data :
  schedule d = [] → 0 ≤ offset → offset + zlen data ≤ zlen (content d) →
  write_at offset data d = (Ok tt, with_content d (splice (Z.to_nat offset) data (content d))).
Proof.
  intros Hs Ho Hf. unfold write_at, next_access. rewrite Hs. pose proof (zlen_nonneg data).
  destruct (Z.ltb_spec (zlen (content d)) offset) as [Hlt|_]; [lia|]. unfold zlen in *.
  destruct (Nat.ltb_spec (length (content d) - Z.to_nat offset) (length data)) as [Hlt|_]; [lia|].
  by rewrite take_ge by lia.
Qed.

Lemma holds_write_same d offset data :
  0 ≤ offset → offset + zlen data ≤ zlen (content d) →
  holds (with_content d (splice (Z.to_nat offset) data (content d))) offset data.
Proof.
  intros Ho Hf. unfold holds. cbn [content with_content]. unfold zlen in *.
  apply slice_splice_same; lia.
Qed.

Lemma holds_write_other d offset data o bs :
  0 ≤ offset → 0 ≤ o → offset + zlen data ≤ zlen (content d) →
  o + zlen bs ≤ offset ∨ offset + zlen data ≤ o → holds d o bs →
  holds (with_content d (splice (Z.to_nat offset) data (content d))) o bs.
Proof.
  intros Ho Ho' Hf Hd Hb. unfold holds in *. cbn [content with_content]. unfold zlen in *.
  rewrite slice_splice_other; [done|lia..].
Qed.

(** One healthy write, as the following ones see it. *)
Lemma write_at_step d offset data :
  schedule d = [] → 0 ≤ offset → offset + zlen data ≤ zlen (content d) →
  ∃ d', write_at offset data d = (Ok tt, d') ∧ schedule d' = [] ∧ zlen (content d') = zlen (content d) ∧
    holds d' offset data ∧
    (∀ o bs, 0 ≤ o → o + zlen bs ≤ offset ∨ offset + zlen data ≤ o → holds d o bs → holds d' o bs) ∧
    (∀ i, Z.of_nat i < offset ∨ offset + zlen data ≤ Z.of_nat i → content d' !! i = content d !! i).
Proof.
  intros Hs Ho Hf. eexists. split; [by apply write_at_fits|]. split_and!; [done| | | |].
  - cbn [content with_content]. unfold zlen in *. by rewrite length_splice by lia.
  - by apply holds_write_same.
  - intros o bs Ho' Hd Hb. by apply holds_write_other.
  - intros i Hi. cbn [content with_content]. unfold zlen in *. rewrite lookup_splice by lia.
    by rewrite bool_decide_eq_false_2 by lia.
Qed.

(** ** Formatting and opening *)

Lemma uuid_utf8 (s : ustring) : Forall (λ c, 0 < c < 128) s → utf8 s = s.
Proof. intros Hs. apply utf8_ascii. eapply Forall_impl; [exact Hs|]. intros c Hc. cbn in Hc. lia. Qed.

Section volume_proofs.
Context {Value : Type} `{SerdeJsonLaws Value} `{HashIterLaws} `{Base64Laws} `{Pbkdf2} `{Sha256Laws}
  `{Aes256Laws} `{Argon2idLaws} {R : Type} `{RandomLaws R} `{NewUuidLaws R}.
Implicit Types m : Metadata Value.

(** The header of a new volume. *)
Lemma new_header_ok (u lb : ustring) (r r' : R) h :
  length u = 36%nat → Forall (λ c, 0 < c < 128) u → new_header u lb r = Ok (h, r') →
  header_ok h ∧ uuid h = u ++ zeros 4 ∧ size h = DEFAULT_HEADER_SIZE.
Proof.
  intros Hu Hasc E. unfold new_header in E.
  pose proof (uuid_utf8 u Hasc) as Hutf.
  rewrite Hutf in E.
  rewrite copy_prefix_ok in E by (rewrite ?length_zeros; lia). cbn [mbind res_bind] in E.
  rewrite copy_prefix_ok in E by (rewrite ?length_zeros; lia). cbn [mbind res_bind] in E.
  apply bind_Ok in E as ([sl r1] & Ef & E). apply ok_or_Ok, fill_length in Ef as [Hsl _].
  simplify_eq. rewrite Hu. change (Nat.min 36 40) with 36%nat.
  rewrite (take_ge u) by lia. split_and!; [|done..].
  constructor; cbn [size sequence_id label salt uuid subsystem checksum]; rewrite ?length_app, ?length_zeros;
    try done; try (unfold DEFAULT_HEADER_SIZE; ulia).
  all: rewrite ?length_take, ?length_drop, ?length_zeros; lia.
Qed.

Lemma uuid_str_padded h u :
  uuid h = u ++ zeros 4 → Forall (λ c, 0 < c < 128) u → uuid_str h = u.
Proof.
  intros Hu Hasc. unfold uuid_str. rewrite Hu.
  assert (0 ∉ u) as Hz by (intros Hin; rewrite Forall_forall in Hasc; apply Hasc in Hin; lia).
  rewrite length_app, length_zeros, position_zero by done.
  rewrite slice_ok by (rewrite length_app; lia). cbn [mbind option_bind].
  rewrite drop_0, Nat.sub_0_r, take_app_length.
  assert (from_utf8 u = Some u) as ->; [|done].
  pose proof (uuid_utf8 u Hasc) as Hutf.
  rewrite <-Hutf at 1. apply from_utf8_utf8. eapply Forall_impl; [exact Hasc|].
  intros c Hc. left. cbn in Hc. lia.
Qed.

(** The two headers [format] writes. *)
Lemma headers_parse h u :
  header_ok h → uuid h = u ++ zeros 4 → Forall (λ c, 0 < c < 128) u →
  ∃ pri h1 sec h2, serialize h true = Ok (pri, h1) ∧ serialize h1 false = Ok (sec, h2) ∧
    length pri = 4096%nat ∧ length sec = 4096%nat ∧
    (∃ g, parse pri = Ok g ∧ uuid_str g = u) ∧ (∃ g, parse sec = Ok g ∧ uuid_str g = u).
Proof.
  intros Hok Hu Hasc. destruct (serialize_parse h true [] Hok) as (pri & h1 & sum & E & Hl & _ & Hp & _).
  destruct (serialize_header_ok _ _ _ _ Hok E) as (Hok1 & Hu1 & _).
  destruct (serialize_parse h1 false [] Hok1) as (sec & h2 & sum2 & E2 & Hl2 & _ & Hp2 & _).
  rewrite app_nil_r in Hp, Hp2. exists pri, h1, sec, h2. split_and!; [done..| |].
  - eexists. split; [done|]. by apply uuid_str_padded.
  - eexists. split; [done|]. apply uuid_str_padded; [|done]. cbn [with_checksum uuid]. by rewrite Hu1.
Qed.

(** The metadata of a new volume. *)
Definition fresh_meta (sector_size : Z) (salt : list Z) (dg : Digest) : Metadata Value :=
  add_digest (add_keyslot (new_metadata sector_size) (ustr "0") salt) (ustr "0") dg.

Record parts_ok (sector_size : Z) (pass : list Z) (p : volume_parts) (salt : list Z) (dg : Digest) : Prop := {
  p_key : length (part_key p) = 64%nat;
  p_meta : part_meta p = fresh_meta sector_size salt dg;
  p_dg_slots : digest_keyslots dg = [ustr "0"];
  p_dg : verify_digest (part_key p) dg = Ok true;
  p_slot_len : zlen (part_slot p) = 256000;
  p_slot : decrypt_keyslot pass (new_keyslot salt) (part_slot p) = Ok (part_key p);
  p_json_len : zlen (part_json p) = 12288;
  p_json : from_json_buffer (part_json p) = Ok (part_meta p);
  p_primary_len : length (part_primary p) = 4096%nat;
  p_primary : ∃ g, parse (part_primary p) = Ok g ∧ uuid_str g = part_uuid p;
  p_secondary : ∃ sec h, serialize (part_header p) false = Ok (sec, h) ∧ length sec = 4096%nat ∧
                  ∃ g, parse sec = Ok g ∧ uuid_str g = part_uuid p;
}.

Lemma json_buffer_inv m n buf :
  map_Forall (λ _, exact_value) (tokens m) → is_u64 n → to_json_buffer m n = Ok buf →
  zlen buf = n ∧ from_json_buffer buf = Ok m.
Proof.
  intros Hex Hn E. destruct (to_vec_pretty m) as [bs| |] eqn:Ev.
  - destruct (decide (zlen bs ≤ n)) as [Hle|Hgt].
    + rewrite (to_json_buffer_ok m bs n Ev Hle Hn) in E. simplify_eq.
      split; [|by apply (from_json_buffer_padded m bs)].
      rewrite zlen_app. unfold zlen in *. rewrite length_zeros. lia.
    + unfold to_json_buffer in E. rewrite Ev in E. cbn [map_err mbind res_bind] in E.
      rewrite try_from_ok in E by done. cbn [ok_or mbind res_bind] in E.
      assert (n <? zlen bs = true) as Hlt by lia. by rewrite Hlt in E.
  - unfold to_json_buffer in E. by rewrite Ev in E.
  - unfold to_json_buffer in E. by rewrite Ev in E.
Qed.

Lemma format_parts_inv sector pass lb (r r' : R) p :
  format_parts (Value := Value) sector pass lb r = Ok (p, r') → ∃ salt dg, parts_ok sector pass p salt dg.
Proof.
  intros E. unfold format_parts in E.
  apply bind_Ok in E as ([key r1] & Ek & E). apply ok_or_Ok, fill_length in Ek as [Hk _].
  apply bind_Ok in E as ([salt r2] & _ & E).
  pose proof (new_v4_text r2) as [Hu Hasc]. destruct (new_v4 r2) as [u r3]. cbn [fst] in *.
  apply bind_Ok in E as ([h r4] & Eh & E).
  destruct (new_header_ok u lb r3 r4 h Hu Hasc Eh) as (Hok & Huu & _).
  apply bind_Ok in E as ([dg r5] & Ed & E).
  destruct (create_digest_verify _ _ _ _ _ _ Ed) as (Hids & Hver & _).
  fold (fresh_meta sector salt dg) in E.
  assert (keyslots (fresh_meta sector salt dg) !! ustr "0" = Some (new_keyslot salt)) as Hks
    by apply lookup_insert_eq.
  rewrite Hks in E. cbn [ok_or mbind res_bind] in E.
  apply bind_Ok in E as ([slot r6] & Es & E).
  apply encrypt_keyslot_inv in Es as [Hsl Hsd]; [|done..].
  apply bind_Ok in E as (json & Ej & E). apply json_buffer_inv in Ej as [Hjl Hj];
    [|apply map_Forall_empty|unfold DEFAULT_JSON_SIZE; ulia].
  destruct (headers_parse h u Hok Huu Hasc) as (pri & h1 & sec & h2 & E1 & E2 & Hl1 & Hl2 & Hp1 & Hp2).
  rewrite E1 in E. cbn [mbind res_bind] in E. simplify_eq.
  exists salt, dg. constructor; cbn [part_key part_uuid part_meta part_json part_slot part_primary part_header];
    try done. eauto 10.
Qed.

(** The parts are made when the draws, the key derivation and the JSON text
    succeed. *)
Lemma format_parts_ok sector pass lb (r r1 r2 r3 r4 r5 : R) key salt u hs ds dk bs :
  never_fails R → fill r 64 = Some (key, r1) → fill r1 64 = Some (salt, r2) → new_v4 r2 = (u, r3) →
  fill r3 64 = Some (hs, r4) → fill r4 32 = Some (ds, r5) → derive_key pass (new_keyslot salt) = Ok dk →
  to_vec_pretty (fresh_meta sector salt
    {| digest_type := ustr "pbkdf2"; digest_keyslots := [ustr "0"]; digest_segments := [ustr "0"];
       digest_hash := ustr "sha256"; iterations := 1000; digest_salt := encode_string ds;
       digest_value := encode_string (pbkdf2 key ds 1000) |}) = Ok bs → zlen bs ≤ 12288 →
  ∃ p r', format_parts (Value := Value) sector pass lb r = Ok (p, r').
Proof.
  intros Hn F1 F2 Eu F3 F4 Ed Ej Hbs. unfold format_parts, VOLUME_KEY_SIZE. rewrite F1. cbn [ok_or mbind res_bind].
  rewrite F2. cbn [ok_or mbind res_bind]. rewrite Eu.
  pose proof (new_v4_text r2) as [Hu Hasc]. rewrite Eu in Hu, Hasc. cbn [fst] in *.
  assert (∃ h, new_header u lb r3 = Ok (h, r4)) as [h Eh].
  { unfold new_header. rewrite (uuid_utf8 u) by done.
    do 2 (rewrite copy_prefix_ok by (rewrite ?length_zeros; lia); cbn [mbind res_bind]).
    rewrite F3. cbn [ok_or mbind res_bind]. eauto. }
  rewrite Eh. cbn [mbind res_bind]. destruct (new_header_ok u lb r3 r4 h Hu Hasc Eh) as (Hok & Huu & _).
  unfold create_digest, SALT_LEN. rewrite F4. cbn [ok_or mbind res_bind].
  match goal with |- context [add_digest _ _ ?dg] => set (dig := dg) end.
  fold (fresh_meta sector salt dig).
  assert (keyslots (fresh_meta sector salt dig) !! ustr "0" = Some (new_keyslot salt)) as ->
    by apply lookup_insert_eq. cbn [ok_or mbind res_bind].
  destruct (encrypt_keyslot_ok pass key (new_keyslot salt) dk r5) as (data & r6 & ->).
  { done. }
  { split; [done..|]. split; [by vm_compute|done]. }
  { by apply fill_length in F1 as [? _]. }
  { done. }
  cbn [mbind res_bind]. unfold DEFAULT_JSON_SIZE.
  rewrite (to_json_buffer_ok _ bs 12288) by (done || ulia). cbn [mbind res_bind].
  destruct (headers_parse h u Hok Huu Hasc) as (pri & h1 & sec & h2 & -> & _). cbn [mbind res_bind]. eauto.
Qed.

Definition sector_of (d : Device) : Z :=
  match pbsz d with None => DEFAULT_SECTOR_SIZE | Some (result, size) => normalize_sector_size result size end.

(** A healthy device that is large enough. *)
Definition healthy (d : Device) : Prop := schedule d = [] ∧ DEFAULT_HEADER_SIZE + 16384 ≤ zlen (content d).

(** What a formatted device holds. *)
Record formatted (d : Device) (p : volume_parts (Value := Value)) : Prop := {
  f_primary : holds d 0 (part_primary p);
  f_json : holds d 4096 (part_json p);
  f_slot : holds d 32768 (part_slot p);
  f_secondary : ∃ sec h, serialize (part_header p) false = Ok (sec, h) ∧ length sec = 4096%nat ∧
    holds d DEFAULT_HEADER_SIZE sec;
  f_copy : holds d (DEFAULT_HEADER_SIZE + 4096) (part_json p);
}.

Lemma format_writes d pass lb (r r' : R) p :
  healthy d → format_parts (sector_of d) pass lb r = Ok (p, r') →
  ∃ d', format pass lb r d = (Ok r', d') ∧ schedule d' = [] ∧ zlen (content d') = zlen (content d) ∧
    formatted d' p.
Proof.
  intros [Hs Hsize] E. destruct (format_parts_inv _ _ _ _ _ _ E) as (salt & dg & []).
  destruct p_secondary0 as (sec & h & Esec & Hsec & _).
  assert (zlen (part_primary p) = 4096) as Hpri by (unfold zlen; lia).
  assert (zlen sec = 4096) as Hsecz by (unfold zlen; lia). unfold DEFAULT_HEADER_SIZE in *.
  unfold format. rewrite (bind_dio _ _ d (sector_of d) d) by done.
  rewrite (bind_lift _ _ _ _ E). cbv beta iota.
  destruct (write_at_step d 0 (part_primary p)) as (d1 & W1 & S1 & L1 & A1 & K1 & _); [done|lia..|].
  rewrite (bind_dio _ _ _ _ _ W1).
  unfold BINARY_HEADER_SIZE_U64, DEFAULT_KEYSLOT_AREA_OFFSET, DEFAULT_HEADER_SIZE.
  destruct (write_at_step d1 4096 (part_json p)) as (d2 & W2 & S2 & L2 & A2 & K2 & _); [done|lia..|].
  rewrite (bind_dio _ _ _ _ _ W2).
  destruct (write_at_step d2 0x8000 (part_slot p)) as (d3 & W3 & S3 & L3 & A3 & K3 & _); [done|lia..|].
  rewrite (bind_dio _ _ _ _ _ W3), (bind_lift _ _ _ _ Esec). cbv beta iota.
  destruct (write_at_step d3 (16 * 1024 * 1024) sec) as (d4 & W4 & S4 & L4 & A4 & K4 & _); [done|lia..|].
  rewrite (bind_dio _ _ _ _ _ W4).
  change (saturating_add 64 (16 * 1024 * 1024) 4096) with (16 * 1024 * 1024 + 4096).
  destruct (write_at_step d4 (16 * 1024 * 1024 + 4096) (part_json p)) as (d5 & W5 & S5 & L5 & A5 & K5 & _);
    [done|lia..|].
  rewrite (bind_dio _ _ _ _ _ W5). exists d5. split_and!; [done|done|lia|].
  constructor.
  - apply K5, K4, K3, K2; try lia. done.
  - apply K5, K4, K3; try lia. done.
  - apply K5, K4; try lia. done.
  - exists sec, h. split_and!; [done..|]. apply K5; [unfold DEFAULT_HEADER_SIZE; lia..|done].
  - done.
Qed.

Lemma hash_iter_singleton {V} seed k (v : V) : hash_iter V seed {[k := v]} = [(k, v)].
Proof.
  pose proof (hash_iter_perm V seed {[k := v]}) as Hp. rewrite map_to_list_singleton in Hp.
  by apply Permutation_singleton_r in Hp.
Qed.

Lemma try_keyslots_fresh seed pass sector salt dg key slot d :
  schedule d = [] → holds d 32768 slot → zlen slot = 256000 →
  decrypt_keyslot pass (new_keyslot salt) slot = Ok key →
  digest_keyslots dg = [ustr "0"] → verify_digest key dg = Ok true →
  try_keyslots seed pass (fresh_meta sector salt dg) d = (Ok key, d).
Proof.
  intros Hs Hh Hl Hdec Hids Hver. unfold try_keyslots.
  assert (keyslots (fresh_meta sector salt dg) = {[ustr "0" := new_keyslot salt]}) as -> by done.
  rewrite hash_iter_singleton. cbn [stable_sort foldr insert_sorted try_slots].
  assert (parse_uint 64 (area_offset (area (new_keyslot salt))) = Some 32768) as Eo by reflexivity.
  assert (parse_uint 64 (area_size (area (new_keyslot salt))) = Some 256000) as Es by reflexivity.
  rewrite (bind_lift _ _ _ 32768) by (by rewrite Eo).
  rewrite (bind_lift _ _ _ 256000) by (by rewrite Es).
  rewrite (bind_lift _ _ _ 256000) by done.
  rewrite (bind_dio _ _ _ slot d) by (by apply read_at_holds). rewrite Hdec.
  assert (verify_candidate seed key (ustr "0") (fresh_meta sector salt dg) = true) as ->; [|done].
  unfold verify_candidate. assert (digests (fresh_meta sector salt dg) = {[ustr "0" := dg]}) as -> by done.
  rewrite hash_iter_singleton. cbn [fmap list_fmap snd existsb]. rewrite Hids, Hver.
  rewrite bool_decide_eq_true_2 by set_solver. done.
Qed.

Lemma open_formatted d sector pass p salt dg seed device name :
  schedule d = [] → parts_ok sector pass p salt dg → formatted d p →
  open_params (Value := Value) seed device name pass d =
  (Ok {| cp_name := name; cp_dm_uuid := ustr "CRYPT-LUKS2-" ++ filter (λ c, c ≠ 45) (part_uuid p);
         backing_device := device; volume_key := part_key p; cipher := CIPHER_SPEC;
         offset_sectors := 32768;
         size_sectors := Z.shiftr (saturating_sub (zlen (content d)) DEFAULT_HEADER_SIZE) 9;
         cp_sector_size := sector |}, d).
Proof.
  intros Hs [] []. destruct p_primary0 as (g & Eg & Hg).
  unfold open_params.
  rewrite (bind_dio _ _ _ (part_primary p) d); [|apply read_at_holds; [done|lia|unfold zlen; by rewrite p_primary_len0|done]].
  rewrite (bind_lift _ _ _ _ Eg).
  rewrite (bind_dio _ _ _ (part_json p) d); [|apply read_at_holds; [done|by vm_compute|by rewrite p_json_len0|done]].
  rewrite (bind_lift _ _ _ _ p_json0). rewrite p_meta0 in *.
  rewrite (bind_dio _ _ _ (part_key p) d); [|by eapply try_keyslots_fresh].
  rewrite (bind_lift _ _ _ {| segment_type := ustr "crypt"; segment_offset := decimal DEFAULT_HEADER_SIZE;
          iv_tweak := ustr "0"; segment_size := ustr "dynamic"; segment_encryption := CIPHER_SPEC;
          segment_sector_size := sector |})
    by (change (segments (fresh_meta sector salt dg)) with (segments (new_metadata (Value := Value) sector));
        unfold new_metadata; cbn [segments]; by rewrite lookup_insert_eq).
  cbn [segment_offset segment_sector_size].
  rewrite (bind_lift _ _ _ DEFAULT_HEADER_SIZE) by reflexivity.
  rewrite (bind_dio _ _ _ (zlen (content d)) d)
    by (unfold device_size, next_access; by rewrite Hs).
  rewrite Hg. done.
Qed.
End volume_proofs.

(** ** Opening any device *)

Section open_proofs.
Context {Value : Type} `{SerdeJson Value} `{HashIterLaws} `{Base64} `{Pbkdf2} `{Sha256}
  `{Aes256} `{Argon2id}.
Implicit Types m : Metadata Value.

(** [key] came, under [pass], out of the bytes that the device holds in the area
    of a keyslot, and a digest of that slot accepts it. *)
Definition verified (d : Device) m (pass key : list Z) : Prop :=
  ∃ id slot offset data dg_id dg, keyslots m !! id = Some slot ∧ digests m !! dg_id = Some dg ∧
    parse_uint 64 (area_offset (area slot)) = Some offset ∧
    parse_uint 64 (area_size (area slot)) = Some (zlen data) ∧ holds d offset data ∧
    decrypt_keyslot pass slot data = Ok key ∧ id ∈ digest_keyslots dg ∧ verify_digest key dg = Ok true.

Lemma parse_digits_nonneg w s : ∀ acc z, 0 ≤ acc → parse_digits w acc s = Some z → 0 ≤ z.
Proof.
  induction s as [|c s IH]; intros acc z Ha; cbn [parse_digits]; [by intros [= <-]|].
  unfold digit_value, checked_mul, checked_add. destruct ((48 <=? c) && (c <=? 57)) eqn:Hc; [|done].
  cbn [mbind option_bind]. destruct (acc * 10 <=? uint_max w); [|done]. cbn [mbind option_bind].
  destruct (_ <=? uint_max w); [|done]. cbn [mbind option_bind]. apply IH. lia.
Qed.
Lemma parse_uint_nonneg w s z : parse_uint w s = Some z → 0 ≤ z.
Proof.
  unfold parse_uint. destruct s as [|c s]; [done|]. case_decide; [destruct s; [done|]|]; by apply parse_digits_nonneg.
Qed.

Lemma read_at_inv off len bs d d' :
  0 ≤ len → 0 ≤ off → read_at off len d = (Ok bs, d') → content d' = content d ∧ holds d off bs ∧ zlen bs = len.
Proof.
  intros Hlen Hoff. unfold read_at, next_access.
  destruct (schedule d) as [|[f|] fs]; [|done|]; cbn [content];
    (destruct (zlen (content d) <? off); [done|]);
    (destruct (slice (Z.to_nat off) (Z.to_nat (off + len)) (content d)) as [b|] eqn:Es; [|done]);
    intros [= -> <-]; (assert (zlen bs = len) as Hl by (apply length_slice in Es; unfold zlen; lia));
    unfold holds; rewrite Hl; done.
Qed.
Lemma verified_content d d' m pass key : content d = content d' → verified d m pass key → verified d' m pass key.
Proof. intros E. unfold verified, holds. by rewrite E. Qed.

Lemma verify_candidate_true seed key id m :
  verify_candidate seed key id m = true →
  ∃ dg_id dg, digests m !! dg_id = Some dg ∧ id ∈ digest_keyslots dg ∧ verify_digest key dg = Ok true.
Proof.
  unfold verify_candidate. intros (dg & Hin & Hv)%existsb_exists.
  apply list_elem_of_In, list_elem_of_fmap in Hin as ([dg_id dg'] & -> & Hin). cbn [snd] in *.
  rewrite (hash_iter_perm _ seed) in Hin. apply elem_of_map_to_list in Hin.
  apply andb_true_iff in Hv as [Hid%bool_decide_eq_true Hv].
  exists dg_id, dg'. split_and!; [done..|]. destruct (verify_digest key dg') as [[]| |]; done.
Qed.

Lemma try_slots_verified seed pass m slots : ∀ d key d',
  Forall (λ s, keyslots m !! s.1 = Some s.2) slots →
  try_slots seed pass m slots d = (Ok key, d') → verified d m pass key ∧ content d' = content d.
Proof.
  induction slots as [|[id slot] slots IH]; intros d key d' Hsl E; [done|].
  apply Forall_cons in Hsl as [Hid Hsl]. cbn [try_slots] in E.
  apply bind_dio_Ok in E as (off & d1 & Eo & E). injection Eo as Eo <-. apply ok_or_Ok in Eo.
  apply bind_dio_Ok in E as (sz & d1 & Es & E). injection Es as Es <-. apply ok_or_Ok in Es.
  apply bind_dio_Ok in E as (sz' & d1 & Et & E). injection Et as Et <-. apply ok_or_Ok in Et.
  assert (sz' = sz) as -> by (unfold try_from in Et; repeat case_match; by simplify_eq).
  apply bind_dio_Ok in E as (data & d1 & Er & E).
  apply read_at_inv in Er as (Hc & Hh & Hz); [|by eapply parse_uint_nonneg..].
  assert (∀ d' (key : list Z), try_slots seed pass m slots d1 = (Ok key, d') →
    verified d m pass key ∧ content d' = content d) as Hrest.
  { intros d2 k2 E2. apply IH in E2 as [Hv Hc2]; [|done]. split; [|congruence]. by eapply verified_content. }
  destruct (decrypt_keyslot pass slot data) as [cand| |] eqn:Ed; [|by apply Hrest|done].
  destruct (verify_candidate seed cand id m) eqn:Ev; [|by apply Hrest].
  injection E as <- <-. split; [|done]. apply verify_candidate_true in Ev as (dg_id & dg & ? & ? & ?).
  exists id, slot, off, data, dg_id, dg. by rewrite Hz.
Qed.

Lemma try_keyslots_verified seed pass m d key d' :
  try_keyslots seed pass m d = (Ok key, d') → verified d m pass key ∧ content d' = content d.
Proof.
  apply try_slots_verified. apply Forall_forall. intros [id slot] Hin.
  rewrite stable_sort_perm, (hash_iter_perm _ seed) in Hin. by apply elem_of_map_to_list.
Qed.
End open_proofs.

(** ** Theorems *)

Section theorems.
Context {Value : Type} `{SerdeJsonLaws Value} `{HashIterLaws} `{Base64Laws} `{Pbkdf2} `{Sha256Laws}
  `{Aes256Laws} `{Argon2idLaws} {R : Type} `{RandomLaws R} `{NewUuidLaws R}.

(** C5: Formatting a healthy device with random bytes that make a metadata of
    acceptable size succeeds, and the same passphrase then gives the device
    mapper the volume key, the data area behind the header and the sector size
    the device reported, in every hash order. *)
Theorem format_then_open d pass lb (r r' : R) p seed device name :
  healthy d → format_parts (Value := Value) (sector_of d) pass lb r = Ok (p, r') →
  ∃ d', format (Value := Value) pass lb r d = (Ok r', d') ∧
    open_params (Value := Value) seed device name pass d' =
    (Ok {| cp_name := name; cp_dm_uuid := ustr "CRYPT-LUKS2-" ++ filter (λ c, c ≠ 45) (part_uuid p);
           backing_device := device; volume_key := part_key p; cipher := CIPHER_SPEC;
           offset_sectors := 32768;
           size_sectors := Z.shiftr (saturating_sub (zlen (content d)) DEFAULT_HEADER_SIZE) 9;
           cp_sector_size := sector_of d |}, d').
Proof.
  intros Hd E. destruct (format_writes d pass lb r r' p Hd E) as (d' & Ef & Hs & Hl & Hfm).
  destruct (format_parts_inv _ _ _ _ _ _ E) as (salt & dg & Hp).
  exists d'. split; [done|]. rewrite (open_formatted d' _ pass p salt dg) by done. by rewrite Hl.
Qed.

(** C6: Whatever the device holds, a key is handed to the device mapper only if it
    is what the bytes in the area of a keyslot of the device's metadata decrypt
    to under this passphrase, and a digest of that keyslot accepts it; opening
    does not write. *)
Theorem open_only_verified seed device name pass d params d' :
  open_params (Value := Value) seed device name pass d = (Ok params, d') →
  content d' = content d ∧
  ∃ json m, from_json_buffer json = Ok m ∧ holds d 4096 json ∧ zlen json = 12288 ∧
    verified (Value := Value) d m pass (volume_key params).
Proof.
  intros E. unfold open_params in E.
  apply bind_dio_Ok in E as (hb & d1 & E1 & E). apply read_at_inv in E1 as (C1 & _ & _); [|by vm_compute..].
  apply bind_dio_Ok in E as (hdr & d2 & E2 & E). injection E2 as _ <-.
  apply bind_dio_Ok in E as (json & d2 & E2 & E). apply read_at_inv in E2 as (C2 & Hj & Hjl); [|by vm_compute..].
  apply bind_dio_Ok in E as (m & d3 & E3 & E). injection E3 as Em <-.
  apply bind_dio_Ok in E as (key & d3 & E3 & E). apply try_keyslots_verified in E3 as [Hv C3].
  apply bind_dio_Ok in E as (seg & d4 & E4 & E). injection E4 as _ <-.
  apply bind_dio_Ok in E as (off & d4 & E4 & E). injection E4 as _ <-.
  apply bind_dio_Ok in E as (sz & d4 & E4 & E).
  assert (content d4 = content d3) as C4.
  { revert E4. unfold device_size, next_access. destruct (schedule d3) as [|[f|] fs]; intros; by simplify_eq. }
  injection E as <- <-. cbn [volume_key]. split; [congruence|]. exists json, m.
  split_and!; [done| |done|].
  - unfold holds in *. by rewrite <-C1.
  - eapply verified_content; [|exact Hv]. congruence.
Qed.

(** Writing a TPM2 token to a healthy device whose metadata has at most one
    keeps keyslots, digests and segments, and every later read returns it. *)
Theorem token_roundtrip d json m bs t s1 s2 m' :
  healthy d → holds d 4096 json → zlen json = 12288 → from_json_buffer json = Ok m →
  map_Forall (λ _, exact_value) (tokens m) → one_tpm2 m → Z.of_nat (base.size (tokens m)) < 2 ^ 32 - 1 →
  token_type t = ustr "tpm2" → set_tpm2_token s1 m t = Ok m' → to_vec_pretty m' = Ok bs → zlen bs ≤ 12288 →
  ∃ d', write_tpm2_token (Value := Value) s1 t d = (Ok tt, d') ∧
    read_tpm2_token (Value := Value) s2 d' = (Ok t, d') ∧
    keyslots m' = keyslots m ∧ digests m' = digests m ∧ segments m' = segments m ∧
    ∀ i, Z.of_nat i < 4096 ∨ 16384 ≤ Z.of_nat i < DEFAULT_HEADER_SIZE + 4096 ∨
         DEFAULT_HEADER_SIZE + 16384 ≤ Z.of_nat i → content d' !! i = content d !! i.
Proof.
  intros [Hs Hsize] Hh Hjl Em Hex Hone Hsz Ht Eset Ev Hbs. unfold DEFAULT_HEADER_SIZE in *.
  destruct (set_get_tpm2_token s1 s2 m t Ht Hsz Hone Hex) as (m1 & Eset' & Eget & _ & Hk & Hsg & Hdg & _ & Hex').
  rewrite Eset in Eset'. injection Eset' as <-.
  pose proof (to_json_buffer_ok m' bs 12288 Ev Hbs ltac:(ulia)) as Ej.
  set (nj := bs ++ zeros (Z.to_nat 12288 - length bs)) in *.
  assert (zlen nj = 12288) as Hnj
    by (unfold nj; rewrite zlen_app; unfold zlen in *; rewrite length_zeros; lia).
  assert (from_json_buffer nj = Ok m') as Enj by (by apply (from_json_buffer_padded m' bs)).
  clearbody nj. unfold write_tpm2_token, read_tpm2_token.
  unfold BINARY_HEADER_SIZE_U64, DEFAULT_JSON_SIZE, DEFAULT_HEADER_SIZE.
  rewrite (bind_dio _ _ _ json d) by (apply read_at_holds; [done|lia|lia|done]).
  rewrite (bind_lift _ _ _ _ Em), (bind_lift _ _ _ _ Eset), (bind_lift _ _ _ _ Ej).
  destruct (write_at_step d 4096 nj) as (d1 & W1 & S1 & L1 & A1 & _ & U1); [done|lia..|].
  rewrite (bind_dio _ _ _ _ _ W1).
  change (saturating_add 64 (16 * 1024 * 1024) 4096) with (16 * 1024 * 1024 + 4096).
  destruct (write_at_step d1 (16 * 1024 * 1024 + 4096) nj) as (d2 & W2 & S2 & L2 & A2 & K2 & U2); [done|lia..|].
  exists d2. split_and!; [done| |done..|].
  - assert (holds d2 4096 nj) as Hd2 by (apply K2; [lia..|done]).
    rewrite (bind_dio _ _ _ nj d2) by (apply read_at_holds; [done|lia|lia|done]).
    rewrite (bind_lift _ _ _ _ Enj). unfold lift. by rewrite Eget.
  - intros i Hi. rewrite U2, U1 by lia. done.
Qed.

(** The second copies of the metadata are inside the data segment: after
    formatting, the first 16384 bytes of the area that [open] maps are the
    secondary header and JSON. *)
Theorem secondary_in_data_segment d pass lb (r r' : R) p seed device name :
  healthy d → format_parts (Value := Value) (sector_of d) pass lb r = Ok (p, r') →
  ∃ d' params sec g, format (Value := Value) pass lb r d = (Ok r', d') ∧
    open_params (Value := Value) seed device name pass d' = (Ok params, d') ∧
    holds d' (512 * offset_sectors params) sec ∧ parse sec = Ok g ∧ zlen sec = 4096 ∧
    holds d' (512 * offset_sectors params + 4096) (part_json p).
Proof.
  intros Hd E. destruct (format_writes d pass lb r r' p Hd E) as (d' & Ef & Hs & Hl & Hfm).
  destruct (format_parts_inv _ _ _ _ _ _ E) as (salt & dg & Hp).
  pose proof (open_formatted d' _ pass p salt dg seed device name Hs Hp Hfm) as Ho.
  destruct Hfm, Hp. destruct f_secondary0 as (sec & h & Esec & Hsec & Hat).
  destruct p_secondary0 as (sec' & h' & Esec' & _ & g & Eg & _). rewrite Esec in Esec'. injection Esec' as <- <-.
  exists d'. eexists. exists sec, g. split; [done|]. split; [exact Ho|]. cbn [offset_sectors].
  split_and!; [exact Hat|done|unfold zlen; lia|exact f_copy0].
Qed.
End theorems.

(** ** A concrete volume *)

Module Demo.
Definition VALUE : Type := Tpm2Token.

#[local] Instance kdf_dec : EqDecision Kdf. Proof. solve_decision. Defined.
#[local] Instance af_dec : EqDecision AntiForensic. Proof. solve_decision. Defined.
#[local] Instance area_dec : EqDecision KeyslotArea. Proof. solve_decision. Defined.
#[local] Instance slot_dec : EqDecision Keyslot. Proof. solve_decision. Defined.
#[local] Instance token_dec : EqDecision Tpm2Token. Proof. solve_decision. Defined.
#[local] Instance segment_dec : EqDecision Segment. Proof. solve_decision. Defined.
#[local] Instance digest_dec : EqDecision Digest. Proof. solve_decision. Defined.
#[local] Instance config_dec : EqDecision Config. Proof. solve_decision. Defined.
#[local] Instance metadata_dec : EqDecision (Metadata Tpm2Token). Proof. solve_decision. Defined.

#[local] Instance demo_base64 : Base64 := {| encode_string bs := bs; decode_vec s := Ok s |}.
#[local] Instance demo_base64_laws : Base64Laws.
Proof. done. Qed.
#[local] Instance demo_iter : HashIter := λ V _ m, map_to_list m.
#[local] Instance demo_iter_laws : HashIterLaws.
Proof. intros V seed m. unfold hash_iter, demo_iter. done. Qed.
#[local] Instance demo_sha : Sha256 := λ bs, replicate 32 (zlen bs mod 256).
#[local] Instance demo_sha_laws : Sha256Laws.
Proof.
  split; intros bs; unfold sha256, demo_sha; [apply length_replicate|].
  apply Forall_replicate. apply Z.mod_pos_bound. lia.
Qed.
#[local] Instance demo_pbkdf2 : Pbkdf2 := λ pw salt n, take 32 pw.
#[local] Instance demo_aes : Aes256 := {| encrypt_block _ b := rev b; decrypt_block _ b := rev b |}.
#[local] Instance demo_aes_laws : Aes256Laws.
Proof.
  split; intros key b Hb; unfold encrypt_block, decrypt_block, demo_aes;
    [by rewrite length_rev|apply rev_involutive].
Qed.
#[local] Instance demo_argon : Argon2id := λ m t p pass salt n, Ok (replicate n 5).
#[local] Instance demo_argon_laws : Argon2idLaws.
Proof. intros m t p pass salt n k [= <-]. apply length_replicate. Qed.
#[local] Instance demo_random : Random Z := λ r n, Some (replicate n (r mod 256), r).
#[local] Instance demo_random_laws : RandomLaws Z.
Proof.
  intros r n bs r' [= <- _]. split; [apply length_replicate|].
  apply Forall_replicate. apply Z.mod_pos_bound. lia.
Qed.
#[local] Instance demo_uuid : NewUuid Z := λ r, (replicate 36 45, r).
#[local] Instance demo_uuid_laws : NewUuidLaws Z.
Proof. intros r. split; [done|]. apply Forall_replicate. lia. Qed.

Definition token : Tpm2Token := new_token [7; 11] [1; 2; 3] [9].

(** The metadata of the volume, without and with the token. *)
Definition bare : Metadata Tpm2Token :=
  fresh_meta 4096 (replicate 64 9)
    {| digest_type := ustr "pbkdf2"; digest_keyslots := [ustr "0"]; digest_segments := [ustr "0"];
       digest_hash := ustr "sha256"; iterations := 1000; digest_salt := replicate 32 9;
       digest_value := replicate 32 9 |}.
Definition tokened : Metadata Tpm2Token :=
  {| keyslots := keyslots bare; tokens := <[decimal 0 := token]> ∅; segments := segments bare;
     digests := digests bare; config := config bare |}.

(** A codec for these two. *)
#[local] Instance demo_json : SerdeJson Tpm2Token := {|
  to_vec_pretty m := if bool_decide (m = bare) then Ok [123] else
                     if bool_decide (m = tokened) then Ok [125] else Err [];
  from_slice bs := if bool_decide (bs = [123]) then Ok bare else
                   if bool_decide (bs = [125]) then Ok tokened else Err [];
  to_value t := Ok t;
  from_value v := Ok v;
  value_type v := Some (token_type v);
|}.
#[local] Instance demo_json_laws : SerdeJsonLaws Tpm2Token.
Proof.
  refine {| exact_value := λ _, True |}.
  - intros m bs _. simpl. repeat case_bool_decide; intros; simplify_eq; done.
  - intros m bs. simpl. repeat case_bool_decide; intros; simplify_eq; set_solver.
  - intros t. by exists t.
Defined.

Definition blank (n : Z) : Device := {| content := zeros (Z.to_nat n); pbsz := None; schedule := [] |}.
Definition DISK : Z := DEFAULT_HEADER_SIZE + 1048576.
Lemma blank_healthy : healthy (blank DISK).
Proof. split; [done|]. unfold blank, DISK, zlen. cbn [content]. rewrite length_zeros. unfold DEFAULT_HEADER_SIZE. lia. Qed.

Definition pass : list Z := str_bytes "secret".

Lemma demo_parts :
  ∃ p r', format_parts (Value := Tpm2Token) (sector_of (blank DISK)) pass (ustr "state") 9 = Ok (p, r').
Proof.
  assert (sector_of (blank DISK) = 4096) as -> by reflexivity.
  apply (format_parts_ok (Value := Tpm2Token) 4096 pass (ustr "state") 9 9 9 9 9 9 (replicate 64 9)
    (replicate 64 9) (replicate 36 45) (replicate 64 9) (replicate 32 9) (replicate 64 5) [123]);
    try reflexivity; [|done]. intros r n. by eexists.
Qed.

Lemma format_then_open_witness :
  ∃ (p : volume_parts (Value := Tpm2Token)) r' d', format (Value := Tpm2Token) pass (ustr "state") 9 (blank DISK) = (Ok r', d') ∧
    open_params (Value := Tpm2Token) 3 (ustr "/dev/vda3") (ustr "state") pass d' =
    (Ok {| cp_name := ustr "state"; cp_dm_uuid := ustr "CRYPT-LUKS2-" ++ filter (λ c, c ≠ 45) (part_uuid p);
           backing_device := ustr "/dev/vda3"; volume_key := part_key p; cipher := CIPHER_SPEC;
           offset_sectors := 32768;
           size_sectors := Z.shiftr (saturating_sub (zlen (content (blank DISK))) DEFAULT_HEADER_SIZE) 9;
           cp_sector_size := sector_of (blank DISK) |}, d').
Proof.
  destruct demo_parts as (p & r' & E). exists p, r'.
  exact (format_then_open (Value := Tpm2Token) (blank DISK) pass (ustr "state") 9 r' p 3
    (ustr "/dev/vda3") (ustr "state") blank_healthy E).
Defined.

Lemma secondary_in_data_segment_witness :
  ∃ (p : volume_parts (Value := Tpm2Token)) r' d' params sec g,
    format (Value := Tpm2Token) pass (ustr "state") 9 (blank DISK) = (Ok r', d') ∧
    open_params (Value := Tpm2Token) 3 (ustr "/dev/vda3") (ustr "state") pass d' = (Ok params, d') ∧
    holds d' (512 * offset_sectors params) sec ∧ parse sec = Ok g ∧ zlen sec = 4096 ∧
    holds d' (512 * offset_sectors params + 4096) (part_json p).
Proof.
  destruct demo_parts as (p & r' & E). exists p, r'.
  exact (secondary_in_data_segment (Value := Tpm2Token) (blank DISK) pass (ustr "state") 9 r' p 3
    (ustr "/dev/vda3") (ustr "state") blank_healthy E).
Defined.

Lemma open_only_verified_witness :
  ∃ d params d', open_params (Value := Tpm2Token) 3 (ustr "/dev/vda3") (ustr "state") pass d = (Ok params, d') ∧
  content d' = content d ∧
  ∃ json m, from_json_buffer json = Ok m ∧ holds d 4096 json ∧ zlen json = 12288 ∧
    verified (Value := Tpm2Token) d m pass (volume_key params).
Proof.
  destruct demo_parts as (p & r' & E).
  destruct (format_writes (blank DISK) pass (ustr "state") 9 r' p blank_healthy E) as (d & Ef & Hs & Hl & Hfm).
  destruct (format_parts_inv _ _ _ _ _ _ E) as (salt & dg & Hp).
  pose proof (open_formatted d _ pass p salt dg 3 (ustr "/dev/vda3") (ustr "state") Hs Hp Hfm) as Ho.
  exists d. eexists. exists d. split; [exact Ho|].
  exact (open_only_verified (Value := Tpm2Token) 3 (ustr "/dev/vda3") (ustr "state") pass d _ d Ho).
Defined.

(** A disk whose JSON area holds the metadata without token. *)
Definition labelled : Device :=
  {| content := zeros 4096 ++ ([123] ++ zeros 12287) ++ zeros (Z.to_nat DEFAULT_HEADER_SIZE);
     pbsz := None; schedule := [] |}.
Lemma labelled_healthy n : (Z.to_nat DEFAULT_HEADER_SIZE ≤ n)%nat →
  healthy {| content := zeros 4096 ++ ([123] ++ zeros 12287) ++ zeros n; pbsz := None; schedule := [] |}.
Proof.
  intros Hn. split; [done|]. cbn [content]. rewrite zlen_app, (zlen_app (_ ++ _)).
  change (zlen (zeros 4096)) with 4096. change (zlen ([123] ++ zeros 12287)) with 12288.
  unfold zlen. rewrite length_zeros. unfold DEFAULT_HEADER_SIZE in *. lia.
Qed.
Lemma labelled_holds n :
  holds {| content := zeros 4096 ++ ([123] ++ zeros 12287) ++ zeros n; pbsz := None; schedule := [] |}
    4096 ([123] ++ zeros 12287).
Proof.
  unfold holds. cbn [content]. assert (zlen ([123] ++ zeros 12287) = 12288) as -> by reflexivity.
  eapply slice_mid; [reflexivity| |].
  - reflexivity.
  - reflexivity.
Qed.

Lemma token_roundtrip_witness :
  ∃ d', write_tpm2_token (Value := Tpm2Token) 0 token labelled = (Ok tt, d') ∧
    read_tpm2_token (Value := Tpm2Token) 1 d' = (Ok token, d') ∧
    keyslots tokened = keyslots bare ∧ digests tokened = digests bare ∧ segments tokened = segments bare ∧
    ∀ i, Z.of_nat i < 4096 ∨ 16384 ≤ Z.of_nat i < DEFAULT_HEADER_SIZE + 4096 ∨
         DEFAULT_HEADER_SIZE + 16384 ≤ Z.of_nat i → content d' !! i = content labelled !! i.
Proof.
  refine (token_roundtrip (Value := Tpm2Token) labelled ([123] ++ zeros 12287) bare [125] token 0 1 tokened
    (labelled_healthy _ (le_n _)) (labelled_holds _) _ _ _ _ _ _ _ _ _).
  - reflexivity.
  - vm_compute. done.
  - apply map_Forall_empty.
  - intros id1 id2 v1 v2 Hl. cbn in Hl. by rewrite lookup_empty in Hl.
  - vm_compute. done.
  - reflexivity.
  - vm_compute. done.
  - vm_compute. done.
  - vm_compute. done.
Defined.
End Demo.
