(* ===== verification/SvcService.v ===== *)
(** Service definitions and their runtime state
    (init/granola/src/supervisor/service.rs), with the health values of the
    notification protocol (init/granola/src/runtime/notify.rs). *)

From S2P Require Import Prelude Utf Text.

(** ** Service definitions *)

Record Service := {
  name : ustring;
  command : ustring;
  depends_on : list ustring
}.

Definition DQUOTE : Z := 34.
Definition SQUOTE : Z := 39.
Definition SPACE : Z := 32.
Definition TAB : Z := 9.

(** ** Splitting a command line *)

Record ArgvBuilder := {
  args : list ustring;
  current : ustring;
  quote : option Z
}.

Definition argv_default : ArgvBuilder := {| args := []; current := []; quote := None |}.

Definition flush (b : ArgvBuilder) : ArgvBuilder :=
  match current b with
  | [] => b
  | _ => {| args := args b ++ [current b]; current := []; quote := quote b |}
  end.

Definition push (b : ArgvBuilder) (ch : Z) : ArgvBuilder :=
  {| args := args b; current := current b ++ [ch]; quote := quote b |}.

Definition accept_unquoted (b : ArgvBuilder) (ch : Z) : ArgvBuilder :=
  if (ch =? DQUOTE) || (ch =? SQUOTE)
  then {| args := args b; current := current b; quote := Some ch |}
  else if (ch =? SPACE) || (ch =? TAB) then flush b
  else push b ch.

Definition accept (b : ArgvBuilder) (ch : Z) : ArgvBuilder :=
  match quote b with
  | Some opening =>
      if ch =? opening
      then {| args := args b; current := current b; quote := None |}
      else push b ch
  | None => accept_unquoted b ch
  end.

Definition argv (s : Service) : list ustring :=
  args (flush (fold_left accept (command s) argv_default)).

(** ** Runtime state *)

Inductive ServiceStatus := Pending | Starting | Ready | Degraded | Stopping | Failed.
#[global] Instance ServiceStatus_eq_dec : EqDecision ServiceStatus.
Proof. solve_decision. Defined.

(** [Display], the wire form of a status. *)
Definition status_wire (s : ServiceStatus) : ustring :=
  ustr match s with
       | Pending => "pending"
       | Starting => "starting"
       | Ready => "ready"
       | Degraded => "degraded"
       | Stopping => "stopping"
       | Failed => "failed"
       end.

Inductive Health := Healthy | HDegraded | Unhealthy.
#[global] Instance Health_eq_dec : EqDecision Health.
Proof. solve_decision. Defined.

Definition as_str (h : Health) : ustring :=
  ustr match h with
       | Healthy => "healthy"
       | HDegraded => "degraded"
       | Unhealthy => "unhealthy"
       end.

Definition health_from_str (s : ustring) : option Health :=
  if decide (s = ustr "healthy") then Some Healthy
  else if decide (s = ustr "degraded") then Some HDegraded
  else if decide (s = ustr "unhealthy") then Some Unhealthy
  else None.

(** File descriptors are numbers; instants are nanoseconds of the monotonic
    clock. *)
Record ServiceState := {
  service : Service;
  pid : option Z;
  status : ServiceStatus;
  listener_fd : option Z;
  restart_count : Z;
  last_restart : option Z;
  last_status : option (ustring * Health)
}.

(** [ServiceState::new]. *)
Definition new_state (s : Service) : ServiceState :=
  {| service := s; pid := None; status := Pending; listener_fd := None;
     restart_count := 0; last_restart := None; last_status := None |}.

Definition set_pid (st : ServiceState) (p : option Z) : ServiceState :=
  {| service := service st; pid := p; status := status st; listener_fd := listener_fd st;
     restart_count := restart_count st; last_restart := last_restart st;
     last_status := last_status st |}.

Definition set_status (st : ServiceState) (s : ServiceStatus) : ServiceState :=
  {| service := service st; pid := pid st; status := s; listener_fd := listener_fd st;
     restart_count := restart_count st; last_restart := last_restart st;
     last_status := last_status st |}.

Definition set_listener (st : ServiceState) (fd : option Z) : ServiceState :=
  {| service := service st; pid := pid st; status := status st; listener_fd := fd;
     restart_count := restart_count st; last_restart := last_restart st;
     last_status := last_status st |}.

Definition set_count (st : ServiceState) (n : Z) : ServiceState :=
  {| service := service st; pid := pid st; status := status st; listener_fd := listener_fd st;
     restart_count := n; last_restart := last_restart st; last_status := last_status st |}.

Definition set_last_restart (st : ServiceState) (t : option Z) : ServiceState :=
  {| service := service st; pid := pid st; status := status st; listener_fd := listener_fd st;
     restart_count := restart_count st; last_restart := t; last_status := last_status st |}.

Definition set_last_status (st : ServiceState) (l : option (ustring * Health)) : ServiceState :=
  {| service := service st; pid := pid st; status := status st; listener_fd := listener_fd st;
     restart_count := restart_count st; last_restart := last_restart st; last_status := l |}.

Lemma health_roundtrip h : health_from_str (as_str h) = Some h.
Proof. by destruct h. Qed.

(** ** Reference view of a command line

    An argument is written as a sequence of fragments, plain text or text
    between two equal quotes, and arguments are separated by blanks. *)

Inductive fragment := Plain (s : ustring) | Quoted (q : Z) (s : ustring).

Definition is_quote (c : Z) : Prop := c = DQUOTE ∨ c = SQUOTE.
Definition is_blank (c : Z) : Prop := c = SPACE ∨ c = TAB.

Definition frag_ok (f : fragment) : Prop :=
  match f with
  | Plain s => Forall (λ c, ¬ is_quote c ∧ ¬ is_blank c) s
  | Quoted q s => is_quote q ∧ q ∉ s
  end.
Definition frag_text (f : fragment) : ustring :=
  match f with Plain s => s | Quoted _ s => s end.
Definition frag_source (f : fragment) : ustring :=
  match f with Plain s => s | Quoted q s => q :: s ++ [q] end.

Definition word_text (w : list fragment) : ustring := w ≫= frag_text.
Definition word_source (w : list fragment) : ustring := w ≫= frag_source.

(** Words, each followed by its blanks; only the last may have none. *)
Definition line_source (ws : list (list fragment * ustring)) : ustring :=
  ws ≫= λ '(w, sep), word_source w ++ sep.
Fixpoint line_ok (ws : list (list fragment * ustring)) : Prop :=
  match ws with
  | [] => True
  | (w, sep) :: rest =>
      Forall frag_ok w ∧ Forall is_blank sep ∧ (sep = [] → rest = []) ∧ line_ok rest
  end.

(** ** Lemmas *)

Definition in_word (b : ArgvBuilder) (s : ustring) : ArgvBuilder :=
  {| args := args b; current := current b ++ s; quote := quote b |}.

Lemma accept_quoted q s b :
  quote b = Some q → q ∉ s → fold_left accept s b = in_word b s.
Proof.
  revert b; induction s as [|c s IH]; intros [a cur qu] Hq Hs; simpl in *; subst.
  - unfold in_word. simpl. by rewrite app_nil_r.
  - assert (accept {| args := a; current := cur; quote := Some q |} c
            = {| args := a; current := cur ++ [c]; quote := Some q |}) as ->.
    { unfold accept. simpl. by rewrite (proj2 (Z.eqb_neq c q)) by set_solver. }
    rewrite IH by set_solver. unfold in_word. simpl. by rewrite <-app_assoc.
Qed.

Lemma accept_plain s b :
  quote b = None → Forall (λ c, ¬ is_quote c ∧ ¬ is_blank c) s →
  fold_left accept s b = in_word b s.
Proof.
  intros Hq Hs. revert b Hq. induction Hs as [|c s [Hc1 Hc2] _ IH]; intros [a cur qu] Hq;
    simpl in *; subst.
  - unfold in_word. simpl. by rewrite app_nil_r.
  - assert (accept {| args := a; current := cur; quote := None |} c
            = {| args := a; current := cur ++ [c]; quote := None |}) as ->.
    { unfold accept, accept_unquoted. simpl. unfold is_quote, is_blank in *.
      rewrite !(proj2 (Z.eqb_neq _ _)) by naive_solver. done. }
    rewrite IH by done. unfold in_word. simpl. by rewrite <-app_assoc.
Qed.

Lemma accept_fragment f b :
  quote b = None → frag_ok f → fold_left accept (frag_source f) b = in_word b (frag_text f).
Proof.
  destruct f as [s|q s]; intros Hq Hf; [by apply accept_plain|].
  destruct Hf as [Hquote Hs]. destruct b as [a cur qu]. simpl in Hq; subst qu.
  cbn [frag_source fold_left]. unfold accept at 2. simpl. unfold accept_unquoted.
  assert ((q =? DQUOTE) || (q =? SQUOTE) = true) as ->.
  { apply orb_true_iff. destruct Hquote as [->| ->]; [left|right]; done. }
  rewrite fold_left_app. erewrite (accept_quoted q s) by done.
  unfold in_word, accept. simpl. by rewrite Z.eqb_refl.
Qed.

Lemma in_word_nil b : in_word b [] = b.
Proof. destruct b. unfold in_word. simpl. by rewrite app_nil_r. Qed.
Lemma in_word_app b s t : in_word (in_word b s) t = in_word b (s ++ t).
Proof. unfold in_word. simpl. by rewrite app_assoc. Qed.

Lemma accept_word w b :
  quote b = None → Forall frag_ok w → fold_left accept (word_source w) b = in_word b (word_text w).
Proof.
  intros Hq Hw. revert b Hq. induction Hw as [|f w Hf _ IH]; intros b Hq.
  { by rewrite in_word_nil. }
  change (word_source (f :: w)) with (frag_source f ++ word_source w).
  change (word_text (f :: w)) with (frag_text f ++ word_text w).
  rewrite fold_left_app, accept_fragment, IH, in_word_app by done. done.
Qed.

Lemma flush_idem b : flush (flush b) = flush b.
Proof. unfold flush. by destruct b as [a [|c cur] q]. Qed.

Lemma accept_blanks c s b :
  quote b = None → Forall is_blank (c :: s) → fold_left accept (c :: s) b = flush b.
Proof.
  intros Hq Hs.
  assert (∀ b, quote b = None → ∀ x, is_blank x → accept b x = flush b) as Hstep.
  { intros b' Hb' x Hx. unfold accept, accept_unquoted. rewrite Hb'.
    by destruct Hx as [->| ->]. }
  apply Forall_cons in Hs as [Hc Hs]. cbn [fold_left]. rewrite Hstep by done.
  assert (quote (flush b) = None) as Hq' by (unfold flush; by destruct (current b)).
  clear Hc. induction Hs as [|x s Hx _ IH]; [done|].
  cbn [fold_left]. by rewrite Hstep, flush_idem.
Qed.

(** The arguments of a line: its words, the empty ones left out. *)
Definition line_args (ws : list (list fragment * ustring)) : list ustring :=
  filter (λ s, s ≠ []) (word_text ∘ fst <$> ws).

Lemma accept_line ws a :
  line_ok ws →
  args (flush (fold_left accept (line_source ws) {| args := a; current := []; quote := None |}))
    = a ++ line_args ws.
Proof.
  revert a. induction ws as [|[w sep] ws IH]; intros a Hok.
  { unfold line_args. simpl. by rewrite app_nil_r. }
  destruct Hok as (Hw & Hsep & Hlast & Hok).
  change (line_source ((w, sep) :: ws)) with ((word_source w ++ sep) ++ line_source ws).
  rewrite !fold_left_app, accept_word by done.
  unfold line_args. rewrite fmap_cons, filter_cons.
  assert (flush (in_word {| args := a; current := []; quote := None |} (word_text w))
          = {| args := a ++ (if decide (word_text w ≠ []) then [word_text w] else []);
               current := []; quote := None |}) as Hfl.
  { unfold in_word, flush. simpl. destruct (word_text w) as [|c t]; simpl;
      [by rewrite app_nil_r|done]. }
  destruct sep as [|c sep].
  - rewrite (Hlast eq_refl). cbn [line_source mbind list_bind fold_left].
    rewrite Hfl. simpl. destruct (decide _); by rewrite ?app_nil_r.
  - rewrite accept_blanks by done. rewrite Hfl, IH by done. unfold line_args.
    rewrite <-app_assoc. f_equal. simpl. destruct (decide _); done.
Qed.

(** Any text can be written: each character in the quotes it is not. *)
Definition quote_char (c : Z) : fragment :=
  Quoted (if decide (c = DQUOTE) then SQUOTE else DQUOTE) [c].

Definition quote_word (s : ustring) : list fragment * ustring := (quote_char <$> s, [SPACE]).

Lemma quote_char_ok c : frag_ok (quote_char c).
Proof.
  unfold quote_char, frag_ok, is_quote, DQUOTE, SQUOTE. case_decide; split; set_solver by lia.
Qed.

Lemma word_text_quote_char s : word_text (quote_char <$> s) = s.
Proof.
  unfold word_text. induction s as [|c s IH]; [done|]. rewrite fmap_cons, bind_cons, IH. done.
Qed.

(** A command line splits into exactly the arguments it writes: plain
    and quoted fragments that touch form one argument, blanks outside quotes
    separate arguments, quotes of the other kind are ordinary characters, and
    an argument with no text is dropped. Every list of nonempty arguments can
    be written that way. *)
Theorem argv_splits_line :
  (∀ (n : ustring) deps lead ws, Forall is_blank lead → line_ok ws →
     argv {| name := n; command := lead ++ line_source ws; depends_on := deps |} = line_args ws) ∧
  (∀ l : list ustring, Forall (λ s, s ≠ []) l →
     line_ok (quote_word <$> l) ∧ line_args (quote_word <$> l) = l).
Proof.
  split.
  - intros n deps lead ws Hlead Hok. unfold argv. simpl.
    assert (fold_left accept lead argv_default = argv_default) as Hl.
    { destruct lead as [|c lead]; [done|]. by rewrite accept_blanks. }
    rewrite fold_left_app, Hl. apply (accept_line ws []), Hok.
  - intros l Hl. induction Hl as [|s l Hs _ [IHok IHargs]]; [done|]. split.
    + split_and!; [|by repeat constructor|done|done].
      apply Forall_fmap, Forall_true. intros c. apply quote_char_ok.
    + unfold line_args in *. rewrite !fmap_cons, filter_cons. simpl.
      rewrite word_text_quote_char, decide_True by done. f_equal. apply IHargs.
Qed.

Lemma argv_splits_line_witness :
  argv {| name := ustr "demo"; command := ustr "  /bin/run --name='a b'  -q "; depends_on := [] |}
    = [ustr "/bin/run"; ustr "--name=a b"; ustr "-q"].
Proof.
  refine (proj1 argv_splits_line (ustr "demo") [] (ustr "  ")
    [([Plain (ustr "/bin/run")], ustr " ");
     ([Plain (ustr "--name="); Quoted SQUOTE (ustr "a b")], ustr "  ");
     ([Plain (ustr "-q")], ustr " ")] _ _).
  - repeat constructor.
  - assert (frag_ok (Quoted SQUOTE (ustr "a b"))) as Hq.
    { split; [by right|]. apply (bool_decide_unpack _). vm_compute. exact I. }
    cbn [line_ok]. split_and!; try done; unfold is_blank;
      repeat (constructor; [try exact Hq|]); try constructor; try (left; reflexivity);
      repeat (constructor; cbn [frag_ok]);
      vm_compute; intros [H|H]; discriminate H.
Defined.
