(* ===== verification/SvcNotify.v ===== *)
(** The notification protocol between services and the supervisor: the
    client (init/granola/src/runtime/notify.rs), and the listener, the
    parser and the effect of a notification on the service table
    (init/granola/src/supervisor/notify.rs). *)

From S2P Require Import Prelude Utf Text SvcService.

(** ** The client *)

Record Notifier := { service_name : ustring; socket_path : ustring }.

Definition DEFAULT_NOTIFY_SOCKET : ustring := ustr "/run/services/granola-notify.sock".

Definition ready_text (n : Notifier) (process_id : Z) : ustring :=
  ustr "SERVICE_NAME=" ++ service_name n ++ [LF] ++ ustr "READY=" ++ decimal process_id.
Definition status_text (n : Notifier) (message : ustring) (h : Health) : ustring :=
  ustr "SERVICE_NAME=" ++ service_name n ++ [LF] ++ ustr "STATUS=" ++ message
    ++ [LF] ++ ustr "HEALTH=" ++ as_str h.
Definition stopping_text (n : Notifier) (reason : ustring) : ustring :=
  ustr "SERVICE_NAME=" ++ service_name n ++ [LF] ++ ustr "STOPPING=" ++ reason.
Definition watchdog_text (n : Notifier) : ustring :=
  ustr "SERVICE_NAME=" ++ service_name n ++ [LF] ++ ustr "WATCHDOG=1".

(** [io::ErrorKind], as far as [send] looks at it. *)
Inductive SendError := ConnectionRefused | NotFound | OtherSendError (code : Z).

(** [send], given the answer of [send_to] for the datagram. *)
Definition send (answer : res SendError Z) : res SendError unit :=
  match answer with
  | Ok _ => Ok ()
  | Err ConnectionRefused => Ok ()
  | Err NotFound => Ok ()
  | Err e => Err e
  | Panic => Panic
  end.

Section client.
(** [UnixDatagram::send_to]. *)
Context (send_to : list Z → ustring → res SendError Z).

Definition new_notifier (service : ustring) : Notifier :=
  {| service_name := service; socket_path := DEFAULT_NOTIFY_SOCKET |}.

Definition notify_ready (n : Notifier) (process_id : Z) : res SendError unit :=
  send (send_to (utf8 (ready_text n process_id)) (socket_path n)).
Definition notify_status (n : Notifier) (message : ustring) (h : Health) : res SendError unit :=
  send (send_to (utf8 (status_text n message h)) (socket_path n)).
Definition notify_stopping (n : Notifier) (reason : ustring) : res SendError unit :=
  send (send_to (utf8 (stopping_text n reason)) (socket_path n)).
Definition notify_watchdog (n : Notifier) : res SendError unit :=
  send (send_to (utf8 (watchdog_text n)) (socket_path n)).
End client.

(** ** The listener *)

Definition MAX_DATAGRAM_SIZE : nat := Z.to_nat 4096.

Inductive ServiceNotification :=
| NReady (service_name : ustring)
| NStatusUpdate (service_name status_text : ustring) (health : Health)
| NStopping (service_name : ustring).

(** The local variables of [parse_notification]. *)
Record ParseState := {
  p_name : option ustring;
  p_ready : option Z;
  p_status : option ustring;
  p_health : option Health;
  p_stopping : option ustring;
  p_watchdog : bool
}.

Definition parse_start : ParseState :=
  {| p_name := None; p_ready := None; p_status := None; p_health := None;
     p_stopping := None; p_watchdog := false |}.

(** The body of the loop over the lines. *)
Definition parse_line (p : ParseState) (line : ustring) : ParseState :=
  match strip_prefix (ustr "SERVICE_NAME=") line with
  | Some nm => {| p_name := Some nm; p_ready := p_ready p; p_status := p_status p;
                  p_health := p_health p; p_stopping := p_stopping p; p_watchdog := p_watchdog p |}
  | None =>
  match strip_prefix (ustr "READY=") line with
  | Some pid_text =>
      {| p_name := p_name p; p_ready := parse_uint 32 pid_text; p_status := p_status p;
         p_health := p_health p; p_stopping := p_stopping p; p_watchdog := p_watchdog p |}
  | None =>
  match strip_prefix (ustr "STATUS=") line with
  | Some t => {| p_name := p_name p; p_ready := p_ready p; p_status := Some t;
                 p_health := p_health p; p_stopping := p_stopping p; p_watchdog := p_watchdog p |}
  | None =>
  match strip_prefix (ustr "HEALTH=") line with
  | Some t =>
      {| p_name := p_name p; p_ready := p_ready p; p_status := p_status p;
         p_health := health_from_str t; p_stopping := p_stopping p; p_watchdog := p_watchdog p |}
  | None =>
  match strip_prefix (ustr "STOPPING=") line with
  | Some t => {| p_name := p_name p; p_ready := p_ready p; p_status := p_status p;
                 p_health := p_health p; p_stopping := Some t; p_watchdog := p_watchdog p |}
  | None =>
      if decide (line = ustr "WATCHDOG=1")
      then {| p_name := p_name p; p_ready := p_ready p; p_status := p_status p;
              p_health := p_health p; p_stopping := p_stopping p; p_watchdog := true |}
      else p
  end end end end end.

Definition parse_notification (text : ustring) : option ServiceNotification :=
  let p := fold_left parse_line (lines text) parse_start in
  nm ← p_name p;
  match p_ready p, p_status p, p_stopping p with
  | Some _, _, _ => Some (NReady nm)
  | None, Some msg, _ => Some (NStatusUpdate nm msg (default Healthy (p_health p)))
  | None, None, Some _ => Some (NStopping nm)
  | None, None, None => if p_watchdog p then None else None
  end.

(** One datagram, as the receive buffer holds it. *)
Definition decode_datagram (d : list Z) : option ServiceNotification :=
  from_utf8 (take MAX_DATAGRAM_SIZE d) ≫= parse_notification.

(** [NotifyListener::poll], over the datagrams queued on the socket. A
    receive on the empty queue fails ([WouldBlock]). *)
Fixpoint poll (queue : list (list Z)) : list ServiceNotification * list (list Z) :=
  match queue with
  | [] => ([], [])
  | d :: queue =>
      match decode_datagram d with
      | Some n => let '(ns, rest) := poll queue in (n :: ns, rest)
      | None => ([], queue)
      end
  end.

(** ** Effects *)

Abbreviation services :=
  (@gmap ustring (@list_eq_dec Z Z.eq_dec) (@list_countable Z Z.eq_dec Z_countable) ServiceState).

Definition apply_ready (ss : services) (nm : ustring) : services :=
  match ss !! nm with
  | None => ss
  | Some st => <[nm := set_count (set_status st Ready) 0]> ss
  end.

Definition status_unchanged (st : ServiceState) (text : ustring) (h : Health) : bool :=
  match last_status st with
  | Some (t, h') => bool_decide (t = text) && bool_decide (h' = h)
  | None => false
  end.

Definition apply_status_update (ss : services) (nm text : ustring) (h : Health) : services :=
  match ss !! nm with
  | None => ss
  | Some st =>
      if status_unchanged st text h then ss
      else
        let st := set_last_status st (Some (text, h)) in
        let st :=
          if decide (h = Healthy)
          then if decide (status st = Degraded) then set_status st Ready else st
          else set_status st Degraded in
        <[nm := st]> ss
  end.

Definition apply_stopping (ss : services) (nm : ustring) : services :=
  match ss !! nm with
  | None => ss
  | Some st => <[nm := set_status st Stopping]> ss
  end.

Definition apply (ss : services) (n : ServiceNotification) : services :=
  match n with
  | NReady nm => apply_ready ss nm
  | NStatusUpdate nm text h => apply_status_update ss nm text h
  | NStopping nm => apply_stopping ss nm
  end.

(** ** Reference view: the messages of the client *)

Inductive message :=
| MReady (process_id : Z)
| MStatus (text : ustring) (h : Health)
| MStopping (reason : ustring)
| MWatchdog.

Definition message_text (n : Notifier) (m : message) : ustring :=
  match m with
  | MReady p => ready_text n p
  | MStatus t h => status_text n t h
  | MStopping r => stopping_text n r
  | MWatchdog => watchdog_text n
  end.

Definition message_meaning (n : Notifier) (m : message) : option ServiceNotification :=
  match m with
  | MReady _ => Some (NReady (service_name n))
  | MStatus t h => Some (NStatusUpdate (service_name n) t h)
  | MStopping _ => Some (NStopping (service_name n))
  | MWatchdog => None
  end.

(** A field value that stays on its line: no line feed, and no carriage
    return in front of the line feed that ends it. *)
Definition field_ok (s : ustring) : Prop := LF ∉ s ∧ last s ≠ Some CR.

Definition message_ok (m : message) : Prop :=
  match m with
  | MReady p => is_u32 p
  | MStatus t _ => field_ok t
  | MStopping r => LF ∉ r
  | MWatchdog => True
  end.

(** ** Lemmas *)

Lemma last_app_ne (a b : ustring) : b ≠ [] → last (a ++ b) = last b.
Proof.
  intros Hb. destruct (exists_last Hb) as (b' & x & ->).
  by rewrite app_assoc, !last_snoc.
Qed.

Lemma field_line (p s : ustring) : field_ok p → field_ok s → field_ok (p ++ s).
Proof.
  intros [Hp Hlp] [Hs Hls]. split; [set_solver|].
  destruct s as [|c s]; [by rewrite app_nil_r|]. by rewrite last_app_ne.
Qed.

Lemma literal_ok (s : string) :
  forallb (λ c, negb (c =? LF) && negb (c =? CR)) (ustr s) = true → field_ok (ustr s).
Proof.
  rewrite forallb_forall. intros H. split; intros Hin.
  - by apply list_elem_of_In, H in Hin.
  - by apply last_Some_elem_of, list_elem_of_In, H in Hin.
Qed.

Lemma decimal_field z : LF ∉ decimal z.
Proof. intros H. pose proof (decimal_are_digits z) as Hd. rewrite Forall_forall in Hd.
  apply Hd in H. unfold LF in H. lia. Qed.

Lemma parse_name_line p s :
  parse_line p (ustr "SERVICE_NAME=" ++ s)
    = {| p_name := Some s; p_ready := p_ready p; p_status := p_status p;
         p_health := p_health p; p_stopping := p_stopping p; p_watchdog := p_watchdog p |}.
Proof. unfold parse_line. by rewrite strip_prefix_app. Qed.

(** The lines of a message: the name, then its own fields. *)
Lemma message_lines (n : Notifier) (body : ustring) :
  field_ok (service_name n) →
  lines (ustr "SERVICE_NAME=" ++ service_name n ++ [LF] ++ body)
    = (ustr "SERVICE_NAME=" ++ service_name n) :: lines body.
Proof.
  intros Hn. rewrite app_assoc. apply lines_lf.
  - by apply field_line; [apply literal_ok|].
  - by apply field_line; [apply literal_ok|].
Qed.

Lemma line_of (k : string) (s : ustring) :
  field_ok (ustr k) → ustr k ≠ [] → LF ∉ s → lines (ustr k ++ s) = [ustr k ++ s].
Proof.
  intros [Hk _] Hne Hs. apply lines_last; [set_solver|].
  intros H. by apply app_eq_nil in H as [? _].
Qed.

Lemma parse_message n m :
  field_ok (service_name n) → message_ok m →
  parse_notification (message_text n m) = message_meaning n m.
Proof.
  intros Hn Hm. unfold parse_notification.
  destruct m as [p|t h|r|]; cbn [message_text message_ok message_meaning] in *.
  - unfold ready_text. rewrite message_lines, line_of by (done || apply decimal_field || by apply literal_ok).
    cbn [fold_left]. rewrite parse_name_line. unfold parse_line at 1.
    replace (strip_prefix (ustr "SERVICE_NAME=") _) with (@None ustring) by done.
    rewrite strip_prefix_app, parse_decimal by (done || lia). done.
  - unfold status_text. rewrite message_lines by done.
    rewrite (app_assoc (ustr "STATUS=")).
    change ([LF] ++ ustr "HEALTH=" ++ as_str h) with (LF :: (ustr "HEALTH=" ++ as_str h)).
    rewrite lines_lf, line_of; [|by apply literal_ok|done|by destruct h; apply literal_ok|
      by apply field_line; [apply literal_ok|]..].
    cbn [fold_left]. rewrite parse_name_line. unfold parse_line at 2.
    replace (strip_prefix (ustr "SERVICE_NAME=") (ustr "STATUS=" ++ t)) with (@None ustring) by done.
    replace (strip_prefix (ustr "READY=") (ustr "STATUS=" ++ t)) with (@None ustring) by done.
    rewrite strip_prefix_app. by destruct h.
  - unfold stopping_text. rewrite message_lines, line_of by (done || by apply literal_ok).
    cbn [fold_left]. rewrite parse_name_line. done.
  - unfold watchdog_text. rewrite message_lines by done.
    change (lines (ustr "WATCHDOG=1")) with [ustr "WATCHDOG=1"].
    cbn [fold_left]. rewrite parse_name_line. done.
Qed.

Definition message_chars (m : message) : Prop :=
  match m with
  | MStatus t _ => is_ustring t
  | MStopping r => is_ustring r
  | _ => True
  end.

Lemma literal_chars (s : string) :
  forallb (λ c, (0 <=? c) && (c <? 128)) (ustr s) = true → is_ustring (ustr s).
Proof.
  rewrite forallb_forall. intros H. apply Forall_forall. intros c Hc.
  apply list_elem_of_In, H, andb_true_iff in Hc as [H1%Z.leb_le H2%Z.ltb_lt].
  left. lia.
Qed.

Lemma decimal_chars z : is_ustring (decimal z).
Proof. eapply Forall_impl; [apply decimal_are_digits|]. intros c Hc. simpl in Hc. left. lia. Qed.

Lemma message_text_chars n m :
  is_ustring (service_name n) → message_chars m → is_ustring (message_text n m).
Proof.
  intros Hn Hm. unfold is_ustring in *.
  assert (Forall is_char [LF]) as Hlf by (constructor; [left; unfold LF; lia|done]).
  pose proof decimal_chars as Hd. unfold is_ustring in Hd.
  destruct m as [p|t h|r|]; cbn [message_text message_chars] in *.
  all: unfold ready_text, status_text, stopping_text, watchdog_text.
  all: repeat first [apply Hd | apply Forall_app; split]; try done; try (by apply literal_chars).
  destruct h; by apply literal_chars.
Qed.

(** The datagram of a message. *)
Definition datagram (n : Notifier) (m : message) : list Z := utf8 (message_text n m).

(** A message the protocol can carry. *)
Definition sendable (n : Notifier) (m : message) : Prop :=
  is_ustring (service_name n) ∧ field_ok (service_name n) ∧ message_chars m ∧ message_ok m ∧
  (length (datagram n m) ≤ MAX_DATAGRAM_SIZE)%nat.

Lemma decode_datagram_message n m :
  sendable n m → decode_datagram (datagram n m) = message_meaning n m.
Proof.
  intros (Hc & Hf & Hmc & Hm & Hlen). unfold decode_datagram, datagram in *.
  rewrite take_ge, from_utf8_utf8 by (done || by apply message_text_chars).
  by apply parse_message.
Qed.

(** [poll] stops behind the first datagram that is no notification. *)
Lemma poll_app good bad :
  poll (good ++ bad) =
    match mapM decode_datagram good with
    | Some ns => let '(ns', rest) := poll bad in (ns ++ ns', rest)
    | None => let '(ns, rest) := poll good in (ns, rest ++ bad)
    end.
Proof.
  induction good as [|d good IH]; cbn [app poll mapM].
  { cbn. by destruct (poll bad). }
  cbn [mbind option_bind]. destruct (decode_datagram d) as [nt|]; cbn; [|done].
  rewrite IH. destruct (mapM decode_datagram good); cbn; [by destruct (poll bad)|].
  by destruct (poll good).
Qed.

Lemma poll_omap queue ns rest :
  poll queue = (ns, rest) →
  omap decode_datagram queue = ns ++ omap decode_datagram rest ∧
  (length rest ≤ length queue - 1)%nat.
Proof.
  revert ns rest; induction queue as [|d queue IH]; intros ns rest; cbn [poll].
  { intros [= <- <-]. done. }
  destruct (decode_datagram d) as [nt|] eqn:Hd.
  - destruct (poll queue) as [ns' rest']. intros [= <- <-].
    destruct (IH ns' rest' eq_refl) as [Ho Hl]. cbn. rewrite Hd. split; [by rewrite Ho|].
    simpl. lia.
  - intros [= <- <-]. cbn. rewrite Hd. split; [done|]. simpl. lia.
Qed.

(** Repeated polls, one per tick of the supervisor. *)
Fixpoint poll_times (k : nat) (queue : list (list Z)) : list ServiceNotification :=
  match k with
  | O => []
  | S k => let '(ns, rest) := poll queue in ns ++ poll_times k rest
  end.

Lemma poll_times_all k queue :
  (length queue ≤ k)%nat → poll_times k queue = omap decode_datagram queue.
Proof.
  revert queue; induction k as [|k IH]; intros queue Hk.
  { destruct queue; [done|simpl in Hk; lia]. }
  cbn [poll_times]. destruct (poll queue) as [ns rest] eqn:Hp.
  apply poll_omap in Hp as [-> Hl]. rewrite IH by lia. done.
Qed.

(** A message the client library sends is received as the notification
    it stands for: ready, status with its health, or stopping, with the name
    of the service, and a keepalive as none. One poll of a socket that holds
    only notifications returns all of them in order and empties the socket;
    and polling once per datagram loses nothing, whatever else the socket
    holds. *)
Theorem notifications_delivered :
  (∀ n m, sendable n m → decode_datagram (datagram n m) = message_meaning n m) ∧
  (∀ queue ns, mapM decode_datagram queue = Some ns → poll queue = (ns, [])) ∧
  (∀ queue, poll_times (length queue) queue = omap decode_datagram queue).
Proof.
  split_and!.
  - apply decode_datagram_message.
  - intros queue ns H. rewrite <-(app_nil_r queue), poll_app, H. cbn. by rewrite app_nil_r.
  - intros queue. by apply poll_times_all.
Qed.

Definition demo_notifier : Notifier := new_notifier (ustr "networkd").

Lemma notifications_delivered_witness :
  let ready := datagram demo_notifier (MReady 4242) in
  decode_datagram ready = Some (NReady (ustr "networkd")) ∧
  poll [ready; datagram demo_notifier (MStopping (ustr "bye"))]
    = ([NReady (ustr "networkd"); NStopping (ustr "networkd")], []).
Proof.
  split.
  - apply (proj1 notifications_delivered demo_notifier (MReady 4242)).
    split_and!; [by apply literal_chars|by apply literal_ok|done|done|].
    apply Nat.leb_le. vm_compute. reflexivity.
  - apply (proj1 (proj2 notifications_delivered)). vm_compute. reflexivity.
Defined.

(** A keepalive that the client library sends, like any datagram that is
    no notification, ends the poll: the notifications behind it stay queued
    for the next one. *)
Theorem poll_stops_at_watchdog n before after ns :
  sendable n MWatchdog → mapM decode_datagram before = Some ns →
  poll (before ++ datagram n MWatchdog :: after) = (ns, after).
Proof.
  intros Hn Hb. rewrite poll_app, Hb. cbn [poll].
  rewrite decode_datagram_message by done. cbn. by rewrite app_nil_r.
Qed.

Lemma poll_stops_at_watchdog_witness :
  poll ([] ++ [datagram demo_notifier MWatchdog; datagram demo_notifier (MReady 7)])
    = ([], [datagram demo_notifier (MReady 7)]).
Proof.
  apply (poll_stops_at_watchdog demo_notifier [] [datagram demo_notifier (MReady 7)] []);
    [|done].
  split_and!; [by apply literal_chars|by apply literal_ok|done|done|].
  apply Nat.leb_le. vm_compute. reflexivity.
Defined.
