(* ===== verification/SvcRestart.v ===== *)
(** Restart policy and the queue of scheduled restarts
    (init/granola/src/supervisor/restart.rs).

    The monotonic clock is a sequence of readings; an operation is told how
    many readings were made before it and answers how many were made after
    it, so that two calls of [Instant::now] in one operation may differ. *)

From S2P Require Import Prelude Utf Text SvcService.

(** Durations and instants in nanoseconds. An [Instant] counts seconds in a
    signed 64-bit integer. *)
Definition SECOND : Z := 1000000000.
Definition INSTANT_END : Z := 2 ^ 63 * SECOND.
Definition instant_checked_add (t d : Z) : option Z :=
  if t + d <? INSTANT_END then Some (t + d) else None.

Definition RESTART_DELAY : Z := SECOND.
Definition MAX_RESTART_ATTEMPTS : Z := 5.
Definition RESTART_WINDOW : Z := 60 * SECOND.
Definition RESCHEDULE_DELAY : Z := SECOND.

Record PendingRestart := { restart_name : ustring; due_at : Z }.

(** [RestartQueue]; the record has the single field [pending]. *)
Abbreviation RestartQueue := (list PendingRestart).
Definition new_queue : RestartQueue := [].

Class Clock := clock : nat → Z.

Section restart.
Context `{Clock}.

(** [Instant::elapsed] never goes below zero. *)
Definition elapsed (now since : Z) : Z := Z.max 0 (now - since).

Definition should_restart (t : nat) (st : ServiceState) (exit_code : option Z) : bool * nat :=
  if decide (status st = Stopping) then (false, t)
  else if decide (exit_code = Some 0) then (false, t)
  else match last_restart st with
       | Some last =>
           (if RESTART_WINDOW <? elapsed (clock t) last then true
            else restart_count st <? MAX_RESTART_ATTEMPTS, S t)
       | None => (restart_count st <? MAX_RESTART_ATTEMPTS, t)
       end.

Definition begin_attempt (t : nat) (st : ServiceState) : ServiceState * nat :=
  let st := set_status st Pending in
  let st := set_count st (saturating_add 32 (restart_count st) 1) in
  (set_last_restart st (Some (clock t)), S t).

Definition enqueue (t : nat) (q : RestartQueue) (nm : ustring) : RestartQueue * nat :=
  match instant_checked_add (clock t) RESTART_DELAY with
  | Some due => (q ++ [{| restart_name := nm; due_at := due |}], S t)
  | None => (q ++ [{| restart_name := nm; due_at := clock (S t) |}], S (S t))
  end.

Definition cancel (q : RestartQueue) (nm : ustring) : RestartQueue :=
  filter (λ r, restart_name r ≠ nm) q.

Definition is_queued (q : RestartQueue) (nm : ustring) : bool :=
  existsb (λ r, bool_decide (restart_name r = nm)) q.

Definition mark_failed (st : ServiceState) : ServiceState := set_status st Failed.

Definition schedule (t : nat) (q : RestartQueue) (st : ServiceState)
    : RestartQueue * ServiceState * nat :=
  let '(st, t) := begin_attempt t st in
  let '(q, t) := enqueue t q (name (service st)) in
  (q, st, t).

Definition record_spawn_failure (t : nat) (q : RestartQueue) (st : ServiceState)
    : RestartQueue * ServiceState * nat :=
  let '(st, t) := begin_attempt t st in
  if MAX_RESTART_ATTEMPTS <=? restart_count st
  then (cancel q (name (service st)), mark_failed st, t)
  else let '(q, t) := enqueue t q (name (service st)) in (q, st, t).

Definition resolve_pending (now : Z) (deps_ready : ustring → bool)
    (acc : RestartQueue * list ustring) (r : PendingRestart) : RestartQueue * list ustring :=
  let '(q, ready) := acc in
  if now <? due_at r then (q ++ [r], ready)
  else if negb (deps_ready (restart_name r))
  then (q ++ [{| restart_name := restart_name r;
                 due_at := default now (instant_checked_add now RESCHEDULE_DELAY) |}], ready)
  else (q, ready ++ [restart_name r]).

Definition take_due (t : nat) (q : RestartQueue) (deps_ready : ustring → bool)
    : RestartQueue * list ustring * nat :=
  (fold_left (resolve_pending (clock t) deps_ready) q ([], []), S t).

(** ** Lemmas *)

Definition queued_names (q : RestartQueue) : list ustring := restart_name <$> q.

Lemma is_queued_true q nm : is_queued q nm = true ↔ nm ∈ queued_names q.
Proof.
  unfold is_queued, queued_names. rewrite existsb_exists. setoid_rewrite bool_decide_eq_true.
  rewrite list_elem_of_fmap. setoid_rewrite <-list_elem_of_In. naive_solver.
Qed.

Lemma is_queued_false q nm : is_queued q nm = false ↔ nm ∉ queued_names q.
Proof. rewrite <-is_queued_true. by destruct (is_queued q nm). Qed.

Lemma enqueue_names t q nm : queued_names (fst (enqueue t q nm)) = queued_names q ++ [nm].
Proof.
  unfold enqueue, queued_names. destruct (instant_checked_add _ _); cbn [fst];
    by rewrite fmap_app.
Qed.

Lemma cancel_names q nm x : x ∈ queued_names (cancel q nm) ↔ x ∈ queued_names q ∧ x ≠ nm.
Proof.
  unfold cancel, queued_names. rewrite !list_elem_of_fmap.
  setoid_rewrite list_elem_of_filter. naive_solver.
Qed.

Lemma cancel_not_queued q nm : nm ∉ queued_names q → cancel q nm = q.
Proof.
  unfold cancel, queued_names. induction q as [|r q IH]; [done|]. rewrite fmap_cons.
  intros Hn. rewrite filter_cons, decide_True by set_solver. rewrite IH by set_solver. done.
Qed.

(** What the scan of the queue leaves and what it hands out. *)
Definition due_now (now : Z) (deps_ready : ustring → bool) (r : PendingRestart) : Prop :=
  due_at r ≤ now ∧ deps_ready (restart_name r) = true.
#[global] Instance due_now_dec now deps r : Decision (due_now now deps r).
Proof. unfold due_now. apply _. Defined.

Definition postponed (now : Z) (r : PendingRestart) : PendingRestart :=
  if now <? due_at r then r
  else {| restart_name := restart_name r;
          due_at := default now (instant_checked_add now RESCHEDULE_DELAY) |}.

Lemma resolve_all now deps_ready q q0 ready0 :
  fold_left (resolve_pending now deps_ready) q (q0, ready0)
    = (q0 ++ (postponed now <$> filter (λ r, ¬ due_now now deps_ready r) q),
       ready0 ++ queued_names (filter (due_now now deps_ready) q)).
Proof.
  revert q0 ready0. induction q as [|r q IH]; intros q0 ready0; cbn [fold_left].
  { by rewrite !app_nil_r. }
  rewrite !filter_cons. unfold resolve_pending at 2.
  destruct (Z.ltb_spec now (due_at r)) as [Hlt|Hge].
  - assert (¬ due_now now deps_ready r) by (unfold due_now; lia).
    rewrite decide_True, decide_False by done. rewrite IH, fmap_cons, <-app_assoc.
    unfold postponed at 2. by rewrite (proj2 (Z.ltb_lt _ _)) by lia.
  - destruct (deps_ready (restart_name r)) eqn:Hd; cbn [negb].
    + assert (due_now now deps_ready r) by done.
      rewrite decide_False by tauto. rewrite decide_True by done. rewrite IH.
      unfold queued_names. by rewrite fmap_cons, <-app_assoc.
    + assert (¬ due_now now deps_ready r) by (intros [_ ?]; congruence).
      rewrite decide_True, decide_False by done. rewrite IH, fmap_cons, <-app_assoc.
      unfold postponed at 2. by rewrite (proj2 (Z.ltb_ge _ _)) by lia.
Qed.

Lemma take_due_eq t q deps_ready :
  take_due t q deps_ready
    = (postponed (clock t) <$> filter (λ r, ¬ due_now (clock t) deps_ready r) q,
       queued_names (filter (due_now (clock t) deps_ready) q), S t).
Proof. unfold take_due. by rewrite resolve_all. Qed.

Lemma postponed_name now r : restart_name (postponed now r) = restart_name r.
Proof. unfold postponed. by destruct (now <? due_at r). Qed.

Lemma postponed_names now q : queued_names (postponed now <$> q) = queued_names q.
Proof.
  unfold queued_names. rewrite <-list_fmap_compose. apply list_fmap_ext.
  intros i r _. apply postponed_name.
Qed.

(** The names are neither lost nor duplicated by the scan. *)
Lemma take_due_names t q deps_ready q' ready t' :
  take_due t q deps_ready = (q', ready, t') → queued_names q' ++ ready ≡ₚ queued_names q.
Proof.
  rewrite take_due_eq. intros [= <- <- <-]. rewrite postponed_names. unfold queued_names.
  rewrite <-fmap_app, Permutation_app_comm. apply fmap_Permutation.
  induction q as [|r q IH]; [done|]. rewrite !filter_cons.
  destruct (decide (due_now _ _ r)).
  - rewrite decide_False by tauto. simpl. by rewrite IH.
  - rewrite decide_True by done. rewrite <-Permutation_middle. by rewrite IH.
Qed.
End restart.
