(* ===== verification/SvcProcess.v ===== *)
(** The two process back ends of the supervisor: spawning
    (init/granola/src/supervisor/spawner.rs) and reaping
    (init/granola/src/supervisor/reaper.rs).

    The traits [Spawn] and [Reap] are type classes whose laws say what the
    supervisor relies on; [Spawner] and [Reaper] are the instances for real
    processes, over the system calls they make. *)

From S2P Require Import Prelude Utf Text SvcService.

(** ** Spawning *)

Record SpawnResult := { spawned_pid : Z; stdout : Z; stderr : Z }.

Inductive SpawnError :=
| EmptyCommand
| BinaryNotFound (program : ustring)
| SpawnFailed
| ServiceNotFound (name : ustring).

(** [spawn] answers the new state of the spawner, of the service, and the
    outcome. [busy] is the set of process numbers in use, of which a spawn
    takes none. *)
Class Spawn (Sp : Type) := {
  spawn : Sp → ServiceState → Sp * ServiceState * res SpawnError SpawnResult;
  busy : Sp → gset Z
}.

Class SpawnLaws (Sp : Type) `{Spawn Sp} := {
  spawn_ok s st s' st' r :
    spawn s st = (s', st', Ok r) →
    st' = set_status (set_pid st (Some (spawned_pid r))) Starting ∧
    spawned_pid r ∉ busy s ∧ busy s' = {[spawned_pid r]} ∪ busy s;
  spawn_err s st s' st' e :
    spawn s st = (s', st', Err e) → st' = st ∧ busy s' = busy s;
  spawn_no_panic s st s' st' : spawn s st ≠ (s', st', Panic)
}.

(** The system calls behind [Command::spawn]: does a path exist, and fork,
    exec and the two pipes. A new process has a number no other process in
    the process table has. *)
Class Os (Sys : Type) := {
  path_exists : Sys → ustring → bool;
  os_spawn : Sys → ustring → list ustring → option Z → Sys * option (Z * Z * Z);
  process_table : Sys → gset Z
}.

(** [u32::cast_signed]. *)
Definition cast_signed (z : Z) : Z := if z <? 2 ^ 31 then z else z - 2 ^ 32.

Class OsLaws (Sys : Type) `{Os Sys} := {
  os_spawn_some o prog args fd o' id out err :
    os_spawn o prog args fd = (o', Some (id, out, err)) →
    cast_signed id ∉ process_table o ∧
    process_table o' = {[cast_signed id]} ∪ process_table o;
  os_spawn_none o prog args fd o' :
    os_spawn o prog args fd = (o', None) → process_table o' = process_table o
}.

(** [Spawner::spawn]. The listener, when there is one, is duplicated to
    descriptor 3 of the child. *)
Definition spawner_spawn `{Os Sys} (o : Sys) (st : ServiceState)
    : Sys * ServiceState * res SpawnError SpawnResult :=
  match argv (service st) with
  | [] => (o, st, Err EmptyCommand)
  | program :: args =>
      if negb (path_exists o program) then (o, st, Err (BinaryNotFound program))
      else
        match os_spawn o program args (listener_fd st) with
        | (o, None) => (o, st, Err SpawnFailed)
        | (o, Some (id, out, err)) =>
            let p := cast_signed id in
            (o, set_status (set_pid st (Some p)) Starting,
             Ok {| spawned_pid := p; stdout := out; stderr := err |})
        end
  end.

#[global] Instance Spawner `{Os Sys} : Spawn Sys :=
  {| spawn := spawner_spawn; busy := process_table |}.

#[global] Instance Spawner_laws `{OsLaws Sys} : SpawnLaws Sys.
Proof.
  split; cbn [spawn busy Spawner]; unfold spawner_spawn; intros.
  all: destruct (argv (service st)) as [|program args]; [by simplify_eq|].
  all: destruct (path_exists s program); cbn [negb] in *; [|by simplify_eq].
  all: destruct (os_spawn s program args (listener_fd st)) as [o' [[[id out] err]|]] eqn:Ho;
         simplify_eq.
  - apply os_spawn_some in Ho as [? ?]. done.
  - apply os_spawn_none in Ho. done.
  - done.
  - done.
Qed.

(** ** Reaping *)

Record ChildExit := { exit_pid : Z; exit_code : option Z; exit_signal : option Z }.

(** [known] maps the numbers of the processes that still run, or were not
    yet reaped, to their service names. *)
Class Reap (R : Type) := {
  track : R → Z → ustring → R;
  reap_all : R → list (ustring * ChildExit) * R;
  known : R → gmap Z ustring
}.

Class ReapLaws (R : Type) `{Reap R} := {
  known_track r p n : known (track r p n) = <[p := n]> (known r);
  reap_all_known r exits r' :
    reap_all r = (exits, r') →
    NoDup ((λ x, exit_pid (snd x)) <$> exits) ∧
    (∀ n e, (n, e) ∈ exits → known r !! exit_pid e = Some n) ∧
    (∀ p, known r' !! p
       = if decide (p ∈ (λ x, exit_pid (snd x)) <$> exits) then None else known r !! p)
}.

(** [rustix::process::WaitStatus]. *)
Class WaitStatus (W : Type) := {
  exited : W → bool;
  exit_status : W → option Z;
  signaled : W → bool;
  terminating_signal : W → option Z
}.

Section reaper.
Context `{WaitStatus W}.

(** The reaper, with the children [waitpid] has to report, in its order. *)
Record Reaper := { known_pids : gmap Z ustring; children : list (Z * W) }.

Definition decode_wait_status (p : Z) (w : W) : option ChildExit :=
  if exited w then Some {| exit_pid := p; exit_code := exit_status w; exit_signal := None |}
  else if signaled w
  then Some {| exit_pid := p; exit_code := None; exit_signal := terminating_signal w |}
  else None.

Definition dispatch_exit (pids : gmap Z ustring) (exits : list (ustring * ChildExit))
    (p : Z) (e : ChildExit) : gmap Z ustring * list (ustring * ChildExit) :=
  match pids !! p with
  | Some n => (delete p pids, exits ++ [(n, e)])
  | None => (pids, exits)
  end.

Definition reap_child (acc : gmap Z ustring * list (ustring * ChildExit)) (child : Z * W)
    : gmap Z ustring * list (ustring * ChildExit) :=
  let '(pids, exits) := acc in
  match decode_wait_status (fst child) (snd child) with
  | None => (pids, exits)
  | Some e => dispatch_exit pids exits (fst child) e
  end.

(** [reap_all]: [waitpid] with [WNOHANG] until it reports no child. *)
Definition reaper_reap_all (r : Reaper) : list (ustring * ChildExit) * Reaper :=
  let '(pids, exits) := fold_left reap_child (children r) (known_pids r, []) in
  (exits, {| known_pids := pids; children := [] |}).

Definition reaper_track (r : Reaper) (p : Z) (n : ustring) : Reaper :=
  {| known_pids := <[p := n]> (known_pids r); children := children r |}.

#[global] Instance Reaper_reap : Reap Reaper :=
  {| track := reaper_track; reap_all := reaper_reap_all; known := known_pids |}.

(** The relation between the exits collected so far and the map. *)
Definition reap_inv (start : gmap Z ustring)
    (acc : gmap Z ustring * list (ustring * ChildExit)) : Prop :=
  NoDup ((λ x, exit_pid (snd x)) <$> snd acc) ∧
  (∀ n e, (n, e) ∈ snd acc → start !! exit_pid e = Some n) ∧
  (∀ p, fst acc !! p
     = if decide (p ∈ (λ x, exit_pid (snd x)) <$> snd acc) then None else start !! p).

Lemma reap_child_inv start acc child :
  reap_inv start acc → reap_inv start (reap_child acc child).
Proof.
  destruct acc as [pids exits], child as [p w]. intros (Hnd & Hkn & Hmap).
  unfold reap_child. cbn [fst snd] in *.
  destruct (decode_wait_status p w) as [e|] eqn:Hd; [|done].
  assert (exit_pid e = p) as He.
  { unfold decode_wait_status in Hd. destruct (exited w); [|destruct (signaled w)];
      simplify_eq; done. }
  unfold dispatch_exit. destruct (pids !! p) as [n|] eqn:Hp; [|done].
  rewrite Hmap in Hp. destruct (decide (p ∈ _)) as [|Hnotin]; [done|].
  unfold reap_inv. cbn [fst snd]. rewrite fmap_app. cbn [fmap list_fmap snd]. rewrite He.
  split_and!.
  - apply NoDup_app. split; [done|]. split; [set_solver|apply NoDup_singleton].
  - intros n' e' [Hin|Hin]%elem_of_app; [by apply Hkn|].
    apply list_elem_of_singleton in Hin. by simplify_eq.
  - intros p'. destruct (decide (p' = p)) as [->|Hne].
    + rewrite lookup_delete_eq, decide_True by set_solver. done.
    + rewrite lookup_delete_ne, Hmap by done.
      destruct (decide (p' ∈ _ <$> exits)); [rewrite decide_True by set_solver; done|].
      rewrite decide_False by set_solver. done.
Qed.

#[global] Instance Reaper_laws : ReapLaws Reaper.
Proof.
  split; [done|]. intros r exits r'. cbn [reap_all known Reaper_reap]. unfold reaper_reap_all.
  destruct (fold_left reap_child (children r) (known_pids r, [])) as [pids ex] eqn:Hf.
  intros [= <- <-]. cbn [known_pids].
  assert (reap_inv (known_pids r) (pids, ex)) as Hinv; [|exact Hinv].
  rewrite <-Hf. clear Hf. assert (reap_inv (known_pids r) (known_pids r, [])) as H0.
  { split_and!; cbn; [constructor|set_solver|done]. }
  revert H0. generalize (known_pids r, @nil (ustring * ChildExit)) as acc.
  induction (children r) as [|c l IH]; intros acc Hacc; cbn [fold_left]; [done|].
  by apply IH, reap_child_inv.
Qed.
End reaper.
Arguments Reaper W : clear implicits.

(** Wait statuses as Linux encodes them. *)
#[global] Instance linux_status : WaitStatus Z := {|
  exited w := Z.land w 0x7F =? 0;
  exit_status w := if Z.land w 0x7F =? 0 then Some (Z.land (Z.shiftr w 8) 0xFF) else None;
  signaled w := negb (Z.land w 0x7F =? 0) && negb (Z.land w 0x7F =? 0x7F);
  terminating_signal w :=
    if negb (Z.land w 0x7F =? 0) && negb (Z.land w 0x7F =? 0x7F)
    then Some (Z.land w 0x7F) else None
|}.
