(* ===== verification/SvcSuper.v ===== *)
(** The service supervisor: dependency checks
    (init/granola/src/supervisor/dependency.rs), the published snapshot
    (init/granola/src/supervisor/status.rs) and the event loop with its
    handlers (init/granola/src/supervisor/mod.rs).

    The handlers thread the whole supervisor state; the event loop is a step
    relation, in which the environment may queue datagrams, end children and
    change the process table between two handlers. *)

From S2P Require Import Prelude Utf Text SvcService SvcNotify SvcRestart SvcProcess.

(** [HashMap] iteration visits every entry once, in an order of its own. *)
Class HashIter := {
  hash_iter : services → list (ustring * ServiceState);
  hash_iter_perm ss : hash_iter ss ≡ₚ map_to_list ss
}.

(** ** Dependencies *)

Definition is_ready (ss : services) (dep : ustring) : bool :=
  match ss !! dep with
  | Some st => bool_decide (status st = Ready)
  | None => false
  end.

Definition are_satisfied (s : Service) (ss : services) : bool :=
  forallb (is_ready ss) (depends_on s).

Definition startable (ss : services) (x : ustring * ServiceState) : Prop :=
  status (snd x) = Pending ∧ are_satisfied (service (snd x)) ss = true.
#[global] Instance startable_dec ss x : Decision (startable ss x).
Proof. unfold startable. apply _. Defined.

Definition collect_startable `{HashIter} (ss : services) : list ustring :=
  fst <$> filter (startable ss) (hash_iter ss).

(** ** The published snapshot *)

Record View := { view_name : ustring; view_status : ServiceStatus; restarts : Z }.
#[global] Instance View_eq_dec : EqDecision View.
Proof. solve_decision. Defined.

Abbreviation Snapshot := (list View).

(** [watch::Sender]: the stored value and how often it was replaced. *)
Record Watch := { watch_value : Snapshot; watch_version : nat }.
Definition channel : Watch := {| watch_value := []; watch_version := 0 |}.

Definition view (x : ustring * ServiceState) : View :=
  {| view_name := fst x; view_status := status (snd x); restarts := restart_count (snd x) |}.

Definition view_le (a b : View) : Prop := str_le (view_name a) (view_name b).
#[global] Instance view_le_dec a b : Decision (view_le a b).
Proof. unfold view_le. apply _. Defined.
#[global] Instance view_le_total : Total view_le.
Proof. intros a b. apply str_le_total. Qed.

Definition publish `{HashIter} (ss : services) (tx : Watch) : Watch :=
  let snapshot := merge_sort view_le (view <$> hash_iter ss) in
  if decide (watch_value tx = snapshot) then tx
  else {| watch_value := snapshot; watch_version := S (watch_version tx) |}.

(** ** The supervisor *)

Section supervisor.
Context {Sp R : Type} `{Spawn Sp} `{Reap R} `{Clock}.

(** [notify_listener] is the queue of its socket; [captured] records the
    output descriptors handed to the log reader tasks; [reads] counts the
    readings of the clock. *)
Record Supervisor := {
  svcs : services;
  notify_listener : list (list Z);
  reaper : R;
  restart_queue : RestartQueue;
  captured : list (ustring * Z * Z);
  status_tx : Watch;
  spawner : Sp;
  reads : nat
}.

Definition with_svcs (s : Supervisor) (ss : services) : Supervisor :=
  {| svcs := ss; notify_listener := notify_listener s; reaper := reaper s;
     restart_queue := restart_queue s; captured := captured s; status_tx := status_tx s;
     spawner := spawner s; reads := reads s |}.

Definition with_queue (s : Supervisor) (q : RestartQueue) (t : nat) : Supervisor :=
  {| svcs := svcs s; notify_listener := notify_listener s; reaper := reaper s;
     restart_queue := q; captured := captured s; status_tx := status_tx s;
     spawner := spawner s; reads := t |}.

Definition with_tx (s : Supervisor) (tx : Watch) : Supervisor :=
  {| svcs := svcs s; notify_listener := notify_listener s; reaper := reaper s;
     restart_queue := restart_queue s; captured := captured s; status_tx := tx;
     spawner := spawner s; reads := reads s |}.

Definition with_socket (s : Supervisor) (l : list (list Z)) : Supervisor :=
  {| svcs := svcs s; notify_listener := l; reaper := reaper s;
     restart_queue := restart_queue s; captured := captured s; status_tx := status_tx s;
     spawner := spawner s; reads := reads s |}.

Definition with_reaper (s : Supervisor) (r : R) : Supervisor :=
  {| svcs := svcs s; notify_listener := notify_listener s; reaper := r;
     restart_queue := restart_queue s; captured := captured s; status_tx := status_tx s;
     spawner := spawner s; reads := reads s |}.

Definition with_spawner (s : Supervisor) (sp : Sp) : Supervisor :=
  {| svcs := svcs s; notify_listener := notify_listener s; reaper := reaper s;
     restart_queue := restart_queue s; captured := captured s; status_tx := status_tx s;
     spawner := sp; reads := reads s |}.

Definition with_capture (s : Supervisor) (c : ustring * Z * Z) : Supervisor :=
  {| svcs := svcs s; notify_listener := notify_listener s; reaper := reaper s;
     restart_queue := restart_queue s; captured := captured s ++ [c]; status_tx := status_tx s;
     spawner := spawner s; reads := reads s |}.

(** [with_backends]. A later definition of a name replaces an earlier one;
    [pre_bind] answers the listener of the [i]-th definition, if it could be
    bound. *)
Definition load_service (pre_bind : nat → ustring → option Z)
    (acc : nat * services) (def : Service) : nat * services :=
  let '(i, ss) := acc in
  let st := new_state def in
  let st := match pre_bind i (name def) with
            | Some fd => set_listener st (Some fd)
            | None => st
            end in
  (S i, <[name def := st]> ss).

Definition with_backends (pre_bind : nat → ustring → option Z) (defs : list Service)
    (tx : Watch) (sp : Sp) (r : R) : Supervisor :=
  {| svcs := snd (fold_left (load_service pre_bind) defs (0%nat, ∅));
     notify_listener := []; reaper := r; restart_queue := new_queue; captured := [];
     status_tx := tx; spawner := sp; reads := 0 |}.

Definition handle_service_exit (s : Supervisor) (nm : ustring) (code : option Z) : Supervisor :=
  match svcs s !! nm with
  | None => s
  | Some st =>
      let st := set_pid st None in
      let '(again, t) := should_restart (reads s) st code in
      if again then
        let '(q, st, t) := schedule t (restart_queue s) st in
        with_queue (with_svcs s (<[nm := st]> (svcs s))) q t
      else if decide (code = Some 0) then
        with_queue (with_svcs s (<[nm := set_status st Stopping]> (svcs s))) (restart_queue s) t
      else
        with_queue (with_svcs s (<[nm := mark_failed st]> (svcs s))) (restart_queue s) t
  end.

Section iter.
Context `{HashIter}.

Definition republish (s : Supervisor) : Supervisor :=
  with_tx s (publish (svcs s) (status_tx s)).

Definition handle_exit (s : Supervisor) (x : ustring * ChildExit) : Supervisor :=
  handle_service_exit s (fst x) (exit_code (snd x)).

Definition process_exits (s : Supervisor) (exits : list (ustring * ChildExit)) : Supervisor :=
  republish (fold_left handle_exit exits s).

Definition spawn_service (s : Supervisor) (nm : ustring) : Supervisor * res SpawnError unit :=
  match svcs s !! nm with
  | None => (s, Err (ServiceNotFound nm))
  | Some st =>
      let '(sp, st, outcome) := spawn (spawner s) st in
      let s := with_spawner (with_svcs s (<[nm := st]> (svcs s))) sp in
      match outcome with
      | Ok r =>
          let s := with_reaper s (track (reaper s) (spawned_pid r) nm) in
          let s := with_capture s (nm, stdout r, stderr r) in
          (republish s, Ok ())
      | Err e => (s, Err e)
      | Panic => (s, Panic)
      end
  end.

Definition spawn_or_log (s : Supervisor) (nm : ustring) : Supervisor :=
  match spawn_service s nm with
  | (s, Err _) =>
      match svcs s !! nm with
      | Some st =>
          let '(q, st, t) := record_spawn_failure (reads s) (restart_queue s) st in
          republish (with_queue (with_svcs s (<[nm := st]> (svcs s))) q t)
      | None => republish s
      end
  | (s, _) => s
  end.

Definition start_ready_services (s : Supervisor) : Supervisor :=
  let names := filter (λ nm, is_queued (restart_queue s) nm = false) (collect_startable (svcs s)) in
  fold_left spawn_or_log names s.

Definition process_notifications (s : Supervisor) : Supervisor :=
  let '(notifications, rest) := poll (notify_listener s) in
  let s := with_socket s rest in
  let s := with_svcs s (fold_left apply notifications (svcs s)) in
  let s := start_ready_services s in
  match notifications with [] => s | _ => republish s end.

Definition deps_ready (ss : services) (nm : ustring) : bool :=
  match ss !! nm with
  | Some st => are_satisfied (service st) ss
  | None => false
  end.

Definition process_pending_restarts (s : Supervisor) : Supervisor :=
  let '(q, due, t) := take_due (reads s) (restart_queue s) (deps_ready (svcs s)) in
  fold_left spawn_or_log due (with_queue s q t).

(** The branches of the [select!] of [run], and what precedes its loop. *)
Definition on_exits (s : Supervisor) : Supervisor :=
  let '(exits, r) := reap_all (reaper s) in process_exits (with_reaper s r) exits.
Definition on_tick (s : Supervisor) : Supervisor :=
  process_pending_restarts (process_notifications s).
Definition on_sweep (s : Supervisor) : Supervisor :=
  let '(exits, r) := reap_all (reaper s) in
  match exits with
  | [] => with_reaper s r
  | _ => process_exits (with_reaper s r) exits
  end.
Definition start (s : Supervisor) : Supervisor := republish (start_ready_services s).
End iter.

(** One iteration of the loop, or an action of the environment between two
    of them. The order of a hash map may differ from step to step. *)
Inductive step (s : Supervisor) : Supervisor → Prop :=
| step_exits `{HashIter} : step s (on_exits s)
| step_signal : step s s
| step_tick `{HashIter} : step s (on_tick s)
| step_sweep `{HashIter} : step s (on_sweep s)
| env_datagram d : step s (with_socket s (notify_listener s ++ [d]))
| env_children r : known r = known (reaper s) → step s (with_reaper s r)
| env_processes sp : dom (known (reaper s)) ⊆ busy sp → step s (with_spawner s sp).

(** A state of the loop: [run] on a supervisor whose reaper knows no child. *)
Inductive reachable : Supervisor → Prop :=
| reach_start `{HashIter} pre_bind defs tx sp r :
    known r = ∅ → reachable (start (with_backends pre_bind defs tx sp r))
| reach_step s s' : reachable s → step s s' → reachable s'.
End supervisor.
Arguments Supervisor Sp R : clear implicits.
