(* ===== verification/SvcInv.v ===== *)
(** The supervisor's invariants, over every sequence of loop iterations and
    environment actions: processes and the service table agree, a service has
    at most one process, queued restarts are unique, and services start only
    behind their dependencies. *)

From S2P Require Import Prelude Utf Text SvcService SvcNotify SvcRestart SvcProcess SvcSuper.

Section invariant.
Context {Sp R : Type} `{SpawnLaws Sp} `{ReapLaws R} `{Clock}.
Implicit Types (s : Supervisor Sp R) (nm : ustring).

(** ** The invariant

    [live] maps the processes whose exit was not yet handled to their
    services. *)
Record inv_on (live : gmap Z ustring) s : Prop := {
  inv_names k st : svcs s !! k = Some st → name (service st) = k;
  inv_procs p k : live !! p = Some k ↔ ∃ st, svcs s !! k = Some st ∧ pid st = Some p;
  inv_idle k st : svcs s !! k = Some st → status st = Pending ∨ k ∈ queued_names (restart_queue s) →
    pid st = None;
  inv_queue : NoDup (queued_names (restart_queue s));
  inv_queued k : k ∈ queued_names (restart_queue s) → is_Some (svcs s !! k)
}.

Definition sup_inv s : Prop :=
  inv_on (known (reaper s)) s ∧ dom (known (reaper s)) ⊆ busy (spawner s).

(** States with the same table and queue. *)
Lemma inv_on_ext live s s' :
  svcs s' = svcs s → restart_queue s' = restart_queue s → inv_on live s → inv_on live s'.
Proof. intros Hs Hq [? ? ? ? ?]. split; rewrite ?Hs, ?Hq; done. Qed.

(** A change of one service that keeps its name, process and idleness. *)
Lemma inv_update live s nm st st' :
  inv_on live s → svcs s !! nm = Some st → service st' = service st → pid st' = pid st →
  (status st' = Pending → status st = Pending) →
  inv_on live (with_svcs s (<[nm := st']> (svcs s))).
Proof.
  intros [Hn Hp Hi Hq Hd] Hnm Hsv Hpid Hst. split; cbn; try done.
  - intros k st2 Hk. destruct (decide (k = nm)) as [->|]; simplify_map_eq; [|by eapply Hn].
    rewrite Hsv. by apply Hn.
  - intros p k. rewrite Hp. destruct (decide (k = nm)) as [->|Hne]; [|by simplify_map_eq].
    setoid_rewrite lookup_insert_eq. rewrite Hnm. split.
    + intros (st2 & ? & ?). simplify_eq. exists st'. by rewrite Hpid.
    + intros (st2 & ? & ?). simplify_eq. exists st. by rewrite <-Hpid.
  - intros k st2 Hk Hor. destruct (decide (k = nm)) as [->|]; simplify_map_eq; [|by eapply Hi].
    rewrite Hpid. apply (Hi nm); [done|]. naive_solver.
  - intros k Hk. destruct (decide (k = nm)) as [->|]; simplify_map_eq; eauto.
Qed.

(** ** Notifications *)

Lemma apply_inv live s n :
  inv_on live s → inv_on live (with_svcs s (apply (svcs s) n)).
Proof.
  intros Hinv. assert (inv_on live (with_svcs s (svcs s))) as Hsame by by apply (inv_on_ext live s).
  destruct n as [nm|nm text h|nm]; cbn [apply].
  - unfold apply_ready. destruct (svcs s !! nm) as [st|] eqn:Hnm; [|done].
    by eapply inv_update.
  - unfold apply_status_update. destruct (svcs s !! nm) as [st|] eqn:Hnm; [|done].
    destruct (status_unchanged st text h); [done|].
    eapply inv_update; [done..| | |]; repeat case_decide; done.
  - unfold apply_stopping. destruct (svcs s !! nm) as [st|] eqn:Hnm; [|done].
    by eapply inv_update.
Qed.

Lemma apply_all_inv live s ns :
  inv_on live s → inv_on live (with_svcs s (fold_left apply ns (svcs s))).
Proof.
  revert s; induction ns as [|n ns IH]; intros s Hinv; cbn [fold_left].
  { by apply (inv_on_ext live s). }
  apply (IH (with_svcs s (apply (svcs s) n))). by apply apply_inv.
Qed.

(** ** Exits *)

Lemma schedule_eq t q st q' st' t' :
  schedule t q st = (q', st', t') →
  queued_names q' = queued_names q ++ [name (service st)] ∧ service st' = service st ∧
  pid st' = pid st ∧ status st' = Pending ∧ last_restart st' = Some (clock t) ∧
  restart_count st' = saturating_add 32 (restart_count st) 1.
Proof.
  unfold schedule, begin_attempt. cbn.
  pose proof (enqueue_names (S t) q (name (service st))) as He.
  destruct (enqueue (S t) q (name (service st))) as [q2 t2]. intros [= <- <- <-]. done.
Qed.

(** The service whose process ended, with its restart perhaps queued. *)
Lemma inv_exit live s nm p st st' q' :
  inv_on live s → live !! p = Some nm → svcs s !! nm = Some st →
  service st' = service st → pid st' = None →
  (q' = restart_queue s ∨ queued_names q' = queued_names (restart_queue s) ++ [nm]) →
  ∀ t, inv_on (delete p live) (with_queue (with_svcs s (<[nm := st']> (svcs s))) q' t).
Proof.
  intros [Hn Hp Hi Hq Hd] Hlive Hnm Hsv Hpid Hqueue t.
  assert (pid st = Some p) as Hpst.
  { apply Hp in Hlive as (? & ? & ?). by simplify_eq. }
  assert (nm ∉ queued_names (restart_queue s)) as Hnq.
  { intros Hin. rewrite (Hi nm st) in Hpst; auto. done. }
  assert (NoDup (queued_names q') ∧
    ∀ k, k ∈ queued_names q' → k = nm ∨ k ∈ queued_names (restart_queue s)) as [Hqn Hqi].
  { destruct Hqueue as [->| ->]; [auto|]. split; [|set_solver].
    apply NoDup_app. split; [done|]. split; [set_solver|apply NoDup_singleton]. }
  split; cbn.
  - intros k st2 Hk. destruct (decide (k = nm)) as [->|]; simplify_map_eq; [|by eapply Hn].
    rewrite Hsv. by apply Hn.
  - intros p' k. destruct (decide (k = nm)) as [->|Hne].
    + setoid_rewrite lookup_insert_eq. split.
      * intros [Hpp Hl]%lookup_delete_Some. apply Hp in Hl as (st2 & ? & ?). congruence.
      * intros (st2 & ? & ?). by simplify_eq.
    + rewrite lookup_insert_ne by done. rewrite <-Hp, lookup_delete_Some. split; [naive_solver|].
      intros Hl. split; [|done]. intros ->. rewrite Hlive in Hl. congruence.
  - intros k st2 Hk Hor. destruct (decide (k = nm)) as [->|]; simplify_map_eq; [done|].
    eapply Hi; [done|]. destruct Hor as [|Hin]; [auto|]. right. by destruct (Hqi k Hin).
  - done.
  - intros k Hk. destruct (decide (k = nm)) as [->|]; simplify_map_eq; [eauto|].
    apply Hd. by destruct (Hqi k Hk).
Qed.

Lemma handle_exit_inv live s nm p code :
  inv_on live s → live !! p = Some nm →
  inv_on (delete p live) (handle_service_exit s nm code).
Proof.
  intros Hinv Hlive. pose proof Hlive as (st & Hnm & Hpst)%Hinv.
  unfold handle_service_exit. rewrite Hnm.
  destruct (should_restart _ _ _) as [again t].
  destruct again; [|case_decide; by eapply inv_exit; eauto].
  destruct (schedule t (restart_queue s) (set_pid st None)) as [[q' st'] t'] eqn:Hs.
  apply schedule_eq in Hs as (Hq & Hsv & Hpid & _). cbn in Hq.
  eapply inv_exit; eauto. right. rewrite Hq. do 2 f_equal. by eapply inv_names.
Qed.

(** Handlers of exits leave the processes alone. *)
Lemma handle_exit_reaper s nm code :
  reaper (handle_service_exit s nm code) = reaper s ∧
  spawner (handle_service_exit s nm code) = spawner s.
Proof.
  unfold handle_service_exit. destruct (svcs s !! nm); [|done].
  destruct (should_restart _ _ _) as [[] t].
  - by destruct (schedule _ _ _) as [[? ?] ?].
  - by case_decide.
Qed.

Lemma handle_exits_inv live exits s :
  inv_on live s → NoDup ((λ x, exit_pid (snd x)) <$> exits) →
  (∀ n e, (n, e) ∈ exits → live !! exit_pid e = Some n) →
  let s' := fold_left handle_exit exits s in
  reaper s' = reaper s ∧ spawner s' = spawner s ∧
  inv_on (filter (λ '(p, _), p ∉ (λ x, exit_pid (snd x)) <$> exits) live) s'.
Proof.
  revert live s. induction exits as [|[n e] exits IH]; intros live s Hinv Hnd Hin; cbn [fold_left].
  { split_and!; [done..|]. rewrite map_filter_id; [done|set_solver]. }
  rewrite fmap_cons in Hnd. apply NoDup_cons in Hnd as [Hne Hnd].
  destruct (IH (delete (exit_pid e) live) (handle_exit s (n, e))) as (Hr & Hs & Hi).
  - apply handle_exit_inv; [done|]. apply Hin. set_solver.
  - done.
  - intros n' e' Hx. rewrite lookup_delete_ne; [apply Hin; set_solver|]. intros Heq.
    apply Hne. apply list_elem_of_fmap. exists (n', e'). done.
  - destruct (handle_exit_reaper s n (exit_code e)) as [Hr' Hs'].
    split_and!; [by rewrite Hr|by rewrite Hs|].
    match goal with Hi : inv_on ?m _ |- inv_on ?m' _ => assert (m' = m) as Hm; [|by rewrite Hm] end.
    apply map_eq. intros p. apply option_eq. intros k. rewrite !map_lookup_filter_Some, lookup_delete_Some. cbn.
    set_solver.
Qed.

(** ** Spawning *)

Lemma record_spawn_failure_eq t q st q' st' t' :
  record_spawn_failure t q st = (q', st', t') →
  service st' = service st ∧ pid st' = pid st ∧
  restart_count st' = saturating_add 32 (restart_count st) 1 ∧
  if MAX_RESTART_ATTEMPTS <=? restart_count st'
  then q' = cancel q (name (service st)) ∧ status st' = Failed
  else queued_names q' = queued_names q ++ [name (service st)] ∧ status st' = Pending.
Proof.
  unfold record_spawn_failure, begin_attempt. cbn.
  destruct (MAX_RESTART_ATTEMPTS <=? _) eqn:Hm.
  - intros [= <- <- <-]. cbn. rewrite Hm. done.
  - pose proof (enqueue_names (S t) q (name (service st))) as He.
    destruct (enqueue (S t) q (name (service st))) as [q2 t2]. intros [= <- <- <-].
    cbn. rewrite Hm. done.
Qed.

(** The state [s'] differs from [s] at the service [nm] only. *)
Definition only (nm : ustring) s s' : Prop :=
  (∀ k, k ≠ nm → svcs s' !! k = svcs s !! k) ∧
  (∀ k, k ≠ nm → k ∈ queued_names (restart_queue s') ↔ k ∈ queued_names (restart_queue s)).

(** A service without process gets one. *)
Lemma inv_spawned live s nm st p :
  inv_on live s → svcs s !! nm = Some st → pid st = None →
  nm ∉ queued_names (restart_queue s) → live !! p = None →
  inv_on (<[p := nm]> live)
    (with_svcs s (<[nm := set_status (set_pid st (Some p)) Starting]> (svcs s))).
Proof.
  intros [Hn Hp Hi Hq Hd] Hnm Hpst Hnq Hfresh. split; cbn; [|..|done|].
  - intros k st2 Hk. destruct (decide (k = nm)) as [->|]; simplify_map_eq; by eapply Hn.
  - intros p' k. destruct (decide (k = nm)) as [->|Hne].
    + setoid_rewrite lookup_insert_eq. rewrite lookup_insert_Some. split.
      * intros [[-> _]|[Hpp Hl]]; [by eexists|]. apply Hp in Hl as (st2 & ? & ?). congruence.
      * intros (st2 & ? & Hp2). simplify_eq. injection Hp2 as ->. by left.
    + rewrite (lookup_insert_ne _ nm) by done. rewrite <-Hp, lookup_insert_Some.
      split; [naive_solver|]. intros Hl. right. split; [|done]. intros ->. congruence.
  - intros k st2 Hk Hor. destruct (decide (k = nm)) as [->|]; simplify_map_eq; [|by eapply Hi].
    destruct Hor; done.
  - intros k Hk. destruct (decide (k = nm)) as [->|]; simplify_map_eq; eauto.
Qed.

(** A failed spawn: the service waits for its retry or has failed. *)
Lemma inv_spawn_failed live s nm st st' q' :
  inv_on live s → svcs s !! nm = Some st → pid st = None →
  nm ∉ queued_names (restart_queue s) → service st' = service st → pid st' = None →
  (q' = restart_queue s ∨ queued_names q' = queued_names (restart_queue s) ++ [nm]) →
  ∀ t, inv_on live (with_queue (with_svcs s (<[nm := st']> (svcs s))) q' t).
Proof.
  intros [Hn Hp Hi Hq Hd] Hnm Hpst Hnq Hsv Hpid Hqueue t.
  assert (NoDup (queued_names q') ∧
    ∀ k, k ∈ queued_names q' → k = nm ∨ k ∈ queued_names (restart_queue s)) as [Hqn Hqi].
  { destruct Hqueue as [->| ->]; [auto|]. split; [|set_solver].
    apply NoDup_app. split; [done|]. split; [set_solver|apply NoDup_singleton]. }
  split; cbn; [| | |done|].
  - intros k st2 Hk. destruct (decide (k = nm)) as [->|]; simplify_map_eq; [|by eapply Hn].
    rewrite Hsv. by apply Hn.
  - intros p' k. rewrite Hp. destruct (decide (k = nm)) as [->|Hne]; [|by simplify_map_eq].
    setoid_rewrite lookup_insert_eq. split; intros (st2 & ? & ?); simplify_eq; congruence.
  - intros k st2 Hk Hor. destruct (decide (k = nm)) as [->|]; simplify_map_eq; [done|].
    eapply Hi; [done|]. destruct Hor as [|Hin]; [auto|]. right. by destruct (Hqi k Hin).
  - intros k Hk. destruct (decide (k = nm)) as [->|]; simplify_map_eq; [eauto|].
    apply Hd. by destruct (Hqi k Hk).
Qed.

Context `{HashIter}.

Lemma spawn_or_log_inv s nm st :
  sup_inv s → svcs s !! nm = Some st → pid st = None →
  nm ∉ queued_names (restart_queue s) →
  sup_inv (spawn_or_log s nm) ∧ only nm s (spawn_or_log s nm).
Proof.
  intros [Hinv Hbusy] Hnm Hpst Hnq. unfold spawn_or_log, spawn_service. rewrite Hnm.
  destruct (spawn (spawner s) st) as [[sp st'] [r|e|]] eqn:Hsp.
  - apply spawn_ok in Hsp as (-> & Hfresh & Hb). cbn. split; [split|split]; cbn.
    + rewrite known_track. eapply inv_on_ext; [| |eapply inv_spawned; [exact Hinv|..]]; eauto; cbn; try done.
      apply not_elem_of_dom. set_solver.
    + rewrite known_track, dom_insert_L, Hb. set_solver.
    + intros k Hk. by rewrite lookup_insert_ne.
    + done.
  - apply spawn_err in Hsp as [-> Hb]. cbn [svcs with_spawner with_svcs reads restart_queue].
    rewrite lookup_insert_eq.
    destruct (record_spawn_failure (reads s) (restart_queue s) st) as [[q' st'] t'] eqn:Hf.
    apply record_spawn_failure_eq in Hf as (Hsv & Hpid & _ & Hq).
    assert (name (service st) = nm) as Hname by by eapply inv_names.
    assert (q' = restart_queue s ∨ queued_names q' = queued_names (restart_queue s) ++ [nm]) as Hq'.
    { destruct (MAX_RESTART_ATTEMPTS <=? restart_count st'); destruct Hq as [Hq _].
      - left. by rewrite Hq, Hname, cancel_not_queued.
      - right. by rewrite Hq, Hname. }
    rewrite insert_insert_eq. split; [split|split]; cbn.
    + apply (inv_on_ext _ (with_queue (with_svcs s (<[nm := st']> (svcs s))) q' t'));
        [done..|]. apply inv_spawn_failed with (st := st); try done. by rewrite Hpid.
    + set_solver.
    + intros k Hk. by rewrite lookup_insert_ne.
    + intros k Hk. change (k ∈ queued_names q' ↔ k ∈ queued_names (restart_queue s)).
      destruct Hq' as [->| ->]; set_solver.
  - by apply spawn_no_panic in Hsp.
Qed.

(** A batch of spawns, of distinct idle services that are not queued. *)
Lemma spawn_all_inv names s :
  sup_inv s → NoDup names →
  (∀ k, k ∈ names → k ∉ queued_names (restart_queue s) ∧
     ∃ st, svcs s !! k = Some st ∧ pid st = None) →
  let s' := fold_left spawn_or_log names s in
  sup_inv s' ∧
  (∀ k, k ∉ names → svcs s' !! k = svcs s !! k ∧
     (k ∈ queued_names (restart_queue s') ↔ k ∈ queued_names (restart_queue s))).
Proof.
  revert s; induction names as [|nm names IH]; intros s Hinv Hnd Hk; cbn [fold_left].
  { done. }
  apply NoDup_cons in Hnd as [Hnm Hnd].
  destruct (Hk nm ltac:(set_solver)) as (Hnq & st & Hst & Hpid).
  destruct (spawn_or_log_inv s nm st Hinv Hst Hpid Hnq) as (Hinv' & Hsv & Hq).
  destruct (IH (spawn_or_log s nm)) as [Hinv2 Hsv2]; [done..| |].
  - intros k Hin. assert (k ≠ nm) by set_solver. rewrite Hq, Hsv by done. apply Hk. set_solver.
  - split; [done|]. intros k Hin. destruct (Hsv2 k) as [Hs2 Hq2]; [set_solver|].
    rewrite Hs2, Hq2. split; [apply Hsv|apply Hq]; set_solver.
Qed.

Lemma spawn_all_socket names s :
  notify_listener (fold_left spawn_or_log names s) = notify_listener s.
Proof.
  revert s; induction names as [|nm names IH]; intros s; cbn [fold_left]; [done|].
  rewrite IH. unfold spawn_or_log, spawn_service.
  destruct (svcs s !! nm) as [st|] eqn:Hnm; [|by rewrite Hnm].
  destruct (spawn (spawner s) st) as [[sp st'] [r|e|]]; [done| |done].
  cbn [svcs with_spawner with_svcs]. rewrite lookup_insert_eq.
  by destruct (record_spawn_failure _ _ _) as [[q' st2] t'].
Qed.

(** ** The handlers *)

Lemma sup_inv_ext s s' :
  svcs s' = svcs s → restart_queue s' = restart_queue s → reaper s' = reaper s →
  spawner s' = spawner s → sup_inv s → sup_inv s'.
Proof.
  intros Hs Hq Hr Hsp [Hinv Hb]. unfold sup_inv. rewrite Hr, Hsp. split; [|done].
  by apply (inv_on_ext _ s).
Qed.

Lemma republish_inv s : sup_inv s → sup_inv (republish s).
Proof. by apply sup_inv_ext. Qed.

Lemma elem_of_collect_startable ss k :
  k ∈ collect_startable ss ↔
    ∃ st, ss !! k = Some st ∧ status st = Pending ∧ are_satisfied (service st) ss = true.
Proof.
  unfold collect_startable, startable. rewrite list_elem_of_fmap.
  setoid_rewrite list_elem_of_filter. setoid_rewrite hash_iter_perm.
  split.
  - intros ([k' st] & -> & [? ?] & Hin). apply elem_of_map_to_list in Hin. eauto.
  - intros (st & Hin & ? & ?). exists (k, st). split; [done|]. split; [done|].
    by apply elem_of_map_to_list.
Qed.

Lemma NoDup_fst_filter {A B} (P : A * B → Prop) `{∀ x, Decision (P x)} (l : list (A * B)) :
  NoDup l.*1 → NoDup (filter P l).*1.
Proof.
  induction l as [|x l IH]; [done|]. rewrite fmap_cons, filter_cons.
  intros [Hx Hl]%NoDup_cons. case_decide; [|by apply IH]. rewrite fmap_cons.
  apply NoDup_cons. split; [|by apply IH]. intros Hin. apply Hx.
  apply list_elem_of_fmap in Hin as (y & -> & Hy%list_elem_of_filter).
  apply list_elem_of_fmap. naive_solver.
Qed.

Lemma NoDup_collect_startable ss : NoDup (collect_startable ss).
Proof.
  unfold collect_startable. apply NoDup_fst_filter. rewrite hash_iter_perm.
  apply NoDup_fst_map_to_list.
Qed.

(** The services [start_ready_services] tries to start. *)
Lemma elem_of_to_start s k :
  k ∈ filter (λ nm, is_queued (restart_queue s) nm = false) (collect_startable (svcs s)) ↔
    k ∉ queued_names (restart_queue s) ∧
    ∃ st, svcs s !! k = Some st ∧ status st = Pending ∧
      are_satisfied (service st) (svcs s) = true.
Proof. by rewrite list_elem_of_filter, is_queued_false, elem_of_collect_startable. Qed.

Lemma start_ready_inv s :
  sup_inv s → sup_inv (start_ready_services s) ∧
    (∀ k st, svcs s !! k = Some st → ¬ (status st = Pending ∧
        are_satisfied (service st) (svcs s) = true ∧ k ∉ queued_names (restart_queue s)) →
     svcs (start_ready_services s) !! k = Some st ∧
     (k ∈ queued_names (restart_queue (start_ready_services s)) ↔
      k ∈ queued_names (restart_queue s))).
Proof.
  intros Hinv. unfold start_ready_services.
  match goal with |- context [fold_left spawn_or_log ?l s] =>
    destruct (spawn_all_inv l s Hinv) as [Hi Hs] end.
  - apply NoDup_filter, NoDup_collect_startable.
  - intros k Hk. apply elem_of_to_start in Hk as (? & st & Hst & Hp & _).
    split; [done|]. exists st. split; [done|]. destruct Hinv as [Hinv _].
    by eapply inv_idle; eauto.
  - split; [done|]. intros k st Hst Hno. rewrite <-Hst. apply Hs.
    intros Hk. apply elem_of_to_start in Hk as (? & st2 & ? & ? & ?). apply Hno. naive_solver.
Qed.

Lemma process_notifications_inv s : sup_inv s → sup_inv (process_notifications s).
Proof.
  intros [Hinv Hb]. unfold process_notifications.
  destruct (poll (notify_listener s)) as [ns rest].
  assert (sup_inv (with_svcs (with_socket s rest)
            (fold_left apply ns (svcs (with_socket s rest))))) as Hn.
  { split; [|done]. apply apply_all_inv. by apply (inv_on_ext _ s). }
  apply start_ready_inv in Hn as [Hn _]. destruct ns; [done|by apply republish_inv].
Qed.

(** Taking the due restarts out of the queue. *)
Lemma take_due_inv s q due t :
  sup_inv s → take_due (reads s) (restart_queue s) (deps_ready (svcs s)) = (q, due, t) →
  sup_inv (with_queue s q t) ∧ NoDup due ∧
  (∀ k, k ∈ due → k ∉ queued_names q ∧ k ∈ queued_names (restart_queue s) ∧
     deps_ready (svcs s) k = true ∧ ∃ st, svcs s !! k = Some st ∧ pid st = None).
Proof.
  intros [Hinv Hb] Ht. pose proof (take_due_names _ _ _ _ _ _ Ht) as Hperm.
  pose proof Hinv as [Hn Hp Hi Hq Hd].
  assert (NoDup (queued_names q ++ due)) as Hnd by by rewrite Hperm.
  apply NoDup_app in Hnd as (Hq1 & Hdis & Hq2).
  assert (∀ k, k ∈ queued_names q ++ due → k ∈ queued_names (restart_queue s)) as Hsub.
  { intros k. by rewrite Hperm. }
  split_and!.
  - split; [|done]. split; cbn; try done.
    + intros k st Hk Hor. eapply Hi; [done|]. destruct Hor; [auto|]. right. apply Hsub. set_solver.
    + intros k Hk. apply Hd, Hsub. set_solver.
  - done.
  - intros k Hk. assert (k ∈ queued_names (restart_queue s)) as Hin by (apply Hsub; set_solver).
    split_and!; [set_solver|done| |].
    + rewrite take_due_eq in Ht. injection Ht as _ <- _.
      apply list_elem_of_fmap in Hk as (r & -> & [[_ Hr] _]%list_elem_of_filter). done.
    + destruct (Hd k Hin) as [st Hst]. exists st. eauto.
Qed.

Lemma process_pending_restarts_inv s : sup_inv s → sup_inv (process_pending_restarts s).
Proof.
  intros Hinv. unfold process_pending_restarts.
  destruct (take_due _ _ _) as [[q due] t] eqn:Ht.
  destruct (take_due_inv s q due t Hinv Ht) as (Hq & Hnd & Hdue).
  apply spawn_all_inv; [done..|]. intros k Hk. cbn. naive_solver.
Qed.

(** A service that is not queued is left alone by the restarts, and one that
    is not pending either by the whole start and restart phase of a tick. *)
Lemma restarts_keep s k :
  sup_inv s → k ∉ queued_names (restart_queue s) →
  let s' := process_pending_restarts s in
  notify_listener s' = notify_listener s ∧ svcs s' !! k = svcs s !! k ∧
  k ∉ queued_names (restart_queue s').
Proof.
  intros Hinv Hnq. unfold process_pending_restarts.
  destruct (take_due _ _ _) as [[q due] t] eqn:Ht.
  destruct (take_due_inv s q due t Hinv Ht) as (Hq & Hnd & Hdue).
  destruct (spawn_all_inv due (with_queue s q t) Hq Hnd) as [_ Hsame].
  { intros k' Hk'. cbn. naive_solver. }
  assert (k ∉ due ∧ k ∉ queued_names q) as [Hnd2 Hnq2].
  { apply take_due_names in Ht. assert (k ∉ queued_names q ++ due); [|set_solver].
    by rewrite Ht. }
  destruct (Hsame k Hnd2) as [Hsv2 Hq2]. rewrite spawn_all_socket, Hsv2, Hq2. done.
Qed.

Lemma tick_keeps s k st :
  sup_inv s → k ∉ queued_names (restart_queue s) →
  fold_left apply (fst (poll (notify_listener s))) (svcs s) !! k = Some st →
  status st ≠ Pending →
  let s' := on_tick s in
  notify_listener s' = snd (poll (notify_listener s)) ∧ svcs s' !! k = Some st ∧
  k ∉ queued_names (restart_queue s').
Proof.
  intros Hinv Hnq Hst Hne. pose proof (process_notifications_inv s Hinv) as Hpn.
  unfold on_tick. destruct (restarts_keep (process_notifications s) k Hpn) as (Hl & Hsv & Hq).
  all: unfold process_notifications in *; destruct (poll (notify_listener s)) as [ns rest].
  all: cbn [fst snd] in *; set (mid := with_svcs _ _) in *.
  all: assert (sup_inv mid) as Hmid
    by (destruct Hinv as [Hi ?]; split; [|done]; apply (apply_all_inv _ (with_socket s rest));
        by apply (inv_on_ext _ s)).
  all: destruct (start_ready_inv mid Hmid) as [_ Hkeep].
  all: destruct (Hkeep k st Hst ltac:(naive_solver)) as [Hst1 Hq1].
  - destruct ns; cbn; by rewrite Hq1.
  - rewrite Hl, Hsv. split_and!; [|by destruct ns|done].
    assert (notify_listener (start_ready_services mid) = rest) as Hso by apply spawn_all_socket.
    destruct ns; exact Hso.
Qed.

Lemma process_exits_inv s exits r :
  sup_inv s → reap_all (reaper s) = (exits, r) → sup_inv (process_exits (with_reaper s r) exits).
Proof.
  intros [Hinv Hb] Hr. apply reap_all_known in Hr as (Hnd & Hin & Hkn).
  apply republish_inv.
  destruct (handle_exits_inv (known (reaper s)) exits (with_reaper s r)) as (Hre & Hsp & Hi);
    [by apply (inv_on_ext _ s)|done..|].
  assert (filter (λ '(p, _), p ∉ (λ x, exit_pid (snd x)) <$> exits) (known (reaper s)) = known r)
    as Hlive.
  { apply map_eq. intros p. rewrite Hkn. apply option_eq. intros k.
    rewrite map_lookup_filter_Some. cbn. case_decide; naive_solver. }
  rewrite Hlive in Hi. unfold sup_inv. rewrite Hre, Hsp. cbn. split; [done|].
  rewrite <-Hlive. etrans; [apply dom_filter_subseteq|done].
Qed.
End invariant.
