(* ===== verification/SvcRun.v ===== *)
(** What holds in every state the supervisor's loop reaches, and the restart
    policy of one exit. *)

From S2P Require Import Prelude Utf Text SvcService SvcNotify SvcRestart SvcProcess SvcSuper SvcInv.

Section run.
Context {Sp R : Type} `{SpawnLaws Sp} `{ReapLaws R} `{Clock}.
Implicit Types (s : Supervisor Sp R) (nm : ustring).

(** ** The invariant along the loop *)

Lemma load_services_ok (pre_bind : nat → ustring → option Z) (defs : list Service) (i : nat) (ss : services) :
  (∀ (k : ustring) (st : ServiceState), ss !! k = Some st → name (service st) = k ∧ pid st = None) →
  ∀ (k : ustring) (st : ServiceState), snd (fold_left (load_service pre_bind) defs (i, ss)) !! k = Some st →
    name (service st) = k ∧ pid st = None.
Proof.
  revert i ss; induction defs as [|d defs IH]; intros i ss Hss; cbn [fold_left]; [done|].
  apply IH. intros k st Hk. apply lookup_insert_Some in Hk as [[<- <-]|[_ Hk]]; [|by apply Hss].
  by destruct (pre_bind i (name d)).
Qed.

Lemma with_backends_inv pre_bind defs tx (sp : Sp) (r : R) :
  known r = ∅ → sup_inv (with_backends pre_bind defs tx sp r).
Proof.
  intros Hr. pose proof (load_services_ok pre_bind defs 0 ∅) as Hl. split; cbn; [split; cbn|].
  - intros k st Hk. by eapply Hl.
  - intros p k. rewrite Hr, lookup_empty. split; [done|]. intros (st & Hst & Hp).
    apply Hl in Hst as [_ Hst]; [congruence|done].
  - intros k st Hk _. by eapply Hl.
  - constructor.
  - set_solver.
  - rewrite Hr, dom_empty_L. set_solver.
Qed.

Lemma on_tick_inv `{HashIter} s : sup_inv s → sup_inv (on_tick s).
Proof. intros. by apply process_pending_restarts_inv, process_notifications_inv. Qed.

Lemma on_exits_inv `{HashIter} s : sup_inv s → sup_inv (on_exits s).
Proof.
  intros Hs. unfold on_exits. destruct (reap_all (reaper s)) as [exits r] eqn:Hr.
  by apply process_exits_inv.
Qed.

Lemma on_sweep_inv `{HashIter} s : sup_inv s → sup_inv (on_sweep s).
Proof.
  intros Hs. unfold on_sweep. destruct (reap_all (reaper s)) as [exits r] eqn:Hr.
  destruct exits as [|x exits]; [|by apply process_exits_inv].
  apply process_exits_inv with (exits := []) in Hr; [|done].
  by apply (sup_inv_ext (process_exits (with_reaper s r) [])).
Qed.

Lemma step_inv s s' : sup_inv s → step s s' → sup_inv s'.
Proof.
  intros Hs. destruct 1 as [hi| |hi|hi|d|r Hr|sp Hsp].
  - by apply on_exits_inv.
  - done.
  - by apply on_tick_inv.
  - by apply on_sweep_inv.
  - by apply (sup_inv_ext s).
  - destruct Hs as [Hi Hb]. split; cbn; rewrite Hr; [|done]. by apply (inv_on_ext _ s).
  - destruct Hs as [Hi Hb]. split; [|done]. by apply (inv_on_ext _ s).
Qed.

Lemma reachable_inv s : reachable s → sup_inv s.
Proof.
  induction 1 as [hi pre_bind defs tx sp r Hr|s s' _ IH Hstep]; [|by eapply step_inv].
  by apply republish_inv, start_ready_inv, with_backends_inv.
Qed.

(** ** The snapshot *)

(** The published snapshot is the report of the current table. *)
Definition current s : Prop :=
  watch_value (status_tx s) ≡ₚ (view <$> map_to_list (svcs s)) ∧
  Sorted view_le (watch_value (status_tx s)).

Lemma publish_current `{HashIter} ss tx :
  watch_value (publish ss tx) ≡ₚ (view <$> map_to_list ss) ∧
  Sorted view_le (watch_value (publish ss tx)).
Proof.
  assert (watch_value (publish ss tx) = merge_sort view_le (view <$> hash_iter ss)) as ->.
  { unfold publish. by case_decide. }
  split; [|apply Sorted_merge_sort, _].
  by rewrite merge_sort_Permutation, hash_iter_perm.
Qed.

Lemma republish_current `{HashIter} s : current (republish s).
Proof. apply publish_current. Qed.

Lemma spawn_or_log_current `{HashIter} s nm : current (spawn_or_log s nm).
Proof.
  unfold spawn_or_log, spawn_service. destruct (svcs s !! nm) as [st|] eqn:Hnm.
  - destruct (spawn (spawner s) st) as [[sp st'] [r|e|]] eqn:Hsp.
    + apply republish_current.
    + cbn [svcs with_spawner with_svcs]. rewrite lookup_insert_eq.
      destruct (record_spawn_failure _ _ _) as [[q' st2] t']. apply republish_current.
    + by apply spawn_no_panic in Hsp.
  - rewrite Hnm. apply republish_current.
Qed.

Lemma spawn_all_current `{HashIter} names s :
  current s → current (fold_left spawn_or_log names s).
Proof.
  revert s; induction names as [|nm names IH]; intros s Hs; [done|].
  apply IH, spawn_or_log_current.
Qed.

Lemma on_tick_current `{HashIter} s : current s → current (on_tick s).
Proof.
  intros Hs. unfold on_tick, process_pending_restarts.
  destruct (take_due _ _ _) as [[q due] t]. apply spawn_all_current.
  unfold process_notifications. destruct (poll (notify_listener s)) as [[|n ns] rest].
  - apply spawn_all_current. done.
  - apply republish_current.
Qed.

Lemma step_current s s' : current s → step s s' → current s'.
Proof.
  intros Hs. destruct 1 as [hi| |hi|hi|d|r Hr|sp Hsp]; try done.
  - unfold on_exits. destruct (reap_all (reaper s)). apply republish_current.
  - by apply on_tick_current.
  - unfold on_sweep. destruct (reap_all (reaper s)) as [[|x l] r]; [done|].
    apply republish_current.
Qed.

Lemma reachable_current s : reachable s → current s.
Proof.
  induction 1 as [hi pre_bind defs tx sp r Hr|s s' _ IH Hstep]; [|by eapply step_current].
  apply republish_current.
Qed.
End run.

(** ** A concrete system

    Processes numbered upwards, and the reaper over Linux wait statuses. *)

#[local] Instance demo_os : Os Z := {|
  path_exists _ _ := true;
  os_spawn n _ _ _ :=
    if (1 <=? n) && (n <? 2 ^ 31) then (n + 1, Some (n, 5, 6)) else (n, None);
  process_table n := list_to_set (seqZ 1 (n - 1))
|}.

#[local] Instance demo_os_laws : OsLaws Z.
Proof.
  split; intros o prog ar fd o'.
  - intros id out err. cbn. destruct (_ && _) eqn:Hn; [|done]. intros [= <- <- <- <-].
    apply andb_true_iff in Hn as [H1%Z.leb_le H2%Z.ltb_lt].
    unfold cast_signed. rewrite (proj2 (Z.ltb_lt _ _)) by lia. split.
    + rewrite elem_of_list_to_set, elem_of_seqZ. lia.
    + apply set_eq. intros p.
      rewrite elem_of_union, elem_of_singleton, !elem_of_list_to_set, !elem_of_seqZ. lia.
  - cbn. destruct (_ && _); [done|]. by intros [= <-].
Qed.

#[local] Instance demo_clock : Clock := λ t, Z.of_nat t mod 1000 * SECOND.
#[local] Instance demo_iter : HashIter :=
  {| hash_iter := map_to_list; hash_iter_perm _ := reflexivity _ |}.

Definition demo_services : list Service :=
  [{| name := ustr "dep"; command := ustr "/bin/dep"; depends_on := [] |};
   {| name := ustr "app"; command := ustr "/bin/app -x"; depends_on := [ustr "dep"] |}].

Definition demo_start : Supervisor Z (Reaper Z) :=
  start (with_backends (λ i _, Some (Z.of_nat i)) demo_services channel 1
    {| known_pids := ∅; children := [] |}).

Lemma demo_reachable : reachable demo_start.
Proof. by apply reach_start. Qed.

(** The dependency reports ready, and the service behind it starts. *)
Definition demo_ready : Supervisor Z (Reaper Z) :=
  on_tick (with_socket demo_start
    (notify_listener demo_start ++ [datagram (new_notifier (ustr "dep")) (MReady 1)])).

Lemma demo_ready_reachable : reachable demo_ready.
Proof.
  eapply reach_step; [|apply step_tick].
  eapply reach_step; [apply demo_reachable|apply env_datagram].
Qed.

(** C10: In every state of the loop, whatever the exits, datagrams, failing
    spawns and interleavings before it: the services with a process number
    are exactly those with a process that was not yet reaped, under that
    number, so no service ever has two processes; a pending service and one
    with a queued restart have none; a service is queued at most once, and
    only known services are. *)
Theorem one_process_per_service {Sp R : Type} `{SpawnLaws Sp} `{ReapLaws R} `{Clock}
    (s : Supervisor Sp R) :
  reachable s →
  (∀ p k, known (reaper s) !! p = Some k ↔ ∃ st, svcs s !! k = Some st ∧ pid st = Some p) ∧
  (∀ p q k, known (reaper s) !! p = Some k → known (reaper s) !! q = Some k → p = q) ∧
  (∀ k st, svcs s !! k = Some st →
     status st = Pending ∨ is_queued (restart_queue s) k = true → pid st = None) ∧
  NoDup (queued_names (restart_queue s)) ∧
  (∀ k, is_queued (restart_queue s) k = true → is_Some (svcs s !! k)).
Proof.
  intros [Hinv _]%reachable_inv. pose proof Hinv as [Hn Hp Hi Hq Hd].
  setoid_rewrite is_queued_true. split_and!; [done| |done..].
  intros p q k (st & ? & ?)%Hp (st' & ? & ?)%Hp. by simplify_eq.
Qed.

Lemma one_process_per_service_witness :
  known (reaper demo_ready) !! 2 = Some (ustr "app") ∧
  (∀ q, known (reaper demo_ready) !! q = Some (ustr "app") → q = 2).
Proof.
  assert (known (reaper demo_ready) !! 2 = Some (ustr "app")) as H2 by (vm_compute; reflexivity).
  split; [exact H2|]. intros q Hq. symmetry.
  exact (proj1 (proj2 (one_process_per_service demo_ready demo_ready_reachable)) 2 q _ H2 Hq).
Defined.

(** C30: In every state of the loop the snapshot that was last published
    reports exactly the current services with their status and restart
    count, in the order of their names. *)
Theorem snapshot_current {Sp R : Type} `{SpawnLaws Sp} `{ReapLaws R} `{Clock}
    (s : Supervisor Sp R) :
  reachable s →
  watch_value (status_tx s) ≡ₚ (view <$> map_to_list (svcs s)) ∧
  Sorted view_le (watch_value (status_tx s)).
Proof. apply reachable_current. Qed.

Lemma snapshot_current_witness :
  Sorted view_le (watch_value (status_tx demo_ready)) ∧
  watch_value (status_tx demo_ready)
    = [{| view_name := ustr "app"; view_status := Starting; restarts := 0 |};
       {| view_name := ustr "dep"; view_status := Ready; restarts := 0 |}].
Proof.
  split; [exact (proj2 (snapshot_current demo_ready demo_ready_reachable))|].
  vm_compute. reflexivity.
Defined.

(** ** Starts *)

Lemma apply_keeps n (ss : services) (k : ustring) (st : ServiceState) :
  ss !! k = Some st →
  ∃ st', apply ss n !! k = Some st' ∧ pid st' = pid st ∧ service st' = service st.
Proof.
  intros Hk. assert (∃ st', ss !! k = Some st' ∧ pid st' = pid st ∧ service st' = service st)
    as Hsame by eauto.
  destruct n as [nm|nm text h|nm]; cbn [apply];
    unfold apply_ready, apply_status_update, apply_stopping;
    destruct (ss !! nm) as [st1|] eqn:Hnm; try done.
  all: destruct (decide (nm = k)) as [->|Hne];
    [|try destruct (status_unchanged _ _ _); [..|rewrite lookup_insert_ne by done]; done].
  all: rewrite Hk in Hnm; injection Hnm as <-.
  - rewrite lookup_insert_eq. by eexists.
  - destruct (status_unchanged st text h); [done|]. rewrite lookup_insert_eq.
    eexists. split; [done|]. repeat case_decide; done.
  - rewrite lookup_insert_eq. by eexists.
Qed.

Lemma apply_all_keeps ns (ss : services) (k : ustring) (st : ServiceState) :
  ss !! k = Some st →
  ∃ st', fold_left apply ns ss !! k = Some st' ∧ pid st' = pid st ∧ service st' = service st.
Proof.
  revert ss st; induction ns as [|n ns IH]; intros ss st Hk; cbn [fold_left]; [eauto|].
  destruct (apply_keeps n ss k st Hk) as (st1 & Hk1 & Hp1 & Hs1).
  destruct (IH _ _ Hk1) as (st2 & Hk2 & Hp2 & Hs2). exists st2. by rewrite Hp2, Hs2.
Qed.

Lemma are_satisfied_Forall sv ss :
  are_satisfied sv ss = true ↔ Forall (λ d, is_ready ss d = true) (depends_on sv).
Proof.
  unfold are_satisfied. rewrite forallb_forall, Forall_forall.
  by setoid_rewrite list_elem_of_In.
Qed.

(** C18: A tick starts a process for a service in two cases only: after the
    pending notifications were applied the service was pending, had no
    queued restart, and all its dependencies were ready; or its restart was
    queued, and all its dependencies were ready when the due restarts were
    taken from the queue. *)
Theorem started_behind_dependencies {Sp R : Type} `{SpawnLaws Sp} `{ReapLaws R} `{Clock}
    `{HashIter} (s : Supervisor Sp R) (k : ustring) (st st' : ServiceState) (p : Z) :
  reachable s → svcs s !! k = Some st → pid st = None →
  svcs (on_tick s) !! k = Some st' → pid st' = Some p →
  let notified := fold_left apply (fst (poll (notify_listener s))) (svcs s) in
  let before_restarts := process_notifications s in
  (∃ st1, notified !! k = Some st1 ∧ status st1 = Pending ∧
     is_queued (restart_queue s) k = false ∧
     Forall (λ d, is_ready notified d = true) (depends_on (service st1))) ∨
  (∃ st2, svcs before_restarts !! k = Some st2 ∧ pid st2 = None ∧
     is_queued (restart_queue before_restarts) k = true ∧
     Forall (λ d, is_ready (svcs before_restarts) d = true) (depends_on (service st2))).
Proof.
  intros Hreach%reachable_inv Hst Hpid Hst' Hp notified before.
  pose proof (process_notifications_inv s Hreach) as Hbefore.
  destruct (apply_all_keeps (fst (poll (notify_listener s))) (svcs s) k st Hst)
    as (st1 & Hst1 & Hpid1 & _).
  destruct (decide (status st1 = Pending ∧ are_satisfied (service st1) notified = true ∧
    k ∉ queued_names (restart_queue s))) as [(? & Hsat & Hnq)|Hno].
  { left. exists st1. split_and!; [done..|by apply is_queued_false|].
    by apply are_satisfied_Forall. }
  right.
  assert (svcs before !! k = Some st1) as Hb.
  { unfold before, process_notifications. unfold notified in *.
    destruct (poll (notify_listener s)) as [ns rest]. cbn [fst] in *.
    assert (sup_inv (with_svcs (with_socket s rest) (fold_left apply ns (svcs s)))) as Hmid.
    { destruct Hreach as [Hi ?]. split; [|done]. apply (apply_all_inv _ (with_socket s rest)).
      by apply (inv_on_ext _ s). }
    apply start_ready_inv in Hmid as [_ Hkeep]. destruct (Hkeep k st1 Hst1 Hno) as [? _].
    by destruct ns. }
  exists st1. unfold on_tick, process_pending_restarts in Hst'. fold before in Hst'.
  destruct (take_due _ _ _) as [[q due] t] eqn:Ht.
  destruct (take_due_inv before q due t Hbefore Ht) as (Hq & Hnd & Hdue).
  destruct (spawn_all_inv due (with_queue before q t) Hq Hnd) as [_ Hsame].
  { intros k' Hk'. cbn. naive_solver. }
  destruct (decide (k ∈ due)) as [Hin|Hnin].
  - destruct (Hdue k Hin) as (_ & Hqd & Hready & _).
    split_and!; [done|congruence|by apply is_queued_true|].
    unfold deps_ready in Hready. rewrite Hb in Hready. by apply are_satisfied_Forall.
  - destruct (Hsame k Hnin) as [Hsk _]. rewrite Hsk in Hst'. cbn in Hst'. congruence.
Qed.

Definition demo_notified : Supervisor Z (Reaper Z) :=
  with_socket demo_start
    (notify_listener demo_start ++ [datagram (new_notifier (ustr "dep")) (MReady 1)]).

Lemma started_behind_dependencies_witness :
  let notified := fold_left apply (fst (poll (notify_listener demo_notified)))
                    (svcs demo_notified) in
  (∃ st1, notified !! ustr "app" = Some st1 ∧ status st1 = Pending ∧
     is_queued (restart_queue demo_notified) (ustr "app") = false ∧
     Forall (λ d, is_ready notified d = true) (depends_on (service st1))) ∨
  (∃ st2, svcs (process_notifications demo_notified) !! ustr "app" = Some st2 ∧ pid st2 = None ∧
     is_queued (restart_queue (process_notifications demo_notified)) (ustr "app") = true ∧
     Forall (λ d, is_ready (svcs (process_notifications demo_notified)) d = true)
       (depends_on (service st2))).
Proof.
  eapply (started_behind_dependencies demo_notified (ustr "app")).
  - eapply reach_step; [apply demo_reachable|apply env_datagram].
  - vm_compute. reflexivity.
  - reflexivity.
  - vm_compute. reflexivity.
  - reflexivity.
Defined.

(** ** Restart policy *)

(** A crashed service gets another chance: its budget is not used up, or the
    last attempt is more than the window ago. *)
Definition may_restart `{Clock} (t : nat) (st : ServiceState) : Prop :=
  restart_count st < MAX_RESTART_ATTEMPTS ∨
  ∃ last, last_restart st = Some last ∧ RESTART_WINDOW < clock t - last.

Lemma should_restart_spec `{Clock} t st code :
  fst (should_restart t st code) = true ↔
    status st ≠ Stopping ∧ code ≠ Some 0 ∧ may_restart t st.
Proof.
  unfold should_restart, may_restart, elapsed.
  case_decide; [naive_solver|]. case_decide; [naive_solver|].
  destruct (last_restart st) as [l|]; cbn [fst].
  - destruct (Z.ltb_spec RESTART_WINDOW (Z.max 0 (clock t - l))) as [Hw|Hw].
    + split; [|done]. intros _. split_and!; [done..|]. right. exists l.
      split; [done|]. unfold RESTART_WINDOW, SECOND in *. lia.
    + rewrite Z.ltb_lt. split; [naive_solver|]. intros (_ & _ & [?|(l' & ? & ?)]); [done|].
      simplify_eq. lia.
  - rewrite Z.ltb_lt. naive_solver.
Qed.

Lemma enqueue_due `{Clock} t q nm :
  clock t + RESTART_DELAY < INSTANT_END →
  fst (enqueue t q nm) = q ++ [{| restart_name := nm; due_at := clock t + RESTART_DELAY |}].
Proof.
  intros Hc. unfold enqueue, instant_checked_add. by rewrite (proj2 (Z.ltb_lt _ _)).
Qed.

(** C19: The exit of a known service clears its process number and decides as
    follows, leaving the other services alone. Exit code zero stops it. Any
    other exit of a stopping service fails it. Otherwise, while fewer than
    five attempts were counted, or when the last one is more than sixty
    seconds ago, the attempt is counted, the service is pending again and its
    restart is queued, due one second later; with the budget used up the
    service has failed. *)
Theorem exit_policy {Sp R : Type} `{Clock} (s : Supervisor Sp R) (nm : ustring)
    (st : ServiceState) (code : option Z) :
  svcs s !! nm = Some st → name (service st) = nm →
  (∀ t, clock t + RESTART_DELAY < INSTANT_END) →
  let s' := handle_service_exit s nm code in
  ∃ st', svcs s' = <[nm := st']> (svcs s) ∧ service st' = service st ∧ pid st' = None ∧
  ((code = Some 0 ∧ status st' = Stopping ∧ restart_queue s' = restart_queue s) ∨
   (code ≠ Some 0 ∧ status st = Stopping ∧ status st' = Failed ∧
    restart_queue s' = restart_queue s) ∨
   (code ≠ Some 0 ∧ status st ≠ Stopping ∧ may_restart (reads s) st ∧ status st' = Pending ∧
    restart_count st' = saturating_add 32 (restart_count st) 1 ∧
    ∃ t, last_restart st' = Some (clock t) ∧
      restart_queue s' = restart_queue s
        ++ [{| restart_name := nm; due_at := clock (S t) + RESTART_DELAY |}]) ∨
   (code ≠ Some 0 ∧ status st ≠ Stopping ∧ ¬ may_restart (reads s) st ∧ status st' = Failed ∧
    restart_queue s' = restart_queue s)).
Proof.
  intros Hnm Hname Hclock s'. subst s'. unfold handle_service_exit. rewrite Hnm.
  pose proof (should_restart_spec (reads s) (set_pid st None) code) as Hsr.
  destruct (should_restart (reads s) (set_pid st None) code) as [again t]. cbn [fst] in Hsr.
  change (status (set_pid st None)) with (status st) in Hsr.
  change (may_restart (reads s) (set_pid st None)) with (may_restart (reads s) st) in Hsr.
  destruct again.
  - destruct (proj1 Hsr eq_refl) as (Hns & Hc & Hmay).
    unfold schedule, begin_attempt.
    match goal with |- context [enqueue (S t) ?q ?n] =>
      pose proof (enqueue_due (S t) q n (Hclock _)) as He;
      destruct (enqueue (S t) q n) as [q' t'] end.
    cbn [fst] in He. subst q'. cbn [svcs with_queue with_svcs restart_queue].
    eexists. split; [done|]. split_and!; [done..|]. right; right; left.
    split_and!; [done..|]. exists t. split; [done|]. do 3 f_equal. done.
  - assert (¬ (status st ≠ Stopping ∧ code ≠ Some 0 ∧ may_restart (reads s) st)) as Hno.
    { intros Hx. by apply Hsr in Hx. }
    case_decide as Hc; cbn [svcs with_queue with_svcs restart_queue];
      eexists; (split; [done|]); split_and!; try done; [by left|].
    destruct (decide (status st = Stopping)); [by right; left|].
    do 3 right. split_and!; try done. naive_solver.
Qed.

Lemma exit_policy_witness :
  let s' := handle_service_exit demo_start (ustr "dep") (Some 1) in
  ∃ st', svcs s' = <[ustr "dep" := st']> (svcs demo_start) ∧ status st' = Pending.
Proof.
  destruct (svcs demo_start !! ustr "dep") as [st|] eqn:Hst; [|by vm_compute in Hst].
  assert (name (service st) = ustr "dep" ∧ status st = Starting ∧ restart_count st = 0)
    as (Hn & Hs & Hc).
  { vm_compute in Hst. injection Hst as <-. done. }
  assert (∀ t, clock t + RESTART_DELAY < INSTANT_END) as Hcl.
  { intros t. unfold clock, demo_clock. pose proof (Z.mod_pos_bound (Z.of_nat t) 1000).
    unfold RESTART_DELAY, INSTANT_END, SECOND. lia. }
  destruct (exit_policy demo_start (ustr "dep") st (Some 1) Hst Hn Hcl)
    as (st' & Hs' & _ & _ & [(? & _)|[(_ & Hx & _)|[(_ & _ & _ & Hp & _)|(_ & _ & Hx & _)]]]).
  - discriminate.
  - congruence.
  - exists st'. split; [exact Hs'|exact Hp].
  - destruct Hx. left. rewrite Hc. reflexivity.
Defined.

(** ** Late notifications *)

Lemma stopped_by_exit {Sp R : Type} `{SpawnLaws Sp} `{ReapLaws R} `{Clock} `{HashIter}
    (s : Supervisor Sp R) (nm : ustring) (e : ChildExit) (r : R) :
  sup_inv s → reap_all (reaper s) = ([(nm, e)], r) → exit_code e = Some 0 →
  sup_inv (on_exits s) ∧
  ∃ st, svcs (on_exits s) !! nm = Some st ∧ pid st = None ∧
    nm ∉ queued_names (restart_queue (on_exits s)) ∧
    notify_listener (on_exits s) = notify_listener s.
Proof.
  intros Hinv Hreap Hcode. split; [by apply on_exits_inv|].
  pose proof Hinv as [[Hn Hp Hi Hq Hd] _].
  pose proof Hreap as (_ & Hkn & _)%reap_all_known.
  destruct (proj1 (Hp (exit_pid e) nm)) as (st & Hst & Hpid); [apply Hkn; set_solver|].
  assert (nm ∉ queued_names (restart_queue s)) as Hnq.
  { intros Hin. rewrite (Hi nm st Hst) in Hpid by auto. done. }
  unfold on_exits. rewrite Hreap. unfold process_exits. cbn [fold_left].
  unfold handle_exit, handle_service_exit. cbn [fst snd svcs with_reaper]. rewrite Hst, Hcode.
  unfold should_restart. cbn [status set_pid].
  destruct (decide (status st = Stopping)); rewrite ?decide_True by done;
    (eexists; split; [apply lookup_insert_eq|]); done.
Qed.

(** A ready message that is read after the process of its service has
    ended is applied all the same: a service that left with exit code zero
    is reported ready again, with neither a process nor a queued restart, and
    stays so tick after tick. *)
Theorem late_ready_revives_stopped_service {Sp R : Type} `{SpawnLaws Sp} `{ReapLaws R} `{Clock}
    `{HashIter} (s : Supervisor Sp R) (n : Notifier) (e : ChildExit) (r : R) (process_id : Z) :
  reachable s → reap_all (reaper s) = ([(service_name n, e)], r) → exit_code e = Some 0 →
  notify_listener s = [datagram n (MReady process_id)] → sendable n (MReady process_id) →
  ∀ ticks, ∃ st', svcs (Nat.iter (S ticks) on_tick (on_exits s)) !! service_name n = Some st' ∧
    status st' = Ready ∧ pid st' = None ∧
    is_queued (restart_queue (Nat.iter (S ticks) on_tick (on_exits s))) (service_name n) = false.
Proof.
  intros Hinv%reachable_inv Hreap Hcode Hsock Hsend ticks. setoid_rewrite is_queued_false.
  destruct (stopped_by_exit s (service_name n) e r Hinv Hreap Hcode) as (Hinv1 & st & Hst & Hp & Hnq & Hs1).
  set (s1 := on_exits s) in *. clearbody s1. rewrite Hsock in Hs1.
  assert (poll (notify_listener s1) = ([NReady (service_name n)], [])) as Hpoll.
  { rewrite Hs1. cbn [poll]. by rewrite decode_datagram_message. }
  exists (set_count (set_status st Ready) 0).
  assert (∀ j, let sj := Nat.iter (S j) on_tick s1 in
    sup_inv sj ∧ notify_listener sj = [] ∧ service_name n ∉ queued_names (restart_queue sj) ∧
    svcs sj !! service_name n = Some (set_count (set_status st Ready) 0)) as Hall.
  { induction j as [|j IH]; cbn [Nat.iter].
    - destruct (tick_keeps s1 (service_name n) (set_count (set_status st Ready) 0))
        as (Hl & Hsv & Hq); [done..| |done|].
      + rewrite Hpoll. cbn. unfold apply_ready. rewrite Hst. by rewrite lookup_insert_eq.
      + rewrite Hpoll in Hl. split_and!; [by apply on_tick_inv|done..].
    - destruct IH as (Hi & Hl0 & Hq0 & Hsv0).
      set (sj := on_tick (Nat.iter j on_tick s1)) in *. change (Nat.iter (S j) on_tick s1) with sj in *.
      destruct (tick_keeps sj (service_name n) (set_count (set_status st Ready) 0))
        as (Hl & Hsv & Hq); [done..|by rewrite Hl0|done|].
      rewrite Hl0 in Hl. split_and!; [by apply on_tick_inv|done..]. }
  destruct (Hall ticks) as (_ & _ & Hq & Hsv). done.
Qed.

(** The dependency reports ready and exits at once. *)
Definition demo_late : Supervisor Z (Reaper Z) :=
  with_reaper demo_notified
    {| known_pids := known_pids (reaper demo_notified); children := [(1, 0)] |}.

Lemma demo_notified_reachable : reachable demo_notified.
Proof. exact (reach_step demo_start demo_notified demo_reachable (env_datagram demo_start _)). Qed.

Lemma demo_late_reachable : reachable demo_late.
Proof.
  refine (reach_step demo_notified demo_late demo_notified_reachable (env_children demo_notified _ _)).
  unfold known, Reaper_reap. cbn [known_pids]. reflexivity.
Qed.

Lemma late_ready_revives_stopped_service_witness :
  ∃ st', svcs (Nat.iter 1 on_tick (on_exits demo_late)) !! service_name (new_notifier (ustr "dep"))
      = Some st' ∧ status st' = Ready ∧ pid st' = None ∧
    is_queued (restart_queue (Nat.iter 1 on_tick (on_exits demo_late)))
      (service_name (new_notifier (ustr "dep"))) = false.
Proof.
  refine (late_ready_revives_stopped_service demo_late (new_notifier (ustr "dep"))
    {| exit_pid := 1; exit_code := Some 0; exit_signal := None |}
    {| known_pids := ∅; children := [] |} 1 demo_late_reachable _ _ _ _ 0%nat).
  - vm_compute. reflexivity.
  - reflexivity.
  - vm_compute. reflexivity.
  - split; [by apply literal_chars|]. split; [by apply literal_ok|].
    split; [exact I|]. split; [split; [discriminate|reflexivity]|].
    apply Nat.leb_le. vm_compute. reflexivity.
Defined.
