(* ===== verification/SvcLoader.v ===== *)
(** Loading of service definitions (init/granola/src/loader.rs): the scan of
    the services directory, variable substitution in commands and the check
    of the dependency graph; and what that check buys the supervisor. *)

From stdpp Require Import relations.
From S2P Require Import Prelude Utf Text SvcService SvcNotify SvcRestart SvcProcess SvcSuper SvcInv SvcRun.

(** ** Variable substitution *)

Definition DOLLAR : Z := 36.
Definition UNDERSCORE : Z := 95.

Definition is_ascii_alphanumeric (c : Z) : bool :=
  ((48 <=? c) && (c <=? 57)) || ((65 <=? c) && (c <=? 90)) || ((97 <=? c) && (c <=? 122)).
Definition is_name_char (c : Z) : bool := is_ascii_alphanumeric c || (c =? UNDERSCORE).

Abbreviation environment :=
  (@gmap ustring (@list_eq_dec Z Z.eq_dec) (@list_countable Z Z.eq_dec Z_countable) ustring).

(** The [while] loop of [append_variable]: the name and what follows it. *)
Fixpoint take_name (chars : ustring) : ustring * ustring :=
  match chars with
  | ch :: rest =>
      if is_name_char ch then let '(n, rest) := take_name rest in (ch :: n, rest)
      else ([], chars)
  | [] => ([], [])
  end.

Definition append_variable (chars : ustring) (env : environment) (result : ustring)
    : ustring * ustring :=
  let '(nm, chars) := take_name chars in
  match env !! nm with
  | Some value => (chars, result ++ value)
  | None => (chars, result ++ [DOLLAR] ++ nm)
  end.

Fixpoint substitute_loop (fuel : nat) (chars : ustring) (env : environment) (result : ustring)
    : ustring :=
  match fuel with
  | O => result
  | S fuel =>
      match chars with
      | [] => result
      | ch :: chars =>
          if ch =? DOLLAR then
            let '(chars, result) := append_variable chars env result in
            substitute_loop fuel chars env result
          else substitute_loop fuel chars env (result ++ [ch])
      end
  end.

(** Every round consumes a character. *)
Definition substitute_vars (text : ustring) (env : environment) : ustring :=
  substitute_loop (length text) text env [].

(** ** The dependency graph *)

Abbreviation service_index :=
  (@gmap ustring (@list_eq_dec Z Z.eq_dec) (@list_countable Z Z.eq_dec Z_countable) Service).

(** "Dependency cycle detected", with the stack and the name. *)
Inductive LoadError :=
| DependencyCycle (stack : list ustring) (nm : ustring)
| ScanFailed.

(** [dfs_cycle]: the visited set after the visit; the stack is the same
    after it as before it. The fuel bounds the depth of the recursion; to run
    out of it is a panic, which [dfs_enough_fuel] excludes. *)
Fixpoint dfs_cycle (fuel : nat) (index : service_index) (stack : list ustring)
    (visited : gset ustring) (nm : ustring) : res LoadError (gset ustring) :=
  match fuel with
  | O => Panic
  | S fuel =>
      if decide (nm ∈ stack) then Err (DependencyCycle stack nm)
      else if decide (nm ∈ visited) then Ok visited
      else
        visited ← match index !! nm with
                  | Some svc => foldM (dfs_cycle fuel index (stack ++ [nm])) visited (depends_on svc)
                  | None => Ok visited
                  end;
        Ok ({[nm]} ∪ visited)
  end.

Definition dfs_root (index : service_index) (visited : gset ustring) (nm : ustring)
    : res LoadError (gset ustring) :=
  if decide (nm ∈ visited) then Ok visited
  else dfs_cycle (size index + 2) index [] visited nm.

Definition detect_cycles (index : service_index) : res LoadError unit :=
  let names := merge_sort str_le (fst <$> map_to_list index) in
  _ ← foldM (dfs_root index) ∅ names;
  Ok ().

(** ** [prepare] and [load] *)

Definition index_of_defs (defs : list Service) : service_index :=
  fold_left (λ m svc, <[name svc := svc]> m) defs ∅.

Definition substitute_service (env : environment) (svc : Service) : Service :=
  {| name := name svc; command := substitute_vars (command svc) env;
     depends_on := depends_on svc |}.

Definition prepare (defs : list Service) (env : environment) : res LoadError (list Service) :=
  _ ← detect_cycles (index_of_defs defs);
  Ok (substitute_service env <$> defs).

Section scan.
(** The file system and the TOML parser: a file's extension and contents,
    and the service they describe. *)
Context (extension : ustring → option ustring) (read_to_string : ustring → option ustring)
        (toml : ustring → option Service).

Definition read_service_file (path : ustring) : option Service :=
  content ← read_to_string path;
  toml content.

Definition scan_entry (files : list Service) (entry : option ustring)
    : res LoadError (list Service) :=
  path ← ok_or entry ScanFailed;
  if decide (extension path = Some (ustr "service"))
  then match read_service_file path with
       | Some svc => Ok (files ++ [svc])
       | None => Ok files
       end
  else Ok files.

(** [None] for a directory, or an entry of it, that cannot be read. *)
Definition scan_services (read_dir : option (list (option ustring)))
    : res LoadError (list Service) :=
  entries ← ok_or read_dir ScanFailed;
  foldM scan_entry [] entries.

Definition load (read_dir : option (list (option ustring))) (env : environment)
    : res LoadError (list Service) :=
  defs ← scan_services read_dir;
  prepare defs env.
End scan.

(** ** Reference view of a template *)

Inductive piece := Lit (c : Z) | Var (nm : ustring).

Definition piece_source (p : piece) : ustring :=
  match p with Lit c => [c] | Var nm => DOLLAR :: nm end.
Definition piece_value (env : environment) (p : piece) : ustring :=
  match p with
  | Lit c => [c]
  | Var nm => default (DOLLAR :: nm) (env !! nm)
  end.

(** Names are maximal: what follows one is no name character. *)
Fixpoint template_ok (ps : list piece) : Prop :=
  match ps with
  | [] => True
  | Lit c :: ps => c ≠ DOLLAR ∧ template_ok ps
  | Var nm :: ps =>
      Forall (λ c, is_name_char c = true) nm ∧
      match ps with Lit c :: _ => is_name_char c = false | _ => True end ∧
      template_ok ps
  end.

Definition template_source (ps : list piece) : ustring := ps ≫= piece_source.
Definition template_value (env : environment) (ps : list piece) : ustring :=
  ps ≫= piece_value env.

(** The graph: a service points to its dependencies. *)
Definition edge (index : service_index) (a b : ustring) : Prop :=
  ∃ svc, index !! a = Some svc ∧ b ∈ depends_on svc.
Definition acyclic (index : service_index) : Prop := ∀ a, ¬ tc (edge index) a a.

(** ** Lemmas on substitution *)

Lemma take_name_app nm rest :
  Forall (λ c, is_name_char c = true) nm →
  match rest with c :: _ => is_name_char c = false | [] => True end →
  take_name (nm ++ rest) = (nm, rest).
Proof.
  intros Hnm Hrest. induction Hnm as [|c nm Hc _ IH]; cbn [app take_name].
  - destruct rest as [|c rest]; [done|]. cbn. by rewrite Hrest.
  - by rewrite Hc, IH.
Qed.

Lemma take_name_spec chars nm rest :
  take_name chars = (nm, rest) →
  chars = nm ++ rest ∧ Forall (λ c, is_name_char c = true) nm ∧
  match rest with c :: _ => is_name_char c = false | [] => True end.
Proof.
  revert nm rest; induction chars as [|c chars IH]; intros nm rest; cbn [take_name].
  { intros [= <- <-]. done. }
  destruct (is_name_char c) eqn:Hc; [|by intros [= <- <-]].
  destruct (take_name chars) as [n r]. intros [= <- <-].
  destruct (IH n r eq_refl) as (-> & ? & ?). split_and!; [done|by constructor|done].
Qed.

Lemma template_head ps :
  template_ok ps → match template_source ps with
                   | c :: _ => match ps with Lit c' :: _ => c = c' | _ => c = DOLLAR end
                   | [] => ps = []
                   end.
Proof. by destruct ps as [|[c|nm] ps]. Qed.

Lemma substitute_loop_template ps env fuel result :
  template_ok ps → (length (template_source ps) ≤ fuel)%nat →
  substitute_loop fuel (template_source ps) env result = result ++ template_value env ps.
Proof.
  revert fuel result; induction ps as [|[c|nm] ps IH]; intros fuel result Hok Hf.
  - rewrite app_nil_r. by destruct fuel.
  - change (template_source (Lit c :: ps)) with (c :: template_source ps) in *.
    destruct Hok as [Hc Hok]. destruct fuel as [|fuel]; [simpl in Hf; lia|].
    cbn [substitute_loop]. rewrite (proj2 (Z.eqb_neq _ _)) by done.
    rewrite IH by (done || simpl in Hf; lia). by rewrite <-app_assoc.
  - change (template_source (Var nm :: ps)) with (DOLLAR :: nm ++ template_source ps) in *.
    destruct Hok as (Hnm & Hnext & Hok). destruct fuel as [|fuel]; [simpl in Hf; lia|].
    cbn [substitute_loop]. rewrite Z.eqb_refl. unfold append_variable.
    pose proof (template_head ps Hok) as Hhd.
    rewrite take_name_app; [|done|].
    2:{ destruct (template_source ps) as [|c s]; [done|].
        destruct ps as [|[c'|nm'] ps]; subst; done. }
    simpl in Hf. rewrite length_app in Hf.
    change (template_value env (Var nm :: ps))
      with (default (DOLLAR :: nm) (env !! nm) ++ template_value env ps).
    destruct (env !! nm) as [v|]; cbn [default from_option id];
      rewrite IH by (done || lia); by rewrite <-app_assoc.
Qed.

Lemma template_exists_n n text :
  (length text ≤ n)%nat → ∃ ps, template_ok ps ∧ template_source ps = text.
Proof.
  revert text; induction n as [|n IH]; intros text Hn.
  { destruct text; [by exists []|simpl in Hn; lia]. }
  destruct text as [|c text]; [by exists []|]. simpl in Hn.
  destruct (decide (c = DOLLAR)) as [->|Hc].
  - destruct (take_name text) as [nm rest] eqn:Ht.
    apply take_name_spec in Ht as (-> & Hnm & Hrest). rewrite length_app in Hn.
    destruct (IH rest ltac:(lia)) as (ps & Hok & <-). exists (Var nm :: ps).
    split; [|done]. split_and!; [done| |done].
    destruct ps as [|[c|nm'] ps]; done.
  - destruct (IH text ltac:(lia)) as (ps & Hok & <-). by exists (Lit c :: ps).
Qed.

(** Substitution gives every [$NAME] of a text its value, where the name
    is the longest run of letters, digits and underscores, leaves unknown
    variables as they are written and copies all other characters; every text
    is such a template. *)
Theorem substitute_vars_correct (env : environment) :
  (∀ ps, template_ok ps →
     substitute_vars (template_source ps) env = template_value env ps) ∧
  (∀ text, ∃ ps, template_ok ps ∧ template_source ps = text).
Proof.
  split; [|intros text; by apply (template_exists_n (length text))].
  intros ps Hok. unfold substitute_vars. by rewrite substitute_loop_template.
Qed.

Lemma substitute_vars_correct_witness :
  substitute_vars (ustr "run $PORT/$X") {[ustr "PORT" := ustr "80"]} = ustr "run 80/$X".
Proof.
  refine (proj1 (substitute_vars_correct {[ustr "PORT" := ustr "80"]})
    [Lit 114; Lit 117; Lit 110; Lit 32; Var (ustr "PORT"); Lit 47; Var (ustr "X")] _).
  cbn [template_ok]. split_and!; try done; by repeat constructor.
Defined.

(** ** The depth-first search *)

(** The visited part of the graph is closed and has no cycle. *)
Definition visited_ok (index : service_index) (visited : gset ustring) : Prop :=
  (∀ v w, v ∈ visited → edge index v w → w ∈ visited) ∧
  (∀ v, v ∈ visited → ¬ tc (edge index) v v).

Lemma visited_closed index visited v w :
  visited_ok index visited → v ∈ visited → rtc (edge index) v w → w ∈ visited.
Proof.
  intros [Hc _] Hv Hr. revert Hv. induction Hr as [|x y z Hxy _ IH]; [done|].
  intros Hx. apply IH. by eapply Hc.
Qed.

Definition dfs_result (index : service_index) (stack : list ustring) (visited : gset ustring)
    (nms : list ustring) (r : res LoadError (gset ustring)) : Prop :=
  match r with
  | Ok visited' =>
      visited_ok index visited' ∧ visited ⊆ visited' ∧ (∀ n, n ∈ nms → n ∈ visited') ∧
      (∀ x, x ∈ stack → x ∉ visited')
  | Err (DependencyCycle st n) => n ∈ st ∧ tc (edge index) n n
  | Err ScanFailed => False
  | Panic => False
  end.

(** What a visit starts from. *)
Record dfs_pre (index : service_index) (stack : list ustring) (visited : gset ustring) : Prop := {
  pre_nodup : NoDup stack;
  pre_indexed x : x ∈ stack → x ∈ dom index;
  pre_visited : visited_ok index visited;
  pre_disjoint x : x ∈ stack → x ∉ visited
}.

Lemma stack_depth (index : service_index) stack :
  NoDup stack → (∀ x, x ∈ stack → x ∈ dom index) → (length stack ≤ base.size index)%nat.
Proof.
  intros Hnd Hin. rewrite <-size_dom, <-(size_list_to_set (C:=gset ustring)) by done.
  apply subseteq_size. intros x. rewrite elem_of_list_to_set. apply Hin.
Qed.

Lemma dfs_list index f stack nms visited :
  (∀ visited nm, nm ∈ nms → dfs_pre index stack visited →
     dfs_result index stack visited [nm] (f visited nm)) →
  dfs_pre index stack visited → dfs_result index stack visited nms (foldM f visited nms).
Proof.
  intros Hf. revert visited. induction nms as [|n nms IH]; intros visited Hpre; cbn [foldM].
  { destruct Hpre. split_and!; set_solver. }
  assert (dfs_result index stack visited [n] (f visited n)) as Hn by (apply Hf; [set_solver|done]).
  destruct (f visited n) as [v1|e|]; [|done..]. cbn [mbind res_bind].
  destruct Hn as (Hok & Hsub & Hin & Hdis).
  assert (dfs_result index stack v1 nms (foldM f v1 nms)) as Hrest.
  { apply IH; [intros; apply Hf; set_solver|]. destruct Hpre. by split. }
  destruct (foldM f v1 nms) as [v2|e|]; [|done..].
  destruct Hrest as (? & ? & ? & ?). split_and!; [done|set_solver| |done].
  intros m [->|Hm]%elem_of_cons; [|by auto]. set_solver.
Qed.

Lemma dfs_visited index visited nm :
  visited_ok index visited → (∀ w, edge index nm w → w ∈ visited) → nm ∉ visited →
  visited_ok index ({[nm]} ∪ visited).
Proof.
  intros Hok Hdeps Hnm. split.
  - intros v w [->%elem_of_singleton|Hv]%elem_of_union Hvw; [set_solver|].
    apply elem_of_union_r. by eapply Hok.
  - intros v [->%elem_of_singleton|Hv]%elem_of_union; [|by apply Hok].
    intros Hcyc. apply Hnm. inversion Hcyc as [? ? Hxy|? y ? Hxy Hyz]; subst; [by apply Hdeps|].
    eapply visited_closed; [done|by apply Hdeps|by apply tc_rtc].
Qed.

Lemma dfs_spec fuel index stack visited nm :
  dfs_pre index stack visited → (base.size index + 2 ≤ fuel + length stack)%nat →
  (∀ x, x ∈ stack → tc (edge index) x nm) →
  dfs_result index stack visited [nm] (dfs_cycle fuel index stack visited nm).
Proof.
  revert stack visited nm; induction fuel as [|fuel IH]; intros stack visited nm Hpre Hf Hpath.
  { destruct Hpre as [Hnd Hin _ _]. pose proof (stack_depth index stack Hnd Hin). lia. }
  cbn [dfs_cycle]. case_decide as Hst; [by split; [|apply Hpath]|].
  pose proof Hpre as [Hnd Hin Hok Hdis].
  case_decide as Hvis; [split_and!; set_solver|].
  destruct (index !! nm) as [svc|] eqn:Hsvc; cycle 1.
  - cbn [mbind res_bind]. split_and!; [|set_solver..].
    apply dfs_visited; [done| |done]. intros w (svc & ? & _). congruence.
  - assert (dfs_pre index (stack ++ [nm]) visited) as Hpre'.
    { split; [| |done|].
      - apply NoDup_app. split; [done|]. split; [set_solver|apply NoDup_singleton].
      - intros x [?| ->%list_elem_of_singleton]%elem_of_app; [by apply Hin|].
        by apply elem_of_dom.
      - set_solver. }
    assert (dfs_result index (stack ++ [nm]) visited (depends_on svc)
      (foldM (dfs_cycle fuel index (stack ++ [nm])) visited (depends_on svc))) as Hdeps.
    { apply dfs_list; [|done]. intros v dep Hdep Hv. apply IH; [done| |].
      - rewrite length_app. simpl. lia.
      - assert (edge index nm dep) as Hedge by (by exists svc).
        intros x [Hx| ->%list_elem_of_singleton]%elem_of_app; [|by constructor].
        eapply tc_r; [by apply Hpath|done]. }
    destruct (foldM _ visited (depends_on svc)) as [v1|e|]; cbn [mbind res_bind]; [|done..].
    destruct Hdeps as (Hok1 & Hsub & Hall & Hdis1). split_and!; [|set_solver..].
    apply dfs_visited; [done| |set_solver]. intros w (svc' & ? & ?). simplify_eq. by apply Hall.
Qed.

Lemma detect_cycles_spec index :
  match detect_cycles index with
  | Ok _ => acyclic index
  | Err (DependencyCycle stack n) => n ∈ stack ∧ tc (edge index) n n
  | _ => False
  end.
Proof.
  unfold detect_cycles. set (names := merge_sort str_le (map_to_list index).*1).
  assert (dfs_result index [] ∅ names (foldM (dfs_root index) ∅ names)) as Hres.
  { apply dfs_list.
    - intros v n Hn Hpre. unfold dfs_root. case_decide as Hv.
      + destruct Hpre. split_and!; set_solver.
      + apply dfs_spec; [done|simpl; lia|set_solver].
    - split; [constructor|set_solver| |set_solver]. split; set_solver. }
  destruct (foldM _ ∅ names) as [v|[st n|]|]; cbn [mbind res_bind]; [|done..].
  destruct Hres as (Hok & _ & Hall & _). intros a Hcyc.
  assert (a ∈ v) as Ha; [|by apply (proj2 Hok) in Ha].
  apply Hall. unfold names. rewrite merge_sort_Permutation.
  assert (∃ b, edge index a b) as (b & svc & Hsvc & _) by (inversion Hcyc; eauto).
  apply list_elem_of_fmap. exists (a, svc). split; [done|]. by apply elem_of_map_to_list.
Qed.

(** C37: The search ends on every set of definitions. It accepts exactly the
    sets whose dependency graph has no cycle; a rejection names a service on
    the stack that depends on itself through others. [prepare] then answers
    every definition with its variables substituted. *)
Theorem prepare_rejects_cycles (defs : list Service) (env : environment) :
  match prepare defs env with
  | Ok svcs => acyclic (index_of_defs defs) ∧ svcs = (substitute_service env <$> defs)
  | Err (DependencyCycle stack n) => n ∈ stack ∧ tc (edge (index_of_defs defs)) n n
  | _ => False
  end.
Proof.
  unfold prepare. pose proof (detect_cycles_spec (index_of_defs defs)) as Hd.
  by destruct (detect_cycles (index_of_defs defs)) as [[]|[st n|]|].
Qed.

Definition demo_defs : list Service :=
  [{| name := ustr "dep"; command := ustr "/bin/dep"; depends_on := [] |};
   {| name := ustr "app"; command := ustr "/bin/app"; depends_on := [ustr "dep"] |}].

Lemma prepare_rejects_cycles_witness :
  prepare demo_defs ∅ = Ok demo_defs ∧ acyclic (index_of_defs demo_defs).
Proof.
  assert (prepare demo_defs ∅ = Ok demo_defs) as Hp by (vm_compute; reflexivity).
  split; [exact Hp|]. pose proof (prepare_rejects_cycles demo_defs ∅) as H.
  rewrite Hp in H. exact (proj1 H).
Defined.

(** ** Progress of the boot *)

Section progress.
Context {Sp R : Type} `{SpawnLaws Sp} `{ReapLaws R} `{Clock}.
Implicit Types s t : Supervisor Sp R.



(** *** The loop keeps the definitions *)

Definition same_services (ss ss' : services) : Prop := ∀ k, (service <$> ss' !! k) = (service <$> ss !! k).
#[local] Instance same_services_preorder : PreOrder same_services.
Proof. split; [by intros ss k|]. intros a b c Hab Hbc k. by rewrite Hbc. Qed.











(** *** Who holds up a service *)





End progress.

#[local] Existing Instance demo_os.
#[local] Existing Instance demo_os_laws.
#[local] Existing Instance demo_clock.
#[local] Existing Instance demo_iter.

