(* ===== verification/SvcLog.v ===== *)
(** The log store of the supervisor: the log actor
    (init/granola/src/supervisor/logger/mod.rs) and the lines fed to it
    (init/granola/src/supervisor/logger/sources.rs). *)

From S2P Require Import Prelude Utf Text.

Definition MAX_ENTRIES_PER_SERVICE : nat := Z.to_nat 2000.

Inductive LogLevel := LError | LWarn | LInfo | LDebug.

(** [LogLevel::try_from]. *)
Definition level_try_from (number : Z) : option LogLevel :=
  if (0 <=? number) && (number <=? 3) then Some LError
  else if number =? 4 then Some LWarn
  else if (number =? 5) || (number =? 6) then Some LInfo
  else if number =? 7 then Some LDebug
  else None.

Inductive LogStream := Stdout | Stderr.

Record LogEntry := {
  timestamp_nanos : Z;
  log_service : ustring;
  stream : LogStream;
  level : LogLevel;
  message : ustring
}.

(** [LogWriter::append]: the entry it sends, [elapsed] nanoseconds after the
    epoch. *)
Definition append (elapsed : Z) (service : ustring) (st : LogStream) (lv : LogLevel)
    (msg : ustring) : LogEntry :=
  {| timestamp_nanos := default (uint_max 64) (try_from 64 elapsed);
     log_service := service; stream := st; level := lv; message := msg |}.

(** ** The actor *)

Abbreviation log_map :=
  (@gmap ustring (@list_eq_dec Z Z.eq_dec) (@list_countable Z Z.eq_dec Z_countable)
     (list LogEntry)).

(** The rings, and what was sent to the followers. *)
Record LogActor := { entries : log_map; broadcast : list LogEntry }.

Definition log_create : LogActor := {| entries := ∅; broadcast := [] |}.

Definition handle_append (a : LogActor) (e : LogEntry) : LogActor :=
  let ring := default [] (entries a !! log_service e) in
  let ring := if (MAX_ENTRIES_PER_SERVICE <=? length ring)%nat then tail ring else ring in
  {| entries := <[log_service e := ring ++ [e]]> (entries a);
     broadcast := broadcast a ++ [e] |}.

(** [rev().take(n).rev()]. *)
Definition take_last {A} (n : nat) (l : list A) : list A := rev (take n (rev l)).

Definition query_service (a : LogActor) (nm : ustring) (tail : nat) : list LogEntry :=
  match entries a !! nm with
  | None => []
  | Some ring => if (tail =? 0)%nat then ring else take_last tail ring
  end.

(** [sort_by_key], which is stable. *)
Fixpoint insert_entry (e : LogEntry) (l : list LogEntry) : list LogEntry :=
  match l with
  | [] => [e]
  | x :: l =>
      if timestamp_nanos e <=? timestamp_nanos x then e :: x :: l else x :: insert_entry e l
  end.
Definition sort_entries (l : list LogEntry) : list LogEntry := foldr insert_entry [] l.

(** [HashMap::values] visits every ring once, in an order of its own. *)
Class HashValues := {
  hash_values : log_map → list (list LogEntry);
  hash_values_perm m : hash_values m ≡ₚ (snd <$> map_to_list m)
}.

Section query.
Context `{HashValues}.

Definition query_all (a : LogActor) (tail : nat) : list LogEntry :=
  let all := sort_entries (concat (hash_values (entries a))) in
  if (tail =? 0)%nat then all else drop (length all - tail) all.

Definition query (a : LogActor) (service : option ustring) (tail : nat) : list LogEntry :=
  match service with
  | Some (c :: n) => query_service a (c :: n) tail
  | _ => query_all a tail
  end.

Inductive LogCommand :=
| Append (e : LogEntry)
| Query (service : option ustring) (tail : nat)
| Subscribe.

(** [handle]: the new state and the reply, if there is one. A subscriber
    sees what is broadcast from here on. *)
Inductive Reply := Entries (l : list LogEntry) | Receiver (from : nat) | NoReply.

Definition log_handle (a : LogActor) (cmd : LogCommand) : LogActor * Reply :=
  match cmd with
  | Append e => (handle_append a e, NoReply)
  | Query service tail => (a, Entries (query a service tail))
  | Subscribe => (a, Receiver (length (broadcast a)))
  end.

(** [run], over the commands received. *)
Definition log_run (a : LogActor) (cmds : list LogCommand) : LogActor :=
  fold_left (λ a cmd, fst (log_handle a cmd)) cmds a.
End query.

(** ** Lines of output *)

Definition LT : Z := 60.
Definition GT : Z := 62.
Definition SEMI : Z := 59.

Definition parse_level_prefix (line : ustring) (dflt : LogLevel) : LogLevel * ustring :=
  match strip_prefix [LT] line with
  | None => (dflt, line)
  | Some rest =>
      match split_once GT rest with
      | None => (dflt, line)
      | Some (number, msg) =>
          match parse_uint 8 number with
          | None => (dflt, line)
          | Some n => (default dflt (level_try_from n), msg)
          end
      end
  end.

Definition default_level (s : LogStream) : LogLevel :=
  match s with Stdout => LInfo | Stderr => LError end.

(** What the reader task of a stream appends for one line. *)
Definition reader_entry (elapsed : Z) (nm : ustring) (s : LogStream) (line : ustring) : LogEntry :=
  let '(lv, msg) := parse_level_prefix line (default_level s) in append elapsed nm s lv msg.

(** A record of [/dev/kmsg]: the text behind the first semicolon. *)
Definition kmsg_entry (elapsed : Z) (line : ustring) : LogEntry :=
  let msg := match split_once SEMI line with Some (_, m) => m | None => line end in
  append elapsed (ustr "kernel") Stdout LInfo msg.

(** ** Reference view: the newest entries of a history *)

Definition lastn {A} (n : nat) (l : list A) : list A := drop (length l - n) l.

Definition appended (cmds : list LogCommand) : list LogEntry :=
  omap (λ c, match c with Append e => Some e | _ => None end) cmds.
Definition of_service (nm : ustring) (l : list LogEntry) : list LogEntry :=
  filter (λ e, log_service e = nm) l.

(** ** Lemmas *)

Lemma lastn_all {A} n (l : list A) : (length l ≤ n)%nat → lastn n l = l.
Proof. intros. unfold lastn. by replace (length l - n)%nat with 0%nat by lia. Qed.

Lemma length_lastn {A} n (l : list A) : length (lastn n l) = Nat.min n (length l).
Proof. unfold lastn. rewrite length_drop. lia. Qed.

Lemma lastn_lastn {A} m n (l : list A) : (m ≤ n)%nat → lastn m (lastn n l) = lastn m l.
Proof. intros. unfold lastn. rewrite drop_drop, length_drop. f_equal. lia. Qed.

Lemma take_last_lastn {A} n (l : list A) : take_last n l = lastn n l.
Proof. unfold take_last, lastn. by rewrite firstn_rev, rev_involutive. Qed.

(** A full ring drops its oldest entry, one with room drops none. *)
Lemma lastn_snoc {A} n (l : list A) x :
  (0 < n)%nat →
  lastn n (l ++ [x]) = (if (n <=? length (lastn n l))%nat then tail (lastn n l) else lastn n l) ++ [x].
Proof.
  intros Hn. rewrite length_lastn. destruct (Nat.leb_spec n (Nat.min n (length l))) as [Hle|Hgt].
  - unfold lastn. rewrite length_app. simpl. rewrite drop_app_le by lia. f_equal.
    replace (length l + 1 - n)%nat with ((length l - n) + 1)%nat by lia.
    rewrite <-drop_drop. by destruct (drop (length l - n) l).
  - rewrite (lastn_all n l) by lia. apply lastn_all. rewrite length_app. simpl. lia.
Qed.

Lemma handle_append_service (a : LogActor) e nm :
  default [] (entries (handle_append a e) !! nm) =
    let ring := default [] (entries a !! nm) in
    if decide (log_service e = nm)
    then (if (MAX_ENTRIES_PER_SERVICE <=? length ring)%nat then tail ring else ring) ++ [e]
    else ring.
Proof.
  unfold handle_append. cbn [entries]. case_decide as Hn.
  - subst. by rewrite lookup_insert_eq.
  - by rewrite lookup_insert_ne.
Qed.

Lemma max_entries_pos : (0 < MAX_ENTRIES_PER_SERVICE)%nat.
Proof. unfold MAX_ENTRIES_PER_SERVICE. lia. Qed.
#[global] Opaque MAX_ENTRIES_PER_SERVICE.

Section history.
Context `{HashValues}.

Lemma log_run_rings cmds nm :
  default [] (entries (log_run log_create cmds) !! nm)
    = lastn MAX_ENTRIES_PER_SERVICE (of_service nm (appended cmds)).
Proof.
  unfold log_run. induction cmds as [|c cmds IH] using rev_ind; [done|].
  rewrite fold_left_app. cbn [fold_left]. unfold appended, of_service in *.
  rewrite omap_app, filter_app.
  destruct c as [e|svc t|]; cbn [log_handle fst omap list_omap filter list_filter].
  - rewrite handle_append_service, IH. cbn zeta. cbn [filter list_filter].
    case_decide; [|by rewrite app_nil_r]. rewrite lastn_snoc by apply max_entries_pos. done.
  - by rewrite app_nil_r.
  - by rewrite app_nil_r.
Qed.

Lemma log_run_broadcast cmds : broadcast (log_run log_create cmds) = appended cmds.
Proof.
  unfold log_run. induction cmds as [|c cmds IH] using rev_ind; [done|].
  rewrite fold_left_app. cbn [fold_left]. unfold appended in *. rewrite omap_app, <-IH.
  destruct c; cbn; by rewrite ?app_nil_r.
Qed.

(** Rings are never stored empty. *)
Lemma log_run_nonempty cmds nm ring :
  entries (log_run log_create cmds) !! nm = Some ring → ring ≠ [].
Proof.
  unfold log_run. revert nm ring. induction cmds as [|c cmds IH] using rev_ind; [done|].
  intros nm ring. rewrite fold_left_app. cbn [fold_left].
  destruct c as [e|svc t|]; cbn [log_handle fst]; [|apply IH..].
  unfold handle_append. cbn [entries]. intros [[_ <-]|[_ Hk]]%lookup_insert_Some; [|by eapply IH].
  intros Hnil. by apply app_eq_nil in Hnil as [_ ?].
Qed.
End history.

Lemma insert_entry_perm e l : insert_entry e l ≡ₚ e :: l.
Proof.
  induction l as [|x l IH]; [done|]. cbn [insert_entry].
  destruct (_ <=? _); [done|]. by rewrite IH, Permutation_swap.
Qed.

Lemma sort_entries_perm l : sort_entries l ≡ₚ l.
Proof. induction l as [|e l IH]; [done|]. cbn. by rewrite insert_entry_perm, IH. Qed.

Definition older (a b : LogEntry) : Prop := timestamp_nanos a ≤ timestamp_nanos b.

Lemma insert_entry_sorted e l : Sorted older l → Sorted older (insert_entry e l).
Proof.
  induction 1 as [|x l Hs IH Hhd]; cbn [insert_entry]; [by repeat constructor|].
  destruct (Z.leb_spec (timestamp_nanos e) (timestamp_nanos x)) as [Hle|Hgt].
  - constructor; [by constructor|]. by constructor.
  - constructor; [done|]. destruct l as [|y l]; cbn [insert_entry] in *.
    + constructor. unfold older. lia.
    + inversion Hhd; subst. destruct (_ <=? _); constructor; unfold older in *; [lia|done].
Qed.

Lemma sort_entries_sorted l : Sorted older (sort_entries l).
Proof. induction l; [constructor|]. by apply insert_entry_sorted. Qed.

Lemma Sorted_drop {A} (R : relation A) n (l : list A) : Sorted R l → Sorted R (drop n l).
Proof.
  revert l; induction n as [|n IH]; intros l Hl; [done|].
  destruct l as [|x l]; [done|]. apply IH. by inversion Hl.
Qed.

Lemma concat_bind {A} (l : list (list A)) : concat l = l ≫= id.
Proof. induction l as [|x l IH]; [done|]. cbn. by rewrite IH. Qed.

Lemma concat_values `{HashValues} (m : log_map) :
  concat (hash_values m) ≡ₚ (map_to_list m ≫= snd).
Proof.
  rewrite concat_bind, hash_values_perm. generalize (map_to_list m) as l.
  induction l as [|[k r] l IH]; [done|]. cbn. by rewrite IH.
Qed.

(** Whatever commands the actor received, the ring of a service holds its
    newest two thousand entries in the order of arrival; a query for a service
    answers its newest [tail] ones (all of them for tail zero); a query for
    all services answers entries of the rings, each once, ordered by time, the
    newest [tail] of them; and followers are sent every entry in order. *)
Theorem log_keeps_newest `{HashValues} (cmds : list LogCommand) :
  let a := log_run log_create cmds in
  let ring nm := lastn MAX_ENTRIES_PER_SERVICE (of_service nm (appended cmds)) in
  (∀ nm t, nm ≠ [] →
     query a (Some nm) t = if (t =? 0)%nat then ring nm else lastn t (ring nm)) ∧
  (∃ all, all ≡ₚ (map_to_list (entries a) ≫= snd) ∧ Sorted older all ∧
     (∀ nm r, (nm, r) ∈ map_to_list (entries a) → r = ring nm) ∧
     ∀ t, query a None t = (if (t =? 0)%nat then all else lastn t all) ∧
          query a (Some []) t = query a None t) ∧
  broadcast a = appended cmds.
Proof.
  intros a ring. split_and!; [| |apply log_run_broadcast].
  - intros nm t Hnm. destruct nm as [|c nm]; [done|]. cbn [query]. unfold query_service.
    pose proof (log_run_rings cmds (c :: nm)) as Hr. fold a in Hr. fold (ring (c :: nm)) in Hr.
    destruct (entries a !! (c :: nm)) as [r|]; cbn [default from_option id] in Hr; rewrite <-Hr.
    + by rewrite take_last_lastn.
    + unfold lastn. rewrite drop_nil. by destruct (t =? 0)%nat.
  - exists (sort_entries (concat (hash_values (entries a)))). split_and!.
    + rewrite sort_entries_perm. apply concat_values.
    + apply sort_entries_sorted.
    + intros nm r Hin%elem_of_map_to_list. unfold ring. rewrite <-(log_run_rings cmds nm).
      fold a. by rewrite Hin.
    + done.
Qed.

#[local] Instance log_values : HashValues :=
  {| hash_values m := snd <$> map_to_list m; hash_values_perm _ := reflexivity _ |}.

Lemma log_keeps_newest_witness :
  let e t := append t (ustr "svc") Stdout LInfo (ustr "line") in
  let cmds := [Append (e 1); Query None 0; Append (e 2)] in
  query (log_run log_create cmds) (Some (ustr "svc")) 1 = [e 2].
Proof.
  intros e cmds.
  etransitivity; [exact (proj1 (log_keeps_newest cmds) (ustr "svc") 1%nat ltac:(discriminate))|].
  cbv beta zeta. cbn [Nat.eqb]. rewrite lastn_lastn by apply max_entries_pos.
  vm_compute. reflexivity.
Defined.

(** ** Level prefixes *)

(** A line that starts with a decimal number up to 255 in angle brackets
    is logged without that prefix, at the level the number stands for (zero
    to seven; the default level of the stream for the others); any other line
    is logged whole at the default level. *)
Theorem level_prefix_correct (dflt : LogLevel) :
  (∀ n msg, is_u8 n →
     parse_level_prefix (LT :: decimal n ++ GT :: msg) dflt
       = (default dflt (level_try_from n), msg)) ∧
  (∀ line, (∀ number msg, line = LT :: number ++ GT :: msg → GT ∉ number →
              parse_uint 8 number = None) →
     parse_level_prefix line dflt = (dflt, line)).
Proof.
  split.
  - intros n msg Hn. unfold parse_level_prefix.
    change (LT :: decimal n ++ GT :: msg) with ([LT] ++ (decimal n ++ GT :: msg)).
    rewrite strip_prefix_app. rewrite (proj2 (split_once_Some GT _ (decimal n) msg)).
    + by rewrite parse_decimal.
    + split; [done|]. intros Hin. pose proof (decimal_are_digits n) as Hd.
      rewrite Forall_forall in Hd. apply Hd in Hin. unfold GT in Hin. lia.
  - intros line Hno. unfold parse_level_prefix.
    destruct (strip_prefix [LT] line) as [rest|] eqn:Hp; [|done].
    apply strip_prefix_Some in Hp as ->.
    destruct (split_once GT rest) as [[number msg]|] eqn:Hs; [|done].
    apply split_once_Some in Hs as [-> Hn]. by rewrite (Hno number msg eq_refl Hn).
Qed.

Lemma level_prefix_correct_witness :
  parse_level_prefix (ustr "<4>disk full") LInfo = (LWarn, ustr "disk full").
Proof. refine (proj1 (level_prefix_correct LInfo) 4 (ustr "disk full") _). split; [discriminate|reflexivity]. Defined.
