(* ===== verification/NetFrame.v ===== *)
(** IPv4 and UDP framing of DHCP messages
    (services/networkd/src/dhcp/framing.rs). *)

From S2P Require Import Prelude Utf Text.

(** Addresses are their four octets; [u16] and [u32] travel big-endian. *)
Abbreviation ipv4 := (list Z).
Definition is_ipv4 (a : ipv4) : Prop := length a = 4%nat ∧ bytes_ok a.

Definition IPV4_HEADER_LEN : nat := 20.
Definition UDP_HEADER_LEN : nat := 8.
Definition L3L4_HEADER_LEN : nat := IPV4_HEADER_LEN + UDP_HEADER_LEN.
Definition IPV4_VERSION_IHL : Z := 0x45.
Definition IPV4_TTL : Z := 64.
Definition IPV4_PROTO_UDP : Z := 17.
Definition IPV4_FLAG_DONT_FRAGMENT : Z := 0x4000.

(** [byte_at] and [read_u16]: zero beyond the end. *)
Definition byte_at (data : list Z) (i : nat) : Z := default 0 (data !! i).
Definition read_u16 (data : list Z) (off : nat) : Z :=
  from_be_bytes [byte_at data off; byte_at data (off + 1)].

(** ** Checksums *)

Fixpoint checksum_words (sum : Z) (data : list Z) : Z :=
  match data with
  | [] => sum
  | [high] => saturating_add 32 sum (from_be_bytes [high; 0])
  | high :: low :: data =>
      checksum_words (saturating_add 32 sum (from_be_bytes [high; low])) data
  end.

(** The [while] loop of [finish_checksum]; two rounds fold any [u32]. *)
Fixpoint fold_sum (fuel : nat) (sum : Z) : Z :=
  match fuel with
  | O => sum
  | S fuel =>
      if Z.shiftr sum 16 =? 0 then sum
      else fold_sum fuel (saturating_add 32 (Z.land sum 0xFFFF) (Z.shiftr sum 16))
  end.

Definition finish_checksum (sum : Z) : Z :=
  0xFFFF - default 0 (try_from 16 (fold_sum 3 sum)).

Definition checksum_ones_complement (data : list Z) : Z := finish_checksum (checksum_words 0 data).

Definition pseudo_header_sum (src dst : ipv4) (seg_len : nat) : Z :=
  let sum := 0 in
  let sum := saturating_add 32 sum (read_u16 src 0) in
  let sum := saturating_add 32 sum (read_u16 src 2) in
  let sum := saturating_add 32 sum (read_u16 dst 0) in
  let sum := saturating_add 32 sum (read_u16 dst 2) in
  let sum := saturating_add 32 sum IPV4_PROTO_UDP in
  saturating_add 32 sum (default 0 (try_from 32 (Z.of_nat seg_len))).

Definition udp_checksum (src dst : ipv4) (segment : list Z) : Z :=
  finish_checksum (checksum_words (pseudo_header_sum src dst (length segment)) segment).

(** ** Wrapping *)

Definition ip_header (total_len checksum : Z) (src dst : ipv4) : list Z :=
  [IPV4_VERSION_IHL; 0] ++ to_be_bytes 2 total_len ++ to_be_bytes 2 0
    ++ to_be_bytes 2 IPV4_FLAG_DONT_FRAGMENT ++ [IPV4_TTL; IPV4_PROTO_UDP]
    ++ to_be_bytes 2 checksum ++ src ++ dst.

Definition udp_segment (src_port dst_port udp_len checksum : Z) (payload : list Z) : list Z :=
  to_be_bytes 2 src_port ++ to_be_bytes 2 dst_port ++ to_be_bytes 2 udp_len
    ++ to_be_bytes 2 checksum ++ payload.

Definition wrap_ipv4_udp (payload : list Z) (src dst : ipv4) (src_port dst_port : Z) : list Z :=
  let total_len := default (uint_max 16) (try_from 16 (Z.of_nat (L3L4_HEADER_LEN + length payload))) in
  let udp_len := default (uint_max 16) (try_from 16 (Z.of_nat (UDP_HEADER_LEN + length payload))) in
  let ip_checksum := checksum_ones_complement (ip_header total_len 0 src dst) in
  let sum := udp_checksum src dst (udp_segment src_port dst_port udp_len 0 payload) in
  let sum := if sum =? 0 then 0xFFFF else sum in
  ip_header total_len ip_checksum src dst ++ udp_segment src_port dst_port udp_len sum payload.

(** ** Unwrapping *)

Inductive FrameError :=
| TooShort
| InvalidHeaderLength (ihl : Z)
| NonUdp (proto : Z)
| LengthExceedsBuffer (total : Z)
| InvalidUdpLength (len : Z).

(** A slice range, or the empty slice where it is not in bounds. *)
Definition range_or_empty (a b : nat) (l : list Z) : list Z := default [] (slice a b l).

Definition unwrap_ipv4_udp (buf : list Z) : res FrameError (list Z * Z * Z) :=
  if (length buf <? L3L4_HEADER_LEN)%nat then Err TooShort
  else
    let ihl := (Z.to_nat (Z.land (byte_at buf 0) 0x0F) * 4)%nat in
    if (ihl <? IPV4_HEADER_LEN)%nat || (length buf <? ihl + UDP_HEADER_LEN)%nat
    then Err (InvalidHeaderLength (Z.of_nat ihl))
    else if negb (byte_at buf 9 =? IPV4_PROTO_UDP) then Err (NonUdp (byte_at buf 9))
    else
      let total_len := Z.to_nat (read_u16 buf 2) in
      if (length buf <? total_len)%nat then Err (LengthExceedsBuffer (Z.of_nat total_len))
      else
        let udp := range_or_empty ihl total_len buf in
        let udp_len := Z.to_nat (read_u16 udp 4) in
        if (udp_len <? UDP_HEADER_LEN)%nat || (length udp <? udp_len)%nat
        then Err (InvalidUdpLength (Z.of_nat udp_len))
        else Ok (range_or_empty UDP_HEADER_LEN udp_len udp, read_u16 udp 0, read_u16 udp 2).

(** ** Lemmas *)

Lemma from_be_2 a b : from_be_bytes [a; b] = 256 * a + b.
Proof. change (from_be_bytes [a; b]) with (b + 256 * (a + 256 * 0)). lia. Qed.

Lemma to_be_2 z : to_be_bytes 2 z = [z / 256 mod 256; z mod 256].
Proof. done. Qed.

Lemma be_2_roundtrip z : 0 ≤ z < 65536 → 256 * (z / 256 mod 256) + z mod 256 = z.
Proof.
  intros Hz. rewrite (Z.mod_small (z / 256)).
  - pose proof (Z.div_mod z 256). lia.
  - split; [apply Z.div_pos; lia|apply Z.div_lt_upper_bound; lia].
Qed.

(** The sum of the big-endian words, in unbounded integers. *)
Fixpoint word_sum (data : list Z) : Z :=
  match data with
  | [] => 0
  | [high] => 256 * high
  | high :: low :: data => 256 * high + low + word_sum data
  end.

Lemma list_ind2 {A} (P : list A → Prop) :
  P [] → (∀ x, P [x]) → (∀ x y l, P l → P (x :: y :: l)) → ∀ l, P l.
Proof.
  intros H0 H1 H2 l. enough (P l ∧ ∀ x, P (x :: l)) by naive_solver.
  induction l as [|y l [IH IH']]; split; auto.
Qed.

Lemma word_sum_bound data :
  bytes_ok data → 0 ≤ word_sum data ≤ 65535 * ((Z.of_nat (length data) + 1) / 2).
Proof.
  induction data as [|x|x y l IH] using list_ind2; intros Hok.
  - done.
  - apply Forall_cons in Hok as [Hx _]. unfold is_uint in Hx.
    change (65535 * ((Z.of_nat (length [x]) + 1) / 2)) with 65535. cbn [word_sum]. lia.
  - apply Forall_cons in Hok as [Hx Hok]. apply Forall_cons in Hok as [Hy Hok].
    unfold is_uint in *. specialize (IH Hok). cbn [word_sum length].
    replace (Z.of_nat (S (S (length l))) + 1) with ((Z.of_nat (length l) + 1) + 1 * 2) by lia.
    rewrite Z.div_add by lia. lia.
Qed.

Lemma checksum_words_sum sum data :
  bytes_ok data → 0 ≤ sum → sum + word_sum data ≤ uint_max 32 →
  checksum_words sum data = sum + word_sum data.
Proof.
  revert sum; induction data as [|x|x y l IH] using list_ind2; intros sum Hok Hs Hb; cbn [checksum_words].
  - cbn. lia.
  - cbn [word_sum] in *. rewrite from_be_2. unfold saturating_add. lia.
  - apply Forall_cons in Hok as [Hx Hok]. apply Forall_cons in Hok as [Hy Hok].
    unfold is_uint in *. pose proof (proj1 (word_sum_bound l Hok)).
    cbn [word_sum] in Hb. rewrite from_be_2. unfold saturating_add.
    rewrite Z.min_l by lia. rewrite IH by (done || lia). cbn [word_sum]. lia.
Qed.

Lemma word_sum_app a b :
  Nat.Even (length a) → word_sum (a ++ b) = word_sum a + word_sum b.
Proof.
  intros [n Hn]. revert a Hn. induction n as [|n IH]; intros a Hn.
  - destruct a; [done|simpl in Hn; lia].
  - destruct a as [|x [|y a]]; [simpl in Hn; lia..|]. cbn [app word_sum].
    rewrite IH by (simpl in Hn; lia). lia.
Qed.

(** Folding keeps the sum modulo 65535, and is zero only for zero. *)
Lemma fold_once sum :
  0 ≤ sum → Z.land sum 0xFFFF + Z.shiftr sum 16 = sum mod 65536 + sum / 65536.
Proof.
  intros. rewrite Z.shiftr_div_pow2 by lia.
  change 0xFFFF with (Z.ones 16). rewrite Z.land_ones by lia. done.
Qed.

Lemma fold_sum_spec sum :
  0 ≤ sum ≤ uint_max 32 →
  0 ≤ fold_sum 3 sum ≤ 65535 ∧ (fold_sum 3 sum - sum) mod 65535 = 0 ∧
  (0 < sum → 0 < fold_sum 3 sum).
Proof.
  intros Hs.
  assert (∀ s, 0 ≤ s ≤ uint_max 32 → Z.shiftr s 16 = s / 65536) as Hsh.
  { intros s ?. by rewrite Z.shiftr_div_pow2 by lia. }
  assert (∀ s, 0 ≤ s ≤ uint_max 32 →
    saturating_add 32 (Z.land s 0xFFFF) (Z.shiftr s 16) = s mod 65536 + s / 65536) as Hstep.
  { intros s Hs'. unfold saturating_add. rewrite fold_once by lia. unfold uint_max in *.
    pose proof (Z.mod_pos_bound s 65536). pose proof (Z.div_mod s 65536).
    assert (0 ≤ s / 65536) by (apply Z.div_pos; lia). lia. }
  unfold uint_max in Hs.
  pose proof (Z.mod_pos_bound sum 65536 ltac:(lia)). pose proof (Z.div_mod sum 65536 ltac:(lia)).
  assert (0 ≤ sum / 65536 < 65536)
    by (split; [apply Z.div_pos; lia|apply Z.div_lt_upper_bound; lia]).
  cbn [fold_sum]. rewrite Hsh by (unfold uint_max; lia).
  destruct (Z.eqb_spec (sum / 65536) 0) as [He0|He0].
  { split; [lia|]. rewrite Z.sub_diag. done. }
  rewrite <-Hsh, Hstep by (unfold uint_max; lia). set (s1 := sum mod 65536 + sum / 65536) in *.
  pose proof (Z.mod_pos_bound s1 65536 ltac:(lia)). pose proof (Z.div_mod s1 65536 ltac:(lia)).
  assert (0 ≤ s1 / 65536 < 2)
    by (split; [apply Z.div_pos; lia|apply Z.div_lt_upper_bound; lia]).
  assert (s1 - sum = (- (sum / 65536)) * 65535) as E1 by lia.
  rewrite Hsh by (unfold uint_max; lia).
  destruct (Z.eqb_spec (s1 / 65536) 0) as [He1|He1].
  { split; [lia|]. rewrite E1, Z.mod_mul by lia. lia. }
  rewrite <-Hsh, Hstep by (unfold uint_max; lia). set (s2 := s1 mod 65536 + s1 / 65536) in *.
  assert (0 < s2 ≤ 65535) as Hs2 by lia.
  assert (s2 - sum = (- (s1 / 65536) - sum / 65536) * 65535) as E2 by lia.
  rewrite Hsh by (unfold uint_max; lia). rewrite (Z.div_small s2) by lia. cbn [Z.eqb].
  split; [lia|]. rewrite E2, Z.mod_mul by lia. lia.
Qed.

Lemma finish_checksum_range sum : 0 ≤ sum ≤ uint_max 32 → 0 ≤ finish_checksum sum ≤ 65535.
Proof.
  intros Hs. unfold finish_checksum. destruct (fold_sum_spec sum Hs) as (Hr & _ & _).
  rewrite try_from_ok by (unfold is_uint; lia). cbn [default from_option id]. lia.
Qed.

(** A sum with its own checksum added folds to all ones. *)
Lemma checksum_verifies sum c :
  0 < sum → 0 ≤ c → sum + c ≤ uint_max 32 → (c + fold_sum 3 sum) mod 65535 = 0 →
  finish_checksum (sum + c) = 0.
Proof.
  intros Hs Hc Hb Hcc. destruct (fold_sum_spec sum ltac:(lia)) as (Hr1 & Hm1 & _).
  destruct (fold_sum_spec (sum + c) ltac:(lia)) as (Hr & Hm & Hp).
  unfold finish_checksum. rewrite try_from_ok by (unfold is_uint; lia).
  cbn [default from_option id].
  assert (fold_sum 3 (sum + c) mod 65535 = 0) as H0.
  { replace (fold_sum 3 (sum + c)) with
      ((fold_sum 3 (sum + c) - (sum + c)) + (c + fold_sum 3 sum) - (fold_sum 3 sum - sum)) by lia.
    rewrite Zminus_mod, Hm1, Zplus_mod, Hm, Hcc. done. }
  apply Z.mod_divide in H0 as [k Hk]; [|lia]. specialize (Hp ltac:(lia)).
  assert (k = 1) by lia. lia.
Qed.

Lemma is_ipv4_inv a : is_ipv4 a → ∃ w x y z, a = [w; x; y; z] ∧ is_u8 w ∧ is_u8 x ∧ is_u8 y ∧ is_u8 z.
Proof.
  intros [Hl Hb]. destruct a as [|w [|x [|y [|z [|? ?]]]]]; try discriminate.
  unfold bytes_ok in Hb. rewrite !Forall_cons in Hb. destruct Hb as (? & ? & ? & ? & _).
  by exists w, x, y, z.
Qed.

(** The sum of a header with its checksum field. *)
Lemma ip_header_sum t c src dst :
  is_u16 t → is_u16 c → is_ipv4 src → is_ipv4 dst →
  bytes_ok (ip_header t c src dst) ∧ length (ip_header t c src dst) = 20%nat ∧
  word_sum (ip_header t c src dst) = word_sum (ip_header t 0 src dst) + c ∧
  0 < word_sum (ip_header t 0 src dst) ≤ 655350.
Proof.
  intros Ht Hc (s0 & s1 & s2 & s3 & -> & ?)%is_ipv4_inv (d0 & d1 & d2 & d3 & -> & ?)%is_ipv4_inv.
  unfold is_uint in *. pose proof (be_2_roundtrip t ltac:(lia)). pose proof (be_2_roundtrip c ltac:(lia)).
  pose proof (Z.mod_pos_bound t 256 ltac:(lia)). pose proof (Z.mod_pos_bound c 256 ltac:(lia)).
  pose proof (Z.mod_pos_bound (t / 256) 256 ltac:(lia)).
  pose proof (Z.mod_pos_bound (c / 256) 256 ltac:(lia)).
  unfold ip_header. rewrite !to_be_2.
  change (0 / 256 mod 256) with 0. change (0 mod 256) with 0.
  change (IPV4_FLAG_DONT_FRAGMENT / 256 mod 256) with 64.
  change (IPV4_FLAG_DONT_FRAGMENT mod 256) with 0.
  unfold IPV4_VERSION_IHL, IPV4_TTL, IPV4_PROTO_UDP. cbn [app].
  split; [|split; [done|]].
  - unfold bytes_ok, is_uint. repeat (apply Forall_cons; split; [lia|]). constructor.
  - cbn [word_sum]. lia.
Qed.

Lemma udp_segment_sum sp dp n c payload :
  is_u16 sp → is_u16 dp → is_u16 n → is_u16 c → bytes_ok payload →
  bytes_ok (udp_segment sp dp n c payload) ∧
  length (udp_segment sp dp n c payload) = (8 + length payload)%nat ∧
  word_sum (udp_segment sp dp n c payload) = word_sum (udp_segment sp dp n 0 payload) + c ∧
  0 ≤ word_sum (udp_segment sp dp n 0 payload) ≤ 65535 * 3 + word_sum payload.
Proof.
  intros Hsp Hdp Hn Hc Hp. unfold is_uint in *.
  pose proof (be_2_roundtrip sp ltac:(lia)). pose proof (be_2_roundtrip dp ltac:(lia)).
  pose proof (be_2_roundtrip n ltac:(lia)). pose proof (be_2_roundtrip c ltac:(lia)).
  pose proof (proj1 (word_sum_bound payload Hp)).
  unfold udp_segment. split; [|split].
  - unfold bytes_ok. rewrite !Forall_app. split_and!; try apply to_be_bytes_ok. done.
  - rewrite !length_app, !length_to_be_bytes. lia.
  - rewrite !to_be_2. change (0 / 256 mod 256) with 0. change (0 mod 256) with 0.
    cbn [app word_sum]. lia.
Qed.

Lemma word_sum_payload payload :
  bytes_ok payload → zlen payload ≤ 65507 → 0 ≤ word_sum payload ≤ 65535 * 32754.
Proof.
  intros Hp Hl. unfold zlen in Hl. pose proof (word_sum_bound payload Hp) as Hb.
  assert ((Z.of_nat (length payload) + 1) / 2 ≤ 32754).
  { apply Z.div_le_upper_bound; lia. }
  lia.
Qed.

Lemma pseudo_header_range src dst n :
  is_ipv4 src → is_ipv4 dst → Z.of_nat n ≤ 65535 →
  0 < pseudo_header_sum src dst n ≤ 65535 * 6.
Proof.
  intros (s0 & s1 & s2 & s3 & -> & ?)%is_ipv4_inv (d0 & d1 & d2 & d3 & -> & ?)%is_ipv4_inv Hn.
  unfold pseudo_header_sum, read_u16, byte_at. cbn [lookup list_lookup default from_option id Nat.add].
  rewrite !from_be_2. unfold is_uint in *. rewrite try_from_ok by (unfold is_uint; lia).
  cbn [default from_option id]. unfold saturating_add, uint_max, IPV4_PROTO_UDP. lia.
Qed.

Lemma own_checksum sum :
  0 ≤ sum ≤ uint_max 32 → (finish_checksum sum + fold_sum 3 sum) mod 65535 = 0.
Proof.
  intros Hs. destruct (fold_sum_spec sum Hs) as (Hr & _ & _). unfold finish_checksum.
  rewrite try_from_ok by (unfold is_uint; lia). cbn [default from_option id].
  replace (65535 - fold_sum 3 sum + fold_sum 3 sum) with 65535 by lia. done.
Qed.

Lemma read_u16_at (l : list Z) (off : nat) z :
  slice off (off + 2) l = Some (to_be_bytes 2 z) → is_u16 z → read_u16 l off = z.
Proof.
  intros Hs Hz. rewrite to_be_2 in Hs. unfold read_u16, byte_at.
  apply slice_Some in Hs as [_ Hs].
  assert (l !! off = Some (z / 256 mod 256) ∧ l !! (off + 1)%nat = Some (z mod 256)) as [-> ->].
  { replace (off + 2 - off)%nat with 2%nat in Hs by lia.
    split; [rewrite <-(Nat.add_0_r off)|]; rewrite <-lookup_drop;
      [rewrite <-(lookup_take_lt _ 2 0) by lia|rewrite <-(lookup_take_lt _ 2 1) by lia];
      by rewrite <-Hs. }
  cbn [default from_option id]. rewrite from_be_2. apply be_2_roundtrip. unfold is_uint in Hz. lia.
Qed.

Lemma ip_checksum_ok t src dst :
  is_u16 t → is_ipv4 src → is_ipv4 dst →
  let c := checksum_ones_complement (ip_header t 0 src dst) in
  is_u16 c ∧ checksum_ones_complement (ip_header t c src dst) = 0.
Proof.
  intros Ht Hs Hd c.
  destruct (ip_header_sum t 0 src dst Ht ltac:(done) Hs Hd) as (Hok0 & _ & _ & H0).
  assert (c = finish_checksum (word_sum (ip_header t 0 src dst))) as Hc.
  { unfold c, checksum_ones_complement. rewrite checksum_words_sum by (done || unfold uint_max; lia).
    done. }
  pose proof (finish_checksum_range (word_sum (ip_header t 0 src dst)) ltac:(unfold uint_max; lia)).
  pose proof (own_checksum (word_sum (ip_header t 0 src dst)) ltac:(unfold uint_max; lia)) as Hown.
  rewrite <-Hc in Hown, H. assert (is_u16 c) as Hcu by (unfold is_uint; lia). split; [done|].
  destruct (ip_header_sum t c src dst Ht Hcu Hs Hd) as (Hok & _ & Hsum & _).
  unfold checksum_ones_complement. rewrite checksum_words_sum, Z.add_0_l, Hsum
    by (done || rewrite ?Hsum; unfold uint_max; lia).
  apply checksum_verifies; unfold uint_max; lia || done.
Qed.

Lemma udp_checksum_ok src dst sp dp n payload :
  is_ipv4 src → is_ipv4 dst → is_u16 sp → is_u16 dp → is_u16 n → bytes_ok payload →
  zlen payload ≤ 65507 →
  let sum := udp_checksum src dst (udp_segment sp dp n 0 payload) in
  let c := if sum =? 0 then 0xFFFF else sum in
  is_u16 c ∧ udp_checksum src dst (udp_segment sp dp n c payload) = 0.
Proof.
  intros Hs Hd Hsp Hdp Hn Hp Hl sum c. pose proof (word_sum_payload payload Hp Hl) as Hws.
  unfold zlen in Hl.
  destruct (udp_segment_sum sp dp n 0 payload Hsp Hdp Hn ltac:(done) Hp) as (Hok0 & Hlen0 & _ & H0).
  pose proof (pseudo_header_range src dst (8 + length payload) Hs Hd ltac:(lia)) as Hph.
  set (total := pseudo_header_sum src dst (8 + length payload) + word_sum (udp_segment sp dp n 0 payload)).
  assert (0 < total ≤ 65535 * 32763) as Htot by (unfold total; lia).
  assert (sum = finish_checksum total) as Hsum.
  { unfold sum, udp_checksum. rewrite Hlen0, checksum_words_sum by (done || unfold uint_max; lia).
    done. }
  pose proof (finish_checksum_range total ltac:(unfold uint_max; lia)) as Hr.
  pose proof (own_checksum total ltac:(unfold uint_max; lia)) as Hown.
  rewrite <-Hsum in Hr, Hown.
  assert (0 ≤ c ≤ 65535 ∧ (c + fold_sum 3 total) mod 65535 = 0) as [Hcr Hcm].
  { unfold c. destruct (Z.eqb_spec sum 0) as [E|E]; [|done]. rewrite E in Hown. split; [lia|].
    rewrite Zplus_mod. change (0xFFFF mod 65535) with 0. rewrite Z.add_0_l, Z.mod_mod by lia.
    exact Hown. }
  assert (is_u16 c) as Hcu by (unfold is_uint; lia). split; [done|].
  destruct (udp_segment_sum sp dp n c payload Hsp Hdp Hn Hcu Hp) as (Hok & Hlen & Hsc & _).
  unfold udp_checksum. rewrite Hlen, checksum_words_sum, Hsc
    by (done || rewrite ?Hsc; unfold uint_max; lia).
  rewrite Z.add_assoc. fold total. apply checksum_verifies; unfold uint_max; lia || done.
Qed.

(** Taking a well-formed frame apart does not look at the checksums. *)
Lemma unwrap_frame c1 c2 src dst sp dp payload :
  is_u16 c1 → is_u16 c2 → is_ipv4 src → is_ipv4 dst → is_u16 sp → is_u16 dp →
  bytes_ok payload → zlen payload ≤ 65507 →
  unwrap_ipv4_udp (ip_header (Z.of_nat (28 + length payload)) c1 src dst
    ++ udp_segment sp dp (Z.of_nat (8 + length payload)) c2 payload) = Ok (payload, sp, dp).
Proof.
  intros Hc1 Hc2 Hs Hd Hsp Hdp Hp Hl. unfold zlen in Hl.
  set (t := Z.of_nat (28 + length payload)). set (n := Z.of_nat (8 + length payload)).
  assert (is_u16 t ∧ is_u16 n) as [Ht Hn] by (unfold is_uint; lia).
  destruct (ip_header_sum t c1 src dst Ht Hc1 Hs Hd) as (_ & Hhl & _).
  destruct (udp_segment_sum sp dp n c2 payload Hsp Hdp Hn Hc2 Hp) as (_ & Hul & _).
  set (seg := udp_segment sp dp n c2 payload) in *. set (hdr := ip_header t c1 src dst) in *.
  assert (length (hdr ++ seg) = (28 + length payload)%nat) as Hfl by (rewrite length_app; lia).
  assert (byte_at (hdr ++ seg) 0 = 0x45 ∧ byte_at (hdr ++ seg) 9 = 17) as [Hb0 Hb9] by done.
  assert (read_u16 (hdr ++ seg) 2 = t) as Ht2.
  { unfold read_u16, byte_at, hdr, ip_header. rewrite !to_be_2.
    cbn [app lookup list_lookup Nat.add default from_option id]. rewrite from_be_2.
    apply be_2_roundtrip. unfold is_uint in Ht. lia. }
  unfold unwrap_ipv4_udp. rewrite Hfl, Hb0, Hb9, Ht2.
  change (Z.to_nat (Z.land 0x45 0x0F) * 4)%nat with 20%nat.
  unfold L3L4_HEADER_LEN, IPV4_HEADER_LEN, UDP_HEADER_LEN.
  rewrite (proj2 (Nat.ltb_ge _ (20 + 8))) by lia. rewrite (proj2 (Nat.ltb_ge 20 20)) by lia.
  cbn [orb negb Z.eqb Pos.eqb IPV4_PROTO_UDP].
  unfold t. rewrite Nat2Z.id, Nat.ltb_irrefl. unfold range_or_empty.
  assert (slice 20 (28 + length payload) (hdr ++ seg) = Some seg) as ->.
  { apply slice_Some. split; [lia|]. rewrite drop_app_length' by done.
    rewrite take_ge; [done|]. lia. }
  cbn [default from_option id].
  assert (read_u16 seg 0 = sp ∧ read_u16 seg 2 = dp ∧ read_u16 seg 4 = n) as (-> & -> & ->).
  { unfold is_uint in *.
    unfold read_u16, byte_at, seg, udp_segment. rewrite !to_be_2.
    cbn [app lookup list_lookup Nat.add default from_option id]. rewrite !from_be_2.
    split_and!; apply be_2_roundtrip; lia. }
  unfold n. rewrite Nat2Z.id, Hul. rewrite (proj2 (Nat.ltb_ge _ 8)) by lia.
  rewrite Nat.ltb_irrefl. cbn [orb].
  assert (slice 8 (8 + length payload) seg = Some payload) as ->; [|done].
  apply slice_Some. split; [lia|].
  assert (drop 8 seg = payload) as -> by (unfold seg, udp_segment; by rewrite !to_be_2).
  symmetry. apply take_ge. lia.
Qed.

Lemma frame_roundtrip_ok (payload : list Z) (src dst : ipv4) (src_port dst_port : Z) :
  bytes_ok payload → zlen payload ≤ 65507 → is_ipv4 src → is_ipv4 dst →
  is_u16 src_port → is_u16 dst_port →
  let frame := wrap_ipv4_udp payload src dst src_port dst_port in
  unwrap_ipv4_udp frame = Ok (payload, src_port, dst_port) ∧
  checksum_ones_complement (take IPV4_HEADER_LEN frame) = 0 ∧
  udp_checksum src dst (drop IPV4_HEADER_LEN frame) = 0.
Proof.
  intros Hp Hlen Hsrc Hdst Hsp Hdp. unfold wrap_ipv4_udp.
  assert (is_u16 (Z.of_nat (28 + length payload)) ∧ is_u16 (Z.of_nat (8 + length payload)))
    as [Ht Hu] by (unfold zlen in Hlen; unfold is_uint; lia).
  change (L3L4_HEADER_LEN + length payload)%nat with (28 + length payload)%nat.
  change (UDP_HEADER_LEN + length payload)%nat with (8 + length payload)%nat.
  rewrite (try_from_ok 16 _ Ht), (try_from_ok 16 _ Hu). cbn [default from_option id].
  destruct (ip_checksum_ok _ src dst Ht Hsrc Hdst) as [Hc1 Hv1].
  destruct (udp_checksum_ok src dst src_port dst_port _ payload Hsrc Hdst Hsp Hdp Hu Hp Hlen)
    as [Hc2 Hv2].
  destruct (ip_header_sum _ _ src dst Ht Hc1 Hsrc Hdst) as (_ & Hhl & _).
  split; [|split].
  - by apply unwrap_frame.
  - rewrite take_app_length' by done. exact Hv1.
  - rewrite drop_app_length' by done. exact Hv2.
Qed.

(** A frame around a payload of at most 65507 bytes is taken apart into
    that payload and the two ports again, and both of its checksums verify:
    the one's complement sums over the IP header, and over the pseudo header
    and the UDP segment, are all ones. *)
Theorem frame_roundtrip (payload : list Z) (src dst : ipv4) (src_port dst_port : Z) :
  bytes_ok payload → zlen payload ≤ 65507 → is_ipv4 src → is_ipv4 dst →
  is_u16 src_port → is_u16 dst_port →
  let frame := wrap_ipv4_udp payload src dst src_port dst_port in
  unwrap_ipv4_udp frame = Ok (payload, src_port, dst_port) ∧
  checksum_ones_complement (take IPV4_HEADER_LEN frame) = 0 ∧
  udp_checksum src dst (drop IPV4_HEADER_LEN frame) = 0.
Proof. apply frame_roundtrip_ok. Qed.

Lemma frame_roundtrip_witness :
  unwrap_ipv4_udp (wrap_ipv4_udp [1; 2; 3] [0; 0; 0; 0] [255; 255; 255; 255] 68 67)
    = Ok ([1; 2; 3], 68, 67).
Proof.
  refine (proj1 (frame_roundtrip [1; 2; 3] [0; 0; 0; 0] [255; 255; 255; 255] 68 67 _ _ _ _ _ _)).
  - repeat constructor; done.
  - vm_compute. discriminate.
  - split; [reflexivity|]. repeat constructor; done.
  - split; [reflexivity|]. repeat constructor; done.
  - done.
  - done.
Defined.
