(* ===== verification/NetDhcp.v ===== *)
(** The DHCPv4 client: packets (services/networkd/src/dhcp/packet/mod.rs and
    its constants), option codec and lease construction
    (services/networkd/src/dhcp/codec.rs), the message exchanges
    (services/networkd/src/dhcp/client.rs) and the acquisition loop
    (services/networkd/src/dhcp/manager.rs). *)

From S2P Require Import Prelude Utf Text NetFrame.

(** ** Leases and the client's states (services/networkd/src/dhcp/mod.rs) *)

(** Times in seconds since the epoch, durations in seconds. *)
Record Lease := {
  obtained_at : Z;
  lease_time : Z;
  renewal_time : Z;
  rebind_time : Z;
  server_ip : ipv4;
  assigned_ip : ipv4;
  prefix_len : Z;
  gateway : option ipv4;
  dns_servers : list ipv4
}.

(** [SystemTime::checked_add] fails beyond signed 64-bit seconds. *)
Definition time_checked_add (t d : Z) : option Z :=
  if t + d <? 2 ^ 63 then Some (t + d) else None.

Definition expiry (l : Lease) : Z :=
  default (obtained_at l) (time_checked_add (obtained_at l) (lease_time l)).

(** ** Packet layout *)

Module option_code.
Definition SUBNET_MASK : Z := 1.
Definition ROUTER : Z := 3.
Definition DNS_SERVER : Z := 6.
Definition REQUESTED_IP : Z := 50.
Definition LEASE_TIME : Z := 51.
Definition MESSAGE_TYPE : Z := 53.
Definition SERVER_ID : Z := 54.
Definition PARAM_REQUEST_LIST : Z := 55.
Definition END : Z := 255.
End option_code.

Module message_type.
Definition DISCOVER : Z := 1.
Definition OFFER : Z := 2.
Definition REQUEST : Z := 3.
Definition ACK : Z := 5.
Definition NAK : Z := 6.
End message_type.

Module field.
Definition OP : nat := 0.
Definition HTYPE : nat := 1.
Definition HLEN : nat := 2.
Definition HOPS : nat := 3.
Definition XID : nat := 4.
Definition FLAGS : nat := 10.
Definition YIADDR : nat := 16.
Definition CHADDR : nat := 28.
Definition HEADER_LEN : nat := 236.
End field.

Definition MAGIC_COOKIE : list Z := [99; 130; 83; 99].
Definition BOOTREQUEST : Z := 1.
Definition HTYPE_ETHERNET : Z := 1.
Definition HLEN_ETHERNET : Z := 6.
Definition FLAG_BROADCAST : Z := 0x8000.
Definition DHCP_CLIENT_PORT : Z := 68.
Definition DHCP_SERVER_PORT : Z := 67.
Definition DHCP_TIMEOUT_SECS : Z := 10.
Definition DEFAULT_LEASE_SECS : Z := 3600.
Definition DEFAULT_PREFIX_LEN : Z := 24.
Definition DHCP_HEADER_LEN : nat := field.HEADER_LEN + length MAGIC_COOKIE.

(** [if let Some(slot) = buf.get_mut(range) { slot.copy_from_slice(..) }]. *)
Definition put_slot (off : nat) (d buf : list Z) : list Z :=
  match slice off (off + length d) buf with
  | Some _ => splice off d buf
  | None => buf
  end.

Definition build_header (xid : Z) (mac : list Z) : list Z :=
  let buf := zeros DHCP_HEADER_LEN in
  let buf := put_slot field.OP [BOOTREQUEST] buf in
  let buf := put_slot field.HTYPE [HTYPE_ETHERNET] buf in
  let buf := put_slot field.HLEN [HLEN_ETHERNET] buf in
  let buf := put_slot field.HOPS [0] buf in
  let buf := put_slot field.XID (to_be_bytes 4 xid) buf in
  let buf := put_slot field.FLAGS (to_be_bytes 2 FLAG_BROADCAST) buf in
  let buf := put_slot field.CHADDR mac buf in
  put_slot field.HEADER_LEN MAGIC_COOKIE buf.

Definition build_unicast_header (xid : Z) (mac : list Z) : list Z :=
  put_slot field.FLAGS (to_be_bytes 2 0) (build_header xid mac).

Definition REQUESTED_PARAMS : list Z :=
  [option_code.SUBNET_MASK; option_code.ROUTER; option_code.DNS_SERVER; option_code.LEASE_TIME].

Definition append_param_request_list (msg : list Z) : list Z :=
  msg ++ [option_code.PARAM_REQUEST_LIST]
      ++ [default 0 (try_from 8 (zlen REQUESTED_PARAMS))] ++ REQUESTED_PARAMS.

Definition build_request_message (xid : Z) (mac : list Z) (ip : ipv4) (unicast : bool) : list Z :=
  let msg := if unicast then build_unicast_header xid mac else build_header xid mac in
  let msg := msg ++ [option_code.MESSAGE_TYPE; 1; message_type.REQUEST] in
  let msg := msg ++ [option_code.REQUESTED_IP; 4] in
  let msg := msg ++ ip in
  append_param_request_list msg ++ [option_code.END].

Definition yiaddr (buf : list Z) : ipv4 :=
  [byte_at buf field.YIADDR; byte_at buf (field.YIADDR + 1);
   byte_at buf (field.YIADDR + 2); byte_at buf (field.YIADDR + 3)].

Definition packet_xid (buf : list Z) : Z :=
  from_be_bytes [byte_at buf field.XID; byte_at buf (field.XID + 1);
                 byte_at buf (field.XID + 2); byte_at buf (field.XID + 3)].

(** ** Options *)

Record ParsedOptions := {
  message_type : option Z;
  server_id : option ipv4;
  subnet_mask : option ipv4;
  router : option ipv4;
  opt_dns_servers : list ipv4;
  opt_lease_time : option Z
}.

Definition no_options : ParsedOptions :=
  {| message_type := None; server_id := None; subnet_mask := None; router := None;
     opt_dns_servers := []; opt_lease_time := None |}.

(** [first_chunk::<4>]. *)
Definition first_chunk4 (data : list Z) : option (list Z) :=
  if (4 <=? length data)%nat then Some (take 4 data) else None.

(** [as_chunks::<4>().0]. *)
Definition chunks4 (data : list Z) : list (list Z) := chunks_exact 4 data.

(** The [match code] of [parse_options]. *)
Definition apply_option (p : ParsedOptions) (code len : Z) (data : list Z) : ParsedOptions :=
  if (code =? option_code.MESSAGE_TYPE) && (len =? 1) then
    {| message_type := head data; server_id := server_id p; subnet_mask := subnet_mask p;
       router := router p; opt_dns_servers := opt_dns_servers p;
       opt_lease_time := opt_lease_time p |}
  else if (code =? option_code.SUBNET_MASK) && (len =? 4) then
    {| message_type := message_type p; server_id := server_id p;
       subnet_mask := first_chunk4 data; router := router p;
       opt_dns_servers := opt_dns_servers p; opt_lease_time := opt_lease_time p |}
  else if (code =? option_code.ROUTER) && (4 <=? len) then
    {| message_type := message_type p; server_id := server_id p; subnet_mask := subnet_mask p;
       router := first_chunk4 data; opt_dns_servers := opt_dns_servers p;
       opt_lease_time := opt_lease_time p |}
  else if (code =? option_code.DNS_SERVER) && (4 <=? len) && (len mod 4 =? 0) then
    {| message_type := message_type p; server_id := server_id p; subnet_mask := subnet_mask p;
       router := router p; opt_dns_servers := opt_dns_servers p ++ omap first_chunk4 (chunks4 data);
       opt_lease_time := opt_lease_time p |}
  else if (code =? option_code.LEASE_TIME) && (len =? 4) then
    {| message_type := message_type p; server_id := server_id p; subnet_mask := subnet_mask p;
       router := router p; opt_dns_servers := opt_dns_servers p;
       opt_lease_time := from_be_bytes <$> first_chunk4 data |}
  else if (code =? option_code.SERVER_ID) && (len =? 4) then
    {| message_type := message_type p; server_id := first_chunk4 data;
       subnet_mask := subnet_mask p; router := router p;
       opt_dns_servers := opt_dns_servers p; opt_lease_time := opt_lease_time p |}
  else p.

(** The [while] loop, over the bytes from the cursor on. *)
Fixpoint parse_loop (fuel : nat) (bytes : list Z) (p : ParsedOptions) : ParsedOptions :=
  match fuel with
  | O => p
  | S fuel =>
      match bytes with
      | [] => p
      | code :: rest =>
          if code =? option_code.END then p
          else if code =? 0 then parse_loop fuel rest p
          else match rest with
               | [] => p
               | len :: data =>
                   if (Z.to_nat len <=? length data)%nat
                   then parse_loop fuel (drop (Z.to_nat len) data)
                          (apply_option p code len (take (Z.to_nat len) data))
                   else p
               end
      end
  end.

(** Every round consumes a byte. *)
Definition parse_options (bytes : list Z) : ParsedOptions :=
  parse_loop (length bytes) bytes no_options.

Inductive DhcpError :=
| DhcpNak
| ResponseTooShort (len : nat)
| XidMismatch
| ResponseTruncated
| UnexpectedType (expected got : Z)
| MissingType
| NoServerId
| NoRandom
| SocketError
| TimedOut
| NotAttempted.

Definition validate_response (buf : list Z) (len : nat) (expected_xid expected_type : Z)
    : res DhcpError ParsedOptions :=
  let min_len := (field.HEADER_LEN + length MAGIC_COOKIE)%nat in
  if (len <? min_len)%nat then Err (ResponseTooShort len)
  else if negb (packet_xid buf =? expected_xid) then Err XidMismatch
  else
    opts_bytes ← ok_or (slice min_len len buf) ResponseTruncated;
    let opts := parse_options opts_bytes in
    match message_type opts with
    | Some t =>
        if t =? message_type.NAK then Err DhcpNak
        else if t =? expected_type then Ok opts
        else Err (UnexpectedType expected_type t)
    | None => Err MissingType
    end.

(** [u8::count_ones]. *)
Definition count_ones (b : Z) : Z :=
  foldr (λ i acc, (if Z.testbit b i then 1 else 0) + acc) 0 (seqZ 0 8).

Definition mask_prefix (mask : option ipv4) : Z :=
  match mask with
  | None => DEFAULT_PREFIX_LEN
  | Some m => default DEFAULT_PREFIX_LEN (try_from 8 (foldr (λ b acc, count_ones b + acc) 0 m))
  end.

Definition build_lease_from_ack (now : Z) (ip server : ipv4) (opts : ParsedOptions) : Lease :=
  let lease_seconds := default DEFAULT_LEASE_SECS (opt_lease_time opts) in
  {| obtained_at := now;
     lease_time := lease_seconds;
     renewal_time := lease_seconds / 2;
     rebind_time := saturating_mul 32 lease_seconds 7 / 8;
     server_ip := server;
     assigned_ip := ip;
     prefix_len := mask_prefix (subnet_mask opts);
     gateway := router opts;
     dns_servers := opt_dns_servers opts |}.

(** ** Exchanges

    The raw socket delivers the frames of [inbox] in order, each within the
    receive timeout of the one before; then the receive times out. [send_ok]
    tells which frames the socket accepts. *)

Definition UNSPECIFIED : ipv4 := [0; 0; 0; 0].
Definition BROADCAST : ipv4 := [255; 255; 255; 255].
Definition RECV_BUFFER : nat := Z.to_nat 2048.
Definition UNICAST_BUFFER : nat := Z.to_nat 1500.

Fixpoint recv_raw_validated (inbox : list (list Z)) (xid expected : Z)
    : res DhcpError (list Z * ParsedOptions) * list (list Z) :=
  match inbox with
  | [] => (Err TimedOut, [])
  | frame :: inbox =>
      let buf := take RECV_BUFFER frame in
      if (length buf <? L3L4_HEADER_LEN)%nat then recv_raw_validated inbox xid expected
      else match unwrap_ipv4_udp buf with
           | Ok (payload, _, dst_port) =>
               if negb (dst_port =? DHCP_CLIENT_PORT) then recv_raw_validated inbox xid expected
               else match validate_response payload (length payload) xid expected with
                    | Ok opts => (Ok (payload, opts), inbox)
                    | Err DhcpNak => (Err DhcpNak, inbox)
                    | _ => recv_raw_validated inbox xid expected
                    end
           | _ => recv_raw_validated inbox xid expected
           end
  end.

Section exchanges.
Context (send_ok : list Z → bool).

Definition raw_frame (payload : list Z) (src dst : ipv4) : list Z :=
  wrap_ipv4_udp payload src dst DHCP_CLIENT_PORT DHCP_SERVER_PORT.

Definition send_raw (sent : list (list Z)) (payload : list Z) (src dst : ipv4)
    : res DhcpError (list (list Z)) :=
  let frame := raw_frame payload src dst in
  if send_ok frame then Ok (sent ++ [frame]) else Err SocketError.

Definition discover_message (xid : Z) (mac : list Z) : list Z :=
  append_param_request_list
    (build_header xid mac ++ [option_code.MESSAGE_TYPE; 1; message_type.DISCOVER])
  ++ [option_code.END].

Definition request_message (xid : Z) (mac : list Z) (offered server : ipv4) : list Z :=
  append_param_request_list
    (build_header xid mac ++ [option_code.MESSAGE_TYPE; 1; message_type.REQUEST]
       ++ [option_code.REQUESTED_IP; 4] ++ offered ++ [option_code.SERVER_ID; 4] ++ server)
  ++ [option_code.END].

(** [run]: DISCOVER, OFFER, REQUEST, ACK. The outcome is the lease and the
    frames that were sent. *)
Definition dora (xid : option Z) (mac : list Z) (inbox : list (list Z)) (now : Z)
    : res DhcpError (Lease * list (list Z)) :=
  xid ← ok_or xid NoRandom;
  sent ← send_raw [] (discover_message xid mac) UNSPECIFIED BROADCAST;
  let '(offer, inbox) := recv_raw_validated inbox xid message_type.OFFER in
  '(offer_buf, offer_opts) ← offer;
  let offered_ip := yiaddr offer_buf in
  server ← ok_or (server_id offer_opts) NoServerId;
  sent ← send_raw sent (request_message xid mac offered_ip server) UNSPECIFIED BROADCAST;
  let '(ack, inbox) := recv_raw_validated inbox xid message_type.ACK in
  '(ack_buf, ack_opts) ← ack;
  Ok (build_lease_from_ack now (yiaddr ack_buf) server ack_opts, sent).

(** [renew], over the unicast socket: one datagram is awaited. *)
Definition renew (xid : option Z) (mac : list Z) (server ip : ipv4)
    (reply : option (list Z)) (now : Z) : res DhcpError (Lease * list Z) :=
  xid ← ok_or xid NoRandom;
  let msg := build_request_message xid mac ip true in
  if negb (send_ok msg) then Err SocketError
  else
    datagram ← ok_or reply TimedOut;
    let len := Nat.min (length datagram) UNICAST_BUFFER in
    let buf := take UNICAST_BUFFER datagram ++ zeros (UNICAST_BUFFER - length datagram) in
    opts ← validate_response buf len xid message_type.ACK;
    Ok (build_lease_from_ack now (yiaddr buf) server opts, msg).

(** [rebind], over the raw socket. *)
Definition rebind (xid : option Z) (mac : list Z) (server ip : ipv4)
    (inbox : list (list Z)) (now : Z) : res DhcpError (Lease * list (list Z)) :=
  xid ← ok_or xid NoRandom;
  sent ← send_raw [] (build_request_message xid mac ip false) ip BROADCAST;
  let '(ack, inbox) := recv_raw_validated inbox xid message_type.ACK in
  '(ack_buf, ack_opts) ← ack;
  Ok (build_lease_from_ack now (yiaddr ack_buf) server ack_opts, sent).
End exchanges.

(** ** The acquisition loop *)

Definition RETRY_BASE : Z := 2.
Definition RETRY_MAX : Z := 120.
Definition ACQUIRE_MAX_ATTEMPTS : nat := 3.

(** [acquire_attempts]: the outcomes of the attempts in order; the answer
    comes with the delays slept between them. *)
Fixpoint acquire_loop (remaining : nat) (attempt : nat → res DhcpError Lease) (done_ : nat) (delay : Z)
    (last_error : DhcpError) (slept : list Z) : res DhcpError Lease * list Z :=
  match remaining with
  | O => (Err last_error, slept)
  | S remaining =>
      match attempt done_ with
      | Ok lease => (Ok lease, slept)
      | Panic => (Panic, slept)
      | Err e =>
          match remaining with
          | O => (Err e, slept)
          | _ => acquire_loop remaining attempt (S done_)
                   (Z.min (saturating_mul 64 delay 2) RETRY_MAX) e (slept ++ [delay])
          end
      end
  end.

Definition acquire_attempts (attempt : nat → res DhcpError Lease) : res DhcpError Lease * list Z :=
  acquire_loop ACQUIRE_MAX_ATTEMPTS attempt 0 RETRY_BASE NotAttempted [].

(** ** Reference view of the options field *)

(** An option as a server writes it. *)
Definition option_ok (o : Z * list Z) : Prop :=
  is_u8 (fst o) ∧ fst o ≠ 0 ∧ fst o ≠ option_code.END ∧ zlen (snd o) ≤ 255.
Definition option_bytes (o : Z * list Z) : list Z := fst o :: zlen (snd o) :: snd o.
Definition options_bytes (os : list (Z * list Z)) : list Z := os ≫= option_bytes.

Definition option_meaning (p : ParsedOptions) (o : Z * list Z) : ParsedOptions :=
  apply_option p (fst o) (zlen (snd o)) (snd o).

(** A response as a server builds it: header fields and options. *)
Definition is_response (buf : list Z) (xid : Z) (os : list (Z * list Z)) (tail : list Z) : Prop :=
  packet_xid buf = xid ∧ drop DHCP_HEADER_LEN buf = options_bytes os ++ option_code.END :: tail ∧
  (DHCP_HEADER_LEN < length buf)%nat.

(** ** Lemmas *)

Lemma parse_loop_options os tail fuel p :
  Forall option_ok os → (length (options_bytes os) < fuel)%nat →
  parse_loop fuel (options_bytes os ++ option_code.END :: tail) p = fold_left option_meaning os p.
Proof.
  intros Hos. revert fuel p. induction Hos as [|[code data] os Ho _ IH]; intros fuel p Hf.
  { destruct fuel as [|fuel]; [simpl in Hf; lia|]. done. }
  destruct Ho as (Hu & H0 & Hend & Hlen). cbn [fst snd] in *.
  change (options_bytes ((code, data) :: os))
    with (code :: zlen data :: (data ++ options_bytes os)) in *.
  destruct fuel as [|fuel]; [simpl in Hf; lia|].
  cbn [app parse_loop]. rewrite (proj2 (Z.eqb_neq _ _)), (proj2 (Z.eqb_neq _ _)) by done.
  unfold zlen at 1 2 4. rewrite Nat2Z.id, <-app_assoc.
  rewrite (proj2 (Nat.leb_le _ _)) by (rewrite length_app; lia).
  rewrite take_app_length, drop_app_length.
  cbn [length] in Hf. rewrite length_app in Hf. rewrite IH by lia. done.
Qed.

Lemma parse_options_ok os tail :
  Forall option_ok os →
  parse_options (options_bytes os ++ option_code.END :: tail) = fold_left option_meaning os no_options.
Proof.
  intros Hos. unfold parse_options. apply parse_loop_options; [done|].
  rewrite length_app. cbn [length]. lia.
Qed.

Lemma validate_response_ok buf xid os tail t :
  is_response buf xid os tail → Forall option_ok os →
  message_type (fold_left option_meaning os no_options) = Some t → t ≠ message_type.NAK →
  validate_response buf (length buf) xid t = Ok (fold_left option_meaning os no_options).
Proof.
  intros (Hx & Hd & Hl) Hos Ht Hn. unfold validate_response, DHCP_HEADER_LEN in *.
  set (k := (field.HEADER_LEN + length MAGIC_COOKIE)%nat) in *. clearbody k.
  rewrite (proj2 (Nat.ltb_ge _ _)), Hx, Z.eqb_refl by lia. cbn [negb].
  assert (slice k (length buf) buf = Some (options_bytes os ++ option_code.END :: tail)) as ->.
  { apply slice_Some. split; [lia|]. rewrite take_ge; [done|]. rewrite length_drop. lia. }
  cbn [ok_or mbind res_bind]. rewrite parse_options_ok, Ht by done.
  rewrite (proj2 (Z.eqb_neq _ _)), Z.eqb_refl by done. done.
Qed.

(** What one received frame amounts to; [None] for one that is skipped. *)
Definition frame_outcome (xid expected : Z) (frame : list Z)
    : option (res DhcpError (list Z * ParsedOptions)) :=
  let buf := take RECV_BUFFER frame in
  if (length buf <? L3L4_HEADER_LEN)%nat then None
  else match unwrap_ipv4_udp buf with
       | Ok (payload, _, dst_port) =>
           if negb (dst_port =? DHCP_CLIENT_PORT) then None
           else match validate_response payload (length payload) xid expected with
                | Ok opts => Some (Ok (payload, opts))
                | Err DhcpNak => Some (Err DhcpNak)
                | _ => None
                end
       | _ => None
       end.

Lemma recv_cons xid expected frame inbox :
  recv_raw_validated (frame :: inbox) xid expected =
    match frame_outcome xid expected frame with
    | Some r => (r, inbox)
    | None => recv_raw_validated inbox xid expected
    end.
Proof.
  cbn [recv_raw_validated]. unfold frame_outcome.
  destruct (_ <? _)%nat; [done|].
  destruct (unwrap_ipv4_udp _) as [[[payload sp] dp]| |]; [|done..].
  destruct (negb _); [done|]. by destruct (validate_response _ _ _ _) as [|[]|].
Qed.

Lemma recv_first xid expected junk frame inbox r :
  Forall (λ f, frame_outcome xid expected f = None) junk →
  frame_outcome xid expected frame = Some r →
  recv_raw_validated (junk ++ frame :: inbox) xid expected = (r, inbox).
Proof.
  intros Hj Hf. induction Hj as [|f junk Hfn _ IH]; cbn [app].
  - by rewrite recv_cons, Hf.
  - by rewrite recv_cons, Hfn.
Qed.

(** A server's frame for a client: its message in a UDP datagram to port 68. *)
Definition server_frame (buf : list Z) (src dst : ipv4) : list Z :=
  wrap_ipv4_udp buf src dst DHCP_SERVER_PORT DHCP_CLIENT_PORT.

Lemma length_wrap payload src dst sp dp :
  is_ipv4 src → is_ipv4 dst →
  length (wrap_ipv4_udp payload src dst sp dp) = (28 + length payload)%nat.
Proof.
  intros [Hs _] [Hd _]. unfold wrap_ipv4_udp, ip_header, udp_segment.
  rewrite !length_app, !length_to_be_bytes, Hs, Hd. simpl. lia.
Qed.

Record answer := {
  ans_buf : list Z; ans_options : list (Z * list Z); ans_tail : list Z;
  ans_src : ipv4; ans_dst : ipv4
}.
Definition ans_parsed (a : answer) : ParsedOptions :=
  fold_left option_meaning (ans_options a) no_options.
Definition ans_frame (a : answer) : list Z := server_frame (ans_buf a) (ans_src a) (ans_dst a).

(** A well-formed answer of type [t] to the exchange [xid]. *)
Definition answer_ok (a : answer) (xid t : Z) : Prop :=
  is_response (ans_buf a) xid (ans_options a) (ans_tail a) ∧ Forall option_ok (ans_options a) ∧
  message_type (ans_parsed a) = Some t ∧ t ≠ message_type.NAK ∧
  bytes_ok (ans_buf a) ∧ zlen (ans_buf a) ≤ 2020 ∧ is_ipv4 (ans_src a) ∧ is_ipv4 (ans_dst a).

Lemma answer_outcome a xid t :
  answer_ok a xid t → frame_outcome xid t (ans_frame a) = Some (Ok (ans_buf a, ans_parsed a)).
Proof.
  intros (Hr & Hos & Ht & Hn & Hb & Hl & Hs & Hd). unfold frame_outcome, ans_frame, server_frame.
  pose proof (length_wrap (ans_buf a) (ans_src a) (ans_dst a) DHCP_SERVER_PORT DHCP_CLIENT_PORT Hs Hd)
    as Hlen. unfold zlen in Hl.
  rewrite take_ge by (rewrite Hlen; unfold RECV_BUFFER; lia). rewrite Hlen.
  unfold L3L4_HEADER_LEN, IPV4_HEADER_LEN, UDP_HEADER_LEN. rewrite (proj2 (Nat.ltb_ge _ _)) by lia.
  destruct (frame_roundtrip_ok (ans_buf a) (ans_src a) (ans_dst a) DHCP_SERVER_PORT DHCP_CLIENT_PORT)
    as (-> & _ & _); [done|unfold zlen; lia|done..|].
  cbn [negb Z.eqb Pos.eqb DHCP_CLIENT_PORT].
  by rewrite (validate_response_ok _ _ _ _ _ Hr Hos Ht Hn).
Qed.

(** C24: The exchange completes whatever else arrives: when among frames the
    client skips a well-formed OFFER with a server identifier arrives, and
    after it an ACK, the client answers the lease of the ACK (address, mask,
    gateway, name servers and times of its options), having sent exactly the
    DISCOVER and a REQUEST for the offered address to the offering server. *)
Theorem dora_completes (send_ok : list Z → bool) (xid : Z) (mac : list Z) (now : Z)
    (junk1 junk2 rest : list (list Z)) (offer ack : answer) (server : ipv4) :
  (∀ f, send_ok f = true) →
  Forall (λ f, frame_outcome xid message_type.OFFER f = None) junk1 →
  Forall (λ f, frame_outcome xid message_type.ACK f = None) junk2 →
  answer_ok offer xid message_type.OFFER → answer_ok ack xid message_type.ACK →
  server_id (ans_parsed offer) = Some server →
  dora send_ok (Some xid) mac (junk1 ++ ans_frame offer :: junk2 ++ ans_frame ack :: rest) now
    = Ok (build_lease_from_ack now (yiaddr (ans_buf ack)) server (ans_parsed ack),
          [raw_frame (discover_message xid mac) UNSPECIFIED BROADCAST;
           raw_frame (request_message xid mac (yiaddr (ans_buf offer)) server)
             UNSPECIFIED BROADCAST]).
Proof.
  intros Hsend Hj1 Hj2 Ho Ha Hsid. unfold dora. cbn [ok_or mbind res_bind].
  unfold send_raw. rewrite Hsend. cbn [mbind res_bind].
  rewrite (recv_first _ _ junk1 (ans_frame offer) _ _ Hj1 (answer_outcome offer _ _ Ho)).
  cbn [mbind res_bind]. rewrite Hsid. cbn [ok_or mbind res_bind]. rewrite Hsend.
  cbn [mbind res_bind].
  by rewrite (recv_first _ _ junk2 (ans_frame ack) _ _ Hj2 (answer_outcome ack _ _ Ha)).
Qed.

Definition demo_answer (t : Z) : answer :=
  let os := [(option_code.MESSAGE_TYPE, [t]); (option_code.SERVER_ID, [10; 0; 0; 1]);
             (option_code.SUBNET_MASK, [255; 255; 255; 0]); (option_code.LEASE_TIME, [0; 0; 14; 16])] in
  {| ans_buf := put_slot field.YIADDR [10; 0; 0; 5] (build_header 7 [2; 0; 0; 0; 0; 1])
                  ++ options_bytes os ++ [option_code.END];
     ans_options := os; ans_tail := []; ans_src := [10; 0; 0; 1]; ans_dst := BROADCAST |}.

Lemma demo_answer_ok t :
  is_u8 t → t ≠ message_type.NAK → answer_ok (demo_answer t) 7 t.
Proof.
  intros Ht Hn. split_and!.
  - split_and!; [vm_compute; reflexivity..|apply Nat.ltb_lt; vm_compute; reflexivity].
  - repeat constructor; unfold is_uint; cbn; try lia; vm_compute; discriminate.
  - reflexivity.
  - exact Hn.
  - unfold bytes_ok, demo_answer, ans_buf. apply Forall_app. split.
    + apply (bool_decide_unpack _). vm_compute. exact I.
    + assert (∀ z, is_u8 z → bytes_ok (options_bytes (ans_options (demo_answer z)) ++ [option_code.END]))
        as Hall; [|by apply Hall].
      intros z Hz. unfold bytes_ok, demo_answer, ans_options, options_bytes, option_bytes, zlen.
      cbn [mbind list_bind app fst snd length].
      repeat (apply Forall_cons; split; [first [exact Hz|by split; vm_compute]|]). constructor.
  - vm_compute. discriminate.
  - split; [reflexivity|]. apply (bool_decide_unpack _). vm_compute. exact I.
  - split; [reflexivity|]. apply (bool_decide_unpack _). vm_compute. exact I.
Qed.

Lemma dora_completes_witness :
  ∃ l sent,
    dora (λ _, true) (Some 7) [2; 0; 0; 0; 0; 1]
      ([[1; 2; 3]] ++ ans_frame (demo_answer 2) :: [] ++ ans_frame (demo_answer 5) :: []) 1000
      = Ok (l, sent) ∧ assigned_ip l = [10; 0; 0; 5].
Proof.
  exists (build_lease_from_ack 1000 (yiaddr (ans_buf (demo_answer 5))) [10; 0; 0; 1]
            (ans_parsed (demo_answer 5))),
         [raw_frame (discover_message 7 [2; 0; 0; 0; 0; 1]) UNSPECIFIED BROADCAST;
          raw_frame (request_message 7 [2; 0; 0; 0; 0; 1] (yiaddr (ans_buf (demo_answer 2)))
            [10; 0; 0; 1]) UNSPECIFIED BROADCAST].
  split; [|vm_compute; reflexivity].
  refine (dora_completes (λ _, true) 7 [2; 0; 0; 0; 0; 1] 1000 [[1; 2; 3]] [] []
    (demo_answer 2) (demo_answer 5) [10; 0; 0; 1] _ _ _ _ _ _).
  - reflexivity.
  - repeat constructor.
  - constructor.
  - apply demo_answer_ok; [split; vm_compute; congruence|discriminate].
  - apply demo_answer_ok; [split; vm_compute; congruence|discriminate].
  - reflexivity.
Defined.

(** ** Times of a lease *)

(** C40: The renewal and rebinding times of a lease lie inside it. The rebinding
    time is seven eighths of the lease as long as the product by seven fits 32
    bits, up to 613566756 seconds; beyond, the product saturates. The renewal
    does not come after the rebinding exactly for leases up to 1073741823
    seconds: for longer ones, the infinite lease among them, the rebinding comes
    first. *)
Theorem lease_times_ordered (now : Z) (ip server : ipv4) (opts : ParsedOptions) :
  (∀ t, opt_lease_time opts = Some t → is_u32 t) →
  let l := build_lease_from_ack now ip server opts in
  0 ≤ renewal_time l ≤ lease_time l ∧ 0 ≤ rebind_time l ≤ lease_time l ∧
  (rebind_time l = lease_time l * 7 / 8 ↔ lease_time l ≤ 613566756) ∧
  (renewal_time l ≤ rebind_time l ↔ lease_time l ≤ 1073741823).
Proof.
  intros Ht l.
  assert (0 ≤ lease_time l ≤ uint_max 32) as Hl.
  { cbn. destruct (opt_lease_time opts) as [t|]; cbn [default from_option id].
    - specialize (Ht t eq_refl). unfold is_uint, uint_max in *. lia.
    - unfold DEFAULT_LEASE_SECS, uint_max. lia. }
  assert (renewal_time l = lease_time l / 2) as -> by done.
  assert (rebind_time l = saturating_mul 32 (lease_time l) 7 / 8) as -> by done.
  unfold saturating_mul, uint_max in *. generalize dependent (lease_time l). intros L HL.
  change (2 ^ 32 - 1) with 4294967295 in *.
  pose proof (Z.div_mod L 2 ltac:(lia)). pose proof (Z.mod_pos_bound L 2 ltac:(lia)).
  pose proof (Z.div_mod (Z.min (L * 7) 4294967295) 8 ltac:(lia)).
  pose proof (Z.mod_pos_bound (Z.min (L * 7) 4294967295) 8 ltac:(lia)).
  pose proof (Z.div_mod (L * 7) 8 ltac:(lia)). pose proof (Z.mod_pos_bound (L * 7) 8 ltac:(lia)).
  split_and!; lia.
Qed.

Definition infinite_lease : ParsedOptions :=
  {| message_type := Some 5; server_id := None; subnet_mask := None; router := None;
     opt_dns_servers := []; opt_lease_time := Some 0xFFFFFFFF |}.

Lemma lease_times_ordered_witness :
  let l := build_lease_from_ack 0 UNSPECIFIED UNSPECIFIED infinite_lease in
  ¬ (renewal_time l ≤ rebind_time l).
Proof.
  intros l.
  destruct (lease_times_ordered 0 UNSPECIFIED UNSPECIFIED infinite_lease) as (_ & _ & _ & Hiff).
  - intros t [= <-]. split; [discriminate|reflexivity].
  - intros Hle. apply Hiff in Hle. apply Hle. vm_compute. reflexivity.
Defined.

(** The acquisition ends after at most three exchanges: with the first
    lease, or with the error of the third; the pauses between them are two and
    four seconds. *)
Theorem acquire_bounded (attempt : nat → res DhcpError Lease) :
  (∀ k, attempt k ≠ Panic) →
  (∃ k l, (k < 3)%nat ∧ attempt k = Ok l ∧ (∀ j, (j < k)%nat → ∃ e, attempt j = Err e) ∧
     acquire_attempts attempt = (Ok l, take k [2; 4])) ∨
  (∃ e, (∀ j, (j < 2)%nat → ∃ e, attempt j = Err e) ∧ attempt 2%nat = Err e ∧
     acquire_attempts attempt = (Err e, [2; 4])).
Proof.
  intros Hp. unfold acquire_attempts, ACQUIRE_MAX_ATTEMPTS. cbn [acquire_loop].
  destruct (attempt 0%nat) as [l|e0|] eqn:A0; [| |by apply Hp in A0].
  { left. exists 0%nat, l. split_and!; [lia|done|lia|done]. }
  destruct (attempt 1%nat) as [l|e1|] eqn:A1; [| |by apply Hp in A1].
  { left. exists 1%nat, l. split_and!; [lia|done| |done].
    intros j Hj. replace j with 0%nat by lia. eauto. }
  assert (∀ j, (j < 2)%nat → ∃ e, attempt j = Err e) as Hfail.
  { intros j Hj. destruct j as [|[|j]]; [eauto..|lia]. }
  destruct (attempt 2%nat) as [l|e2|] eqn:A2; [| |by apply Hp in A2].
  - left. exists 2%nat, l. split_and!; [lia|done..].
  - right. exists e2. split_and!; done.
Qed.

Lemma acquire_bounded_witness :
  (∃ k l, (k < 3)%nat ∧ (λ _, Err TimedOut) k = @Ok DhcpError Lease l ∧
     (∀ j, (j < k)%nat → ∃ e, (λ _, Err TimedOut) j = @Err DhcpError Lease e) ∧
     acquire_attempts (λ _, Err TimedOut) = (Ok l, take k [2; 4])) ∨
  (∃ e, (∀ j : nat, (j < 2)%nat → ∃ e, (λ _, Err TimedOut) j = @Err DhcpError Lease e) ∧
     (λ _, Err TimedOut) 2%nat = @Err DhcpError Lease e ∧
     acquire_attempts (λ _, Err TimedOut) = (Err e, [2; 4])).
Proof. apply (acquire_bounded (λ _, Err TimedOut)). discriminate. Defined.
