(* ===== verification/NetSlaac.v ===== *)
(** Stateless IPv6 autoconfiguration: router advertisements
    (libs/netlib/src/slaac/icmpv6.rs), interface identifiers
    (libs/netlib/src/slaac/address.rs), lifetimes
    (services/networkd/src/slaac/state.rs) and the manager of one interface
    (services/networkd/src/slaac/mod.rs, services/networkd/src/slaac/manager.rs).

    Instants are seconds of the monotonic clock. A handler that reads the clock
    takes the reading as the argument [now]; the readings one handler makes in
    a row are taken as one. *)

From S2P Require Import Prelude Utf Text NetFrame NetDhcp.

(** Addresses are their sixteen octets. *)
Abbreviation ipv6 := (list Z).
Definition is_ipv6 (a : ipv6) : Prop := length a = 16%nat ∧ bytes_ok a.

(** ** Interface identifiers *)

Definition BITS_PER_PREFIX_BYTE : Z := 8.

Definition mac_to_eui64 (mac : list Z) : list Z :=
  [Z.lxor (byte_at mac 0) 0x02; byte_at mac 1; byte_at mac 2; 0xff;
   0xfe; byte_at mac 3; byte_at mac 4; byte_at mac 5].

Definition generate (prefix : ipv6) (prefix_len : Z) (mac : list Z) : option ipv6 :=
  if (64 <? prefix_len) || negb (prefix_len mod BITS_PER_PREFIX_BYTE =? 0) then None
  else
    let eui64 := mac_to_eui64 mac in
    let prefix_bytes_count := Z.to_nat (Z.shiftr prefix_len 3) in
    let addr := zeros 16 in
    let addr :=
      match slice 0 prefix_bytes_count addr, slice 0 prefix_bytes_count prefix with
      | Some _, Some src => splice 0 src addr
      | _, _ => addr
      end in
    Some (splice 8 eui64 addr).

(** ** Router advertisements *)

Definition ICMPV6_ROUTER_SOLICITATION : Z := 133.
Definition ICMPV6_ROUTER_ADVERTISEMENT : Z := 134.
Definition ND_OPT_SOURCE_LL_ADDR : Z := 1.
Definition ND_OPT_PREFIX_INFO : Z := 3.
Definition ND_OPT_RDNSS : Z := 25.
Definition RA_HEADER_LEN : nat := 16.
Definition OPTION_HEADER_LEN : nat := 2.
Definition OPTION_UNIT_LEN : nat := 8.
Definition PREFIX_OPTION_LEN : nat := 32.
Definition RDNSS_OPTION_MIN_LEN : nat := 24.
Definition RDNSS_ADDRESS_OFFSET : nat := 8.
Definition IPV6_ADDR_LEN : nat := 16.

Record PrefixInfo := {
  pi_prefix : ipv6;
  pi_prefix_len : Z;
  autonomous : bool;
  valid_lifetime : Z;
  preferred_lifetime : Z
}.

Record RouterAdvertisement := {
  hop_limit : Z;
  managed_flag : bool;
  other_flag : bool;
  router_lifetime : Z;
  source : ipv6;
  prefixes : list PrefixInfo;
  ra_dns_servers : list ipv6;
  dns_lifetime : Z
}.

Inductive Failure :=
| RaTooShort (len : nat)
| WrongType (t : Z).

Definition build_router_solicitation (mac : list Z) : list Z :=
  [ICMPV6_ROUTER_SOLICITATION; 0; 0; 0] ++ [0; 0; 0; 0] ++ [ND_OPT_SOURCE_LL_ADDR; 1] ++ mac.

Definition read_array (n : nat) (data : list Z) (off : nat) : option (list Z) :=
  slice off (off + n) data.
Definition read_u8 (data : list Z) (off : nat) : option Z := data !! off.
Definition read_be16 (data : list Z) (off : nat) : option Z := from_be_bytes <$> read_array 2 data off.
Definition read_be32 (data : list Z) (off : nat) : option Z := from_be_bytes <$> read_array 4 data off.

Definition split_option (data : list Z) : option (Z * list Z * list Z) :=
  header ← slice 0 OPTION_HEADER_LEN data;
  opt_type ← read_u8 header 0;
  opt_len_units ← read_u8 header 1;
  if opt_len_units =? 0 then None
  else
    let opt_len := (Z.to_nat opt_len_units * OPTION_UNIT_LEN)%nat in
    opt ← slice 0 opt_len data;
    remaining ← slice opt_len (length data) data;
    Some (opt_type, opt, remaining).

Definition parse_prefix_option (opt : list Z) : option PrefixInfo :=
  if (length opt <? PREFIX_OPTION_LEN)%nat then None
  else
    plen ← read_u8 opt 2;
    flags ← read_u8 opt 3;
    prefix ← read_array IPV6_ADDR_LEN opt 16;
    valid ← read_be32 opt 4;
    preferred ← read_be32 opt 8;
    Some {| pi_prefix := prefix; pi_prefix_len := plen;
            autonomous := negb (Z.land flags 0x40 =? 0);
            valid_lifetime := valid; preferred_lifetime := preferred |}.

Definition add_prefix (ra : RouterAdvertisement) (p : PrefixInfo) : RouterAdvertisement :=
  {| hop_limit := hop_limit ra; managed_flag := managed_flag ra; other_flag := other_flag ra;
     router_lifetime := router_lifetime ra; source := source ra;
     prefixes := prefixes ra ++ [p]; ra_dns_servers := ra_dns_servers ra;
     dns_lifetime := dns_lifetime ra |}.

Definition push_prefix_option (opt : list Z) (ra : RouterAdvertisement) : RouterAdvertisement :=
  match parse_prefix_option opt with
  | Some p => add_prefix ra p
  | None => ra
  end.

Definition add_dns (ra : RouterAdvertisement) (lifetime : Z) (servers : list ipv6) : RouterAdvertisement :=
  {| hop_limit := hop_limit ra; managed_flag := managed_flag ra; other_flag := other_flag ra;
     router_lifetime := router_lifetime ra; source := source ra; prefixes := prefixes ra;
     ra_dns_servers := ra_dns_servers ra ++ servers; dns_lifetime := lifetime |}.

Definition parse_rdnss_option (opt : list Z) (ra : RouterAdvertisement) : RouterAdvertisement :=
  if (length opt <? RDNSS_OPTION_MIN_LEN)%nat then ra
  else match read_be32 opt 4, slice RDNSS_ADDRESS_OFFSET (length opt) opt with
       | Some lifetime, Some addresses => add_dns ra lifetime (chunks_exact IPV6_ADDR_LEN addresses)
       | _, _ => ra
       end.

(** The [while let] loop; each round takes at least eight bytes. *)
Fixpoint parse_ra_options (fuel : nat) (options : list Z) (ra : RouterAdvertisement)
    : RouterAdvertisement :=
  match fuel with
  | O => ra
  | S fuel =>
      match split_option options with
      | None => ra
      | Some (opt_type, opt, remaining) =>
          let ra :=
            if opt_type =? ND_OPT_PREFIX_INFO then push_prefix_option opt ra
            else if opt_type =? ND_OPT_RDNSS then parse_rdnss_option opt ra
            else ra in
          parse_ra_options fuel remaining ra
      end
  end.

Definition parse_router_advertisement (data : list Z) (src : ipv6) : res Failure RouterAdvertisement :=
  if (length data <? RA_HEADER_LEN)%nat then Err (RaTooShort (length data))
  else
    packet_type ← ok_or (read_u8 data 0) (RaTooShort (length data));
    if negb (packet_type =? ICMPV6_ROUTER_ADVERTISEMENT) then Err (WrongType packet_type)
    else
      hop ← ok_or (read_u8 data 4) (RaTooShort (length data));
      flags ← ok_or (read_u8 data 5) (RaTooShort (length data));
      lifetime ← ok_or (read_be16 data 6) (RaTooShort (length data));
      let ra := {| hop_limit := hop; managed_flag := negb (Z.land flags 0x80 =? 0);
                   other_flag := negb (Z.land flags 0x40 =? 0); router_lifetime := lifetime;
                   source := src; prefixes := []; ra_dns_servers := []; dns_lifetime := 0 |} in
      match slice RA_HEADER_LEN (length data) data with
      | None => Ok ra
      | Some options => Ok (parse_ra_options (S (length options)) options ra)
      end.

(** ** Lifetimes *)

Inductive AddressState := Preferred | Deprecated.
#[global] Instance AddressState_eq_dec : EqDecision AddressState.
Proof. solve_decision. Defined.

Record Expiring (A : Type) := { value : A; expires_at : Z }.
Arguments value {A} _.
Arguments expires_at {A} _.
Arguments Build_Expiring {A} _ _.
Abbreviation ManagedRouter := (Expiring ipv6).
Abbreviation ManagedDns := (Expiring ipv6).

Record ManagedAddress := {
  ma_address : ipv6;
  ma_prefix_len : Z;
  ma_state : AddressState;
  valid_until : Z;
  preferred_until : Z;
  ma_router : ipv6
}.

(** [now.checked_add(lifetime).unwrap_or(now)]. *)
Definition deadline_after (now lifetime_secs : Z) : Z :=
  default now (time_checked_add now lifetime_secs).

Definition expiring_new {A} (now : Z) (v : A) (lifetime_secs : Z) : Expiring A :=
  {| value := v; expires_at := deadline_after now lifetime_secs |}.
Definition refresh_lifetime {A} (now : Z) (e : Expiring A) (lifetime_secs : Z) : Expiring A :=
  {| value := value e; expires_at := deadline_after now lifetime_secs |}.
Definition expiring_is_valid {A} (now : Z) (e : Expiring A) : bool := now <? expires_at e.

Definition address_new (now : Z) (address : ipv6) (plen : Z) (router : ipv6)
    (valid_secs preferred_secs : Z) : ManagedAddress :=
  {| ma_address := address; ma_prefix_len := plen; ma_state := Preferred;
     valid_until := deadline_after now valid_secs;
     preferred_until := deadline_after now preferred_secs; ma_router := router |}.

Definition refresh_lifetimes (now : Z) (a : ManagedAddress) (valid_secs preferred_secs : Z)
    : ManagedAddress :=
  let new_valid := deadline_after now valid_secs in
  let new_preferred := deadline_after now preferred_secs in
  let clamped := deadline_after now 7200 in
  {| ma_address := ma_address a; ma_prefix_len := ma_prefix_len a;
     ma_state := if now <? new_preferred then Preferred else ma_state a;
     valid_until :=
       if (7200 <? valid_secs) || (valid_until a <? new_valid) then new_valid
       else Z.min (valid_until a) clamped;
     preferred_until := new_preferred;
     ma_router := ma_router a |}.

Definition address_is_valid (now : Z) (a : ManagedAddress) : bool := now <? valid_until a.
Definition address_is_preferred (now : Z) (a : ManagedAddress) : bool :=
  bool_decide (ma_state a = Preferred) && (now <? preferred_until a).

(** ** The socket filter *)

(** [create_icmpv6_filter]: a set bit blocks its message type. *)
Definition create_icmpv6_filter : list Z :=
  let data := replicate 8 0xFFFFFFFF in
  let word := Z.to_nat (Z.shiftr ICMPV6_ROUTER_ADVERTISEMENT 5) in
  let bit := Z.land ICMPV6_ROUTER_ADVERTISEMENT 31 in
  alter (λ w, Z.land w (Z.lxor 0xFFFFFFFF (Z.shiftl 1 bit))) word data.

(** ** The manager *)

Definition MAX_RTR_SOLICITATIONS : nat := 3.

Inductive SlaacEvent :=
| SlaacConfigured (address : ipv6) (prefix_len : Z) (gateway : ipv6) (dns : list ipv6)
| AddressDeprecated (address : ipv6)
| AddressExpired (address : ipv6)
| RouterExpired (router : ipv6)
| DnsUpdated (servers : list ipv6)
| SlaacFailed.

(** The socket and the interface index are the environment of the handlers;
    [ipv6_dns] is what the configuration lists. *)
Record Manager := {
  mg_mac : list Z;
  solicited : bool;
  ipv6_dns : list ipv6;
  mg_address : option ManagedAddress;
  mg_router : option ManagedRouter;
  mg_dns : list ManagedDns
}.

Definition manager_new (mac : list Z) (dns : list ipv6) : Manager :=
  {| mg_mac := mac; solicited := false; ipv6_dns := dns; mg_address := None;
     mg_router := None; mg_dns := [] |}.

Definition set_solicited (m : Manager) : Manager :=
  {| mg_mac := mg_mac m; solicited := true; ipv6_dns := ipv6_dns m; mg_address := mg_address m;
     mg_router := mg_router m; mg_dns := mg_dns m |}.
Definition set_address (m : Manager) (a : option ManagedAddress) : Manager :=
  {| mg_mac := mg_mac m; solicited := solicited m; ipv6_dns := ipv6_dns m; mg_address := a;
     mg_router := mg_router m; mg_dns := mg_dns m |}.
Definition set_router (m : Manager) (r : option ManagedRouter) : Manager :=
  {| mg_mac := mg_mac m; solicited := solicited m; ipv6_dns := ipv6_dns m;
     mg_address := mg_address m; mg_router := r; mg_dns := mg_dns m |}.
Definition set_dns (m : Manager) (ds : list ManagedDns) : Manager :=
  {| mg_mac := mg_mac m; solicited := solicited m; ipv6_dns := ipv6_dns m;
     mg_address := mg_address m; mg_router := mg_router m; mg_dns := ds |}.

Definition dns_values (m : Manager) : list ipv6 := value <$> mg_dns m.

Definition fallback_dns (now : Z) (m : Manager) : list ManagedDns :=
  (λ server, expiring_new now server (uint_max 64)) <$> ipv6_dns m.

Inductive SlaacError := NoUsablePrefix | InvalidPrefixLen (len : Z) | NoAdvertisement | SendFailed.

Definition usable_prefix (p : PrefixInfo) : bool := autonomous p && (pi_prefix_len p <=? 64).

Definition process_initial_ra (now : Z) (m : Manager) (ra : RouterAdvertisement)
    : res SlaacError (SlaacEvent * Manager) :=
  prefix ← ok_or (head (filter usable_prefix (prefixes ra))) NoUsablePrefix;
  address ← ok_or (generate (pi_prefix prefix) (pi_prefix_len prefix) (mg_mac m))
                  (InvalidPrefixLen (pi_prefix_len prefix));
  let managed_addr := address_new now address (pi_prefix_len prefix) (source ra)
                        (valid_lifetime prefix) (preferred_lifetime prefix) in
  let managed_router := expiring_new now (source ra) (router_lifetime ra) in
  let dns_servers :=
    match ra_dns_servers ra with
    | [] => fallback_dns now m
    | servers => (λ server, expiring_new now server (dns_lifetime ra)) <$> servers
    end in
  let m := set_dns (set_router (set_address m (Some managed_addr)) (Some managed_router)) dns_servers in
  Ok (SlaacConfigured address (ma_prefix_len managed_addr) (source ra) (dns_values m), m).

(** [refresh_address_from_ra]: the first matching prefix refreshes the address. *)
Definition prefix_matches (m : Manager) (ra : RouterAdvertisement) (a : ManagedAddress) (p : PrefixInfo)
    : bool :=
  autonomous p && (pi_prefix_len p <=? 64) && bool_decide (ma_router a = source ra)
  && bool_decide (generate (pi_prefix p) (pi_prefix_len p) (mg_mac m) = Some (ma_address a)).

Definition refresh_address_from_ra (now : Z) (m : Manager) (ra : RouterAdvertisement) : Manager :=
  match mg_address m with
  | None => m
  | Some a =>
      match head (filter (prefix_matches m ra a) (prefixes ra)) with
      | Some p => set_address m (Some (refresh_lifetimes now a (valid_lifetime p) (preferred_lifetime p)))
      | None => m
      end
  end.

(** [find] with [iter_mut]: the first entry of that server is refreshed. *)
Fixpoint refresh_first (now : Z) (ds : list ManagedDns) (server : ipv6) (lifetime : Z)
    : option (list ManagedDns) :=
  match ds with
  | [] => None
  | d :: ds =>
      if bool_decide (value d = server) then Some (refresh_lifetime now d lifetime :: ds)
      else cons d <$> refresh_first now ds server lifetime
  end.

Definition refresh_dns (now : Z) (lifetime : Z) (ds : list ManagedDns) (server : ipv6) : list ManagedDns :=
  default (ds ++ [expiring_new now server lifetime]) (refresh_first now ds server lifetime).

Definition refresh_dns_from_ra (now : Z) (m : Manager) (ra : RouterAdvertisement) : Manager :=
  set_dns m (fold_left (refresh_dns now (dns_lifetime ra)) (ra_dns_servers ra) (mg_dns m)).

Definition process_unsolicited_ra (now : Z) (m : Manager) (ra : RouterAdvertisement)
    : option SlaacEvent * Manager :=
  if router_lifetime ra =? 0 then
    match mg_router m with
    | Some r =>
        if bool_decide (value r = source ra)
        then (Some (RouterExpired (source ra)), set_router m None) else (None, m)
    | None => (None, m)
    end
  else
    let m := match mg_router m with
             | Some r =>
                 if bool_decide (value r = source ra)
                 then set_router m (Some (refresh_lifetime now r (router_lifetime ra))) else m
             | None => m
             end in
    let m := refresh_address_from_ra now m ra in
    match ra_dns_servers ra with
    | [] => (None, m)
    | _ =>
        let before := dns_values m in
        let m := refresh_dns_from_ra now m ra in
        let after := dns_values m in
        if bool_decide (before = after) then (None, m) else (Some (DnsUpdated after), m)
    end.

Definition deprecate (a : ManagedAddress) : ManagedAddress :=
  {| ma_address := ma_address a; ma_prefix_len := ma_prefix_len a; ma_state := Deprecated;
     valid_until := valid_until a; preferred_until := preferred_until a; ma_router := ma_router a |}.

Definition expire_dns (now : Z) (m : Manager) : option SlaacEvent * Manager :=
  let before := dns_values m in
  let kept := filter (expiring_is_valid now) (mg_dns m) in
  let dns := match mg_dns m, kept with
             | _ :: _, [] => fallback_dns now m
             | _, _ => kept
             end in
  let m := set_dns m dns in
  let after := dns_values m in
  if bool_decide (before = after) then (None, m) else (Some (DnsUpdated after), m).

Definition expire_router (now : Z) (m : Manager) : option SlaacEvent * Manager :=
  match mg_router m with
  | Some r =>
      if expires_at r <=? now then (Some (RouterExpired (value r)), set_router m None)
      else expire_dns now m
  | None => expire_dns now m
  end.

Definition handle_timer_expiration (now : Z) (m : Manager) : option SlaacEvent * Manager :=
  match mg_address m with
  | Some a =>
      if bool_decide (ma_state a = Preferred) && negb (address_is_preferred now a)
      then (Some (AddressDeprecated (ma_address a)), set_address m (Some (deprecate a)))
      else if negb (address_is_valid now a)
      then (Some (AddressExpired (ma_address a)), set_address m None)
      else expire_router now m
  | None => expire_router now m
  end.

Definition next_timer_deadline (now : Z) (m : Manager) : Z :=
  let deadline := deadline_after now 3600 in
  let deadline :=
    match mg_address m with
    | Some a =>
        let deadline :=
          if bool_decide (ma_state a = Preferred) && (preferred_until a <? deadline)
          then preferred_until a else deadline in
        if valid_until a <? deadline then valid_until a else deadline
    | None => deadline
    end in
  let deadline :=
    match mg_router m with
    | Some r => if expires_at r <? deadline then expires_at r else deadline
    | None => deadline
    end in
  fold_left (λ deadline d, if expires_at d <? deadline then expires_at d else deadline)
    (mg_dns m) deadline.

(** What one wait of the monitoring loop brings, with the clock when it does:
    an advertisement, nothing of use, or the end of the wait. *)
Inductive Wakeup := WokeRa (ra : RouterAdvertisement) | WokeNothing | WokeTimeout.

Fixpoint next_monitoring_event (m : Manager) (wakeups : list (Z * Wakeup))
    : option (SlaacEvent * list (Z * Wakeup)) * Manager :=
  match wakeups with
  | [] => (None, m)
  | (now, w) :: wakeups =>
      let '(event, m) := match w with
                         | WokeRa ra => process_unsolicited_ra now m ra
                         | WokeNothing => (None, m)
                         | WokeTimeout => handle_timer_expiration now m
                         end in
      match event with
      | Some e => (Some (e, wakeups), m)
      | None =>
          match mg_address m, mg_router m with
          | None, None => (Some (SlaacFailed, wakeups), m)
          | _, _ => next_monitoring_event m wakeups
          end
      end
  end.

(** [initial_solicitation]: for each attempt, whether the send succeeds and the
    advertisement received before the next one is due. *)
Fixpoint solicit (attempts : nat) (m : Manager) (answers : list (bool * option (Z * RouterAdvertisement)))
    : res SlaacError (SlaacEvent * Manager) :=
  match attempts, answers with
  | S attempts, (sent, answer) :: answers =>
      if negb sent then Err SendFailed
      else match answer with
           | Some (now, ra) => process_initial_ra now m ra
           | None => solicit attempts m answers
           end
  | _, _ => Err NoAdvertisement
  end.

Definition initial_solicitation (m : Manager) (answers : list (bool * option (Z * RouterAdvertisement)))
    : res SlaacError (SlaacEvent * Manager) :=
  solicit MAX_RTR_SOLICITATIONS m answers.

Definition next_event (m : Manager) (answers : list (bool * option (Z * RouterAdvertisement)))
    (wakeups : list (Z * Wakeup)) : option (SlaacEvent * list (Z * Wakeup)) * Manager :=
  if solicited m then next_monitoring_event m wakeups
  else
    let m := set_solicited m in
    match initial_solicitation m answers with
    | Ok (event, m) => (Some (event, wakeups), m)
    | _ => (Some (SlaacFailed, wakeups), m)
    end.

(** ** Advertisements as a router writes them *)

Inductive nd_option :=
| NdPrefix (flags : Z) (reserved : list Z) (p : PrefixInfo)
| NdRdnss (reserved : list Z) (lifetime : Z) (servers : list ipv6)
| NdOther (t : Z) (body : list Z).

Definition nd_body (o : nd_option) : list Z :=
  match o with
  | NdPrefix flags reserved p =>
      [pi_prefix_len p; flags] ++ to_be_bytes 4 (valid_lifetime p)
        ++ to_be_bytes 4 (preferred_lifetime p) ++ reserved ++ pi_prefix p
  | NdRdnss reserved lifetime servers => reserved ++ to_be_bytes 4 lifetime ++ concat servers
  | NdOther _ body => body
  end.

Definition nd_type (o : nd_option) : Z :=
  match o with
  | NdPrefix _ _ _ => ND_OPT_PREFIX_INFO
  | NdRdnss _ _ _ => ND_OPT_RDNSS
  | NdOther t _ => t
  end.

Definition nd_units (o : nd_option) : nat := (length (nd_body o) + 2) / 8.
Definition nd_bytes (o : nd_option) : list Z := nd_type o :: Z.of_nat (nd_units o) :: nd_body o.

Definition nd_ok (o : nd_option) : Prop :=
  match o with
  | NdPrefix flags reserved p =>
      length reserved = 4%nat ∧ length (pi_prefix p) = 16%nat ∧
      is_u32 (valid_lifetime p) ∧ is_u32 (preferred_lifetime p) ∧
      autonomous p = negb (Z.land flags 0x40 =? 0)
  | NdRdnss reserved lifetime servers =>
      length reserved = 2%nat ∧ is_u32 lifetime ∧ servers ≠ [] ∧
      Forall (λ a, length a = 16%nat) servers
  | NdOther t body => t ≠ ND_OPT_PREFIX_INFO ∧ t ≠ ND_OPT_RDNSS ∧ (8 | length body + 2)%nat
  end.

Definition nd_meaning (ra : RouterAdvertisement) (o : nd_option) : RouterAdvertisement :=
  match o with
  | NdPrefix _ _ p => add_prefix ra p
  | NdRdnss _ lifetime servers => add_dns ra lifetime servers
  | NdOther _ _ => ra
  end.

Definition ra_bytes (checksum : list Z) (hop flags lifetime : Z) (timers : list Z) (os : list nd_option)
    : list Z :=
  [ICMPV6_ROUTER_ADVERTISEMENT; 0] ++ checksum ++ [hop; flags] ++ to_be_bytes 2 lifetime
    ++ timers ++ (os ≫= nd_bytes).

(** ** Parsing lemmas *)

Lemma slice_app {A} (pre mid rest : list A) :
  slice (length pre) (length pre + length mid) (pre ++ mid ++ rest) = Some mid.
Proof.
  apply slice_Some. split; [rewrite !length_app; lia|].
  rewrite drop_app_length. by replace (length pre + length mid - length pre)%nat with (length mid) by lia;
    rewrite take_app_length.
Qed.

Lemma slice_at {A} a b (pre mid rest : list A) :
  a = length pre → b = (length pre + length mid)%nat → slice a b (pre ++ mid ++ rest) = Some mid.
Proof. intros -> ->. apply slice_app. Qed.

Lemma slice_to_end {A} a (pre mid : list A) :
  a = length pre → slice a (length (pre ++ mid)) (pre ++ mid) = Some mid.
Proof.
  intros ->. pose proof (slice_app pre mid []) as H. rewrite app_nil_r in H. by rewrite length_app.
Qed.

Lemma nd_length o : nd_ok o → (length (nd_body o) + 2 = 8 * nd_units o)%nat ∧ (0 < nd_units o)%nat.
Proof.
  intros Ho. assert (8 | length (nd_body o) + 2)%nat as [k Hk].
  { destruct o as [flags reserved p|reserved lifetime servers|t body]; cbn [nd_ok nd_body] in *.
    - destruct Ho as (H1 & H2 & _).
      rewrite !length_app, !length_to_be_bytes, H1, H2. exists 4%nat. reflexivity.
    - destruct Ho as (H1 & _ & _ & Hs). rewrite !length_app, length_to_be_bytes, H1.
      rewrite (length_concat_const 16 servers Hs). exists (1 + 2 * length servers)%nat. lia.
    - apply Ho. }
  unfold nd_units. rewrite Hk, Nat.div_mul by lia. lia.
Qed.

Lemma split_option_nd o rest :
  nd_ok o → split_option (nd_bytes o ++ rest) = Some (nd_type o, nd_bytes o, rest).
Proof.
  intros Ho. destruct (nd_length o Ho) as [Hl Hp]. unfold split_option, OPTION_HEADER_LEN, OPTION_UNIT_LEN.
  assert (slice 0 2 (nd_bytes o ++ rest) = Some [nd_type o; Z.of_nat (nd_units o)]) as ->.
  { apply (slice_at 0 2 [] [nd_type o; Z.of_nat (nd_units o)] (nd_body o ++ rest)); reflexivity. }
  cbn [mbind option_bind read_u8 lookup list_lookup].
  rewrite (proj2 (Z.eqb_neq _ 0)) by lia. rewrite Nat2Z.id.
  assert (nd_units o * 8 = length (nd_bytes o))%nat as -> by (cbn [nd_bytes length]; lia).
  pose proof (slice_at 0 (length (nd_bytes o)) [] (nd_bytes o) rest eq_refl eq_refl) as Hs.
  cbn [app] in Hs. rewrite Hs. cbn [mbind option_bind]. by rewrite slice_to_end.
Qed.

Lemma be32_at off pre z rest :
  is_u32 z → off = length pre → read_be32 (pre ++ to_be_bytes 4 z ++ rest) off = Some z.
Proof.
  intros Hz ->. unfold read_be32, read_array.
  rewrite (slice_at _ _ pre (to_be_bytes 4 z) rest);
    [|reflexivity|by rewrite length_to_be_bytes].
  cbn [fmap option_fmap option_map]. by rewrite from_to_be_bytes.
Qed.

Lemma push_prefix_nd ra flags reserved p :
  nd_ok (NdPrefix flags reserved p) →
  push_prefix_option (nd_bytes (NdPrefix flags reserved p)) ra = add_prefix ra p.
Proof.
  intros Ho. destruct (nd_length _ Ho) as [Hl _]. destruct Ho as (Hr & Hp & Hv & Hf & Ha).
  set (u := Z.of_nat (nd_units (NdPrefix flags reserved p))).
  set (hd := [ND_OPT_PREFIX_INFO; u; pi_prefix_len p; flags]).
  assert (nd_bytes (NdPrefix flags reserved p) = hd ++ to_be_bytes 4 (valid_lifetime p)
    ++ to_be_bytes 4 (preferred_lifetime p) ++ reserved ++ pi_prefix p) as -> by reflexivity.
  unfold push_prefix_option, parse_prefix_option, PREFIX_OPTION_LEN, IPV6_ADDR_LEN.
  rewrite (proj2 (Nat.ltb_ge _ _))
    by (rewrite !length_app, !length_to_be_bytes, Hr, Hp; cbn [hd length]; lia).
  assert (∀ l, read_u8 (hd ++ l) 2 = Some (pi_prefix_len p)) as -> by reflexivity.
  assert (∀ l, read_u8 (hd ++ l) 3 = Some flags) as -> by reflexivity.
  cbn [mbind option_bind]. rewrite (be32_at 4) by done.
  pose proof (be32_at 8 (hd ++ to_be_bytes 4 (valid_lifetime p)) (preferred_lifetime p)
    (reserved ++ pi_prefix p) Hf) as H8. rewrite <-app_assoc in H8.
  rewrite H8 by (rewrite length_app, length_to_be_bytes; reflexivity).
  pose proof (slice_at 16 (16 + 16) (hd ++ to_be_bytes 4 (valid_lifetime p)
    ++ to_be_bytes 4 (preferred_lifetime p) ++ reserved) (pi_prefix p) []) as H16.
  rewrite app_nil_r, <-!app_assoc in H16. unfold read_array.
  rewrite H16 by (rewrite !length_app, !length_to_be_bytes, Hr, ?Hp; reflexivity).
  cbn [mbind option_bind]. rewrite <-Ha. by destruct p.
Qed.

Lemma parse_rdnss_nd ra reserved lifetime servers :
  nd_ok (NdRdnss reserved lifetime servers) →
  parse_rdnss_option (nd_bytes (NdRdnss reserved lifetime servers)) ra = add_dns ra lifetime servers.
Proof.
  intros (Hr & Hl & Hne & Hs).
  pose proof (length_concat_const 16 servers Hs) as Hc.
  unfold parse_rdnss_option, RDNSS_OPTION_MIN_LEN, RDNSS_ADDRESS_OFFSET, IPV6_ADDR_LEN.
  set (u := Z.of_nat (nd_units (NdRdnss reserved lifetime servers))).
  change (nd_bytes (NdRdnss reserved lifetime servers))
    with (([ND_OPT_RDNSS; u] ++ reserved) ++ to_be_bytes 4 lifetime ++ concat servers).
  rewrite (proj2 (Nat.ltb_ge _ _)).
  2: { rewrite !length_app, length_to_be_bytes, Hr, Hc. destruct servers; [done|]. cbn [length]. lia. }
  rewrite be32_at by (rewrite ?length_app, ?Hr; done).
  rewrite app_assoc, slice_to_end by (rewrite !length_app, length_to_be_bytes, Hr; reflexivity).
  rewrite chunks_exact_concat; [reflexivity|lia|exact Hs].
Qed.

Lemma parse_ra_options_nd os tail fuel ra :
  Forall nd_ok os → split_option tail = None → (length os < fuel)%nat →
  parse_ra_options fuel ((os ≫= nd_bytes) ++ tail) ra = fold_left nd_meaning os ra.
Proof.
  intros Hos Ht. revert fuel ra. induction Hos as [|o os Ho _ IH]; intros fuel ra Hf.
  { destruct fuel as [|fuel]; [lia|]. cbn [parse_ra_options mbind list_bind app]. by rewrite Ht. }
  destruct fuel as [|fuel]; [lia|]. cbn [parse_ra_options mbind list_bind fold_left length] in *.
  rewrite <-app_assoc, (split_option_nd o _ Ho), IH by lia. f_equal.
  destruct o as [flags reserved p|reserved lifetime servers|t body]; cbn [nd_type nd_meaning].
  - by rewrite Z.eqb_refl, push_prefix_nd.
  - rewrite (proj2 (Z.eqb_neq ND_OPT_RDNSS ND_OPT_PREFIX_INFO)) by done.
    by rewrite Z.eqb_refl, parse_rdnss_nd.
  - destruct Ho as (H1 & H2 & _). by rewrite !(proj2 (Z.eqb_neq _ _)).
Qed.

Definition ra_base (hop flags lifetime : Z) (src : ipv6) : RouterAdvertisement :=
  {| hop_limit := hop; managed_flag := negb (Z.land flags 0x80 =? 0);
     other_flag := negb (Z.land flags 0x40 =? 0); router_lifetime := lifetime;
     source := src; prefixes := []; ra_dns_servers := []; dns_lifetime := 0 |}.

(** A router advertisement is read back as it was written: header fields,
    the prefixes and name servers of its options in order with the lifetime of
    the last RDNSS option, other options skipped, and a cut or malformed rest
    ignored. *)
Theorem ra_roundtrip (checksum timers tail : list Z) (hop flags lifetime : Z) (os : list nd_option)
    (src : ipv6) :
  length checksum = 2%nat → length timers = 8%nat → is_u16 lifetime →
  Forall nd_ok os → split_option tail = None →
  parse_router_advertisement (ra_bytes checksum hop flags lifetime timers os ++ tail) src
    = Ok (fold_left nd_meaning os (ra_base hop flags lifetime src)).
Proof.
  intros Hc Ht Hl Hos Hs. destruct checksum as [|c1 [|c2 [|]]]; try discriminate Hc.
  unfold ra_bytes. rewrite <-!app_assoc.
  set (hd := [ICMPV6_ROUTER_ADVERTISEMENT; 0; c1; c2; hop; flags]).
  change ([ICMPV6_ROUTER_ADVERTISEMENT; 0] ++ [c1; c2] ++ [hop; flags] ++ ?l) with (hd ++ l).
  set (opts := (os ≫= nd_bytes) ++ tail). unfold parse_router_advertisement, RA_HEADER_LEN.
  rewrite (proj2 (Nat.ltb_ge _ _))
    by (rewrite !length_app, length_to_be_bytes, Ht; cbn [hd length]; lia).
  assert (∀ l, read_u8 (hd ++ l) 0 = Some ICMPV6_ROUTER_ADVERTISEMENT) as -> by reflexivity.
  assert (∀ l, read_u8 (hd ++ l) 4 = Some hop) as -> by reflexivity.
  assert (∀ l, read_u8 (hd ++ l) 5 = Some flags) as -> by reflexivity.
  cbn [ok_or mbind res_bind]. rewrite Z.eqb_refl. cbn [negb].
  unfold read_be16, read_array.
  rewrite (slice_at 6 (6 + 2) hd (to_be_bytes 2 lifetime)) by reflexivity.
  cbn [fmap option_fmap option_map ok_or]. rewrite from_to_be_bytes by exact Hl.
  pose proof (slice_to_end 16 (hd ++ to_be_bytes 2 lifetime ++ timers) opts) as Hsl.
  rewrite <-!app_assoc in Hsl.
  rewrite Hsl by (rewrite !length_app, length_to_be_bytes, Ht; reflexivity).
  cbn [ok_or mbind res_bind]. f_equal. apply parse_ra_options_nd; [done..|].
  unfold opts. rewrite length_app. enough (length os ≤ length (os ≫= nd_bytes))%nat by lia.
  clear. induction os as [|o os IH]; cbn [mbind list_bind]; [reflexivity|].
  rewrite length_app. cbn [nd_bytes length]. fold (mbind (M:=list) nd_bytes os). lia.
Qed.

Definition demo_prefix : PrefixInfo :=
  {| pi_prefix := [0x20; 1; 0xd; 0xb8; 0; 0; 0; 1] ++ zeros 8; pi_prefix_len := 64; autonomous := true;
     valid_lifetime := 86400; preferred_lifetime := 14400 |}.
Definition demo_router : ipv6 := [0xfe; 0x80] ++ zeros 13 ++ [1].
Definition demo_options : list nd_option :=
  [NdOther 1 [1; 2; 3; 4; 5; 6]; NdPrefix 0xc0 [0; 0; 0; 0] demo_prefix;
   NdRdnss [0; 0] 1200 [demo_router]].

Lemma ra_roundtrip_witness :
  ∃ ra, parse_router_advertisement
    (ra_bytes [0; 0] 64 0 1800 (zeros 8) demo_options ++ [3; 0]) demo_router = Ok ra ∧
    prefixes ra = [demo_prefix] ∧ ra_dns_servers ra = [demo_router].
Proof.
  exists (fold_left nd_meaning demo_options (ra_base 64 0 1800 demo_router)).
  split; [|split; reflexivity].
  apply (ra_roundtrip [0; 0] (zeros 8) [3; 0] 64 0 1800 demo_options demo_router).
  - reflexivity.
  - reflexivity.
  - split; [discriminate|reflexivity].
  - repeat constructor; try discriminate; exists 1%nat; reflexivity.
  - reflexivity.
Defined.

(** ** Addresses *)

Lemma generate_bytes prefix k mac :
  length prefix = 16%nat → (k ≤ 8)%nat →
  generate prefix (8 * Z.of_nat k) mac = Some (take k prefix ++ zeros (8 - k) ++ mac_to_eui64 mac).
Proof.
  intros Hp Hk. unfold generate, BITS_PER_PREFIX_BYTE.
  rewrite (proj2 (Z.ltb_ge _ _)) by lia.
  rewrite Z.mul_comm, Z_mod_mult, Z.eqb_refl. cbn [orb negb].
  rewrite Z.shiftr_div_pow2 by lia. change (2 ^ 3) with 8. rewrite Z_div_mult, Nat2Z.id by lia.
  rewrite !slice_ok by (rewrite ?length_zeros; lia). f_equal.
  rewrite drop_0, Nat.sub_0_r.
  assert (length (take k prefix) = k) as Hk' by (rewrite length_take; lia).
  unfold splice. rewrite take_0, !Nat.add_0_l, Hk'. cbn [app].
  rewrite take_app, Hk'. rewrite (take_ge (take k prefix)) by lia.
  unfold zeros. rewrite drop_replicate, take_replicate.
  rewrite (drop_ge (_ ++ _)) by (rewrite length_app, Hk', length_replicate; cbn [mac_to_eui64 length]; lia).
  rewrite app_nil_r, <-app_assoc. by replace ((8 - k) `min` (16 - k))%nat with (8 - k)%nat by lia.
Qed.

(** An autoconfigured address is the advertised prefix over the EUI-64
    identifier of the interface: an address is formed exactly for the lengths
    that are multiples of eight up to 64, its leading bits are those of the
    prefix, the bits up to the identifier are zero, and two interfaces of
    different hardware address never form the same one. *)
Theorem slaac_address_correct (prefix : ipv6) (plen : Z) (mac : list Z) :
  is_ipv6 prefix → 0 ≤ plen → length mac = 6%nat →
  (is_Some (generate prefix plen mac) ↔ plen ≤ 64 ∧ plen mod 8 = 0) ∧
  (∀ a, generate prefix plen mac = Some a →
     length a = 16%nat ∧ take (Z.to_nat (plen / 8)) a = take (Z.to_nat (plen / 8)) prefix ∧
     drop 8 a = mac_to_eui64 mac ∧
     (∀ i, (Z.to_nat (plen / 8) ≤ i < 8)%nat → a !! i = Some 0)) ∧
  (∀ mac' a, length mac' = 6%nat → generate prefix plen mac = Some a →
     generate prefix plen mac' = Some a → mac = mac').
Proof.
  intros [Hp _] H0 Hm.
  assert ((plen ≤ 64 ∧ plen mod 8 = 0) ∨ ∀ m, generate prefix plen m = None) as [[Hle Hmod]|Hn].
  { unfold generate, BITS_PER_PREFIX_BYTE.
    destruct (Z.ltb_spec 64 plen); [by right|].
    destruct (Z.eqb_spec (plen mod 8) 0); [by left|by right]. }
  2: { split_and!; [|intros a; rewrite Hn; discriminate|intros ? a _; rewrite Hn; discriminate].
       rewrite Hn. split; [by intros [? ?]|]. intros [Hle Hmod]. specialize (Hn mac).
       revert Hn. unfold generate, BITS_PER_PREFIX_BYTE.
       rewrite (proj2 (Z.ltb_ge _ _)), Hmod by lia. discriminate. }
  assert (∃ k, plen = 8 * Z.of_nat k ∧ (k ≤ 8)%nat) as (k & -> & Hk).
  { exists (Z.to_nat (plen / 8)). pose proof (Z.div_mod plen 8 ltac:(lia)).
    pose proof (Z.div_pos plen 8 H0 ltac:(lia)). lia. }
  rewrite (Z.mul_comm 8), Z.div_mul, Nat2Z.id by lia. rewrite (Z.mul_comm _ 8).
  rewrite generate_bytes by done. split; [split; [intros _; split; [lia|done]|by eexists]|].
  assert (length (take k prefix) = k) as Hk' by (rewrite length_take; lia).
  split.
  - intros a [= <-]. split_and!.
    + rewrite !length_app, Hk', length_zeros. cbn [mac_to_eui64 length]. lia.
    + by rewrite take_app_le, take_take, Nat.min_id by lia.
    + rewrite app_assoc, drop_app_length'; [done|]. rewrite length_app, Hk', length_zeros. lia.
    + intros i Hi. rewrite lookup_app_r, lookup_app_l by (rewrite ?length_zeros; lia).
      apply lookup_replicate. split; [done|lia].
  - intros mac' a Hm' [= <-] Ha. rewrite generate_bytes in Ha by done.
    apply (inj Some) in Ha. apply app_inv_head in Ha. apply app_inv_head in Ha.
    destruct mac as [|a0 [|a1 [|a2 [|a3 [|a4 [|a5 [|]]]]]]]; try discriminate Hm.
    destruct mac' as [|b0 [|b1 [|b2 [|b3 [|b4 [|b5 [|]]]]]]]; try discriminate Hm'.
    unfold mac_to_eui64, byte_at in Ha. cbn [lookup list_lookup default from_option id] in Ha.
    injection Ha as E0 -> -> -> -> ->. f_equal.
    apply (f_equal (λ z, Z.lxor z 0x02)) in E0.
    by rewrite !Z.lxor_assoc, Z.lxor_nilpotent, !Z.lxor_0_r in E0.
Qed.

Lemma slaac_address_correct_witness :
  is_Some (generate (pi_prefix demo_prefix) 64 [2; 0; 0; 0; 0; 1]).
Proof.
  apply (slaac_address_correct (pi_prefix demo_prefix) 64 [2; 0; 0; 0; 0; 1]).
  - split; [reflexivity|]. apply (bool_decide_unpack _). vm_compute. exact I.
  - discriminate.
  - reflexivity.
  - split; [discriminate|reflexivity].
Defined.

(** ** Lifetimes under advertisements *)

Lemma deadline_after_ok now s : now + s < 2 ^ 63 → deadline_after now s = now + s.
Proof.
  intros H. unfold deadline_after, time_checked_add. by rewrite (proj2 (Z.ltb_lt _ _)).
Qed.

Lemma deadline_after_overflow now s : 2 ^ 63 ≤ now + s → deadline_after now s = now.
Proof.
  intros H. unfold deadline_after, time_checked_add. by rewrite (proj2 (Z.ltb_ge _ _)).
Qed.

Lemma refresh_lifetimes_spec now a v p :
  0 ≤ now → now < 2 ^ 62 → is_u32 v → is_u32 p →
  let a' := refresh_lifetimes now a v p in
  ma_address a' = ma_address a ∧ ma_router a' = ma_router a ∧
  Z.min (valid_until a) (now + 7200) ≤ valid_until a' ≤ Z.max (valid_until a) (now + v).
Proof.
  intros H0 Hn Hv Hp. unfold is_uint in *. cbn. rewrite !deadline_after_ok by lia.
  split_and!; [done..|zcases|zcases]; destruct (7200 <? v) eqn:E1, (valid_until a <? now + v) eqn:E2;
    cbn [orb]; lia.
Qed.

Lemma refresh_dns_keeps now m ra :
  mg_address (refresh_dns_from_ra now m ra) = mg_address m ∧
  mg_router (refresh_dns_from_ra now m ra) = mg_router m.
Proof. done. Qed.

Lemma refresh_address_keeps now m ra :
  mg_router (refresh_address_from_ra now m ra) = mg_router m ∧
  mg_dns (refresh_address_from_ra now m ra) = mg_dns m ∧
  ipv6_dns (refresh_address_from_ra now m ra) = ipv6_dns m.
Proof.
  unfold refresh_address_from_ra. destruct (mg_address m); [|done]. by destruct (head _).
Qed.

(** The address after an advertisement, whatever the rest of it does. *)
Lemma unsolicited_address now m ra :
  mg_address (snd (process_unsolicited_ra now m ra)) = mg_address m ∨
  mg_address (snd (process_unsolicited_ra now m ra)) = mg_address (refresh_address_from_ra now m ra).
Proof.
  unfold process_unsolicited_ra. destruct (_ =? 0).
  { left. destruct (mg_router m); [|done]. by case_bool_decide. }
  right. set (m1 := match mg_router m with Some r => _ | None => m end).
  assert (mg_address (refresh_address_from_ra now m1 ra)
          = mg_address (refresh_address_from_ra now m ra)) as E.
  { assert (mg_address m1 = mg_address m ∧ mg_mac m1 = mg_mac m) as [Ea Em].
    { subst m1. destruct (mg_router m); [|done]. by case_bool_decide. }
    unfold refresh_address_from_ra. rewrite Ea. destruct (mg_address m) as [a|] eqn:Ema; [|congruence].
    assert (∀ p, prefix_matches m1 ra a p = prefix_matches m ra a p) as Epm.
    { intros p. unfold prefix_matches. by rewrite Em. }
    assert (filter (prefix_matches m1 ra a) (prefixes ra) = filter (prefix_matches m ra a) (prefixes ra)) as ->.
    { apply list_filter_iff. intros p. by rewrite Epm. }
    destruct (head _); [done|congruence]. }
  destruct (ra_dns_servers ra); [done|]. by case_bool_decide.
Qed.

Lemma refresh_address_spec now m ra a :
  0 ≤ now → now < 2 ^ 62 → mg_address m = Some a →
  Forall (λ p, is_u32 (valid_lifetime p) ∧ is_u32 (preferred_lifetime p)) (prefixes ra) →
  ∃ a', mg_address (refresh_address_from_ra now m ra) = Some a' ∧
    ma_address a' = ma_address a ∧ Z.min (valid_until a) (now + 7200) ≤ valid_until a'.
Proof.
  intros H0 Hn Ha Hps. unfold refresh_address_from_ra. rewrite Ha.
  destruct (head _) as [p|] eqn:Hh; [|exists a; split_and!; [done..|lia]].
  apply head_Some_elem_of in Hh. apply list_elem_of_filter in Hh as [_ Hp].
  rewrite Forall_forall in Hps. destruct (Hps p Hp) as [Hv Hpr].
  exists (refresh_lifetimes now a (valid_lifetime p) (preferred_lifetime p)).
  destruct (refresh_lifetimes_spec now a _ _ H0 Hn Hv Hpr) as (Ha' & _ & Hle & _).
  split_and!; [reflexivity|exact Ha'|exact Hle].
Qed.

(** No advertisement, forged or not, takes the address away or cuts its
    valid lifetime below two hours: after it the same address remains, valid
    for at least the smaller of what was left and two hours. *)
Theorem advertisement_cannot_expire_address (now : Z) (m : Manager) (ra : RouterAdvertisement)
    (a : ManagedAddress) :
  0 ≤ now → now < 2 ^ 62 → mg_address m = Some a →
  Forall (λ p, is_u32 (valid_lifetime p) ∧ is_u32 (preferred_lifetime p)) (prefixes ra) →
  ∃ a', mg_address (snd (process_unsolicited_ra now m ra)) = Some a' ∧
    ma_address a' = ma_address a ∧ Z.min (valid_until a) (now + 7200) ≤ valid_until a'.
Proof.
  intros H0 Hn Ha Hps. destruct (unsolicited_address now m ra) as [->| ->].
  - exists a. split_and!; [done..|lia].
  - by apply refresh_address_spec.
Qed.

(** ** The monitoring loop *)

Definition demo_ra : RouterAdvertisement :=
  {| hop_limit := 64; managed_flag := false; other_flag := false; router_lifetime := 1800;
     source := demo_router; prefixes := [demo_prefix]; ra_dns_servers := []; dns_lifetime := 0 |}.
Definition demo_address : ManagedAddress :=
  address_new 100 [0x20; 1] 64 demo_router 86400 14400.
Definition demo_manager : Manager :=
  set_address (manager_new [2; 0; 0; 0; 0; 1] [demo_router]) (Some demo_address).

Lemma advertisement_cannot_expire_address_witness :
  ∃ a', mg_address (snd (process_unsolicited_ra 200 demo_manager demo_ra)) = Some a' ∧
    ma_address a' = [0x20; 1] ∧ Z.min (valid_until demo_address) (200 + 7200) ≤ valid_until a'.
Proof.
  apply (advertisement_cannot_expire_address 200 demo_manager demo_ra demo_address).
  - discriminate.
  - reflexivity.
  - reflexivity.
  - repeat constructor; discriminate.
Defined.

Lemma fold_deadline_le (ds : list ManagedDns) d :
  fold_left (λ deadline x, if expires_at x <? deadline then expires_at x else deadline) ds d ≤ d ∧
  Forall (λ x, fold_left (λ deadline x, if expires_at x <? deadline then expires_at x else deadline) ds d
               ≤ expires_at x) ds.
Proof.
  revert d. induction ds as [|x ds IH]; intros d; cbn [fold_left]; [split; [lia|constructor]|].
  destruct (IH (if expires_at x <? d then expires_at x else d)) as [H1 H2].
  split; [destruct (Z.ltb_spec (expires_at x) d); lia|].
  constructor; [destruct (Z.ltb_spec (expires_at x) d); lia|exact H2].
Qed.

(** The state in which only the configured name servers are in use. *)
Definition on_fallback (t : Z) (m : Manager) : Prop :=
  ∃ s, 0 ≤ s ≤ t ∧ mg_dns m = fallback_dns s m ∧ ipv6_dns m ≠ [].

Lemma fallback_due t m : on_fallback t m → next_timer_deadline t m ≤ t.
Proof.
  intros (s & Hs & Hd & Hne). unfold next_timer_deadline. rewrite Hd.
  match goal with |- fold_left _ _ ?d ≤ _ => generalize d end. intros d.
  destruct (fold_deadline_le (fallback_dns s m) d) as [_ Hall].
  destruct (ipv6_dns m) as [|server rest] eqn:E; [done|].
  unfold fallback_dns in *. rewrite E in *. cbn [fmap list_fmap] in *.
  apply Forall_cons in Hall as [Hle _]. cbn [expires_at expiring_new] in Hle.
  rewrite (deadline_after_overflow s) in Hle by (unfold uint_max; lia). lia.
Qed.

Lemma fallback_values s m : value <$> fallback_dns s m = ipv6_dns m.
Proof. unfold fallback_dns. rewrite <-list_fmap_compose. apply list_fmap_id. Qed.

Lemma fallback_expire t m :
  on_fallback t m →
  expire_dns t m = (None, set_dns m (fallback_dns t m)) ∧
  on_fallback t (set_dns m (fallback_dns t m)).
Proof.
  intros (s & Hs & Hd & Hne). split.
  2: { exists t. split; [lia|]. done. }
  unfold expire_dns.
  assert (filter (expiring_is_valid t) (mg_dns m) = []) as ->.
  { rewrite Hd. unfold fallback_dns. generalize (ipv6_dns m). intros l.
    induction l as [|server l IH]; cbn [fmap list_fmap]; [done|].
    rewrite filter_cons. destruct (decide _) as [Hv|]; [|done]. exfalso. revert Hv.
    unfold expiring_is_valid, expiring_new. cbn [expires_at].
    rewrite deadline_after_overflow by (unfold uint_max; lia).
    rewrite (proj2 (Z.ltb_ge _ _)) by lia. done. }
  rewrite Hd. destruct (ipv6_dns m) as [|server l] eqn:E; [done|].
  assert (∃ x xs, fallback_dns s m = x :: xs) as (x & xs & Ex).
  { unfold fallback_dns. rewrite E. cbn [fmap list_fmap]. eauto. }
  rewrite Ex. unfold dns_values, set_dns. cbn [mg_dns].
  rewrite Hd, !fallback_values. by rewrite bool_decide_eq_true_2.
Qed.

Definition nothing_due (t : Z) (m : Manager) : Prop :=
  (∀ a, mg_address m = Some a → t < valid_until a ∧ (ma_state a = Preferred → t < preferred_until a)) ∧
  (∀ r, mg_router m = Some r → t < expires_at r).

Lemma nothing_due_expire t m : nothing_due t m → handle_timer_expiration t m = expire_dns t m.
Proof.
  intros [Ha Hr].
  assert (expire_router t m = expire_dns t m) as Her.
  { unfold expire_router. destruct (mg_router m) as [r|]; [|done].
    specialize (Hr r eq_refl). by rewrite (proj2 (Z.leb_gt _ _)). }
  unfold handle_timer_expiration. destruct (mg_address m) as [a|]; [|done].
  destruct (Ha a eq_refl) as [Hv Hp]. unfold address_is_preferred, address_is_valid.
  rewrite (proj2 (Z.ltb_lt _ _) Hv).
  case_bool_decide as E; cbn [andb negb]; [|done].
  by rewrite (proj2 (Z.ltb_lt _ _) (Hp E)).
Qed.

Lemma fallback_spin_step t m :
  on_fallback t m → nothing_due t m →
  handle_timer_expiration t m = (None, set_dns m (fallback_dns t m)).
Proof. intros Hf Hn. rewrite nothing_due_expire by done. by apply fallback_expire. Qed.

Lemma nothing_due_set_dns t m ds : nothing_due t (set_dns m ds) ↔ nothing_due t m.
Proof. done. Qed.

(** A router that advertises no name servers makes the monitoring loop
    spin: the lifetime of the configured servers, the largest 64-bit number of
    seconds, overflows the clock and leaves them due at once, so that until
    another deadline every wait ends immediately, without an event, and leaves
    the next one due as well. *)
Theorem fallback_dns_spins (t0 : Z) (m0 m : Manager) (ra : RouterAdvertisement) (event : SlaacEvent)
    (times : list Z) :
  0 ≤ t0 → ra_dns_servers ra = [] → ipv6_dns m0 ≠ [] →
  process_initial_ra t0 m0 ra = Ok (event, m) →
  Forall (λ t, t0 ≤ t ∧ nothing_due t m) times → StronglySorted Z.le times →
  ∃ m', next_monitoring_event m ((λ t, (t, WokeTimeout)) <$> times) = (None, m') ∧
    ∀ t, Forall (λ t', t' ≤ t) times → t0 ≤ t → next_timer_deadline t m' ≤ t.
Proof.
  intros H0 Hra Hne Hinit Hts Hsorted.
  assert (on_fallback t0 m ∧ is_Some (mg_address m)) as [Hf Haddr].
  { unfold process_initial_ra in Hinit.
    destruct (head _) as [p|]; [|discriminate]. cbn [ok_or mbind res_bind] in Hinit.
    destruct (generate _ _ _) as [address|]; [|discriminate]. cbn [ok_or mbind res_bind] in Hinit.
    rewrite Hra in Hinit. injection Hinit as _ <-. split; [|by eexists].
    exists t0. split; [lia|]. done. }
  clear Hinit Hra Hne. revert t0 m H0 Hf Haddr Hts. induction Hsorted as [|t ts _ IH Hle].
  { intros t0 m _ Hf _ _. exists m. split; [done|]. intros t _ Ht. apply fallback_due.
    destruct Hf as (s & Hs & Hd). exists s. split; [lia|done]. }
  intros t0 m H0 Hf Haddr Hts. apply Forall_cons in Hts as [[Ht Hnd] Hts].
  assert (on_fallback t m) as Hft.
  { destruct Hf as (s & Hs & Hd). exists s. split; [lia|done]. }
  cbn [fmap list_fmap next_monitoring_event]. rewrite (fallback_spin_step t m Hft Hnd).
  set (m1 := set_dns m (fallback_dns t m)).
  assert (mg_address m1 = mg_address m) as Ea by done. rewrite Ea. destruct Haddr as [a Ha]. rewrite Ha.
  destruct (IH t m1) as (m' & Hm' & Hdl).
  - lia.
  - by apply fallback_expire.
  - rewrite Ea. by eexists.
  - rewrite Forall_forall in Hts, Hle |- *. intros t' Ht'. split; [by apply Hle|].
    apply nothing_due_set_dns. by apply Hts.
  - exists m'. split; [exact Hm'|]. intros t' Hall _. apply Forall_cons in Hall as [? Hall].
    apply Hdl; [exact Hall|lia].
Qed.

Definition demo_configured : Manager :=
  match process_initial_ra 100 (manager_new [2; 0; 0; 0; 0; 1] [demo_router]) demo_ra with
  | Ok (_, m) => m
  | _ => demo_manager
  end.

Lemma fallback_dns_spins_witness :
  ∃ m', next_monitoring_event demo_configured ((λ t, (t, WokeTimeout)) <$> [100; 100; 101]) = (None, m') ∧
    ∀ t, Forall (λ t', t' ≤ t) [100; 100; 101] → 100 ≤ t → next_timer_deadline t m' ≤ t.
Proof.
  apply (fallback_dns_spins 100 (manager_new [2; 0; 0; 0; 0; 1] [demo_router]) demo_configured demo_ra
    (SlaacConfigured ([0x20; 1; 0xd; 0xb8; 0; 0; 0; 1] ++ [0; 0; 0; 255; 254; 0; 0; 1]) 64 demo_router
       [demo_router]) [100; 100; 101]).
  - discriminate.
  - reflexivity.
  - discriminate.
  - reflexivity.
  - repeat (apply Forall_cons; split; [split; [discriminate|]|]); [..|constructor];
      (split; [intros a Ha; vm_compute in Ha; injection Ha as <-; done
              |intros r Hr; vm_compute in Hr; injection Hr as <-; done]).
  - repeat constructor; discriminate.
Defined.

(** A router that left does not come back: once the manager has no router,
    no advertisement and no timer restores it, and no later event configures
    a gateway, although the address stays in use. *)
Theorem departed_router_never_returns (m : Manager) (wakeups : list (Z * Wakeup)) :
  mg_router m = None →
  mg_router (snd (next_monitoring_event m wakeups)) = None ∧
  ∀ e rest, fst (next_monitoring_event m wakeups) = Some (e, rest) →
    ∀ a l g d, e ≠ SlaacConfigured a l g d.
Proof.
  revert m. induction wakeups as [|[now w] ws IH]; intros m Hr; [done|].
  cbn [next_monitoring_event].
  assert (∃ ev m', (match w with
      | WokeRa ra => process_unsolicited_ra now m ra
      | WokeNothing => (None, m)
      | WokeTimeout => handle_timer_expiration now m
      end) = (ev, m') ∧ mg_router m' = None ∧
      ∀ e a l g d, ev = Some e → e ≠ SlaacConfigured a l g d) as (ev & m' & -> & Hr' & Hev).
  { eexists _, _. split; [apply surjective_pairing|].
    destruct w as [ra| |]; [|split; [done|discriminate]|].
    - unfold process_unsolicited_ra. rewrite Hr. destruct (_ =? 0); [split; [done|discriminate]|].
      destruct (refresh_address_keeps now m ra) as (Hrk & _ & _).
      destruct (ra_dns_servers ra); [split; [by rewrite <-Hr|discriminate]|].
      case_bool_decide; (split; [by rewrite <-Hr|]); [discriminate|by intros e ? ? ? ? [= <-]].
    - assert (mg_router (snd (expire_router now m)) = None ∧ ∀ e a l g d,
        fst (expire_router now m) = Some e → e ≠ SlaacConfigured a l g d) as Her.
      { unfold expire_router, expire_dns. rewrite Hr.
        case_bool_decide; (split; [exact Hr|]); [discriminate|by intros e ? ? ? ? [= <-]]. }
      unfold handle_timer_expiration. destruct (mg_address m) as [a|]; [|exact Her].
      destruct (_ && _); [split; [exact Hr|by intros e ? ? ? ? [= <-]]|].
      destruct (negb _); [split; [exact Hr|by intros e ? ? ? ? [= <-]]|exact Her]. }
  destruct ev as [e|].
  - cbn [fst snd]. split; [done|]. intros e' rest [= <- <-] a l g d. by apply (Hev e a l g d).
  - rewrite Hr'. destruct (mg_address m'); [by apply IH|].
    cbn [fst snd]. split; [done|]. by intros e' rest [= <- _] a l g d.
Qed.

Lemma departed_router_never_returns_witness :
  mg_router (snd (next_monitoring_event demo_manager [(200, WokeRa demo_ra); (201, WokeTimeout)])) = None.
Proof.
  apply (departed_router_never_returns demo_manager [(200, WokeRa demo_ra); (201, WokeTimeout)]).
  reflexivity.
Defined.
