(* ===== verification/NetTypes.v ===== *)
(** Data and interfaces the actors of the network daemon share: the validated
    state machines (services/networkd/src/statemachine.rs,
    services/networkd/src/interface/state.rs,
    services/networkd/src/supervisor/state.rs, services/networkd/src/dhcp/mod.rs),
    interface names and the choice of a primary (libs/netlib/src/interface.rs),
    the configuration (libs/config/src/system/network.rs) and the snapshot of an
    interface (services/networkd/src/interface/snapshot.rs). The channels of the
    runtime are a class. *)

From stdpp Require Import gmap sorting.
From S2P Require Import Prelude Utf Text NetFrame NetDhcp NetSlaac.

(** ** State machines *)

Class StateMachine (St : Type) `{EqDecision St} := { valid_next_states : St → list St }.

Record InvalidTransition (St : Type) := { from : St; to : St }.
Arguments Build_InvalidTransition {St} _ _.

(** The new state, or the refused pair; the state is then unchanged. *)
Definition transition {St} `{StateMachine St} (current next : St) : res (InvalidTransition St) St :=
  if bool_decide (next ∈ valid_next_states current) then Ok next
  else Err (Build_InvalidTransition current next).

Inductive Lifecycle := Discovered | Configuring | Configured | Degraded | Failed | Deconfiguring.
#[global] Instance Lifecycle_eq_dec : EqDecision Lifecycle.
Proof. solve_decision. Defined.

#[global] Instance Lifecycle_machine : StateMachine Lifecycle := {
  valid_next_states s :=
    match s with
    | Discovered => [Configuring]
    | Configuring => [Configured; Failed]
    | Configured => [Degraded; Deconfiguring]
    | Degraded => [Configuring; Configured; Deconfiguring]
    | Failed => [Configuring; Deconfiguring]
    | Deconfiguring => [Discovered]
    end
}.

Inductive NetworkState := Uninitialized | Initializing | Operational | NetReady | NetDegraded.
#[global] Instance NetworkState_eq_dec : EqDecision NetworkState.
Proof. solve_decision. Defined.

#[global] Instance NetworkState_machine : StateMachine NetworkState := {
  valid_next_states s :=
    match s with
    | Uninitialized => [Initializing]
    | Initializing => [Operational; NetDegraded]
    | Operational => [NetReady; NetDegraded]
    | NetReady => [NetDegraded]
    | NetDegraded => [Initializing; Operational]
    end
}.

Inductive DhcpState := Init | Bound | Renewing | Rebinding.
#[global] Instance DhcpState_eq_dec : EqDecision DhcpState.
Proof. solve_decision. Defined.

#[global] Instance DhcpState_machine : StateMachine DhcpState := {
  valid_next_states s :=
    match s with
    | Init => [Bound]
    | Bound => [Renewing; Init]
    | Renewing => [Bound; Rebinding; Init]
    | Rebinding => [Bound; Init]
    end
}.

(** The edges, and the runs they allow. *)
Definition edge {St} `{StateMachine St} (a b : St) : Prop := b ∈ valid_next_states a.

Lemma transition_Ok {St} `{StateMachine St} (a b c : St) :
  transition a b = Ok c ↔ c = b ∧ edge a b.
Proof.
  unfold transition, edge. case_bool_decide; split; [intros [= <-]; done|intros [-> _]; done|done|].
  intros [_ ?]. done.
Qed.

(** ** Interface names and their choice *)

Abbreviation Name := ustring.

Definition MAX_LEN : Z := 15.

Definition name_new (name : ustring) : option Name :=
  if bool_decide (name = []) || (MAX_LEN <? zlen (utf8 name)) || bool_decide (0 ∈ name)
  then None else Some name.

(** [link::State]. *)
Inductive LinkState := LinkUp | NoCarrier | LinkDown.
#[global] Instance LinkState_eq_dec : EqDecision LinkState.
Proof. solve_decision. Defined.

Definition has_carrier (s : LinkState) : bool := bool_decide (s = LinkUp).

Record Ethernet := {
  eth_name : Name;
  eth_index : Z;
  mac_address : list Z;
  link_state : LinkState
}.

Definition starts_with (p : string) (s : ustring) : bool :=
  match strip_prefix (ustr p) s with Some _ => true | None => false end.

Definition score_naming (name : Name) : Z :=
  if starts_with "eno" name then 500
  else if starts_with "ens" name then 400
  else if starts_with "enp" name then 300
  else if starts_with "end" name then 200
  else if starts_with "eth" name then 100
  else 50.

Definition score_interface (i : Ethernet) : Z :=
  let score := 0 in
  let score := if has_carrier (link_state i) then saturating_add 32 score 2000 else score in
  let score := if bool_decide (link_state i = LinkDown) then score else saturating_add 32 score 1000 in
  saturating_add 32 score (score_naming (eth_name i)).

Definition compare_interfaces (l r : Ethernet) : comparison :=
  match Z.compare (score_interface l) (score_interface r) with
  | Eq => Z.compare (eth_index r) (eth_index l)
  | c => c
  end.

(** [Iterator::max_by]: of equal elements the last one. *)
Definition max_by (best x : Ethernet) : Ethernet :=
  match compare_interfaces best x with Gt => best | _ => x end.

Definition select_primary (interfaces : list Ethernet) : option Ethernet :=
  match interfaces with
  | [] => None
  | i :: interfaces => Some (fold_left max_by interfaces i)
  end.

(** Descending priority, the reversed comparison as an order. *)
Definition priority_ge (l r : Ethernet) : Prop := compare_interfaces l r ≠ Lt.
#[global] Instance priority_ge_dec l r : Decision (priority_ge l r).
Proof. unfold priority_ge. apply _. Defined.

Definition select_backups (interfaces : list Ethernet) (primary_name : Name) : list Ethernet :=
  merge_sort priority_ge (filter (λ i, eth_name i ≠ primary_name) interfaces).

Definition is_ethernet (name : ustring) : bool :=
  if bool_decide (name = ustr "lo") || starts_with "wlan" name || starts_with "wlp" name then false
  else starts_with "eth" name || starts_with "enp" name || starts_with "ens" name
       || starts_with "eno" name || starts_with "end" name.

(** ** Addresses, configuration, snapshots *)

Record IpConfig (A : Type) := {
  ip_address : A;
  ip_prefix_len : Z;
  ip_gateway : option A;
  ip_dns : list A
}.
Arguments ip_address {A} _. Arguments ip_prefix_len {A} _.
Arguments ip_gateway {A} _. Arguments ip_dns {A} _.
Arguments Build_IpConfig {A} _ _ _ _.
Abbreviation Ipv6Config := (IpConfig ipv6).

Record Cidr (A : Type) := { cidr_address : A; cidr_prefix : Z }.
Arguments cidr_address {A} _. Arguments cidr_prefix {A} _.

Record Ipv4InterfaceConfig := {
  cfg_dhcp : bool; cfg_addresses : list (Cidr ipv4); cfg_gateway : option ipv4 }.
Record Ipv6InterfaceConfig := {
  autoconf : bool; cfg6_addresses : list (Cidr ipv6); cfg6_gateway : option ipv6 }.
Record BridgeConfig := { bridge_port : list ustring; stp : bool }.
Inductive InterfaceKind := KindBridge | KindEthernet.
Record InterfaceConfig := {
  cfg_name : ustring;
  kind : InterfaceKind;
  cfg_ipv4 : option Ipv4InterfaceConfig;
  cfg_ipv6 : option Ipv6InterfaceConfig;
  cfg_bridge : option BridgeConfig
}.

Inductive IpAddr := V4 (a : ipv4) | V6 (a : ipv6).

Record Config := { ipv6_enabled : bool; config_dns : list IpAddr; cfg_interfaces : list InterfaceConfig }.

Definition config_ipv4_dns (c : Config) : list ipv4 :=
  omap (λ a, match a with V4 a => Some a | V6 _ => None end) (config_dns c).
Definition config_ipv6_dns (c : Config) : list ipv6 :=
  omap (λ a, match a with V6 a => Some a | V4 _ => None end) (config_dns c).

Record Snapshot := {
  snap_name : Name;
  snap_state : Lifecycle;
  snap_index : Z;
  snap_mac : list Z;
  snap_link : LinkState;
  snap_ip : option (IpConfig ipv4);
  snap_lease : option Lease;
  snap_dhcp : option DhcpState;
  snap_ipv6 : option Ipv6Config;
  l3_owner : Name
}.

(** ** Commands of an interface actor *)

Inductive ApplyMode := Provision | Reconcile.

Inductive Command :=
| ConfigureDhcp (mode : ApplyMode)
| ConfigureStaticIpv4 (mode : ApplyMode) (index : Z) (addresses : list (Cidr ipv4)) (gateway : option ipv4)
| ConfigureStaticIpv6 (mode : ApplyMode) (index : Z) (addresses : list (Cidr ipv6)) (gateway : option ipv6)
| ConfigureBridge (bridge_name : ustring) (stp : bool)
| ConfigureSlaac (mode : ApplyMode)
| CmdLinkUp
| CmdLinkDown
| Shutdown.

(** ** Watch channels of the runtime

    What the daemon relies on of [tokio::sync::watch]: a receiver holds a mark
    of what it has seen, a value sent after the mark makes [changed] ready,
    which moves the mark, [borrow] moves nothing, and a clone starts at the
    mark of its original. *)
Class Watch := {
  watch_chan : Type → Type;
  watch_rx : Type;
  watch_new {A} : A → watch_chan A * watch_rx;
  watch_send {A} : watch_chan A → A → watch_chan A;
  watch_borrow {A} : watch_chan A → A;
  watch_clone : watch_rx → watch_rx;
  watch_changed {A} : watch_chan A → watch_rx → option watch_rx;
  (** a receiver of the channel *)
  watch_of {A} : watch_chan A → watch_rx → Prop
}.

Class WatchLaws (W : Watch) := {
  watch_of_new {A} (a : A) : watch_of (fst (watch_new a)) (snd (watch_new a));
  watch_of_send {A} (c : watch_chan A) a r : watch_of c r → watch_of (watch_send c a) r;
  watch_of_clone {A} (c : watch_chan A) r : watch_of c r → watch_of c (watch_clone r);
  watch_borrow_new {A} (a : A) : watch_borrow (fst (watch_new a)) = a;
  watch_borrow_send {A} (c : watch_chan A) a : watch_borrow (watch_send c a) = a;
  watch_changed_new {A} (a : A) : watch_changed (fst (watch_new a)) (snd (watch_new a)) = None;
  watch_changed_send {A} (c : watch_chan A) a r :
    watch_of c r → is_Some (watch_changed (watch_send c a) r);
  watch_changed_seen {A} (c : watch_chan A) r r' :
    watch_changed c r = Some r' → watch_changed c r' = None;
  watch_changed_clone {A} (c : watch_chan A) r :
    is_Some (watch_changed c (watch_clone r)) ↔ is_Some (watch_changed c r)
}.

(** ** A monad for handlers that keep state and may fail *)

Definition handler (St E A : Type) : Type := St → res E A * St.

#[global] Instance handler_ret {St E} : MRet (handler St E) := fun _ a s => (Ok a, s).
#[global] Instance handler_bind {St E} : MBind (handler St E) := fun _ _ f m s =>
  match m s with
  | (Ok a, s) => f a s
  | (Err e, s) => (Err e, s)
  | (Panic, s) => (Panic, s)
  end.

Definition get_state {St E} : handler St E St := λ s, (Ok s, s).
Definition update {St E} (f : St → St) : handler St E () := λ s, (Ok (), f s).
Definition throw {St E A} (e : E) : handler St E A := λ s, (Err e, s).
Definition lift_option {St E A} (o : option A) (e : E) : handler St E A := λ s, (ok_or o e, s).
(** The outcome of [m] as a value. *)
Definition attempt {St E F A} (m : handler St E A) : handler St F (res E A) :=
  λ s, let '(r, s) := m s in (Ok r, s).

(** ** The order of priorities *)

Lemma priority_ge_spec l r :
  priority_ge l r ↔
    score_interface r < score_interface l ∨
    score_interface l = score_interface r ∧ eth_index l ≤ eth_index r.
Proof.
  unfold priority_ge, compare_interfaces.
  destruct (Z.compare_spec (score_interface l) (score_interface r)) as [E|E|E];
    [|split; [done|lia]|split; [lia|done]].
  destruct (Z.compare_spec (eth_index r) (eth_index l)); split; try done; lia.
Qed.

#[global] Instance priority_ge_total : Total priority_ge.
Proof. intros l r. rewrite !priority_ge_spec. lia. Qed.
#[global] Instance priority_ge_trans : Transitive priority_ge.
Proof. intros a b c. rewrite !priority_ge_spec. lia. Qed.

Lemma score_naming_bounds n : 50 ≤ score_naming n ≤ 500.
Proof. unfold score_naming. repeat case_match; lia. Qed.

Lemma score_interface_eq i :
  score_interface i
    = match link_state i with LinkUp => 3000 | NoCarrier => 1000 | LinkDown => 0 end
      + score_naming (eth_name i).
Proof.
  pose proof (score_naming_bounds (eth_name i)).
  unfold score_interface, has_carrier, saturating_add, uint_max.
  change (2 ^ 32) with 4294967296.
  destruct (link_state i); simpl; lia.
Qed.

Lemma fold_max_spec (l : list Ethernet) (b : Ethernet) :
  fold_left max_by l b ∈ b :: l ∧ ∀ i, i ∈ b :: l → priority_ge (fold_left max_by l b) i.
Proof.
  revert b. induction l as [|x l IH]; intros b; cbn [fold_left].
  { split; [apply list_elem_of_here|]. intros i Hi. apply list_elem_of_singleton in Hi as ->.
    rewrite priority_ge_spec. lia. }
  destruct (IH (max_by b x)) as [Hin Hmax].
  assert (max_by b x ∈ [b; x] ∧ priority_ge (max_by b x) b ∧ priority_ge (max_by b x) x) as (Hbx & Hb & Hx).
  { unfold max_by. destruct (compare_interfaces b x) eqn:E;
      (split; [set_solver|]); rewrite !priority_ge_spec; unfold compare_interfaces in E;
      destruct (Z.compare_spec (score_interface b) (score_interface x)); try discriminate;
      try (destruct (Z.compare_spec (eth_index x) (eth_index b)); try discriminate); lia. }
  split.
  - apply elem_of_cons in Hin as [->|Hin]; set_solver.
  - intros i Hi. assert (priority_ge (fold_left max_by l (max_by b x)) (max_by b x)) as Hm
      by apply Hmax, list_elem_of_here.
    apply elem_of_cons in Hi as [->|Hi]; [by etrans|].
    apply elem_of_cons in Hi as [->|Hi]; [by etrans|].
    apply Hmax. by apply list_elem_of_further.
Qed.

Lemma select_primary_spec l p :
  select_primary l = Some p → p ∈ l ∧ ∀ i, i ∈ l → priority_ge p i.
Proof. destruct l as [|i l]; [done|]. intros [= <-]. apply fold_max_spec. Qed.

Lemma filter_id {A} (P : A → Prop) `{∀ x, Decision (P x)} (l : list A) : Forall P l → filter P l = l.
Proof. induction 1 as [|x l Hx _ IH]; [done|]. by rewrite filter_cons_True, IH. Qed.

Lemma filter_other_names l p :
  NoDup (eth_name <$> l) → p ∈ l → p :: filter (λ i, eth_name i ≠ eth_name p) l ≡ₚ l.
Proof.
  induction l as [|x l IH]; intros Hnd Hp; [by apply elem_of_nil in Hp|].
  cbn [fmap list_fmap] in Hnd. apply NoDup_cons in Hnd as [Hx Hnd].
  apply elem_of_cons in Hp as [->|Hp].
  - rewrite filter_cons_False by naive_solver. f_equiv.
    rewrite filter_id; [done|]. apply Forall_forall. intros y Hy E. apply Hx.
    rewrite <-E. by apply list_elem_of_fmap_2.
  - rewrite filter_cons_True; [|intros E; apply Hx; rewrite E; by apply list_elem_of_fmap_2].
    rewrite Permutation_swap. f_equiv. by apply IH.
Qed.

Lemma select_backups_spec l p :
  NoDup (eth_name <$> l) → p ∈ l →
  p :: select_backups l (eth_name p) ≡ₚ l ∧ StronglySorted priority_ge (select_backups l (eth_name p)).
Proof.
  intros Hnd Hp. unfold select_backups. split.
  - rewrite merge_sort_Permutation. by apply filter_other_names.
  - apply StronglySorted_merge_sort; apply _.
Qed.

(** Selection ranks the discovered interfaces: every nonempty list has a
    primary, no interface has a higher priority than it (score first, then
    the lower index), it has carrier whenever some interface has, and the
    backups are the remaining interfaces in descending priority. *)
Theorem primary_selection (l : list Ethernet) :
  l ≠ [] → NoDup (eth_name <$> l) →
  ∃ p, select_primary l = Some p ∧ p ∈ l ∧ (∀ i, i ∈ l → priority_ge p i) ∧
    ((∃ i, i ∈ l ∧ link_state i = LinkUp) → link_state p = LinkUp) ∧
    p :: select_backups l (eth_name p) ≡ₚ l ∧
    StronglySorted priority_ge (p :: select_backups l (eth_name p)).
Proof.
  intros Hne Hnd. destruct (select_primary l) as [p|] eqn:Hp; [|by destruct l].
  destruct (select_primary_spec l p Hp) as [Hin Hmax].
  destruct (select_backups_spec l p Hnd Hin) as [Hperm Hsorted].
  exists p. split_and!; [done..| |done|].
  - intros (i & Hi & Hup). specialize (Hmax i Hi). rewrite priority_ge_spec, !score_interface_eq, Hup in Hmax.
    pose proof (score_naming_bounds (eth_name p)). pose proof (score_naming_bounds (eth_name i)).
    destruct (link_state p); [done|lia..].
  - constructor; [done|]. apply Forall_forall. intros i Hi. apply Hmax.
    rewrite <-Hperm. by apply list_elem_of_further.
Qed.

Definition demo_interfaces : list Ethernet :=
  [{| eth_name := ustr "eth0"; eth_index := 2; mac_address := [2; 0; 0; 0; 0; 1]; link_state := LinkUp |};
   {| eth_name := ustr "eno1"; eth_index := 3; mac_address := [2; 0; 0; 0; 0; 2]; link_state := NoCarrier |}].

Lemma primary_selection_witness :
  ∃ p, select_primary demo_interfaces = Some p ∧ link_state p = LinkUp.
Proof.
  destruct (primary_selection demo_interfaces) as (p & Hp & _ & _ & Hup & _).
  - discriminate.
  - apply (bool_decide_unpack _). vm_compute. exact I.
  - exists p. split; [exact Hp|]. apply Hup.
    exists {| eth_name := ustr "eth0"; eth_index := 2; mac_address := [2; 0; 0; 0; 0; 1]; link_state := LinkUp |}.
    split; [apply list_elem_of_here|reflexivity].
Defined.

(** ** A watch channel that counts its values *)

Record counted (A : Type) := { counted_value : A; counted_version : nat }.
Arguments counted_value {A} _. Arguments counted_version {A} _.
Arguments Build_counted {A} _ _.

#[export] Instance counted_watch : Watch := {
  watch_chan := counted;
  watch_rx := nat;
  watch_new A a := (Build_counted a 0, 0%nat);
  watch_send A c a := Build_counted a (S (counted_version c));
  watch_borrow A c := counted_value c;
  watch_clone r := r;
  watch_changed A c r := if decide (counted_version c = r) then None else Some (counted_version c);
  watch_of A c r := (r ≤ counted_version c)%nat
}.

#[export] Instance counted_watch_laws : WatchLaws counted_watch.
Proof.
  split; intros *; cbn; try done; try lia.
  - intros Hr. destruct (decide _) as [E|]; [lia|by eexists].
  - destruct (decide _) as [|]; [done|]. intros [= <-]. by destruct (decide _).
Qed.

(** A handler that relates the state before to the state after by a preorder,
    whether it fails or not. *)
Definition respects {St E A} (R : relation St) (m : handler St E A) : Prop := ∀ s, R s (snd (m s)).

Section respects.
Context {St E : Type} (R : relation St) {Hpre : PreOrder R}.

Lemma respects_ret {A} (x : A) : respects R (mret x : handler St E A).
Proof. intros s. reflexivity. Qed.
Lemma respects_throw {A} (e : E) : respects R (throw (A:=A) e).
Proof. intros s. reflexivity. Qed.
Lemma respects_panic {A} : respects R (λ s, (Panic : res E A, s)).
Proof. intros s. reflexivity. Qed.
Lemma respects_update f : (∀ s, R s (f s)) → respects R (update f : handler St E ()).
Proof. intros Hf s. apply Hf. Qed.
Lemma respects_bind {A B} (m : handler St E A) (f : A → handler St E B) :
  respects R m → (∀ x, respects R (f x)) → respects R (m ≫= f).
Proof.
  intros Hm Hf s. specialize (Hm s). unfold mbind, handler_bind.
  destruct (m s) as [[x|e|] t]; cbn [snd] in Hm |- *; [|done..]. etrans; [exact Hm|apply Hf].
Qed.
Lemma respects_get {B} (f : St → handler St E B) :
  (∀ x, respects R (f x)) → respects R (get_state ≫= f).
Proof. intros Hf s. apply Hf. Qed.
Lemma respects_option {A} (o : option A) (e : E) : respects R (lift_option o e).
Proof. intros s. reflexivity. Qed.
Lemma respects_attempt {F A} (m : handler St F A) :
  respects R m → respects R (attempt m : handler St E (res F A)).
Proof. intros Hm s. specialize (Hm s). unfold attempt. by destruct (m s). Qed.
End respects.

(** Follows the structure of a handler and leaves the calls of others. *)
Ltac rbind := refine (respects_bind _ _ _ _ _).
Ltac respects_step :=
  match goal with
  | |- respects _ (mret _) => refine (respects_ret _ _)
  | |- respects _ (throw _) => refine (respects_throw _ _)
  | |- respects _ (lift_option _ _) => refine (respects_option _ _ _)
  | |- respects _ (λ s, (Panic, s)) => refine (respects_panic _)
  | |- respects _ (update _) => apply respects_update; intro
  | |- respects _ (attempt _) => apply respects_attempt
  | |- respects _ (get_state ≫= _) => apply respects_get; intro
  | |- respects _ (_ ≫= _) => rbind; [|intro]
  | |- respects _ (if ?b then _ else _) => destruct b
  | |- respects _ (match ?x with _ => _ end) => destruct x
  end.
