(* ===== verification/NetDns.v ===== *)
(** The resolver configuration (services/networkd/src/dns.rs) and the textual
    form of addresses it writes. *)

From S2P Require Import Prelude Utf Text NetFrame NetDhcp NetSlaac NetTypes.

(** ** Addresses as text *)

Definition DOT : Z := 46.
Definition COLON : Z := 58.

Fixpoint join (sep : ustring) (parts : list ustring) : ustring :=
  match parts with
  | [] => []
  | [p] => p
  | p :: parts => p ++ sep ++ join sep parts
  end.

(** [Display for Ipv4Addr]. *)
Definition ipv4_text (a : ipv4) : ustring := join [DOT] (decimal <$> a).

Definition hex_digit (d : Z) : Z := if d <? 10 then 48 + d else 87 + d.
Fixpoint hex_fuel (fuel : nat) (z : Z) : ustring :=
  match fuel with
  | O => []
  | S fuel => if z <? 16 then [hex_digit z] else hex_fuel fuel (z / 16) ++ [hex_digit (z mod 16)]
  end.
Definition hex (z : Z) : ustring := hex_fuel 4 z.

(** The eight 16-bit segments. *)
Definition segments (a : ipv6) : list Z := from_be_bytes <$> chunks_exact 2 a.

(** The first longest run of zero segments: where it starts and its length. *)
Fixpoint zero_run (segs : list Z) : nat :=
  match segs with 0 :: segs => S (zero_run segs) | _ => O end.
Fixpoint longest_run (i : nat) (segs : list Z) (best : nat * nat) : nat * nat :=
  match segs with
  | [] => best
  | _ :: rest =>
      let n := zero_run segs in
      longest_run (S i) rest (if (snd best <? n)%nat then (i, n) else best)
  end.

(** [Display for Ipv6Addr]: an IPv4-mapped address in dotted form, otherwise the
    longest run of at least two zero segments as two colons. *)
Definition ipv6_text (a : ipv6) : ustring :=
  let segs := segments a in
  if bool_decide (take 5 segs = [0; 0; 0; 0; 0]) && bool_decide (segs !! 5%nat = Some 0xffff)
  then ustr "::ffff:" ++ ipv4_text (drop 12 a)
  else
    let '(start, len) := longest_run 0 segs (0%nat, 0%nat) in
    if (1 <? len)%nat
    then join [COLON] (hex <$> take start segs) ++ [COLON; COLON]
         ++ join [COLON] (hex <$> drop (start + len) segs)
    else join [COLON] (hex <$> segs).

(** ** The resolver *)

Class FileOps (K : Type) := {
  fs_write : K → ustring → list Z → bool * K;
  fs_rename : K → ustring → ustring → bool * K
}.

Definition RESOLV_CONF_PATH : ustring := ustr "/run/resolv.conf".

Record Resolver := { v4 : list ipv4; v6 : list ipv6; resolv_conf : ustring; tmp_path : ustring }.

Definition with_path (path : ustring) : Resolver :=
  {| v4 := []; v6 := []; resolv_conf := path; tmp_path := path ++ ustr ".tmp" |}.
Definition resolver_default : Resolver := with_path RESOLV_CONF_PATH.

Definition nameserver_line (text : ustring) : ustring := ustr "nameserver " ++ text ++ [LF].
Definition resolv_content (s4 : list ipv4) (s6 : list ipv6) : ustring :=
  (s4 ≫= λ a, nameserver_line (ipv4_text a)) ++ (s6 ≫= λ a, nameserver_line (ipv6_text a)).

Section resolver.
Context {K : Type} `{FileOps K}.

Definition write_resolv_conf (k : K) (path tmp : ustring) (s4 : list ipv4) (s6 : list ipv6) : bool * K :=
  match s4, s6 with
  | [], [] => (true, k)
  | _, _ =>
      let '(written, k) := fs_write k tmp (utf8 (resolv_content s4 s6)) in
      if written then fs_rename k tmp path else (false, k)
  end.

(** [Resolver::update]: the lists are replaced before the file is written. *)
Definition resolver_update (r : Resolver) (k : K) (s4 : list ipv4) (s6 : list ipv6) : bool * Resolver * K :=
  let r := {| v4 := s4; v6 := s6; resolv_conf := resolv_conf r; tmp_path := tmp_path r |} in
  let '(written, k) := write_resolv_conf k (resolv_conf r) (tmp_path r) (v4 r) (v6 r) in
  (written, r, k).

Definition is_unchanged (r : Resolver) (s4 : list ipv4) (s6 : list ipv6) : bool :=
  bool_decide (v4 r = s4) && bool_decide (v6 r = s6).
End resolver.

Example mapped_text : ipv6_text (zeros 10 ++ [255; 255; 10; 0; 0; 1]) = ustr "::ffff:10.0.0.1".
Proof. vm_compute. reflexivity. Qed.
Example compressed_text :
  ipv6_text ([0x20; 0x01; 0x0d; 0xb8] ++ zeros 11 ++ [1]) = ustr "2001:db8::1".
Proof. vm_compute. reflexivity. Qed.
Example loopback_text : ipv6_text (zeros 16) = ustr "::".
Proof. vm_compute. reflexivity. Qed.
