(* ===== verification/NetActor.v ===== *)
(** The actor of one network interface
    (services/networkd/src/interface/mod.rs, dhcp.rs, link.rs, static.rs,
    slaac.rs and bridge.rs beside it): its state, every handler, the choice of
    the next event and the event loop.

    The kernel behind the netlink operations and the sockets is a state [K]
    that the operations of the classes [NetOps] and [Connector] change. *)

From stdpp Require Import gmap.
From S2P Require Import Prelude Utf Text NetFrame NetDhcp NetSlaac NetTypes.

(** ** The environment *)

(** [netlib::netlink::Ops]; the Boolean tells success. *)
Class NetOps (K : Type) := {
  ensure_ipv4 : K → Z → ipv4 → Z → bool * K;
  ensure_ipv6 : K → Z → ipv6 → Z → bool * K;
  remove_ipv6 : K → Z → ipv6 → bool * K;
  ensure_default_route : K → ipv4 → bool * K;
  ensure_default_route_v6 : K → ipv6 → bool * K;
  remove_default_route_v6 : K → ipv6 → bool * K;
  ensure_bridge : K → ustring → ustring → option ipv4 → bool → bool * K;
  link_index : K → ustring → option Z * K;
  ensure_up : K → ustring → option Z * K;
  discover_ethernet : K → option (list Ethernet) * K;
  probe_carriers : K → list (Z * ustring) → gmap Z bool * K
}.

Record RawSocket := { raw_send_ok : list Z → bool; raw_inbox : list (list Z) }.
Record UnicastSocket := { uni_send_ok : list Z → bool; uni_reply : option (list Z) }.

(** [DhcpConnector], the clock, the random transaction identifiers and the
    ICMPv6 socket. *)
Class Connector (K : Type) := {
  create_raw : K → ustring → option RawSocket * K;
  create_unicast : K → ustring → ipv4 → option UnicastSocket * K;
  system_now : K → Z * K;
  generate_xid : K → option Z * K;
  open_icmpv6 : K → ustring → bool * K
}.

Inductive ActorError :=
| DhcpFailure (e : DhcpError)
| OpsFailure
| ConnectFailure
| NoLease
| InvalidBridgeName
| NoAddresses.

Section actor.
Context {K : Type} `{NetOps K, Connector K} {W : Watch}.

(** ** State *)

(** [dhcp::manager::Manager]. *)
Record DhcpManager := { dm_socket : RawSocket; dm_mac : list Z }.

(** The durations of the armed timers. *)
Record LeaseTimers := { renew_timer : option Z; rebind_timer : option Z; expire_timer : option Z }.

Definition timers_new : LeaseTimers :=
  {| renew_timer := None; rebind_timer := None; expire_timer := None |}.

Record Actor := {
  snapshot : Snapshot;
  ops : K;
  config : Config;
  cmd_open : bool;
  snapshot_tx : watch_chan Snapshot;
  dhcp : option DhcpManager;
  timers : LeaseTimers;
  slaac : option NetSlaac.Manager
}.

Definition put_snapshot (a : Actor) (s : Snapshot) : Actor :=
  {| snapshot := s; ops := ops a; config := config a; cmd_open := cmd_open a;
     snapshot_tx := snapshot_tx a; dhcp := dhcp a; timers := timers a; slaac := slaac a |}.
Definition put_ops (a : Actor) (k : K) : Actor :=
  {| snapshot := snapshot a; ops := k; config := config a; cmd_open := cmd_open a;
     snapshot_tx := snapshot_tx a; dhcp := dhcp a; timers := timers a; slaac := slaac a |}.
Definition put_dhcp (a : Actor) (d : option DhcpManager) : Actor :=
  {| snapshot := snapshot a; ops := ops a; config := config a; cmd_open := cmd_open a;
     snapshot_tx := snapshot_tx a; dhcp := d; timers := timers a; slaac := slaac a |}.
Definition put_timers (a : Actor) (t : LeaseTimers) : Actor :=
  {| snapshot := snapshot a; ops := ops a; config := config a; cmd_open := cmd_open a;
     snapshot_tx := snapshot_tx a; dhcp := dhcp a; timers := t; slaac := slaac a |}.
Definition put_slaac (a : Actor) (m : option NetSlaac.Manager) : Actor :=
  {| snapshot := snapshot a; ops := ops a; config := config a; cmd_open := cmd_open a;
     snapshot_tx := snapshot_tx a; dhcp := dhcp a; timers := timers a; slaac := m |}.
Definition close_commands (a : Actor) : Actor :=
  {| snapshot := snapshot a; ops := ops a; config := config a; cmd_open := false;
     snapshot_tx := snapshot_tx a; dhcp := dhcp a; timers := timers a; slaac := slaac a |}.

(** Snapshot fields. *)
Definition snap_with_state (s : Snapshot) (l : Lifecycle) : Snapshot :=
  {| snap_name := snap_name s; snap_state := l; snap_index := snap_index s; snap_mac := snap_mac s;
     snap_link := snap_link s; snap_ip := snap_ip s; snap_lease := snap_lease s;
     snap_dhcp := snap_dhcp s; snap_ipv6 := snap_ipv6 s; l3_owner := l3_owner s |}.
Definition snap_with_link (s : Snapshot) (l : LinkState) : Snapshot :=
  {| snap_name := snap_name s; snap_state := snap_state s; snap_index := snap_index s; snap_mac := snap_mac s;
     snap_link := l; snap_ip := snap_ip s; snap_lease := snap_lease s;
     snap_dhcp := snap_dhcp s; snap_ipv6 := snap_ipv6 s; l3_owner := l3_owner s |}.
Definition snap_with_lease (s : Snapshot) (ip : option (IpConfig ipv4)) (l : option Lease) : Snapshot :=
  {| snap_name := snap_name s; snap_state := snap_state s; snap_index := snap_index s; snap_mac := snap_mac s;
     snap_link := snap_link s; snap_ip := ip; snap_lease := l;
     snap_dhcp := snap_dhcp s; snap_ipv6 := snap_ipv6 s; l3_owner := l3_owner s |}.
Definition snap_with_dhcp (s : Snapshot) (d : option DhcpState) : Snapshot :=
  {| snap_name := snap_name s; snap_state := snap_state s; snap_index := snap_index s; snap_mac := snap_mac s;
     snap_link := snap_link s; snap_ip := snap_ip s; snap_lease := snap_lease s;
     snap_dhcp := d; snap_ipv6 := snap_ipv6 s; l3_owner := l3_owner s |}.
Definition snap_with_ipv6 (s : Snapshot) (c : option Ipv6Config) : Snapshot :=
  {| snap_name := snap_name s; snap_state := snap_state s; snap_index := snap_index s; snap_mac := snap_mac s;
     snap_link := snap_link s; snap_ip := snap_ip s; snap_lease := snap_lease s;
     snap_dhcp := snap_dhcp s; snap_ipv6 := c; l3_owner := l3_owner s |}.
Definition snap_with_owner (s : Snapshot) (n : Name) : Snapshot :=
  {| snap_name := snap_name s; snap_state := snap_state s; snap_index := snap_index s; snap_mac := snap_mac s;
     snap_link := snap_link s; snap_ip := snap_ip s; snap_lease := snap_lease s;
     snap_dhcp := snap_dhcp s; snap_ipv6 := snap_ipv6 s; l3_owner := n |}.

Definition lifecycle (a : Actor) : Lifecycle := snap_state (snapshot a).
Definition lease_of (a : Actor) : option Lease := snap_lease (snapshot a).

(** ** Shared operations (interface/mod.rs, interface/snapshot.rs) *)

Abbreviation M := (handler Actor ActorError).

Definition snapshot_transition (s : Snapshot) (next : Lifecycle) : res (InvalidTransition Lifecycle) Snapshot :=
  l ← transition (snap_state s) next; Ok (snap_with_state s l).

Definition publish_snapshot (a : Actor) : Actor :=
  {| snapshot := snapshot a; ops := ops a; config := config a; cmd_open := cmd_open a;
     snapshot_tx := watch_send (snapshot_tx a) (snapshot a); dhcp := dhcp a; timers := timers a;
     slaac := slaac a |}.

Definition set_state (next : Lifecycle) (a : Actor) : Actor :=
  match snapshot_transition (snapshot a) next with
  | Ok s => publish_snapshot (put_snapshot a s)
  | _ => a
  end.

(** Whether the state was advanced, and the actor. *)
Definition ensure_configured_state (a : Actor) : bool * Actor :=
  match lifecycle a with
  | Configured | Deconfiguring => (false, a)
  | Configuring | Degraded => (true, set_state Configured a)
  | Discovered | Failed => (true, set_state Configured (set_state Configuring a))
  end.

Definition lift_ops (f : K → bool * K) : M () := λ a,
  let '(success, k) := f (ops a) in (if success then Ok () else Err OpsFailure, put_ops a k).
Definition lift_query {A} (f : K → option A * K) (e : ActorError) : M A := λ a,
  let '(r, k) := f (ops a) in (ok_or r e, put_ops a k).

(** Forgets the outcome, which the code only logs. *)
Definition run_handler {A} (m : M A) (a : Actor) : Actor := snd (m a).

(** ** Lease timers and DHCP (interface/dhcp.rs) *)

Definition deadline_to_sleep (now deadline : Z) : option Z :=
  if now <=? deadline then Some (deadline - now) else None.

Definition lease_timers (now : Z) (l : Lease) : LeaseTimers :=
  {| renew_timer := deadline_to_sleep now (default now (time_checked_add (obtained_at l) (renewal_time l)));
     rebind_timer := deadline_to_sleep now (default now (time_checked_add (obtained_at l) (rebind_time l)));
     expire_timer := deadline_to_sleep now (expiry l) |}.

Definition disarm (a : Actor) : Actor := put_timers a timers_new.
Definition arm (l : Lease) (a : Actor) : Actor :=
  let a := disarm a in
  let '(now, k) := system_now (ops a) in put_timers (put_ops a k) (lease_timers now l).

Definition dhcp_transition (next : DhcpState) (a : Actor) : Actor :=
  match snap_dhcp (snapshot a) with
  | None => put_snapshot a (snap_with_dhcp (snapshot a) (Some next))
  | Some current =>
      match transition current next with
      | Ok s => put_snapshot a (snap_with_dhcp (snapshot a) (Some s))
      | _ => a
      end
  end.

Definition store_lease (l : Lease) (a : Actor) : Actor :=
  publish_snapshot (put_snapshot a (snap_with_lease (snapshot a)
    (Some (Build_IpConfig (assigned_ip l) (prefix_len l) (gateway l) (dns_servers l))) (Some l))).

Definition apply_lease (index : Z) (l : Lease) : M () :=
  lift_ops (λ k, ensure_ipv4 k index (assigned_ip l) (prefix_len l));;
  match gateway l with
  | Some gw => lift_ops (λ k, ensure_default_route k gw)
  | None => mret ()
  end.

Definition commit_lease (index : Z) (l : Lease) : M () :=
  apply_lease index l;;
  update (store_lease l);;
  update (dhcp_transition Bound);;
  update (arm l).

(** [Manager::new]. *)
Definition new_manager (name : ustring) (mac : list Z) : M DhcpManager :=
  socket ← lift_query (λ k, create_raw k name) ConnectFailure;
  mret {| dm_socket := socket; dm_mac := mac |}.

Definition dhcp_start (a : Actor) : Actor :=
  let a := set_state Configuring a in
  match new_manager (snap_name (snapshot a)) (snap_mac (snapshot a)) a with
  | (Ok mgr, a) => put_dhcp a (Some mgr)
  | (_, a) => set_state Failed a
  end.

Definition dhcp_reconcile (a : Actor) : Actor :=
  match lease_of a with
  | Some l =>
      match apply_lease (snap_index (snapshot a)) l a with
      | (Ok _, a) => snd (ensure_configured_state (arm l (dhcp_transition Bound (store_lease l a))))
      | (_, a) => a
      end
  | None => match dhcp a with None => dhcp_start a | Some _ => a end
  end.

Definition dhcp_apply (mode : ApplyMode) : Actor → Actor :=
  match mode with Provision => dhcp_start | Reconcile => dhcp_reconcile end.

Definition acquisition_failed (a : Actor) : Actor := set_state Failed (put_dhcp a None).

Definition acquired (l : Lease) (a : Actor) : Actor :=
  let a := put_dhcp a None in
  match commit_lease (snap_index (snapshot a)) l a with
  | (Ok _, a) => set_state Configured a
  | (_, a) => set_state Failed a
  end.

Definition recover_with_lease (l : Lease) (a : Actor) : Actor :=
  match apply_lease (snap_index (snapshot a)) l a with
  | (Ok _, a) => set_state Configured (arm l a)
  | (_, a) => set_state Failed a
  end.

(** [dhcp::client::run], [renew] and [rebind] on the actor's sockets. *)
Definition client_run (socket : RawSocket) (mac : list Z) : M Lease := λ a,
  let '(xid, k) := generate_xid (ops a) in
  let '(now, k) := system_now k in
  (map_err DhcpFailure (fst <$> dora (raw_send_ok socket) xid mac (raw_inbox socket) now), put_ops a k).
Definition client_renew (socket : UnicastSocket) (mac : list Z) (server ip : ipv4) : M Lease := λ a,
  let '(xid, k) := generate_xid (ops a) in
  let '(now, k) := system_now k in
  (map_err DhcpFailure (fst <$> renew (uni_send_ok socket) xid mac server ip (uni_reply socket) now),
   put_ops a k).
Definition client_rebind (socket : RawSocket) (mac : list Z) (server ip : ipv4) : M Lease := λ a,
  let '(xid, k) := generate_xid (ops a) in
  let '(now, k) := system_now k in
  (map_err DhcpFailure (fst <$> rebind (raw_send_ok socket) xid mac server ip (raw_inbox socket) now),
   put_ops a k).

Definition do_full_dora : M () :=
  update (dhcp_transition Init);;
  update (set_state Configuring);;
  update disarm;;
  a ← get_state;
  let mac := snap_mac (snapshot a) in
  socket ← lift_query (λ k, create_raw k (snap_name (snapshot a))) ConnectFailure;
  outcome ← attempt (client_run socket mac);
  match outcome with
  | Ok l =>
      a ← get_state;
      commit_lease (snap_index (snapshot a)) l;;
      update (set_state Configured)
  | Err e => update (set_state Failed);; throw e
  | Panic => λ a, (Panic, a)
  end.

Definition lease_params : M (list Z * ipv4 * ipv4) :=
  a ← get_state;
  l ← lift_option (lease_of a) NoLease;
  mret (snap_mac (snapshot a), server_ip l, assigned_ip l).

Definition apply_renewed_lease (l : Lease) : M () :=
  a ← get_state;
  commit_lease (snap_index (snapshot a)) l.

(** A NAK sends the client back to a full exchange. *)
Definition renewal_outcome (outcome : res ActorError Lease) : M () :=
  match outcome with
  | Ok l => apply_renewed_lease l
  | Err (DhcpFailure DhcpNak) => do_full_dora
  | Err e => throw e
  | Panic => λ a, (Panic, a)
  end.

Definition do_renew : M () :=
  '(mac, server, assigned) ← lease_params;
  a ← get_state;
  socket ← lift_query (λ k, create_unicast k (snap_name (snapshot a)) assigned) ConnectFailure;
  outcome ← attempt (client_renew socket mac server assigned);
  renewal_outcome outcome.

Definition do_rebind : M () :=
  '(mac, server, assigned) ← lease_params;
  a ← get_state;
  socket ← lift_query (λ k, create_raw k (snap_name (snapshot a))) ConnectFailure;
  outcome ← attempt (client_rebind socket mac server assigned);
  renewal_outcome outcome.

Definition renew_lease (a : Actor) : Actor := run_handler do_renew (dhcp_transition Renewing a).
Definition rebind_lease (a : Actor) : Actor := run_handler do_rebind (dhcp_transition Rebinding a).
Definition on_expire (a : Actor) : Actor := run_handler do_full_dora a.

(** ** Link events (interface/link.rs) *)

Definition link_up (a : Actor) : Actor :=
  let a := put_snapshot a (snap_with_link (snapshot a) NetTypes.LinkUp) in
  match lifecycle a with
  | Degraded | Failed =>
      match lease_of a with
      | Some l => publish_snapshot (recover_with_lease l a)
      | None => publish_snapshot (run_handler do_full_dora a)
      end
  | _ => a
  end.

Definition link_down (a : Actor) : Actor :=
  let a := put_snapshot a (snap_with_link (snapshot a) NetTypes.LinkDown) in
  let a := disarm (put_dhcp a None) in
  let next := match lifecycle a with
              | Configured => Some Degraded
              | Configuring => Some Failed
              | _ => None
              end in
  let a := match next with
           | Some next =>
               match snapshot_transition (snapshot a) next with
               | Ok s => put_snapshot a s
               | _ => a
               end
           | None => a
           end in
  publish_snapshot a.

(** ** Static addresses (interface/static.rs) *)

Inductive StaticRequest :=
| StaticIpv4 (addresses : list (Cidr ipv4)) (gw : option ipv4)
| StaticIpv6 (addresses : list (Cidr ipv6)) (gw : option ipv6).

Fixpoint ensure_ipv4_addresses (index : Z) (addresses : list (Cidr ipv4)) : M () :=
  match addresses with
  | [] => mret ()
  | c :: addresses =>
      lift_ops (λ k, ensure_ipv4 k index (cidr_address c) (cidr_prefix c));;
      ensure_ipv4_addresses index addresses
  end.
Fixpoint ensure_ipv6_addresses (index : Z) (addresses : list (Cidr ipv6)) : M () :=
  match addresses with
  | [] => mret ()
  | c :: addresses =>
      lift_ops (λ k, ensure_ipv6 k index (cidr_address c) (cidr_prefix c));;
      ensure_ipv6_addresses index addresses
  end.

Definition static_ensure (index : Z) (request : StaticRequest) : M () :=
  match request with
  | StaticIpv4 addresses gw =>
      ensure_ipv4_addresses index addresses;;
      match gw with Some gw => lift_ops (λ k, ensure_default_route k gw) | None => mret () end
  | StaticIpv6 addresses gw =>
      ensure_ipv6_addresses index addresses;;
      match gw with Some gw => lift_ops (λ k, ensure_default_route_v6 k gw) | None => mret () end
  end.

Definition first_address {A} (addresses : list A) : M A := lift_option (head addresses) NoAddresses.

Definition static_store (request : StaticRequest) : M () :=
  match request with
  | StaticIpv4 addresses gw =>
      c ← first_address addresses;
      update (λ a, put_snapshot a (snap_with_lease (snapshot a)
        (Some (Build_IpConfig (cidr_address c) (cidr_prefix c) gw (config_ipv4_dns (config a))))
        (snap_lease (snapshot a))))
  | StaticIpv6 addresses gw =>
      c ← first_address addresses;
      update (λ a, put_snapshot a (snap_with_ipv6 (snapshot a)
        (Some (Build_IpConfig (cidr_address c) (cidr_prefix c) gw (config_ipv6_dns (config a))))))
  end.

(** [if !actor.ensure_configured_state() { actor.publish_snapshot() }]. *)
Definition configure_or_publish (a : Actor) : Actor :=
  let '(advanced, a) := ensure_configured_state a in
  if advanced then a else publish_snapshot a.

Definition static_set (index : Z) (request : StaticRequest) (mode : ApplyMode) : M () :=
  match mode with
  | Provision =>
      update (set_state Configuring);;
      static_ensure index request;;
      static_store request;;
      update (set_state Configured)
  | Reconcile =>
      static_ensure index request;;
      static_store request;;
      update configure_or_publish
  end.

Definition static_apply (index : Z) (request : StaticRequest) (mode : ApplyMode) (a : Actor) : Actor :=
  run_handler (static_set index request mode) a.

(** ** Autoconfiguration (interface/slaac.rs) *)

Definition slaac_start (a : Actor) : Actor :=
  let '(opened, k) := open_icmpv6 (ops a) (snap_name (snapshot a)) in
  let a := put_ops a k in
  if opened then put_slaac a (Some (manager_new (snap_mac (snapshot a)) (config_ipv6_dns (config a)))) else a.

Definition apply_ipv6_configuration (index : Z) (c : Ipv6Config) : M () :=
  lift_ops (λ k, ensure_ipv6 k index (ip_address c) (ip_prefix_len c));;
  match ip_gateway c with
  | Some gw => lift_ops (λ k, ensure_default_route_v6 k gw)
  | None => mret ()
  end.

Definition slaac_reconcile (a : Actor) : Actor :=
  let a := match snap_ipv6 (snapshot a) with
           | Some c =>
               match apply_ipv6_configuration (snap_index (snapshot a)) c a with
               | (Ok _, a) => configure_or_publish a
               | (_, a) => a
               end
           | None => a
           end in
  match slaac a with None => slaac_start a | Some _ => a end.

Definition slaac_apply (mode : ApplyMode) : Actor → Actor :=
  match mode with Provision => slaac_start | Reconcile => slaac_reconcile end.

Definition on_configured (address : ipv6) (plen : Z) (gw : ipv6) (dns : list ipv6) (a : Actor) : Actor :=
  let c := Build_IpConfig address plen (Some gw) dns in
  match apply_ipv6_configuration (snap_index (snapshot a)) c a with
  | (Ok _, a) => configure_or_publish (put_snapshot a (snap_with_ipv6 (snapshot a) (Some c)))
  | (_, a) => a
  end.

Definition on_address_expired (address : ipv6) (a : Actor) : Actor :=
  let a := run_handler (lift_ops (λ k, remove_ipv6 k (snap_index (snapshot a)) address)) a in
  publish_snapshot (put_snapshot a (snap_with_ipv6 (snapshot a) None)).

Definition on_router_expired (router : ipv6) : Actor → Actor :=
  run_handler (lift_ops (λ k, remove_default_route_v6 k router)).

Definition on_dns_updated (servers : list ipv6) (a : Actor) : Actor :=
  match snap_ipv6 (snapshot a) with
  | None => a
  | Some c =>
      if bool_decide (ip_dns c = servers) then a
      else publish_snapshot (put_snapshot a (snap_with_ipv6 (snapshot a)
             (Some (Build_IpConfig (ip_address c) (ip_prefix_len c) (ip_gateway c) servers))))
  end.

Definition slaac_event (e : SlaacEvent) (a : Actor) : Actor :=
  match e with
  | SlaacConfigured address plen gw dns => on_configured address plen gw dns a
  | AddressDeprecated _ => a
  | AddressExpired address => on_address_expired address a
  | RouterExpired router => on_router_expired router a
  | DnsUpdated servers => on_dns_updated servers a
  | SlaacFailed => put_slaac a None
  end.

(** ** Bridges (interface/bridge.rs) *)

Definition bridge_configure (bridge_name : ustring) (stp : bool) : M Snapshot :=
  a ← get_state;
  l ← lift_option (lease_of a) NoLease;
  let mac := snap_mac (snapshot a) in
  let gw := ip ← snap_ip (snapshot a); ip_gateway ip in
  lift_ops (λ k, ensure_bridge k bridge_name (snap_name (snapshot a)) gw stp);;
  update disarm;;
  index ← lift_query (λ k, link_index k bridge_name) OpsFailure;
  br_iface_name ← lift_option (name_new bridge_name) InvalidBridgeName;
  let bridge_snapshot :=
    {| snap_name := br_iface_name; snap_state := Configured; snap_index := index; snap_mac := mac;
       snap_link := NetTypes.LinkUp; snap_ip := snap_ip (snapshot a); snap_lease := Some l;
       snap_dhcp := Some Bound; snap_ipv6 := None; l3_owner := br_iface_name |} in
  update (λ a, put_snapshot a
    (snap_with_owner (snap_with_dhcp (snap_with_lease (snapshot a) None None) None)
       (snap_name bridge_snapshot)));;
  update (set_state Deconfiguring);;
  update (set_state Discovered);;
  update publish_snapshot;;
  mret bridge_snapshot.

(** ** Dispatch and the event loop (interface/mod.rs) *)

Definition dispatch (cmd : Command) (a : Actor) : Actor :=
  match cmd with
  | ConfigureDhcp mode => dhcp_apply mode a
  | ConfigureStaticIpv4 mode index addresses gw => static_apply index (StaticIpv4 addresses gw) mode a
  | ConfigureStaticIpv6 mode index addresses gw => static_apply index (StaticIpv6 addresses gw) mode a
  | ConfigureBridge bridge_name stp => run_handler (bridge_configure bridge_name stp) a
  | ConfigureSlaac mode => slaac_apply mode a
  | CmdLinkUp => link_up a
  | CmdLinkDown => link_down a
  | Shutdown => close_commands (put_dhcp a None)
  end.

Inductive ActorEvent :=
| EvCommand (cmd : Command)
| EvDhcpLease (l : Lease)
| EvDhcpFailed
| EvSlaac (e : SlaacEvent)
| EvRenew
| EvRebind
| EvExpire.

(** What the sources answer when the task is polled: the command channel
    ([Some None] once it is closed and empty), the acquisition of the manager,
    the SLAAC manager and the three timers. *)
Record Polled := {
  polled_cmd : option (option Command);
  polled_dhcp : option (option Lease);
  polled_slaac : option SlaacEvent;
  polled_renew : bool;
  polled_rebind : bool;
  polled_expire : bool
}.

(** The first source that is ready, in the order of the code; a source that is
    not armed is never ready, and a timer that fires is cleared. *)
Definition first_ready (a : Actor) (p : Polled) : option (ActorEvent * Actor) :=
  match polled_cmd p with
  | Some (Some cmd) => Some (EvCommand cmd, a)
  | _ =>
      match dhcp a, polled_dhcp p with
      | Some _, Some (Some l) => Some (EvDhcpLease l, a)
      | Some _, Some None => Some (EvDhcpFailed, a)
      | _, _ =>
          match slaac a, polled_slaac p with
          | Some _, Some e => Some (EvSlaac e, a)
          | _, _ =>
              match renew_timer (timers a), polled_renew p with
              | Some _, true =>
                  Some (EvRenew, put_timers a {| renew_timer := None; rebind_timer := rebind_timer (timers a);
                                                 expire_timer := expire_timer (timers a) |})
              | _, _ =>
                  match rebind_timer (timers a), polled_rebind p with
                  | Some _, true =>
                      Some (EvRebind, put_timers a {| renew_timer := renew_timer (timers a); rebind_timer := None;
                                                      expire_timer := expire_timer (timers a) |})
                  | _, _ =>
                      match expire_timer (timers a), polled_expire p with
                      | Some _, true =>
                          Some (EvExpire, put_timers a {| renew_timer := renew_timer (timers a);
                                                          rebind_timer := rebind_timer (timers a);
                                                          expire_timer := None |})
                      | _, _ => None
                      end
                  end
              end
          end
      end
  end.

(** [actor_select] over the polls of its task. The future of [recv] is made
    once per call; polled again after it was ready it panics. [Ok None] while
    no source was ready. *)
Fixpoint select_polls (recv_done : bool) (a : Actor) (polls : list Polled)
    : res () (option (ActorEvent * Actor)) :=
  match polls with
  | [] => Ok None
  | p :: polls =>
      if recv_done then Panic
      else match first_ready a p with
           | Some r => Ok (Some r)
           | None => select_polls (bool_decide (is_Some (polled_cmd p))) a polls
           end
  end.
Definition actor_select (a : Actor) (polls : list Polled) : res () (option (ActorEvent * Actor)) :=
  select_polls false a polls.

Definition handle_event (e : ActorEvent) (a : Actor) : Actor :=
  match e with
  | EvCommand cmd => dispatch cmd a
  | EvDhcpLease l => acquired l a
  | EvDhcpFailed => acquisition_failed a
  | EvSlaac e => slaac_event e a
  | EvRenew => renew_lease a
  | EvRebind => rebind_lease a
  | EvExpire => on_expire a
  end.

(** [spawn_with]: the actor with its timers rehydrated, and the receiver. *)
Definition spawn (s : Snapshot) (k : K) (c : Config) : Actor * watch_rx :=
  let '(tx, rx) := watch_new s in
  let a := {| snapshot := s; ops := k; config := c; cmd_open := true; snapshot_tx := tx;
              dhcp := None; timers := timers_new; slaac := None |} in
  (match snap_lease s with Some l => arm l a | None => a end, rx).

(** One round of the loop: the environment changes what it owns, the sources
    are polled until one is ready, and its handler runs. *)
Inductive actor_step (a : Actor) : Actor → Prop :=
| actor_round k polls e a' :
    actor_select (put_ops a k) polls = Ok (Some (e, a')) → actor_step a (handle_event e a').

Definition reachable (s : Snapshot) (a : Actor) : Prop :=
  ∃ k c, rtc actor_step (fst (spawn s k c)) a.
End actor.
