(* ===== verification/NetActorInv.v ===== *)
(** Invariants of the interface actor: what every handler preserves, and what
    therefore holds in every state its loop reaches. *)

From stdpp Require Import gmap.
From S2P Require Import Prelude Utf Text NetFrame NetDhcp NetSlaac NetTypes NetActor.

Create HintDb actor.

Section invariants.
Context {K : Type} `{NetOps K, Connector K} {W : Watch} {WL : WatchLaws W}.
Implicit Types a b : @Actor K W.

(** ** What a handler may do to an actor *)

Definition armed (t : LeaseTimers) : Prop :=
  is_Some (renew_timer t) ∨ is_Some (rebind_timer t) ∨ is_Some (expire_timer t).

(** Timers only run for a lease. *)
Definition timed a : Prop := armed (timers a) → is_Some (lease_of a).

(** The published snapshot shows the current life cycle and lease. *)
Definition synced a : Prop :=
  snap_state (watch_borrow (snapshot_tx a)) = lifecycle a ∧
  snap_lease (watch_borrow (snapshot_tx a)) = lease_of a.

Definition same_interface a b : Prop :=
  snap_name (snapshot b) = snap_name (snapshot a) ∧ snap_index (snapshot b) = snap_index (snapshot a) ∧
  snap_mac (snapshot b) = snap_mac (snapshot a) ∧ config b = config a.

(** One snapshot more was published, at the stage of the one before it or at a
    stage its state machine allows next; and any number of such snapshots. *)
Definition publication (c c' : watch_chan Snapshot) : Prop :=
  ∃ x, c' = watch_send c x ∧
    (snap_state x = snap_state (watch_borrow c) ∨ edge (snap_state (watch_borrow c)) (snap_state x)).
Definition published : watch_chan Snapshot → watch_chan Snapshot → Prop := rtc publication.
Definition shown a : Prop := snap_state (watch_borrow (snapshot_tx a)) = lifecycle a.

Record allowed a b : Prop := {
  allowed_same : same_interface a b;
  allowed_path : shown a → published (snapshot_tx a) (snapshot_tx b) ∧ shown b;
  allowed_timed : timed a → timed b;
  allowed_synced : synced a → synced b
}.

#[global] Instance allowed_refl : Reflexive allowed.
Proof. intros a. split; [done|intros Hs; split; [apply rtc_refl|done]|done..]. Qed.
#[global] Instance allowed_trans : Transitive allowed.
Proof.
  intros a b c [(E1 & E2 & E3 & E4) P T S] [(F1 & F2 & F3 & F4) P' T' S'].
  split; [split_and!; congruence| |auto..]. intros Ha. destruct (P Ha) as [P1 Hb]. destruct (P' Hb) as [P2 Hc].
  split; [|done]. unfold published in *. by etrans.
Qed.

#[global] Instance allowed_preorder : PreOrder allowed.
Proof. split; apply _. Qed.

(** The fields the relation looks at, for updates that leave them alone. *)
Lemma allowed_frame a b :
  same_interface a b → lifecycle b = lifecycle a → lease_of b = lease_of a →
  timers b = timers a → snapshot_tx b = snapshot_tx a → allowed a b.
Proof.
  intros Hs Hl Hle Ht Htx. split; [done| |unfold timed; by rewrite Ht, Hle|].
  { unfold shown. rewrite Htx, Hl. intros Hs'. split; [apply rtc_refl|done]. }
  unfold synced. by rewrite Htx, Hl, Hle.
Qed.

Lemma allowed_put_ops a k : allowed a (put_ops a k).
Proof. by apply allowed_frame. Qed.
Lemma allowed_put_dhcp a d : allowed a (put_dhcp a d).
Proof. by apply allowed_frame. Qed.
Lemma allowed_put_slaac a m : allowed a (put_slaac a m).
Proof. by apply allowed_frame. Qed.
Lemma allowed_close a : allowed a (close_commands a).
Proof. by apply allowed_frame. Qed.
Lemma allowed_link a l : allowed a (put_snapshot a (snap_with_link (snapshot a) l)).
Proof. by apply allowed_frame. Qed.
Lemma allowed_ip a ip :
  allowed a (put_snapshot a (snap_with_lease (snapshot a) ip (snap_lease (snapshot a)))).
Proof. by apply allowed_frame. Qed.
Lemma allowed_ipv6 a c : allowed a (put_snapshot a (snap_with_ipv6 (snapshot a) c)).
Proof. by apply allowed_frame. Qed.
Lemma allowed_dhcp_transition s a : allowed a (dhcp_transition s a).
Proof.
  unfold dhcp_transition. destruct (snap_dhcp _); [|by apply allowed_frame].
  destruct (transition _ _); [by apply allowed_frame|done..].
Qed.

(** A snapshot at the stage, or at a next one, is published. *)
Lemma shown_publish a (x : Snapshot) :
  snap_state x = lifecycle a ∨ edge (lifecycle a) (snap_state x) → shown a →
  published (snapshot_tx a) (snapshot_tx (publish_snapshot (put_snapshot a x))) ∧ shown (publish_snapshot (put_snapshot a x)).
Proof.
  intros Hx Ha. unfold shown in *. cbn [publish_snapshot snapshot_tx put_snapshot snapshot].
  split; [|by rewrite watch_borrow_send]. apply rtc_once. exists x. by rewrite Ha.
Qed.

Lemma allowed_publish a : allowed a (publish_snapshot a).
Proof.
  split; [done|apply (shown_publish a (snapshot a)); by left|done|]. intros _. unfold synced. cbn [publish_snapshot snapshot_tx].
  by rewrite watch_borrow_send.
Qed.

(** Fewer timers. *)
Lemma allowed_timers a t : (armed t → armed (timers a)) → allowed a (put_timers a t).
Proof.
  intros Ht. split; [done| |unfold timed; cbn; auto|done]. intros Ha. split; [apply rtc_refl|exact Ha].
Qed.
Lemma allowed_disarm a : allowed a (disarm a).
Proof. apply allowed_timers. by intros [[? ?]|[[? ?]|[? ?]]]. Qed.

Lemma arm_fields l a :
  ∃ k t, arm l a = put_timers (put_ops a k) t.
Proof.
  unfold arm. cbn [disarm put_timers ops]. destruct (system_now _) as [now k]. by eexists _, _.
Qed.
Lemma allowed_arm l a : lease_of a = Some l → allowed a (arm l a).
Proof.
  intros Hl. destruct (arm_fields l a) as (k & t & ->).
  split; [done| | |done]; [intros Ha; split; [apply rtc_refl|exact Ha]|]. intros _ _. exists l. exact Hl.
Qed.

Lemma allowed_set_state s a : allowed a (set_state s a).
Proof.
  unfold set_state, snapshot_transition. destruct (transition _ s) as [l| |] eqn:E; [|done..].
  apply transition_Ok in E as [-> Hedge]. cbn [mbind res_bind].
  split; [done|apply shown_publish; by right|done|]. intros _. unfold synced.
  cbn [publish_snapshot snapshot_tx]. by rewrite watch_borrow_send.
Qed.

Lemma allowed_ensure_configured a : allowed a (snd (ensure_configured_state a)).
Proof.
  unfold ensure_configured_state.
  destruct (lifecycle a); cbn [snd]; try done; try apply allowed_set_state.
  all: etrans; apply allowed_set_state.
Qed.
Lemma allowed_configure_or_publish a : allowed a (configure_or_publish a).
Proof.
  unfold configure_or_publish. pose proof (allowed_ensure_configured a) as Ha.
  destruct (ensure_configured_state a) as [[] b]; cbn [snd] in Ha; [done|].
  etrans; [exact Ha|apply allowed_publish].
Qed.

Lemma lease_store l a : lease_of (store_lease l a) = Some l.
Proof. done. Qed.
Lemma lease_dhcp_transition s a : lease_of (dhcp_transition s a) = lease_of a.
Proof.
  unfold dhcp_transition. destruct (snap_dhcp _); [|done]. by destruct (transition _ _).
Qed.
Lemma allowed_store l a : allowed a (store_lease l a).
Proof.
  split; [done|apply shown_publish; by left|by eexists|]. intros _. unfold synced.
  cbn [store_lease publish_snapshot snapshot_tx]. by rewrite watch_borrow_send.
Qed.
Lemma allowed_bind_lease l a : allowed a (arm l (dhcp_transition Bound (store_lease l a))).
Proof.
  etrans; [apply (allowed_store l)|]. etrans; [apply (allowed_dhcp_transition Bound)|].
  apply allowed_arm. by rewrite lease_dhcp_transition.
Qed.

(** ** Handlers that may fail *)

Lemma sound_ops f : respects allowed (lift_ops f).
Proof. intros a. unfold lift_ops. destruct (f (ops a)). apply allowed_put_ops. Qed.
Lemma sound_query {A} (f : K → option A * K) e : respects allowed (lift_query f e).
Proof. intros a. unfold lift_query. destruct (f (ops a)). apply allowed_put_ops. Qed.
Lemma sound_run {A} (m : handler _ _ A) a : respects allowed m → allowed a (run_handler m a).
Proof. intros Hm. apply Hm. Qed.
End invariants.

#[export] Hint Resolve allowed_put_ops allowed_put_dhcp allowed_put_slaac allowed_close allowed_link
  allowed_ip allowed_ipv6 allowed_dhcp_transition allowed_publish allowed_disarm allowed_set_state
  allowed_ensure_configured allowed_configure_or_publish allowed_store allowed_bind_lease : actor.
#[export] Hint Resolve respects_ret respects_throw respects_panic respects_update respects_bind
  respects_get respects_option respects_attempt sound_ops sound_query sound_run : actor.
#[export] Hint Extern 0 (PreOrder _) => apply _ : actor.

Abbreviation sound := (respects allowed).
Ltac solve_sound := eauto 12 with actor.

Section handlers.
Context {K : Type} `{NetOps K, Connector K} {W : Watch} {WL : WatchLaws W}.
Implicit Types a b : @Actor K W.

(** ** Every handler *)

Lemma sound_apply_lease index l : sound (apply_lease (K:=K) (W:=W) index l).
Proof. unfold apply_lease. rbind; [solve_sound|]. intros _. destruct (gateway l); solve_sound. Qed.

Lemma sound_commit_lease index l : sound (commit_lease (K:=K) index l).
Proof.
  intros a. unfold commit_lease.
  pose proof (sound_apply_lease index l a) as Ha.
  unfold mbind, handler_bind. destruct (apply_lease index l a) as [[x|e|] b]; cbn [snd] in Ha; [|done..].
  etrans; [exact Ha|]. apply allowed_bind_lease.
Qed.

Lemma sound_client_run s mac : sound (client_run (K:=K) s mac).
Proof.
  intros a. unfold client_run. destruct (generate_xid _) as [xid k]. destruct (system_now k) as [now k'].
  cbn [snd]. solve_sound.
Qed.
Lemma sound_client_renew s mac server ip : sound (client_renew (K:=K) s mac server ip).
Proof.
  intros a. unfold client_renew. destruct (generate_xid _) as [xid k]. destruct (system_now k) as [now k'].
  cbn [snd]. solve_sound.
Qed.
Lemma sound_client_rebind s mac server ip : sound (client_rebind (K:=K) s mac server ip).
Proof.
  intros a. unfold client_rebind. destruct (generate_xid _) as [xid k]. destruct (system_now k) as [now k'].
  cbn [snd]. solve_sound.
Qed.

Lemma sound_full_dora : sound (do_full_dora (K:=K)).
Proof.
  unfold do_full_dora. do 3 (rbind; [solve_sound|intros _]).
  apply respects_get. intros a. rbind; [solve_sound|]. intros socket.
  rbind; [apply respects_attempt, sound_client_run|]. intros [l|e|].
  - apply respects_get. intros b. rbind; [apply sound_commit_lease|]. intros _. solve_sound.
  - rbind; [solve_sound|]. intros _. solve_sound.
  - refine (respects_panic _).
Qed.

Lemma sound_renewal_outcome o : sound (renewal_outcome (K:=K) o).
Proof.
  destruct o as [l|e|]; cbn [renewal_outcome]; [| |refine (respects_panic _)].
  - unfold apply_renewed_lease. apply respects_get. intros a. apply sound_commit_lease.
  - destruct e as [[]| | | | |]; first [apply sound_full_dora|refine (respects_throw _ _)].
Qed.

Lemma sound_lease_params : sound (lease_params (K:=K)).
Proof.
  unfold lease_params. apply respects_get. intros a. rbind; [refine (respects_option _ _ _)|].
  intros l. refine (respects_ret _ _).
Qed.

Lemma sound_do_renew : sound (do_renew (K:=K)).
Proof.
  unfold do_renew. rbind; [apply sound_lease_params|]. intros [[mac server] ip].
  apply respects_get. intros a. rbind; [apply sound_query|]. intros socket.
  rbind; [apply respects_attempt, sound_client_renew|]. apply sound_renewal_outcome.
Qed.
Lemma sound_do_rebind : sound (do_rebind (K:=K)).
Proof.
  unfold do_rebind. rbind; [apply sound_lease_params|]. intros [[mac server] ip].
  apply respects_get. intros a. rbind; [apply sound_query|]. intros socket.
  rbind; [apply respects_attempt, sound_client_rebind|]. apply sound_renewal_outcome.
Qed.

Lemma allowed_dhcp_start a : allowed a (dhcp_start a).
Proof.
  unfold dhcp_start. set (b := set_state Configuring a).
  assert (sound (new_manager (K:=K) (snap_name (snapshot b)) (snap_mac (snapshot b)))) as Hn.
  { unfold new_manager. rbind; [apply sound_query|]. intros s. refine (respects_ret _ _). }
  specialize (Hn b). etrans; [apply (allowed_set_state Configuring)|]. fold b.
  destruct (new_manager _ _ b) as [[m|e|] c]; cbn [snd] in Hn; (etrans; [exact Hn|]); solve_sound.
Qed.

(** A lease that is applied again. *)
Lemma applied_lease index l a :
  allowed a (snd (apply_lease index l a)) ∧
  lease_of (snd (apply_lease index l a)) = lease_of a.
Proof.
  split; [apply sound_apply_lease|].
  unfold apply_lease, mbind, handler_bind, lift_ops.
  destruct (ensure_ipv4 _ _ _ _) as [[] k]; [|done]. destruct (gateway l); [|done].
  cbn [ops put_ops]. by destruct (ensure_default_route _ _) as [[] k'].
Qed.

Lemma allowed_dhcp_reconcile a : allowed a (dhcp_reconcile a).
Proof.
  unfold dhcp_reconcile. destruct (lease_of a) as [l|] eqn:Hl.
  2: { destruct (dhcp a); [done|apply allowed_dhcp_start]. }
  destruct (applied_lease (snap_index (snapshot a)) l a) as [Ha _].
  destruct (apply_lease _ l a) as [[x|e|] b]; cbn [snd] in Ha; [|done..].
  etrans; [exact Ha|]. etrans; [apply (allowed_bind_lease l)|]. apply allowed_ensure_configured.
Qed.

Lemma allowed_acquired l a : allowed a (acquired l a).
Proof.
  unfold acquired. etrans; [apply (allowed_put_dhcp a None)|]. set (b := put_dhcp a None).
  pose proof (sound_commit_lease (snap_index (snapshot b)) l b) as Hc.
  destruct (commit_lease _ l b) as [[x|e|] c]; cbn [snd] in Hc; (etrans; [exact Hc|]); solve_sound.
Qed.

Lemma allowed_recover l a : lease_of a = Some l → allowed a (recover_with_lease l a).
Proof.
  intros Hl. unfold recover_with_lease.
  destruct (applied_lease (snap_index (snapshot a)) l a) as [Ha Hl'].
  destruct (apply_lease _ l a) as [[x|e|] b]; cbn [snd] in Ha, Hl'; (etrans; [exact Ha|]); [|solve_sound..].
  etrans; [apply (allowed_arm l); by rewrite Hl'|]. solve_sound.
Qed.

Lemma allowed_link_up a : allowed a (link_up a).
Proof.
  unfold link_up. set (b := put_snapshot a _).
  assert (allowed a b) as Hb by apply allowed_link.
  destruct (lifecycle b); try done; (etrans; [exact Hb|]).
  all: destruct (lease_of b) as [l|] eqn:Hl; (etrans; [|apply allowed_publish]);
    [by apply allowed_recover|apply sound_run, sound_full_dora].
Qed.

Lemma allowed_link_down a : allowed a (link_down a).
Proof.
  unfold link_down. set (b := disarm _).
  assert (allowed a b) as Hb.
  { etrans; [apply (allowed_link a)|]. etrans; [apply (allowed_put_dhcp _ None)|]. apply allowed_disarm. }
  etrans; [exact Hb|]. unfold snapshot_transition.
  destruct (match lifecycle b with Configured => _ | _ => _ end) as [next|]; [|apply allowed_publish].
  destruct (transition _ next) as [l| |] eqn:E; cbn [mbind res_bind]; [|apply allowed_publish..].
  apply transition_Ok in E as [-> Hedge]. split; [done|apply shown_publish; by right|done|].
  intros _. unfold synced. cbn [publish_snapshot snapshot_tx]. by rewrite watch_borrow_send.
Qed.

Lemma sound_ipv4_addresses index l : sound (ensure_ipv4_addresses (K:=K) (W:=W) index l).
Proof. induction l as [|c l IH]; cbn [ensure_ipv4_addresses]; [refine (respects_ret _ _)|]. solve_sound. Qed.
Lemma sound_ipv6_addresses index l : sound (ensure_ipv6_addresses (K:=K) (W:=W) index l).
Proof. induction l as [|c l IH]; cbn [ensure_ipv6_addresses]; [refine (respects_ret _ _)|]. solve_sound. Qed.

Lemma sound_static_ensure index r : sound (static_ensure (K:=K) (W:=W) index r).
Proof.
  destruct r as [l gw|l gw]; cbn [static_ensure]; rbind;
    [apply sound_ipv4_addresses| |apply sound_ipv6_addresses|]; intros _; destruct gw; solve_sound.
Qed.
Lemma sound_static_store r : sound (static_store (K:=K) (W:=W) r).
Proof.
  destruct r as [l gw|l gw]; cbn [static_store]; unfold first_address;
    repeat respects_step; [apply allowed_ip|apply allowed_ipv6].
Qed.
Lemma allowed_static_apply index r mode a : allowed a (static_apply index r mode a).
Proof.
  unfold static_apply. apply sound_run.
  pose proof (sound_static_ensure index r). pose proof (sound_static_store r).
  destruct mode; cbn [static_set]; solve_sound.
Qed.

Lemma allowed_slaac_start a : allowed a (slaac_start a).
Proof.
  unfold slaac_start. destruct (open_icmpv6 _ _) as [[] k]; [|solve_sound].
  etrans; [apply (allowed_put_ops a k)|]. solve_sound.
Qed.
Lemma sound_ipv6_configuration index c : sound (apply_ipv6_configuration (K:=K) (W:=W) index c).
Proof.
  unfold apply_ipv6_configuration. rbind; [solve_sound|]. intros _. destruct (ip_gateway c); solve_sound.
Qed.

Lemma allowed_slaac_apply mode a : allowed a (slaac_apply mode a).
Proof.
  destruct mode; cbn [slaac_apply]; [apply allowed_slaac_start|]. unfold slaac_reconcile.
  set (b := match snap_ipv6 _ with Some c => _ | None => a end).
  assert (allowed a b) as Hb.
  { unfold b. destruct (snap_ipv6 _) as [c|]; [|done].
    pose proof (sound_ipv6_configuration (snap_index (snapshot a)) c a) as Hc.
    destruct (apply_ipv6_configuration _ c a) as [[x|e|] d]; cbn [snd] in Hc; [|done..].
    etrans; [exact Hc|]. apply allowed_configure_or_publish. }
  destruct (slaac b); [done|]. etrans; [exact Hb|apply allowed_slaac_start].
Qed.

Lemma allowed_slaac_event e a : allowed a (slaac_event e a).
Proof.
  destruct e as [address plen gw dns|address|address|router|servers|]; cbn [slaac_event];
    [|done| | | |apply allowed_put_slaac].
  - unfold on_configured. set (c := Build_IpConfig _ _ _ _).
    pose proof (sound_ipv6_configuration (snap_index (snapshot a)) c a) as Hc.
    destruct (apply_ipv6_configuration _ c a) as [[x|e|] d]; cbn [snd] in Hc; [|done..].
    etrans; [exact Hc|]. etrans; [apply (allowed_ipv6 d)|]. apply allowed_configure_or_publish.
  - unfold on_address_expired. set (b := run_handler _ a).
    assert (allowed a b) as Hb by apply sound_run, sound_ops.
    etrans; [exact Hb|]. etrans; [apply (allowed_ipv6 b)|apply allowed_publish].
  - apply sound_run, sound_ops.
  - unfold on_dns_updated. destruct (snap_ipv6 _) as [c|]; [|done]. case_bool_decide; [done|].
    etrans; [apply (allowed_ipv6 a)|apply allowed_publish].
Qed.
End handlers.

Section reachable_states.
Context {K : Type} `{NetOps K, Connector K} {W : Watch} {WL : WatchLaws W}.
Implicit Types a b : @Actor K W.

(** A port that hands its lease over: no timer runs when the lease goes, and
    the change is published. *)
Lemma allowed_hand_over a owner :
  ¬ armed (timers a) →
  allowed a (publish_snapshot (set_state Discovered (set_state Deconfiguring
    (put_snapshot a (snap_with_owner (snap_with_dhcp (snap_with_lease (snapshot a) None None) None) owner))))).
Proof.
  intros Hn. set (b := put_snapshot a _). set (c := set_state Discovered _).
  assert (allowed b c) as [Hs Hp _ _].
  { etrans; [apply (allowed_set_state Deconfiguring)|apply allowed_set_state]. }
  assert (timers c = timers a) as Ht.
  { unfold c, set_state, snapshot_transition. repeat (destruct (transition _ _); cbn [mbind res_bind]; try done). }
  split; [exact Hs| | |].
  - intros Ha. destruct (Hp Ha) as [P1 Hc]. destruct (allowed_path _ _ (allowed_publish c) Hc) as [P2 Hd].
    split; [|exact Hd]. unfold published in *. etrans; [exact P1|exact P2].
  - intros _ Ha. exfalso. apply Hn. cbn [publish_snapshot timers] in Ha. by rewrite Ht in Ha.
  - intros _. unfold synced. cbn [publish_snapshot snapshot_tx]. by rewrite watch_borrow_send.
Qed.

Lemma allowed_bridge name stp : sound (bridge_configure (K:=K) (W:=W) name stp).
Proof.
  intros a. unfold bridge_configure, mbind, handler_bind, get_state, lift_option, ok_or.
  destruct (lease_of a) as [l|]; [|done]. unfold lift_ops.
  destruct (ensure_bridge _ _ _ _ _) as [[] k]; [|apply allowed_put_ops].
  unfold update, lift_query. destruct (link_index _ name) as [[index|] k']; cbn [ok_or].
  - destruct (name_new name) as [n|]; cbn [snd mret handler_ret].
    + set (b := put_ops (disarm (put_ops a k)) k').
      assert (allowed a b) as Hb.
      { etrans; [apply (allowed_put_ops a k)|]. etrans; [apply allowed_disarm|]. apply allowed_put_ops. }
      etrans; [exact Hb|]. apply allowed_hand_over. by intros [[? ?]|[[? ?]|[? ?]]].
    + etrans; [apply (allowed_put_ops a k)|]. etrans; [apply allowed_disarm|]. apply allowed_put_ops.
  - etrans; [apply (allowed_put_ops a k)|]. etrans; [apply allowed_disarm|]. apply allowed_put_ops.
Qed.

Lemma allowed_dispatch cmd a : allowed a (dispatch cmd a).
Proof.
  destruct cmd as [mode|mode index l gw|mode index l gw|name stp|mode| | |]; cbn [dispatch].
  - destruct mode; [apply allowed_dhcp_start|apply allowed_dhcp_reconcile].
  - apply allowed_static_apply.
  - apply allowed_static_apply.
  - apply sound_run, allowed_bridge.
  - apply allowed_slaac_apply.
  - apply allowed_link_up.
  - apply allowed_link_down.
  - etrans; [apply (allowed_put_dhcp a None)|apply allowed_close].
Qed.

Lemma allowed_handle_event e a : allowed a (handle_event e a).
Proof.
  destruct e; cbn [handle_event].
  - apply allowed_dispatch.
  - apply allowed_acquired.
  - etrans; [apply (allowed_put_dhcp a None)|apply allowed_set_state].
  - apply allowed_slaac_event.
  - etrans; [apply (allowed_dhcp_transition Renewing)|]. apply sound_run, sound_do_renew.
  - etrans; [apply (allowed_dhcp_transition Rebinding)|]. apply sound_run, sound_do_rebind.
  - apply sound_run, sound_full_dora.
Qed.

Lemma allowed_first_ready a p e b : first_ready a p = Some (e, b) → allowed a b.
Proof.
  unfold first_ready. intros Hf.
  repeat match type of Hf with
  | match ?x with _ => _ end = _ => destruct x eqn:?
  end; try discriminate; injection Hf as <- <-; try done; apply allowed_timers;
    unfold armed; cbn; intros [[? ?]|[[? ?]|[? ?]]]; eauto; try discriminate.
Qed.

Lemma allowed_select polls a e b : actor_select a polls = Ok (Some (e, b)) → allowed a b.
Proof.
  unfold actor_select. generalize false. induction polls as [|p polls IH]; intros d; cbn [select_polls]; [done|].
  destruct d; [done|]. destruct (first_ready a p) as [[e' b']|] eqn:Hf; [|apply IH].
  intros [= <- <-]. by eapply allowed_first_ready.
Qed.

Lemma allowed_step a b : actor_step a b → allowed a b.
Proof.
  intros [k polls e a' Hsel]. etrans; [apply (allowed_put_ops a k)|].
  etrans; [by eapply allowed_select|apply allowed_handle_event].
Qed.

Lemma allowed_steps a b : rtc actor_step a b → allowed a b.
Proof. induction 1 as [a|a b c Hs _ IH]; [done|]. etrans; [by apply allowed_step|exact IH]. Qed.

Lemma spawn_timed s (k : K) c : timed (fst (spawn s k c)).
Proof.
  unfold spawn. destruct (watch_new s) as [tx rx]. cbn [fst].
  destruct (snap_lease s) as [l|] eqn:Hl; [|by intros [[? ?]|[[? ?]|[? ?]]]].
  match goal with |- timed (arm _ ?a) => destruct (allowed_arm l a Hl) as [_ _ Ht _]; apply Ht end.
  by intros [[? ?]|[[? ?]|[? ?]]].
Qed.

Lemma spawn_synced s (k : K) c : synced (fst (spawn s k c)).
Proof.
  unfold spawn. pose proof (watch_borrow_new s) as Hb. destruct (watch_new s) as [tx rx]. cbn [fst] in *.
  destruct (snap_lease s) as [l|] eqn:Hl.
  - match goal with |- synced (arm _ ?a) => destruct (allowed_arm l a Hl) as [_ _ _ Hs]; apply Hs end.
    by unfold synced; cbn; rewrite Hb.
  - by unfold synced; cbn; rewrite Hb.
Qed.

Lemma spawn_snapshot s (k : K) c : snapshot (fst (spawn s k c)) = s.
Proof.
  unfold spawn. destruct (watch_new s) as [tx rx]. cbn [fst]. destruct (snap_lease s) as [l|]; [|done].
  destruct (arm_fields l {| snapshot := s; ops := k; config := c; cmd_open := true; snapshot_tx := tx;
    dhcp := None; timers := timers_new; slaac := None |}) as (k' & t & ->). done.
Qed.

Lemma spawn_channel s (k : K) c : snapshot_tx (fst (spawn s k c)) = fst (watch_new s).
Proof.
  unfold spawn. destruct (watch_new s) as [tx rx]. cbn [fst]. destruct (snap_lease s) as [l|]; [|done].
  destruct (arm_fields l {| snapshot := s; ops := k; config := c; cmd_open := true; snapshot_tx := tx;
    dhcp := None; timers := timers_new; slaac := None |}) as (k' & t & ->). done.
Qed.

(** C14: In every state the actor reaches from any snapshot it was spawned
    with, whatever the kernel, the servers and the clock do: a lease timer
    runs only while there is a lease to renew, the published snapshot shows
    the current life cycle stage and lease, the name, index and hardware
    address are those of the interface, and the channel went from its first
    value to the present one by snapshots that are each at the stage of the one
    before or at a stage that the state machine allows right after it. *)
Theorem actor_invariant (s : Snapshot) a :
  reachable s a →
  (armed (timers a) → is_Some (lease_of a)) ∧
  snap_state (watch_borrow (snapshot_tx a)) = lifecycle a ∧
  snap_lease (watch_borrow (snapshot_tx a)) = lease_of a ∧
  snap_name (snapshot a) = snap_name s ∧ snap_index (snapshot a) = snap_index s ∧
  snap_mac (snapshot a) = snap_mac s ∧
  published (fst (watch_new s)) (snapshot_tx a).
Proof.
  intros (k & c & Hsteps). apply allowed_steps in Hsteps as [(Hn & Hi & Hm & _) Hp Ht Hs].
  destruct (Hp (proj1 (spawn_synced s k c))) as [Hpub _]. rewrite spawn_channel in Hpub. rewrite spawn_snapshot in *.
  destruct (Hs (spawn_synced s k c)) as [Hs1 Hs2].
  split_and!; [|done..]. apply Ht, spawn_timed.
Qed.
End reachable_states.
