(* ===== verification/NetActorProps.v ===== *)
(** What the handlers of the interface actor do: link loss, renewal, the end
    of a lease, static interfaces and shutdown. *)

From stdpp Require Import gmap.
From S2P Require Import Prelude Utf Text NetFrame NetDhcp NetSlaac NetTypes NetActor NetActorInv.

(** Netlink requests that succeed. *)
Class ReliableOps (K : Type) `{NetOps K} : Prop := {
  ensure_ipv4_ok k index ip plen : fst (ensure_ipv4 (K:=K) k index ip plen) = true;
  ensure_default_route_ok k gw : fst (ensure_default_route (K:=K) k gw) = true
}.

Section properties.
Context {K : Type} `{NetOps K, Connector K} {W : Watch} {WL : WatchLaws W}.
Implicit Types a b : @Actor K W.

(** Losing the link quiesces an interface: the acquisition and the three
    timers are gone, a configured interface is degraded and a configuring one
    failed, the lease and the kernel's addresses stay, the result is published,
    and until the next command only SLAAC can wake the actor. *)
Theorem link_down_quiesces a :
  let b := link_down a in
  dhcp b = None ∧ timers b = timers_new ∧ ops b = ops a ∧ lease_of b = lease_of a ∧
  snap_link (snapshot b) = NetTypes.LinkDown ∧
  lifecycle b = match lifecycle a with Configured => Degraded | Configuring => Failed | l => l end ∧
  watch_borrow (snapshot_tx b) = snapshot b ∧
  (∀ p e c, first_ready b p = Some (e, c) → (∃ cmd, e = EvCommand cmd) ∨ ∃ ev, e = EvSlaac ev).
Proof.
  intros b.
  assert (dhcp b = None ∧ timers b = timers_new ∧ ops b = ops a ∧ lease_of b = lease_of a ∧
    snap_link (snapshot b) = NetTypes.LinkDown ∧
    lifecycle b = match lifecycle a with Configured => Degraded | Configuring => Failed | l => l end)
    as (Hd & Ht & Ho & Hle & Hli & Hlc).
  { unfold b, link_down, lifecycle, lease_of. cbn [disarm put_timers put_dhcp put_snapshot snapshot snap_state snap_with_link].
    destruct (snap_state (snapshot a)) eqn:E; cbn [snapshot_transition]; unfold snapshot_transition;
      cbn [snap_with_link snap_state]; rewrite ?E; vm_compute transition; cbn [mbind res_bind]; cbn; done. }
  split_and!; [done..| |].
  - unfold b, link_down. cbn [publish_snapshot snapshot_tx snapshot]. by rewrite watch_borrow_send.
  - intros p e c. unfold first_ready. rewrite Hd, Ht.
    cbn [timers_new renew_timer rebind_timer expire_timer].
    destruct (polled_cmd p) as [[cmd|]|]; [intros [= <- _]; eauto|..];
      (destruct (slaac b); [|done]; destruct (polled_slaac p); [intros [= <- _]; eauto|done]).
Qed.

(** ** Committing a lease *)

Lemma apply_lease_reliable `{!ReliableOps K} index l a :
  ∃ k, apply_lease index l a = (Ok (), put_ops a k).
Proof.
  unfold apply_lease, mbind, handler_bind, lift_ops.
  pose proof (ensure_ipv4_ok (ops a) index (assigned_ip l) (prefix_len l)) as H1.
  destruct (ensure_ipv4 _ _ _ _) as [[] k]; [|done].
  destruct (gateway l) as [gw|]; [|by exists k].
  cbn [put_ops ops]. pose proof (ensure_default_route_ok k gw) as H2.
  destruct (ensure_default_route k gw) as [[] k']; [|done]. by exists k'.
Qed.

Lemma commit_lease_reliable `{!ReliableOps K} index l a :
  ∃ k, commit_lease index l a = (Ok (), arm l (dhcp_transition Bound (store_lease l (put_ops a k)))).
Proof.
  destruct (apply_lease_reliable index l a) as [k Hk]. exists k.
  unfold commit_lease, mbind, handler_bind. by rewrite Hk.
Qed.

Lemma arm_spec l a :
  ∃ k now, arm l a = put_timers (put_ops a k) (lease_timers now l) ∧
    (now, k) = system_now (ops a).
Proof.
  unfold arm. cbn [disarm put_timers ops]. destruct (system_now _) as [now k]. by eexists _, _.
Qed.

(** A renewal the server acknowledges takes effect: the kernel has the
    addresses, the snapshot and what is published hold the new lease, the
    three timers are set for it, the client is bound again, and the life
    cycle does not move. *)
Theorem renewal_commits `{!ReliableOps K} a (l l' : Lease) (socket : UnicastSocket) (msg : list Z)
    (k1 k2 k3 : K) (xid : option Z) (now : Z) :
  lease_of a = Some l → snap_dhcp (snapshot a) = Some Bound →
  create_unicast (ops a) (snap_name (snapshot a)) (assigned_ip l) = (Some socket, k1) →
  generate_xid k1 = (xid, k2) → system_now k2 = (now, k3) →
  renew (uni_send_ok socket) xid (snap_mac (snapshot a)) (server_ip l) (assigned_ip l)
    (uni_reply socket) now = Ok (l', msg) →
  let b := renew_lease a in
  lease_of b = Some l' ∧ snap_lease (watch_borrow (snapshot_tx b)) = Some l' ∧
  snap_ip (snapshot b) = Some (Build_IpConfig (assigned_ip l') (prefix_len l') (gateway l') (dns_servers l')) ∧
  snap_dhcp (snapshot b) = Some Bound ∧ lifecycle b = lifecycle a ∧
  ∃ t, timers b = lease_timers t l'.
Proof.
  intros Hl Hd Hsock Hxid Hnow Hrenew b.
  assert (∃ k, b = arm l' (dhcp_transition Bound (store_lease l' (put_ops (dhcp_transition Renewing a) k)))) as [k Hb].
  { unfold b, renew_lease, run_handler, do_renew, lease_params, mbind, handler_bind, get_state, lift_option.
    assert (lease_of (dhcp_transition Renewing a) = Some l) as -> by (rewrite lease_dhcp_transition; exact Hl).
    assert (∃ d, dhcp_transition Renewing a = put_snapshot a (snap_with_dhcp (snapshot a) d)) as [d ->].
    { unfold dhcp_transition. rewrite Hd. eexists. reflexivity. }
    cbn [ok_or mret handler_ret]. unfold lift_query. cbn [put_snapshot snapshot snap_with_dhcp snap_name ops snap_mac].
    rewrite Hsock. cbn [ok_or]. unfold attempt, client_renew. cbn [put_ops ops]. rewrite Hxid, Hnow, Hrenew.
    cbn [fmap res_fmap fst map_err renewal_outcome]. unfold apply_renewed_lease, mbind, handler_bind, get_state.
    match goal with |- context [commit_lease ?i l' ?x] => destruct (commit_lease_reliable i l' x) as [k ->] end.
    by exists k. }
  set (c := store_lease l' (put_ops (dhcp_transition Renewing a) k)) in Hb.
  assert (snap_dhcp (snapshot c) = Some Renewing ∧ lifecycle c = lifecycle a ∧
    snap_lease (watch_borrow (snapshot_tx c)) = Some l') as (Hdc & Hlc & Hpc).
  { unfold c, dhcp_transition. rewrite Hd. vm_compute (transition Bound Renewing).
    split_and!; [done..|]. cbn [store_lease publish_snapshot snapshot_tx]. by rewrite watch_borrow_send. }
  assert (dhcp_transition Bound c = put_snapshot c (snap_with_dhcp (snapshot c) (Some Bound))) as Hc.
  { unfold dhcp_transition. by rewrite Hdc. }
  rewrite Hc in Hb. destruct (arm_spec l' (put_snapshot c (snap_with_dhcp (snapshot c) (Some Bound))))
    as (k' & t & Harm & _).
  rewrite Hb, Harm. split_and!; [done|exact Hpc|done|done|exact Hlc|by exists t].
Qed.
End properties.

(** ** Networks without a DHCP server *)

(** No frame ever arrives. *)
Definition silent (K : Type) `{Connector K} (name : ustring) : Prop :=
  ∀ k socket k', create_raw (K:=K) k name = (Some socket, k') → raw_inbox socket = [].

Lemma dora_silent send_ok xid mac now : ∃ e, dora send_ok xid mac [] now = Err e ∧ e ≠ DhcpNak.
Proof.
  unfold dora. destruct xid as [xid|]; cbn [ok_or mbind res_bind]; [|by eexists].
  unfold send_raw. destruct (send_ok _); cbn [mbind res_bind recv_raw_validated]; by eexists.
Qed.

Section expiry.
Context {K : Type} `{NetOps K, Connector K} {W : Watch} {WL : WatchLaws W}.
Implicit Types a b : @Actor K W.

(** The life cycle after an exchange without an answer: [Configuring] when no
    socket could be opened, [Failed] otherwise, as far as the machine lets. *)
Lemma full_dora_silent a :
  silent K (snap_name (snapshot a)) →
  ∃ k s, run_handler do_full_dora a = put_ops s k ∧
    let c := disarm (set_state Configuring (dhcp_transition Init a)) in
    (s = c ∧ fst (create_raw (ops c) (snap_name (snapshot c))) = None ∨
     s = set_state Failed c ∧ is_Some (fst (create_raw (ops c) (snap_name (snapshot c))))).
Proof.
  intros Hs. unfold run_handler, do_full_dora, mbind, handler_bind, update, get_state, lift_query.
  set (c := disarm (set_state Configuring (dhcp_transition Init a))).
  assert (snap_name (snapshot c) = snap_name (snapshot a)) as Hn.
  { assert (allowed a c) as [(Hn & _) _ _ _]; [|exact Hn].
    etrans; [apply (allowed_dhcp_transition Init)|]. etrans; [apply (allowed_set_state Configuring)|].
    apply allowed_disarm. }
  destruct (create_raw (ops c) (snap_name (snapshot c))) as [[socket|] k] eqn:Hc; cbn [ok_or fst].
  - rewrite Hn in Hc. unfold attempt, client_run. cbn [put_ops ops].
    destruct (generate_xid k) as [xid k']. destruct (system_now k') as [now k''].
    rewrite (Hs _ _ _ Hc).
    destruct (dora_silent (raw_send_ok socket) xid (snap_mac (snapshot c)) now) as (e & -> & _).
    cbn [fmap res_fmap map_err throw snd]. exists k'', (set_state Failed c). split; [|right; eauto].
    unfold set_state. cbn [put_ops snapshot]. by destruct (snapshot_transition (snapshot c) Failed).
  - exists k, c. split; [done|]. by left.
Qed.

Definition keeps_lease a l b : Prop :=
  lifecycle b = Configured ∧ lease_of b = Some l ∧ timers b = timers_new ∧
  snap_name (snapshot b) = snap_name (snapshot a).

Lemma expire_keeps_lease a l :
  silent K (snap_name (snapshot a)) → lifecycle a = Configured → lease_of a = Some l →
  keeps_lease a l (on_expire a).
Proof.
  intros Hs Hc Hl. destruct (full_dora_silent a Hs) as (k & s & Hk & Hcase). unfold on_expire. rewrite Hk.
  assert (set_state Configuring (dhcp_transition Init a) = dhcp_transition Init a ∧
    lifecycle (dhcp_transition Init a) = Configured ∧
    snap_name (snapshot (dhcp_transition Init a)) = snap_name (snapshot a)) as (E & Hd & Hn).
  { assert (lifecycle (dhcp_transition Init a) = Configured ∧
      snap_name (snapshot (dhcp_transition Init a)) = snap_name (snapshot a)) as [Hd Hn].
    { unfold dhcp_transition. destruct (snap_dhcp _); [|done]. by destruct (transition _ _). }
    split_and!; [|done..]. unfold set_state, snapshot_transition. unfold lifecycle in Hd. by rewrite Hd. }
  rewrite E in Hcase.
  assert (s = disarm (dhcp_transition Init a)) as ->.
  { destruct Hcase as [[-> _]|[-> _]]; [done|].
    unfold set_state, snapshot_transition. unfold lifecycle in Hd. cbn [disarm put_timers snapshot]. by rewrite Hd. }
  split_and!; [exact Hd| |done|exact Hn].
  change (lease_of (dhcp_transition Init a) = Some l). by rewrite lease_dhcp_transition.
Qed.

Lemma reconcile_keeps_lease `{!ReliableOps K} a l b k :
  (∀ k', expiry l < fst (system_now (K:=K) k')) →
  (∀ k', default (expiry l) (time_checked_add (obtained_at l) (renewal_time l)) < fst (system_now (K:=K) k')) →
  (∀ k', default (expiry l) (time_checked_add (obtained_at l) (rebind_time l)) < fst (system_now (K:=K) k')) →
  is_Some (time_checked_add (obtained_at l) (renewal_time l)) →
  is_Some (time_checked_add (obtained_at l) (rebind_time l)) →
  keeps_lease a l b → keeps_lease a l (dispatch (ConfigureDhcp Reconcile) (put_ops b k)).
Proof.
  intros H1 H2 H3 [r Hr] [r' Hr'] (Hc & Hl & Ht & Hn). cbn [dispatch dhcp_apply]. unfold dhcp_reconcile.
  change (lease_of (put_ops b k)) with (lease_of b). rewrite Hl.
  destruct (apply_lease_reliable (snap_index (snapshot (put_ops b k))) l (put_ops b k)) as [k' ->].
  set (c := dhcp_transition Bound _).
  assert (lifecycle c = Configured ∧ lease_of c = Some l ∧ snap_name (snapshot c) = snap_name (snapshot a))
    as (Hcc & Hcl & Hcn).
  { unfold c. rewrite lease_dhcp_transition. split_and!; [|done|]; unfold dhcp_transition;
      (destruct (snap_dhcp _); [destruct (transition _ _)|]); done. }
  destruct (arm_spec l c) as (k'' & now & -> & Hnow).
  assert (lease_timers now l = timers_new) as ->.
  { specialize (H1 (ops c)). specialize (H2 (ops c)). specialize (H3 (ops c)).
    rewrite <-Hnow in *. rewrite Hr in H2. rewrite Hr' in H3. cbn [fst default from_option id] in *.
    unfold lease_timers, deadline_to_sleep. rewrite Hr, Hr'. cbn [default from_option id].
    by rewrite !(proj2 (Z.leb_gt _ _)). }
  unfold ensure_configured_state. change (lifecycle (put_timers (put_ops c k'') timers_new)) with (lifecycle c).
  rewrite Hcc. done.
Qed.

(** A lease that ends while no server answers is kept for good: the machine
    refuses to leave [Configured], so the interface stays configured with the
    lost address and without any timer, neither renewing nor failed, and each
    later reconciliation puts the expired address back and leaves it so. *)
Theorem expired_lease_kept `{!ReliableOps K} a (l : Lease) (ks : list K) :
  silent K (snap_name (snapshot a)) → lifecycle a = Configured → lease_of a = Some l →
  0 ≤ obtained_at l → 0 ≤ renewal_time l ≤ lease_time l → 0 ≤ rebind_time l ≤ lease_time l →
  obtained_at l + lease_time l < 2 ^ 63 →
  (∀ k, obtained_at l + lease_time l < fst (system_now (K:=K) k)) →
  let b := fold_left (λ b k, dispatch (ConfigureDhcp Reconcile) (put_ops b k)) ks (on_expire a) in
  lifecycle b = Configured ∧ lease_of b = Some l ∧ timers b = timers_new.
Proof.
  intros Hs Hc Hl Hob Hren Hreb Hmax Hnow b.
  enough (keeps_lease a l b) as (? & ? & ? & _) by done. unfold b. clear b.
  pose proof (expire_keeps_lease a l Hs Hc Hl) as Hb.
  assert (∀ d, 0 ≤ d ≤ lease_time l → time_checked_add (obtained_at l) d = Some (obtained_at l + d)) as Hadd.
  { intros d Hd. unfold time_checked_add. by rewrite (proj2 (Z.ltb_lt _ _)) by lia. }
  revert Hb. generalize (on_expire a). induction ks as [|k ks IH]; intros b Hb; cbn [fold_left]; [done|].
  apply IH. apply reconcile_keeps_lease; [| | | | |exact Hb]; unfold expiry; rewrite !Hadd by lia;
    cbn [default from_option id]; try (by eexists); intros k'; specialize (Hnow k'); lia.
Qed.

(** An interface with a static address does not survive a link flap
    without a DHCP server: the link-up handler runs a DHCP exchange for every
    interface that holds no lease, so a configured static interface ends
    [Failed], its static configuration still recorded. *)
Theorem static_interface_fails_on_link_flap a :
  silent K (snap_name (snapshot a)) → (∀ k, is_Some (fst (create_raw (K:=K) k (snap_name (snapshot a))))) →
  lifecycle a = Configured → lease_of a = None →
  let b := dispatch CmdLinkUp (dispatch CmdLinkDown a) in
  lifecycle b = Failed ∧ snap_ip (snapshot b) = snap_ip (snapshot a).
Proof.
  intros Hs Hraw Hc Hl b. unfold b. cbn [dispatch]. clear b.
  assert (∃ d, link_down a = d ∧ lifecycle d = Degraded ∧ lease_of d = None ∧
    snap_ip (snapshot d) = snap_ip (snapshot a) ∧ snap_name (snapshot d) = snap_name (snapshot a))
    as (d & -> & Hd & Hdl & Hdi & Hdn).
  { eexists. split; [reflexivity|]. unfold link_down, lifecycle in *.
    cbn [disarm put_timers put_dhcp put_snapshot snapshot snap_state snap_with_link].
    rewrite Hc. unfold snapshot_transition. cbn [snap_with_link snap_state]. rewrite Hc.
    split_and!; done. }
  unfold link_up. set (u := put_snapshot d _).
  change (lifecycle u) with (lifecycle d). change (lease_of u) with (lease_of d). rewrite Hd, Hdl.
  destruct (full_dora_silent u) as (k & s & -> & Hcase).
  { unfold u. cbn [put_snapshot snapshot snap_with_link snap_name]. by rewrite Hdn. }
  set (c := disarm (set_state Configuring (dhcp_transition Init u))) in Hcase.
  assert (lifecycle c = Configuring ∧ snap_ip (snapshot c) = snap_ip (snapshot a) ∧
    snap_name (snapshot c) = snap_name (snapshot a)) as (Hcc & Hci & Hcn).
  { assert (∃ x, dhcp_transition Init u = put_snapshot u (snap_with_dhcp (snapshot u) x)) as [x Hx].
    { unfold dhcp_transition. destruct (snap_dhcp (snapshot u)) eqn:E; [destruct (transition _ _)|]; eexists; try done.
      all: instantiate (1 := snap_dhcp (snapshot u)); by destruct d as [[]]. }
    unfold c. rewrite Hx. unfold set_state, snapshot_transition.
    change (snap_state (snapshot (put_snapshot u (snap_with_dhcp (snapshot u) x)))) with (lifecycle d).
    rewrite Hd. split_and!; done. }
  destruct Hcase as [[_ Hno]|[-> _]].
  - rewrite Hcn in Hno. destruct (Hraw (ops c)) as [r Hr]. by rewrite Hr in Hno.
  - unfold set_state, snapshot_transition. unfold lifecycle in Hcc. rewrite Hcc. split; [done|exact Hci].
Qed.

(** A shut-down actor does not stop: its loop has no exit, the timers of
    its lease stay armed, and because the future of the closed command channel
    is ready once and polled again, the next time anything wakes the task it
    panics. *)
Theorem shutdown_ends_in_panic a (p : Polled) (polls : list Polled) :
  let b := dispatch Shutdown a in
  cmd_open b = false ∧ timers b = timers a ∧
  (polled_cmd p = Some None → first_ready b p = None → polls ≠ [] →
   actor_select b (p :: polls) = Panic).
Proof.
  intros b. split_and!; [done..|]. intros Hcmd Hf Hne. unfold actor_select. cbn [select_polls].
  rewrite Hf, Hcmd. destruct polls; [done|]. by rewrite bool_decide_eq_true_2 by (by eexists).
Qed.
End expiry.

(** ** A network to run the actor in

    The kernel is its clock; netlink requests succeed, broadcast sockets stay
    silent, and a unicast request is acknowledged. *)

#[export] Instance demo_ops : NetOps Z := {
  ensure_ipv4 k _ _ _ := (true, k);
  ensure_ipv6 k _ _ _ := (true, k);
  remove_ipv6 k _ _ := (true, k);
  ensure_default_route k _ := (true, k);
  ensure_default_route_v6 k _ := (true, k);
  remove_default_route_v6 k _ := (true, k);
  ensure_bridge k _ _ _ _ := (true, k);
  link_index k _ := (Some 9, k);
  ensure_up k _ := (Some 2, k);
  discover_ethernet k := (Some demo_interfaces, k);
  probe_carriers k pairs := (list_to_map ((λ i, (fst i, true)) <$> pairs), k)
}.

Definition demo_ack : list Z := ans_buf (demo_answer message_type.ACK).

#[export] Instance demo_connector : Connector Z := {
  create_raw k _ := (Some {| raw_send_ok := λ _, true; raw_inbox := [] |}, k);
  create_unicast k _ _ := (Some {| uni_send_ok := λ _, true; uni_reply := Some demo_ack |}, k);
  system_now k := (Z.max 5000 k, k);
  generate_xid k := (Some 7, k);
  open_icmpv6 k _ := (true, k)
}.

#[export] Instance demo_reliable : ReliableOps Z.
Proof. by split. Qed.

Definition demo_lease : Lease :=
  {| obtained_at := 100; lease_time := 3600; renewal_time := 1800; rebind_time := 3150;
     server_ip := [10; 0; 0; 1]; assigned_ip := [10; 0; 0; 5]; prefix_len := 24;
     gateway := Some [10; 0; 0; 1]; dns_servers := [] |}.

Definition demo_snapshot (s : Lifecycle) (l : option Lease) : Snapshot :=
  {| snap_name := ustr "eth0"; snap_state := s; snap_index := 2; snap_mac := [2; 0; 0; 0; 0; 1];
     snap_link := NetTypes.LinkUp; snap_ip := Some (Build_IpConfig [192; 168; 1; 2] 24 None []);
     snap_lease := l; snap_dhcp := match l with Some _ => Some Bound | None => None end;
     snap_ipv6 := None; l3_owner := ustr "eth0" |}.
Definition demo_config : Config := {| ipv6_enabled := true; config_dns := []; cfg_interfaces := [] |}.
Definition demo_actor (s : Lifecycle) (l : option Lease) : Actor :=
  fst (spawn (demo_snapshot s l) 5000 demo_config).

Definition nothing_polled (cmd : option (option Command)) : Polled :=
  {| polled_cmd := cmd; polled_dhcp := None; polled_slaac := None; polled_renew := false;
     polled_rebind := false; polled_expire := false |}.

Lemma actor_invariant_witness :
  let a := dispatch (ConfigureDhcp Provision) (demo_actor Discovered None) in
  lifecycle a = Configuring ∧ snap_state (watch_borrow (snapshot_tx a)) = lifecycle a.
Proof.
  intros a. split; [reflexivity|].
  assert (reachable (demo_snapshot Discovered None) a) as Hr.
  { exists 5000, demo_config. apply rtc_once.
    exact (actor_round (demo_actor Discovered None) 5000
      [nothing_polled (Some (Some (ConfigureDhcp Provision)))]
      (EvCommand (ConfigureDhcp Provision)) (demo_actor Discovered None) eq_refl). }
  apply (actor_invariant _ a Hr).
Defined.

Lemma renewal_commits_witness :
  ∃ l' msg, renew (λ _, true) (Some 7) [2; 0; 0; 0; 0; 1] [10; 0; 0; 1] [10; 0; 0; 5] (Some demo_ack) 5000
    = Ok (l', msg) ∧ lease_of (renew_lease (demo_actor Configured (Some demo_lease))) = Some l'.
Proof.
  destruct (renew (λ _, true) (Some 7) [2; 0; 0; 0; 0; 1] [10; 0; 0; 1] [10; 0; 0; 5] (Some demo_ack) 5000)
    as [[l' msg]|e|] eqn:E; [|vm_compute in E; discriminate E..].
  exists l', msg. split; [reflexivity|].
  destruct (renewal_commits (demo_actor Configured (Some demo_lease)) demo_lease l'
    {| uni_send_ok := λ _, true; uni_reply := Some demo_ack |} msg 5000 5000 5000 (Some 7) 5000) as [Hl _].
  - reflexivity.
  - reflexivity.
  - reflexivity.
  - reflexivity.
  - reflexivity.
  - exact E.
  - exact Hl.
Defined.

Lemma demo_silent name : silent Z name.
Proof. intros k socket k' [= <- _]. reflexivity. Qed.

Lemma expired_lease_kept_witness :
  lifecycle (fold_left (λ b k, dispatch (ConfigureDhcp Reconcile) (put_ops b k)) [5030; 5060]
    (on_expire (demo_actor Configured (Some demo_lease)))) = Configured.
Proof.
  apply (expired_lease_kept (demo_actor Configured (Some demo_lease)) demo_lease [5030; 5060]).
  - apply demo_silent.
  - reflexivity.
  - reflexivity.
  - cbn. lia.
  - cbn. lia.
  - cbn. lia.
  - cbn. lia.
  - intros k. cbn. lia.
Defined.

Lemma static_interface_fails_on_link_flap_witness :
  lifecycle (dispatch CmdLinkUp (dispatch CmdLinkDown (demo_actor Configured None))) = Failed.
Proof.
  apply (static_interface_fails_on_link_flap (demo_actor Configured None)).
  - apply demo_silent.
  - intros k. by eexists.
  - reflexivity.
  - reflexivity.
Defined.

Lemma shutdown_ends_in_panic_witness :
  actor_select (dispatch Shutdown (demo_actor Configured (Some demo_lease)))
    [nothing_polled (Some None); nothing_polled None] = Panic.
Proof.
  apply (shutdown_ends_in_panic (demo_actor Configured (Some demo_lease)) (nothing_polled (Some None))
    [nothing_polled None]).
  - reflexivity.
  - reflexivity.
  - discriminate.
Defined.

Lemma link_down_quiesces_witness :
  lifecycle (link_down (demo_actor Configured (Some demo_lease))) = Degraded ∧
  lease_of (link_down (demo_actor Configured (Some demo_lease))) = Some demo_lease.
Proof.
  destruct (link_down_quiesces (demo_actor Configured (Some demo_lease))) as (_ & _ & _ & Hl & _ & Hc & _).
  split; [exact Hc|exact Hl].
Defined.
