(* ===== verification/NetSuper.v ===== *)
(** The network supervisor (services/networkd/src/supervisor/mod.rs,
    discovery.rs, dispatch.rs, failover.rs, provision.rs, reconcile.rs,
    snapshot.rs and commands.rs beside it): its state, every handler, the
    choice of the next event and the loop as a step relation.

    An interface actor is seen through its handle: the commands queued for it
    and the channel of its snapshots. Between two handlers the environment may
    let actors take commands and publish. A handler that waits for an actor
    gets what the actor publishes meanwhile from the environment; a wait that
    never ends is a handler that does not return. *)

From stdpp Require Import gmap.
From S2P Require Import Prelude Utf Text NetFrame NetDhcp NetSlaac NetTypes NetDns NetActor.

(** ** State *)

Record NetworkSnapshot := {
  net_state : NetworkState;
  primary : option Name;
  backups : list Name;
  net_interfaces : list Snapshot
}.

Definition net_empty : NetworkSnapshot :=
  {| net_state := Uninitialized; primary := None; backups := []; net_interfaces := [] |}.

Inductive SupError :=
| BadTransition (t : InvalidTransition NetworkState)
| DiscoveryFailed
| NoEthernet
| NoCarrierFound
| EmptySelection
| NoPrimary
| InvalidName
| NotFound (name : Name)
| ActorGone
| NetlinkFailed
| BridgeRefused
(** no value of the code: the call waits for ever, and what follows it in the
    supervisor is never run *)
| NeverReturns.

(** Netlink link events ([netlib::monitor::Event]). *)
Inductive LinkEvent :=
| EvUp (name : Name) (index : Z)
| EvDown (name : Name) (index : Z)
| EvAdded (name : Name) (index : Z) (mac : list Z)
| EvDeleted (name : Name) (index : Z).

Section supervisor.
Context {W : Watch}.

(** The commands that wait in the channel, whether the actor still receives
    them, and the snapshot channel with the handle's receiver. *)
Record ActorHandle := {
  cmd_queue : list Command;
  cmd_alive : bool;
  state_chan : watch_chan Snapshot;
  state_rx : watch_rx
}.

Abbreviation handles :=
  (@gmap ustring (@list_eq_dec Z Z.eq_dec) (@list_countable Z Z.eq_dec Z_countable) ActorHandle).

(** [HashMap::values]: every entry once, in an order of its own. *)
Class HandleIter := {
  handle_values : handles → list (ustring * ActorHandle);
  handle_values_perm hs : handle_values hs ≡ₚ map_to_list hs
}.

(** [slice::partition_point]: a position of the slice, and the boundary when
    the predicate has one; unspecified otherwise. *)
Class PartitionPoint := {
  partition_point : (Name → bool) → list Name → nat;
  partition_point_le f l : (partition_point f l ≤ length l)%nat;
  partition_point_at f l1 l2 :
    Forall (λ x, f x = true) l1 → Forall (λ x, f x = false) l2 →
    partition_point f (l1 ++ l2) = length l1
}.

(** What actors do while a handler waits for them: the snapshots a port
    publishes, and whether it ends after them or lives on; and its answer to a
    bridge request, which may be refused (or dropped with the actor) or never
    come. *)
Inductive Answer := Answered (snap : Snapshot) | Refused | NoAnswer.
Class Waits (K : Type) := {
  await_port : K → Name → list Snapshot * bool * K;
  await_bridge : K → Name → Answer * K
}.

Context {K : Type} `{NetOps K, FileOps K, HandleIter, PartitionPoint, Waits K}.

Record Supervisor := {
  sup_ops : K;
  sup_config : Config;
  sup_state : NetworkSnapshot;
  sup_interfaces : handles;
  (** the values handed to the watch channel, the newest last *)
  sup_published : list NetworkSnapshot;
  sup_dns : Resolver
}.

Definition put_state (s : Supervisor) (n : NetworkSnapshot) : Supervisor :=
  {| sup_ops := sup_ops s; sup_config := sup_config s; sup_state := n; sup_interfaces := sup_interfaces s;
     sup_published := sup_published s; sup_dns := sup_dns s |}.
Definition put_handles (s : Supervisor) (hs : handles) : Supervisor :=
  {| sup_ops := sup_ops s; sup_config := sup_config s; sup_state := sup_state s; sup_interfaces := hs;
     sup_published := sup_published s; sup_dns := sup_dns s |}.
Definition put_kernel (s : Supervisor) (k : K) : Supervisor :=
  {| sup_ops := k; sup_config := sup_config s; sup_state := sup_state s; sup_interfaces := sup_interfaces s;
     sup_published := sup_published s; sup_dns := sup_dns s |}.
Definition put_dns (s : Supervisor) (r : Resolver) (k : K) : Supervisor :=
  {| sup_ops := k; sup_config := sup_config s; sup_state := sup_state s; sup_interfaces := sup_interfaces s;
     sup_published := sup_published s; sup_dns := r |}.

Definition net_with_state (n : NetworkSnapshot) (st : NetworkState) : NetworkSnapshot :=
  {| net_state := st; primary := primary n; backups := backups n; net_interfaces := net_interfaces n |}.
Definition net_with_roles (n : NetworkSnapshot) (p : option Name) (bs : list Name) : NetworkSnapshot :=
  {| net_state := net_state n; primary := p; backups := bs; net_interfaces := net_interfaces n |}.
Definition net_with_interfaces (n : NetworkSnapshot) (snaps : list Snapshot) : NetworkSnapshot :=
  {| net_state := net_state n; primary := primary n; backups := backups n; net_interfaces := snaps |}.

Abbreviation SM := (handler Supervisor SupError).

(** The outcome is only logged. *)
Definition logged {A} (m : SM A) (s : Supervisor) : Supervisor := snd (m s).

(** The same for a call that may wait: its error is logged and the code goes on,
    unless the call does not return. *)
Definition warned {A} (m : SM A) : SM () := λ s,
  match m s with
  | (Err NeverReturns, s) => (Err NeverReturns, s)
  | (_, s) => (Ok (), s)
  end.
Fixpoint for_each {A B} (f : A → SM B) (l : list A) : SM () :=
  match l with
  | [] => mret ()
  | x :: l => warned (f x);; for_each f l
  end.

(** [NetworkSnapshot::transition]. *)
Definition net_transition (next : NetworkState) : SM () := λ s,
  match transition (net_state (sup_state s)) next with
  | Ok st => (Ok (), put_state s (net_with_state (sup_state s) st))
  | Err e => (Err (BadTransition e), s)
  | Panic => (Panic, s)
  end.

Definition publish_state (s : Supervisor) : Supervisor :=
  {| sup_ops := sup_ops s; sup_config := sup_config s; sup_state := sup_state s;
     sup_interfaces := sup_interfaces s; sup_published := sup_published s ++ [sup_state s];
     sup_dns := sup_dns s |}.

Definition kernel_query {A} (f : K → option A * K) (e : SupError) : SM A := λ s,
  let '(r, k) := f (sup_ops s) in (ok_or r e, put_kernel s k).

(** ** Handles *)

Definition borrow (h : ActorHandle) : Snapshot := watch_borrow (state_chan h).

Definition enqueue (h : ActorHandle) (cmd : Command) : ActorHandle :=
  {| cmd_queue := cmd_queue h ++ [cmd]; cmd_alive := cmd_alive h; state_chan := state_chan h;
     state_rx := state_rx h |}.

(** [send_to_interface]: a closed channel is ignored. *)
Definition send_to_interface (name : Name) (cmd : Command) (s : Supervisor) : Supervisor :=
  match sup_interfaces s !! name with
  | Some h => if cmd_alive h then put_handles s (<[name := enqueue h cmd]> (sup_interfaces s)) else s
  | None => s
  end.

Definition spawn_interface_actor (snap : Snapshot) (s : Supervisor) : Supervisor :=
  let '(chan, rx) := watch_new snap in
  put_handles s (<[snap_name snap :=
    {| cmd_queue := []; cmd_alive := true; state_chan := chan; state_rx := rx |}]> (sup_interfaces s)).

(** ** Name servers (mod.rs) *)

Definition dns_or {A} (own : option (IpConfig A)) (fallback : list A) : list A :=
  match own with
  | Some c => match ip_dns c with [] => fallback | dns => dns end
  | None => fallback
  end.

Definition collect_dns (s : Supervisor) (h : ActorHandle) : list ipv4 * list ipv6 :=
  (dns_or (snap_ip (borrow h)) (config_ipv4_dns (sup_config s)),
   dns_or (snap_ipv6 (borrow h)) (config_ipv6_dns (sup_config s))).

Definition apply_dns (s4 : list ipv4) (s6 : list ipv6) (s : Supervisor) : Supervisor :=
  let '(_, r, k) := resolver_update (sup_dns s) (sup_ops s) s4 s6 in put_dns s r k.

Definition primary_handle (s : Supervisor) : option ActorHandle :=
  p ← primary (sup_state s); sup_interfaces s !! p.

Definition flush_dns (s : Supervisor) : Supervisor :=
  match primary_handle s with
  | None => s
  | Some h =>
      let '(s4, s6) := collect_dns s h in
      if is_unchanged (sup_dns s) s4 s6 then s else apply_dns s4 s6 s
  end.

Definition sync_and_publish (s : Supervisor) : Supervisor :=
  let s := put_state s (net_with_interfaces (sup_state s)
             ((λ x, borrow (snd x)) <$> handle_values (sup_interfaces s))) in
  publish_state (flush_dns s).

Definition get_primary_name (s : Supervisor) : option Name := primary (sup_state s).

(** ** Failover (failover.rs) *)

Definition is_primary_interface (s : Supervisor) (name : Name) : bool :=
  bool_decide (primary (sup_state s) = Some name).

Definition is_primary_failed (s : Supervisor) : bool :=
  match primary_handle s with
  | Some h => bool_decide (snap_state (borrow h) = Failed)
  | None => false
  end.

Definition is_interface_configured (s : Supervisor) (name : Name) : bool :=
  match sup_interfaces s !! name with
  | Some h => bool_decide (snap_state (borrow h) = Configured)
  | None => false
  end.

(** [if let Err(e) = transition {warn} else {publish}]. *)
Definition transition_and_publish (next : NetworkState) (s : Supervisor) : Supervisor :=
  match net_transition next s with
  | (Ok _, s) => publish_state s
  | (_, s) => s
  end.

Definition handle_primary_recovery (s : Supervisor) : Supervisor := transition_and_publish Operational s.

Definition set_roles (p : option Name) (bs : list Name) (s : Supervisor) : Supervisor :=
  put_state s (net_with_roles (sup_state s) p bs).

(** [Vec::retain(|n| n != name)]. *)
Definition without (name : Name) (l : list Name) : list Name := filter (λ n, n ≠ name) l.

Definition handle_backup_recovery (recovered : Name) (s : Supervisor) : Supervisor :=
  match primary (sup_state s) with
  | None => s
  | Some current =>
      if is_interface_configured s current then s
      else
        let bs := without recovered (backups (sup_state s)) ++ [current] in
        transition_and_publish Operational (set_roles (Some recovered) bs s)
  end.

Definition failover_target (s : Supervisor) : option Name :=
  match head (filter (λ b, is_interface_configured s b = true) (backups (sup_state s))) with
  | Some b => Some b
  | None => head (backups (sup_state s))
  end.

Definition try_failover_to_backup (failed : Name) (s : Supervisor) : Supervisor :=
  match failover_target s with
  | None => s
  | Some new_primary =>
      let bs := without new_primary (backups (sup_state s)) ++ [failed] in
      let s := set_roles (Some new_primary) bs s in
      let s := if is_interface_configured s new_primary then s
               else send_to_interface new_primary (ConfigureDhcp Provision) s in
      transition_and_publish Operational s
  end.

Definition handle_primary_failure (name : Name) (s : Supervisor) : Supervisor :=
  try_failover_to_backup name (transition_and_publish NetDegraded s).

Definition handle_primary_removed (s : Supervisor) : Supervisor :=
  match head (backups (sup_state s)) with
  | Some new_primary =>
      set_roles (Some new_primary) (without new_primary (backups (sup_state s))) s
  | None => logged (net_transition NetDegraded) (set_roles None (backups (sup_state s)) s)
  end.

(** ** Netlink events (dispatch.rs) *)

Definition on_link_up (name : Name) (s : Supervisor) : Supervisor :=
  let s := send_to_interface name CmdLinkUp s in
  if is_primary_interface s name then handle_primary_recovery s
  else if bool_decide (name ∈ backups (sup_state s)) then handle_backup_recovery name s
  else s.

Definition on_link_down (name : Name) (s : Supervisor) : Supervisor :=
  let s := send_to_interface name CmdLinkDown s in
  if is_primary_interface s name then handle_primary_failure name s else s.

Definition fresh_snapshot (name : Name) (index : Z) (mac : list Z) (link : LinkState) : Snapshot :=
  {| snap_name := name; snap_state := Discovered; snap_index := index; snap_mac := mac; snap_link := link;
     snap_ip := None; snap_lease := None; snap_dhcp := None; snap_ipv6 := None; l3_owner := name |}.

(** [str::cmp] is the order of the bytes. *)
Definition name_lt (a b : Name) : bool := negb (bool_decide (str_le b a)).

Definition insert_backup (name : Name) (bs : list Name) : list Name :=
  let pos := partition_point (λ existing, name_lt existing name) bs in
  take pos bs ++ name :: drop pos bs.

Definition on_link_added (name : Name) (index : Z) (mac : list Z) (s : Supervisor) : Supervisor :=
  match sup_interfaces s !! name with
  | Some _ => s
  | None =>
      let s := spawn_interface_actor (fresh_snapshot name index mac NetTypes.LinkUp) s in
      let s := match primary (sup_state s) with
               | None => set_roles (Some name) (backups (sup_state s)) s
               | Some p => set_roles (Some p) (insert_backup name (backups (sup_state s))) s
               end in
      sync_and_publish s
  end.

(** The removed actor is told to shut down; its handle is gone. *)
Definition on_link_deleted (name : Name) (s : Supervisor) : Supervisor :=
  match sup_interfaces s !! name with
  | None => s
  | Some _ =>
      let s := put_handles s (delete name (sup_interfaces s)) in
      let s := if is_primary_interface s name then handle_primary_removed s
               else set_roles (primary (sup_state s)) (without name (backups (sup_state s))) s in
      sync_and_publish s
  end.

Definition handle_link_event (e : LinkEvent) (s : Supervisor) : Supervisor :=
  match e with
  | EvUp name _ => on_link_up name s
  | EvDown name _ => on_link_down name s
  | EvAdded name index mac => on_link_added name index mac s
  | EvDeleted name _ => on_link_deleted name s
  end.

(** ** Discovery (discovery.rs) *)

Definition carrier_link_state (has : option bool) : LinkState :=
  match has with Some true => NetTypes.LinkUp | _ => NoCarrier end.

Definition with_carrier (carriers : gmap Z bool) (i : Ethernet) : Ethernet :=
  {| eth_name := eth_name i; eth_index := eth_index i; mac_address := mac_address i;
     link_state := carrier_link_state (carriers !! eth_index i) |}.

Definition spawn_interface_actors (found : list Ethernet) (s : Supervisor) : Supervisor :=
  fold_left (λ s i, spawn_interface_actor
    (fresh_snapshot (eth_name i) (eth_index i) (mac_address i) (link_state i)) s) found s.

Definition select_primary_interface (found : list Ethernet) : SM () :=
  p ← lift_option (select_primary found) EmptySelection;
  update (set_roles (Some (eth_name p)) (eth_name <$> select_backups found (eth_name p))).

(** The end of a discovery that found nothing to use. *)
Definition fail_discovery (e : SupError) : SM () :=
  net_transition NetDegraded;; update publish_state;; throw e.

Definition probe (pairs : list (Z * ustring)) : SM (gmap Z bool) := λ s,
  let '(r, k) := probe_carriers (sup_ops s) pairs in (Ok r, put_kernel s k).

Definition discover_interfaces : SM () :=
  net_transition Initializing;;
  update publish_state;;
  discovered ← kernel_query discover_ethernet DiscoveryFailed;
  if bool_decide (discovered = []) then fail_discovery NoEthernet
  else
    carriers ← probe ((λ i, (eth_index i, eth_name i)) <$> discovered);
    if negb (existsb id (snd <$> map_to_list carriers)) then fail_discovery NoCarrierFound
    else
      let discovered := with_carrier carriers <$> discovered in
      update (spawn_interface_actors discovered);;
      select_primary_interface discovered;;
      net_transition Operational;;
      update sync_and_publish.

(** ** Provisioning (provision.rs) *)

Definition resolve_name (name : ustring) : SM Name :=
  s ← get_state;
  p ← lift_option (get_primary_name s) NoPrimary;
  if bool_decide (name = ustr "auto") then mret p else lift_option (name_new name) InvalidName.

Definition get_handle (name : Name) : SM ActorHandle :=
  s ← get_state;
  lift_option (sup_interfaces s !! name) (NotFound name).

Definition send_command (name : Name) (cmd : Command) : SM () :=
  h ← get_handle name;
  if cmd_alive h
  then update (λ s, put_handles s (<[name := enqueue h cmd]> (sup_interfaces s)))
  else throw ActorGone.

Definition resolve_bridge_port (ports : list ustring) (p : Name) : ustring :=
  match ports with
  | port :: _ => if bool_decide (port = ustr "auto") then p else port
  | [] => p
  end.

Definition bridge_port_handle (cfg : BridgeConfig) : SM Name :=
  s ← get_state;
  p ← lift_option (get_primary_name s) NoPrimary;
  port ← lift_option (name_new (resolve_bridge_port (bridge_port cfg) p)) InvalidName;
  get_handle port;;
  mret port.

(** [wait_for_configured]: the loop sees what the port publishes, until it is
    configured. *)
Fixpoint publish_until_configured (chan : watch_chan Snapshot) (snaps : list Snapshot)
    : bool * watch_chan Snapshot :=
  if bool_decide (snap_state (watch_borrow chan) = Configured) then (true, chan)
  else match snaps with
       | [] => (false, chan)
       | snap :: snaps => publish_until_configured (watch_send chan snap) snaps
       end.

Definition with_chan (h : ActorHandle) (chan : watch_chan Snapshot) : ActorHandle :=
  {| cmd_queue := cmd_queue h; cmd_alive := cmd_alive h; state_chan := chan; state_rx := state_rx h |}.

Definition wait_for_configured (port : Name) : SM () :=
  h ← get_handle port;
  s ← get_state;
  let '(snaps, ended, k) := await_port (sup_ops s) port in
  let '(reached, chan) := publish_until_configured (state_chan h) snaps in
  update (λ s, put_kernel (put_handles s (<[port := with_chan h chan]> (sup_interfaces s))) k);;
  if reached then mret () else if ended : bool then throw ActorGone else throw NeverReturns.

Definition wait_for_bridge (port : Name) : SM Snapshot := λ s,
  let '(answer, k) := await_bridge (sup_ops s) port in
  (match answer with
   | Answered snap => Ok snap
   | Refused => Err BridgeRefused
   | NoAnswer => Err NeverReturns
   end, put_kernel s k).

Definition provision_bridge (bridge_name : ustring) (cfg : BridgeConfig) : SM () :=
  port ← bridge_port_handle cfg;
  wait_for_configured port;;
  send_command port (ConfigureBridge bridge_name (stp cfg));;
  snap ← wait_for_bridge port;
  update (spawn_interface_actor snap).

Definition provision_ipv6 (name : Name) (index : Z) (cfg : Ipv6InterfaceConfig) : SM () :=
  get_handle name;;
  s ← get_state;
  match cfg6_addresses cfg with
  | _ :: _ => send_command name (ConfigureStaticIpv6 Provision index (cfg6_addresses cfg) (cfg6_gateway cfg))
  | [] =>
      if autoconf cfg && ipv6_enabled (sup_config s) then send_command name (ConfigureSlaac Provision)
      else mret ()
  end.

Definition provision_ipv4 (name : Name) (index : Z) (cfg : option Ipv4InterfaceConfig) : SM () :=
  match cfg with
  | Some cfg =>
      if cfg_dhcp cfg then send_command name (ConfigureDhcp Provision)
      else match cfg_addresses cfg with
           | _ :: _ => send_command name
                         (ConfigureStaticIpv4 Provision index (cfg_addresses cfg) (cfg_gateway cfg))
           | [] => mret ()
           end
  | None => mret ()
  end.

Definition provision_ethernet (name : ustring) (cfg4 : option Ipv4InterfaceConfig)
    (cfg6 : option Ipv6InterfaceConfig) : SM () :=
  iface ← resolve_name name;
  get_handle iface;;
  index ← kernel_query (λ k, ensure_up k iface) NetlinkFailed;
  provision_ipv4 iface index cfg4;;
  match cfg6 with
  | Some cfg => provision_ipv6 iface index cfg
  | None => mret ()
  end.

Definition default_bridge (o : option BridgeConfig) : BridgeConfig :=
  default {| bridge_port := []; stp := false |} o.

Definition provision_one (cfg : InterfaceConfig) : SM () :=
  match kind cfg with
  | KindBridge => provision_bridge (cfg_name cfg) (default_bridge (cfg_bridge cfg))
  | KindEthernet => provision_ethernet (cfg_name cfg) (cfg_ipv4 cfg) (cfg_ipv6 cfg)
  end.

Definition provision_interfaces : SM () :=
  s ← get_state;
  for_each provision_one (cfg_interfaces (sup_config s)).

(** ** Reconciliation (reconcile.rs) *)

Inductive ReconcileDisposition := Applied | Skipped.

Definition is_bridge_owned (h : ActorHandle) : bool :=
  negb (bool_decide (l3_owner (borrow h) = snap_name (borrow h))).

Definition reconcile_ipv4 (name : Name) (index : Z) (cfg : Ipv4InterfaceConfig) : SM () :=
  get_handle name;;
  if cfg_dhcp cfg then send_command name (ConfigureDhcp Reconcile)
  else match cfg_addresses cfg with
       | _ :: _ => send_command name
                     (ConfigureStaticIpv4 Reconcile index (cfg_addresses cfg) (cfg_gateway cfg))
       | [] => mret ()
       end.

Definition reconcile_ipv6 (name : Name) (index : Z) (cfg : Ipv6InterfaceConfig) : SM () :=
  get_handle name;;
  s ← get_state;
  match cfg6_addresses cfg with
  | _ :: _ => send_command name (ConfigureStaticIpv6 Reconcile index (cfg6_addresses cfg) (cfg6_gateway cfg))
  | [] =>
      if autoconf cfg && ipv6_enabled (sup_config s) then send_command name (ConfigureSlaac Reconcile)
      else mret ()
  end.

Definition reconcile_ethernet (cfg : InterfaceConfig) : SM ReconcileDisposition :=
  iface ← resolve_name (cfg_name cfg);
  s ← get_state;
  match sup_interfaces s !! iface with
  | None => mret Skipped
  | Some h =>
      if is_bridge_owned h then mret Skipped
      else
        index ← kernel_query (λ k, ensure_up k iface) NetlinkFailed;
        match cfg_ipv4 cfg with
        | Some c => reconcile_ipv4 iface index c
        | None => mret ()
        end;;
        match cfg_ipv6 cfg with
        | Some c => reconcile_ipv6 iface index c
        | None => mret ()
        end;;
        mret Applied
  end.

Definition bridge_snapshot (name : Name) (cfg : BridgeConfig) : SM Snapshot :=
  h ← get_handle name;
  let snap := borrow h in
  port ← bridge_port_handle cfg;
  let gw := ip ← snap_ip snap; ip_gateway ip in
  kernel_query (λ k, let '(done_, k) := ensure_bridge k name port gw (stp cfg) in
    (if done_ then Some () else None, k)) NetlinkFailed;;
  index ← kernel_query (λ k, link_index k name) NetlinkFailed;
  mret {| snap_name := name; snap_state := Configured; snap_index := index; snap_mac := snap_mac snap;
          snap_link := NetTypes.LinkUp; snap_ip := snap_ip snap; snap_lease := snap_lease snap;
          snap_dhcp := snap_dhcp snap; snap_ipv6 := snap_ipv6 snap; l3_owner := name |}.

(** The old actor is told to shut down and replaced. *)
Definition respawn_actor (snap : Snapshot) (s : Supervisor) : Supervisor :=
  spawn_interface_actor snap (put_handles s (delete (snap_name snap) (sup_interfaces s))).

(** [None] when the port is not there or not ready. *)
Definition ready_bridge_port (cfg : BridgeConfig) (s : Supervisor) : option Name :=
  match bridge_port_handle cfg s with
  | (Ok port, s) =>
      match sup_interfaces s !! port with
      | Some h =>
          if bool_decide (snap_state (borrow h) = Configured) && bool_decide (is_Some (snap_lease (borrow h)))
          then Some port else None
      | None => None
      end
  | _ => None
  end.

Definition reconcile_bridge (cfg : InterfaceConfig) : SM ReconcileDisposition :=
  name ← lift_option (name_new (cfg_name cfg)) InvalidName;
  let bcfg := default_bridge (cfg_bridge cfg) in
  s ← get_state;
  if is_interface_configured s name then mret Skipped
  else match sup_interfaces s !! name with
       | Some _ => snap ← bridge_snapshot name bcfg; update (respawn_actor snap);; mret Applied
       | None =>
           match ready_bridge_port bcfg s with
           | None => mret Skipped
           | Some _ => provision_bridge name bcfg;; mret Applied
           end
       end.

Definition reconcile_one (cfg : InterfaceConfig) : SM ReconcileDisposition :=
  match kind cfg with
  | KindBridge => reconcile_bridge cfg
  | KindEthernet => reconcile_ethernet cfg
  end.

Definition reconcile_run : SM () :=
  s ← get_state;
  match net_state (sup_state s) with
  | Operational | NetReady =>
      for_each reconcile_one (cfg_interfaces (sup_config s));;
      update sync_and_publish
  | _ => mret ()
  end.

(** ** Initialization and the loop (mod.rs) *)

Definition supervisor_new (k : K) (c : Config) (r : Resolver) : Supervisor :=
  {| sup_ops := k; sup_config := c; sup_state := net_empty; sup_interfaces := ∅; sup_published := [];
     sup_dns := r |}.

(** [reset]: every actor is told to shut down and forgotten. *)
Definition reset (s : Supervisor) : Supervisor := put_state (put_handles s ∅) net_empty.

Definition initialize : SM () :=
  update reset;;
  discover_interfaces;;
  provision_interfaces;;
  net_transition NetReady;;
  update publish_state.

Inductive SupervisorCommand := CmdInitialize | CmdReconcile.

Definition handle_command (cmd : SupervisorCommand) : SM () :=
  match cmd with
  | CmdInitialize => warned initialize
  | CmdReconcile => reconcile_run
  end.

Definition maybe_failover_primary (s : Supervisor) : Supervisor :=
  if is_primary_failed s
  then match primary (sup_state s) with
       | Some p => handle_primary_failure p s
       | None => s
       end
  else s.

Inductive SupervisorEvent :=
| SupCommand (cmd : SupervisorCommand)
| SupNetlink (e : LinkEvent)
| PrimaryChanged
| ReconcileTick.

(** What the channels and the reconcile interval answer to a poll. *)
Record SupPolled := {
  sup_polled_cmd : option SupervisorCommand;
  sup_polled_event : option LinkEvent;
  sup_polled_tick : bool
}.

(** The primary's snapshot is watched through a clone of the handle's
    receiver, made anew for every round. *)
Definition primary_changed (s : Supervisor) : bool :=
  match primary_handle s with
  | Some h => bool_decide (is_Some (watch_changed (state_chan h) (watch_clone (state_rx h))))
  | None => false
  end.

Definition supervisor_select (s : Supervisor) (p : SupPolled) : option SupervisorEvent :=
  match sup_polled_cmd p with
  | Some cmd => Some (SupCommand cmd)
  | None =>
      match sup_polled_event p with
      | Some e => Some (SupNetlink e)
      | None =>
          if primary_changed s then Some PrimaryChanged
          else if sup_polled_tick p then Some ReconcileTick else None
      end
  end.

Definition handle_supervisor_event (e : SupervisorEvent) : SM () :=
  match e with
  | SupCommand cmd => handle_command cmd
  | SupNetlink e => update (handle_link_event e)
  | PrimaryChanged => update (λ s, flush_dns (maybe_failover_primary s))
  | ReconcileTick => reconcile_run
  end.

(** An actor of its own accord: it takes its oldest command, publishes a
    snapshot of its interface, or dies. *)
Inductive actor_move (h : ActorHandle) (name : Name) : ActorHandle → Prop :=
| move_take cmd rest :
    cmd_queue h = cmd :: rest →
    actor_move h name {| cmd_queue := rest; cmd_alive := cmd_alive h; state_chan := state_chan h;
                         state_rx := state_rx h |}
| move_publish snap :
    snap_name snap = name → actor_move h name (with_chan h (watch_send (state_chan h) snap))
| move_die :
    actor_move h name {| cmd_queue := []; cmd_alive := false; state_chan := state_chan h;
                         state_rx := state_rx h |}.

(** What happens around the supervisor. *)
Inductive env_step (s : Supervisor) : Supervisor → Prop :=
| step_actor name h h' :
    sup_interfaces s !! name = Some h → actor_move h name h' →
    env_step s (put_handles s (<[name := h']> (sup_interfaces s)))
| step_kernel k :
    env_step s (put_kernel s k).

Inductive sup_step (s : Supervisor) : Supervisor → Prop :=
| step_round p e t :
    supervisor_select s p = Some e → handle_supervisor_event e s = (Ok (), t) → sup_step s t
| step_env t : env_step s t → sup_step s t.

(** A round that does not end leaves the supervisor in the middle of it, and
    only its surroundings go on. *)
Inductive sup_reachable (c : Config) (r : Resolver) : Supervisor → Prop :=
| reached_loop k s :
    rtc sup_step (supervisor_new k c r) s → sup_reachable c r s
| reached_waiting k s p e t u :
    rtc sup_step (supervisor_new k c r) s → supervisor_select s p = Some e →
    handle_supervisor_event e s = (Err NeverReturns, t) → rtc env_step t u → sup_reachable c r u.

(** ** Initialization with retries *)

Definition retry_delay (base max_ : Z) (attempt : Z) : Z :=
  let multiplier := Z.shiftl 1 (Z.min (saturating_sub attempt 1) 5) in
  Z.min (base * multiplier) max_.

(** The attempts answer in turn; the delays slept in between. *)
Fixpoint initialize_with_retry (base max_ attempt : Z) (answers : list bool) : option (list Z) :=
  match answers with
  | [] => None
  | true :: _ => Some []
  | false :: answers =>
      cons (retry_delay base max_ attempt)
        <$> initialize_with_retry base max_ (saturating_add 32 attempt 1) answers
  end.
End supervisor.
