(* ===== verification/NetSuperInv.v ===== *)
(** Invariants and behaviour of the network supervisor: the roles of the
    interfaces in every reachable state, failover, initialization, name
    servers, and what its event loop serves. *)

From stdpp Require Import gmap.
From S2P Require Import Prelude Utf Text NetFrame NetDhcp NetSlaac NetTypes NetDns NetActor NetActorProps NetSuper.

(** Interface names are unique in the kernel. *)
Class DistinctNames (K : Type) `{NetOps K} : Prop :=
  distinct_names k l k' : discover_ethernet (K:=K) k = (Some l, k') → NoDup (eth_name <$> l).

Section roles.
Context {W : Watch} {WL : WatchLaws W}.
Context {K : Type} `{NetOps K, FileOps K, HandleIter (W:=W), PartitionPoint, Waits K}.
Implicit Types s t : @Supervisor W K.

(** The roles: the primary is a known interface and no backup; the backups are
    distinct known interfaces; without a primary there is no backup. *)
Record roles_ok s : Prop := {
  primary_known p : primary (sup_state s) = Some p → is_Some (sup_interfaces s !! p);
  backups_known b : b ∈ backups (sup_state s) → is_Some (sup_interfaces s !! b);
  backups_distinct : NoDup (backups (sup_state s));
  primary_no_backup p : primary (sup_state s) = Some p → p ∉ backups (sup_state s);
  no_primary_no_backups : primary (sup_state s) = None → backups (sup_state s) = []
}.

(** Operations that assign no role and forget no interface. *)
Record calm s t : Prop := {
  calm_roles : primary (sup_state t) = primary (sup_state s) ∧ backups (sup_state t) = backups (sup_state s);
  calm_known n : is_Some (sup_interfaces s !! n) → is_Some (sup_interfaces t !! n);
  calm_config : sup_config t = sup_config s
}.

#[global] Instance calm_refl : Reflexive calm.
Proof. intros s. by split. Qed.
#[global] Instance calm_trans : Transitive calm.
Proof. intros s t u [[E1 E2] K1 C1] [[F1 F2] K2 C2]. split; [split; congruence|auto|congruence]. Qed.

#[global] Instance calm_preorder : PreOrder calm.
Proof. split; apply _. Qed.

Lemma calm_roles_ok s t : calm s t → roles_ok s → roles_ok t.
Proof.
  intros [[Hp Hb] Hk _] [R1 R2 R3 R4 R5]. split; rewrite ?Hp, ?Hb; auto.
Qed.

Lemma calm_kernel s k : calm s (put_kernel s k).
Proof. by split. Qed.
Lemma calm_publish s : calm s (publish_state s).
Proof. by split. Qed.
Lemma calm_put_dns s r k : calm s (put_dns s r k).
Proof. by split. Qed.
Lemma calm_handles s hs :
  (∀ n, is_Some (sup_interfaces s !! n) → is_Some (hs !! n)) → calm s (put_handles s hs).
Proof. by split. Qed.
Lemma calm_insert s n h : calm s (put_handles s (<[n := h]> (sup_interfaces s))).
Proof.
  apply calm_handles. intros m Hm. destruct (decide (m = n)) as [->|Hne].
  - rewrite lookup_insert_eq. by eexists.
  - by rewrite lookup_insert_ne.
Qed.
Lemma calm_spawn snap s : calm s (spawn_interface_actor snap s).
Proof. unfold spawn_interface_actor. destruct (watch_new snap). apply calm_insert. Qed.
Lemma calm_send n cmd s : calm s (send_to_interface n cmd s).
Proof.
  unfold send_to_interface. destruct (sup_interfaces s !! n) as [h|]; [|done].
  destruct (cmd_alive h); [apply calm_insert|done].
Qed.
Lemma calm_apply_dns d4 d6 s : calm s (apply_dns d4 d6 s).
Proof. unfold apply_dns. destruct (resolver_update _ _ _ _) as [[? r] k]. apply calm_put_dns. Qed.
Lemma calm_flush s : calm s (flush_dns s).
Proof.
  unfold flush_dns. destruct (primary_handle s) as [h|]; [|done].
  destruct (collect_dns s h) as [d4 d6]. destruct (is_unchanged _ _ _); [done|apply calm_apply_dns].
Qed.
Lemma calm_sync s : calm s (sync_and_publish s).
Proof.
  unfold sync_and_publish. set (t := put_state s _). assert (calm s t) by by split.
  etrans; [eassumption|]. etrans; [apply calm_flush|apply calm_publish].
Qed.
Lemma calm_respawn snap s : calm s (respawn_actor snap s).
Proof.
  unfold respawn_actor, spawn_interface_actor. destruct (watch_new snap).
  cbn [put_handles sup_interfaces sup_state sup_ops sup_config sup_published sup_dns].
  split; [done| |done]. intros m Hm. cbn [put_handles sup_interfaces].
  destruct (decide (m = snap_name snap)) as [->|Hne]; [rewrite lookup_insert_eq; by eexists|].
  by rewrite lookup_insert_ne, lookup_delete_ne.
Qed.

(** ** Failing operations *)

Lemma calmly_query {A} (f : K → option A * K) e : respects calm (kernel_query f e).
Proof. intros s. unfold kernel_query. destruct (f (sup_ops s)). apply calm_kernel. Qed.
Lemma calmly_transition next : respects calm (net_transition next).
Proof. intros s. unfold net_transition. destruct (transition _ _); by split. Qed.
Lemma calmly_probe pairs : respects calm (probe pairs).
Proof. intros s. unfold probe. destruct (probe_carriers _ _). apply calm_kernel. Qed.
Lemma calm_logged {A} (m : handler _ _ A) s : respects calm m → calm s (logged m s).
Proof. intros Hm. apply Hm. Qed.
Lemma warned_state {A} (m : handler (@Supervisor W K) SupError A) s : snd (warned m s) = snd (m s).
Proof. unfold warned. by destruct (m s) as [[x|[]|] t]. Qed.
End roles.

Abbreviation calmly := (respects calm).
Ltac calmly_step :=
  match goal with
  | |- respects _ (kernel_query _ _) => apply calmly_query
  | |- respects _ (net_transition _) => apply calmly_transition
  | |- respects _ (probe _) => apply calmly_probe
  | |- calm _ (put_handles _ (<[_ := _]> _)) => apply calm_insert
  | |- calm _ (spawn_interface_actor _ _) => apply calm_spawn
  | |- calm _ (respawn_actor _ _) => apply calm_respawn
  | |- calm _ (publish_state _) => apply calm_publish
  | |- calm _ (sync_and_publish _) => apply calm_sync
  | _ => respects_step
  end.
Ltac calmly_steps := repeat (calmly_step; cbv beta).

Section handlers.
Context {W : Watch} {WL : WatchLaws W}.
Context {K : Type} `{NetOps K, FileOps K, HandleIter (W:=W), PartitionPoint, Waits K}.
Implicit Types s t : @Supervisor W K.

Lemma calmly_get_handle n : calmly (get_handle (K:=K) (W:=W) n).
Proof. unfold get_handle. calmly_steps. Qed.
Lemma calmly_send_command n cmd : calmly (send_command (K:=K) (W:=W) n cmd).
Proof. unfold send_command. rbind; [apply calmly_get_handle|intro h]. calmly_steps. Qed.
Lemma calmly_bridge_port cfg : calmly (bridge_port_handle (K:=K) (W:=W) cfg).
Proof.
  unfold bridge_port_handle. calmly_steps. apply calmly_get_handle.
Qed.
Lemma calmly_resolve n : calmly (resolve_name (K:=K) (W:=W) n).
Proof. unfold resolve_name. calmly_steps. Qed.

Lemma calmly_wait port : calmly (wait_for_configured (K:=K) (W:=W) port).
Proof.
  unfold wait_for_configured. rbind; [apply calmly_get_handle|intro h].
  apply respects_get. intro s. destruct (await_port _ _) as [[snaps ended] k].
  destruct (publish_until_configured _ _) as [reached chan].
  rbind; [|intros _; destruct reached, ended; calmly_steps].
  apply respects_update. intros t. etrans; [apply calm_insert|apply calm_kernel].
Qed.

Lemma calmly_provision_bridge n cfg : calmly (provision_bridge (K:=K) (W:=W) n cfg).
Proof.
  unfold provision_bridge. rbind; [apply calmly_bridge_port|intro port].
  rbind; [apply calmly_wait|intros _].
  rbind; [apply calmly_send_command|intros _].
  rbind; [|intro snap; calmly_steps].
  intros s. unfold wait_for_bridge. destruct (await_bridge _ _). apply calm_kernel.
Qed.

Lemma calmly_provision_one cfg : calmly (provision_one (K:=K) (W:=W) cfg).
Proof.
  unfold provision_one. destruct (kind cfg); [apply calmly_provision_bridge|].
  unfold provision_ethernet, provision_ipv4, provision_ipv6.
  rbind; [apply calmly_resolve|intro iface].
  rbind; [apply calmly_get_handle|intros _].
  calmly_steps; first [apply calmly_send_command|apply calmly_get_handle].
Qed.

Lemma calm_fold {A} (f : @Supervisor W K → A → @Supervisor W K) l s :
  (∀ s x, calm s (f s x)) → calm s (fold_left f l s).
Proof.
  intros Hf. revert s. induction l as [|x l IH]; intros s; cbn [fold_left]; [done|].
  etrans; [apply Hf|apply IH].
Qed.

Lemma calmly_for_each {A B} (f : A → handler _ _ B) l : (∀ x, calmly (f x)) → calmly (for_each (K:=K) (W:=W) f l).
Proof.
  intros Hf. induction l as [|x l IH]; cbn [for_each]; [refine (respects_ret _ _)|].
  rbind; [|intros _; exact IH]. intros s. rewrite warned_state. apply Hf.
Qed.
Lemma calmly_provision : calmly (provision_interfaces (K:=K) (W:=W)).
Proof. apply respects_get. intro s. apply calmly_for_each. intros cfg. apply calmly_provision_one. Qed.

Lemma calmly_reconcile_one cfg : calmly (reconcile_one (K:=K) (W:=W) cfg).
Proof.
  unfold reconcile_one. destruct (kind cfg).
  - unfold reconcile_bridge. rbind; [refine (respects_option _ _ _)|intro n].
    apply respects_get. intro s. destruct (is_interface_configured s n); [refine (respects_ret _ _)|].
    destruct (sup_interfaces s !! n).
    + unfold bridge_snapshot. rbind; [|intro snap; calmly_steps].
      rbind; [apply calmly_get_handle|intro h].
      rbind; [apply calmly_bridge_port|intro port]. calmly_steps.
    + destruct (ready_bridge_port _ _); [|refine (respects_ret _ _)].
      rbind; [apply calmly_provision_bridge|intros _; refine (respects_ret _ _)].
  - unfold reconcile_ethernet, reconcile_ipv4, reconcile_ipv6.
    rbind; [apply calmly_resolve|intro iface].
    apply respects_get. intro s. destruct (sup_interfaces s !! iface); [|refine (respects_ret _ _)].
    destruct (is_bridge_owned _); [refine (respects_ret _ _)|].
    calmly_steps; first [apply calmly_send_command|apply calmly_get_handle].
Qed.

Lemma calmly_reconcile : calmly (reconcile_run (K:=K) (W:=W)).
Proof.
  assert (∀ l, calmly (for_each (K:=K) (W:=W) reconcile_one l;; update sync_and_publish)) as Hl.
  { intros l. rbind; [apply calmly_for_each, calmly_reconcile_one|intros _]; calmly_steps. }
  apply respects_get. intro s. destruct (net_state _); first [apply Hl|apply (respects_ret _ _)].
Qed.

Lemma calm_transition_publish next s : calm s (transition_and_publish next s).
Proof.
  unfold transition_and_publish. pose proof (calmly_transition next s) as Ht.
  destruct (net_transition next s) as [[x|e|] t]; cbn [snd] in Ht; [|done..].
  etrans; [exact Ht|apply calm_publish].
Qed.
End handlers.

Section role_changes.
Context {W : Watch} {WL : WatchLaws W}.
Context {K : Type} `{NetOps K, FileOps K, HandleIter (W:=W), PartitionPoint, Waits K}.
Implicit Types s t : @Supervisor W K.

Lemma elem_of_without (n x : Name) l : x ∈ without n l ↔ x ∈ l ∧ x ≠ n.
Proof. unfold without. rewrite list_elem_of_filter. tauto. Qed.
Lemma NoDup_without (n : Name) l : NoDup l → NoDup (without n l).
Proof. apply NoDup_filter. Qed.
Lemma without_absent (n : Name) l : n ∉ l → without n l = l.
Proof. intros Hn. apply filter_id. apply Forall_forall. by intros x Hx ->. Qed.

Lemma set_roles_ok p bs s :
  is_Some (sup_interfaces s !! p) → (∀ b, b ∈ bs → is_Some (sup_interfaces s !! b)) →
  NoDup bs → p ∉ bs → roles_ok (set_roles (Some p) bs s).
Proof. intros Hp Hbs Hnd Hni. by split; cbn; [intros q [= <-]| | |intros q [= <-]|]. Qed.

(** A backup takes over from the primary. *)
Lemma swap_roles_ok s p b :
  roles_ok s → primary (sup_state s) = Some p → b ∈ backups (sup_state s) →
  roles_ok (set_roles (Some b) (without b (backups (sup_state s)) ++ [p]) s).
Proof.
  intros [R1 R2 R3 R4 _] Hp Hb. assert (p ∉ backups (sup_state s)) as Hpb by by apply R4.
  apply set_roles_ok; [by apply R2| | |].
  - intros x [Hx|Hx]%elem_of_app; [apply elem_of_without in Hx as [Hx _]; by apply R2|].
    apply list_elem_of_singleton in Hx as ->. by apply R1.
  - apply NoDup_app. split_and!; [by apply NoDup_without| |apply NoDup_singleton].
    intros x Hx Hx'. apply list_elem_of_singleton in Hx' as ->. apply elem_of_without in Hx as [Hx _]. done.
  - rewrite elem_of_app, elem_of_without, list_elem_of_singleton. intros [[_ Hne]|E]; [done|]. by subst b.
Qed.

Lemma backup_recovery_ok n s :
  roles_ok s → n ∈ backups (sup_state s) → roles_ok (handle_backup_recovery n s).
Proof.
  intros Hr Hn. unfold handle_backup_recovery. destruct (primary (sup_state s)) as [p|] eqn:Hp; [|done].
  destruct (is_interface_configured s p); [done|].
  eapply calm_roles_ok; [apply calm_transition_publish|]. by apply swap_roles_ok.
Qed.

Lemma failover_target_backup s b : failover_target s = Some b → b ∈ backups (sup_state s).
Proof.
  unfold failover_target. destruct (head (filter _ _)) as [x|] eqn:Hh.
  - intros [= <-]. apply head_Some_elem_of in Hh. by apply list_elem_of_filter in Hh as [_ Hh].
  - apply head_Some_elem_of.
Qed.

Lemma failover_ok p s :
  roles_ok s → primary (sup_state s) = Some p → roles_ok (try_failover_to_backup p s).
Proof.
  intros Hr Hp. unfold try_failover_to_backup. destruct (failover_target s) as [b|] eqn:Hb; [|done].
  apply failover_target_backup in Hb.
  set (t := set_roles _ _ s). assert (roles_ok t) as Ht by by apply swap_roles_ok.
  eapply calm_roles_ok; [apply calm_transition_publish|].
  destruct (is_interface_configured t b); [done|]. eapply calm_roles_ok; [apply calm_send|done].
Qed.

Lemma primary_failure_ok p s :
  roles_ok s → primary (sup_state s) = Some p → roles_ok (handle_primary_failure p s).
Proof.
  intros Hr Hp. unfold handle_primary_failure.
  pose proof (calm_transition_publish NetDegraded s) as Hc.
  apply failover_ok; [by eapply calm_roles_ok|]. by rewrite (proj1 (calm_roles _ _ Hc)).
Qed.

Lemma link_up_ok n s : roles_ok s → roles_ok (on_link_up n s).
Proof.
  intros Hr. unfold on_link_up. set (t := send_to_interface _ _ s).
  assert (roles_ok t) as Ht by (eapply calm_roles_ok; [apply calm_send|done]).
  destruct (is_primary_interface t n); [eapply calm_roles_ok; [apply calm_transition_publish|done]|].
  case_bool_decide; [by apply backup_recovery_ok|done].
Qed.

Lemma link_down_ok n s : roles_ok s → roles_ok (on_link_down n s).
Proof.
  intros Hr. unfold on_link_down. set (t := send_to_interface _ _ s).
  assert (roles_ok t) as Ht by (eapply calm_roles_ok; [apply calm_send|done]).
  unfold is_primary_interface. case_bool_decide; [by apply primary_failure_ok|done].
Qed.

Lemma insert_backup_perm n bs : insert_backup n bs ≡ₚ n :: bs.
Proof.
  unfold insert_backup. set (pos := partition_point _ _).
  rewrite <-Permutation_middle. by rewrite take_drop.
Qed.

Lemma link_added_ok n index mac s : roles_ok s → roles_ok (on_link_added n index mac s).
Proof.
  intros Hr. unfold on_link_added. destruct (sup_interfaces s !! n) eqn:Hn; [done|].
  set (snap := fresh_snapshot n index mac _). set (t := spawn_interface_actor snap s).
  assert (calm s t) as Hc by apply calm_spawn.
  assert (is_Some (sup_interfaces t !! n)) as Hk.
  { unfold t, spawn_interface_actor. destruct (watch_new snap). cbn [put_handles sup_interfaces].
    rewrite lookup_insert_eq. by eexists. }
  destruct (calm_roles_ok _ _ Hc Hr) as [R1 R2 R3 R4 R5].
  assert (n ∉ backups (sup_state t) ∧ primary (sup_state t) ≠ Some n) as [Hnb Hnp].
  { destruct Hr as [Q1 Q2 _ _ _]. destruct (calm_roles _ _ Hc) as [-> ->].
    split; intros Hx; [apply Q2 in Hx|apply Q1 in Hx]; rewrite Hn in Hx; by apply is_Some_None in Hx. }
  eapply calm_roles_ok; [apply calm_sync|]. destruct (primary (sup_state t)) as [p|] eqn:Hp.
  - apply set_roles_ok.
    + by apply R1.
    + intros b. rewrite insert_backup_perm, elem_of_cons. intros [->|Hb]; [done|by apply R2].
    + rewrite insert_backup_perm. by apply NoDup_cons.
    + rewrite insert_backup_perm, elem_of_cons. intros [->|Hb]; [done|]. by apply (R4 p).
  - apply set_roles_ok; [done|done|done|done].
Qed.

Lemma link_deleted_ok n s : roles_ok s → roles_ok (on_link_deleted n s).
Proof.
  intros [R1 R2 R3 R4 R5]. unfold on_link_deleted. destruct (sup_interfaces s !! n) as [h|] eqn:Hn; [|by split].
  set (t := put_handles s _).
  assert (∀ x, is_Some (sup_interfaces s !! x) → x ≠ n → is_Some (sup_interfaces t !! x)) as Hk.
  { intros x Hx Hne. unfold t. cbn [put_handles sup_interfaces]. by rewrite lookup_delete_ne. }
  eapply calm_roles_ok; [apply calm_sync|]. unfold is_primary_interface. case_bool_decide as Hp.
  - change (sup_state t) with (sup_state s) in *. unfold handle_primary_removed.
    change (sup_state t) with (sup_state s).
    assert (n ∉ backups (sup_state s)) as Hnb by by apply R4.
    destruct (backups (sup_state s)) as [|b bs] eqn:Hb; cbn [head].
    + eapply calm_roles_ok; [apply calm_logged, calmly_transition|]. split; cbn; [done| |constructor|done|done].
      intros b Hb'. by apply elem_of_nil in Hb'.
    + apply NoDup_cons in R3 as [Hbb Hnd].
      assert (without b (b :: bs) = bs) as ->.
      { unfold without. rewrite filter_cons_False by naive_solver. by apply without_absent. }
      apply set_roles_ok; [| |done|done].
      * apply Hk; [apply R2, list_elem_of_here|]. intros ->. apply Hnb, list_elem_of_here.
      * intros x Hx. apply Hk; [by apply R2, list_elem_of_further|]. intros ->. by apply Hnb, list_elem_of_further.
  - change (sup_state t) with (sup_state s) in *. split; cbn.
    + intros p Hp'. apply Hk; [by apply R1|]. intros ->. done.
    + intros b [Hb Hne]%elem_of_without. apply Hk; [by apply R2|done].
    + by apply NoDup_without.
    + intros p Hp' [Hb _]%elem_of_without. by apply (R4 p).
    + intros Hnp. by rewrite (R5 Hnp).
Qed.

(** ** Discovery *)

Lemma spawn_all_known l s x :
  x ∈ eth_name <$> l → is_Some (sup_interfaces (spawn_interface_actors l s) !! x).
Proof.
  unfold spawn_interface_actors. revert s. induction l as [|i l IH]; intros s; cbn [fmap list_fmap fold_left].
  { by intros Hx%elem_of_nil. }
  rewrite elem_of_cons. intros [->|Hx]; [|by apply IH].
  set (t := spawn_interface_actor _ s).
  assert (is_Some (sup_interfaces t !! eth_name i)) as Ht.
  { unfold t, spawn_interface_actor. destruct (watch_new _). cbn [put_handles sup_interfaces fresh_snapshot snap_name].
    rewrite lookup_insert_eq. by eexists. }
  assert (calm t (fold_left (λ s j, spawn_interface_actor
    (fresh_snapshot (eth_name j) (eth_index j) (mac_address j) (link_state j)) s) l t)) as Hc.
  { apply calm_fold. intros u j. apply calm_spawn. }
  by apply (calm_known _ _ Hc).
Qed.

Lemma with_carrier_names cs (l : list Ethernet) : eth_name <$> (with_carrier cs <$> l) = eth_name <$> l.
Proof. rewrite <-list_fmap_compose. by apply list_fmap_ext. Qed.

Lemma selected_roles_ok l p s :
  NoDup (eth_name <$> l) → select_primary l = Some p →
  (∀ x, x ∈ eth_name <$> l → is_Some (sup_interfaces s !! x)) →
  roles_ok (set_roles (Some (eth_name p)) (eth_name <$> select_backups l (eth_name p)) s).
Proof.
  intros Hnd Hp Hk. destruct (select_primary_spec l p Hp) as [Hin _].
  destruct (select_backups_spec l p Hnd Hin) as [Hperm _].
  assert (eth_name p :: (eth_name <$> select_backups l (eth_name p)) ≡ₚ eth_name <$> l) as Hn.
  { exact (fmap_Permutation eth_name _ _ Hperm). }
  rewrite <-Hn in Hnd. apply NoDup_cons in Hnd as [Hni Hnd].
  apply set_roles_ok; [| |done|done].
  - apply Hk. rewrite <-Hn. apply list_elem_of_here.
  - intros b Hb. apply Hk. rewrite <-Hn. by apply list_elem_of_further.
Qed.
End role_changes.

Section reachable_roles.
Context {W : Watch} {WL : WatchLaws W}.
Context {K : Type} `{NetOps K, FileOps K, HandleIter (W:=W), PartitionPoint, Waits K}.
Context {DN : DistinctNames K}.
Implicit Types s t : @Supervisor W K.

Definition role_safe {A} (m : handler (@Supervisor W K) SupError A) : Prop :=
  ∀ s, roles_ok s → roles_ok (snd (m s)).

Lemma role_safe_calmly {A} (m : handler _ _ A) : calmly m → role_safe m.
Proof. intros Hm s. apply calm_roles_ok, Hm. Qed.
Lemma role_safe_bind {A B} (m : handler _ _ A) (f : A → handler _ _ B) :
  role_safe m → (∀ x, role_safe (f x)) → role_safe (m ≫= f).
Proof.
  intros Hm Hf s Hs. specialize (Hm s Hs). unfold mbind, handler_bind.
  destruct (m s) as [[x|e|] t]; cbn [snd] in Hm |- *; [by apply Hf|done..].
Qed.

Lemma discover_role_safe : role_safe (discover_interfaces (K:=K) (W:=W)).
Proof.
  unfold discover_interfaces.
  apply role_safe_bind; [apply role_safe_calmly, calmly_transition|intros _].
  apply role_safe_bind; [apply role_safe_calmly; calmly_steps|intros _].
  intros s Hs. unfold mbind, handler_bind at 1, kernel_query.
  destruct (discover_ethernet (sup_ops s)) as [[l|] k] eqn:Hd; cbn [ok_or];
    [|eapply calm_roles_ok; [apply calm_kernel|done]].
  assert (roles_ok (put_kernel s k)) as Hk by (eapply calm_roles_ok; [apply calm_kernel|done]).
  case_bool_decide.
  { revert Hk. generalize (put_kernel s k). apply role_safe_calmly. unfold fail_discovery. calmly_steps. }
  revert Hk. generalize (put_kernel s k).
  apply role_safe_bind; [apply role_safe_calmly, calmly_probe|intros cs].
  destruct (negb _). { apply role_safe_calmly. unfold fail_discovery. calmly_steps. }
  set (found := with_carrier cs <$> l).
  assert (NoDup (eth_name <$> found)) as Hnd.
  { unfold found. rewrite with_carrier_names. by eapply distinct_names. }
  intros t Ht. unfold mbind, handler_bind, update, select_primary_interface, lift_option.
  set (u := spawn_interface_actors found t).
  assert (roles_ok u) as Hu.
  { eapply calm_roles_ok; [|exact Ht]. apply calm_fold. intros x i. apply calm_spawn. }
  destruct (select_primary found) as [p|] eqn:Hp; cbn [ok_or]; [|done].
  set (v := set_roles (Some (eth_name p)) (eth_name <$> select_backups found (eth_name p)) u).
  assert (roles_ok v) as Hv.
  { apply selected_roles_ok; [done..|]. intros x Hx. by apply spawn_all_known. }
  pose proof (calmly_transition Operational v) as Hc.
  change (((λ s0, (Ok p, s0)) ≫= ?f) u) with (f p u). unfold update. fold v.
  destruct (net_transition Operational v) as [[x|e|] w]; cbn [snd] in Hc |- *;
    [|by eapply calm_roles_ok..].
  eapply calm_roles_ok; [apply calm_sync|]. by eapply calm_roles_ok.
Qed.

Lemma initialize_ok s : roles_ok (snd (initialize (K:=K) (W:=W) s)).
Proof.
  unfold initialize. cbn [mbind handler_bind update].
  assert (roles_ok (reset s)) as Hr.
  { split; cbn; [done| |constructor|done|done]. by intros b Hb%elem_of_nil. }
  match goal with |- roles_ok (snd ((_ ≫= ?f) s)) =>
    assert (∀ x, role_safe (f x)) as Hf; [|exact (Hf () (reset s) Hr)] end.
  intros _. apply role_safe_bind; [apply discover_role_safe|intros _].
  apply role_safe_calmly. rbind; [apply calmly_provision|intros _].
  calmly_steps.
Qed.

Lemma event_ok e : role_safe (handle_supervisor_event (K:=K) (W:=W) e).
Proof.
  intros s Hs. destruct e as [[]|[]| |]; cbn [handle_supervisor_event handle_command handle_link_event update snd].
  - rewrite warned_state. apply initialize_ok.
  - eapply calm_roles_ok; [apply calmly_reconcile|done].
  - by apply link_up_ok.
  - by apply link_down_ok.
  - by apply link_added_ok.
  - by apply link_deleted_ok.
  - eapply calm_roles_ok; [apply calm_flush|]. unfold maybe_failover_primary.
    destruct (is_primary_failed s); [|done]. destruct (primary (sup_state s)) as [q|] eqn:Hq; [|done].
    by apply primary_failure_ok.
  - eapply calm_roles_ok; [apply calmly_reconcile|done].
Qed.

Lemma env_step_ok s t : env_step s t → roles_ok s → roles_ok t.
Proof. intros [n h h' Hh Hm|k] Hs; (eapply calm_roles_ok; [|done]); [apply calm_insert|apply calm_kernel]. Qed.

Lemma sup_step_ok s t : sup_step s t → roles_ok s → roles_ok t.
Proof.
  intros [p e t' Hsel E|t' He] Hs; [|by eapply env_step_ok].
  pose proof (event_ok e s Hs) as He. by rewrite E in He.
Qed.

Lemma steps_ok {R : relation (@Supervisor W K)} s t :
  (∀ x y, R x y → roles_ok x → roles_ok y) → rtc R s t → roles_ok s → roles_ok t.
Proof. intros HR. induction 1 as [x|x y z Hxy _ IH]; [done|]. intros Hx. by apply IH, (HR x). Qed.

(** C13: In every state the network supervisor reaches, whatever links appear,
    fail and vanish and whatever the actors publish: the primary is a known
    interface and none of the backups, the backups are distinct known
    interfaces, and there are backups only behind a primary. *)
Theorem roles_invariant (c : Config) (r : Resolver) s :
  sup_reachable c r s →
  (∀ p, primary (sup_state s) = Some p →
     is_Some (sup_interfaces s !! p) ∧ p ∉ backups (sup_state s)) ∧
  (∀ b, b ∈ backups (sup_state s) → is_Some (sup_interfaces s !! b)) ∧
  NoDup (backups (sup_state s)) ∧
  (primary (sup_state s) = None → backups (sup_state s) = []).
Proof.
  assert (∀ k s, rtc sup_step (supervisor_new (W:=W) k c r) s → roles_ok s) as Hloop.
  { intros k t Ht. apply (steps_ok _ t sup_step_ok Ht).
    split; cbn; [done| |constructor|done|done]. by intros b Hb%elem_of_nil. }
  intros Hr. assert (roles_ok s) as [R1 R2 R3 R4 R5].
  { destruct Hr as [k s Hs|k s p e t u Hs _ E Hu]; [by eapply Hloop|].
    apply (steps_ok _ u env_step_ok Hu). pose proof (event_ok e s (Hloop k s Hs)) as He. by rewrite E in He. }
  split_and!; eauto.
Qed.
End reachable_roles.
