(* ===== verification/NetSuperProps.v ===== *)
(** What the network supervisor does: failover, initialization and its
    retries, name servers, and the order in which its loop serves events. *)

From stdpp Require Import gmap.
From S2P Require Import Prelude Utf Text NetFrame NetDhcp NetSlaac NetTypes NetDns NetActor NetActorProps NetSuper NetSuperInv.

Section behaviour.
Context {W : Watch} {WL : WatchLaws W}.
Context {K : Type} `{NetOps K, FileOps K, HandleIter (W:=W), PartitionPoint, Waits K}.
Implicit Types s t : @Supervisor W K.

(** The commands that wait for an interface. *)
Definition queue_of s (n : Name) : list Command := default [] (cmd_queue <$> sup_interfaces s !! n).
Definition alive s (n : Name) : Prop := ∃ h, sup_interfaces s !! n = Some h ∧ cmd_alive h = true.

Lemma queue_send s n cmd m :
  alive s n → queue_of (send_to_interface n cmd s) m = queue_of s m ++ (if decide (m = n) then [cmd] else []).
Proof.
  intros (h & Hh & Ha). unfold send_to_interface, queue_of. rewrite Hh, Ha. cbn [put_handles sup_interfaces].
  destruct (decide (m = n)) as [->|Hne].
  - by rewrite lookup_insert_eq, Hh.
  - by rewrite lookup_insert_ne, app_nil_r.
Qed.

Lemma configured_send s n cmd m :
  is_interface_configured (send_to_interface n cmd s) m = is_interface_configured s m.
Proof.
  unfold send_to_interface. destruct (sup_interfaces s !! n) as [h|] eqn:Hh; [|done].
  destruct (cmd_alive h); [|done]. unfold is_interface_configured. cbn [put_handles sup_interfaces].
  destruct (decide (m = n)) as [->|Hne]; [by rewrite lookup_insert_eq, Hh|by rewrite lookup_insert_ne].
Qed.

Lemma alive_send s n cmd m : alive s m → alive (send_to_interface n cmd s) m.
Proof.
  intros (h & Hh & Ha). unfold send_to_interface. destruct (sup_interfaces s !! n) as [h'|] eqn:Hh'; [|by exists h].
  destruct (cmd_alive h') eqn:Ha'; [|by exists h]. unfold alive. cbn [put_handles sup_interfaces].
  destruct (decide (m = n)) as [->|Hne].
  - rewrite lookup_insert_eq. eexists. split; [done|]. exact Ha'.
  - rewrite lookup_insert_ne by done. by exists h.
Qed.

Lemma transition_publish_fields next s :
  let t := transition_and_publish next s in
  sup_interfaces t = sup_interfaces s ∧ primary (sup_state t) = primary (sup_state s) ∧
  backups (sup_state t) = backups (sup_state s) ∧
  net_state (sup_state t) =
    (if decide (next ∈ valid_next_states (net_state (sup_state s))) then next else net_state (sup_state s)).
Proof.
  unfold transition_and_publish, net_transition, transition. cbn zeta.
  destruct (decide (next ∈ valid_next_states (net_state (sup_state s)))) as [Hin|Hin].
  - by rewrite bool_decide_eq_true_2.
  - by rewrite bool_decide_eq_false_2.
Qed.

Definition configured s (b : Name) : Prop := is_interface_configured s b = true.

Lemma none_configured s l :
  Forall (λ x, ¬ configured s x) l → filter (λ x, is_interface_configured s x = true) l = [].
Proof.
  induction 1 as [|x l Hx _ IH]; [done|]. rewrite filter_cons_False by exact Hx. exact IH.
Qed.

Lemma failover_target_configured s bs1 b bs2 :
  backups (sup_state s) = bs1 ++ b :: bs2 → Forall (λ x, ¬ configured s x) bs1 → configured s b →
  failover_target s = Some b.
Proof.
  intros Hb Hbs Hc. unfold failover_target.
  rewrite Hb, filter_app, none_configured, filter_cons_True by done. done.
Qed.
Lemma failover_target_first s b bs :
  backups (sup_state s) = b :: bs → Forall (λ x, ¬ configured s x) (b :: bs) → failover_target s = Some b.
Proof.
  intros Hb Hbs. unfold failover_target. by rewrite Hb, none_configured.
Qed.

(** A failed primary hands over to the target. *)
Lemma primary_failure_spec s p b :
  net_state (sup_state s) ≠ Uninitialized → failover_target s = Some b →
  let t := handle_primary_failure p s in
  primary (sup_state t) = Some b ∧ backups (sup_state t) = without b (backups (sup_state s)) ++ [p] ∧
  net_state (sup_state t) = Operational ∧
  sup_interfaces t =
    if is_interface_configured s b then sup_interfaces s
    else sup_interfaces (send_to_interface b (ConfigureDhcp Provision) s).
Proof.
  intros Hns Ht. unfold handle_primary_failure, try_failover_to_backup.
  destruct (transition_publish_fields NetDegraded s) as (Hi & Hp & Hb & Hst).
  set (u := transition_and_publish NetDegraded s) in *.
  assert (∀ x, is_interface_configured u x = is_interface_configured s x) as Hcu.
  { intros x. unfold is_interface_configured. by rewrite Hi. }
  assert (failover_target u = Some b) as ->.
  { revert Ht. unfold failover_target. rewrite Hb.
    assert (filter (λ x, is_interface_configured u x = true) (backups (sup_state s))
      = filter (λ x, is_interface_configured s x = true) (backups (sup_state s))) as ->; [|done].
    apply list_filter_iff. intros x. by rewrite Hcu. }
  set (v := set_roles (Some b) _ u).
  assert (is_interface_configured v b = is_interface_configured s b) as Hcv by apply Hcu. rewrite Hcv.
  set (w := if is_interface_configured s b then v else _). cbn zeta.
  destruct (transition_publish_fields Operational w) as (Hi' & Hp' & Hb' & Hst').
  assert (sup_state w = sup_state v) as Ew.
  { unfold w. destruct (is_interface_configured s b); [done|]. unfold send_to_interface.
    destruct (sup_interfaces v !! b) as [h|]; [|done]. by destruct (cmd_alive h). }
  rewrite Hi', Hp', Hb', Hst', Ew. cbn [v set_roles put_state sup_state net_with_roles primary backups net_state].
  split_and!; [done|by rewrite Hb| |].
  - rewrite Hst. destruct (net_state (sup_state s)); try done; by vm_compute.
  - unfold w. destruct (is_interface_configured s b); [exact Hi|]. unfold send_to_interface.
    change (sup_interfaces v) with (sup_interfaces u). rewrite Hi.
    destruct (sup_interfaces s !! b) as [h|]; [|exact Hi].
    destruct (cmd_alive h); [cbn [put_handles sup_interfaces]; by rewrite <-Hi|exact Hi].
Qed.

(** C27: When, in an initialized network, the link of the primary goes down and
    its actor is alive, the first configured backup takes over as it is; without
    a configured one the first backup, if its actor is alive, takes over and is
    told to acquire an address; in both cases the old primary becomes
    the last backup and the network is operational; without backups the primary
    stays and the network is degraded. *)
Theorem failover_on_link_down s (p : Name) :
  primary (sup_state s) = Some p → net_state (sup_state s) ≠ Uninitialized → alive s p →
  p ∉ backups (sup_state s) →
  let t := on_link_down p s in
  (∀ bs1 b bs2, backups (sup_state s) = bs1 ++ b :: bs2 → Forall (λ x, ¬ configured s x) bs1 →
     configured s b →
     primary (sup_state t) = Some b ∧ backups (sup_state t) = without b (backups (sup_state s)) ++ [p] ∧
     net_state (sup_state t) = Operational ∧ queue_of t b = queue_of s b ∧
     queue_of t p = queue_of s p ++ [CmdLinkDown]) ∧
  (∀ b bs, backups (sup_state s) = b :: bs → Forall (λ x, ¬ configured s x) (b :: bs) → alive s b →
     primary (sup_state t) = Some b ∧ backups (sup_state t) = without b (b :: bs) ++ [p] ∧
     net_state (sup_state t) = Operational ∧
     queue_of t b = queue_of s b ++ [ConfigureDhcp Provision] ∧
     queue_of t p = queue_of s p ++ [CmdLinkDown]) ∧
  (backups (sup_state s) = [] →
     primary (sup_state t) = Some p ∧ backups (sup_state t) = [] ∧ net_state (sup_state t) = NetDegraded).
Proof.
  intros Hp Hns Ha Hni t. unfold t, on_link_down. set (u := send_to_interface p CmdLinkDown s).
  assert (sup_state u = sup_state s) as Eu.
  { unfold u, send_to_interface. destruct Ha as (h & -> & ->). done. }
  assert (∀ x, configured u x ↔ configured s x) as Hcu.
  { intros x. unfold configured, u. by rewrite configured_send. }
  assert (is_primary_interface u p = true) as ->.
  { unfold is_primary_interface. rewrite Eu. by apply bool_decide_eq_true_2. }
  assert (∀ b, b ∈ backups (sup_state s) → b ≠ p) as Hne by (intros b Hb ->; done).
  split_and!.
  - intros bs1 b bs2 Hb Hbs Hc.
    destruct (primary_failure_spec u p b) as (T1 & T2 & T3 & T4); [by rewrite Eu| |].
    { apply (failover_target_configured u bs1 b bs2); [by rewrite Eu| |by apply Hcu].
      apply (Forall_impl _ _ _ Hbs). intros x Hx. by rewrite Hcu. }
    assert (is_interface_configured u b = true) as Hcb by by apply Hcu.
    rewrite Hcb in T4. rewrite Eu in T2. split_and!; [exact T1|exact T2|exact T3|..];
      unfold queue_of at 1; rewrite T4; fold (queue_of u b); fold (queue_of u p); unfold u; rewrite queue_send by done.
    + rewrite decide_False, app_nil_r; [done|]. apply Hne. rewrite Hb. set_solver.
    + by rewrite decide_True.
  - intros b bs Hb Hbs Hab.
    destruct (primary_failure_spec u p b) as (T1 & T2 & T3 & T4); [by rewrite Eu| |].
    { apply (failover_target_first u b bs); [by rewrite Eu|].
      apply (Forall_impl _ _ _ Hbs). intros x Hx. by rewrite Hcu. }
    assert (is_interface_configured u b = false) as Hcb.
    { apply not_true_iff_false. intros Hx. apply Forall_cons in Hbs as [Hbs _]. by apply Hbs, Hcu. }
    assert (b ≠ p) as Hbp by (apply Hne; rewrite Hb; apply list_elem_of_here).
    rewrite Hcb in T4. rewrite Eu, Hb in T2. split_and!; [exact T1|exact T2|exact T3|..];
      unfold queue_of at 1; rewrite T4; fold (queue_of (send_to_interface b (ConfigureDhcp Provision) u) b);
      fold (queue_of (send_to_interface b (ConfigureDhcp Provision) u) p);
      rewrite queue_send by (by apply alive_send); unfold u; rewrite queue_send by done.
    + by rewrite decide_False, decide_True, app_nil_r by done.
    + by rewrite decide_True, decide_False, app_nil_r by done.
  - intros Hb. unfold handle_primary_failure, try_failover_to_backup.
    destruct (transition_publish_fields NetDegraded u) as (Hi & Hpr & Hba & Hst).
    unfold failover_target. rewrite Hba, Eu, Hb. cbn [filter list_filter head].
    rewrite Hpr, Hba, Hst, Eu. split_and!; [done..|]. destruct (net_state (sup_state s)); try done; by vm_compute.
Qed.
End behaviour.

Section loop.
Context {W : Watch} {WL : WatchLaws W}.
Context {K : Type} `{NetOps K, FileOps K, HandleIter (W:=W), PartitionPoint, Waits K}.
Implicit Types s t : @Supervisor W K.

(** A handle whose receiver has not seen the newest snapshot. *)
Definition unseen (h : ActorHandle) : Prop := is_Some (watch_changed (state_chan h) (state_rx h)).

Lemma flush_fields s :
  sup_interfaces (flush_dns s) = sup_interfaces s ∧ sup_state (flush_dns s) = sup_state s.
Proof.
  unfold flush_dns. destruct (primary_handle s) as [h|]; [|done]. destruct (collect_dns s h) as [d4 d6].
  destruct (is_unchanged _ _ _); [done|]. unfold apply_dns. by destruct (resolver_update _ _ _ _) as [[? r] k].
Qed.

Lemma unseen_changed s p h :
  primary (sup_state s) = Some p → sup_interfaces s !! p = Some h → unseen h → primary_changed s = true.
Proof.
  intros Hp Hh Hu. unfold primary_changed, primary_handle. rewrite Hp. cbn [mbind option_bind].
  rewrite Hh. apply bool_decide_eq_true_2. by apply watch_changed_clone.
Qed.

(** Rounds of the loop in which neither a command nor a link event comes. *)
Fixpoint quiet_rounds (ticks : list bool) s : list (option SupervisorEvent) * @Supervisor W K :=
  match ticks with
  | [] => ([], s)
  | tick :: ticks =>
      let e := supervisor_select s {| sup_polled_cmd := None; sup_polled_event := None; sup_polled_tick := tick |} in
      let s := match e with Some e => logged (handle_supervisor_event e) s | None => s end in
      let '(es, s) := quiet_rounds ticks s in (e :: es, s)
  end.

(** The reconcile tick is starved: the handle's receiver never moves its
    mark, so once the actor of a primary that has not failed has published
    anything, every round without a command or a link event serves the same
    change again, at once, and a due tick is never served. *)
Theorem reconcile_tick_starved s (p : Name) (h : ActorHandle) (c : watch_chan Snapshot) (snap : Snapshot)
    (ticks : list bool) :
  primary (sup_state s) = Some p → sup_interfaces s !! p = Some h →
  watch_of c (state_rx h) → state_chan h = watch_send c snap → snap_state snap ≠ Failed →
  fst (quiet_rounds ticks s) = replicate (length ticks) (Some PrimaryChanged).
Proof.
  intros Hp Hh Hof Hsend Hnf.
  assert (unseen h) as Hu by (unfold unseen; rewrite Hsend; by apply watch_changed_send).
  revert s Hp Hh. induction ticks as [|tick ticks IH]; intros s Hp Hh; cbn [quiet_rounds length]; [done|].
  unfold supervisor_select at 1 2. cbn [sup_polled_cmd sup_polled_event].
  rewrite (unseen_changed s p h Hp Hh Hu). unfold logged. cbn [handle_supervisor_event update snd].
  assert (maybe_failover_primary s = s) as ->.
  { unfold maybe_failover_primary, is_primary_failed, primary_handle. rewrite Hp. cbn [mbind option_bind].
    rewrite Hh. unfold borrow. rewrite Hsend, watch_borrow_send. by rewrite bool_decide_eq_false_2. }
  destruct (flush_fields s) as [Hi Hs].
  specialize (IH (flush_dns s)). rewrite Hi, Hs in IH. specialize (IH Hp Hh).
  destruct (quiet_rounds ticks (flush_dns s)) as [es t]. cbn [fst] in *. rewrite replicate_S. by rewrite IH.
Qed.

(** ** Two failed interfaces *)

Definition failed_pair s (p q : Name) : Prop :=
  primary (sup_state s) = Some p ∧ backups (sup_state s) = [q] ∧ p ≠ q ∧
  net_state (sup_state s) ≠ Uninitialized ∧
  ∀ n, n = p ∨ n = q → ∃ h, sup_interfaces s !! n = Some h ∧ cmd_alive h = true ∧ unseen h ∧
    snap_state (borrow h) = Failed.

Lemma failed_pair_swaps s p q :
  failed_pair s p q →
  let t := logged (handle_supervisor_event PrimaryChanged) s in
  primary_changed s = true ∧ failed_pair t q p ∧
  queue_of t q = queue_of s q ++ [ConfigureDhcp Provision] ∧ queue_of t p = queue_of s p.
Proof.
  intros (Hp & Hb & Hne & Hns & Hhs) t.
  destruct (Hhs p (or_introl eq_refl)) as (hp & Hhp & Hap & Hup & Hfp).
  destruct (Hhs q (or_intror eq_refl)) as (hq & Hhq & Haq & Huq & Hfq).
  split; [by eapply unseen_changed|].
  unfold t, logged. cbn [handle_supervisor_event update snd]. unfold maybe_failover_primary, is_primary_failed, primary_handle.
  rewrite Hp. cbn [mbind option_bind]. rewrite Hhp, bool_decide_eq_true_2 by done.
  assert (is_interface_configured s q = false) as Hcq.
  { unfold is_interface_configured. rewrite Hhq, Hfq. by apply bool_decide_eq_false_2. }
  destruct (primary_failure_spec s p q Hns) as (T1 & T2 & T3 & T4).
  { apply (failover_target_first s q []); [done|]. constructor; [|constructor].
    unfold configured. by rewrite Hcq. }
  rewrite Hcq in T4.
  assert (without q [q] = []) as Hw.
  { unfold without. by rewrite filter_cons_False by naive_solver. }
  rewrite Hb, Hw in T2. cbn [app] in T2.
  set (u := handle_primary_failure p s) in *. destruct (flush_fields u) as [Hi Hs].
  assert (sup_interfaces u = <[q := enqueue hq (ConfigureDhcp Provision)]> (sup_interfaces s)) as Eu.
  { rewrite T4. unfold send_to_interface. by rewrite Hhq, Haq. }
  split.
  - unfold failed_pair. rewrite Hs, Hi, Eu. split_and!; [done..| |].
    + by rewrite T3.
    + intros n [->| ->].
      * rewrite lookup_insert_eq. eexists. split; [done|]. done.
      * rewrite lookup_insert_ne by done. by exists hp.
  - unfold queue_of. rewrite Hi, Eu. rewrite lookup_insert_eq, lookup_insert_ne by done. by rewrite Hhq.
Qed.

(** Two failed interfaces send the supervisor into a storm: each round it
    fails over from one to the other, without waiting for either, and queues
    another acquisition; 2n rounds queue n at each. *)
Theorem failover_storm (n : nat) s (p q : Name) :
  failed_pair s p q →
  let t := Nat.iter (2 * n) (logged (handle_supervisor_event PrimaryChanged)) s in
  failed_pair t p q ∧ primary_changed t = true ∧
  queue_of t p = queue_of s p ++ replicate n (ConfigureDhcp Provision) ∧
  queue_of t q = queue_of s q ++ replicate n (ConfigureDhcp Provision).
Proof.
  intros Hf. cbn zeta. induction n as [|n (IH & _ & Qp & Qq)].
  { split_and!; [exact Hf|by eapply failed_pair_swaps|by rewrite app_nil_r..]. }
  replace (2 * S n)%nat with (S (S (2 * n))) by lia. rewrite !Nat.iter_succ.
  set (t := Nat.iter (2 * n) _ s) in *.
  destruct (failed_pair_swaps t p q IH) as (_ & H1' & Q1 & Q2).
  set (u := logged (handle_supervisor_event PrimaryChanged) t) in *.
  destruct (failed_pair_swaps u q p H1') as (_ & H2' & Q3 & Q4).
  split_and!; [exact H2'|by eapply failed_pair_swaps|..].
  - rewrite Q3, Q2, Qp, replicate_S_end, app_assoc. done.
  - rewrite Q4, Q1, Qq, replicate_S_end, app_assoc. done.
Qed.

(** ** Name servers *)

Lemma update_cached (r : Resolver) (k : K) d4 d6 :
  let '(_, r', _) := resolver_update r k d4 d6 in is_unchanged r' d4 d6 = true.
Proof.
  unfold resolver_update. destruct (write_resolv_conf _ _ _ _ _) as [ok_ k'].
  unfold is_unchanged. cbn [v4 v6]. by rewrite !bool_decide_eq_true_2.
Qed.

(** A failed write of the resolver configuration is never repeated: the
    servers count as current whether or not the file was written, so that
    until they change, every later flush leaves the file alone, even when it
    could be written by then. *)
Theorem dns_write_not_retried s (k : K) :
  let t := flush_dns s in
  flush_dns (put_kernel t k) = put_kernel t k.
Proof.
  cbn zeta. destruct (flush_fields s) as [Hi Hs]. unfold flush_dns at 1.
  assert (primary_handle (put_kernel (flush_dns s) k) = primary_handle s) as ->.
  { unfold primary_handle. cbn [put_kernel sup_state sup_interfaces]. by rewrite Hs, Hi. }
  destruct (primary_handle s) as [h|] eqn:Hh; [|done].
  assert (sup_config (put_kernel (flush_dns s) k) = sup_config s) as Hc.
  { apply (calm_config _ _ (calm_flush s)). }
  unfold collect_dns. rewrite Hc.
  set (d4 := dns_or (snap_ip (borrow h)) _). set (d6 := dns_or (snap_ipv6 (borrow h)) _).
  assert (is_unchanged (sup_dns (put_kernel (flush_dns s) k)) d4 d6 = true) as ->; [|done].
  unfold flush_dns. rewrite Hh. unfold collect_dns. fold d4 d6.
  destruct (is_unchanged (sup_dns s) d4 d6) eqn:E; [exact E|].
  unfold apply_dns. pose proof (update_cached (sup_dns s) (sup_ops s) d4 d6) as Hu.
  destruct (resolver_update _ _ _ _) as [[ok_ r] k']. exact Hu.
Qed.
End loop.

(** ** Initialization *)

Section initialization.
Context {W : Watch} {WL : WatchLaws W}.
Context {K : Type} `{NetOps K, FileOps K, HandleIter (W:=W), PartitionPoint, Waits K}.
Implicit Types s t : @Supervisor W K.

(** Provisioning only sends commands and starts actors. *)
Definition same_state s t : Prop := sup_state t = sup_state s.
#[local] Instance same_state_preorder : PreOrder same_state.
Proof. split; [by intros s|]. intros s t u E F. unfold same_state in *. congruence. Qed.

Lemma same_query {A} (f : K → option A * K) e : respects same_state (kernel_query (W:=W) f e).
Proof. intros s. unfold kernel_query. by destruct (f (sup_ops s)). Qed.
Lemma same_spawn snap s : same_state s (spawn_interface_actor snap s).
Proof. unfold spawn_interface_actor. by destruct (watch_new snap). Qed.

Ltac same_steps := repeat (first [respects_step|apply same_query|apply same_spawn|reflexivity]; cbv beta).

Lemma same_provision_one cfg : respects same_state (provision_one (K:=K) (W:=W) cfg).
Proof.
  assert (∀ n, respects same_state (get_handle (K:=K) (W:=W) n)) as Hg.
  { intros n. unfold get_handle. same_steps. }
  assert (∀ n cmd, respects same_state (send_command (K:=K) (W:=W) n cmd)) as Hsend.
  { intros n cmd. unfold send_command. rbind; [apply Hg|intro]. same_steps. }
  unfold provision_one. destruct (kind cfg).
  - unfold provision_bridge. rbind; [|intro port].
    { unfold bridge_port_handle. same_steps. apply Hg. }
    rbind; [|intros _].
    { unfold wait_for_configured. rbind; [apply Hg|intro h]. apply respects_get. intro s.
      destruct (await_port _ _) as [[snaps ended] k]. destruct (publish_until_configured _ _) as [reached chan].
      rbind; [by apply respects_update|intros _]. destruct reached, ended; same_steps. }
    rbind; [apply Hsend|intros _]. rbind; [|intro snap; same_steps].
    intros s. unfold wait_for_bridge. by destruct (await_bridge _ _).
  - unfold provision_ethernet, provision_ipv4, provision_ipv6. rbind; [|intro iface].
    { unfold resolve_name. same_steps. }
    rbind; [apply Hg|intros _]. rbind; [apply same_query|intro index].
    rbind; [|intros _]; same_steps; first [apply Hsend|apply Hg].
Qed.

(** Handlers that return. *)
Definition returns {A} (m : handler (@Supervisor W K) SupError A) : Prop := ∀ s, fst (m s) ≠ Err NeverReturns.
Lemma returns_ret {A} (x : A) : returns (mret x).
Proof. by intros s. Qed.
Lemma returns_bind {A B} (m : handler _ _ A) (f : A → handler _ _ B) :
  returns m → (∀ x, returns (f x)) → returns (m ≫= f).
Proof.
  intros Hm Hf s. specialize (Hm s). unfold mbind, handler_bind. destruct (m s) as [[x|e|] t]; [apply Hf| |done]. cbn [fst] in *. congruence.
Qed.
Lemma returns_get {A} (f : _ → handler _ _ A) : (∀ s, returns (f s)) → returns (get_state ≫= f).
Proof. intros Hf s. apply Hf. Qed.
Lemma returns_query {A} (f : K → option A * K) e : e ≠ NeverReturns → returns (kernel_query (W:=W) f e).
Proof. intros He s. unfold kernel_query. destruct (f (sup_ops s)) as [[x|] k]; cbn [fst ok_or]; congruence. Qed.
Lemma returns_option {A} (o : option A) e : e ≠ NeverReturns → returns (lift_option o e).
Proof. intros He s. unfold lift_option. destruct o; cbn [fst ok_or]; congruence. Qed.

Lemma returns_get_handle n : returns (get_handle (K:=K) (W:=W) n).
Proof. intros s. unfold get_handle, mbind, handler_bind, get_state, lift_option. by destruct (sup_interfaces s !! n). Qed.
Lemma returns_send_command n cmd : returns (send_command (K:=K) (W:=W) n cmd).
Proof.
  unfold send_command. apply returns_bind; [apply returns_get_handle|]. intros h s. by destruct (cmd_alive h).
Qed.

(** Only bridges wait. *)
Lemma provision_ethernet_returns n c4 c6 : returns (provision_ethernet (K:=K) (W:=W) n c4 c6).
Proof.
  unfold provision_ethernet. apply returns_bind; [|intro iface].
  { unfold resolve_name. apply returns_get. intros s. apply returns_bind; [by apply returns_option|intros q].
    case_bool_decide; [apply returns_ret|by apply returns_option]. }
  apply returns_bind; [apply returns_get_handle|intros _].
  apply returns_bind; [by apply returns_query|intros index]. apply returns_bind; [|intros _].
  - unfold provision_ipv4. destruct c4 as [c|]; [|apply returns_ret].
    destruct (cfg_dhcp c); [apply returns_send_command|].
    destruct (cfg_addresses c); [apply returns_ret|apply returns_send_command].
  - destruct c6 as [c|]; [|apply returns_ret]. unfold provision_ipv6.
    apply returns_bind; [apply returns_get_handle|intros _]. apply returns_get. intros s.
    destruct (cfg6_addresses c); [|apply returns_send_command].
    destruct (_ && _); [apply returns_send_command|apply returns_ret].
Qed.

Lemma for_each_cases l s :
  let '(r, t) := for_each (K:=K) (W:=W) provision_one l s in
  sup_state t = sup_state s ∧
  (r = Ok () ∨ r = Err NeverReturns ∧ ∃ cfg, cfg ∈ l ∧ kind cfg = KindBridge).
Proof.
  revert s. induction l as [|cfg l IH]; intros s; cbn [for_each]; [by split; [|left]|].
  unfold mbind, handler_bind, warned. pose proof (same_provision_one cfg s) as Hs. unfold same_state in Hs.
  assert (fst (provision_one cfg s) = Err NeverReturns → kind cfg = KindBridge) as Hb.
  { unfold provision_one. destruct (kind cfg); [done|]. intros E. by apply provision_ethernet_returns in E. }
  destruct (provision_one cfg s) as [r t]. cbn [fst snd] in *.
  assert (r = Err NeverReturns ∨
    (match (r, t) with (Err NeverReturns, s) => (Err NeverReturns, s) | (_, s) => (Ok (), s) end
       : res SupError () * @Supervisor W K) = (Ok (), t)) as [-> | ->].
  { destruct r as [x|[]|]; auto. }
  - split; [done|]. right. split; [done|]. exists cfg. split; [apply list_elem_of_here|by apply Hb].
  - specialize (IH t). destruct (for_each provision_one l t) as [r' u]. destruct IH as [Hu Hr].
    split; [congruence|]. destruct Hr as [->|(-> & c & Hc & Hk)]; [by left|]. right. split; [done|].
    exists c. split; [by apply list_elem_of_further|done].
Qed.

Lemma provision_cases s :
  let '(r, t) := provision_interfaces s in
  sup_state t = sup_state s ∧
  (r = Ok () ∨ r = Err NeverReturns ∧ ∃ cfg, cfg ∈ cfg_interfaces (sup_config s) ∧ kind cfg = KindBridge).
Proof. exact (for_each_cases (cfg_interfaces (sup_config s)) s). Qed.

(** What discovery sees. *)
Definition link_pairs (l : list Ethernet) : list (Z * ustring) := (λ i, (eth_index i, eth_name i)) <$> l.

Lemma transition_Ok_step s next :
  next ∈ valid_next_states (net_state (sup_state s)) →
  net_transition next s = (Ok (), put_state s (net_with_state (sup_state s) next)).
Proof. intros Hin. unfold net_transition, transition. by rewrite bool_decide_eq_true_2. Qed.

Lemma sync_state s :
  net_state (sup_state (sync_and_publish s)) = net_state (sup_state s) ∧
  primary (sup_state (sync_and_publish s)) = primary (sup_state s).
Proof.
  unfold sync_and_publish. cbn [publish_state sup_state].
  match goal with |- context [flush_dns ?x] => destruct (flush_fields x) as [_ ->] end. done.
Qed.

(** The supervisor at the start of a discovery. *)
Definition discovering s k : @Supervisor W K :=
  put_kernel (publish_state (put_state (reset s) (net_with_state net_empty Initializing))) k.

Lemma initialize_discovers s l k :
  discover_ethernet (sup_ops s) = (l, k) →
  initialize s =
    match l with
    | None => (Err DiscoveryFailed, discovering s k)
    | Some l =>
        ((if bool_decide (l = []) then fail_discovery NoEthernet
          else
            carriers ← probe (link_pairs l);
            if negb (existsb id (snd <$> map_to_list carriers)) then fail_discovery NoCarrierFound
            else
              update (spawn_interface_actors (with_carrier carriers <$> l));;
              select_primary_interface (with_carrier carriers <$> l);;
              net_transition Operational;;
              update sync_and_publish);;
         provision_interfaces;; net_transition NetReady;; update publish_state) (discovering s k)
    end.
Proof.
  intros Hd. unfold initialize, discover_interfaces, mbind at 1, handler_bind at 1, update at 1.
  unfold mbind at 1, handler_bind at 1. unfold mbind at 1, handler_bind at 1.
  rewrite transition_Ok_step by (vm_compute; left).
  unfold mbind at 1, handler_bind at 1, update at 1. unfold mbind at 1, handler_bind at 1, kernel_query.
  change (sup_ops (publish_state _)) with (sup_ops s). rewrite Hd. destruct l as [l|]; reflexivity.
Qed.

Lemma fail_discovery_spec s e :
  net_state (sup_state s) = Initializing →
  fail_discovery e s
    = (Err e, publish_state (put_state s (net_with_state (sup_state s) NetDegraded))).
Proof.
  intros Hs. unfold fail_discovery, mbind, handler_bind.
  rewrite transition_Ok_step by (rewrite Hs; vm_compute; right; left). done.
Qed.

Lemma same_spawn_all l s : sup_state (spawn_interface_actors l s) = sup_state s.
Proof.
  unfold spawn_interface_actors. revert s. induction l as [|i l IH]; intros s; cbn [fold_left]; [done|].
  rewrite IH. apply same_spawn.
Qed.

Lemma carriers_selected cs l p s :
  select_primary (with_carrier cs <$> l) = Some p → net_state (sup_state s) = Initializing →
  ∃ t, (update (spawn_interface_actors (with_carrier cs <$> l));;
        select_primary_interface (with_carrier cs <$> l);;
        net_transition Operational;; update sync_and_publish) s = (Ok (), t) ∧
    net_state (sup_state t) = Operational ∧ primary (sup_state t) = Some (eth_name p) ∧
    sup_config t = sup_config s.
Proof.
  intros Hp Hs. unfold select_primary_interface, mbind, handler_bind, update, lift_option. rewrite Hp. cbn [ok_or].
  pose proof (same_spawn_all (with_carrier cs <$> l) s) as Eu.
  assert (calm s (spawn_interface_actors (with_carrier cs <$> l) s)) as [_ _ Ec].
  { apply calm_fold. intros t i. apply calm_spawn. }
  set (u := spawn_interface_actors _ s) in *.
  rewrite transition_Ok_step.
  2: { cbn [set_roles put_state sup_state net_with_roles net_state]. rewrite Eu, Hs. vm_compute. left. }
  eexists. split; [reflexivity|].
  match goal with |- context [sync_and_publish ?x] => destruct (sync_state x) as [-> ->];
    rewrite (calm_config _ _ (calm_sync x)) end. done.
Qed.

(** C33: Initialization starts from nothing and answers by what discovery
    finds: an error and a degraded network without interfaces or without
    carrier; an error, still initializing, when the kernel does not answer. In
    all other cases the primary is a discovered interface with the highest score
    and, of those, the lowest index; initialization makes the network ready,
    whatever becomes of the interfaces' own provisioning, unless it never
    returns, and only with a bridge in the configuration does it not return. *)
Theorem initialize_outcome s (l : option (list Ethernet)) (k1 k2 : K) (cs : gmap Z bool) :
  discover_ethernet (sup_ops s) = (l, k1) →
  probe_carriers k1 (link_pairs (default [] l)) = (cs, k2) →
  let r := fst (initialize s) in
  let n := sup_state (snd (initialize s)) in
  match l with
  | None => r = Err DiscoveryFailed ∧ net_state n = Initializing ∧ primary n = None
  | Some [] => r = Err NoEthernet ∧ net_state n = NetDegraded ∧ primary n = None
  | Some l =>
      if existsb id (snd <$> map_to_list cs)
      then (∃ p, p ∈ with_carrier cs <$> l ∧ primary n = Some (eth_name p) ∧
              ∀ i, i ∈ with_carrier cs <$> l →
                score_interface i < score_interface p ∨
                score_interface i = score_interface p ∧ eth_index p ≤ eth_index i) ∧
           (r = Ok () ∧ net_state n = NetReady ∨
            r = Err NeverReturns ∧ net_state n = Operational ∧
            ∃ cfg, cfg ∈ cfg_interfaces (sup_config s) ∧ kind cfg = KindBridge)
      else r = Err NoCarrierFound ∧ net_state n = NetDegraded ∧ primary n = None
  end.
Proof.
  intros Hd Hc r n. unfold r, n. clear r n. rewrite (initialize_discovers s l k1 Hd).
  destruct l as [l|]; [|done]. cbn [default from_option id] in Hc. set (s1 := discovering s k1).
  assert (net_state (sup_state s1) = Initializing) as Hs1 by done.
  match goal with |- context [fst (?m s1)] => destruct (m s1) as [r t] eqn:E end.
  revert E. cbn [fst snd]. unfold mbind at 1, handler_bind at 1.
  destruct l as [|i l].
  { rewrite bool_decide_eq_true_2, fail_discovery_spec by done. by intros [= <- <-]. }
  rewrite bool_decide_eq_false_2 by done. unfold mbind at 1, handler_bind at 1, probe.
  change (sup_ops s1) with k1. rewrite Hc.
  destruct (existsb id (snd <$> map_to_list cs)); cbn [negb].
  2: { rewrite fail_discovery_spec by done. by intros [= <- <-]. }
  destruct (select_primary (with_carrier cs <$> i :: l)) as [p|] eqn:Hp; [|done].
  destruct (carriers_selected cs (i :: l) p (put_kernel s1 k2) Hp Hs1) as (u & -> & Hu1 & Hu2 & Hu3).
  assert (sup_config u = sup_config s) as Hcfg by (rewrite Hu3; done).
  apply select_primary_spec in Hp as [Hin Hbest].
  assert (∀ n, primary n = Some (eth_name p) → ∃ p, p ∈ with_carrier cs <$> i :: l ∧ primary n = Some (eth_name p) ∧
    ∀ j, j ∈ with_carrier cs <$> i :: l → score_interface j < score_interface p ∨
      score_interface j = score_interface p ∧ eth_index p ≤ eth_index j) as Hprim.
  { intros n Hn. exists p. split_and!; [done..|]. intros j Hj. specialize (Hbest j Hj). rewrite priority_ge_spec in Hbest.
    lia. }
  pose proof (provision_cases u) as Hpc. unfold mbind at 1, handler_bind at 1.
  destruct (provision_interfaces u) as [r' v]. destruct Hpc as [Ev [->|[-> (c & Hci & Hk)]]].
  - unfold mbind, handler_bind, update. rewrite transition_Ok_step by (rewrite Ev, Hu1; vm_compute; left).
    intros [= <- <-]. cbn [publish_state put_state sup_state net_with_state net_state]. split; [|by left].
    apply Hprim. cbn [net_with_state primary]. by rewrite Ev.
  - intros [= <- <-]. split; [apply Hprim; by rewrite Ev|]. right. rewrite Ev, <-Hcfg. eauto.
Qed.
End initialization.

(** ** Retries *)

Lemma retry_delay_bounds attempt : 1 ≤ attempt → 1 ≤ retry_delay 1 10 attempt ≤ 10.
Proof.
  intros Ha. unfold retry_delay, saturating_sub. rewrite Z.shiftl_mul_pow2 by lia.
  assert (1 ≤ 2 ^ Z.min (Z.max 0 (attempt - 1)) 5) by (apply Zlt_succ_le; cbn; pose proof
    (Z.pow_pos_nonneg 2 (Z.min (Z.max 0 (attempt - 1)) 5) ltac:(lia) ltac:(lia)); lia).
  lia.
Qed.

Lemma retry_loop attempt n rest :
  1 ≤ attempt → attempt ≤ uint_max 32 →
  ∃ delays, initialize_with_retry 1 10 attempt (replicate n false ++ true :: rest) = Some delays ∧
    length delays = n ∧ Forall (λ d, 1 ≤ d ≤ 10) delays.
Proof.
  revert attempt. induction n as [|n IH]; intros attempt H1 H2; cbn [replicate app initialize_with_retry].
  { exists []. done. }
  destruct (IH (saturating_add 32 attempt 1)) as (ds & -> & Hl & Hds).
  { unfold saturating_add, uint_max in *. lia. }
  { unfold saturating_add. lia. }
  exists (retry_delay 1 10 attempt :: ds). cbn [fmap option_fmap option_map length]. split_and!; [done|by rewrite Hl|].
  constructor; [by apply retry_delay_bounds|exact Hds].
Qed.

Lemma retry_never attempt answers :
  Forall (λ b, b = false) answers → initialize_with_retry 1 10 attempt answers = None.
Proof.
  intros Ha. revert attempt. induction Ha as [|b l -> _ IH]; intros attempt; cbn [initialize_with_retry]; [done|].
  by rewrite IH.
Qed.

(** Initialization is retried until it succeeds, never given up: after n
    failures and a success the caller gets the success, having slept n times
    between one and ten seconds, the first pauses one, two, four, eight and
    ten; while it only fails, the caller gets no answer, the promised error
    included. *)
Theorem initialization_retried (n : nat) (answers rest : list bool) :
  Forall (λ b, b = false) answers →
  (∃ delays, initialize_with_retry 1 10 1 (replicate n false ++ true :: rest) = Some delays ∧
     length delays = n ∧ Forall (λ d, 1 ≤ d ≤ 10) delays) ∧
  initialize_with_retry 1 10 1 (replicate 6 false ++ [true]) = Some [1; 2; 4; 8; 10; 10] ∧
  initialize_with_retry 1 10 1 answers = None.
Proof.
  intros Ha. split_and!; [apply retry_loop; [lia|vm_compute; discriminate]|reflexivity|by apply retry_never].
Qed.

(** ** A network to run the supervisor in *)

#[export] Instance demo_files : FileOps Z := {
  fs_write k _ _ := (true, k);
  fs_rename k _ _ := (true, k)
}.

#[export] Instance demo_iter : HandleIter (W:=counted_watch) := {
  handle_values hs := map_to_list hs;
  handle_values_perm hs := reflexivity _
}.

Fixpoint true_prefix (f : Name → bool) (l : list Name) : nat :=
  match l with
  | [] => 0
  | x :: l => if f x then S (true_prefix f l) else 0
  end.

#[export] Program Instance demo_partition : PartitionPoint := { partition_point := true_prefix }.
Next Obligation. intros f l. induction l as [|x l IH]; cbn; [lia|]. destruct (f x); lia. Qed.
Next Obligation.
  intros f l1 l2 H1 H2. induction H1 as [|x l Hx _ IH]; cbn [app true_prefix length].
  - destruct H2 as [|y l2 Hy _]; cbn [true_prefix]; [done|]. by rewrite Hy.
  - by rewrite Hx, IH.
Qed.

#[export] Instance demo_waits : Waits Z := {
  await_port k _ := ([], false, k);
  await_bridge k _ := (Refused, k)
}.

#[export] Instance demo_distinct : DistinctNames Z.
Proof. intros k l k' [= <- _]. apply (bool_decide_unpack _). vm_compute. exact I. Qed.

Definition demo_start : Supervisor := supervisor_new (W:=counted_watch) 5000 demo_config resolver_default.
Definition demo_ready : Supervisor := logged initialize demo_start.

Definition no_poll : SupPolled :=
  {| sup_polled_cmd := None; sup_polled_event := None; sup_polled_tick := false |}.

Lemma roles_invariant_witness :
  primary (sup_state demo_ready) = Some (ustr "eno1") ∧ ustr "eno1" ∉ backups (sup_state demo_ready).
Proof.
  assert (sup_reachable demo_config resolver_default demo_ready) as Hr.
  { apply (reached_loop demo_config resolver_default 5000). apply rtc_once.
    apply (step_round demo_start {| sup_polled_cmd := Some CmdInitialize; sup_polled_event := None;
      sup_polled_tick := false |} (SupCommand CmdInitialize)); vm_compute; reflexivity. }
  split; [vm_compute; reflexivity|].
  destruct (roles_invariant demo_config resolver_default demo_ready Hr) as [Hp _].
  apply (Hp (ustr "eno1")). vm_compute. reflexivity.
Defined.

Lemma failover_on_link_down_witness :
  let t := on_link_down (ustr "eno1") demo_ready in
  primary (sup_state t) = Some (ustr "eth0") ∧ net_state (sup_state t) = Operational.
Proof.
  destruct (failover_on_link_down demo_ready (ustr "eno1")) as (_ & Hf & _).
  - vm_compute. reflexivity.
  - vm_compute. discriminate.
  - eexists. split; vm_compute; reflexivity.
  - vm_compute. intros Hin. apply list_elem_of_singleton in Hin. discriminate.
  - destruct (Hf (ustr "eth0") []) as (H1 & _ & H2 & _).
    + vm_compute. reflexivity.
    + constructor; [|constructor]. vm_compute. discriminate.
    + eexists. split; vm_compute; reflexivity.
    + split; [exact H1|exact H2].
Defined.

(** The primary published once. *)
Definition demo_handle (s : Lifecycle) : ActorHandle :=
  {| cmd_queue := []; cmd_alive := true;
     state_chan := watch_send (fst (watch_new (demo_snapshot Discovered None))) (demo_snapshot s None);
     state_rx := snd (watch_new (demo_snapshot Discovered None)) |}.
Definition demo_pair (s : Lifecycle) : Supervisor :=
  put_state (put_handles demo_start (<[ustr "eth0" := demo_handle s]> (<[ustr "eth1" := demo_handle s]> ∅)))
    {| net_state := Operational; primary := Some (ustr "eth0"); backups := [ustr "eth1"]; net_interfaces := [] |}.

Lemma reconcile_tick_starved_witness :
  fst (quiet_rounds [true; true; true] (demo_pair Configuring)) = replicate 3 (Some PrimaryChanged).
Proof.
  apply (reconcile_tick_starved (demo_pair Configuring) (ustr "eth0") (demo_handle Configuring)
    (fst (watch_new (demo_snapshot Discovered None))) (demo_snapshot Configuring None) [true; true; true]).
  - reflexivity.
  - reflexivity.
  - apply watch_of_new.
  - reflexivity.
  - discriminate.
Defined.

Lemma failover_storm_witness :
  queue_of (Nat.iter (2 * 5) (logged (handle_supervisor_event PrimaryChanged)) (demo_pair Failed)) (ustr "eth0")
    = replicate 5 (ConfigureDhcp Provision).
Proof.
  destruct (failover_storm 5 (demo_pair Failed) (ustr "eth0") (ustr "eth1")) as (_ & _ & Hq & _).
  - split_and!; [reflexivity..|discriminate|discriminate|].
    intros n [->| ->]; eexists; (split_and!; [reflexivity..| |reflexivity]);
      apply watch_changed_send, watch_of_new.
  - exact Hq.
Defined.

Lemma initialize_outcome_witness :
  fst (initialize demo_start) = Ok () ∧
  ∃ p, p ∈ with_carrier (list_to_map [(2, true); (3, true)]) <$> demo_interfaces ∧
    primary (sup_state (snd (initialize demo_start))) = Some (eth_name p).
Proof.
  split; [vm_compute; reflexivity|].
  destruct (initialize_outcome demo_start (Some demo_interfaces) 5000 5000
    (list_to_map [(2, true); (3, true)])) as ((p & Hp & E & _) & _).
  - reflexivity.
  - reflexivity.
  - exists p. split; [exact Hp|exact E].
Defined.

(** A bridge in the configuration, and a port that does not get configured: the
    initialization does not return, the network stays operational and the
    supervisor serves nothing any more. *)
Definition bridge_config : Config :=
  {| ipv6_enabled := true; config_dns := [];
     cfg_interfaces := [{| cfg_name := ustr "br0"; kind := KindBridge; cfg_ipv4 := None; cfg_ipv6 := None;
                           cfg_bridge := None |}] |}.
Theorem initialize_waits :
  let s := supervisor_new (W:=counted_watch) 5000 bridge_config resolver_default in
  fst (handle_supervisor_event (SupCommand CmdInitialize) s) = Err NeverReturns ∧
  net_state (sup_state (snd (initialize s))) = Operational.
Proof. split; vm_compute; reflexivity. Qed.

Lemma initialization_retried_witness : initialize_with_retry 1 10 1 [false; false] = None.
Proof.
  apply (initialization_retried 0 [false; false] []). repeat constructor.
Defined.
