(* ===== verification/FileSys.v ===== *)
(** The file system as the services use it through [std::fs] and [std::path]:
    a tree of directories and files without symbolic links.

    A path is text; [resolve] is the kernel's walk over its components. Every
    file carries the time of its last write. [read_error] and [write_error] are
    the files whose reads or writes fail; a failing write stores a prefix. *)

From stdpp Require Import gmap.
From S2P Require Import Prelude Io Utf Text Str.

Definition SLASH : Z := 47.
Definition DOT : Z := 46.

Record file := { bytes : list Z; mtime : Z }.

Record Fs := {
  files : gmap (list ustring) file;
  dirs : gset (list ustring);
  clock : Z;
  read_error : gmap (list ustring) io_error;
  write_error : gmap (list ustring) (io_error * nat)
}.

Definition set_files (fs : Fs) (fl : gmap (list ustring) file) : Fs :=
  {| files := fl; dirs := dirs fs; clock := clock fs; read_error := read_error fs;
     write_error := write_error fs |}.
Definition set_dirs (fs : Fs) (ds : gset (list ustring)) : Fs :=
  {| files := files fs; dirs := ds; clock := clock fs; read_error := read_error fs;
     write_error := write_error fs |}.
Definition set_clock (fs : Fs) (now : Z) : Fs :=
  {| files := files fs; dirs := dirs fs; clock := now; read_error := read_error fs;
     write_error := write_error fs |}.

(** ** Paths *)

(** [Path::join]: an absolute argument replaces the path. *)
Definition path_join (base p : ustring) : ustring :=
  if bool_decide (head p = Some SLASH) then p
  else if bool_decide (last base = Some SLASH) then base ++ p
  else base ++ [SLASH] ++ p.

(** [Path::with_extension] on a path whose last segment is a plain name. *)
Definition with_extension (p ext : ustring) : ustring :=
  let '(dir, name) := match rsplit_once SLASH p with
                      | Some (dir, name) => (dir ++ [SLASH], name)
                      | None => ([], p)
                      end in
  let stem := match rsplit_once DOT name with
              | Some (stem, _) => if bool_decide (stem = []) then name else stem
              | None => name
              end in
  dir ++ stem ++ [DOT] ++ ext.

Definition is_dir (fs : Fs) (c : list ustring) : bool := bool_decide (c = []) || bool_decide (c ∈ dirs fs).

Fixpoint walk (fs : Fs) (cur : list ustring) (comps : list ustring) : option (list ustring) :=
  match comps with
  | [] => Some cur
  | c :: comps =>
      if is_dir fs cur then
        if bool_decide (c = [] ∨ c = [DOT]) then walk fs cur comps
        else if bool_decide (c = [DOT; DOT]) then walk fs (removelast cur) comps
        else walk fs (cur ++ [c]) comps
      else None
  end.

Definition resolve (fs : Fs) (p : ustring) : option (list ustring) := walk fs [] (split_on SLASH p).

(** ** Operations *)

Definition ENOENT : io_error := OtherIo 2.
Definition EISDIR : io_error := OtherIo 21.
Definition ENOTDIR : io_error := OtherIo 20.
Definition INVALID_DATA : io_error := OtherIo 84.

Definition exists_ (fs : Fs) (p : ustring) : bool :=
  match resolve fs p with
  | Some c => bool_decide (is_Some (files fs !! c)) || is_dir fs c
  | None => false
  end.

Definition read_bytes (fs : Fs) (p : ustring) : res io_error (list Z) :=
  match resolve fs p with
  | None => Err ENOENT
  | Some c =>
      match files fs !! c with
      | None => Err (if is_dir fs c then EISDIR else ENOENT)
      | Some f => match read_error fs !! c with Some e => Err e | None => Ok (bytes f) end
      end
  end.

Definition read_to_string (fs : Fs) (p : ustring) : res io_error ustring :=
  bs ← read_bytes fs p;
  ok_or (from_utf8 bs) INVALID_DATA.

Definition modified (fs : Fs) (p : ustring) : res io_error Z :=
  match resolve fs p ≫= (λ c, files fs !! c) with
  | Some f => Ok (mtime f)
  | None => Err ENOENT
  end.

(** [fs::write], and creating, writing and syncing a file. *)
Definition write_file (fs : Fs) (p : ustring) (data : list Z) : res io_error unit * Fs :=
  match resolve fs p with
  | None => (Err ENOENT, fs)
  | Some c =>
      if is_dir fs c then (Err EISDIR, fs)
      else match write_error fs !! c with
           | Some (e, n) =>
               (Err e, set_files fs (<[c := {| bytes := take n data; mtime := clock fs |}]> (files fs)))
           | None => (Ok tt, set_files fs (<[c := {| bytes := data; mtime := clock fs |}]> (files fs)))
           end
  end.

(** [fs::rename] of a file over a file. *)
Definition rename (fs : Fs) (a b : ustring) : res io_error unit * Fs :=
  match resolve fs a, resolve fs b with
  | Some ca, Some cb =>
      match files fs !! ca with
      | None => (Err ENOENT, fs)
      | Some f => if is_dir fs cb then (Err EISDIR, fs)
                  else (Ok tt, set_files fs (<[cb := f]> (delete ca (files fs))))
      end
  | _, _ => (Err ENOENT, fs)
  end.

Definition remove_file (fs : Fs) (p : ustring) : res io_error unit * Fs :=
  match resolve fs p with
  | None => (Err ENOENT, fs)
  | Some c =>
      match files fs !! c with
      | None => (Err (if is_dir fs c then EISDIR else ENOENT), fs)
      | Some _ => match write_error fs !! c with
                  | Some (e, _) => (Err e, fs)
                  | None => (Ok tt, set_files fs (delete c (files fs)))
                  end
      end
  end.

(** [fs::create_dir_all] along plain components. *)
Fixpoint mkdirs (fs : Fs) (cur comps : list ustring) : res io_error unit * Fs :=
  match comps with
  | [] => (Ok tt, fs)
  | c :: comps =>
      if bool_decide (c = [] ∨ c = [DOT]) then mkdirs fs cur comps
      else
        let next := cur ++ [c] in
        if bool_decide (is_Some (files fs !! next)) then (Err ENOTDIR, fs)
        else mkdirs (set_dirs fs ({[next]} ∪ dirs fs)) next comps
  end.
Definition create_dir_all (fs : Fs) (p : ustring) : res io_error unit * Fs := mkdirs fs [] (split_on SLASH p).

(** ** Lemmas *)

Lemma read_written fs p data fs' :
  write_file fs p data = (Ok tt, fs') → (∀ c, resolve fs p = Some c → read_error fs !! c = None) →
  read_bytes fs' p = Ok data ∧ modified fs' p = Ok (clock fs).
Proof.
  unfold write_file, read_bytes, modified, resolve. intros E Hr.
  destruct (walk fs [] (split_on SLASH p)) as [c|] eqn:Ec; [|done].
  destruct (is_dir fs c) eqn:Ed; [done|]. destruct (write_error fs !! c) as [[e n]|]; [done|].
  injection E as <-. assert (∀ cur comps, walk (set_files fs (<[c := {| bytes := data; mtime := clock fs |}]>
    (files fs))) cur comps = walk fs cur comps) as Hw.
  { intros cur comps. revert cur. induction comps as [|x comps IH]; intros cur; [done|]. cbn [walk].
    change (is_dir (set_files fs _) cur) with (is_dir fs cur). rewrite !IH. done. }
  rewrite Hw, Ec. cbn [mbind option_bind files set_files read_error]. rewrite lookup_insert_eq.
  change (is_dir (set_files fs _) c) with (is_dir fs c). rewrite (Hr c eq_refl). done.
Qed.
