(* ===== verification/Perm.v ===== *)
(** Permissions of the access control (libs/config/src/permission.rs).

    The theorem: collapsing a list of permissions to patterns and expanding the
    patterns grants exactly what the list granted. *)

From stdpp Require Import gmap.
From S2P Require Import Prelude Utf Text Str Order.

Inductive Permission :=
| Admin | VmRead | VmCreate | VmStart | VmStop | VmDelete | VmUpload | AuthManage | SystemRead
| SystemUpdate | ProcessRead | SecurityRead.

#[global] Instance Permission_dec : EqDecision Permission.
Proof. solve_decision. Defined.

Definition CATEGORIES : list ustring :=
  [ustr "vm"; ustr "system"; ustr "auth"; ustr "process"; ustr "security"].

(** [Display] *)
Definition to_string (p : Permission) : ustring :=
  match p with
  | Admin => ustr "admin"
  | VmRead => ustr "vm:read"
  | VmCreate => ustr "vm:create"
  | VmStart => ustr "vm:start"
  | VmStop => ustr "vm:stop"
  | VmDelete => ustr "vm:delete"
  | VmUpload => ustr "vm:upload"
  | AuthManage => ustr "auth:manage"
  | SystemRead => ustr "system:read"
  | SystemUpdate => ustr "system:update"
  | ProcessRead => ustr "process:read"
  | SecurityRead => ustr "security:read"
  end.

Definition from_str (s : ustring) : res ustring Permission :=
  if bool_decide (s = ustr "admin") then Ok Admin else
  if bool_decide (s = ustr "vm:read") then Ok VmRead else
  if bool_decide (s = ustr "vm:create") then Ok VmCreate else
  if bool_decide (s = ustr "vm:start") then Ok VmStart else
  if bool_decide (s = ustr "vm:stop") then Ok VmStop else
  if bool_decide (s = ustr "vm:delete") then Ok VmDelete else
  if bool_decide (s = ustr "vm:upload") then Ok VmUpload else
  if bool_decide (s = ustr "auth:manage") then Ok AuthManage else
  if bool_decide (s = ustr "system:read") then Ok SystemRead else
  if bool_decide (s = ustr "system:update") then Ok SystemUpdate else
  if bool_decide (s = ustr "process:read") then Ok ProcessRead else
  if bool_decide (s = ustr "security:read") then Ok SecurityRead else
  Err (ustr "Unknown permission: " ++ s).

Definition all_in_category (category : ustring) : list Permission :=
  if bool_decide (category = ustr "vm") then [VmRead; VmCreate; VmStart; VmStop; VmDelete; VmUpload] else
  if bool_decide (category = ustr "system") then [SystemRead; SystemUpdate] else
  if bool_decide (category = ustr "auth") then [AuthManage] else
  if bool_decide (category = ustr "process") then [ProcessRead] else
  if bool_decide (category = ustr "security") then [SecurityRead] else [].

(** [CATEGORIES.join(", ")] *)
Definition categories_text : ustring := ustr "vm, system, auth, process, security".

Definition expand_pattern (pattern : ustring) : res ustring (list Permission) :=
  match strip_suffix (ustr ":*") pattern with
  | None => p ← from_str pattern; Ok [p]
  | Some category =>
      match all_in_category category with
      | [] => Err (ustr "Unknown permission category: '" ++ category ++ ustr "'. Valid categories: "
                     ++ categories_text)
      | perms => Ok perms
      end
  end.

Definition category (p : Permission) : option ustring :=
  match p with
  | Admin => None
  | VmRead | VmCreate | VmStart | VmStop | VmDelete | VmUpload => Some (ustr "vm")
  | AuthManage => Some (ustr "auth")
  | SystemRead | SystemUpdate => Some (ustr "system")
  | ProcessRead => Some (ustr "process")
  | SecurityRead => Some (ustr "security")
  end.

(** [Vec::dedup]: equal neighbours are merged. *)
Fixpoint dedup (l : list ustring) : list ustring :=
  match l with
  | [] => []
  | x :: l' => match dedup l' with
               | y :: r => if bool_decide (x = y) then y :: r else x :: y :: r
               | [] => [x]
               end
  end.

Definition full_categories (permissions : list Permission) : list ustring :=
  filter (λ c, Forall (λ p, p ∈ permissions) (all_in_category c)) CATEGORIES.

Definition collapse (permissions : list Permission) : list ustring :=
  if bool_decide (Admin ∈ permissions) then [ustr "admin"]
  else
    let full := full_categories permissions in
    let handled := full ≫= all_in_category in
    let remaining := to_string <$> filter (λ p, p ∉ handled) permissions in
    ((λ c, c ++ ustr ":*") <$> full)
    ++ dedup (stable_sort (λ a b, lex_leb (utf8 a) (utf8 b)) remaining).

(** What a list of patterns grants, as the enrollment expands it. *)
Fixpoint expand_all (patterns : list ustring) : res ustring (list Permission) :=
  match patterns with
  | [] => Ok []
  | p :: patterns => e ← expand_pattern p; rest ← expand_all patterns; Ok (e ++ rest)
  end.

(** ** Lemmas *)

Lemma from_str_to_string p : from_str (to_string p) = Ok p.
Proof. by destruct p. Qed.

Lemma to_string_from_str s p : from_str s = Ok p → s = to_string p.
Proof.
  unfold from_str. repeat (case_bool_decide as E; [rewrite E; intros [= <-]; reflexivity|clear E]). done.
Qed.

#[global] Instance to_string_inj : Inj (=) (=) to_string.
Proof. intros p q E. apply (f_equal from_str) in E. rewrite !from_str_to_string in E. congruence. Qed.

Lemma expand_one p : expand_pattern (to_string p) = Ok [p].
Proof. by destruct p. Qed.

Lemma expand_category c :
  c ∈ CATEGORIES → expand_pattern (c ++ ustr ":*") = Ok (all_in_category c).
Proof.
  intros Hc. unfold CATEGORIES in Hc.
  repeat (apply elem_of_cons in Hc as [->|Hc]; [reflexivity|]). by apply not_elem_of_nil in Hc.
Qed.

Lemma all_in_category_spec p c : p ∈ all_in_category c ↔ category p = Some c.
Proof.
  unfold all_in_category. repeat case_bool_decide; subst; rewrite ?elem_of_cons, ?elem_of_nil;
    destruct p; simpl; split; intros; destruct_or?; simplify_eq; try done; auto 10.
Qed.

Lemma elem_of_dedup s l : s ∈ dedup l ↔ s ∈ l.
Proof.
  induction l as [|x l IH]; [done|]. cbn [dedup]. rewrite elem_of_cons, <-IH.
  destruct (dedup l) as [|y r]; [set_solver|]. case_bool_decide; set_solver.
Qed.

Lemma expand_all_app a b ea eb :
  expand_all a = Ok ea → expand_all b = Ok eb → expand_all (a ++ b) = Ok (ea ++ eb).
Proof.
  revert ea. induction a as [|x a IH]; intros ea Ha Hb; cbn [expand_all app] in *; [by simplify_eq|].
  apply bind_Ok in Ha as (e & -> & Ha). apply bind_Ok in Ha as (r & Er & Ha). simplify_eq.
  cbn [mbind res_bind]. rewrite (IH r Er Hb). cbn [mbind res_bind]. by rewrite app_assoc.
Qed.

Lemma expand_all_categories cs :
  cs ⊆ CATEGORIES → expand_all ((λ c, c ++ ustr ":*") <$> cs) = Ok (cs ≫= all_in_category).
Proof.
  induction cs as [|c cs IH]; intros Hc; [done|]. cbn [fmap list_fmap expand_all].
  rewrite expand_category by set_solver. cbn [mbind res_bind list_bind].
  rewrite IH by set_solver. done.
Qed.

(** Any list of printed permissions expands to the same set. *)
Lemma expand_all_strings l :
  Forall (λ s, ∃ p, s = to_string p) l →
  ∃ ps, expand_all l = Ok ps ∧ l = to_string <$> ps.
Proof.
  induction 1 as [|s l [p ->] _ (ps & E & ->)]; [by exists []|]. exists (p :: ps).
  cbn [expand_all]. rewrite expand_one. cbn [mbind res_bind]. by rewrite E.
Qed.

(** The check of a user's permissions (services/apid/src/rbac/user.rs). *)
Definition has_permission (permissions : list Permission) (permission : Permission) : bool :=
  bool_decide (permission ∈ permissions) || bool_decide (Admin ∈ permissions).

(** Listing a user's permissions and granting the listing again changes nothing:
    the listing is always accepted, it grants a permission exactly when the user
    had it, and without the administrator it expands to the same permissions. *)
Theorem collapse_expand ps :
  ∃ qs, expand_all (collapse ps) = Ok qs ∧
    (∀ r, has_permission qs r = has_permission ps r) ∧
    (Admin ∉ ps → ∀ p, p ∈ qs ↔ p ∈ ps).
Proof.
  unfold collapse. case_bool_decide as Ha.
  { exists [Admin]. split; [reflexivity|]. split; [|done]. intros r. unfold has_permission.
    rewrite (bool_decide_eq_true_2 _ Ha), !orb_true_r. done. }
  set (full := full_categories ps).
  set (rest := dedup _).
  assert (Forall (λ s, ∃ p, s = to_string p) rest) as Hrest.
  { apply Forall_forall. intros s Hs. unfold rest in Hs. rewrite elem_of_dedup, stable_sort_perm in Hs.
    apply list_elem_of_fmap in Hs as (p & -> & _). eauto. }
  destruct (expand_all_strings rest Hrest) as (qs & Eq & Hqs).
  exists ((full ≫= all_in_category) ++ qs).
  assert (∀ p, p ∈ (full ≫= all_in_category) ++ qs ↔ p ∈ ps) as Hset.
  { intros p. rewrite elem_of_app.
    assert (p ∈ qs ↔ p ∉ (full ≫= all_in_category) ∧ p ∈ ps) as ->.
    { rewrite <-(list_elem_of_fmap_inj to_string), <-Hqs. unfold rest.
      rewrite elem_of_dedup, stable_sort_perm, (list_elem_of_fmap_inj to_string), list_elem_of_filter. done. }
    split; [|destruct (decide (p ∈ full ≫= all_in_category)); tauto].
    intros [Hin|[_ Hin]]; [|done]. apply list_elem_of_bind in Hin as (c & Hp & Hc).
    unfold full, full_categories in Hc. apply list_elem_of_filter in Hc as [Hall _].
    rewrite Forall_forall in Hall. by apply Hall. }
  split_and!.
  - apply expand_all_app; [|done]. apply expand_all_categories.
    intros c Hc. unfold full, full_categories in Hc. by apply list_elem_of_filter in Hc as [_ Hc].
  - intros r. unfold has_permission. f_equal; apply bool_decide_ext; apply Hset.
  - intros _. exact Hset.
Qed.
