(* ===== verification/SysConfig.v ===== *)
(** The system configuration (libs/config/src/system, error.rs, version.rs): the
    document, its validation, loading and the atomic writer.

    The TOML codec and the version parser are classes; a TOML value is a tree of
    tables over opaque leaves. *)

From stdpp Require Import gmap.
From S2P Require Import Prelude Io Utf Text Str Order NetFrame NetTypes FileSys.

(** ** Errors (error.rs) *)

Inductive ConfigError :=
| ReadError (e : io_error)
| ParseError (msg : ustring)
| SerializeError (msg : ustring)
| ValidationError (msg : ustring)
| UnsupportedVersion (found supported : ustring)
| AlreadyInitialized
| NotInitialized.

Definition invalid {A} (msg : string) : res ConfigError A := Err (ValidationError (ustr msg)).

(** ** Disks (disk.rs) *)

Module Disk.
Inductive Kind := System | Data.
#[global] Instance Kind_dec : EqDecision Kind.
Proof. solve_decision. Defined.

Record Entry := {
  role : Kind; device : option ustring; serial : option ustring; wwid : option ustring;
  model : option ustring; subsystem : option ustring; bus_path : option ustring;
  rotational : option bool
}.
#[global] Instance Entry_dec : EqDecision Entry.
Proof. solve_decision. Defined.

Definition device_entry (r : Kind) (dev : ustring) : Entry :=
  {| role := r; device := Some dev; serial := None; wwid := None; model := None; subsystem := None;
     bus_path := None; rotational := None |}.
Definition selector (r : Kind) : Entry :=
  {| role := r; device := None; serial := None; wwid := None; model := None; subsystem := None;
     bus_path := None; rotational := None |}.

Definition matchers (e : Entry) : list (ustring * option ustring) :=
  [(ustr "serial", serial e); (ustr "wwid", wwid e); (ustr "model", model e);
   (ustr "subsystem", subsystem e); (ustr "bus_path", bus_path e)].

Definition has_matcher (e : Entry) : bool := existsb (λ m, bool_decide (is_Some m.2)) (matchers e).

Definition is_selector (e : Entry) : bool := bool_decide (device e = None) && has_matcher e.

(** [iter().find(role)] *)
Definition find_role (r : Kind) (entries : list Entry) : option Entry :=
  head (filter (λ e, role e = r) entries).
Definition system (entries : list Entry) : option Entry := find_role System entries.
Definition data (entries : list Entry) : option Entry := find_role Data entries.
Definition is_split (entries : list Entry) : bool := bool_decide (is_Some (data entries)).

Definition label (r : Kind) : ustring := match r with System => ustr "system" | Data => ustr "data" end.

Definition disk_error {A} (r : Kind) (msg : ustring) : res ConfigError A :=
  Err (ValidationError (ustr "disk." ++ label r ++ msg)).

Fixpoint check_matchers (r : Kind) (ms : list (ustring * option ustring)) : res ConfigError unit :=
  match ms with
  | [] => Ok tt
  | (name, value) :: ms =>
      if bool_decide (value = Some []) then disk_error r (ustr "." ++ name ++ ustr " matcher must not be empty")
      else check_matchers r ms
  end.

Definition validate_entry (e : Entry) : res ConfigError unit :=
  match device e with
  | Some dev =>
      if bool_decide (dev = []) then disk_error (role e) (ustr " device must not be empty")
      else if has_matcher e then disk_error (role e) (ustr " entry cannot set both device and matchers")
      else Ok tt
  | None =>
      if negb (has_matcher e)
      then disk_error (role e) (ustr " entry requires a device or at least one matcher")
      else check_matchers (role e) (matchers e)
  end.

Definition count_role (r : Kind) (entries : list Entry) : nat := length (filter (λ e, role e = r) entries).

Definition validate_for_install (entries : list Entry) : res ConfigError unit :=
  match count_role System entries with
  | 1%nat =>
      if (1 <? count_role Data entries)%nat then invalid "disks must contain at most one data entry"
      else foldM (λ _ e, validate_entry e) tt entries
  | O => invalid "disks must contain exactly one system entry"
  | _ => invalid "disks must contain exactly one system entry, found several"
  end.

(** [{:?}] of an optional entry. *)
Class EntryDebug := debug_entry : option Entry → ustring.

(** One round of the loop over the roles. *)
Definition check_role `{EntryDebug} (current installed : list Entry) (r : Kind) : res ConfigError unit :=
  let before := find_role r installed in
  let after := find_role r current in
  if bool_decide (before ≠ after)
  then disk_error r (ustr " cannot be changed after install (installed: " ++ debug_entry before
                       ++ ustr ", requested: " ++ debug_entry after ++ ustr ")")
  else Ok tt.

Definition validate_immutable `{EntryDebug} (current installed : list Entry) : res ConfigError unit :=
  foldM (λ _ r, check_role current installed r) tt [System; Data].
End Disk.

(** ** The document (mod.rs, host.rs, vm.rs) *)

Record HostConfig := {
  name : ustring; registry : ustring; version : ustring; extensions : list ustring;
  secureboot : bool; port : Z; host_clock : ustring; ntp : ustring
}.
#[global] Instance HostConfig_dec : EqDecision HostConfig.
Proof. solve_decision. Defined.

Definition sort_strings (l : list ustring) : list ustring := stable_sort (λ a b, lex_leb (utf8 a) (utf8 b)) l.

Definition normalized (h : HostConfig) : HostConfig :=
  {| name := name h; registry := registry h; version := version h; extensions := sort_strings (extensions h);
     secureboot := secureboot h; port := port h; host_clock := host_clock h; ntp := ntp h |}.

Definition same_host (a b : HostConfig) : bool := bool_decide (normalized a = normalized b).

Record VmConfig := { auto_restart : bool }.
#[global] Instance VmConfig_dec : EqDecision VmConfig.
Proof. solve_decision. Defined.

#[global] Instance Cidr_dec A `{EqDecision A} : EqDecision (Cidr A).
Proof. solve_decision. Defined.
#[global] Instance Ipv4InterfaceConfig_dec : EqDecision Ipv4InterfaceConfig.
Proof. solve_decision. Defined.
#[global] Instance Ipv6InterfaceConfig_dec : EqDecision Ipv6InterfaceConfig.
Proof. solve_decision. Defined.
#[global] Instance BridgeConfig_dec : EqDecision BridgeConfig.
Proof. solve_decision. Defined.
#[global] Instance InterfaceKind_dec : EqDecision InterfaceKind.
Proof. solve_decision. Defined.
#[global] Instance InterfaceConfig_dec : EqDecision InterfaceConfig.
Proof. solve_decision. Defined.
#[global] Instance IpAddr_dec : EqDecision IpAddr.
Proof. solve_decision. Defined.
#[global] Instance NetConfig_dec : EqDecision NetTypes.Config.
Proof. solve_decision. Defined.

Definition API_VERSION : ustring := ustr "muak.dev/config/v1-beta".
Definition CONFIG_PATH : ustring := ustr "/run/state/config.toml".

Record SystemConfig := {
  api_version : ustring; host : HostConfig; disks : list Disk.Entry; network : NetTypes.Config;
  vm : VmConfig
}.

Definition same_as (a b : SystemConfig) : bool :=
  bool_decide (api_version a = api_version b)
  && same_host (host a) (host b)
  && bool_decide (Disk.system (disks a) = Disk.system (disks b))
  && bool_decide (Disk.data (disks a) = Disk.data (disks b))
  && bool_decide (network a = network b)
  && bool_decide (vm a = vm b).

Definition CLOCKS : list ustring := [ustr ""; ustr "auto"; ustr "hypervisor"; ustr "ntp"].

Definition validate (c : SystemConfig) : res ConfigError unit :=
  if bool_decide (name (host c) = []) then invalid "host.name must be specified"
  else if port (host c) =? 0 then invalid "host.port must be greater than 0"
  else if bool_decide (host_clock (host c) ∉ CLOCKS)
  then Err (ValidationError (ustr "host.clock must be one of " ++ [34] ++ ustr "auto" ++ [34; 44; 32; 34]
              ++ ustr "hypervisor" ++ [34] ++ ustr " or " ++ [34] ++ ustr "ntp" ++ [34]))
  else if bool_decide (ntp (host c) = []) && bool_decide (host_clock (host c) ≠ ustr "hypervisor")
  then invalid "host.ntp must be specified"
  else Ok tt.

Definition validate_for_install (c : SystemConfig) : res ConfigError unit :=
  _ ← validate c;
  if bool_decide (version (host c) = []) then invalid "host.version must be set"
  else Disk.validate_for_install (disks c).

Definition validate_for_update `{Disk.EntryDebug} (c installed : SystemConfig) : res ConfigError unit :=
  _ ← validate c;
  if bool_decide (version (host c) = []) then invalid "host.version must be set"
  else
    _ ← Disk.validate_immutable (disks c) (disks installed);
    Ok tt.

Definition isolates (previous next : SystemConfig) : bool :=
  bool_decide (network previous ≠ network next) || negb (port (host previous) =? port (host next)).

(** ** Loading and storing *)

(** The TOML codec of the document. *)
Class TomlCodec := {
  encode : SystemConfig → res ustring ustring;
  toml_decode : ustring → res ustring SystemConfig;
}.

Section codec.
Context `{TomlCodec}.

Definition decode (contents : ustring) : res ConfigError SystemConfig :=
  c ← map_err ParseError (toml_decode contents);
  if bool_decide (api_version c ≠ API_VERSION) then Err (UnsupportedVersion (api_version c) API_VERSION)
  else Ok c.

Definition parse_from_str (contents : ustring) : res ConfigError SystemConfig :=
  c ← decode contents;
  _ ← validate c;
  Ok c.

(** [default_toml] is the text compiled in from default.toml. *)
Definition load_from_path (default_toml : ustring) (fs : Fs) (path : ustring) : res ConfigError SystemConfig :=
  if exists_ fs path then
    contents ← map_err ReadError (read_to_string fs path);
    decode contents
  else decode default_toml.

(** The process-wide configuration, set once. *)
Definition init (default_toml : ustring) (fs : Fs) (global : option SystemConfig)
    : res ConfigError unit * option SystemConfig :=
  match (c ← load_from_path default_toml fs CONFIG_PATH; _ ← validate c; Ok c) with
  | Ok c => match global with
            | Some g => (Err AlreadyInitialized, Some g)
            | None => (Ok tt, Some c)
            end
  | Err e => (Err e, global)
  | Panic => (Panic, global)
  end.
End codec.

Definition write_atomic (fs : Fs) (path : ustring) (contents : list Z) : res ConfigError unit * Fs :=
  let tmp := with_extension path (ustr "tmp") in
  match write_file fs tmp contents with
  | (Ok _, fs) => let '(r, fs) := rename fs tmp path in (map_err ReadError r, fs)
  | (Err e, fs) => (Err (ReadError e), fs)
  | (Panic, fs) => (Panic, fs)
  end.

(** ** Differences of two documents *)

(** A TOML value: a table in key order, or a leaf. *)
Inductive Value (L : Type) :=
| Table (entries : list (ustring * Value L))
| Leaf (l : L).
Arguments Table {_}. Arguments Leaf {_}.

Class ValueText (L : Type) := value_text : Value L → ustring.

Definition join_path (prefix key : ustring) : ustring :=
  if bool_decide (prefix = []) then key else prefix ++ ustr "." ++ key.

Definition table_get {L} (key : ustring) (t : list (ustring * Value L)) : option (Value L) :=
  snd <$> head (filter (λ p, p.1 = key) t).

Section diff.
Context {L : Type} `{EqDecision L} `{ValueText L}.

Fixpoint value_eqb (a b : Value L) {struct a} : bool :=
  match a, b with
  | Leaf x, Leaf y => bool_decide (x = y)
  | Table ta, Table tb =>
      (fix go (ta tb : list (ustring * Value L)) : bool :=
         match ta, tb with
         | [], [] => true
         | (k, v) :: ta, (k', v') :: tb => bool_decide (k = k') && value_eqb v v' && go ta tb
         | _, _ => false
         end) ta tb
  | _, _ => false
  end.

Fixpoint diff_values (prefix : ustring) (before after : Value L) {struct before}
    : list (ustring * ustring * ustring) :=
  match before, after with
  | Table bt, Table at_ =>
      (fix go (entries : list (ustring * Value L)) : list (ustring * ustring * ustring) :=
         match entries with
         | [] => []
         | (key, before_value) :: entries =>
             match table_get key at_ with
             | Some after_value => diff_values (join_path prefix key) before_value after_value
             | None => [(join_path prefix key, value_text before_value, [])]
             end ++ go entries
         end) bt
      ++ ((λ p, (join_path prefix p.1, [], value_text p.2))
            <$> filter (λ p, table_get p.1 bt = None) at_)
  | _, _ =>
      if value_eqb before after then [] else [(prefix, value_text before, value_text after)]
  end.
End diff.

(** ** Releases (version.rs) *)

(** [semver::Version]. *)
Class Semver (V : Type) := {
  parse_version : ustring → res ustring V;
  version_lt : V → V → bool;
  major : V → Z;
}.

Inductive CompatibilityStatus :=
| Compatible
| MinorDrift (cli_newer : bool)
| MajorMismatch (cli_newer : bool).

Section version.
Context {V : Type} `{EqDecision V} `{Semver V}.

Definition parse_release (release : ustring) : res ConfigError V :=
  let core := default release (strip_prefix (ustr "v") release) in
  map_err (λ e, ValidationError (ustr "invalid release '" ++ release ++ ustr "': " ++ e)) (parse_version core).

Definition check_no_downgrade (new_release current_release : ustring) : res ConfigError unit :=
  new_version ← parse_release new_release;
  current_version ← parse_release current_release;
  if version_lt new_version current_version
  then Err (ValidationError (ustr "downgrade rejected: target release '" ++ new_release
              ++ ustr "' is older than installed release '" ++ current_release ++ ustr "'"))
  else Ok tt.

Definition check_compatibility (cli server : ustring) : CompatibilityStatus :=
  match parse_version cli, parse_version server with
  | Ok cli, Ok server =>
      if bool_decide (cli = server) then Compatible
      else if major cli =? major server then MinorDrift (version_lt server cli)
      else MajorMismatch (version_lt server cli)
  | _, _ => Compatible
  end.
End version.

(** ** Lemmas *)

Definition text_leb (a b : ustring) : bool := lex_leb (utf8 a) (utf8 b).

Lemma sort_strings_perm l k :
  Forall is_ustring l → Forall is_ustring k → sort_strings l = sort_strings k ↔ l ≡ₚ k.
Proof.
  intros Hl Hk. unfold sort_strings. fold text_leb. split.
  - intros E. by rewrite <-(stable_sort_perm text_leb l), E, stable_sort_perm.
  - intros Hp. apply (StronglySorted_unique_strong (λ x y, text_leb x y = true)).
    + intros x y Hx Hy Hxy Hyx. rewrite stable_sort_perm in Hx, Hy. rewrite Forall_forall in Hl, Hk.
      apply utf8_inj; [by apply Hl|by apply Hk|]. by apply lex_leb_antisym.
    + apply stable_sort_sorted; unfold text_leb; intros; [apply lex_leb_total|by eapply lex_leb_trans].
    + apply stable_sort_sorted; unfold text_leb; intros; [apply lex_leb_total|by eapply lex_leb_trans].
    + by rewrite !stable_sort_perm.
Qed.

(** Equal up to the order of the extensions. *)
Definition host_equiv (a b : HostConfig) : Prop :=
  name a = name b ∧ registry a = registry b ∧ version a = version b ∧ extensions a ≡ₚ extensions b ∧
  secureboot a = secureboot b ∧ port a = port b ∧ host_clock a = host_clock b ∧ ntp a = ntp b.

Lemma same_host_spec a b :
  Forall is_ustring (extensions a) → Forall is_ustring (extensions b) →
  same_host a b = true ↔ host_equiv a b.
Proof.
  intros Ha Hb. unfold same_host, host_equiv. rewrite bool_decide_eq_true, <-sort_strings_perm by done.
  destruct a, b. unfold normalized. simpl. split; [intros [= -> -> -> -> -> -> ->]; auto 10|].
  intros (-> & -> & -> & -> & -> & -> & -> & ->). done.
Qed.

(** A disk entry that selects a disk in exactly one way. *)
Definition entry_ok (e : Disk.Entry) : Prop :=
  match Disk.device e with
  | Some dev => dev ≠ [] ∧ Forall (λ m, m.2 = None) (Disk.matchers e)
  | None => Exists (λ m, is_Some m.2) (Disk.matchers e) ∧ Forall (λ m, m.2 ≠ Some []) (Disk.matchers e)
  end.

Lemma has_matcher_spec e :
  Disk.has_matcher e = true ↔ Exists (λ m, is_Some m.2) (Disk.matchers e).
Proof.
  unfold Disk.has_matcher. rewrite existsb_exists, Exists_exists. split.
  - intros (m & Hin & Hm%bool_decide_eq_true). exists m. split; [by apply list_elem_of_In|done].
  - intros (m & Hin & Hm). exists m. split; [by apply list_elem_of_In|by apply bool_decide_eq_true_2].
Qed.

Lemma check_matchers_spec r ms : Disk.check_matchers r ms = Ok tt ↔ Forall (λ m, m.2 ≠ Some []) ms.
Proof.
  induction ms as [|[n v] ms IH]; cbn [Disk.check_matchers]; [by split|].
  rewrite Forall_cons, <-IH. cbn [snd]. case_bool_decide; [split; [done|tauto]|tauto].
Qed.

Lemma validate_entry_spec e : Disk.validate_entry e = Ok tt ↔ entry_ok e.
Proof.
  unfold Disk.validate_entry, entry_ok. destruct (Disk.device e) as [dev|].
  - case_bool_decide; [split; [done|tauto]|].
    destruct (Disk.has_matcher e) eqn:Em.
    + apply has_matcher_spec, Exists_exists in Em as (m & Hin & [v Hv]). split; [done|].
      intros [_ Hall]. rewrite Forall_forall in Hall. apply Hall in Hin. congruence.
    + split; [|done]. intros _. split; [done|]. apply Forall_forall. intros m Hin.
      destruct m.2 eqn:E; [|done]. assert (Disk.has_matcher e = true) as Ht; [|congruence].
      apply has_matcher_spec, Exists_exists. exists m. split; [done|]. by rewrite E.
  - destruct (Disk.has_matcher e) eqn:Em; cbn [negb].
    + rewrite check_matchers_spec. apply has_matcher_spec in Em. tauto.
    + split; [done|]. intros [Hx _]. apply has_matcher_spec in Hx. congruence.
Qed.

Lemma foldM_all {E A} (f : A → res E unit) l :
  foldM (λ _ a, f a) tt l = Ok tt ↔ Forall (λ a, f a = Ok tt) l.
Proof.
  induction l as [|a l IH]; cbn [foldM]; [by split|]. rewrite Forall_cons, <-IH.
  destruct (f a) as [[]| |]; cbn [mbind res_bind]; split; [tauto|tauto|done|by intros [? _]|done|by intros [? _]].
Qed.

Lemma check_role_spec `{Disk.EntryDebug} cur inst r :
  Disk.check_role cur inst r = Ok tt ↔ Disk.find_role r cur = Disk.find_role r inst.
Proof.
  unfold Disk.check_role. case_bool_decide as E; [split; [done|]; intros; by destruct E|].
  by split.
Qed.

(** ** Validation *)

Definition base_ok (c : SystemConfig) : Prop :=
  name (host c) ≠ [] ∧ port (host c) ≠ 0 ∧ host_clock (host c) ∈ CLOCKS ∧
  (ntp (host c) ≠ [] ∨ host_clock (host c) = ustr "hypervisor").

Lemma validate_spec c : validate c = Ok tt ↔ base_ok c.
Proof.
  unfold validate, base_ok, invalid. case_bool_decide; [split; [done|tauto]|].
  destruct (Z.eqb_spec (port (host c)) 0); [split; [done|tauto]|].
  case_bool_decide; [split; [done|tauto]|].
  destruct (bool_decide (ntp (host c) = []) && bool_decide (host_clock (host c) ≠ ustr "hypervisor")) eqn:E.
  - apply andb_true_iff in E as [E1%bool_decide_eq_true E2%bool_decide_eq_true]. split; [done|tauto].
  - split; [|done]. intros _. split_and!; [done..|destruct (decide (host_clock (host c) ∈ CLOCKS)); tauto|].
    destruct (decide (ntp (host c) = [])) as [E1|]; [|by left]. right.
    destruct (decide (host_clock (host c) = ustr "hypervisor")) as [|E2]; [done|].
    rewrite !bool_decide_eq_true_2 in E by done. done.
Qed.

(** A configuration is accepted for installation exactly when the host has a
    name, a port, a known clock with its server and a release, one disk is the
    system disk, at most one the data disk, and every entry names a device or
    gives matchers, none of them empty. *)
Theorem install_accepted_iff c :
  validate_for_install c = Ok tt ↔
  base_ok c ∧ version (host c) ≠ [] ∧
  length (filter (λ e, Disk.role e = Disk.System) (disks c)) = 1%nat ∧
  (length (filter (λ e, Disk.role e = Disk.Data) (disks c)) ≤ 1)%nat ∧ Forall entry_ok (disks c).
Proof.
  rewrite <-validate_spec. unfold validate_for_install, invalid.
  destruct (validate c) as [[]| |]; cbn [mbind res_bind]; [|split; [done|by intros [? _]]..].
  case_bool_decide; [split; [done|tauto]|].
  unfold Disk.validate_for_install, invalid. fold (Disk.count_role Disk.System (disks c)).
  fold (Disk.count_role Disk.Data (disks c)).
  destruct (Disk.count_role Disk.System (disks c)) as [|[|n]];
    [split; [done|by intros (_ & _ & ? & _)]| |split; [done|by intros (_ & _ & ? & _)]].
  destruct (Nat.ltb_spec 1 (Disk.count_role Disk.Data (disks c))) as [Hlt|Hge].
  { split; [done|]. intros (_ & _ & _ & ? & _). lia. }
  rewrite foldM_all. assert (Forall (λ a, Disk.validate_entry a = Ok tt) (disks c) ↔ Forall entry_ok (disks c)) as ->.
  { split; intros Hf; (eapply Forall_impl; [exact Hf|]); intros e He; by apply validate_entry_spec. }
  split; [|tauto]. intros Hf. split_and!; done.
Qed.

(** An update is accepted exactly when the base validation passes, a release is
    set, and the first system entry and the first data entry are the installed
    ones. *)
Theorem update_accepted_iff `{Disk.EntryDebug} c installed :
  validate_for_update c installed = Ok tt ↔
  base_ok c ∧ version (host c) ≠ [] ∧
  Disk.system (disks c) = Disk.system (disks installed) ∧ Disk.data (disks c) = Disk.data (disks installed).
Proof.
  rewrite <-validate_spec. unfold validate_for_update, invalid.
  destruct (validate c) as [[]| |]; cbn [mbind res_bind]; [|split; [done|by intros [? _]]..].
  case_bool_decide; [split; [done|tauto]|].
  unfold Disk.validate_immutable, Disk.system, Disk.data.
  rewrite <-!check_role_spec. pose proof (foldM_all (Disk.check_role (disks c) (disks installed))
    [Disk.System; Disk.Data]) as Hall. rewrite !Forall_cons in Hall.
  destruct (foldM _ _ _) as [[]| |]; cbn [mbind res_bind]; split; try done; try tauto;
    intros (_ & _ & E1 & E2); by apply Hall.
Qed.

(** Two configurations describe the same system exactly when they agree up to
    the order of the extensions and on the first entry of each disk role. *)
Theorem same_as_iff a b :
  Forall is_ustring (extensions (host a)) → Forall is_ustring (extensions (host b)) →
  same_as a b = true ↔
  api_version a = api_version b ∧ host_equiv (host a) (host b) ∧
  Disk.system (disks a) = Disk.system (disks b) ∧ Disk.data (disks a) = Disk.data (disks b) ∧
  network a = network b ∧ vm a = vm b.
Proof.
  intros Ha Hb. unfold same_as. rewrite !andb_true_iff, !bool_decide_eq_true, same_host_spec by done. tauto.
Qed.

(** ** The atomic writer *)

Lemma walk_set_files fs fl cur comps : walk (set_files fs fl) cur comps = walk fs cur comps.
Proof.
  revert cur. induction comps as [|x comps IH]; intros cur; [done|]. cbn [walk].
  change (is_dir (set_files fs fl) cur) with (is_dir fs cur). rewrite !IH. done.
Qed.

Lemma resolve_set_files fs fl p : resolve (set_files fs fl) p = resolve fs p.
Proof. apply walk_set_files. Qed.

Lemma write_atomic_atomic fs path data r fs' ct cp :
  resolve fs (with_extension path (ustr "tmp")) = Some ct → resolve fs path = Some cp → ct ≠ cp →
  write_atomic fs path data = (r, fs') →
  (∀ c, c ≠ ct → c ≠ cp → files fs' !! c = files fs !! c) ∧
  match r with
  | Ok _ => files fs' !! cp = Some {| bytes := data; mtime := clock fs |} ∧ files fs' !! ct = None
  | Err _ => files fs' !! cp = files fs !! cp
  | Panic => False
  end.
Proof.
  intros Ht Hp Hne. unfold write_atomic, write_file. rewrite Ht.
  destruct (is_dir fs ct) eqn:Ed; [intros [= <- <-]; done|].
  destruct (write_error fs !! ct) as [[e n]|].
  { intros [= <- <-]. cbn [files set_files]. split; [|by rewrite lookup_insert_ne].
    intros c Hc _. by rewrite lookup_insert_ne. }
  unfold rename. rewrite !resolve_set_files, Ht, Hp. cbn [files set_files]. rewrite lookup_insert_eq.
  change (is_dir (set_files fs _) cp) with (is_dir fs cp).
  destruct (is_dir fs cp); intros [= <- <-]; cbn [files set_files map_err].
  - split; [|by rewrite lookup_insert_ne]. intros c Hc _. by rewrite lookup_insert_ne.
  - split; [|split; [by rewrite lookup_insert_eq|]].
    + intros c Hc Hcp. by rewrite lookup_insert_ne, lookup_delete_ne, lookup_insert_ne.
    + by rewrite lookup_insert_ne, lookup_delete_eq.
Qed.

(** C38: Whatever fails, a file other than the temporary one holds its old bytes or,
    after success, the path holds exactly the new ones: no reader sees a partly
    written file. *)
Theorem write_atomic_spec fs path data r fs' ct cp :
  resolve fs (with_extension path (ustr "tmp")) = Some ct → resolve fs path = Some cp → ct ≠ cp →
  write_atomic fs path data = (r, fs') →
  (∀ c, c ≠ ct → c ≠ cp → files fs' !! c = files fs !! c) ∧
  match r with
  | Ok _ => files fs' !! cp = Some {| bytes := data; mtime := clock fs |} ∧ files fs' !! ct = None
  | Err _ => files fs' !! cp = files fs !! cp
  | Panic => False
  end.
Proof. apply write_atomic_atomic. Qed.

(** ** Differences *)

Section diff_proofs.
Context {L : Type} `{EqDecision L} `{ValueText L}.
Implicit Types v : Value L.

(** Nested induction. *)
Lemma value_ind' (P : Value L → Prop) :
  (∀ t, Forall (λ p, P p.2) t → P (Table t)) → (∀ l, P (Leaf l)) → ∀ v, P v.
Proof.
  intros Ht Hl. fix IH 1. intros [t|l]; [|apply Hl]. apply Ht.
  induction t as [|[k v] t IHt]; constructor; [apply IH|exact IHt].
Qed.

(** Keys in order, without repetition. *)
Fixpoint wf_value (v : Value L) : Prop :=
  match v with
  | Leaf _ => True
  | Table t =>
      Forall is_ustring t.*1 ∧ NoDup t.*1 ∧
      StronglySorted (λ a b, text_leb a b = true) t.*1 ∧
      (fix go (t : list (ustring * Value L)) : Prop :=
         match t with [] => True | (_, v) :: t => wf_value v ∧ go t end) t
  end.

Lemma wf_entries t :
  ((fix go (t : list (ustring * Value L)) : Prop :=
      match t with [] => True | (_, v) :: t => wf_value v ∧ go t end) t) ↔ Forall (λ p, wf_value p.2) t.
Proof.
  induction t as [|[k v] t IH]; [by split|]. rewrite Forall_cons, IH. done.
Qed.

Lemma value_eqb_eq v1 v2 : value_eqb v1 v2 = true ↔ v1 = v2.
Proof.
  revert v2. induction v1 as [t IH|l] using value_ind'; intros [t2|l2]; cbn [value_eqb]; try done.
  2: { rewrite bool_decide_eq_true. split; [by intros ->|by intros [= ->]]. }
  transitivity (t = t2); [|split; [by intros ->|by intros [= ->]]].
  revert t2. induction IH as [|[k v] t Hv _ IHt]; intros [|[k2 v2] t2]; try done.
  rewrite !andb_true_iff, bool_decide_eq_true, IHt. cbn [snd] in Hv. rewrite Hv.
  split; [by intros [[-> ->] ->]|by intros [= -> -> ->]].
Qed.

Lemma table_get_Some (key : ustring) (t : list (ustring * Value L)) v :
  NoDup t.*1 → table_get key t = Some v ↔ (key, v) ∈ t.
Proof.
  intros Hnd. unfold table_get. induction t as [|[k w] t IH]; [by split; [|intros ?%not_elem_of_nil]|].
  cbn [fmap list_fmap] in Hnd. apply NoDup_cons in Hnd as [Hk Hnd]. rewrite filter_cons, elem_of_cons.
  case_decide as E; cbn [fst] in *; [subst|].
  - cbn [head fmap option_fmap option_map snd]. split; [intros [= ->]; auto|].
    intros [[= ->]|Hin]; [done|]. destruct Hk. apply list_elem_of_fmap. by exists (key, v).
  - rewrite (IH Hnd). split; [auto|]. intros [[= -> ->]|?]; done.
Qed.

Lemma table_get_None (key : ustring) (t : list (ustring * Value L)) :
  table_get key t = None ↔ key ∉ t.*1.
Proof.
  unfold table_get. induction t as [|[k w] t IH]; [split; [intros _; apply not_elem_of_nil|done]|].
  cbn [fmap list_fmap]. rewrite filter_cons, not_elem_of_cons. case_decide as E; cbn [fst snd] in *.
  - split; [done|]. intros [? _]. congruence.
  - rewrite IH. split; [|tauto]. intros ?. split; [congruence|done].
Qed.

(** Tables with the same entries are equal. *)
Lemma tables_equal (t1 t2 : list (ustring * Value L)) :
  wf_value (Table t1) → wf_value (Table t2) → (∀ p, p ∈ t1 ↔ p ∈ t2) → t1 = t2.
Proof.
  intros (U1 & N1 & S1 & _) (U2 & N2 & S2 & _) Hset.
  assert (∀ t : list (ustring * Value L), StronglySorted (λ a b, text_leb a b = true) t.*1 →
    StronglySorted (λ p q, text_leb p.1 q.1 = true) t) as Hs.
  { induction t as [|p t IH]; intros Hst; [constructor|]. inversion Hst as [|? ? Ht Hp]; subst.
    constructor; [by apply IH|]. by apply Forall_fmap in Hp. }
  apply (StronglySorted_unique_strong (λ p q, text_leb p.1 q.1 = true)); [|by apply Hs..|].
  - intros [k1 v1] [k2 v2] H1 H2 L1 L2. cbn [fst] in *.
    assert (k1 = k2) as ->.
    { apply utf8_inj; [| |by apply lex_leb_antisym]; rewrite Forall_forall in U1, U2;
        [apply U1|apply U2]; apply list_elem_of_fmap; by eexists (_, _). }
    f_equal. apply Hset in H1. apply table_get_Some in H1, H2; [congruence|done..].
  - apply NoDup_Permutation; [by eapply NoDup_fmap_1..|done].
Qed.

Lemma diff_entries prefix bt at_ :
  (fix go (entries : list (ustring * Value L)) : list (ustring * ustring * ustring) :=
     match entries with
     | [] => []
     | (key, before_value) :: entries =>
         match table_get key at_ with
         | Some after_value => diff_values (join_path prefix key) before_value after_value
         | None => [(join_path prefix key, value_text before_value, [])]
         end ++ go entries
     end) bt = [] ↔
  Forall (λ p, ∃ v', table_get p.1 at_ = Some v' ∧ diff_values (join_path prefix p.1) p.2 v' = []) bt.
Proof.
  induction bt as [|[k v] bt IH]; [by split|]. rewrite Forall_cons, <-IH. cbn [fst snd].
  destruct (table_get k at_) as [v'|]; cbn [app].
  - rewrite app_nil. split; [intros [? ?]; eauto|]. intros [(w & [= ->] & ?) ?]. done.
  - split; [done|]. by intros [(w & ? & _) _].
Qed.

Lemma fmap_filter_nil {A B} (f : A → B) (P : A → Prop) `{∀ x, Decision (P x)} (l : list A) :
  f <$> filter P l = [] ↔ Forall (λ x, ¬ P x) l.
Proof.
  induction l as [|x l IH]; [by split|]. rewrite filter_cons, Forall_cons. case_decide; [split; [done|tauto]|].
  rewrite IH. tauto.
Qed.

Lemma diff_empty prefix before after :
  wf_value before → wf_value after → diff_values prefix before after = [] ↔ before = after.
Proof.
  revert prefix after. induction before as [bt IH|l] using value_ind'; intros prefix [at_|l'] Hb Ha;
    cbn [diff_values].
  - rewrite app_nil, diff_entries, fmap_filter_nil.
    pose proof Hb as (_ & Nb & _ & Wb). pose proof Ha as (_ & Na & _ & Wa). rewrite wf_entries in Wb, Wa.
    rewrite !Forall_forall in *. split.
    + intros [H1 H2]. f_equal. apply tables_equal; [done..|].
      assert (∀ p, p ∈ bt → p ∈ at_) as Hin.
      { intros [k v] Hp. destruct (H1 _ Hp) as (v' & Hg & Hd). cbn [fst snd] in *.
        apply table_get_Some in Hg; [|done]. apply (IH _ Hp) in Hd; [by rewrite <-Hd in Hg|by apply (Wb _ Hp)|].
        by apply (Wa _ Hg). }
      intros [k v]. split; [apply Hin|]. intros Hp.
      pose proof (H2 _ Hp) as Hk. rewrite table_get_None in Hk. cbn [fst] in Hk.
      apply dec_stable in Hk. apply list_elem_of_fmap in Hk as ([k' w] & Ek & Hw). cbn [fst] in Ek. subst k'.
      pose proof (Hin _ Hw) as Hw'. apply table_get_Some in Hw', Hp; [|done..]. by simplify_eq.
    + intros [= ->]. split.
      * intros [k v] Hp. exists v. cbn [fst snd]. split; [by apply table_get_Some|].
        apply (IH _ Hp); [by apply (Wa _ Hp)..|done].
      * intros [k v] Hp Hn. apply table_get_None in Hn. cbn [fst] in Hn. destruct Hn.
        apply list_elem_of_fmap. by exists (k, v).
  - destruct (value_eqb (Table bt) (Leaf l')) eqn:E; [by apply value_eqb_eq in E|done].
  - destruct (value_eqb (Leaf l) (Table at_)) eqn:E; [by apply value_eqb_eq in E|done].
  - destruct (value_eqb (Leaf l) (Leaf l')) eqn:E; [by apply value_eqb_eq in E|].
    split; [done|]. intros Heq. apply value_eqb_eq in Heq. congruence.
Qed.

(** Two documents have no differences exactly when they are the same value. *)
Theorem diff_empty_iff before after :
  wf_value before → wf_value after → diff_values [] before after = [] ↔ before = after.
Proof. apply diff_empty. Qed.
End diff_proofs.

(** ** Concrete configurations *)

Module Demo.
(** Closed texts of ASCII characters. *)
Ltac ascii_texts :=
  cbn; repeat (apply Forall_cons_2 || apply Forall_nil_2); unfold is_char; lia.

Definition demo_host : HostConfig :=
  {| name := ustr "muak"; registry := ustr "ghcr.io/muak-os"; version := ustr "v1.1.0";
     extensions := [ustr "b"; ustr "a"]; secureboot := true; port := 50051; host_clock := [];
     ntp := ustr "pool.ntp.org" |}.
Definition config (ds : list Disk.Entry) : SystemConfig :=
  {| api_version := API_VERSION; host := demo_host; disks := ds;
     network := {| ipv6_enabled := true; config_dns := []; cfg_interfaces := [] |};
     vm := {| auto_restart := true |} |}.
Definition disk (r : Disk.Kind) : Disk.Entry := Disk.device_entry r (ustr "/dev/vda").

Example accepted : validate_for_install (config [disk Disk.System]) = Ok tt.
Proof. reflexivity. Qed.
Example several : is_ok (validate_for_install (config [disk Disk.System; disk Disk.System])) = false.
Proof. reflexivity. Qed.

Definition reordered : SystemConfig :=
  {| api_version := API_VERSION;
     host := {| name := name demo_host; registry := registry demo_host; version := version demo_host;
                extensions := [ustr "a"; ustr "b"]; secureboot := secureboot demo_host; port := port demo_host;
                host_clock := host_clock demo_host; ntp := ntp demo_host |};
     disks := [disk Disk.System]; network := network (config []); vm := vm (config []) |}.

Lemma same_as_iff_witness :
  let a := config [disk Disk.System] in let b := reordered in
  same_as a b = true ∧
  (same_as a b = true ↔
   api_version a = api_version b ∧ host_equiv (host a) (host b) ∧
   Disk.system (disks a) = Disk.system (disks b) ∧ Disk.data (disks a) = Disk.data (disks b) ∧
   network a = network b ∧ vm a = vm b).
Proof.
  intros a b. split; [reflexivity|].
  apply (same_as_iff a b); ascii_texts.
Defined.

Definition fs0 : Fs :=
  {| files := {[[ustr "run"; ustr "c.toml"] := {| bytes := [1; 2]; mtime := 5 |}]};
     dirs := {[[ustr "run"]]}; clock := 9; read_error := ∅; write_error := ∅ |}.

Lemma write_atomic_spec_witness :
  ∃ r fs', write_atomic fs0 (ustr "/run/c.toml") [7] = (r, fs') ∧
  (∀ c, c ≠ [ustr "run"; ustr "c.tmp"] → c ≠ [ustr "run"; ustr "c.toml"] → files fs' !! c = files fs0 !! c) ∧
  match r with
  | Ok _ => files fs' !! [ustr "run"; ustr "c.toml"] = Some {| bytes := [7]; mtime := clock fs0 |} ∧
            files fs' !! [ustr "run"; ustr "c.tmp"] = None
  | Err _ => files fs' !! [ustr "run"; ustr "c.toml"] = files fs0 !! [ustr "run"; ustr "c.toml"]
  | Panic => False
  end.
Proof.
  destruct (write_atomic fs0 (ustr "/run/c.toml") [7]) as [r fs'] eqn:E. exists r, fs'. split; [done|].
  apply (write_atomic_spec fs0 (ustr "/run/c.toml") [7] r fs'); [reflexivity|reflexivity|discriminate|exact E].
Defined.

#[local] Instance demo_text : ValueText Z := λ _, [].
Lemma diff_empty_iff_witness :
  let t := Table [(ustr "a", Leaf 1); (ustr "b", Table [(ustr "c", Leaf 2)])] in
  diff_values [] t t = [] ∧ (diff_values [] t t = [] ↔ t = t).
Proof.
  intros t. split; [reflexivity|].
  assert (wf_value t) as Hwf.
  { unfold t. split; [ascii_texts|]. split; [apply (bool_decide_eq_true_1 _); reflexivity|].
    split; [repeat constructor|]. split; [done|]. split; [|done].
    split; [ascii_texts|]. split; [apply (bool_decide_eq_true_1 _); reflexivity|]. split; [repeat constructor|done]. }
  apply (diff_empty_iff t t); exact Hwf.
Defined.
End Demo.
