(* ===== verification/Auth.v ===== *)
(** Authorized users: the cached state file (libs/config/src/auth.rs) and the
    enrollment service that changes it (services/provisiond/src/ipc/auth.rs).

    The TOML codec of the state and the certificate operations of the pki crate
    are classes. Every process has its own cache of the one file. *)

From stdpp Require Import gmap.
From S2P Require Import Prelude Io Utf Text Str FileSys Perm SysConfig.

(** ** The state and its cache (auth.rs) *)

Definition AUTH_PATH : ustring := ustr "/run/state/auth.toml".

Record User := { fingerprint : ustring; permissions : list Permission }.
Record State := { users : list User; revoked : list ustring }.

Definition default_state : State := {| users := []; revoked := [] |}.

Class TomlState := {
  encode_state : State → res ustring ustring;
  decode_state : ustring → res ustring State;
}.
Class TomlStateLaws `{TomlState} : Prop := {
  decode_encode_state st s : encode_state st = Ok s → decode_state s = Ok st;
  encode_state_text st s : encode_state st = Ok s → is_ustring s;
}.

Record AuthCache := { cached : State; cached_mtime : Z }.

Section auth.
Context `{TomlState}.

Definition serialize_state (st : State) : res ConfigError ustring := map_err SerializeError (encode_state st).
Definition parse_state (contents : ustring) : res ConfigError State := map_err ParseError (decode_state contents).

Definition load_state (fs : Fs) (path : ustring) : res ConfigError State :=
  if exists_ fs path then
    contents ← map_err ReadError (read_to_string fs path);
    parse_state contents
  else Ok default_state.

(** Seconds since the epoch, zero when there is no file. *)
Definition file_mtime (fs : Fs) (path : ustring) : Z :=
  match modified fs path with Ok t => t | _ => 0 end.

(** [OnceLock::set] keeps a cache that is already there. *)
Definition init_auth (fs : Fs) (cache : option AuthCache) : res ConfigError unit * option AuthCache :=
  match (if exists_ fs AUTH_PATH then st ← load_state fs AUTH_PATH; Ok (st, file_mtime fs AUTH_PATH)
         else Ok (default_state, 0)) with
  | Ok (st, t) =>
      (Ok tt, match cache with
              | Some c => Some c
              | None => Some {| cached := st; cached_mtime := t |}
              end)
  | Err e => (Err e, cache)
  | Panic => (Panic, cache)
  end.

(** The contents and the time are read one after the other: [fs1] and [fs2] are
    the file system at the two moments. *)
Definition load_with_mtime (fs1 fs2 : Fs) : State * Z :=
  (match load_state fs1 AUTH_PATH with Ok st => st | _ => default_state end, file_mtime fs2 AUTH_PATH).

Definition try_current (fs0 fs1 fs2 : Fs) (cache : option AuthCache) : option State * option AuthCache :=
  match cache with
  | None => (None, None)
  | Some c =>
      let c := if negb (file_mtime fs0 AUTH_PATH =? cached_mtime c)
               then let '(st, t) := load_with_mtime fs1 fs2 in {| cached := st; cached_mtime := t |}
               else c in
      (Some (cached c), Some c)
  end.

Definition current (fs0 fs1 fs2 : Fs) (cache : option AuthCache) : res ConfigError State * option AuthCache :=
  let '(st, cache) := try_current fs0 fs1 fs2 cache in
  (ok_or st NotInitialized, cache).
End auth.

(** ** Enrollment (ipc/auth.rs) *)

Definition SECRETS_DIR : ustring := ustr "/run/state/secrets".
Definition pending_dir : ustring := path_join SECRETS_DIR (ustr "pending").
Definition staging_dir : ustring := path_join SECRETS_DIR (ustr "staging").
Definition ca_cert_path : ustring := path_join SECRETS_DIR (ustr "ca.crt").
Definition ca_key_path : ustring := path_join SECRETS_DIR (ustr "ca.key").
Definition pending_csr_path (fp : ustring) : ustring := path_join pending_dir (fp ++ ustr ".pem").
Definition staging_cert_path (fp : ustring) : ustring := path_join staging_dir (fp ++ ustr ".crt").

(** The pki crate: the fingerprint of a request's public key, and signing a
    request with the key and certificate of the authority, which gives the
    certificate and the fingerprint of the certificate. *)
Class Pki := {
  compute_fingerprint : ustring → res ustring ustring;
  sign_csr : ustring → ustring → ustring → res ustring (ustring * ustring);
}.

Inductive Code := InvalidArgument | AlreadyExists | NotFound | Internal | FailedPrecondition.
Record Status := { code : Code; message : ustring }.
Definition fail (c : Code) (msg : ustring) : Status := {| code := c; message := msg |}.

Inductive CsrStatus := Pending | Approved | Rejected | StatusNotFound.
Record GetCsrStatusResponse := {
  csr_status : CsrStatus; cert_pem : ustring; ca_pem : ustring; server_name : ustring
}.
Definition bare_status (st : CsrStatus) : GetCsrStatusResponse :=
  {| csr_status := st; cert_pem := []; ca_pem := []; server_name := [] |}.

(** What a provisioning process sees: the file system, its cache, and the name
    of the host once the configuration is initialized. *)
Record World := { fs : Fs; auth_cache : option AuthCache; host_name : option ustring }.
Definition with_fs (w : World) (f : Fs) : World :=
  {| fs := f; auth_cache := auth_cache w; host_name := host_name w |}.
Definition with_cache (w : World) (c : option AuthCache) : World :=
  {| fs := fs w; auth_cache := c; host_name := host_name w |}.

(** A handler keeps what it changed when it fails. *)
Definition io (A : Type) : Type := World → res Status A * World.
#[global] Instance io_ret : MRet io := λ A a w, (Ok a, w).
#[global] Instance io_bind : MBind io := λ A B f m w,
  match m w with
  | (Ok a, w) => f a w
  | (Err e, w) => (Err e, w)
  | (Panic, w) => (Panic, w)
  end.
Definition lift_res {A} (r : res Status A) : io A := λ w, (r, w).
Definition get_fs : io Fs := λ w, (Ok (fs w), w).

Class ErrorText := { io_text : io_error → ustring; config_text : ConfigError → ustring }.

Section enrollment.
Context `{TomlState} `{Pki} `{ErrorText}.

(** A file operation whose error becomes a status. *)
Definition file_op (c : Code) (what : ustring) (f : Fs → res io_error unit * Fs) : io unit := λ w,
  let '(r, fs') := f (fs w) in
  (map_err (λ e, fail c (what ++ io_text e)) r, with_fs w fs').

(** The state as this process sees it; its own file system does not change
    between the reads. *)
Definition seen : io (option State) := λ w,
  let '(st, c) := try_current (fs w) (fs w) (fs w) (auth_cache w) in (Ok st, with_cache w c).

Definition is_user_authorized (fp : ustring) : io bool :=
  st ← seen;
  mret match st with
       | Some st => existsb (λ u, bool_decide (fingerprint u = fp)) (users st)
       | None => false
       end.

Definition store_pending_csr (fp csr_pem : ustring) : io unit :=
  let what := ustr "Failed to store CSR: " in
  _ ← file_op Internal what (λ f, create_dir_all f pending_dir);
  file_op Internal what (λ f, write_file f (pending_csr_path fp) (utf8 csr_pem)).

Definition submit_csr (csr_pem : ustring) : io ustring :=
  fp ← lift_res (map_err (λ e, fail InvalidArgument (ustr "Invalid CSR: " ++ e)) (compute_fingerprint csr_pem));
  authorized ← is_user_authorized fp;
  match authorized with
  | true =>
      lift_res (Err (fail AlreadyExists (ustr "A certificate with this fingerprint is already authorized")))
  | false =>
      f ← get_fs;
      if exists_ f (pending_csr_path fp) then mret fp
      else _ ← store_pending_csr fp csr_pem; mret fp
  end.

Definition load_staging_cert (f : Fs) (fp : ustring) : res io_error (ustring * ustring) :=
  ca ← read_to_string f ca_cert_path;
  cert ← read_to_string f (staging_cert_path fp);
  Ok (ca, cert).

Definition get_csr_status (fp : ustring) : io GetCsrStatusResponse :=
  st ← seen;
  if match st with Some st => bool_decide (fp ∈ revoked st) | None => false end
  then mret (bare_status Rejected)
  else λ w,
    match load_staging_cert (fs w) fp with
    | Ok (ca, cert) =>
        (Ok {| csr_status := Approved; cert_pem := cert; ca_pem := ca;
               server_name := default [] (host_name w) |}, w)
    | _ => if exists_ (fs w) (pending_csr_path fp) then (Ok (bare_status Pending), w)
           else (Ok (bare_status StatusNotFound), w)
    end.

Definition sign_pending_csr (f : Fs) (csr_pem : ustring) : res ustring (ustring * ustring) :=
  key ← map_err (λ e, ustr "CA key not found: " ++ io_text e) (read_to_string f ca_key_path);
  ca ← map_err (λ e, ustr "CA cert not found: " ++ io_text e) (read_to_string f ca_cert_path);
  sign_csr csr_pem key ca.

Definition store_staging_cert (fp cert : ustring) : io unit :=
  let what := ustr "Failed to store certificate: " in
  _ ← file_op Internal what (λ f, create_dir_all f staging_dir);
  file_op Internal what (λ f, write_file f (staging_cert_path fp) (utf8 cert)).

(** Serializes a changed state and replaces the file. *)
Definition write_state (what : ustring) (st : State) : io unit := λ w,
  let err e := fail Internal (what ++ config_text e) in
  match serialize_state st with
  | Ok s => let '(r, fs') := write_atomic (fs w) AUTH_PATH (utf8 s) in (map_err err r, with_fs w fs')
  | Err e => (Err (err e), w)
  | Panic => (Panic, w)
  end.

Definition add_user_to_auth (fp : ustring) (perms : list Permission) : io unit :=
  st ← seen;
  let st := default default_state st in
  write_state (ustr "Failed to update auth config: ")
    {| users := users st ++ [{| fingerprint := fp; permissions := perms |}]; revoked := revoked st |}.

(** The request is removed if it can be. *)
Definition cleanup_pending (fp : ustring) : io unit := λ w,
  (Ok tt, with_fs w (remove_file (fs w) (pending_csr_path fp)).2).

Definition approve_csr (fp : ustring) (patterns : list ustring) : io ustring :=
  f ← get_fs;
  if negb (exists_ f (pending_csr_path fp)) then lift_res (Err (fail NotFound (ustr "CSR not found")))
  else
    csr_pem ← lift_res (map_err (λ e, fail Internal (ustr "Failed to read CSR: " ++ io_text e))
                          (read_to_string f (pending_csr_path fp)));
    '(cert, cert_fp) ← lift_res (map_err (λ e, fail Internal (ustr "Failed to sign CSR: " ++ e))
                                   (sign_pending_csr f csr_pem));
    _ ← store_staging_cert fp cert;
    perms ← lift_res (map_err (fail InvalidArgument) (expand_all patterns));
    _ ← add_user_to_auth cert_fp perms;
    _ ← cleanup_pending fp;
    mret cert.

Definition revoke_user (fp : ustring) : io unit :=
  st ← seen;
  let st := default default_state st in
  let st := {| users := filter (λ u, fingerprint u ≠ fp) (users st);
               revoked := if bool_decide (fp ∈ revoked st) then revoked st else revoked st ++ [fp] |} in
  write_state (ustr "Failed to revoke certificate: ") st.

Definition revoke_cert (fp : ustring) : io unit := revoke_user fp.

Definition list_users : io (list (ustring * list ustring) * list ustring) :=
  st ← seen;
  match st with
  | None => lift_res (Err (fail FailedPrecondition
              (ustr "System not installed - auth config not available")))
  | Some st => mret ((λ u, (fingerprint u, collapse (permissions u))) <$> users st, revoked st)
  end.

Definition ack_enrollment (fp : ustring) : io unit :=
  f ← get_fs;
  if exists_ f (staging_cert_path fp)
  then file_op Internal (ustr "Failed to cleanup staging cert: ") (λ f, remove_file f (staging_cert_path fp))
  else mret tt.
End enrollment.

(** ** Lemmas *)

Definition auth_parts : list ustring := [ustr "run"; ustr "state"; ustr "auth.toml"].
Definition auth_tmp_parts : list ustring := [ustr "run"; ustr "state"; ustr "auth.tmp"].

Lemma split_auth : split_on SLASH AUTH_PATH = [[]; ustr "run"; ustr "state"; ustr "auth.toml"].
Proof. reflexivity. Qed.
Lemma split_auth_tmp :
  split_on SLASH (with_extension AUTH_PATH (ustr "tmp")) = [[]; ustr "run"; ustr "state"; ustr "auth.tmp"].
Proof. reflexivity. Qed.

(** An absolute path of three plain names. *)
Lemma walk_plain fs a b c cs :
  Forall (λ x, x ≠ [] ∧ x ≠ [DOT] ∧ x ≠ [DOT; DOT]) [a; b; c] →
  walk fs [] [[]; a; b; c] = Some cs → cs = [a; b; c] ∧ is_dir fs [a] = true ∧ is_dir fs [a; b] = true.
Proof.
  rewrite !Forall_cons. intros ((? & ? & ?) & (? & ? & ?) & (? & ? & ?) & _). cbn [walk app].
  rewrite (bool_decide_eq_true_2 ([] = [] ∨ _)) by auto.
  repeat (rewrite bool_decide_eq_false_2 by tauto).
  destruct (is_dir fs []) eqn:E0; [|done].
  destruct (is_dir fs [a]) eqn:E1; [|done]. destruct (is_dir fs [a; b]) eqn:E2; [|done].
  by intros [= <-].
Qed.

Lemma resolve_auth fs c : resolve fs AUTH_PATH = Some c → c = auth_parts.
Proof.
  unfold resolve. rewrite split_auth. intros E. apply walk_plain in E as [-> _]; [done|].
  repeat constructor; discriminate.
Qed.
Lemma resolve_auth_tmp fs c : resolve fs (with_extension AUTH_PATH (ustr "tmp")) = Some c → c = auth_tmp_parts.
Proof.
  unfold resolve. rewrite split_auth_tmp. intros E. apply walk_plain in E as [-> _]; [done|].
  repeat constructor; discriminate.
Qed.

Section state_proofs.
Context `{TomlStateLaws}.

(** The state of the file: empty when there is none or it cannot be read. *)
Definition state_of (f : Fs) : State :=
  match load_state f AUTH_PATH with Ok st => st | _ => default_state end.

(** A successful [write_atomic] resolves both paths. *)
Lemma write_atomic_resolves f path data f' :
  write_atomic f path data = (Ok tt, f') →
  ∃ ct cp, resolve f (with_extension path (ustr "tmp")) = Some ct ∧ resolve f path = Some cp ∧
    f' = set_files f (files f') ∧ resolve f' path = Some cp.
Proof.
  unfold write_atomic, write_file, rename. destruct (resolve f (with_extension path (ustr "tmp"))) as [ct|] eqn:Et; [|done].
  destruct (is_dir f ct); [done|]. destruct (write_error f !! ct) as [[]|]; [done|].
  rewrite !resolve_set_files, Et. destruct (resolve f path) as [cp|] eqn:Ep; [|done].
  cbn [files set_files]. rewrite lookup_insert_eq.
  destruct (is_dir _ cp); [done|]. intros [= <-]. exists ct, cp. cbn [files set_files].
  rewrite !resolve_set_files. done.
Qed.

(** What a reader finds after the state was written. *)
Lemma written_state f st s f' :
  encode_state st = Ok s → write_atomic f AUTH_PATH (utf8 s) = (Ok tt, f') →
  read_error f !! auth_parts = None →
  state_of f' = st ∧ file_mtime f' AUTH_PATH = clock f.
Proof.
  intros Es Hw Hr. destruct (write_atomic_resolves _ _ _ _ Hw) as (ct & cp & Et & Ep & Ef & Ep').
  pose proof (resolve_auth _ _ Ep) as ->. pose proof (resolve_auth_tmp _ _ Et) as ->.
  destruct (write_atomic_atomic f AUTH_PATH (utf8 s) (Ok tt) f' _ _ Et Ep ltac:(discriminate) Hw) as (_ & Hfile & _).
  split.
  - unfold state_of, load_state, exists_, read_to_string, read_bytes. rewrite Ep', Hfile.
    rewrite bool_decide_eq_true_2 by by eexists. cbn [orb].
    rewrite Ef. cbn [read_error set_files]. rewrite Hr. cbn [bytes mbind res_bind].
    rewrite from_utf8_utf8 by by eapply encode_state_text. cbn [ok_or map_err mbind res_bind].
    unfold parse_state. by rewrite (decode_encode_state st s).
  - unfold file_mtime, modified. rewrite Ep'. cbn [mbind option_bind]. by rewrite Hfile.
Qed.
End state_proofs.

(** ** The cache over time *)

Section cache_proofs.
Context `{TomlState}.

(** One process and the file: the process looks at the state, another writes
    the file in a later second, or something else happens on the disk. *)
Inductive step : Fs * AuthCache → Fs * AuthCache → Prop :=
| step_look f c c' st : try_current f f f (Some c) = (Some st, Some c') → step (f, c) (f, c')
| step_write f f' c : file_mtime f AUTH_PATH < file_mtime f' AUTH_PATH → step (f, c) (f', c)
| step_other f f' c :
    file_mtime f' AUTH_PATH = file_mtime f AUTH_PATH → state_of f' = state_of f → step (f, c) (f', c).

Definition fresh (s : Fs * AuthCache) : Prop :=
  cached_mtime s.2 ≤ file_mtime s.1 AUTH_PATH ∧
  (cached_mtime s.2 = file_mtime s.1 AUTH_PATH → cached s.2 = state_of s.1).

Lemma step_fresh s s' : step s s' → fresh s → fresh s'.
Proof.
  intros [f c c' st E|f f' c Hlt|f f' c Hm Hs] [Hle Heq]; unfold fresh in *; cbn [fst snd] in *.
  - unfold try_current in E. destruct (Z.eqb_spec (file_mtime f AUTH_PATH) (cached_mtime c)) as [Em|Em];
      cbn [negb] in E; injection E as _ <-; [done|]. cbn [cached cached_mtime]. done.
  - split; [lia|]. lia.
  - rewrite Hm, Hs. done.
Qed.

Lemma steps_fresh s s' : rtc step s s' → fresh s → fresh s'.
Proof. induction 1 as [|s s1 s' Hs _ IH]; [done|]. intros Hf. by eapply IH, step_fresh. Qed.

Lemma fresh_look f c :
  fresh (f, c) → ∃ c', try_current f f f (Some c) = (Some (state_of f), Some c') ∧ fresh (f, c').
Proof.
  intros [Hle Heq]. unfold fresh in *. cbn [fst snd] in *. unfold try_current.
  destruct (Z.eqb_spec (file_mtime f AUTH_PATH) (cached_mtime c)) as [Em|Em]; cbn [negb].
  - rewrite Heq by done. exists c. done.
  - eexists. split; [reflexivity|]. done.
Qed.

Lemma init_fresh f c : init_auth f None = (Ok tt, Some c) → fresh (f, c).
Proof.
  unfold init_auth, fresh, state_of. cbn [fst snd]. destruct (exists_ f AUTH_PATH) eqn:E.
  - destruct (load_state f AUTH_PATH) as [st| |]; cbn [mbind res_bind]; [|done..]. intros [= <-]. done.
  - intros [= <-]. cbn [cached cached_mtime]. unfold load_state. rewrite E.
    unfold file_mtime, modified. unfold exists_ in E.
    destruct (resolve f AUTH_PATH) as [cp|]; cbn [mbind option_bind]; [|done].
    apply orb_false_iff in E as [E _]. apply bool_decide_eq_false in E.
    destruct (files f !! cp); [by destruct E|done].
Qed.

(** C20: As long as the file is written at most once per second and not while it is
    being loaded, a process that initialized its cache always sees the state of
    the file. *)
Theorem cache_shows_file f0 c0 f c :
  init_auth f0 None = (Ok tt, Some c0) → rtc step (f0, c0) (f, c) →
  ∃ c', try_current f f f (Some c) = (Some (state_of f), Some c').
Proof.
  intros Hi Hsteps. assert (fresh (f, c)) as Hf.
  { eapply steps_fresh; [done|by apply init_fresh]. }
  destruct (fresh_look f c Hf) as (c' & E & _). by exists c'.
Qed.
End cache_proofs.

(** ** Granting and revoking *)

Section change_proofs.
Context `{TomlStateLaws} `{Pki} `{ErrorText}.

Lemma seen_fresh w c :
  auth_cache w = Some c → fresh (fs w, c) →
  ∃ c', seen w = (Ok (Some (state_of (fs w))), with_cache w (Some c')) ∧ fresh (fs w, c').
Proof.
  intros Hc Hf. destruct (fresh_look _ _ Hf) as (c' & E & Hf'). exists c'. split; [|done].
  unfold seen. rewrite Hc, E. done.
Qed.

Lemma write_state_ok what st w w' :
  write_state what st w = (Ok tt, w') → read_error (fs w) !! auth_parts = None →
  state_of (fs w') = st ∧ file_mtime (fs w') AUTH_PATH = clock (fs w) ∧ auth_cache w' = auth_cache w.
Proof.
  unfold write_state, serialize_state. intros E Hr. destruct (encode_state st) as [s| |] eqn:Es; [|done..].
  cbn [map_err] in E. destruct (write_atomic (fs w) AUTH_PATH (utf8 s)) as [[[]| |] f'] eqn:Ew; [|done..].
  injection E as <-. cbn [fs with_fs auth_cache].
  destruct (written_state _ _ _ _ Es Ew Hr) as [? ?]. done.
Qed.

Lemma revoke_after w c fp w' :
  auth_cache w = Some c → fresh (fs w, c) → read_error (fs w) !! auth_parts = None →
  revoke_cert fp w = (Ok tt, w') →
  file_mtime (fs w') AUTH_PATH = clock (fs w) ∧
  state_of (fs w') =
    {| users := filter (λ u, fingerprint u ≠ fp) (users (state_of (fs w)));
       revoked := if bool_decide (fp ∈ revoked (state_of (fs w))) then revoked (state_of (fs w))
                  else revoked (state_of (fs w)) ++ [fp] |}.
Proof.
  intros Hc Hf Hr E. unfold revoke_cert, revoke_user, mbind, io_bind in E.
  destruct (seen_fresh w c Hc Hf) as (c' & Es & _). rewrite Es in E. cbn [default id] in E.
  by apply write_state_ok in E as (Hst & Hm & _).
Qed.

(** A revocation by a process that sees the file leaves a file in which the
    certificate has no user entry and is listed as revoked, and every other
    entry and every earlier revocation is kept. *)
Theorem revoke_effective w c fp w' :
  auth_cache w = Some c → fresh (fs w, c) → read_error (fs w) !! auth_parts = None →
  revoke_cert fp w = (Ok tt, w') →
  let before := state_of (fs w) in let after := state_of (fs w') in
  fp ∈ revoked after ∧ (∀ u, u ∈ users after ↔ u ∈ users before ∧ fingerprint u ≠ fp) ∧
  (∀ g, g ∈ revoked after ↔ g ∈ revoked before ∨ g = fp).
Proof.
  intros Hc Hf Hr E before after. destruct (revoke_after w c fp w' Hc Hf Hr E) as [_ Hst].
  unfold after. rewrite Hst. clear Hst. fold before. cbn [users revoked]. split_and!.
  - case_bool_decide; [done|]. set_solver.
  - intros u. rewrite list_elem_of_filter. tauto.
  - intros g. case_bool_decide; set_solver.
Qed.

Lemma bind_io {A B} (m : io A) (f : A → io B) w b w' :
  (m ≫= f) w = (Ok b, w') → ∃ a w1, m w = (Ok a, w1) ∧ f a w1 = (Ok b, w').
Proof. unfold mbind, io_bind. destruct (m w) as [[a| |] w1]; [eauto|done..]. Qed.

(** Adding a user keeps what was there and appends the entry. *)
Lemma add_user_ok w c fp perms w' :
  auth_cache w = Some c → fresh (fs w, c) → read_error (fs w) !! auth_parts = None →
  add_user_to_auth fp perms w = (Ok tt, w') →
  state_of (fs w') = {| users := users (state_of (fs w)) ++ [{| fingerprint := fp; permissions := perms |}];
                        revoked := revoked (state_of (fs w)) |}.
Proof.
  intros Hc Hf Hr E. unfold add_user_to_auth, mbind, io_bind in E.
  destruct (seen_fresh w c Hc Hf) as (c' & Es & _). rewrite Es in E. cbn [default id] in E.
  by apply write_state_ok in E as (Hst & _ & _).
Qed.

(** *** Files of requests and certificates are never the state file *)

Lemma split_suffix (a b : ustring) cur :
  SLASH ∉ b → ∃ l x, split_from SLASH cur (a ++ b) = l ++ [x ++ b].
Proof.
  intros Hb. revert cur. induction a as [|c a IH]; intros cur.
  - exists [], cur. cbn [app]. by rewrite split_from_none.
  - cbn [app split_from]. case_decide.
    + destruct (IH []) as (l & x & ->). by exists (cur :: l), x.
    + apply IH.
Qed.

Lemma walk_last f x comps : ∀ cur c,
  x ≠ [] → x ≠ [DOT] → x ≠ [DOT; DOT] → walk f cur (comps ++ [x]) = Some c → ∃ d, c = d ++ [x].
Proof.
  induction comps as [|y comps IH]; intros cur c N1 N2 N3 E; cbn [app walk] in E.
  - destruct (is_dir f cur); [|done]. rewrite !bool_decide_eq_false_2 in E by tauto. injection E as <-. eauto.
  - destruct (is_dir f cur); [|done]. repeat case_bool_decide; eauto.
Qed.

(** The file named by a path that ends in [ext]. *)
Lemma resolve_ext f q ext c :
  SLASH ∉ ext → (3 ≤ length ext)%nat → resolve f (q ++ ext) = Some c → ∃ d x, c = d ++ [x ++ ext].
Proof.
  intros Hs Hl E. unfold resolve, split_on in E. destruct (split_suffix q ext [] Hs) as (l & x & Ex).
  rewrite Ex in E. apply walk_last in E as [d ->]; [eauto|..];
    intros Hx; apply (f_equal length) in Hx; rewrite length_app in Hx; simpl in Hx; lia.
Qed.

Lemma join_ext base fp ext : ∃ q, path_join base (fp ++ ext) = q ++ ext.
Proof.
  unfold path_join. repeat case_bool_decide; [by exists fp|by exists (base ++ fp); rewrite app_assoc|].
  exists (base ++ [SLASH] ++ fp). by rewrite <-!app_assoc.
Qed.

Lemma cert_not_state f fp c : resolve f (staging_cert_path fp) = Some c → c ≠ auth_parts.
Proof.
  unfold staging_cert_path. destruct (join_ext staging_dir fp (ustr ".crt")) as [q ->]. intros E ->.
  apply resolve_ext in E as (d & x & E); [|apply (bool_decide_eq_true_1 _); reflexivity|simpl; lia].
  apply (f_equal last) in E. rewrite last_snoc in E. injection E as E.
  apply (f_equal (@rev Z)) in E. rewrite rev_app_distr in E. discriminate E.
Qed.

Lemma csr_not_state f fp c : resolve f (pending_csr_path fp) = Some c → c ≠ auth_parts.
Proof.
  unfold pending_csr_path. destruct (join_ext pending_dir fp (ustr ".pem")) as [q ->]. intros E ->.
  apply resolve_ext in E as (d & x & E); [|apply (bool_decide_eq_true_1 _); reflexivity|simpl; lia].
  apply (f_equal last) in E. rewrite last_snoc in E. injection E as E.
  apply (f_equal (@rev Z)) in E. rewrite rev_app_distr in E. discriminate E.
Qed.

(** Two file systems with the same state file. *)
Record same_auth (f f' : Fs) : Prop := {
  sa_path : resolve f' AUTH_PATH = resolve f AUTH_PATH;
  sa_file : files f' !! auth_parts = files f !! auth_parts;
  sa_dir : is_dir f' auth_parts = is_dir f auth_parts;
  sa_read : read_error f' !! auth_parts = read_error f !! auth_parts;
  sa_clock : clock f' = clock f;
}.

Lemma same_auth_state f f' :
  same_auth f f' → state_of f' = state_of f ∧ file_mtime f' AUTH_PATH = file_mtime f AUTH_PATH.
Proof.
  intros []. unfold state_of, load_state, exists_, read_to_string, read_bytes, file_mtime, modified.
  rewrite sa_path0. destruct (resolve f AUTH_PATH) as [c|] eqn:E; [|done].
  apply resolve_auth in E as ->. cbn [mbind option_bind]. by rewrite sa_file0, sa_dir0, sa_read0.
Qed.

Lemma same_auth_trans f g h : same_auth f g → same_auth g h → same_auth f h.
Proof. intros [] []. constructor; congruence. Qed.

Lemma set_files_same f fl c v :
  c ≠ auth_parts → fl = <[c := v]> (files f) ∨ fl = delete c (files f) → same_auth f (set_files f fl).
Proof.
  intros Hc Hfl. constructor; [apply resolve_set_files| |done..]. cbn [files set_files].
  destruct Hfl as [-> | ->]; [by rewrite lookup_insert_ne|by rewrite lookup_delete_ne].
Qed.

Lemma write_file_same f p data r f' :
  (∀ c, resolve f p = Some c → c ≠ auth_parts) → write_file f p data = (r, f') → same_auth f f'.
Proof.
  intros Hp. unfold write_file. destruct (resolve f p) as [c|] eqn:E; [|by intros [= <- <-]].
  specialize (Hp c eq_refl).
  destruct (is_dir f c); [by intros [= <- <-]|]. destruct (write_error f !! c) as [[e n]|]; intros [= <- <-];
    eapply set_files_same; eauto.
Qed.

Lemma remove_file_same f p :
  (∀ c, resolve f p = Some c → c ≠ auth_parts) → same_auth f (remove_file f p).2.
Proof.
  intros Hp. unfold remove_file. destruct (resolve f p) as [c|] eqn:E; [|done]. specialize (Hp c eq_refl).
  destruct (files f !! c) eqn:Ec; [|done]. destruct (write_error f !! c) as [[e n]|]; [done|].
  cbn [snd]. eapply (set_files_same f _ c f0); [done|by right].
Qed.

(** The directory of the state file. *)
Definition state_dir (f : Fs) : Prop := is_dir f [ustr "run"] = true ∧ is_dir f [ustr "run"; ustr "state"] = true.

Lemma is_dir_grow f d c : is_dir f c = true → is_dir (set_dirs f ({[d]} ∪ dirs f)) c = true.
Proof.
  unfold is_dir. cbn [dirs set_dirs]. rewrite !orb_true_iff, !bool_decide_eq_true. set_solver.
Qed.

Lemma resolve_in_state_dir f : state_dir f → resolve f AUTH_PATH = Some auth_parts.
Proof.
  intros [H1' H2']. unfold resolve. rewrite split_auth. cbn [walk app].
  assert (is_dir f [] = true) as -> by (unfold is_dir; by rewrite bool_decide_eq_true_2).
  by rewrite H1', H2'.
Qed.

Lemma set_dirs_same f d :
  d ≠ auth_parts → state_dir f → same_auth f (set_dirs f ({[d]} ∪ dirs f)).
Proof.
  intros Hd Hs. constructor; try done.
  - rewrite !resolve_in_state_dir; [done|done|]. destruct Hs. split; by apply is_dir_grow.
  - unfold is_dir. cbn [dirs set_dirs]. f_equal. apply bool_decide_ext. set_solver.
Qed.

Lemma mkdirs_same comps : ∀ f cur r f',
  ustr "auth.toml" ∉ comps → state_dir f → mkdirs f cur comps = (r, f') →
  same_auth f f' ∧ state_dir f'.
Proof.
  induction comps as [|c comps IH]; intros f cur r f' Hc Hs E; cbn [mkdirs] in E; [by injection E as <- <-|].
  apply not_elem_of_cons in Hc as [Hne Hc].
  case_bool_decide; [by eapply IH|]. case_bool_decide; [by injection E as <- <-|].
  assert (cur ++ [c] ≠ auth_parts) as Hd.
  { intros Ea. apply (f_equal last) in Ea. rewrite last_snoc in Ea. injection Ea as ->. done. }
  apply IH in E as [Hsame Hs']; [|done|destruct Hs; split; by apply is_dir_grow].
  split; [|done]. eapply same_auth_trans; [by apply set_dirs_same|done].
Qed.

Lemma file_op_same c what g w r w' :
  (∀ r f', g (fs w) = (r, f') → same_auth (fs w) f') → file_op c what g w = (r, w') →
  same_auth (fs w) (fs w') ∧ auth_cache w' = auth_cache w.
Proof.
  intros Hg. unfold file_op. destruct (g (fs w)) as [r0 f'] eqn:E. intros [= _ <-]. cbn [fs with_fs auth_cache].
  split; [by eapply Hg|done].
Qed.

Lemma store_staging_same fp cert w w' :
  state_dir (fs w) → store_staging_cert fp cert w = (Ok tt, w') →
  same_auth (fs w) (fs w') ∧ auth_cache w' = auth_cache w.
Proof.
  intros Hs E. unfold store_staging_cert in E. apply bind_io in E as ([] & w1 & E1 & E2).
  apply file_op_same in E1 as [S1 C1].
  2: { intros r f' Em. unfold create_dir_all in Em. apply mkdirs_same in Em as [? _]; [done| |done].
       apply (bool_decide_eq_true_1 _); reflexivity. }
  apply file_op_same in E2 as [S2 C2].
  2: { intros r f' Em. eapply write_file_same; [|done]. intros c. apply cert_not_state. }
  split; [by eapply same_auth_trans|congruence].
Qed.

(** C21: An approval by a process whose cache shows the state file, where the file
    can be read and its directory exists, grants exactly what the patterns expand
    to, to the certificate it signed, and changes no other entry or revocation. *)
Theorem approve_effective w c fp patterns cert w' :
  auth_cache w = Some c → fresh (fs w, c) → read_error (fs w) !! auth_parts = None → state_dir (fs w) →
  approve_csr fp patterns w = (Ok cert, w') →
  ∃ csr cert_fp perms,
    read_to_string (fs w) (pending_csr_path fp) = Ok csr ∧
    sign_pending_csr (fs w) csr = Ok (cert, cert_fp) ∧ expand_all patterns = Ok perms ∧
    state_of (fs w') =
      {| users := users (state_of (fs w)) ++ [{| fingerprint := cert_fp; permissions := perms |}];
         revoked := revoked (state_of (fs w)) |}.
Proof.
  intros Hc Hf Hr Hsd E. unfold approve_csr in E. apply bind_io in E as (f & w1 & E1 & E).
  injection E1 as <- <-. destruct (exists_ (fs w) (pending_csr_path fp)); cbn [negb] in E; [|done].
  apply bind_io in E as (csr & w1 & E1 & E). injection E1 as E1 <-. apply map_err_Ok in E1.
  apply bind_io in E as ([cert' cert_fp] & w1 & E2 & E). injection E2 as E2 <-. apply map_err_Ok in E2.
  apply bind_io in E as ([] & w1 & E3 & E). apply store_staging_same in E3 as [Hsame Hc1]; [|done].
  apply bind_io in E as (perms & w2 & E4 & E). injection E4 as E4 <-. apply map_err_Ok in E4.
  apply bind_io in E as ([] & w2 & E5 & E). apply bind_io in E as ([] & w3 & E6 & E).
  injection E as <- <-. injection E6 as <-. cbn [fs with_fs].
  destruct (same_auth_state _ _ Hsame) as [Hst Hmt].
  apply (add_user_ok w1 c) in E5.
  - exists csr, cert_fp, perms. split_and!; [done..|]. rewrite <-Hst, <-E5.
    apply same_auth_state, remove_file_same. intros cc. apply csr_not_state.
  - by rewrite Hc1.
  - unfold fresh in *. cbn [fst snd] in *. by rewrite Hmt, Hst.
  - by rewrite (sa_read _ _ Hsame).
Qed.
End change_proofs.

(** ** Concrete runs *)

#[global] Instance User_dec : EqDecision User.
Proof. solve_decision. Defined.
#[global] Instance State_dec : EqDecision State.
Proof. solve_decision. Defined.

Module Demo.
Definition user (fp : string) : User := {| fingerprint := ustr fp; permissions := [VmRead] |}.
Definition state (us rs : list string) : State := {| users := user <$> us; revoked := ustr <$> rs |}.

(** A codec that names the states of these runs by a letter. *)
Definition known : list State :=
  [default_state; state ["a"; "b"; "c"] []; state ["b"; "c"] ["a"]; state ["c"] ["a"; "b"];
   state ["b"] ["a"; "c"]; state ["a"; "b"; "c"; "fr"] []; state ["a"; "b"; "c"] ["fr"]].
Fixpoint index_of (st : State) (l : list State) (n : Z) : res ustring ustring :=
  match l with
  | [] => Err []
  | x :: l => if bool_decide (x = st) then Ok [n] else index_of st l (n + 1)
  end.
#[local] Instance demo_toml : TomlState := {|
  encode_state st := index_of st known 65;
  decode_state s := match s with
                    | [n] => ok_or (if n <? 65 then None else known !! Z.to_nat (n - 65)) []
                    | _ => Err []
                    end |}.

Lemma index_of_spec st l : ∀ n s,
  0 ≤ n → index_of st l n = Ok s →
  ∃ k, s = [k] ∧ n ≤ k < n + Z.of_nat (length l) ∧ l !! Z.to_nat (k - n) = Some st.
Proof.
  induction l as [|x l IH]; intros n s Hn E; cbn [index_of] in E; [done|]. case_bool_decide as Ex.
  - injection E as <-. exists n. subst. rewrite Z.sub_diag. simpl. split_and!; [done|lia|lia|done].
  - apply IH in E as (k & -> & Hk & El); [|lia]. exists k. split; [done|]. split; [simpl; lia|].
    replace (Z.to_nat (k - n)) with (Datatypes.S (Z.to_nat (k - (n + 1)))) by lia. done.
Qed.

#[local] Instance demo_toml_laws : TomlStateLaws.
Proof.
  split; intros st s E; cbn [encode_state demo_toml] in E;
    apply index_of_spec in E as (k & -> & Hk & El); try lia.
  - cbn [decode_state demo_toml]. destruct (Z.ltb_spec k 65); [lia|]. by rewrite El.
  - change (Z.of_nat (length known)) with 7 in Hk. apply Forall_singleton. unfold is_char. lia.
Qed.

#[local] Instance demo_pki : Pki := {|
  compute_fingerprint csr := Ok csr;
  sign_csr csr key ca := Ok (ustr "cert " ++ csr, ustr "f" ++ csr) |}.
#[local] Instance demo_errors : ErrorText := {| io_text _ := []; config_text _ := [] |}.

Definition dir (names : list string) : list ustring := ustr <$> names.
Definition at_ (t : Z) (s : string) : file := {| bytes := utf8 (ustr s); mtime := t |}.
Definition disk : Fs :=
  {| files := {[auth_parts := at_ 5 "B";
                dir ["run"; "state"; "secrets"; "ca.crt"] := at_ 1 "ca";
                dir ["run"; "state"; "secrets"; "ca.key"] := at_ 1 "key";
                dir ["run"; "state"; "secrets"; "pending"; "q.pem"] := at_ 4 "r"]};
     dirs := {[dir ["run"]; dir ["run"; "state"]; dir ["run"; "state"; "secrets"];
               dir ["run"; "state"; "secrets"; "pending"]]};
     clock := 9; read_error := ∅; write_error := ∅ |}.
Definition world : World :=
  {| fs := disk; auth_cache := Some {| cached := state ["a"; "b"; "c"] []; cached_mtime := 5 |}; host_name := None |}.

(** A run of a handler, by the result it gives. *)
Lemma run_pair {A} (m : io A) w r : (m w).1 = r → m w = (r, (m w).2).
Proof. intros <-. by destruct (m w). Qed.

Definition changed : Fs := (write_atomic disk AUTH_PATH (utf8 (ustr "C"))).2.
Definition cache0 : AuthCache := {| cached := state ["a"; "b"; "c"] []; cached_mtime := 5 |}.

Lemma cache_shows_file_witness :
  init_auth disk None = (Ok tt, Some cache0) ∧ rtc step (disk, cache0) (changed, cache0) ∧
  state_of changed = state ["b"; "c"] ["a"] ∧
  ∃ c', try_current changed changed changed (Some cache0) = (Some (state_of changed), Some c').
Proof.
  assert (init_auth disk None = (Ok tt, Some cache0)) as Hi by (vm_compute; reflexivity).
  assert (rtc step (disk, cache0) (changed, cache0)) as Hs.
  { apply rtc_once. apply step_write. vm_compute. reflexivity. }
  split; [exact Hi|]. split; [exact Hs|]. split; [vm_compute; reflexivity|].
  exact (cache_shows_file disk cache0 changed cache0 Hi Hs).
Defined.

Lemma world_fresh : fresh (fs world, cache0).
Proof. split; [by vm_compute|intros _; vm_compute; reflexivity]. Qed.

Definition world1 : World := (revoke_cert (ustr "a") world).2.
Definition world2 : World := (revoke_cert (ustr "b") world1).2.
Definition world3 : World := (revoke_cert (ustr "c") world2).2.
Lemma revoke1 : revoke_cert (ustr "a") world = (Ok tt, world1).
Proof. refine (run_pair (revoke_cert (ustr "a")) world _ _). vm_compute. reflexivity. Qed.

Lemma revoke_effective_witness :
  revoke_cert (ustr "a") world = (Ok tt, world1) ∧ ustr "a" ∈ revoked (state_of (fs world1)) ∧
  ∀ u, u ∈ users (state_of (fs world1)) ↔ u ∈ users (state_of (fs world)) ∧ fingerprint u ≠ ustr "a".
Proof.
  split; [exact revoke1|].
  destruct (revoke_effective world cache0 (ustr "a") world1 eq_refl world_fresh eq_refl revoke1) as (Hin & Hus & _).
  split; [exact Hin|exact Hus].
Defined.

Definition approved : World := (approve_csr (ustr "q") [ustr "vm:read"] world).2.
Lemma approve1 : approve_csr (ustr "q") [ustr "vm:read"] world = (Ok (ustr "cert r"), approved).
Proof. refine (run_pair (approve_csr (ustr "q") [ustr "vm:read"]) world _ _). vm_compute. reflexivity. Qed.

Lemma approve_effective_witness :
  approve_csr (ustr "q") [ustr "vm:read"] world = (Ok (ustr "cert r"), approved) ∧
  ∃ csr cert_fp perms,
    read_to_string (fs world) (pending_csr_path (ustr "q")) = Ok csr ∧
    sign_pending_csr (fs world) csr = Ok (ustr "cert r", cert_fp) ∧ expand_all [ustr "vm:read"] = Ok perms ∧
    state_of (fs approved) =
      {| users := users (state_of (fs world)) ++ [{| fingerprint := cert_fp; permissions := perms |}];
         revoked := revoked (state_of (fs world)) |}.
Proof.
  split; [exact approve1|].
  refine (approve_effective world cache0 (ustr "q") [ustr "vm:read"] _ approved eq_refl world_fresh eq_refl _ approve1).
  split; vm_compute; reflexivity.
Defined.

(** Three revocations in the same second: the third reads a cache that the
    second write made stale, since both carry the same time, and writes the
    second user back without the revocation. *)
Theorem revocation_lost :
  revoke_cert (ustr "a") world = (Ok tt, world1) ∧ revoke_cert (ustr "b") world1 = (Ok tt, world2) ∧
  revoke_cert (ustr "c") world2 = (Ok tt, world3) ∧
  state_of (fs world2) = state ["c"] ["a"; "b"] ∧ state_of (fs world3) = state ["b"] ["a"; "c"].
Proof.
  split; [exact revoke1|]. split; [refine (run_pair (revoke_cert (ustr "b")) world1 _ _); vm_compute; reflexivity|].
  split; [refine (run_pair (revoke_cert (ustr "c")) world2 _ _); vm_compute; reflexivity|]. split; vm_compute; reflexivity.
Qed.

(** The file changes after its contents were read and before its time is: the
    old state is kept under the new time, and is shown from then on. *)
Theorem load_race_keeps_old_state :
  let c0 := {| cached := default_state; cached_mtime := 3 |} in
  let c1 := {| cached := state ["a"; "b"; "c"] []; cached_mtime := 9 |} in
  try_current disk disk changed (Some c0) = (Some (cached c1), Some c1) ∧
  state_of changed = state ["b"; "c"] ["a"] ∧
  try_current changed changed changed (Some c1) = (Some (cached c1), Some c1).
Proof. split_and!; vm_compute; reflexivity. Qed.

(** A fingerprint of the unauthenticated acknowledgement names any file that
    ends in [.crt], here the certificate of the authority. *)
Definition staged : World := with_fs world (create_dir_all disk staging_dir).2.
Theorem ack_removes_authority :
  (ack_enrollment (ustr "../ca") staged).1 = Ok tt ∧ exists_ (fs staged) ca_cert_path = true ∧
  exists_ (fs (ack_enrollment (ustr "../ca") staged).2) ca_cert_path = false.
Proof. split_and!; vm_compute; reflexivity. Qed.

(** The status a requester is told. *)
Definition told (fp : ustring) (w : World) : option (CsrStatus * ustring) :=
  match (get_csr_status fp w).1 with Ok r => Some (csr_status r, cert_pem r) | _ => None end.

(** An approval refused for its permissions has already published the
    certificate: the requester is told that it is approved. *)
Theorem refused_approval_publishes :
  let r := approve_csr (ustr "q") [ustr "vm:fly"] world in
  match r.1 with Err e => code e = InvalidArgument | _ => False end ∧
  told (ustr "q") r.2 = Some (Approved, ustr "cert r").
Proof. split; vm_compute; reflexivity. Qed.

(** The identifier of a request is not the fingerprint of its certificate: the
    requester whose certificate was revoked is told that it is approved. *)
Definition next_second (w : World) : World := with_fs w (set_clock (fs w) (clock (fs w) + 1)).
Theorem revoked_requester_approved :
  let r := revoke_cert (ustr "fr") (next_second approved) in
  r.1 = Ok tt ∧ ustr "fr" ∈ revoked (state_of (fs r.2)) ∧ told (ustr "q") r.2 = Some (Approved, ustr "cert r").
Proof.
  split; [vm_compute; reflexivity|]. split; [|vm_compute; reflexivity].
  apply (bool_decide_eq_true_1 _). vm_compute. reflexivity.
Qed.
End Demo.
