(* ===== verification/Rbac.v ===== *)
(** Access control of the API gateway (services/apid): the build script that
    turns the annotations of the protocol files into rules (build.rs), the check
    of a request against the authorized users (src/rbac), the handler that
    answers or forwards it (src/handler.rs) and the pool of back-end connections
    (src/proxy.rs).

    The HTTP library is a set of functions of the section about the pool. The
    handler reads the state file through the cache of its own process. *)

From stdpp Require Import gmap.
From S2P Require Import Prelude Io Utf Text Str Order FileSys Perm SysConfig Auth.

(** ** The build script (build.rs) *)

Definition VALID_PERMISSIONS : list (ustring * ustring) :=
  [(ustr "admin", ustr "Admin"); (ustr "vm:read", ustr "VmRead"); (ustr "vm:create", ustr "VmCreate");
   (ustr "vm:start", ustr "VmStart"); (ustr "vm:stop", ustr "VmStop"); (ustr "vm:delete", ustr "VmDelete");
   (ustr "vm:upload", ustr "VmUpload"); (ustr "auth:manage", ustr "AuthManage");
   (ustr "system:read", ustr "SystemRead"); (ustr "system:update", ustr "SystemUpdate");
   (ustr "process:read", ustr "ProcessRead"); (ustr "security:read", ustr "SecurityRead")].

Inductive RbacRequirement :=
| ReqUnauthenticated
| ReqPermission (variant : ustring)
| ReqMaintenanceOr (variant : ustring).

Record RpcMethod := { full_path : ustring; requirement : RbacRequirement }.

Definition starts_with (p s : ustring) : bool := bool_decide (is_Some (strip_prefix p s)).

(** The text before the first character that satisfies [f]. *)
Fixpoint before (f : Z → bool) (s : ustring) : option ustring :=
  match s with
  | [] => None
  | c :: s => if f c then Some [] else a ← before f s; Some (c :: a)
  end.

Definition OPEN_BRACE : Z := 123.
Definition CLOSE_BRACE : Z := 125.
Definition OPEN_PAREN : Z := 40.
Definition SEMICOLON : Z := 59.
Definition count_char (c : Z) (s : ustring) : nat := length (filter (λ x, x = c) s).

Fixpoint trim_end_matches_rev (c : Z) (r : ustring) : ustring :=
  match r with
  | x :: r' => if x =? c then trim_end_matches_rev c r' else r
  | [] => []
  end.
Definition trim_end_matches (c : Z) (s : ustring) : ustring := rev (trim_end_matches_rev c (rev s)).

Fixpoint find_package (ls : list ustring) : option ustring :=
  match ls with
  | [] => None
  | l :: ls =>
      match strip_prefix (ustr "package ") (trim l) with
      | Some rest => Some (trim (trim_end_matches SEMICOLON rest))
      | None => find_package ls
      end
  end.
Definition extract_package (content : ustring) : ustring := default [] (find_package (lines content)).

Definition extract_method_name (line : ustring) : option ustring :=
  rest ← strip_prefix (ustr "rpc ") line;
  name ← before (λ c, c =? OPEN_PAREN) (trim rest);
  Some (trim name).

Definition extract_rbac_annotation (line : ustring) : option ustring :=
  rest ← strip_prefix (ustr "//") (trim line);
  annotation ← strip_prefix (ustr "@rbac:") (trim rest);
  Some (trim annotation).

Fixpoint perm_get (s : ustring) (m : list (ustring * ustring)) : option ustring :=
  match m with
  | [] => None
  | (k, v) :: m => if bool_decide (k = s) then Some v else perm_get s m
  end.

Definition parse_rbac_annotation (annotation : ustring) : res ustring RbacRequirement :=
  let annotation := trim annotation in
  if bool_decide (annotation = ustr "none") then Ok ReqUnauthenticated
  else match strip_prefix (ustr "maintenance|") annotation with
       | Some p =>
           let p := trim p in
           match perm_get p VALID_PERMISSIONS with
           | Some v => Ok (ReqMaintenanceOr v)
           | None => Err (ustr "Unknown permission in maintenance annotation: '" ++ p ++ ustr "'")
           end
       | None =>
           match perm_get annotation VALID_PERMISSIONS with
           | Some v => Ok (ReqPermission v)
           | None => Err (ustr "Unknown permission: '" ++ annotation ++ ustr "'")
           end
       end.

(** The methods and the errors collected so far. *)
Record ProtoParser := { methods : list RpcMethod; errors : list ustring }.

Section parser.
Context (all_lines : list ustring) (package filename : ustring).

Definition push_error (p : ProtoParser) (idx : nat) (msg : ustring) : ProtoParser :=
  {| methods := methods p;
     errors := errors p ++ [filename ++ ustr ":" ++ decimal (Z.of_nat idx + 1) ++ ustr ": " ++ msg] |}.

Definition parse_rpc_line (p : ProtoParser) (trimmed : ustring) (idx : nat) (current_service : option ustring)
    : ProtoParser :=
  match current_service with
  | None => push_error p idx (ustr "RPC found outside of service block")
  | Some service =>
      match extract_method_name trimmed with
      | None => push_error p idx (ustr "Could not parse RPC method name from: " ++ trimmed)
      | Some method_name =>
          let annotation := match idx with
                            | O => None
                            | S k => all_lines !! k ≫= extract_rbac_annotation
                            end in
          match annotation with
          | None =>
              push_error p idx
                (ustr "RPC method '" ++ method_name ++ ustr "' is missing @rbac annotation. "
                 ++ ustr "Add `// @rbac: <permission>` on the line before the rpc declaration.")
          | Some annotation =>
              match parse_rbac_annotation annotation with
              | Ok req =>
                  {| methods := methods p ++
                       [{| full_path := ustr "/" ++ package ++ ustr "." ++ service ++ ustr "/" ++ method_name;
                           requirement := req |}];
                     errors := errors p |}
              | Err e => push_error p idx (ustr "Invalid @rbac annotation for " ++ method_name ++ ustr ": " ++ e)
              | Panic => p
              end
          end
      end
  end.

(** What a line does to the open service and to the depth of braces. *)
Definition scope_line (trimmed : ustring) (service : option ustring) (depth : nat) : option ustring * nat :=
  let service :=
    match strip_prefix (ustr "service ") trimmed ≫= before (λ c, (c =? OPEN_BRACE) || is_whitespace c) with
    | Some name => Some name
    | None => service
    end in
  let depth := (depth + count_char OPEN_BRACE trimmed - count_char CLOSE_BRACE trimmed)%nat in
  (if decide (depth = 0%nat) then None else service, depth).

Fixpoint parse_lines (ls : list ustring) (idx : nat) (service : option ustring) (depth : nat) (p : ProtoParser)
    : ProtoParser :=
  match ls with
  | [] => p
  | line :: ls =>
      let trimmed := trim line in
      let '(service, depth) := scope_line trimmed service depth in
      let p := if starts_with (ustr "rpc ") trimmed then parse_rpc_line p trimmed idx service else p in
      parse_lines ls (S idx) service depth p
  end.
End parser.

Definition parse_proto (content filename : ustring) : res (list ustring) (list RpcMethod) :=
  let p := parse_lines (lines content) (extract_package content) filename (lines content) 0 None 0
             {| methods := []; errors := [] |} in
  match errors p with [] => Ok (methods p) | _ => Err (errors p) end.

(** The files in their order, each with its text or the error of reading it: the
    methods of all of them, or the errors. *)
Fixpoint parse_all (files : list (ustring * (ustring + ustring))) (p : ProtoParser) : ProtoParser :=
  match files with
  | [] => p
  | (name, content) :: files =>
      parse_all files
        match content with
        | inr content =>
            match parse_proto content name with
            | Ok ms => {| methods := methods p ++ ms; errors := errors p |}
            | Err es => {| methods := methods p; errors := errors p ++ es |}
            | Panic => p
            end
        | inl e => {| methods := methods p;
                      errors := errors p ++ [ustr "Failed to read " ++ name ++ ustr ": " ++ e] |}
        end
  end.
Definition build (files : list (ustring * (ustring + ustring))) : res (list ustring) (list RpcMethod) :=
  let p := parse_all files {| methods := []; errors := [] |} in
  match errors p with [] => Ok (methods p) | _ => Err (errors p) end.

(** *** The generated rules *)

Definition requirement_code (r : RbacRequirement) : ustring :=
  match r with
  | ReqUnauthenticated => ustr "MethodRequirement::Unauthenticated"
  | ReqPermission p => ustr "MethodRequirement::RequiresPermission(Permission::" ++ p ++ ustr ")"
  | ReqMaintenanceOr p => ustr "MethodRequirement::MaintenanceOrPermission(Permission::" ++ p ++ ustr ")"
  end.

(** [groups.entry(code).or_default().push(path)] in a [BTreeMap]. *)
Fixpoint group_push (r : RbacRequirement) (path : ustring) (groups : list (RbacRequirement * list ustring))
    : list (RbacRequirement * list ustring) :=
  match groups with
  | [] => [(r, [path])]
  | (k, paths) :: rest =>
      if bool_decide (requirement_code k = requirement_code r) then (k, paths ++ [path]) :: rest
      else if lex_leb (utf8 (requirement_code r)) (utf8 (requirement_code k)) then (r, [path]) :: groups
      else (k, paths) :: group_push r path rest
  end.
Definition requirement_groups (ms : list RpcMethod) : list (RbacRequirement * list ustring) :=
  foldl (λ g m, group_push (requirement m) (full_path m) g) [] ms.

Inductive MethodRequirement :=
| RequiresPermission (p : Permission)
| MaintenanceOrPermission (p : Permission)
| Unauthenticated
| Unknown.

(** The enum variant that a generated [Permission::] path names. *)
Definition variant_name (p : Permission) : ustring :=
  match p with
  | Admin => ustr "Admin" | VmRead => ustr "VmRead" | VmCreate => ustr "VmCreate" | VmStart => ustr "VmStart"
  | VmStop => ustr "VmStop" | VmDelete => ustr "VmDelete" | VmUpload => ustr "VmUpload"
  | AuthManage => ustr "AuthManage" | SystemRead => ustr "SystemRead" | SystemUpdate => ustr "SystemUpdate"
  | ProcessRead => ustr "ProcessRead" | SecurityRead => ustr "SecurityRead"
  end.
Definition ALL_PERMISSIONS : list Permission :=
  [Admin; VmRead; VmCreate; VmStart; VmStop; VmDelete; VmUpload; AuthManage; SystemRead; SystemUpdate;
   ProcessRead; SecurityRead].
Definition variant (s : ustring) : option Permission :=
  snd <$> list_find (λ p, variant_name p = s) ALL_PERMISSIONS.

(** An arm of the generated [match]; [None] is code that does not compile. *)
Definition arm (r : RbacRequirement) : option MethodRequirement :=
  match r with
  | ReqUnauthenticated => Some Unauthenticated
  | ReqPermission v => RequiresPermission <$> variant v
  | ReqMaintenanceOr v => MaintenanceOrPermission <$> variant v
  end.

(** The first arm that lists the path. *)
Fixpoint match_path (groups : list (RbacRequirement * list ustring)) (path : ustring) : option MethodRequirement :=
  match groups with
  | [] => Some Unknown
  | (r, paths) :: groups => if bool_decide (path ∈ paths) then arm r else match_path groups path
  end.
Definition method_permission (ms : list RpcMethod) (path : ustring) : MethodRequirement :=
  default Unknown (match_path (requirement_groups ms) path).

(** ** The check of a request (src/rbac) *)

Inductive RbacError :=
| ErrUnauthenticated | CertificateRevoked | UnknownCertificate | PermissionDenied (required : Permission)
| UnknownMethod | InsecureNotAllowed | ErrInternal.

Definition grpc_status_code (e : RbacError) : Z :=
  match e with
  | ErrUnauthenticated => 16
  | CertificateRevoked | UnknownCertificate | PermissionDenied _ | InsecureNotAllowed | ErrInternal => 7
  | UnknownMethod => 12
  end.

Definition grpc_message (e : RbacError) : ustring :=
  match e with
  | ErrUnauthenticated => ustr "client certificate required"
  | CertificateRevoked => ustr "certificate has been revoked"
  | UnknownCertificate => ustr "certificate not authorized"
  | PermissionDenied p => ustr "permission denied: requires " ++ to_string p
  | UnknownMethod => ustr "unknown method"
  | InsecureNotAllowed => ustr "system is installed, insecure access is not allowed"
  | ErrInternal => ustr "auth state unavailable"
  end.

(** The decision on a state. *)
Definition check_state (st : State) (fp : ustring) (required : Permission) : RbacError + unit :=
  if bool_decide (fp ∈ revoked st) then inl CertificateRevoked
  else match list_find (λ u, fingerprint u = fp) (users st) with
       | None => inl UnknownCertificate
       | Some (_, u) =>
           if has_permission (permissions u) required then inr tt else inl (PermissionDenied required)
       end.

Section gateway.
Context `{TomlState} (ms : list RpcMethod).

Definition check_access (f : Fs) (cache : option AuthCache) (path : ustring) (fp : option ustring)
    : (RbacError + unit) * option AuthCache :=
  match method_permission ms path with
  | Unauthenticated => (inr tt, cache)
  | Unknown => (inl UnknownMethod, cache)
  | RequiresPermission required | MaintenanceOrPermission required =>
      match fp with
      | None => (inl ErrUnauthenticated, cache)
      | Some fp =>
          let '(st, cache) := current f f f cache in
          match st with
          | Ok st => (check_state st fp required, cache)
          | _ => (inl ErrInternal, cache)
          end
      end
  end.

(** ** The handler (src/handler.rs, src/constants.rs) *)

Definition WORKLOADD_SOCKET : ustring := ustr "/run/services/workloadd.sock".
Definition GRANOLA_SOCKET : ustring := ustr "/run/services/granola.sock".
Definition PROVISIOND_SOCKET : ustring := ustr "/run/services/provisiond.sock".
Definition VM_SERVICE_PREFIX : ustring := ustr "/muak.vm.v1.VmService/".
Definition PROCESS_SERVICE_PREFIX : ustring := ustr "/muak.process.v1.ProcessService/".
Definition PROVISION_SERVICE_PREFIX : ustring := ustr "/muak.provision.v1.ProvisionService/".
Definition AUTH_SERVICE_PREFIX : ustring := ustr "/muak.auth.v1.AuthService/".
Definition SECURITY_SERVICE_PREFIX : ustring := ustr "/muak.security.v1.SecurityService/".
Definition LOG_SERVICE_PREFIX : ustring := ustr "/muak.log.v1.LogService/".
Definition VERSION_SERVICE_PREFIX : ustring := ustr "/muak.version.v1.VersionService/".

Definition route_request (f : Fs) (path : ustring) : option ustring :=
  if starts_with VM_SERVICE_PREFIX path then
    if exists_ f WORKLOADD_SOCKET then Some WORKLOADD_SOCKET else None
  else if starts_with PROCESS_SERVICE_PREFIX path || starts_with LOG_SERVICE_PREFIX path
  then Some GRANOLA_SOCKET
  else if starts_with PROVISION_SERVICE_PREFIX path || starts_with AUTH_SERVICE_PREFIX path
          || starts_with SECURITY_SERVICE_PREFIX path || starts_with VERSION_SERVICE_PREFIX path
  then Some PROVISIOND_SOCKET
  else None.

(** An answer: the status of an error, or what the back end replied. *)
Inductive Response (R : Type) := grpc_error (status : Z) (message : ustring) | Proxied (r : R).
Arguments grpc_error {R} _ _.
Arguments Proxied {R} _.

Definition is_unauthenticated (r : MethodRequirement) : bool :=
  match r with Unauthenticated => true | _ => false end.
Definition skip_rbac (maintenance_mode : bool) (r : MethodRequirement) : bool :=
  is_unauthenticated r || (maintenance_mode && match r with MaintenanceOrPermission _ => true | _ => false end).

(** [forward] is the proxy with its pool; it reports whether the request went
    to a back end at all. *)
Definition handle_request {P R} (forward : P → ustring → (ustring + R) * P) (pool : P) (f : Fs)
    (cache : option AuthCache) (path : ustring) (fp : option ustring) (maintenance_mode : bool)
    : Response R * option AuthCache * P :=
  let requirement := method_permission ms path in
  let '(access, cache) :=
    if skip_rbac maintenance_mode requirement then (inr tt, cache) else check_access f cache path fp in
  match access with
  | inl e => (grpc_error (grpc_status_code e) (grpc_message e), cache, pool)
  | inr _ =>
      if negb maintenance_mode && bool_decide (fp = None) && negb (is_unauthenticated requirement)
      then (grpc_error (grpc_status_code InsecureNotAllowed) (grpc_message InsecureNotAllowed), cache, pool)
      else match route_request f path with
           | None => (grpc_error 12 (ustr "Unknown service"), cache, pool)
           | Some socket =>
               let '(r, pool) := forward pool socket in
               (match r with
                | inr r => Proxied r
                | inl e => grpc_error 14 (ustr "Backend unavailable: " ++ e)
                end, cache, pool)
           end
  end.
End gateway.
Arguments grpc_error {R} _ _.
Arguments Proxied {R} _.

(** ** The connection pool (src/proxy.rs) *)

Section proxy.
(** A connection handle, whether it is ready, opening one and sending on it. *)
Context {C Q R : Type}.
Context (is_ready : C → bool) (connect : ustring → ustring + C) (send_request : C → Q → ustring + R).

(** [BackendPool]: the cached handle of every back end. *)
#[local] Notation BackendPool := (gmap ustring (option C)).

Definition new_pool : BackendPool :=
  {[WORKLOADD_SOCKET := None; GRANOLA_SOCKET := None; PROVISIOND_SOCKET := None]}.
Definition from_socket (path : ustring) : BackendPool := {[path := None]}.

Definition acquire (pool : BackendPool) (socket : ustring) : (ustring + C) * BackendPool :=
  match pool !! socket with
  | None => (inl (ustr "Unknown backend socket"), pool)
  | Some entry =>
      match entry with
      | Some c => if is_ready c then (inr c, pool)
                  else match connect socket with
                       | inr c => (inr c, <[socket := Some c]> pool)
                       | r => (r, pool)
                       end
      | None => match connect socket with
                | inr c => (inr c, <[socket := Some c]> pool)
                | r => (r, pool)
                end
      end
  end.

Definition invalidate (pool : BackendPool) (socket : ustring) : BackendPool :=
  if bool_decide (is_Some (pool !! socket)) then <[socket := None]> pool else pool.

Definition forward (req : Q) (pool : BackendPool) (socket : ustring) : (ustring + R) * BackendPool :=
  match acquire pool socket with
  | (inr c, pool) =>
      match send_request c req with
      | inr r => (inr r, pool)
      | inl _ => (inl (ustr "Failed to send request to backend service"), invalidate pool socket)
      end
  | (inl e, pool) => (inl e, pool)
  end.
End proxy.

(** ** Every accepted method is annotated *)

Definition is_rpc (line : ustring) : bool := starts_with (ustr "rpc ") (trim line).

(** The lines that declare a method. *)
Fixpoint rpc_indices (ls : list ustring) (idx : nat) : list nat :=
  match ls with
  | [] => []
  | l :: ls => (if is_rpc l then [idx] else []) ++ rpc_indices ls (S idx)
  end.

(** The service that is open on a line, and the depth of braces behind it. *)
Definition scope_at (all : list ustring) (n : nat) : option ustring * nat :=
  foldl (λ sc line, scope_line (trim line) sc.1 sc.2) (None, 0%nat) (take n all).

(** A method that comes from the declaration on a line in an open service and the
    annotation on the line before. *)
Definition declared (all : list ustring) (package : ustring) (idx : nat) (m : RpcMethod) : Prop :=
  ∃ k line prev service name annotation,
    idx = S k ∧ all !! idx = Some line ∧ all !! k = Some prev ∧ (scope_at all (S idx)).1 = Some service ∧
    extract_method_name (trim line) = Some name ∧ extract_rbac_annotation prev = Some annotation ∧
    parse_rbac_annotation annotation = Ok (requirement m) ∧
    full_path m = ustr "/" ++ package ++ ustr "." ++ service ++ ustr "/" ++ name.

Section parser_proofs.
Context (all : list ustring) (package filename : ustring).

Lemma push_error_some p idx msg : errors (push_error filename p idx msg) ≠ [].
Proof. cbn [errors push_error]. by destruct (errors p). Qed.

Lemma parse_annotation_result a : parse_rbac_annotation a ≠ Panic.
Proof.
  unfold parse_rbac_annotation. case_bool_decide; [done|].
  destruct (strip_prefix _ _); by destruct (perm_get _ _).
Qed.

(** A line with a declaration adds its method or an error. *)
Lemma parse_rpc_line_cases p line idx service :
  all !! idx = Some line → service = (scope_at all (S idx)).1 →
  let q := parse_rpc_line all package filename p (trim line) idx service in
  errors q ≠ [] ∨
  (errors q = errors p ∧ ∃ m, methods q = methods p ++ [m] ∧ declared all package idx m).
Proof.
  intros Hl Hsv q. subst q. unfold parse_rpc_line.
  destruct service as [service|]; [|left; apply push_error_some].
  destruct (extract_method_name (trim line)) as [name|] eqn:En; [|left; apply push_error_some].
  destruct idx as [|k]; [left; apply push_error_some|].
  destruct (all !! k) as [prev|] eqn:Ek; cbn [mbind option_bind]; [|left; apply push_error_some].
  destruct (extract_rbac_annotation prev) as [annotation|] eqn:Ea; [|left; apply push_error_some].
  destruct (parse_rbac_annotation annotation) as [req|e|] eqn:Er;
    [|left; apply push_error_some|by apply parse_annotation_result in Er].
  right. cbn [errors methods]. split; [done|]. eexists. split; [reflexivity|].
  exists k, line, prev, service, name, annotation. done.
Qed.

Lemma parse_rpc_line_errors p line idx service :
  errors p ≠ [] → errors (parse_rpc_line all package filename p line idx service) ≠ [].
Proof.
  intros Hp. unfold parse_rpc_line.
  repeat match goal with |- context [match ?x with _ => _ end] => destruct x end;
    try apply push_error_some; done.
Qed.

Lemma parse_lines_errors ls : ∀ idx service depth p,
  errors p ≠ [] → errors (parse_lines all package filename ls idx service depth p) ≠ [].
Proof.
  induction ls as [|l ls IH]; intros idx service depth p Hp; cbn [parse_lines]; [done|].
  destruct (scope_line (trim l) service depth) as [service' depth']. apply IH.
  destruct (starts_with _ _); [by apply parse_rpc_line_errors|done].
Qed.

Lemma scope_at_S n l : all !! n = Some l → scope_at all (S n) = scope_line (trim l) (scope_at all n).1 (scope_at all n).2.
Proof. intros Hl. unfold scope_at. by rewrite (take_S_r _ _ _ Hl), foldl_app. Qed.

Lemma parse_lines_declared ls : ∀ idx service depth p,
  (∀ i l, ls !! i = Some l → all !! (idx + i)%nat = Some l) → (service, depth) = scope_at all idx →
  let q := parse_lines all package filename ls idx service depth p in
  errors q = [] → ∃ ms, methods q = methods p ++ ms ∧ Forall2 (declared all package) (rpc_indices ls idx) ms.
Proof.
  induction ls as [|l ls IH]; intros idx service depth p Hall Hsc; cbn [parse_lines rpc_indices].
  { intros _. exists []. rewrite app_nil_r. split; [done|constructor]. }
  assert (all !! idx = Some l) as Hl by (rewrite <-(Hall 0%nat l); [f_equal; lia|done]).
  assert (∀ i x, ls !! i = Some x → all !! (S idx + i)%nat = Some x) as Hall'.
  { intros i x Hx. rewrite <-(Hall (S i) x); [f_equal; lia|done]. }
  assert (scope_line (trim l) service depth = scope_at all (S idx)) as Hsc'.
  { by rewrite (scope_at_S idx l Hl), <-Hsc. }
  destruct (scope_line (trim l) service depth) as [service' depth']. unfold is_rpc.
  destruct (starts_with (ustr "rpc ") (trim l)); [|by apply IH].
  intros Hq. destruct (parse_rpc_line_cases p l idx service' Hl) as [He|(He & m & Hm & Hd)];
    [by rewrite <-Hsc'| |].
  { by apply (parse_lines_errors ls (S idx) service' depth') in He. }
  destruct (IH (S idx) service' depth' _ Hall' Hsc' Hq) as (ms & Hms & Hf).
  exists (m :: ms). rewrite Hms, Hm, <-app_assoc. split; [done|]. cbn [app]. by constructor.
Qed.
End parser_proofs.

Lemma parse_proto_declared content filename ms :
  parse_proto content filename = Ok ms →
  Forall2 (declared (lines content) (extract_package content)) (rpc_indices (lines content) 0) ms.
Proof.
  unfold parse_proto. intros E.
  destruct (errors (parse_lines _ _ _ _ _ _ _ _)) eqn:He; [|done]. injection E as <-.
  destruct (parse_lines_declared (lines content) (extract_package content) filename (lines content) 0 None 0
    {| methods := []; errors := [] |}) as (ms & Hms & Hf); [done|done|done|]. by rewrite Hms.
Qed.

(** C23: A protocol file that the build accepts gives one method for every line that
    declares one, in order, with the path of the service that is open there, and
    its requirement is the valid annotation on the line before: no method goes
    without. *)
Theorem accepted_methods_annotated content filename ms :
  parse_proto content filename = Ok ms →
  Forall2 (declared (lines content) (extract_package content)) (rpc_indices (lines content) 0) ms.
Proof. apply parse_proto_declared. Qed.

(** ** The generated rules mean the annotations *)

#[global] Instance RbacRequirement_dec : EqDecision RbacRequirement.
Proof. solve_decision. Defined.
#[global] Instance MethodRequirement_dec : EqDecision MethodRequirement.
Proof. solve_decision. Defined.

#[global] Instance requirement_code_inj : Inj (=) (=) requirement_code.
Proof.
  intros [|p|p] [|q|q] E; try done; apply (app_inv_head _) in E; apply (app_inv_tail _) in E; by subst.
Qed.

(** The arm that lists a path. *)
Definition listed (groups : list (RbacRequirement * list ustring)) (r : RbacRequirement) (path : ustring) : Prop :=
  ∃ paths, (r, paths) ∈ groups ∧ path ∈ paths.

Lemma listed_cons r paths groups r' path :
  listed ((r, paths) :: groups) r' path ↔ (r' = r ∧ path ∈ paths) ∨ listed groups r' path.
Proof. unfold listed. set_solver. Qed.

Lemma listed_push r path groups r' path' :
  listed (group_push r path groups) r' path' ↔ listed groups r' path' ∨ (r' = r ∧ path' = path).
Proof.
  induction groups as [|[k paths] groups IH]; cbn [group_push].
  { rewrite listed_cons. unfold listed. set_solver. }
  case_bool_decide as Ek.
  { apply (inj requirement_code) in Ek as ->. rewrite !listed_cons. set_solver. }
  destruct (lex_leb _ _); rewrite !listed_cons; [|rewrite IH]; set_solver.
Qed.

Lemma listed_groups ms r path :
  listed (requirement_groups ms) r path ↔ ∃ m, m ∈ ms ∧ requirement m = r ∧ full_path m = path.
Proof.
  unfold requirement_groups. induction ms as [|m ms IH] using rev_ind.
  { unfold listed. set_solver. }
  rewrite foldl_app. cbn [foldl]. rewrite listed_push, IH. set_solver.
Qed.

Lemma match_path_listed groups path :
  match match_path groups path with
  | Some Unknown => (∀ r, ¬ listed groups r path) ∨ ∃ r, listed groups r path ∧ arm r = Some Unknown
  | x => ∃ r, listed groups r path ∧ arm r = x
  end.
Proof.
  induction groups as [|[r paths] groups IH]; cbn [match_path]; [left; unfold listed; set_solver|].
  case_bool_decide as Hp.
  - assert (listed ((r, paths) :: groups) r path) by (rewrite listed_cons; auto).
    destruct (arm r) as [[]|] eqn:Ea; eauto.
  - assert (∀ r', listed groups r' path → listed ((r, paths) :: groups) r' path) as Hmon
      by (intros r'; rewrite listed_cons; auto).
    destruct (match_path groups path) as [[]|];
      [destruct IH as (r' & ? & ?); eauto..| |destruct IH as (r' & ? & ?); eauto].
    destruct IH as [Hn|(r' & ? & ?)]; [|right; eauto]. left. intros r'. rewrite listed_cons.
    intros [[_ ?]|?]; [done|by eapply Hn].
Qed.

Lemma perm_get_variant s v : perm_get s VALID_PERMISSIONS = Some v → ∃ p, s = to_string p ∧ variant v = Some p.
Proof.
  unfold VALID_PERMISSIONS. cbn [perm_get].
  repeat (case_bool_decide as E; [intros [= <-]; rewrite <-E; eexists; split; [|reflexivity]; reflexivity|clear E]).
  done.
Qed.

(** A requirement that the parser returns compiles to the permission it names. *)
Lemma parsed_arm a r :
  parse_rbac_annotation a = Ok r →
  match arm r with
  | Some Unauthenticated => trim a = ustr "none"
  | Some (RequiresPermission p) => trim a = to_string p
  | Some (MaintenanceOrPermission p) =>
      ∃ rest, strip_prefix (ustr "maintenance|") (trim a) = Some rest ∧ trim rest = to_string p
  | _ => False
  end.
Proof.
  unfold parse_rbac_annotation. case_bool_decide as E; [by intros [= <-]|].
  destruct (strip_prefix _ (trim a)) as [rest|] eqn:Es.
  - destruct (perm_get (trim rest) VALID_PERMISSIONS) as [v|] eqn:Ep; [|done]. intros [= <-].
    apply perm_get_variant in Ep as (p & Hp & Hv). cbn [arm]. rewrite Hv. cbn [fmap option_fmap option_map]. eauto.
  - destruct (perm_get (trim a) VALID_PERMISSIONS) as [v|] eqn:Ep; [|done]. intros [= <-].
    apply perm_get_variant in Ep as (p & Hp & Hv). cbn [arm]. by rewrite Hv.
Qed.

(** Every method of a list has a requirement that compiles. *)
Definition rules_ok (ms : list RpcMethod) : Prop :=
  Forall (λ m, ∃ a, parse_rbac_annotation a = Ok (requirement m)) ms.

Lemma parse_proto_rules content filename ms : parse_proto content filename = Ok ms → rules_ok ms.
Proof.
  intros Hf%parse_proto_declared.
  induction Hf as [|i m is' ms (k & line & prev & service & name & a & _ & _ & _ & _ & _ & _ & Ha & _) _ IH];
    constructor; eauto.
Qed.

Lemma parse_all_rules files : ∀ p, rules_ok (methods p) → rules_ok (methods (parse_all files p)).
Proof.
  induction files as [|[name content] files IH]; intros p Hp; cbn [parse_all]; [done|]. apply IH.
  destruct content as [e|content]; [done|].
  destruct (parse_proto content name) as [ms|es|] eqn:E; [|done..]. cbn [methods].
  apply Forall_app. split; [done|by eapply parse_proto_rules].
Qed.

Lemma build_rules files ms : build files = Ok ms → rules_ok ms.
Proof.
  unfold build. destruct (errors _); [|done]. intros [= <-]. by apply parse_all_rules, Forall_nil_2.
Qed.

Lemma rule_meaning ms path :
  rules_ok ms →
  (method_permission ms path = Unknown ∧ path ∉ full_path <$> ms) ∨
  (∃ m, m ∈ ms ∧ full_path m = path ∧ arm (requirement m) = Some (method_permission ms path) ∧
        method_permission ms path ≠ Unknown).
Proof.
  intros Hok. pose proof (match_path_listed (requirement_groups ms) path) as Hm. unfold method_permission.
  assert (∀ r, listed (requirement_groups ms) r path →
            ∃ m x, m ∈ ms ∧ full_path m = path ∧ requirement m = r ∧ arm r = Some x ∧ x ≠ Unknown) as Hl.
  { intros r Hr. apply listed_groups in Hr as (m & Hin & <- & Hp). unfold rules_ok in Hok.
    rewrite Forall_forall in Hok. destruct (Hok m Hin) as (a & Ha). apply parsed_arm in Ha.
    destruct (arm (requirement m)) as [x|] eqn:Ex; [|done]. exists m, x. split_and!; [done..|]. by intros ->. }
  destruct (match_path (requirement_groups ms) path) as [x|] eqn:Ex; cbn [default id].
  - destruct (decide (x = Unknown)) as [->|Hx].
    + destruct Hm as [Hn|(r & Hr & Ha)].
      * left. split; [done|]. intros Hin. apply list_elem_of_fmap in Hin as (m & -> & Hin).
        apply (Hn (requirement m)), listed_groups. eauto.
      * destruct (Hl r Hr) as (m & y & _ & _ & _ & Ey & Hy). congruence.
    + right. assert (∃ r, listed (requirement_groups ms) r path ∧ arm r = Some x) as (r & Hr & Ha) by by destruct x.
      destruct (Hl r Hr) as (m & y & ? & ? & <- & Ey & Hy). exists m. split_and!; [done..|congruence|done].
  - destruct Hm as (r & Hr & Ha). destruct (Hl r Hr) as (m & y & _ & _ & _ & Ey & _). congruence.
Qed.

(** *** What a protocol file says

    The reading of the annotations, without the parser: which line declares a
    method, which comment annotates it, and what the words of an annotation
    mean. *)

(** [rpc name ( ...] *)
Definition declares_rpc (line name : ustring) : Prop :=
  ∃ rest before more, trim line = ustr "rpc " ++ rest ∧ trim rest = before ++ OPEN_PAREN :: more ∧
    OPEN_PAREN ∉ before ∧ name = trim before.
(** [// @rbac: text] *)
Definition annotated (line text : ustring) : Prop :=
  ∃ rest words, trim line = ustr "//" ++ rest ∧ trim rest = ustr "@rbac:" ++ words ∧ text = trim words.
(** [none], a permission, or [maintenance|] and a permission. *)
Definition means (text : ustring) (r : MethodRequirement) : Prop :=
  match r with
  | Unauthenticated => text = ustr "none"
  | RequiresPermission p => text = to_string p
  | MaintenanceOrPermission p => ∃ rest, text = ustr "maintenance|" ++ rest ∧ trim rest = to_string p
  | Unknown => False
  end.

(** A line of a file declares the path. *)
Definition declares_path (content : ustring) (k : nat) (path : ustring) : Prop :=
  ∃ line service name, lines content !! S k = Some line ∧ is_rpc line = true ∧ declares_rpc line name ∧
    (scope_at (lines content) (S (S k))).1 = Some service ∧
    path = ustr "/" ++ extract_package content ++ ustr "." ++ service ++ ustr "/" ++ name.
(** The comment on the line before gives its requirement. *)
Definition rule (files : list (ustring * (ustring + ustring))) (path : ustring) (r : MethodRequirement) : Prop :=
  ∃ file content k prev text, (file, inr content) ∈ files ∧ declares_path content k path ∧
    lines content !! k = Some prev ∧ annotated prev text ∧ means text r.

Lemma trim_start_idem s : trim_start (trim_start s) = trim_start s.
Proof.
  destruct (trim_start_spec s) as (_ & _ & _ & Hh). destruct (trim_start s) as [|c r]; [done|].
  cbn [trim_start]. by rewrite Hh.
Qed.
Lemma trim_idem s : trim (trim s) = trim s.
Proof.
  assert (trim_start (trim s) = trim s) as Hs.
  { unfold trim. destruct (trim_end_spec (trim_start s)) as (ws & Hw & _).
    destruct (trim_start_spec s) as (_ & _ & _ & Hh). rewrite Hw in Hh.
    destruct (trim_end (trim_start s)) as [|c r]; [done|]. cbn [app] in Hh. cbn [trim_start]. by rewrite Hh. }
  unfold trim at 1. rewrite Hs. unfold trim, trim_end. by rewrite rev_involutive, trim_start_idem.
Qed.

Lemma before_Some f s a :
  before f s = Some a ↔ ∃ c r, s = a ++ c :: r ∧ f c = true ∧ Forall (λ x, f x = false) a.
Proof.
  revert a. induction s as [|x s IH]; intros a; cbn [before].
  { split; [done|]. by intros (c & r & H%eq_sym%app_eq_nil & _); destruct H. }
  destruct (f x) eqn:Hx.
  - split; [intros [= <-]; by exists x, s|]. intros (c & r & E & _ & Hf). destruct a as [|y a]; [done|].
    injection E as -> _. apply Forall_cons in Hf as [Hf _]. congruence.
  - split.
    + destruct (before f s) as [b|]; [|done]. intros [= <-].
      destruct (proj1 (IH b) eq_refl) as (c & r & -> & Hc & Hf). exists c, r. split_and!; [done..|by constructor].
    + intros (c & r & E & Hc & Hf). destruct a as [|y a]; [injection E as -> ->; congruence|].
      injection E as -> ->. apply Forall_cons in Hf as [_ Hf].
      rewrite (proj2 (IH a)); [done|]. by exists c, r.
Qed.

Lemma extract_name_spec line name : extract_method_name (trim line) = Some name ↔ declares_rpc line name.
Proof.
  unfold extract_method_name, declares_rpc. split.
  - destruct (strip_prefix _ (trim line)) as [rest|] eqn:E1; [|done]. cbn [mbind option_bind].
    destruct (before _ (trim rest)) as [b|] eqn:E2; [|done]. intros [= <-].
    apply strip_prefix_Some in E1. apply before_Some in E2 as (c & r & E2 & Hc & Hf). apply Z.eqb_eq in Hc as ->.
    exists rest, b, r. split_and!; [done..| |done]. intros Hin. rewrite Forall_forall in Hf.
    specialize (Hf _ Hin). by rewrite Z.eqb_refl in Hf.
  - intros (rest & b & more & E1 & E2 & Hn & ->). rewrite (proj2 (strip_prefix_Some _ _ _) E1). cbn [mbind option_bind].
    rewrite (proj2 (before_Some _ _ b)); [done|]. exists OPEN_PAREN, more. split_and!; [done|by rewrite Z.eqb_refl|].
    apply Forall_forall. intros x Hx. apply Z.eqb_neq. by intros ->.
Qed.

Lemma extract_annotation_spec line text : extract_rbac_annotation line = Some text ↔ annotated line text.
Proof.
  unfold extract_rbac_annotation, annotated. split.
  - destruct (strip_prefix _ (trim line)) as [rest|] eqn:E1; [|done]. cbn [mbind option_bind].
    destruct (strip_prefix _ (trim rest)) as [words|] eqn:E2; [|done]. intros [= <-].
    apply strip_prefix_Some in E1, E2. eauto.
  - intros (rest & words & E1 & E2 & ->). rewrite (proj2 (strip_prefix_Some _ _ _) E1). cbn [mbind option_bind].
    by rewrite (proj2 (strip_prefix_Some _ _ _) E2).
Qed.

Lemma to_string_shape p :
  to_string p ≠ ustr "none" ∧ ∀ rest, to_string p ≠ ustr "maintenance|" ++ rest.
Proof. by destruct p. Qed.
Lemma to_string_inj' p q : to_string p = to_string q → p = q.
Proof. destruct p, q; by intros. Qed.

Lemma means_unique text r r' : means text r → means text r' → r = r'.
Proof.
  destruct r as [p|p| |], r' as [q|q| |]; cbn [means]; try done.
  - intros -> E. by apply to_string_inj' in E as ->.
  - intros -> (rest & E & _). by apply to_string_shape in E.
  - intros -> E. by apply to_string_shape in E.
  - intros (rest & -> & _) E. symmetry in E. by apply to_string_shape in E.
  - intros (rest & -> & E1) (rest' & E & E2). apply (app_inv_head _) in E as <-. rewrite E1 in E2.
    by apply to_string_inj' in E2 as ->.
  - by intros (rest & -> & _).
  - intros -> E. symmetry in E. by apply to_string_shape in E.
  - intros -> (rest & E & _). done.
Qed.

(** The meaning of a declared method. *)
Lemma declared_rule content k m :
  declared (lines content) (extract_package content) (S k) m → is_rpc (default [] (lines content !! S k)) = true →
  declares_path content k (full_path m) ∧
  ∃ prev text r, lines content !! k = Some prev ∧ annotated prev text ∧ means text r ∧ arm (requirement m) = Some r.
Proof.
  intros (k' & line & prev & service & name & a & [= <-] & Hl & Hp & Hs & Hn & Ha & Hr & Hf) Hrpc.
  rewrite Hl in Hrpc. cbn in Hrpc. split.
  - exists line, service, name. apply extract_name_spec in Hn. by split_and!.
  - apply extract_annotation_spec in Ha as Han. apply parsed_arm in Hr.
    assert (trim a = a) as Ht. { destruct Han as (? & ? & _ & _ & ->). apply trim_idem. }
    rewrite Ht in Hr. destruct (arm (requirement m)) as [r|]; [|done]. exists prev, a, r.
    split_and!; [done..| |done]. destruct r as [p|p| |]; cbn [means]; try done.
    destruct Hr as (rest & E & Hrest). exists rest. by apply strip_prefix_Some in E.
Qed.

Lemma rpc_indices_elem ls : ∀ idx i, i ∈ rpc_indices ls idx ↔ ∃ l, (idx ≤ i)%nat ∧ ls !! (i - idx)%nat = Some l ∧ is_rpc l = true.
Proof.
  induction ls as [|x ls IH]; intros idx i; cbn [rpc_indices].
  { rewrite elem_of_nil. split; [done|]. by intros (l & _ & ? & _). }
  rewrite elem_of_app, IH. destruct (decide (i = idx)) as [->|Hne].
  - rewrite Nat.sub_diag. cbn [lookup list_lookup]. destruct (is_rpc x) eqn:Hx.
    + split; [intros _; exists x; done|]. intros _. left. by constructor.
    + split; [intros [?%elem_of_nil|(l & ? & _)]; [done|lia]|]. intros (l & _ & [= <-] & ?). congruence.
  - split.
    + intros [Hi|(l & Hle & Hl & Hr)]; [destruct (is_rpc x); set_solver|]. exists l. split; [lia|].
      replace (i - idx)%nat with (S (i - S idx)) by lia. done.
    + intros (l & Hle & Hl & Hr). right. exists l. split; [lia|].
      replace (i - idx)%nat with (S (i - S idx)) in Hl by lia. done.
Qed.

(** The methods of all files, file by file. *)
Lemma parse_all_parts files : ∀ p,
  errors (parse_all files p) = [] → errors p = [] ∧
  ∃ parts, methods (parse_all files p) = methods p ++ concat parts ∧
    Forall2 (λ file ms, ∃ content, file.2 = inr content ∧ parse_proto content file.1 = Ok ms) files parts.
Proof.
  induction files as [|[name content] files IH]; intros p He; cbn [parse_all] in *.
  { split; [done|]. exists []. rewrite app_nil_r. split; [done|constructor]. }
  apply IH in He as (He & parts & Hm & Hf). destruct content as [e|content].
  { cbn [errors] in He. by apply app_eq_nil in He as [_ ?]. }
  destruct (parse_proto content name) as [ms|es|] eqn:E; cbn [errors methods] in *.
  - split; [done|]. exists (ms :: parts). rewrite Hm. cbn [concat]. rewrite <-app_assoc. split; [done|].
    constructor; [|done]. by exists content.
  - apply app_eq_nil in He as [_ ->]. unfold parse_proto in E. by destruct (errors (parse_lines _ _ _ _ _ _ _ _)).
  - unfold parse_proto in E. by destruct (errors (parse_lines _ _ _ _ _ _ _ _)).
Qed.

Lemma build_parts files ms :
  build files = Ok ms →
  ∃ parts, ms = concat parts ∧
    Forall2 (λ file ms, ∃ content, file.2 = inr content ∧ parse_proto content file.1 = Ok ms) files parts.
Proof.
  unfold build. destruct (errors (parse_all files _)) eqn:He; [|done]. intros [= <-].
  apply parse_all_parts in He as (_ & parts & Hm & Hf). by exists parts.
Qed.

Lemma build_method files ms m :
  build files = Ok ms → m ∈ ms →
  ∃ file content k, (file, inr content) ∈ files ∧ declared (lines content) (extract_package content) (S k) m ∧
    is_rpc (default [] (lines content !! S k)) = true.
Proof.
  intros (parts & -> & Hf)%build_parts Hm. apply list_elem_of_In, in_concat in Hm as (part & Hp & Hm).
  apply list_elem_of_In in Hp, Hm. apply list_elem_of_lookup in Hp as [i Hi].
  destruct (Forall2_lookup_r _ _ _ _ _ Hf Hi) as ([file c] & Hfile & content & Hc & Hparse).
  cbn in Hc, Hparse. subst c.
  apply parse_proto_declared in Hparse. apply list_elem_of_lookup in Hm as [j Hj].
  destruct (Forall2_lookup_r _ _ _ _ _ Hparse Hj) as (idx & Hidx & Hd).
  assert (∃ k, idx = S k) as [k ->] by (destruct Hd as (k & ? & ? & ? & ? & ? & -> & _); eauto).
  exists file, content, k. split_and!; [by eapply list_elem_of_lookup_2|done|].
  apply list_elem_of_lookup_2, rpc_indices_elem in Hidx as (l & _ & Hl & Hr). rewrite Nat.sub_0_r in Hl. by rewrite Hl.
Qed.

Lemma declares_path_method files ms file content k path :
  build files = Ok ms → (file, inr content) ∈ files → declares_path content k path →
  ∃ m, m ∈ ms ∧ full_path m = path ∧ declared (lines content) (extract_package content) (S k) m.
Proof.
  intros (parts & -> & Hf)%build_parts Hin (line & service & name & Hl & Hrpc & Hn & Hs & ->).
  apply list_elem_of_lookup in Hin as [i Hi].
  destruct (Forall2_lookup_l _ _ _ _ _ Hf Hi) as (part & Hpart & content' & [= <-] & Hparse).
  apply parse_proto_declared in Hparse.
  assert (S k ∈ rpc_indices (lines content) 0) as Hidx.
  { apply rpc_indices_elem. exists line. rewrite Nat.sub_0_r. split_and!; [lia|done..]. }
  apply list_elem_of_lookup in Hidx as [j Hj]. destruct (Forall2_lookup_l _ _ _ _ _ Hparse Hj) as (m & Hm & Hd).
  exists m. split_and!; [| |done].
  - apply list_elem_of_In, in_concat. exists part. split; apply list_elem_of_In; by eapply list_elem_of_lookup_2.
  - destruct Hd as (k' & line' & prev & service' & name' & a & [= <-] & Hl' & _ & Hs' & Hn' & _ & _ & ->).
    apply extract_name_spec in Hn. rewrite Hl in Hl'. injection Hl' as <-. rewrite Hs in Hs'. injection Hs' as <-.
    rewrite Hn in Hn'. by injection Hn' as <-.
Qed.

(** C22: The compiled rules say what the comments of the protocol files say. A path
    is unknown exactly when no line of a file declares it; every other path has
    the requirement that the comment before a declaration of it means; and when
    no path is declared twice, that is the requirement of every such comment.
    Every file was read. *)
Theorem rules_are_annotations files ms path :
  build files = Ok ms →
  (∀ file c, (file, c) ∈ files → ∃ content, c = inr content) ∧
  (method_permission ms path = Unknown ↔
   ∀ file content k, (file, inr content) ∈ files → ¬ declares_path content k path) ∧
  (method_permission ms path ≠ Unknown → rule files path (method_permission ms path)) ∧
  (NoDup (full_path <$> ms) → ∀ r, rule files path r → method_permission ms path = r).
Proof.
  intros Hb. pose proof (build_rules _ _ Hb) as E.
  assert (∀ m, m ∈ ms → full_path m = path → ∃ r, arm (requirement m) = Some r ∧ rule files path r ∧
    ∃ file content k, (file, inr content) ∈ files ∧ declares_path content k path) as Hrule.
  { intros m Hm <-. destruct (build_method files ms m Hb Hm) as (file & content & k & Hf & Hd & Hr).
    destruct (declared_rule content k m Hd Hr) as (Hpath & prev & text & r & Hp & Ha & Hme & Harm).
    exists r. split_and!; [done| |by exists file, content, k]. exists file, content, k, prev, text. done. }
  split_and!.
  - intros file c Hin. destruct (build_parts _ _ Hb) as (parts & _ & Hf). apply list_elem_of_lookup in Hin as [i Hi].
    destruct (Forall2_lookup_l _ _ _ _ _ Hf Hi) as (part & _ & content & Hc & _). eauto.
  - split.
    + intros Hu file content k Hin Hd.
      destruct (declares_path_method _ _ _ _ _ _ Hb Hin Hd) as (m & Hm & Hp & _).
      destruct (rule_meaning ms path E) as [[_ Hn]|(m' & _ & _ & _ & Hn)]; [|done].
      apply Hn. rewrite <-Hp. by apply list_elem_of_fmap_2.
    + intros Hno. destruct (rule_meaning ms path E) as [[Hu _]|(m & Hm & Hp & _)]; [done|].
      destruct (Hrule m Hm Hp) as (r & _ & _ & file & content & k & Hf & Hd). by destruct (Hno file content k Hf).
  - intros Hu. destruct (rule_meaning ms path E) as [[? _]|(m & Hm & Hp & Ha & _)]; [done|].
    destruct (Hrule m Hm Hp) as (r & Hr & Hru & _). rewrite Ha in Hr. by injection Hr as <-.
  - intros Hnd r (file & content & k & prev & text & Hf & Hd & Hp & Han & Hme).
    destruct (declares_path_method _ _ _ _ _ _ Hb Hf Hd) as (m & Hm & Hpm & Hdm).
    assert (is_rpc (default [] (lines content !! S k)) = true) as Hrpc.
    { destruct Hd as (line & ? & ? & -> & ? & _). done. }
    destruct (declared_rule content k m Hdm Hrpc) as (_ & prev' & text' & r' & Hp' & Han' & Hme' & Harm).
    rewrite Hp in Hp'. injection Hp' as <-. apply extract_annotation_spec in Han, Han'. rewrite Han in Han'.
    injection Han' as <-. pose proof (means_unique _ _ _ Hme Hme') as <-.
    destruct (rule_meaning ms path E) as [[_ Hn]|(m' & Hm' & Hpm' & Ha' & _)].
    { destruct Hn. rewrite <-Hpm. by apply list_elem_of_fmap_2. }
    assert (m' = m) as ->; [|congruence]. apply list_elem_of_lookup in Hm as [i Hi], Hm' as [j Hj].
    assert (i = j) as ->; [|congruence].
    eapply (NoDup_lookup (full_path <$> ms)); [done|rewrite list_lookup_fmap, Hi; reflexivity|].
    rewrite list_lookup_fmap, Hj. cbn [fmap option_fmap option_map]. congruence.
Qed.

(** ** Who reaches a back end *)

(** A certificate whose first entry holds the permission, and which is not
    revoked. *)
Definition granted (st : State) (fp : ustring) (p : Permission) : Prop :=
  fp ∉ revoked st ∧
  ∃ before u after, users st = before ++ u :: after ∧ Forall (λ v, fingerprint v ≠ fp) before ∧
    fingerprint u = fp ∧ has_permission (permissions u) p = true.

Definition allowed (ms : list RpcMethod) (st : State) (path : ustring) (fp : option ustring)
    (maintenance_mode : bool) : Prop :=
  match method_permission ms path with
  | Unknown => False
  | Unauthenticated => True
  | RequiresPermission p => ∃ f, fp = Some f ∧ granted st f p
  | MaintenanceOrPermission p => maintenance_mode = true ∨ ∃ f, fp = Some f ∧ granted st f p
  end.

Lemma check_state_granted st fp p : check_state st fp p = inr tt ↔ granted st fp p.
Proof.
  unfold check_state, granted. case_bool_decide as Hr; [split; [done|tauto]|].
  destruct (list_find _ (users st)) as [[i u]|] eqn:Ef.
  - apply list_find_Some in Ef as (Hi & Hu & Hbefore). split.
    + intros E. split; [done|]. exists (take i (users st)), u, (drop (S i) (users st)).
      split; [by rewrite take_drop_middle|]. split; [|by destruct (has_permission _ _)].
      apply Forall_forall. intros v (j & Hj)%list_elem_of_lookup. apply lookup_take_Some in Hj as [Hj Hlt].
      by eapply Hbefore.
    + intros (_ & before & v & after & Hus & Hb & Hv & Hp).
      assert (i = length before) as ->.
      { destruct (lt_eq_lt_dec i (length before)) as [[Hlt|]|Hgt]; [|done|].
        - rewrite Hus, lookup_app_l in Hi by done. rewrite Forall_forall in Hb.
          by destruct (Hb u); [eapply list_elem_of_lookup_2|].
        - destruct (Hbefore (length before) v); [|done..]. by rewrite Hus, list_lookup_middle. }
      rewrite Hus, list_lookup_middle in Hi by done. injection Hi as ->. by rewrite Hp.
  - split; [done|]. intros (_ & before & u & after & Hus & _ & Hu & _).
    apply list_find_None in Ef. rewrite Hus in Ef. apply Forall_app in Ef as [_ Ef].
    by apply Forall_cons in Ef as [Ef _].
Qed.

(** Why a request is refused. *)
Definition refusal (ms : list RpcMethod) (st : State) (path : ustring) (fp : option ustring) (e : RbacError) : Prop :=
  match method_permission ms path with
  | Unknown => e = UnknownMethod
  | Unauthenticated => False
  | RequiresPermission p | MaintenanceOrPermission p =>
      match fp with
      | None => e = ErrUnauthenticated
      | Some fp =>
          match e with
          | CertificateRevoked => fp ∈ revoked st
          | UnknownCertificate => fp ∉ revoked st ∧ Forall (λ u, fingerprint u ≠ fp) (users st)
          | PermissionDenied required =>
              required = p ∧ fp ∉ revoked st ∧
              ∃ u, u ∈ users st ∧ fingerprint u = fp ∧ has_permission (permissions u) p = false
          | _ => False
          end
      end
  end.

Lemma check_state_cases ms st path fp p :
  method_permission ms path = RequiresPermission p ∨ method_permission ms path = MaintenanceOrPermission p →
  check_state st fp p = inr tt ∨ ∃ e, refusal ms st path (Some fp) e ∧ check_state st fp p = inl e.
Proof.
  intros Hm. assert (∀ e, match e with
    | CertificateRevoked => fp ∈ revoked st
    | UnknownCertificate => fp ∉ revoked st ∧ Forall (λ u, fingerprint u ≠ fp) (users st)
    | PermissionDenied required => required = p ∧ fp ∉ revoked st ∧
        ∃ u, u ∈ users st ∧ fingerprint u = fp ∧ has_permission (permissions u) p = false
    | _ => False end → refusal ms st path (Some fp) e) as Hr by (unfold refusal; by destruct Hm as [-> | ->]).
  unfold check_state. case_bool_decide; [right; exists CertificateRevoked; split; [by apply Hr|done]|].
  destruct (list_find (λ u, fingerprint u = fp) (users st)) as [[i u]|] eqn:Ef.
  - apply list_find_Some in Ef as (Hi & Hu & _).
    destruct (has_permission (permissions u) p) eqn:Hp; [by left|right]. exists (PermissionDenied p).
    split; [apply Hr|done].
    split_and!; [done..|]. exists u. split_and!; [by eapply list_elem_of_lookup_2|done..].
  - apply list_find_None in Ef. right. exists UnknownCertificate. split; [by apply Hr|done].
Qed.

(** The back end of every service: the machines are served only where the
    workload daemon runs, which its socket shows. *)
Definition services : list (ustring * ustring) :=
  [(VM_SERVICE_PREFIX, WORKLOADD_SOCKET); (PROCESS_SERVICE_PREFIX, GRANOLA_SOCKET); (LOG_SERVICE_PREFIX, GRANOLA_SOCKET);
   (PROVISION_SERVICE_PREFIX, PROVISIOND_SOCKET); (AUTH_SERVICE_PREFIX, PROVISIOND_SOCKET);
   (SECURITY_SERVICE_PREFIX, PROVISIOND_SOCKET); (VERSION_SERVICE_PREFIX, PROVISIOND_SOCKET)].
Definition serves (f : Fs) (path socket : ustring) : Prop :=
  ∃ prefix method, (prefix, socket) ∈ services ∧ path = prefix ++ method ∧
    (prefix = VM_SERVICE_PREFIX → exists_ f WORKLOADD_SOCKET = true).

Lemma starts_with_app p s : starts_with p s = true → ∃ m, s = p ++ m.
Proof. intros [m Hm%strip_prefix_Some]%bool_decide_eq_true. by exists m. Qed.
Ltac run_starts_with :=
  repeat match goal with
         | |- context [starts_with ?p (?q ++ ?m)] =>
             let b := eval vm_compute in (starts_with p (q ++ m)) in change (starts_with p (q ++ m)) with b
         end.
Lemma route_serves f path socket : route_request f path = Some socket ↔ serves f path socket.
Proof.
  split.
  - assert (∀ prefix sock, (prefix, sock) ∈ services → prefix ≠ VM_SERVICE_PREFIX → starts_with prefix path = true →
      Some sock = Some socket → serves f path socket) as Hs.
    { intros prefix sock Hin Hne [m ->]%starts_with_app [= <-]. by exists prefix, m. }
    unfold route_request. destruct (starts_with VM_SERVICE_PREFIX path) eqn:E.
    { destruct (exists_ f WORKLOADD_SOCKET) eqn:Hx; [|done]. intros [= <-]. apply starts_with_app in E as [m ->].
      exists VM_SERVICE_PREFIX, m. split_and!; [|done..]. apply list_elem_of_here. }
    pose proof (λ i, list_elem_of_lookup_2 services i) as Hi.
    destruct (starts_with PROCESS_SERVICE_PREFIX path) eqn:E1; [apply (Hs _ _ (Hi 1%nat _ eq_refl)); done|].
    destruct (starts_with LOG_SERVICE_PREFIX path) eqn:E2; [apply (Hs _ _ (Hi 2%nat _ eq_refl)); done|].
    destruct (starts_with PROVISION_SERVICE_PREFIX path) eqn:E3; [apply (Hs _ _ (Hi 3%nat _ eq_refl)); done|].
    destruct (starts_with AUTH_SERVICE_PREFIX path) eqn:E4; [apply (Hs _ _ (Hi 4%nat _ eq_refl)); done|].
    destruct (starts_with SECURITY_SERVICE_PREFIX path) eqn:E5; [apply (Hs _ _ (Hi 5%nat _ eq_refl)); done|].
    destruct (starts_with VERSION_SERVICE_PREFIX path) eqn:E6; [apply (Hs _ _ (Hi 6%nat _ eq_refl)); done|done].
  - unfold route_request. intros (prefix & m & Hin & -> & Hx). unfold services in Hin. rewrite !elem_of_cons, elem_of_nil in Hin.
    destruct Hin as [[= -> ->]|[[= -> ->]|[[= -> ->]|[[= -> ->]|[[= -> ->]|[[= -> ->]|[[= -> ->]|[]]]]]]]];
      run_starts_with; cbn [orb]; [|done..]. by rewrite Hx.
Qed.

Section gateway_proofs.
Context `{TomlState} (ms : list RpcMethod) {P R : Type} (fwd : P → ustring → (ustring + R) * P).

(** The part of the handler after the access check. *)
Definition routed (pool : P) (f : Fs) (path : ustring) (cache : option AuthCache)
    : Response R * option AuthCache * P :=
  match route_request f path with
  | None => (grpc_error 12 (ustr "Unknown service"), cache, pool)
  | Some socket =>
      let '(r, pool) := fwd pool socket in
      (match r with
       | inr r => Proxied r
       | inl e => grpc_error 14 (ustr "Backend unavailable: " ++ e)
       end, cache, pool)
  end.

Lemma check_access_fresh f c path fp :
  fresh (f, c) →
  ∃ c', fresh (f, c') ∧
    check_access ms f (Some c) path fp =
      match method_permission ms path with
      | Unauthenticated => (inr tt, Some c)
      | Unknown => (inl UnknownMethod, Some c)
      | RequiresPermission p | MaintenanceOrPermission p =>
          match fp with
          | None => (inl ErrUnauthenticated, Some c)
          | Some fp => (check_state (state_of f) fp p, Some c')
          end
      end.
Proof.
  intros Hf. destruct (fresh_look f c Hf) as (c' & E & Hf'). exists c'. split; [done|].
  unfold check_access, current. rewrite E. by destruct (method_permission ms path), fp.
Qed.

Lemma handle_cases f c path fp maint pool :
  fresh (f, c) →
  ∃ c', fresh (f, c') ∧
    ((allowed ms (state_of f) path fp maint ∧
      handle_request ms fwd pool f (Some c) path fp maint = routed pool f path (Some c')) ∨
     (¬ allowed ms (state_of f) path fp maint ∧
      ∃ e, refusal ms (state_of f) path fp e ∧ handle_request ms fwd pool f (Some c) path fp maint
        = (grpc_error (grpc_status_code e) (grpc_message e), Some c', pool))).
Proof.
  intros Hf. destruct (check_access_fresh f c path fp Hf) as (c' & Hf' & E).
  unfold handle_request, allowed, routed. rewrite E. clear E.
  assert (∀ p fpv, method_permission ms path = RequiresPermission p ∨ method_permission ms path = MaintenanceOrPermission p →
    (granted (state_of f) fpv p ∧ check_state (state_of f) fpv p = inr tt) ∨
    (¬ granted (state_of f) fpv p ∧
     ∃ e, refusal ms (state_of f) path (Some fpv) e ∧ check_state (state_of f) fpv p = inl e)) as Hcs.
  { intros p fpv Hp. rewrite <-check_state_granted.
    destruct (check_state_cases ms (state_of f) path fpv p Hp) as [->|(e & He & ->)]; [auto|right; eauto]. }
  unfold refusal in *. destruct (method_permission ms path) as [p|p| |]; unfold skip_rbac; cbn [is_unauthenticated orb].
  - rewrite andb_false_r. destruct fp as [fpv|].
    + exists c'. split; [done|]. destruct (Hcs p fpv) as [[Hg ->]|(Hg & e & He & ->)]; [auto|..].
      * left. split; [eauto|]. by rewrite bool_decide_eq_false_2, andb_false_r by done.
      * right. split; [by intros (? & [= <-] & ?)|eauto].
    + exists c. split; [done|]. right. split; [by intros (? & ? & ?)|]. by exists ErrUnauthenticated.
  - destruct maint; cbn [andb negb].
    + exists c. split; [done|]. left. auto.
    + destruct fp as [fpv|].
      * exists c'. split; [done|]. destruct (Hcs p fpv) as [[Hg ->]|(Hg & e & He & ->)]; [auto|..].
        -- left. split; [eauto|]. by rewrite bool_decide_eq_false_2.
        -- right. split; [by intros [?|(? & [= <-] & ?)]|eauto].
      * exists c. split; [done|]. right. split; [by intros [?|(? & ? & ?)]|]. by exists ErrUnauthenticated.
  - exists c. split; [done|]. left. split; [done|]. by rewrite andb_false_r.
  - exists c. split; [done|]. right. rewrite andb_false_r. split; [tauto|]. by exists UnknownMethod.
Qed.

(** What the client gets of a back end. *)
Definition answer (r : ustring + R) : Response R :=
  match r with inr r => Proxied r | inl e => grpc_error 14 (ustr "Backend unavailable: " ++ e) end.

(** C7: The handler of a process whose cache shows the state file. An allowed
    request goes to the back end that serves its path, and the client gets its
    answer; where no back end serves the path the answer is "Unknown service".
    A request that is not allowed is answered with the reason, and in both of
    these cases the proxy is not called. *)
Theorem forwarded_iff_allowed f c path fp maint pool :
  fresh (f, c) →
  ∃ c', fresh (f, c') ∧
    (allowed ms (state_of f) path fp maint →
     (∀ socket, serves f path socket →
        handle_request ms fwd pool f (Some c) path fp maint
          = (answer (fwd pool socket).1, Some c', (fwd pool socket).2)) ∧
     ((∀ socket, ¬ serves f path socket) →
        handle_request ms fwd pool f (Some c) path fp maint
          = (grpc_error 12 (ustr "Unknown service"), Some c', pool))) ∧
    (¬ allowed ms (state_of f) path fp maint →
     ∃ e, refusal ms (state_of f) path fp e ∧
       handle_request ms fwd pool f (Some c) path fp maint
         = (grpc_error (grpc_status_code e) (grpc_message e), Some c', pool)).
Proof.
  intros Hf. destruct (handle_cases f c path fp maint pool Hf) as (c' & Hf' & [[Ha E]|(Ha & e & He & E)]);
    exists c'; (split; [done|]); (split; [|by eauto]); [|done]. intros _. rewrite E. unfold routed. split.
  - intros socket Hs%route_serves. rewrite Hs. by destruct (fwd pool socket).
  - intros Hno. destruct (route_request f path) as [socket|] eqn:Hr; [|done]. apply route_serves in Hr.
    by destruct (Hno socket).
Qed.

(** The refusal of insecure access is never the answer: a request without a
    certificate has already been refused by the check. *)
Theorem insecure_refusal_dead f c path fp maint pool :
  fresh (f, c) →
  (handle_request ms fwd pool f (Some c) path fp maint).1.1 ≠
    grpc_error (grpc_status_code InsecureNotAllowed) (grpc_message InsecureNotAllowed).
Proof.
  intros Hf. destruct (handle_cases f c path fp maint pool Hf) as (c' & _ & [(_ & ->)|(_ & e & He & ->)]).
  - unfold routed. destruct (route_request f path) as [socket|]; [|done].
    destruct (fwd pool socket) as [[|] ?]; done.
  - cbn [fst]. intros E. unfold refusal in He.
    destruct (method_permission ms path), fp, e as [| | |[]| | |]; try done.
Qed.
End gateway_proofs.

(** ** Revocation reaches the gateway *)

Section revocation.
Context `{TomlStateLaws} `{Pki} `{ErrorText} (ms : list RpcMethod).
Context {P R : Type} (fwd : P → ustring → (ustring + R) * P).

(** C8: The enrollment service revokes a certificate in a second in which the file
    was not yet written: from the next request on, the gateway, which has a cache
    of its own, refuses the certificate for every method that needs one. *)
Theorem revoked_is_refused w c fp w' gc path pool :
  auth_cache w = Some c → fresh (fs w, c) → fresh (fs w, gc) → read_error (fs w) !! auth_parts = None →
  file_mtime (fs w) AUTH_PATH < clock (fs w) → revoke_cert fp w = (Ok tt, w') →
  method_permission ms path ≠ Unauthenticated →
  ∃ e gc', handle_request ms fwd pool (fs w') (Some gc) path (Some fp) false
    = (grpc_error (grpc_status_code e) (grpc_message e), Some gc', pool).
Proof.
  intros Hc Hf Hg Hr Ht E Hm. destruct (revoke_after w c fp w' Hc Hf Hr E) as [Hmt Hst].
  assert (fresh (fs w', gc)) as Hg'.
  { destruct Hg as [Hle _]. split; cbn [fst snd] in *; [lia|lia]. }
  destruct (handle_cases ms fwd (fs w') gc path (Some fp) false pool Hg') as (gc' & _ & [(Ha & _)|(_ & e & _ & He)]);
    [|by exists e, gc'].
  exfalso. assert (∀ p, ¬ granted (state_of (fs w')) fp p) as Hn.
  { intros p [Hin _]. apply Hin. rewrite Hst. cbn [revoked]. case_bool_decide; [done|]. set_solver. }
  unfold allowed in Ha. destruct (method_permission ms path); [|destruct Ha as [?|Ha]|..]; try done;
    destruct Ha as (? & [= <-] & Ha); by apply Hn in Ha.
Qed.
End revocation.

(** ** The pool reconnects *)

Section proxy_proofs.
Context {C Q R : Type}.
Context (is_ready : C → bool) (connect : ustring → ustring + C) (send_request : C → Q → ustring + R).

Lemma acquire_pool (pool : gmap ustring (option C)) (socket : ustring) (r : ustring + C) (pool' : gmap ustring (option C)) :
  acquire is_ready connect pool socket = (r, pool') →
  dom pool' = dom pool ∧ (∀ s, s ≠ socket → pool' !! s = pool !! s) ∧
  (∀ c, r = inr c → pool' !! socket = Some (Some c)).
Proof.
  unfold acquire. destruct (pool !! socket) as [entry|] eqn:E; [|by intros [= <- <-]].
  assert (∀ v, dom (<[socket := v]> pool) = dom pool) as Hd.
  { intros v. rewrite dom_insert_L. apply elem_of_dom_2 in E. set_solver. }
  assert (∀ v s, s ≠ socket → <[socket := v]> pool !! s = pool !! s) as Hn by (intros; by rewrite lookup_insert_ne).
  destruct entry as [c|]; [destruct (is_ready c)|]; [|destruct (connect socket) as [e|c']..];
    intros [= <- <-]; split_and!; intros; simplify_eq; auto; by rewrite lookup_insert_eq.
Qed.

(** The pool keeps its back ends, touches only the one a request goes to, and
    after a request that could not be sent the next one opens a connection. *)
Theorem forward_pool (req : Q) (pool : gmap ustring (option C)) (socket : ustring) (r : ustring + R)
    (pool' : gmap ustring (option C)) :
  forward is_ready connect send_request req pool socket = (r, pool') →
  dom pool' = dom pool ∧ (∀ s, s ≠ socket → pool' !! s = pool !! s) ∧
  (∀ c e, (acquire is_ready connect pool socket).1 = inr c → send_request c req = inl e →
     (acquire is_ready connect pool' socket).1 = connect socket).
Proof.
  unfold forward. destruct (acquire is_ready connect pool socket) as [[e|c] p1] eqn:Ea.
  { intros [= <- <-]. apply acquire_pool in Ea as (? & ? & _). split_and!; [done..|]. by intros c e' [=]. }
  apply acquire_pool in Ea as (Hd & Hs & Hc). specialize (Hc c eq_refl).
  destruct (send_request c req) as [e|r'] eqn:Es.
  2: { intros [= <- <-]. split_and!; [done..|]. intros c' e' [= <-] Es'. congruence. }
  intros [= <- <-]. unfold invalidate. rewrite Hc, bool_decide_eq_true_2 by done. split_and!.
  - rewrite dom_insert_L, <-Hd. apply elem_of_dom_2 in Hc. set_solver.
  - intros s Hne. rewrite lookup_insert_ne by done. auto.
  - intros _ _ _ _. unfold acquire. rewrite lookup_insert_eq. by destruct (connect socket).
Qed.
End proxy_proofs.

(** ** A protocol file and its requests *)

Module Demo.
#[local] Existing Instances Auth.Demo.demo_toml Auth.Demo.demo_toml_laws Auth.Demo.demo_pki Auth.Demo.demo_errors.

(** From api/auth.proto, and a maintenance method. *)
Definition proto : ustring :=
  ([ustr "package muak.auth.v1;"; []; ustr "service AuthService {";
    ustr "  // @rbac: none"; ustr "  rpc SubmitCsr(SubmitCsrRequest) returns (SubmitCsrResponse);"; [];
    ustr "  // @rbac: vm:read"; ustr "  rpc ListUsers(ListUsersRequest) returns (ListUsersResponse);";
    ustr "  // @rbac: maintenance|system:read"; ustr "  rpc Log(A) returns (B);"; ustr "}"]) ≫= (λ l, l ++ [LF]).
Definition path (name : string) : ustring := ustr "/muak.auth.v1.AuthService/" ++ ustr name.
Definition rules : list RpcMethod :=
  [{| full_path := path "SubmitCsr"; requirement := ReqUnauthenticated |};
   {| full_path := path "ListUsers"; requirement := ReqPermission (ustr "VmRead") |};
   {| full_path := path "Log"; requirement := ReqMaintenanceOr (ustr "SystemRead") |}].

Lemma parse_demo : parse_proto proto (ustr "auth.proto") = Ok rules.
Proof. vm_compute. reflexivity. Qed.
Lemma build_demo : build [(ustr "auth.proto", inr proto)] = Ok rules.
Proof. vm_compute. reflexivity. Qed.

Example missing_annotation :
  is_ok (parse_proto ([ustr "service S {"; ustr "  rpc M(A) returns (B);"; ustr "}"] ≫= (λ l, l ++ [LF])) []) = false.
Proof. vm_compute. reflexivity. Qed.

Lemma accepted_methods_annotated_witness :
  rpc_indices (lines proto) 0 = [4; 7; 9]%nat ∧
  Forall2 (declared (lines proto) (extract_package proto)) (rpc_indices (lines proto) 0) rules.
Proof.
  split; [vm_compute; reflexivity|].
  exact (accepted_methods_annotated proto (ustr "auth.proto") rules parse_demo).
Defined.

Lemma rules_are_annotations_witness :
  let p := path "ListUsers" in let files := [(ustr "auth.proto", inr proto)] in
  method_permission rules p = RequiresPermission VmRead ∧ rule files p (RequiresPermission VmRead) ∧
  ∀ r, rule files p r → method_permission rules p = r.
Proof.
  intros p files. assert (method_permission rules p = RequiresPermission VmRead) as E by (vm_compute; reflexivity).
  destruct (rules_are_annotations files rules p build_demo) as (_ & _ & Hr & Hu).
  split; [exact E|]. rewrite E in Hr, Hu |- *. split; [by apply Hr|]. apply Hu.
  apply (bool_decide_eq_true_1 _). vm_compute. reflexivity.
Defined.

Definition world : World := Auth.Demo.world.
Definition gateway_cache : AuthCache := Auth.Demo.cache0.
Definition echo (pool : unit) (socket : ustring) : (ustring + ustring) * unit := (inr socket, pool).

Lemma forwarded_iff_allowed_witness :
  (handle_request rules echo tt (fs world) (Some gateway_cache) (path "ListUsers") (Some (ustr "a")) false).1.1
    = Proxied PROVISIOND_SOCKET ∧
  (handle_request rules echo tt (fs world) (Some gateway_cache) (path "ListUsers") (Some (ustr "z")) false).1.1
    = grpc_error 7 (ustr "certificate not authorized") ∧
  serves (fs world) (path "ListUsers") PROVISIOND_SOCKET ∧
  ∃ c', fresh (fs world, c') ∧
    (allowed rules (state_of (fs world)) (path "ListUsers") (Some (ustr "a")) false →
     (∀ socket, serves (fs world) (path "ListUsers") socket →
        handle_request rules echo tt (fs world) (Some gateway_cache) (path "ListUsers") (Some (ustr "a")) false
          = (answer (echo tt socket).1, Some c', (echo tt socket).2)) ∧
     ((∀ socket, ¬ serves (fs world) (path "ListUsers") socket) →
        handle_request rules echo tt (fs world) (Some gateway_cache) (path "ListUsers") (Some (ustr "a")) false
          = (grpc_error 12 (ustr "Unknown service"), Some c', tt))) ∧
    (¬ allowed rules (state_of (fs world)) (path "ListUsers") (Some (ustr "a")) false →
     ∃ e, refusal rules (state_of (fs world)) (path "ListUsers") (Some (ustr "a")) e ∧
       handle_request rules echo tt (fs world) (Some gateway_cache) (path "ListUsers") (Some (ustr "a")) false
         = (grpc_error (grpc_status_code e) (grpc_message e), Some c', tt)).
Proof.
  split; [vm_compute; reflexivity|]. split; [vm_compute; reflexivity|].
  split; [apply route_serves; vm_compute; reflexivity|].
  exact (forwarded_iff_allowed rules echo (fs world) gateway_cache (path "ListUsers") (Some (ustr "a")) false tt
           Auth.Demo.world_fresh).
Defined.

Lemma revoked_is_refused_witness :
  (handle_request rules echo tt (fs world) (Some gateway_cache) (path "ListUsers") (Some (ustr "a")) false).1.1
    = Proxied PROVISIOND_SOCKET ∧
  ∃ e gc', handle_request rules echo tt (fs Auth.Demo.world1) (Some gateway_cache) (path "ListUsers")
             (Some (ustr "a")) false = (grpc_error (grpc_status_code e) (grpc_message e), Some gc', tt).
Proof.
  split; [vm_compute; reflexivity|].
  apply (revoked_is_refused rules echo world gateway_cache (ustr "a") Auth.Demo.world1 gateway_cache
           (path "ListUsers") tt eq_refl Auth.Demo.world_fresh Auth.Demo.world_fresh eq_refl).
  - vm_compute. reflexivity.
  - exact Auth.Demo.revoke1.
  - intros E. vm_compute in E. discriminate E.
Defined.
End Demo.
