(* ===== verification/VmHost.v ===== *)
(** The host of the virtual machines, as the workload daemon uses it
    (services/workloadd/src/hypervisor, disk/image.rs, libs/btrfs/src/subvolume.rs,
    libs/netlib/src/tap.rs and mac.rs).

    The state of the host has the file system, the raw disk images, the TAP
    devices and the running processes. Every other system call takes its outcome
    from the list [outcomes], so that a run may fail anywhere; when the list is
    empty calls succeed. *)

From stdpp Require Import gmap.
From S2P Require Import Prelude Io Utf Text Str Order FileSys LuksHeader.

(** ** State and calls *)

Record Process := { binary : ustring; argv : list ustring }.

Record Host := {
  fs : Fs;
  images : gmap ustring Z;
  taps : gset ustring;
  procs : gmap Z Process;
  signals : list (Z * Z);
  time : Z;
  outcomes : list (option ustring);
}.

Definition set_fs (h : Host) (f : Fs) : Host :=
  {| fs := f; images := images h; taps := taps h; procs := procs h; signals := signals h; time := time h;
     outcomes := outcomes h |}.
Definition set_images (h : Host) (m : gmap ustring Z) : Host :=
  {| fs := fs h; images := m; taps := taps h; procs := procs h; signals := signals h; time := time h;
     outcomes := outcomes h |}.
Definition set_taps (h : Host) (t : gset ustring) : Host :=
  {| fs := fs h; images := images h; taps := t; procs := procs h; signals := signals h; time := time h;
     outcomes := outcomes h |}.
Definition set_procs (h : Host) (p : gmap Z Process) : Host :=
  {| fs := fs h; images := images h; taps := taps h; procs := p; signals := signals h; time := time h;
     outcomes := outcomes h |}.
Definition add_signal (h : Host) (s : Z * Z) : Host :=
  {| fs := fs h; images := images h; taps := taps h; procs := procs h; signals := signals h ++ [s];
     time := time h; outcomes := outcomes h |}.
Definition set_outcomes (h : Host) (o : list (option ustring)) : Host :=
  {| fs := fs h; images := images h; taps := taps h; procs := procs h; signals := signals h; time := time h;
     outcomes := o |}.

(** Code that fails with a text and keeps what it changed. *)
Definition io (S A : Type) : Type := S → res ustring A * S.
#[global] Instance io_ret {S} : MRet (io S) := λ A a s, (Ok a, s).
#[global] Instance io_bind {S} : MBind (io S) := λ A B f m s,
  match m s with
  | (Ok a, s) => f a s
  | (Err e, s) => (Err e, s)
  | (Panic, s) => (Panic, s)
  end.
Definition bail {S A} (e : ustring) : io S A := λ s, (Err e, s).
Definition give {S A} (r : res ustring A) : io S A := λ s, (r, s).

(** A system call with its next outcome and its effect when it succeeds. *)
Definition call (effect : Host → Host) : io Host unit := λ h,
  match outcomes h with
  | Some e :: o => (Err e, set_outcomes h o)
  | None :: o => (Ok tt, effect (set_outcomes h o))
  | [] => (Ok tt, effect h)
  end.

(** ** Subvolumes (libs/btrfs/src/subvolume.rs) *)

Definition DATA_DIR : ustring := ustr "/run/data".
Definition data_parts : list ustring := [ustr "run"; ustr "data"].

(** [BTRFS_IOC_SUBVOL_CREATE] makes a directory and fails when there is one. *)
Definition create_subvolume (vm_id : ustring) : io Host unit := λ h,
  if exists_ (fs h) (path_join DATA_DIR vm_id) then (Err (ustr "File exists"), h)
  else call (λ h, set_fs h (set_dirs (fs h) ({[data_parts ++ [vm_id]]} ∪ dirs (fs h)))) h.

(** [BTRFS_IOC_SNAP_DESTROY] removes the directory and everything in it. *)
Definition below (d p : list ustring) : Prop := take (length d) p = d.
#[global] Instance below_dec d p : Decision (below d p).
Proof. unfold below. apply _. Defined.
Definition remove_tree (d : list ustring) (f : Fs) : Fs :=
  {| files := filter (λ '(p, _), ¬ below d p) (files f);
     dirs := filter (λ p, ¬ below d p) (dirs f);
     clock := clock f; read_error := read_error f; write_error := write_error f |}.
Definition delete_subvolume (vm_id : ustring) : io Host unit := λ h,
  if exists_ (fs h) (path_join DATA_DIR vm_id)
  then call (λ h, set_images (set_fs h (remove_tree (data_parts ++ [vm_id]) (fs h))) (delete vm_id (images h))) h
  else (Ok tt, h).

(** The directories in the data directory whose names do not start with a dot. *)
Definition child_of (d p : list ustring) : option ustring :=
  match last p with
  | Some name => if bool_decide (p = d ++ [name]) then Some name else None
  | None => None
  end.
Definition list_subvolumes (h : Host) : list ustring :=
  filter (λ n, head n ≠ Some DOT) (omap (child_of data_parts) (elements (dirs (fs h)))).

(** [btrfs::quota::set] *)
Definition set_quota (vm_id : ustring) (size_bytes : Z) : io Host unit := call id.

(** ** Disk images (disk/image.rs) *)

Definition get_path (vm_id : ustring) : ustring := path_join (path_join DATA_DIR vm_id) (ustr "disk.raw").

(** One byte at the last offset. *)
Definition sparse_length (size_bytes : Z) : Z := saturating_sub size_bytes 1 + 1.
Definition create_raw (vm_id : ustring) (size_bytes : Z) : io Host ustring :=
  _ ← call (λ h, set_images h (<[vm_id := 0]> (images h)));
  _ ← call (λ h, set_images h (<[vm_id := sparse_length size_bytes]> (images h)));
  mret (get_path vm_id).

(** ** TAP devices (libs/netlib/src/tap.rs, mac.rs) *)

(** Interface names hold fifteen bytes. *)
Definition ifreq_name (tap_name : ustring) : list Z := take 15 (utf8 tap_name).

(** Creates the device, looks it up, brings it up, looks the bridge up and
    attaches the device to it; the device stays when a later step fails. *)
Definition setup_on_bridge (tap_name bridge_name : ustring) : io Host unit :=
  _ ← call (λ h, set_taps h ({[tap_name]} ∪ taps h));
  _ ← call id;
  _ ← call id;
  _ ← call id;
  call id.

(** A device that is not there is not an error. *)
Definition remove_tap_device (tap_name : ustring) : io Host unit := λ h,
  if bool_decide (tap_name ∈ taps h) then call (λ h, set_taps h (taps h ∖ {[tap_name]})) h else (Ok tt, h).

Definition generate_mac `{Sha256} (id : ustring) : list Z :=
  match take 6 (sha256 (utf8 id)) with
  | b :: rest => Z.lor (Z.land b 0xfe) 0x02 :: rest
  | [] => []
  end.
Definition hex_digit (d : Z) : Z := if d <? 10 then 48 + d else 87 + d.
Definition hex2 (b : Z) : ustring := [hex_digit (b / 16); hex_digit (b mod 16)].
Fixpoint format_mac (mac : list Z) : ustring :=
  match mac with
  | [] => []
  | [b] => hex2 b
  | b :: mac => hex2 b ++ [58] ++ format_mac mac
  end.

(** ** Hypervisors (hypervisor/) *)

Inductive HypervisorType := HvUnspecified | HvFirecracker | HvCloudHypervisor | HvQemu.
Definition hypervisor_try_from (z : Z) : option HypervisorType :=
  if z =? 0 then Some HvUnspecified else if z =? 1 then Some HvFirecracker
  else if z =? 2 then Some HvCloudHypervisor else if z =? 3 then Some HvQemu else None.

Record DiskConfig := { disk_path : ustring; readonly : bool }.
Record VmStartConfig := {
  start_id : ustring; cpus : Z; memory_mb : Z; kernel : ustring; initrd : option ustring; cmdline : ustring;
  disks : list DiskConfig; tap_name : ustring; mac_address : ustring; serial_log_path : ustring;
  persistent_disk : option ustring;
}.

Inductive HypervisorImpl := Firecracker | CloudHypervisor | Qemu.
Definition create_hypervisor (t : HypervisorType) : HypervisorImpl :=
  match t with
  | HvFirecracker => Firecracker
  | HvCloudHypervisor => CloudHypervisor
  | HvQemu | HvUnspecified => Qemu
  end.

Definition readonly_flag (r : bool) : ustring := if r then ustr ",readonly=on" else [].

(** The architecture the daemon is built for. *)
Inductive Arch := X86_64 | Aarch64.
Definition qemu_binary_path (a : Arch) : ustring :=
  match a with Aarch64 => ustr "/usr/bin/qemu-system-aarch64" | X86_64 => ustr "/usr/bin/qemu-system-x86_64" end.

Definition qemu_drive (i : nat) (path : ustring) (flag : ustring) : list ustring :=
  let id := decimal (Z.of_nat i) in
  [ustr "-drive"; ustr "file=" ++ path ++ ustr ",format=raw,if=none,id=disk" ++ id ++ flag;
   ustr "-device"; ustr "virtio-blk-pci,drive=disk" ++ id].

Definition qemu_args (a : Arch) (c : VmStartConfig) : list ustring :=
  [ustr "-enable-kvm"; ustr "-cpu"; ustr "host"; ustr "-m"; decimal (memory_mb c) ++ ustr "M";
   ustr "-smp"; decimal (cpus c); ustr "-kernel"; kernel c; ustr "-append"; cmdline c; ustr "-nographic";
   ustr "-serial"; ustr "file:" ++ serial_log_path c]
  ++ match a with Aarch64 => [ustr "-machine"; ustr "virt,gic-version=3"] | X86_64 => [] end
  ++ match initrd c with Some p => [ustr "-initrd"; p] | None => [] end
  ++ [ustr "-netdev"; ustr "tap,id=net0,ifname=" ++ tap_name c ++ ustr ",script=no,downscript=no";
      ustr "-device"; ustr "virtio-net-pci,netdev=net0,mac=" ++ mac_address c]
  ++ concat (imap (λ i d, qemu_drive i (disk_path d) (readonly_flag (readonly d))) (disks c))
  ++ match persistent_disk c with Some p => qemu_drive (length (disks c)) p [] | None => [] end
  ++ [ustr "-no-reboot"].

Definition CLOUD_HYPERVISOR : ustring := ustr "/usr/bin/cloud-hypervisor".
Definition cloud_disk (path flag : ustring) : list ustring :=
  [ustr "--disk"; ustr "path=" ++ path ++ ustr ",image_type=raw" ++ flag].
Definition cloud_args (c : VmStartConfig) : list ustring :=
  [ustr "--kernel"; kernel c; ustr "--cmdline"; cmdline c; ustr "--cpus"; ustr "boot=" ++ decimal (cpus c);
   ustr "--memory"; ustr "size=" ++ decimal (memory_mb c) ++ ustr "M";
   ustr "--serial"; ustr "file=" ++ serial_log_path c; ustr "--console"; ustr "off"]
  ++ match initrd c with Some p => [ustr "--initramfs"; p] | None => [] end
  ++ [ustr "--net"; ustr "tap=" ++ tap_name c ++ ustr ",mac=" ++ mac_address c]
  ++ (disks c ≫= λ d, cloud_disk (disk_path d) (readonly_flag (readonly d)))
  ++ match persistent_disk c with Some p => cloud_disk p [] | None => [] end.

(** A file, a directory or a disk image. *)
Definition path_exists (h : Host) (p : ustring) : bool :=
  exists_ (fs h) p || existsb (λ id, bool_decide (get_path id = p)) (elements (dom (images h))).

(** [Path::parent] of a path with a directory part. *)
Definition parent (p : ustring) : option ustring := fst <$> rsplit_once SLASH p.

Definition cloud_check (h : Host) (c : VmStartConfig) : option ustring :=
  if negb (path_exists h CLOUD_HYPERVISOR) then Some (ustr "cloud-hypervisor binary not found at " ++ CLOUD_HYPERVISOR)
  else if negb (path_exists h (kernel c)) then Some (ustr "Kernel not found at " ++ kernel c)
  else match initrd c with
  | Some p => if negb (path_exists h p) then Some (ustr "Initrd not found at " ++ p) else None
  | None => None
  end ∪ match parent (serial_log_path c) with
  | Some p => if negb (path_exists h p) then Some (ustr "Serial log directory not found: " ++ p) else None
  | None => None
  end ∪ match list_find (λ d, path_exists h (disk_path d) = false) (disks c) with
  | Some (_, d) => Some (ustr "Disk not found at " ++ disk_path d)
  | None => None
  end ∪ match persistent_disk c with
  | Some p => if negb (path_exists h p) then Some (ustr "Persistent disk not found at " ++ p) else None
  | None => None
  end.

(** The configuration file of Firecracker, and its text. *)
Inductive Json :=
| JNull | JBool (b : bool) | JNum (z : Z) | JStr (s : ustring) | JArr (l : list Json)
| JObj (m : list (ustring * Json)).
Class JsonText := to_string_pretty : Json → res ustring ustring.

Definition drive (id path : ustring) (is_root is_read_only : bool) : Json :=
  JObj [(ustr "drive_id", JStr id); (ustr "path_on_host", JStr path); (ustr "is_root_device", JBool is_root);
        (ustr "is_read_only", JBool is_read_only)].
Definition firecracker_config (c : VmStartConfig) : Json :=
  JObj
    [(ustr "boot-source",
      JObj [(ustr "kernel_image_path", JStr (kernel c)); (ustr "boot_args", JStr (cmdline c));
            (ustr "initrd_path", match initrd c with Some p => JStr p | None => JNull end)]);
     (ustr "machine-config",
      JObj [(ustr "vcpu_count", JNum (cpus c)); (ustr "mem_size_mib", JNum (memory_mb c))]);
     (ustr "network-interfaces",
      JArr [JObj [(ustr "iface_id", JStr (ustr "eth0")); (ustr "guest_mac", JStr (mac_address c));
                  (ustr "host_dev_name", JStr (tap_name c))]]);
     (ustr "drives",
      JArr (imap (λ i d, drive (ustr "disk" ++ decimal (Z.of_nat i)) (disk_path d) (i =? 0)%nat (readonly d))
              (disks c)
            ++ match persistent_disk c with
               | Some p => [drive (ustr "persistent") p false false]
               | None => []
               end))].

(** A file operation whose error becomes a text. *)
Class IoText := io_text : io_error → ustring.
Definition file_op `{IoText} (f : Fs → res io_error unit * Fs) : io Host unit := λ h,
  let '(r, f') := f (fs h) in (map_err io_text r, set_fs h f').

(** A child process gets an identifier that is not in use. *)
Definition new_pid (h : Host) : Z := 1 + set_fold Z.max 0 (dom (procs h)).
Definition spawn (p : Process) : io Host Z := λ h,
  let pid := new_pid h in
  let '(r, h) := call (λ h, set_procs h (<[pid := p]> (procs h))) h in
  (match r with Ok _ => Ok pid | Err e => Err e | Panic => Panic end, h).

Section drivers.
Context `{IoText} `{JsonText} (arch : Arch).

Definition firecracker_start (c : VmStartConfig) : io Host Z :=
  let dir := ustr "/run/workloadd/" ++ start_id c in
  let config_path := dir ++ ustr "/config.json" in
  _ ← file_op (λ f, create_dir_all f dir);
  text ← give (to_string_pretty (firecracker_config c));
  _ ← file_op (λ f, write_file f config_path (utf8 text));
  spawn {| binary := ustr "/usr/bin/firecracker";
           argv := [ustr "--config-file"; config_path; ustr "--log-path"; serial_log_path c] |}.

Definition cloud_start (c : VmStartConfig) : io Host Z := λ h,
  match cloud_check h c with
  | Some e => (Err e, h)
  | None =>
      let '(r, h) := spawn {| binary := CLOUD_HYPERVISOR; argv := cloud_args c |} h in
      (map_err (λ e, ustr "Failed to spawn cloud-hypervisor: " ++ e ++ ustr " (binary: " ++ CLOUD_HYPERVISOR
                     ++ ustr ", kernel: " ++ kernel c ++ ustr ")") r, h)
  end.

Definition hypervisor_start (hv : HypervisorImpl) (c : VmStartConfig) : io Host Z :=
  match hv with
  | Firecracker => firecracker_start c
  | CloudHypervisor => cloud_start c
  | Qemu => spawn {| binary := qemu_binary_path arch; argv := qemu_args arch c |}
  end.

Definition SIGTERM : Z := 15.
Definition SIGKILL : Z := 9.

(** The three drivers stop a process in the same way; a process that is gone
    cannot be signalled. *)
Definition hypervisor_stop (hv : HypervisorImpl) (pid : Z) (force : bool) : io Host unit := λ h,
  if bool_decide (0 < pid < 2 ^ 31) then
    if bool_decide (is_Some (procs h !! pid))
    then call (λ h, add_signal h (pid, if force then SIGKILL else SIGTERM)) h
    else (Err (ustr "No such process"), h)
  else (Err (ustr "Invalid PID"), h).
End drivers.
