(* ===== verification/VmActor.v ===== *)
(** The actor that owns the virtual machines
    (services/workloadd/src/actor/state.rs, persistence/state.rs, ipc/mod.rs):
    the state files, every command, and the recovery of a restarted daemon.

    A command changes the entry of a machine in place and keeps what it changed
    when a later call fails. The JSON codec of a state file is a class. *)

From stdpp Require Import gmap.
From S2P Require Import Prelude Io Utf Text Str Order FileSys LuksHeader VmHost.

(** ** Records *)

Inductive VmState := StUnspecified | StCreated | StStarting | StRunning | StStopping | StStopped | StFailed.
#[global] Instance VmState_dec : EqDecision VmState.
Proof. solve_decision. Defined.
Definition state_code (s : VmState) : Z :=
  match s with
  | StUnspecified => 0 | StCreated => 1 | StStarting => 2 | StRunning => 3 | StStopping => 4 | StStopped => 5
  | StFailed => 6
  end.
Definition state_try_from (z : Z) : option VmState :=
  snd <$> list_find (λ s, state_code s = z)
    [StUnspecified; StCreated; StStarting; StRunning; StStopping; StStopped; StFailed].

Record VmConfig := {
  name : ustring; vm_cpus : Z; vm_memory_mb : Z; vm_kernel : ustring; vm_initrd : ustring; vm_cmdline : ustring;
  vm_disks : list DiskConfig; hypervisor : Z; root_disk_size_mb : Z;
}.

Record TapDevice := { tap_dev : ustring; tap_mac : ustring }.

Record VmEntry := {
  config : VmConfig; state : VmState; pid : option Z; tap_device : option TapDevice; created_at : Z;
  started_at : option Z;
}.

(** [DiskConfigPersisted] has the fields of a disk configuration. *)
Record VmPersisted := {
  p_config : VmConfig; p_state : Z; p_created_at : Z; p_started_at : option Z; p_tap : option ustring;
  p_mac : option ustring;
}.

Definition to_persisted (e : VmEntry) : VmPersisted :=
  {| p_config := config e; p_state := state_code (state e); p_created_at := created_at e;
     p_started_at := started_at e; p_tap := tap_dev <$> tap_device e; p_mac := tap_mac <$> tap_device e |}.

Definition from_persisted (p : VmPersisted) : VmEntry :=
  {| config := p_config p; state := default StStopped (state_try_from (p_state p)); pid := None;
     tap_device := match p_tap p, p_mac p with
                   | Some n, Some m => Some {| tap_dev := n; tap_mac := m |}
                   | _, _ => None
                   end;
     created_at := p_created_at p; started_at := p_started_at p |}.

Record DiskUsage := { used_bytes : Z; quota_bytes : Z; usage_percent : Z }.
Record VmInfo := {
  info_id : ustring; info_name : ustring; info_state : Z; info_config : VmConfig; info_pid : Z;
  info_created_at : Z; info_started_at : Z; info_tap : ustring; info_mac : ustring; disk_usage : option DiskUsage;
}.

(** ** State files (persistence/state.rs) *)

Definition VMS_DIR : ustring := ustr "/run/state/workloadd/vms".
Definition vms_parts : list ustring := [ustr "run"; ustr "state"; ustr "workloadd"; ustr "vms"].

Class VmJson := {
  vm_to_json : VmPersisted → res ustring ustring;
  vm_from_json : ustring → res ustring VmPersisted;
}.
Class VmJsonLaws `{VmJson} : Prop := {
  vm_to_json_total p : ∃ s, vm_to_json p = Ok s ∧ is_ustring s ∧ vm_from_json s = Ok p;
}.

Definition state_file (vm_id : ustring) : ustring := path_join VMS_DIR (vm_id ++ ustr ".json").

(** [Path::extension] and [Path::file_stem] of a file name. *)
Definition split_name (n : ustring) : ustring * option ustring :=
  match rsplit_once DOT n with
  | Some (stem, ext) => if bool_decide (stem = []) then (n, None) else (stem, Some ext)
  | None => (n, None)
  end.

Section persistence.
Context `{VmJson} `{IoText}.

Definition load_vm_from_path (f : Fs) (path : ustring) : res ustring VmPersisted :=
  text ← map_err io_text (read_to_string f path);
  vm_from_json text.

(** One entry of the directory: other extensions and files that do not load are
    passed over. *)
Definition load_entry (f : Fs) (n : ustring) : option (ustring * VmPersisted) :=
  let '(stem, ext) := split_name n in
  if bool_decide (ext = Some (ustr "json"))
  then match load_vm_from_path f (path_join VMS_DIR n) with Ok vm => Some (stem, vm) | _ => None end
  else None.

Definition dir_files (f : Fs) (d : list ustring) : list ustring :=
  omap (child_of d) ((map_to_list (files f)).*1).

Definition load_vms (f : Fs) : gmap ustring VmPersisted :=
  if exists_ f VMS_DIR then list_to_map (omap (load_entry f) (dir_files f vms_parts)) else ∅.

Definition save_vm (vm_id : ustring) (vm : VmPersisted) : io Host unit :=
  json ← give (vm_to_json vm);
  file_op (λ f, write_file f (state_file vm_id) (utf8 json)).

Definition delete_vm (vm_id : ustring) : io Host unit := λ h,
  if exists_ (fs h) (state_file vm_id) then file_op (λ f, remove_file f (state_file vm_id)) h else (Ok tt, h).
End persistence.

(** ** The actor *)

Record VmActor := {
  vms : gmap ustring VmEntry; pending_restarts : list ustring; kvm_available : bool; bridge_name : ustring;
}.
Record World := { actor : VmActor; host : Host }.

Definition set_vms (w : World) (m : gmap ustring VmEntry) : World :=
  {| actor := {| vms := m; pending_restarts := pending_restarts (actor w); kvm_available := kvm_available (actor w);
                 bridge_name := bridge_name (actor w) |}; host := host w |}.
Definition set_pending (w : World) (l : list ustring) : World :=
  {| actor := {| vms := vms (actor w); pending_restarts := l; kvm_available := kvm_available (actor w);
                 bridge_name := bridge_name (actor w) |}; host := host w |}.
Definition set_host (w : World) (h : Host) : World := {| actor := actor w; host := h |}.

(** A call to the host, one whose failure is only logged, and a change of the
    entry of a machine. *)
Definition on_host {A} (m : io Host A) : io World A := λ w, let '(r, h) := m (host w) in (r, set_host w h).
Definition logged (m : io Host unit) : io World unit := λ w,
  let '(r, h) := m (host w) in (match r with Panic => Panic | _ => Ok tt end, set_host w h).
Definition gets {A} (f : World → A) : io World A := λ w, (Ok (f w), w).
Definition modify (f : gmap ustring VmEntry → gmap ustring VmEntry) : io World unit := λ w,
  (Ok tt, set_vms w (f (vms (actor w)))).
Definition update (vm_id : ustring) (f : VmEntry → VmEntry) : io World unit := modify (alter f vm_id).
Definition get_entry (vm_id : ustring) : io World VmEntry := λ w,
  (ok_or (vms (actor w) !! vm_id) (ustr "VM not found: " ++ vm_id), w).

Definition with_state (s : VmState) (e : VmEntry) : VmEntry :=
  {| config := config e; state := s; pid := pid e; tap_device := tap_device e; created_at := created_at e;
     started_at := started_at e |}.
Definition with_tap (t : option TapDevice) (e : VmEntry) : VmEntry :=
  {| config := config e; state := state e; pid := pid e; tap_device := t; created_at := created_at e;
     started_at := started_at e |}.
Definition running (p now : Z) (e : VmEntry) : VmEntry :=
  {| config := config e; state := StRunning; pid := Some p; tap_device := tap_device e; created_at := created_at e;
     started_at := Some now |}.
Definition stopped (e : VmEntry) : VmEntry :=
  {| config := config e; state := StStopped; pid := None; tap_device := None; created_at := created_at e;
     started_at := started_at e |}.

Section actor.
Context `{VmJson} `{IoText} `{JsonText} `{Sha256} (arch : Arch).
(** [get_usage] of a subvolume. *)
Context (usage : Host → ustring → option DiskUsage).

Definition DEFAULT_DISK_SIZE_MB : Z := 1024.

Definition to_info (h : Host) (vm_id : ustring) (e : VmEntry) : VmInfo :=
  {| info_id := vm_id; info_name := name (config e); info_state := state_code (state e); info_config := config e;
     info_pid := match pid e with Some p => if p <? 2 ^ 31 then p else 0 | None => 0 end;
     info_created_at := created_at e; info_started_at := default 0 (started_at e);
     info_tap := match tap_device e with Some t => tap_dev t | None => [] end;
     info_mac := match tap_device e with Some t => tap_mac t | None => [] end;
     disk_usage := usage h vm_id |}.

(** The state as it is now, written to the file. *)
Definition save (vm_id : ustring) : io World unit :=
  e ← get_entry vm_id;
  on_host (save_vm vm_id (to_persisted e)).

Definition sized (c : VmConfig) : VmConfig :=
  if root_disk_size_mb c =? 0 then
    {| name := name c; vm_cpus := vm_cpus c; vm_memory_mb := vm_memory_mb c; vm_kernel := vm_kernel c;
       vm_initrd := vm_initrd c; vm_cmdline := vm_cmdline c; vm_disks := vm_disks c; hypervisor := hypervisor c;
       root_disk_size_mb := DEFAULT_DISK_SIZE_MB |}
  else c.

(** [vm_id] is the identifier from [Uuid::new_v4]. *)
Definition handle_create (vm_id : ustring) (c : VmConfig) : io World ustring :=
  let size_bytes := saturating_mul 64 (root_disk_size_mb (sized c)) (1024 * 1024) in
  _ ← on_host (create_subvolume vm_id);
  _ ← on_host (set_quota vm_id size_bytes);
  _ ← on_host (create_raw vm_id size_bytes);
  now ← gets (λ w, time (host w));
  let e := {| config := sized c; state := StCreated; pid := None; tap_device := None; created_at := now;
              started_at := None |} in
  _ ← on_host (save_vm vm_id (to_persisted e));
  _ ← modify (<[vm_id := e]>);
  mret vm_id.

Definition tap_name_of (vm_id : ustring) : ustring :=
  ustr "tap-" ++ default [] (str_get vm_id 0 (Z.min 8 (blen vm_id))).
Definition tap_of (vm_id : ustring) : TapDevice :=
  {| tap_dev := tap_name_of vm_id; tap_mac := format_mac (generate_mac vm_id) |}.

Definition resolve_boot_asset (dir convention_name : ustring) : io World ustring := λ w,
  let path := path_join dir convention_name in
  if path_exists (host w) path then (Ok path, w)
  else (Err (convention_name ++ ustr " not found: " ++ path), w).

Fixpoint resolve_disks (dir : ustring) (i : nat) (ds : list DiskConfig) : io World (list DiskConfig) :=
  match ds with
  | [] => mret []
  | d :: ds =>
      path ← resolve_boot_asset dir (ustr "disk" ++ decimal (Z.of_nat i));
      rest ← resolve_disks dir (S i) ds;
      mret ({| disk_path := path; readonly := readonly d |} :: rest)
  end.

Definition remove_tap (tap : ustring) : io World unit := logged (remove_tap_device tap).
Definition cleanup_tap_on_err (tap : option ustring) : io World unit :=
  match tap with Some t => remove_tap t | None => mret tt end.

(** [hypervisor.start] gives its result as a value. *)
Definition attempt {A} (m : io Host A) : io World (res ustring A) := λ w,
  let '(r, h) := m (host w) in (match r with Panic => Panic | _ => Ok r end, set_host w h).

Definition handle_start (vm_id : ustring) : io World unit :=
  kvm ← gets (λ w, kvm_available (actor w));
  match kvm with
  | false => bail (ustr "KVM is not available: /dev/kvm is missing or inaccessible, cannot start VMs")
  | true =>
      e ← get_entry vm_id;
      if bool_decide (state e = StRunning) then bail (ustr "VM is already running")
      else
        _ ← update vm_id (with_state StStarting);
        bridge ← gets (λ w, bridge_name (actor w));
        _ ← on_host (setup_on_bridge (tap_name_of vm_id) bridge);
        let tap := tap_of vm_id in
        _ ← update vm_id (with_tap (Some tap));
        let hv := create_hypervisor (default HvQemu (hypervisor_try_from (hypervisor (config e)))) in
        let dir := path_join DATA_DIR vm_id in
        kernel_path ← resolve_boot_asset dir (ustr "kernel");
        initrd_path ← gets (λ w, match (resolve_boot_asset dir (ustr "initrd") w).1 with
                                 | Ok p => Some p
                                 | _ => None
                                 end);
        ds ← resolve_disks dir 0 (vm_disks (config e));
        let start_config :=
          {| start_id := vm_id; cpus := vm_cpus (config e); memory_mb := vm_memory_mb (config e);
             kernel := kernel_path; initrd := initrd_path; cmdline := vm_cmdline (config e); disks := ds;
             tap_name := tap_dev tap; mac_address := tap_mac tap;
             serial_log_path := path_join dir (ustr "serial.log"); persistent_disk := Some (get_path vm_id) |} in
        r ← attempt (hypervisor_start arch hv start_config);
        match r with
        | Ok p =>
            now ← gets (λ w, time (host w));
            _ ← update vm_id (running p now);
            save vm_id
        | Err err =>
            _ ← update vm_id (λ e, with_state StCreated (with_tap None e));
            _ ← save vm_id;
            _ ← cleanup_tap_on_err (Some (tap_dev tap));
            bail err
        | Panic => give Panic
        end
  end.

Definition handle_stop (vm_id : ustring) (force : bool) : io World unit :=
  e ← get_entry vm_id;
  if negb (bool_decide (state e = StRunning)) then bail (ustr "VM is not running")
  else
    _ ← update vm_id (with_state StStopping);
    _ ← match pid e with
        | Some p =>
            on_host (hypervisor_stop (create_hypervisor (default HvQemu (hypervisor_try_from (hypervisor (config e)))))
                       p force)
        | None => mret tt
        end;
    _ ← update vm_id stopped;
    _ ← save vm_id;
    match tap_device e with Some t => remove_tap (tap_dev t) | None => mret tt end.

Definition handle_delete (vm_id : ustring) : io World unit :=
  e ← get_entry vm_id;
  if bool_decide (state e = StRunning) then bail (ustr "Cannot delete running VM")
  else
    _ ← logged (delete_subvolume vm_id);
    _ ← logged (delete_vm vm_id);
    modify (delete vm_id).

Definition handle_get (vm_id : ustring) : io World VmInfo :=
  e ← get_entry vm_id;
  gets (λ w, to_info (host w) vm_id e).

(** In the order in which the map yields its entries. *)
Definition handle_list : io World (list VmInfo) :=
  gets (λ w, (λ '(vm_id, e), to_info (host w) vm_id e) <$> map_to_list (vms (actor w))).

Definition safe_char (c : Z) : Z := if bool_decide (c = SLASH ∨ c = 92 ∨ c = 0) then 95 else c.

Definition handle_upload_file (filename : ustring) (data : list Z) (vm_id : option ustring) : io World ustring :=
  match vm_id with
  | None => bail (ustr "vm_id is required for file uploads")
  | Some vm_id =>
      let vm_dir := path_join DATA_DIR vm_id in
      present ← gets (λ w, exists_ (fs (host w)) vm_dir);
      match present with
      | false => bail (ustr "VM directory not found: " ++ vm_id ++ ustr ". Create the VM first.")
      | true =>
          let path := path_join vm_dir (safe_char <$> filename) in
          _ ← on_host (file_op (λ f, write_file f path data));
          mret path
      end
  end.

(** The last lines of a text, joined with line feeds. *)
Fixpoint join_lines (ls : list ustring) : ustring :=
  match ls with
  | [] => []
  | [l] => l
  | l :: ls => l ++ [LF] ++ join_lines ls
  end.
Definition handle_get_serial_log (vm_id : ustring) (tail_lines : Z) : io World ustring :=
  _ ← get_entry vm_id;
  let log_path := path_join (path_join DATA_DIR vm_id) (ustr "serial.log") in
  present ← gets (λ w, exists_ (fs (host w)) log_path);
  match present with
  | false => mret []
  | true =>
      read ← gets (λ w, map_err io_text (read_to_string (fs (host w)) log_path));
      content ← give read;
      if 0 <? tail_lines then
        let ls := lines content in
        mret (join_lines (drop (length ls - Z.to_nat tail_lines) ls))
      else mret content
  end.

(** ** Commands *)

Inductive VmCommand :=
| Create (vm_id : ustring) (c : VmConfig)
| Start (vm_id : ustring)
| Stop (vm_id : ustring) (force : bool)
| Delete (vm_id : ustring)
| Get (vm_id : ustring)
| List
| UploadFile (filename : ustring) (data : list Z) (vm_id : option ustring)
| GetSerialLog (vm_id : ustring) (tail_lines : Z).

Inductive Reply :=
| RId (r : res ustring ustring) | RUnit (r : res ustring unit) | RInfo (r : res ustring VmInfo)
| RList (r : res ustring (list VmInfo)) | RText (r : res ustring ustring).

Definition reply {A} (f : res ustring A → Reply) (m : io World A) (w : World) : Reply * World :=
  let '(r, w) := m w in (f r, w).

Definition dispatch (cmd : VmCommand) : World → Reply * World :=
  match cmd with
  | Create vm_id c => reply RId (handle_create vm_id c)
  | Start vm_id => reply RUnit (handle_start vm_id)
  | Stop vm_id force => reply RUnit (handle_stop vm_id force)
  | Delete vm_id => reply RUnit (handle_delete vm_id)
  | Get vm_id => reply RInfo (handle_get vm_id)
  | List => reply RList handle_list
  | UploadFile filename data vm_id => reply RText (handle_upload_file filename data vm_id)
  | GetSerialLog vm_id n => reply RText (handle_get_serial_log vm_id n)
  end.

(** ** Start of the daemon *)

Definition reset_if_running (e : VmEntry) (was_running : bool) (vm_id : ustring) (auto_restart : bool)
    (pending : list ustring) : VmEntry * list ustring :=
  if was_running
  then (with_tap None (with_state StStopped e), if auto_restart then pending ++ [vm_id] else pending)
  else (e, pending).

Definition sorted_by_id (m : gmap ustring VmPersisted) : list (ustring * VmPersisted) :=
  stable_sort (λ a b, lex_leb (utf8 a.1) (utf8 b.1)) (map_to_list m).

Definition load_persisted_state (f : Fs) (auto_restart : bool) : gmap ustring VmEntry * list ustring :=
  foldl (λ '(m, pending) '(vm_id, p),
           let was_running := bool_decide (state_try_from (p_state p) = Some StRunning) in
           let '(e, pending) := reset_if_running (from_persisted p) was_running vm_id auto_restart pending in
           (<[vm_id := e]> m, pending))
        (∅, []) (sorted_by_id (load_vms f)).

Fixpoint delete_all (ids : list ustring) (h : Host) : Host :=
  match ids with
  | [] => h
  | vm_id :: ids => delete_all ids (delete_subvolume vm_id h).2
  end.
Definition cleanup_orphaned_disks (m : gmap ustring VmEntry) (h : Host) : Host :=
  delete_all (filter (λ vm_id, m !! vm_id = None) (list_subvolumes h)) h.

Definition new (h : Host) (bridge : ustring) (kvm auto_restart : bool) : World :=
  let '(m, pending) := load_persisted_state (fs h) auto_restart in
  {| actor := {| vms := m; pending_restarts := pending; kvm_available := kvm; bridge_name := bridge |};
     host := cleanup_orphaned_disks m h |}.

Fixpoint restart_all (ids : list ustring) (w : World) : World :=
  match ids with
  | [] => w
  | vm_id :: ids => restart_all ids (handle_start vm_id w).2
  end.
Definition process_pending_restarts (w : World) : World :=
  restart_all (pending_restarts (actor w)) (set_pending w []).
End actor.
