(* ===== verification/VmInv.v ===== *)
(** What the workload daemon keeps: every command leaves each machine with a state
    file that matches its entry, touches no other machine, and a restarted daemon
    finds the machines again. *)

From stdpp Require Import gmap.
From S2P Require Import Prelude Io Utf Text Str Order FileSys LuksHeader SysConfig VmHost VmActor.

(** ** Paths of the state files *)

(** What [Uuid::to_string] writes. *)
Definition is_uuid (vm_id : ustring) : Prop :=
  length vm_id = 36%nat ∧ Forall (λ c, 48 ≤ c ≤ 57 ∨ 97 ≤ c ≤ 102 ∨ c = 45) vm_id.

Definition json_name (vm_id : ustring) : ustring := vm_id ++ ustr ".json".

Lemma uuid_not_in vm_id c : is_uuid vm_id → c = SLASH ∨ c = DOT → c ∉ vm_id.
Proof.
  intros [_ Hc] Hor Hin. rewrite Forall_forall in Hc. specialize (Hc c Hin). unfold SLASH, DOT in *. lia.
Qed.

Lemma uuid_cons vm_id : is_uuid vm_id → ∃ c r, vm_id = c :: r ∧ c ≠ SLASH ∧ c ≠ DOT.
Proof.
  intros Hu. pose proof Hu as [Hl Hc]. destruct vm_id as [|c r]; [done|]. exists c, r.
  apply Forall_cons in Hc as [Hc _]. unfold SLASH, DOT. split_and!; [done|lia|lia].
Qed.

Lemma path_join_plain base p c r : p = c :: r → c ≠ SLASH → last base ≠ Some SLASH → path_join base p = base ++ SLASH :: p.
Proof.
  intros -> Hc Hb. unfold path_join. rewrite !bool_decide_eq_false_2; [done|done|]. cbn [head]. congruence.
Qed.

Lemma state_file_text vm_id : is_uuid vm_id → state_file vm_id = VMS_DIR ++ SLASH :: json_name vm_id.
Proof.
  intros Hu. destruct (uuid_cons _ Hu) as (c & r & -> & Hc & _). unfold state_file, json_name.
  by apply (path_join_plain _ _ c (r ++ ustr ".json")).
Qed.

(** The directory of the state files: its path exists, no directory is in it,
    and its files can be read and written. *)
Record state_dir (f : Fs) : Prop := {
  sd_dirs : ∀ k, (1 ≤ k ≤ 4)%nat → take k vms_parts ∈ dirs f;
  sd_plain : ∀ n, vms_parts ++ [n] ∉ dirs f;
  sd_read : ∀ n, read_error f !! (vms_parts ++ [n]) = None;
  sd_write : ∀ n, write_error f !! (vms_parts ++ [n]) = None;
}.

Lemma is_dir_elem f d : d ∈ dirs f → is_dir f d = true.
Proof. intros Hd. unfold is_dir. by rewrite (bool_decide_eq_true_2 (d ∈ _)), orb_true_r. Qed.

Lemma state_dir_vms f : state_dir f → is_dir f vms_parts = true.
Proof. intros Hs. apply is_dir_elem, (sd_dirs f Hs 4). lia. Qed.

Lemma resolve_vms f n :
  state_dir f → SLASH ∉ n → n ≠ [] → n ≠ [DOT] → n ≠ [DOT; DOT] →
  resolve f (VMS_DIR ++ SLASH :: n) = Some (vms_parts ++ [n]).
Proof.
  intros Hs Hn N1 N2 N3. unfold resolve. rewrite split_on_app, (split_on_none SLASH n) by done.
  change (split_on SLASH VMS_DIR) with ([] :: vms_parts). cbn [app walk vms_parts].
  assert (is_dir f [] = true) as -> by (unfold is_dir; by rewrite bool_decide_eq_true_2).
  assert (∀ k, (1 ≤ k ≤ 4)%nat → is_dir f (take k vms_parts) = true) as Hd.
  { intros k Hk. by apply is_dir_elem, (sd_dirs f Hs). }
  pose proof (Hd 1%nat ltac:(lia)) as H1. pose proof (Hd 2%nat ltac:(lia)) as H2.
  pose proof (Hd 3%nat ltac:(lia)) as H3. pose proof (Hd 4%nat ltac:(lia)) as H4. cbn [take vms_parts] in *.
  rewrite (bool_decide_eq_true_2 ([] = [] ∨ _)) by auto.
  repeat (rewrite (bool_decide_eq_false_2 (ustr _ = [] ∨ _)) by (intros [E|E]; discriminate E)).
  repeat (rewrite (bool_decide_eq_false_2 (ustr _ = [DOT; DOT])) by (intros E; discriminate E)).
  cbn [app]. rewrite H1, H2, H3, H4.
  by rewrite !bool_decide_eq_false_2 by tauto.
Qed.

Lemma json_name_plain vm_id :
  is_uuid vm_id → SLASH ∉ json_name vm_id ∧ json_name vm_id ≠ [] ∧ json_name vm_id ≠ [DOT] ∧ json_name vm_id ≠ [DOT; DOT].
Proof.
  intros Hu. unfold json_name. split.
  - rewrite elem_of_app. intros [Hin|Hin]; [by eapply uuid_not_in in Hin; eauto|].
    revert Hin. apply (bool_decide_eq_true_1 _). reflexivity.
  - destruct Hu as [Hl _]. split_and!; intros E; apply (f_equal length) in E; rewrite length_app in E;
      simpl in E; lia.
Qed.

Lemma resolve_state_file f vm_id :
  state_dir f → is_uuid vm_id → resolve f (state_file vm_id) = Some (vms_parts ++ [json_name vm_id]).
Proof.
  intros Hs Hu. rewrite state_file_text by done. destruct (json_name_plain _ Hu) as (? & ? & ? & ?).
  by apply resolve_vms.
Qed.

(** ** Calls that leave the state files alone *)

(** Two file systems with the same state files. *)
Record same_states (f f' : Fs) : Prop := {
  ss_dir : state_dir f';
  ss_files : ∀ n, files f' !! (vms_parts ++ [n]) = files f !! (vms_parts ++ [n]);
}.

Lemma same_states_refl f : state_dir f → same_states f f.
Proof. by constructor. Qed.
Lemma same_states_trans f g h : same_states f g → same_states g h → same_states f h.
Proof. intros [_ H1] [H2 H3]. constructor; [done|]. intros n. by rewrite H3, H1. Qed.

Definition keeps {A} (m : io Host A) : Prop := ∀ h, state_dir (fs h) → same_states (fs h) (fs (m h).2).

Lemma keeps_call effect :
  (∀ h, state_dir (fs h) → same_states (fs h) (fs (effect h))) → keeps (call effect).
Proof.
  intros He h Hs. unfold call. destruct (outcomes h) as [|[e|] o]; cbn [snd];
    [by apply He|by apply same_states_refl|by apply (He (set_outcomes h o))].
Qed.
Lemma keeps_call_id : keeps (call id).
Proof. apply keeps_call. intros h. apply same_states_refl. Qed.

Lemma keeps_bind {A B} (m : io Host A) (f : A → io Host B) :
  keeps m → (∀ a, keeps (f a)) → keeps (m ≫= f).
Proof.
  intros Hm Hf h Hs. unfold mbind, io_bind. specialize (Hm h Hs). destruct (m h) as [[a|e|] h1]; cbn [snd] in *; [|done..].
  eapply same_states_trans; [done|]. apply Hf, (ss_dir _ _ Hm).
Qed.
Lemma keeps_ret {A} (a : A) : keeps (mret a).
Proof. intros h Hs. by apply same_states_refl. Qed.
Lemma keeps_give {A} (r : res ustring A) : keeps (give r).
Proof. intros h Hs. by apply same_states_refl. Qed.

Lemma state_dir_files f fl : state_dir f → state_dir (set_files f fl).
Proof. by intros []. Qed.

Lemma set_file_same f p v :
  state_dir f → (∀ n, p ≠ vms_parts ++ [n]) →
  same_states f (set_files f (<[p := v]> (files f))) ∧ same_states f (set_files f (delete p (files f))).
Proof.
  intros Hs Hp. split; (constructor; [by apply state_dir_files|]); intros n; cbn [files set_files].
  - by rewrite lookup_insert_ne.
  - by rewrite lookup_delete_ne.
Qed.

Lemma add_dir_same f d :
  state_dir f → (∀ n, d ≠ vms_parts ++ [n]) → same_states f (set_dirs f ({[d]} ∪ dirs f)).
Proof.
  intros Hs Hd. constructor; [|done]. destruct Hs as [H1 H2 H3 H4]. constructor; cbn [dirs set_dirs]; try done.
  - intros k Hk. apply elem_of_union_r. auto.
  - intros n. rewrite elem_of_union, elem_of_singleton. intros [E|E]; [by apply (Hd n)|by apply (H2 n)].
Qed.

Lemma below_data vm_id p : below (data_parts ++ [vm_id]) p → take 2 p = data_parts.
Proof.
  unfold below. cbn [length app data_parts]. intros E. apply (f_equal (take 2)) in E.
  rewrite take_take in E. exact E.
Qed.
Lemma state_not_below vm_id k n :
  (1 ≤ k ≤ 4)%nat → ¬ below (data_parts ++ [vm_id]) (take k vms_parts) ∧ ¬ below (data_parts ++ [vm_id]) (vms_parts ++ [n]).
Proof.
  intros Hk. split; intros E; apply below_data in E.
  - destruct k as [|[|[|[|[|k]]]]]; try lia; discriminate E.
  - discriminate E.
Qed.

Lemma remove_tree_same f vm_id : state_dir f → same_states f (remove_tree (data_parts ++ [vm_id]) f).
Proof.
  intros [H1 H2 H3 H4]. constructor; [constructor; cbn [dirs remove_tree read_error write_error]; try done|].
  - intros k Hk. apply elem_of_filter. split; [by apply (state_not_below vm_id k [])|auto].
  - intros n Hin. apply elem_of_filter in Hin as [_ Hin]. by apply (H2 n).
  - intros n. cbn [files remove_tree]. destruct (files f !! (vms_parts ++ [n])) as [v|] eqn:E.
    + apply map_lookup_filter_Some. split; [done|]. by apply (state_not_below vm_id 1 n); lia.
    + apply map_lookup_filter_None. by left.
Qed.

Lemma keeps_create_subvolume vm_id : keeps (create_subvolume vm_id).
Proof.
  intros h Hs. unfold create_subvolume. destruct (exists_ _ _); [by apply same_states_refl|].
  apply keeps_call; [|done]. intros h' Hs'. apply add_dir_same; [done|]. intros n E. discriminate E.
Qed.
Lemma keeps_delete_subvolume vm_id : keeps (delete_subvolume vm_id).
Proof.
  intros h Hs. unfold delete_subvolume. destruct (exists_ _ _); [|by apply same_states_refl].
  apply keeps_call; [|done]. intros h' Hs'. by apply remove_tree_same.
Qed.
Lemma keeps_create_raw vm_id n : keeps (create_raw vm_id n).
Proof.
  unfold create_raw. apply keeps_bind; [|intros _; apply keeps_bind; [|intros _; apply keeps_ret]];
    apply keeps_call; intros h; apply same_states_refl.
Qed.
Lemma keeps_setup t b : keeps (setup_on_bridge t b).
Proof.
  unfold setup_on_bridge. apply keeps_bind; [apply keeps_call; intros h; apply same_states_refl|intros _].
  repeat (apply keeps_bind; [apply keeps_call_id|intros _]). apply keeps_call_id.
Qed.
Lemma keeps_remove_tap t : keeps (remove_tap_device t).
Proof.
  intros h Hs. unfold remove_tap_device. case_bool_decide; [|by apply same_states_refl].
  apply keeps_call; [|done]. intros h'. apply same_states_refl.
Qed.
Lemma keeps_spawn p : keeps (spawn p).
Proof.
  intros h Hs. unfold spawn.
  pose proof (keeps_call (λ h', set_procs h' (<[new_pid h := p]> (procs h'))) ltac:(intros h'; apply same_states_refl) h Hs) as Hc.
  destruct (call _ h) as [r h']. exact Hc.
Qed.

(** A path of few components names no state file. *)
Lemma walk_length f comps : ∀ cur c,
  walk f cur comps = Some c → (length c ≤ length cur + length (filter (λ x, x ≠ []) comps))%nat.
Proof.
  induction comps as [|x comps IH]; intros cur c E; cbn [walk] in E; [injection E as <-; simpl; lia|].
  destruct (is_dir f cur); [|done]. rewrite filter_cons. case_bool_decide as H1.
  - apply IH in E. case_decide; simpl; lia.
  - case_bool_decide.
    + apply IH in E. assert (length (removelast cur) ≤ length cur)%nat.
      { clear. induction cur as [|y cur IH]; [done|]. simpl. destruct cur; simpl in *; lia. }
      case_decide; simpl; lia.
    + apply IH in E. rewrite length_app in E. simpl in E. rewrite decide_True by tauto. simpl. lia.
Qed.

Lemma keeps_write_file `{IoText} p data :
  (∀ f c, resolve f p = Some c → (length c ≤ 4)%nat) → keeps (file_op (λ f, write_file f p data)).
Proof.
  intros Hp h Hs. unfold file_op, write_file. destruct (resolve (fs h) p) as [c|] eqn:Ec; [|by apply same_states_refl].
  assert (∀ n, c ≠ vms_parts ++ [n]) as Hc.
  { intros n ->. apply Hp in Ec. simpl in Ec. lia. }
  destruct (is_dir (fs h) c); [by apply same_states_refl|].
  destruct (write_error (fs h) !! c) as [[e k]|]; cbn [snd fs set_fs]; by apply set_file_same.
Qed.

Lemma mkdirs_keeps comps : ∀ f cur,
  state_dir f → (length cur + length comps ≤ 4)%nat → same_states f (mkdirs f cur comps).2.
Proof.
  induction comps as [|c comps IH]; intros f cur Hs Hl; cbn [mkdirs]; [by apply same_states_refl|].
  simpl in Hl. case_bool_decide; [apply IH; [done|lia]|].
  case_bool_decide; [by apply same_states_refl|].
  assert (same_states f (set_dirs f ({[cur ++ [c]]} ∪ dirs f))) as Ha.
  { apply add_dir_same; [done|]. intros n E. apply (f_equal length) in E. rewrite length_app in E. simpl in E. lia. }
  eapply same_states_trans; [exact Ha|]. apply IH; [by apply (ss_dir _ _ Ha)|]. rewrite length_app. simpl. lia.
Qed.

Lemma keeps_mkdir `{IoText} p :
  (length (split_on SLASH p) ≤ 4)%nat → keeps (file_op (λ f, create_dir_all f p)).
Proof.
  intros Hp h Hs. unfold file_op, create_dir_all.
  pose proof (mkdirs_keeps (split_on SLASH p) (fs h) [] Hs Hp) as Hm.
  destruct (mkdirs (fs h) [] (split_on SLASH p)) as [r f']. exact Hm.
Qed.

Section host_keeps.
Context `{IoText} `{JsonText} (arch : Arch).

Lemma keeps_firecracker c : SLASH ∉ start_id c → keeps (firecracker_start c).
Proof.
  intros Hid. unfold firecracker_start.
  assert (split_on SLASH (ustr "/run/workloadd/" ++ start_id c) = [[]; ustr "run"; ustr "workloadd"; start_id c]) as E1.
  { change (ustr "/run/workloadd/") with (ustr "/run/workloadd" ++ [SLASH]). rewrite <-app_assoc. cbn [app].
    by rewrite split_on_app, (split_on_none SLASH (start_id c)). }
  apply keeps_bind; [apply keeps_mkdir; by rewrite E1|intros _].
  apply keeps_bind; [apply keeps_give|intros text]. apply keeps_bind; [|intros _; apply keeps_spawn].
  apply keeps_write_file. intros f p Ep. unfold resolve in Ep.
  change (ustr "/config.json") with (SLASH :: ustr "config.json") in Ep.
  rewrite split_on_app, E1 in Ep. apply walk_length in Ep. cbn [app] in Ep.
  rewrite (filter_cons_False _ []) in Ep by tauto.
  etransitivity; [exact Ep|]. etransitivity; [apply Nat.add_le_mono_l, length_filter|]. simpl. lia.
Qed.

Lemma keeps_start hv c : SLASH ∉ start_id c → keeps (hypervisor_start arch hv c).
Proof.
  intros Hid. destruct hv; cbn [hypervisor_start]; [by apply keeps_firecracker| |apply keeps_spawn].
  intros h Hs. unfold cloud_start. destruct (cloud_check h c); [by apply same_states_refl|].
  pose proof (keeps_spawn {| binary := CLOUD_HYPERVISOR; argv := cloud_args c |} h Hs) as Hk.
  destruct (spawn _ h). exact Hk.
Qed.

Lemma keeps_stop hv p force : keeps (hypervisor_stop hv p force).
Proof.
  intros h Hs. unfold hypervisor_stop. repeat (case_bool_decide; [|by apply same_states_refl]).
  apply keeps_call; [|done]. intros h'. apply same_states_refl.
Qed.

Lemma safe_char_slash (filename : ustring) : SLASH ∉ safe_char <$> filename.
Proof.
  intros Hin. apply list_elem_of_fmap in Hin as (c & E & _). unfold safe_char in E.
  case_bool_decide as Hc; [done|]. apply Hc. by left.
Qed.

Lemma keeps_upload (filename : ustring) data vm_id :
  SLASH ∉ vm_id →
  keeps (file_op (λ f, write_file f (path_join (path_join DATA_DIR vm_id) (safe_char <$> filename)) data)).
Proof.
  intros Hid. apply keeps_write_file. intros f p Ep. unfold resolve in Ep.
  pose proof (safe_char_slash filename) as Hf. set (n := safe_char <$> filename) in *. clearbody n.
  assert (∀ x, SLASH ∉ x → bool_decide (head x = Some SLASH) = false) as Hh.
  { intros [|c x] Hx; [done|]. apply bool_decide_eq_false. intros [= ->]. apply Hx. set_solver. }
  unfold path_join in Ep. rewrite (Hh vm_id), (Hh n) in Ep by done.
  rewrite (bool_decide_eq_false_2 (last DATA_DIR = Some SLASH)) in Ep by done.
  assert (split_on SLASH (DATA_DIR ++ [SLASH] ++ vm_id) = [[]; ustr "run"; ustr "data"; vm_id]) as Ed.
  { cbn [app]. by rewrite split_on_app, (split_on_none SLASH vm_id). }
  case_bool_decide as Hl.
  - assert (vm_id = []) as ->.
    { destruct (last vm_id) as [c|] eqn:El; [|by apply last_None in El].
      rewrite app_assoc, last_app, El in Hl. simpl in Hl. injection Hl as ->. apply last_Some_elem_of in El. done. }
    cbn [app] in Ep. rewrite <-app_assoc in Ep. cbn [app] in Ep.
    rewrite split_on_app, (split_on_none SLASH n) in Ep by done.
    apply walk_length in Ep. etransitivity; [exact Ep|].
    etransitivity; [apply Nat.add_le_mono_l, length_filter|]. simpl. lia.
  - cbn [app] in Ep. rewrite (split_on_app SLASH), (split_on_none SLASH n) in Ep by done. cbn [app] in Ed.
    rewrite Ed in Ep. apply walk_length in Ep. cbn [app] in Ep.
    rewrite (filter_cons_False _ []) in Ep by tauto. etransitivity; [exact Ep|].
    etransitivity; [apply Nat.add_le_mono_l, length_filter|]. simpl. lia.
Qed.
End host_keeps.

(** ** State files and entries *)

Definition settled (s : VmState) : Prop := s = StCreated ∨ s = StRunning ∨ s = StStopped.

Section inv.
Context `{VmJsonLaws} `{IoText} `{JsonText} `{Sha256} (arch : Arch).

(** The state file of a machine holds a record. *)
Definition stored (f : Fs) (vm_id : ustring) (p : VmPersisted) : Prop :=
  ∃ s t, files f !! (vms_parts ++ [json_name vm_id]) = Some {| bytes := utf8 s; mtime := t |} ∧
    is_ustring s ∧ vm_from_json s = Ok p.

(** A record was written for a settled entry of the machine. The entry may have
    left it since, towards starting or stopping; a settled entry is the one of
    the record, but for a machine that ran when the daemon was restarted. *)
Record matches (e : VmEntry) (p : VmPersisted) : Prop := {
  mt_settled : ∃ e', p = to_persisted e' ∧ settled (state e');
  mt_config : p_config p = config e;
  mt_created : p_created_at p = created_at e;
  mt_state : settled (state e) → p = to_persisted e ∨ (state e = StStopped ∧ p_state p = state_code StRunning);
}.

(** A machine that runs has a process and its own device. *)
Record entry_ok (vm_id : ustring) (e : VmEntry) : Prop := {
  eo_state : settled (state e) ∨ state e = StStarting ∨ state e = StStopping;
  eo_running : state e = StRunning → (∃ p, pid e = Some p) ∧ tap_device e = Some (tap_of vm_id);
}.

Record Inv (w : World) : Prop := {
  inv_dir : state_dir (fs (host w));
  inv_entry : ∀ vm_id e, vms (actor w) !! vm_id = Some e →
    is_uuid vm_id ∧ entry_ok vm_id e ∧ ∃ p, stored (fs (host w)) vm_id p ∧ matches e p;
  inv_files : ∀ n, is_Some (files (fs (host w)) !! (vms_parts ++ [n])) →
    ∃ vm_id, n = json_name vm_id ∧ is_Some (vms (actor w) !! vm_id);
}.

Lemma stored_same f f' vm_id p : same_states f f' → stored f vm_id p → stored f' vm_id p.
Proof. intros Hs (s & t & E & Hu). exists s, t. by rewrite (ss_files _ _ Hs). Qed.

Lemma inv_set_host w h : Inv w → same_states (fs (host w)) (fs h) → Inv (set_host w h).
Proof.
  intros Hw Hs. constructor; cbn [host actor set_host].
  - by apply (ss_dir _ _ Hs).
  - intros vm_id e He. destruct (inv_entry w Hw vm_id e He) as (? & ? & p & ? & ?).
    split_and!; [done..|]. exists p. split; [by eapply stored_same|done].
  - intros n. rewrite (ss_files _ _ Hs). by apply (inv_files w Hw).
Qed.

(** *** Programs that keep a property when they fail *)

Definition spec {A} (E I : World → Prop) (m : io World A) (J : A → World → Prop) : Prop :=
  ∀ w, I w → match m w with (Ok a, w') => J a w' | (_, w') => E w' end.

Lemma spec_bind {A B} E I (m : io World A) J (f : A → io World B) K :
  spec E I m J → (∀ a, spec E (J a) (f a) K) → spec E I (m ≫= f) K.
Proof.
  intros Hm Hf w Hw. unfold mbind, io_bind. specialize (Hm w Hw). destruct (m w) as [[a|e|] w']; [|done..].
  by apply Hf.
Qed.
Lemma spec_ret {A} E (I : World → Prop) (a : A) J : (∀ w, I w → J a w) → spec E I (mret a) J.
Proof. intros HI w Hw. by apply HI. Qed.
Lemma spec_bail {A} E (I : World → Prop) e (J : A → World → Prop) : (∀ w, I w → E w) → spec E I (bail e) J.
Proof. intros HI w Hw. by apply HI. Qed.
Lemma spec_give {A} (E I : World → Prop) (r : res ustring A) (J : A → World → Prop) :
  (∀ w, I w → E w) → (∀ a w, I w → J a w) → spec E I (give r) J.
Proof. intros HE HJ w Hw. unfold give. destruct r; auto. Qed.
Lemma spec_gets {A} E I (f : World → A) J : (∀ w, I w → J (f w) w) → spec E I (gets f) J.
Proof. intros HI w Hw. by apply HI. Qed.
Lemma spec_get_entry (E I : World → Prop) vm_id J :
  (∀ w, I w → E w) → (∀ e w, I w → vms (actor w) !! vm_id = Some e → J e w) → spec E I (get_entry vm_id) J.
Proof.
  intros HE HJ w Hw. unfold get_entry. destruct (vms (actor w) !! vm_id) as [e|] eqn:Ee; cbn [ok_or]; eauto.
Qed.
Lemma spec_host {A} (E I : World → Prop) (m : io Host A) J :
  keeps m → (∀ w, I w → state_dir (fs (host w))) →
  (∀ w h, I w → same_states (fs (host w)) (fs h) → E (set_host w h)) →
  (∀ a w h, I w → same_states (fs (host w)) (fs h) → J a (set_host w h)) →
  spec E I (on_host m) J.
Proof.
  intros Hk Hd HE HJ w Hw. unfold on_host. specialize (Hk (host w) (Hd w Hw)).
  destruct (m (host w)) as [[a|e|] h]; cbn [snd] in Hk; eauto.
Qed.
Lemma spec_logged (E I : World → Prop) (m : io Host unit) J :
  keeps m → (∀ w, I w → state_dir (fs (host w))) →
  (∀ w h, I w → same_states (fs (host w)) (fs h) → E (set_host w h)) →
  (∀ w h, I w → same_states (fs (host w)) (fs h) → J tt (set_host w h)) →
  spec E I (logged m) J.
Proof.
  intros Hk Hd HE HJ w Hw. unfold logged. specialize (Hk (host w) (Hd w Hw)).
  destruct (m (host w)) as [[a|e|] h]; cbn [snd] in Hk; eauto.
Qed.
Lemma spec_attempt {A} (E I : World → Prop) (m : io Host A) J :
  keeps m → (∀ w, I w → state_dir (fs (host w))) →
  (∀ w h, I w → same_states (fs (host w)) (fs h) → E (set_host w h)) →
  (∀ a w h, I w → m (host w) = (a, h) → same_states (fs (host w)) (fs h) → J a (set_host w h)) →
  spec E I (attempt m) J.
Proof.
  intros Hk Hd HE HJ w Hw. unfold attempt. specialize (Hk (host w) (Hd w Hw)).
  destruct (m (host w)) as [[a|e|] h] eqn:Em; cbn [snd] in Hk; eauto.
Qed.
Lemma spec_modify (E I : World → Prop) f J :
  (∀ w, I w → J tt (set_vms w (f (vms (actor w))))) → spec E I (modify f) J.
Proof. intros HI w Hw. by apply HI. Qed.
Lemma spec_weaken {A} E (I I' : World → Prop) (m : io World A) J :
  (∀ w, I w → I' w) → spec E I' m J → spec E I m J.
Proof. intros HI Hm w Hw. by apply Hm, HI. Qed.

(** *** Writing and removing a state file *)

Lemma save_vm_ok vm_id p h :
  state_dir (fs h) → is_uuid vm_id →
  ∃ f', save_vm vm_id p h = (Ok tt, set_fs h f') ∧ state_dir f' ∧ stored f' vm_id p ∧
    ∀ n, n ≠ json_name vm_id → files f' !! (vms_parts ++ [n]) = files (fs h) !! (vms_parts ++ [n]).
Proof.
  intros Hs Hu. destruct (vm_to_json_total p) as (s & Es & Hs' & Ed).
  unfold save_vm, give, mbind, io_bind. rewrite Es. unfold file_op, write_file.
  rewrite resolve_state_file by done.
  assert (is_dir (fs h) (vms_parts ++ [json_name vm_id]) = false) as ->.
  { unfold is_dir. rewrite (bool_decide_eq_false_2 (_ ∈ _)) by apply (sd_plain _ Hs). by rewrite bool_decide_eq_false_2. }
  rewrite (sd_write _ Hs). eexists. split; [reflexivity|]. split; [by apply state_dir_files|]. split.
  - exists s, (clock (fs h)). cbn [files set_files]. by rewrite lookup_insert_eq.
  - intros n Hn. cbn [files set_files]. apply lookup_insert_ne. intros E. apply Hn. by apply app_inv_head in E as [= ->].
Qed.

Lemma delete_vm_ok vm_id h :
  state_dir (fs h) → is_uuid vm_id →
  ∃ f', delete_vm vm_id h = (Ok tt, set_fs h f') ∧ state_dir f' ∧
    files f' !! (vms_parts ++ [json_name vm_id]) = None ∧
    ∀ n, n ≠ json_name vm_id → files f' !! (vms_parts ++ [n]) = files (fs h) !! (vms_parts ++ [n]).
Proof.
  intros Hs Hu. unfold delete_vm, exists_. rewrite resolve_state_file by done.
  assert (is_dir (fs h) (vms_parts ++ [json_name vm_id]) = false) as Hd.
  { unfold is_dir. rewrite (bool_decide_eq_false_2 (_ ∈ _)) by apply (sd_plain _ Hs). by rewrite bool_decide_eq_false_2. }
  rewrite Hd, orb_false_r. case_bool_decide as Hf.
  - destruct Hf as [v Hv]. unfold file_op, remove_file. rewrite resolve_state_file, Hv, (sd_write _ Hs) by done.
    eexists. split; [reflexivity|]. split; [by apply state_dir_files|]. cbn [files set_files].
    split; [apply lookup_delete_eq|]. intros n Hn. apply lookup_delete_ne. intros E. apply Hn.
    by apply app_inv_head in E as [= ->].
  - exists (fs h). split; [by destruct h|]. split; [done|]. split; [|done].
    destruct (files (fs h) !! _) eqn:E; [|done]. by destruct Hf.
Qed.

Lemma json_name_inj a b : json_name a = json_name b → a = b.
Proof. intros E. by apply app_inv_tail in E. Qed.

(** Storing an entry and its record. *)
Lemma inv_put w vm_id e f' :
  Inv w → is_uuid vm_id → entry_ok vm_id e → settled (state e) → state_dir f' →
  stored f' vm_id (to_persisted e) →
  (∀ n, n ≠ json_name vm_id → files f' !! (vms_parts ++ [n]) = files (fs (host w)) !! (vms_parts ++ [n])) →
  Inv (set_host (set_vms w (<[vm_id := e]> (vms (actor w)))) (set_fs (host w) f')).
Proof.
  intros Hw Hu He Hset Hd Hst Hf. constructor; cbn [actor host set_host set_vms vms fs set_fs]; [done|..].
  - intros id' e' Hl. destruct (decide (id' = vm_id)) as [->|Hne].
    + rewrite lookup_insert_eq in Hl. injection Hl as <-. split_and!; [done..|]. exists (to_persisted e).
      split; [done|]. constructor; [by exists e|done|done|by left].
    + rewrite lookup_insert_ne in Hl by done. destruct (inv_entry w Hw id' e' Hl) as (? & ? & p & (s & t & E & ?) & ?).
      split_and!; [done..|]. exists p. split; [|done]. exists s, t. rewrite Hf; [done|].
      intros Ej. by apply json_name_inj in Ej.
  - intros n Hn. destruct (decide (n = json_name vm_id)) as [->|Hne].
    + exists vm_id. by rewrite lookup_insert_eq.
    + rewrite Hf in Hn by done. destruct (inv_files w Hw n Hn) as (id' & -> & Hi). exists id'. split; [done|].
      rewrite lookup_insert_is_Some. destruct (decide (vm_id = id')); auto.
Qed.

Lemma alter_some (f : VmEntry → VmEntry) (m : gmap ustring VmEntry) vm_id e : m !! vm_id = Some e → alter f vm_id m = <[vm_id := f e]> m.
Proof.
  intros E. apply map_eq. intros i. destruct (decide (i = vm_id)) as [->|Hne].
  - by rewrite lookup_alter_eq, lookup_insert_eq, E.
  - by rewrite lookup_alter_ne, lookup_insert_ne by done.
Qed.

(** Changing an entry to a settled one and saving it always succeeds. *)
Lemma settle vm_id f w e :
  Inv w → vms (actor w) !! vm_id = Some e → entry_ok vm_id (f e) → settled (state (f e)) →
  ∃ w', (update vm_id f ≫= λ _, save vm_id) w = (Ok tt, w') ∧ Inv w' ∧
    vms (actor w') = <[vm_id := f e]> (vms (actor w)) ∧ stored (fs (host w')) vm_id (to_persisted (f e)) ∧
    actor w' = actor (set_vms w (<[vm_id := f e]> (vms (actor w)))) ∧ host w' = set_fs (host w) (fs (host w')) ∧
    (∀ n, n ≠ json_name vm_id → files (fs (host w')) !! (vms_parts ++ [n]) = files (fs (host w)) !! (vms_parts ++ [n])).
Proof.
  intros Hw Hl He Hset. destruct (inv_entry w Hw vm_id e Hl) as (Hu & _ & _).
  destruct (save_vm_ok vm_id (to_persisted (f e)) (host w) (inv_dir w Hw) Hu) as (f' & Es & Hd & Hst & Hf).
  unfold update, modify, save, mbind, io_bind, get_entry. cbn [actor set_vms vms].
  rewrite (alter_some f _ _ _ Hl), lookup_insert_eq. cbn [ok_or]. unfold on_host. cbn [host set_vms]. rewrite Es.
  eexists. split; [reflexivity|]. split; [by apply inv_put|]. done.
Qed.

(** A change of an entry on its way to another state. *)
Lemma inv_unsettled vm_id f w e :
  Inv w → vms (actor w) !! vm_id = Some e → config (f e) = config e → created_at (f e) = created_at e →
  state (f e) = StStarting ∨ state (f e) = StStopping →
  Inv (set_vms w (alter f vm_id (vms (actor w)))).
Proof.
  intros Hw Hl Hc Ht Hs. rewrite (alter_some f _ _ _ Hl). constructor; cbn [actor host set_vms vms]; [by apply Hw|..].
  - intros id' e' Hl'. destruct (decide (id' = vm_id)) as [->|Hne].
    + rewrite lookup_insert_eq in Hl'. injection Hl' as <-.
      destruct (inv_entry w Hw vm_id e Hl) as (Hu & _ & p & Hst & [M1 M2 M3 _]).
      assert (¬ settled (state (f e))) as Hns by (unfold settled; intros [?|[?|?]]; destruct Hs; congruence).
      split_and!; [done|constructor; [tauto|]; intros E; destruct Hs; congruence|].
      exists p. split; [done|]. constructor; [done|congruence|congruence|done].
    + rewrite lookup_insert_ne in Hl' by done. by apply (inv_entry w Hw).
  - intros n Hn. destruct (inv_files w Hw n Hn) as (id' & -> & Hi). exists id'. split; [done|].
    rewrite lookup_insert_is_Some. destruct (decide (vm_id = id')); auto.
Qed.

(** *** Commands *)

Definition starting (vm_id : ustring) (w : World) : Prop :=
  Inv w ∧ ∃ e, vms (actor w) !! vm_id = Some e ∧ state e = StStarting.
Definition with_device (vm_id : ustring) (w : World) : Prop :=
  Inv w ∧ ∃ e, vms (actor w) !! vm_id = Some e ∧ state e = StStarting ∧ tap_device e = Some (tap_of vm_id).

Lemma inv_host_step w h : Inv w → same_states (fs (host w)) (fs h) → Inv (set_host w h).
Proof. apply inv_set_host. Qed.
Lemma starting_host vm_id w h : starting vm_id w → same_states (fs (host w)) (fs h) → starting vm_id (set_host w h).
Proof. intros [Hw He] Hs. split; [by apply inv_set_host|done]. Qed.
Lemma device_host vm_id w h : with_device vm_id w → same_states (fs (host w)) (fs h) → with_device vm_id (set_host w h).
Proof. intros [Hw He] Hs. split; [by apply inv_set_host|done]. Qed.
Lemma starting_inv vm_id w : starting vm_id w → Inv w.
Proof. by intros [? _]. Qed.
Lemma device_inv vm_id w : with_device vm_id w → Inv w.
Proof. by intros [? _]. Qed.
Lemma device_uuid vm_id w : with_device vm_id w → is_uuid vm_id.
Proof. intros [Hw (e & He & _)]. by apply (inv_entry w Hw) in He as (? & _). Qed.

Lemma spec_asset (E I : World → Prop) dir n J :
  (∀ w, I w → E w) → (∀ a w, I w → J a w) → spec E I (resolve_boot_asset dir n) J.
Proof. intros HE HJ w Hw. unfold resolve_boot_asset. destruct (path_exists _ _); auto. Qed.

Lemma spec_disks (E I : World → Prop) dir ds : ∀ i (J : list DiskConfig → World → Prop),
  (∀ w, I w → E w) → (∀ a w, I w → J a w) → spec E I (resolve_disks dir i ds) J.
Proof.
  induction ds as [|d ds IH]; intros i J HE HJ; cbn [resolve_disks]; [by apply spec_ret; auto|].
  apply (spec_bind _ _ _ (λ _, I)); [by apply spec_asset|intros path].
  apply (spec_bind _ _ _ (λ _, I)); [by apply IH|intros rest]. apply spec_ret; auto.
Qed.

(** A driver that reports success has started a process. *)
Lemma spawn_ok pr h p h' : spawn pr h = (Ok p, h') → is_Some (procs h' !! p).
Proof.
  unfold spawn, call. destruct (outcomes h) as [|[e|] o]; intros E; [|done|]; injection E as <- <-;
    cbn [procs set_procs]; rewrite lookup_insert_eq; by eexists.
Qed.
Lemma hypervisor_start_ok hv c h p h' : hypervisor_start arch hv c h = (Ok p, h') → is_Some (procs h' !! p).
Proof.
  destruct hv; cbn [hypervisor_start].
  - unfold firecracker_start, mbind, io_bind. destruct (file_op _ h) as [[[]|e|] h1]; [|done..].
    unfold give. destruct (to_string_pretty _); [|done..]. destruct (file_op _ h1) as [[[]|e|] h2]; [|done..].
    apply spawn_ok.
  - unfold cloud_start. destruct (cloud_check h c); [done|]. destruct (spawn _ h) as [[q|e|] h1] eqn:Es; [|done..].
    intros [= <- <-]. by eapply spawn_ok.
  - apply spawn_ok.
Qed.

(** What a successful start leaves. *)
Definition started (vm_id : ustring) (w : World) : Prop :=
  Inv w ∧ ∃ e p, vms (actor w) !! vm_id = Some e ∧ state e = StRunning ∧ pid e = Some p ∧
    tap_device e = Some (tap_of vm_id) ∧ is_Some (procs (host w) !! p) ∧ stored (fs (host w)) vm_id (to_persisted e).

Lemma spec_failed vm_id err :
  spec Inv (with_device vm_id)
    (_ ← update vm_id (λ e, with_state StCreated (with_tap None e));
     _ ← save vm_id;
     _ ← cleanup_tap_on_err (Some (tap_dev (tap_of vm_id)));
     bail err) (λ (_ : unit), started vm_id).
Proof.
  intros w [Hw (e & He & Hst & Ht)].
  destruct (settle vm_id (λ e, with_state StCreated (with_tap None e)) w e Hw He) as (w' & E & Hw' & _);
    [constructor; [left; by left|done]|by left|].
  unfold mbind, io_bind in E |- *. destruct (update vm_id _ w) as [[[]|?|] w1]; [|done..].
  rewrite E. cbn [cleanup_tap_on_err]. unfold remove_tap, logged.
  pose proof (keeps_remove_tap (tap_dev (tap_of vm_id)) (host w') (inv_dir w' Hw')) as Hk.
  destruct (remove_tap_device _ (host w')) as [[[]|e'|] h]; cbn [snd] in Hk; by apply inv_set_host.
Qed.

Lemma spec_handle_start vm_id :
  spec Inv Inv (handle_start arch vm_id) (λ _, started vm_id).
Proof.
  unfold handle_start. eapply (spec_bind _ _ _ (λ _, Inv)); [apply spec_gets; auto|].
  intros [|]; [|apply spec_bail; auto].
  eapply (spec_bind _ _ _ (λ e w, Inv w ∧ vms (actor w) !! vm_id = Some e)); [apply spec_get_entry; auto|].
  intros e. case_bool_decide; [by apply spec_bail; intros w [? _]|].
  eapply (spec_bind _ _ _ (λ _, starting vm_id)).
  { apply spec_modify. intros w [Hw He]. split; [apply (inv_unsettled vm_id _ w e); auto|].
    cbn [actor set_vms vms]. rewrite lookup_alter_eq, He. by eexists. }
  intros _. eapply (spec_bind _ _ _ (λ _, starting vm_id)); [apply spec_gets; auto|intros bridge].
  eapply (spec_bind _ _ _ (λ _, starting vm_id)).
  { apply spec_host; [apply keeps_setup|intros w [Hw _]; by apply Hw|intros w h [Hw _] Hs; by apply inv_set_host|].
    intros _ w h. apply starting_host. }
  intros _. eapply (spec_bind _ _ _ (λ _, with_device vm_id)).
  { apply spec_modify. intros w [Hw (e' & He & Hst)]. split; [apply (inv_unsettled vm_id _ w e'); auto|].
    cbn [actor set_vms vms]. rewrite lookup_alter_eq, He. eexists. split; [reflexivity|done]. }
  intros _. eapply (spec_bind _ _ _ (λ _, with_device vm_id)); [by apply spec_asset; [apply device_inv|]|intros kernel_path].
  eapply (spec_bind _ _ _ (λ _, with_device vm_id)); [apply spec_gets; auto|intros initrd_path].
  eapply (spec_bind _ _ _ (λ _, with_device vm_id)); [by apply spec_disks; [apply device_inv|]|intros ds].
  intros w Hw. pose proof (device_uuid _ _ Hw) as Hu. revert w Hw.
  match goal with |- ∀ w, _ → match ?m w with _ => _ end => fold (spec Inv (with_device vm_id) m) end.
  eapply (spec_bind _ _ _ (λ r w, with_device vm_id w ∧ ∀ p, r = Ok p → is_Some (procs (host w) !! p))).
  { apply spec_attempt; [apply keeps_start; cbn [start_id]; by eapply uuid_not_in; [|left]
      |intros w [Hw _]; by apply Hw|intros w h [Hw _] Hs; by apply inv_set_host|].
    intros r w h Hw Er Hs. split; [by apply device_host|]. intros p ->. by apply hypervisor_start_ok in Er. }
  intros [p|err|]; [|eapply spec_weaken; [|apply spec_failed]; by intros w [? _]|intros w [Hw _]; by apply (device_inv vm_id)].
  set (live := λ w, with_device vm_id w ∧ is_Some (procs (host w) !! p)).
  eapply (spec_bind _ _ _ (λ _, live)); [apply spec_gets; intros w [Hw Hp]; by split; [|apply Hp]|intros now].
  intros w [[Hw (e' & He & Hst & Ht)] Hp].
  destruct (settle vm_id (running p now) w e' Hw He) as (w' & -> & Hw' & Hv & Hsto & _ & Hh & _);
    [constructor; [left; right; by left|intros _; cbn [pid tap_device running]; eauto]|right; by left|].
  split; [done|]. exists (running p now e'), p. rewrite Hv, lookup_insert_eq.
  split_and!; [done..| |done]. by rewrite Hh.
Qed.

Lemma spec_handle_stop vm_id force :
  spec Inv Inv (handle_stop vm_id force)
    (λ _ w, Inv w ∧ ∃ e, vms (actor w) !! vm_id = Some e ∧ state e = StStopped ∧ pid e = None).
Proof.
  unfold handle_stop.
  eapply (spec_bind _ _ _ (λ e w, Inv w ∧ vms (actor w) !! vm_id = Some e)); [apply spec_get_entry; auto|].
  intros e. destruct (negb _) eqn:Er; [apply spec_bail; by intros w [? _]|].
  set (stopping := λ w, Inv w ∧ ∃ e', vms (actor w) !! vm_id = Some e').
  eapply (spec_bind _ _ _ (λ _, stopping)).
  { apply spec_modify. intros w [Hw He]. split; [apply (inv_unsettled vm_id _ w e); auto|].
    cbn [actor set_vms vms]. rewrite lookup_alter_eq, He. by eexists. }
  intros _. eapply (spec_bind _ _ _ (λ _, stopping)).
  { destruct (pid e); [|apply spec_ret; auto].
    apply spec_host; [apply keeps_stop|intros w [Hw _]; by apply Hw|intros w h [Hw _] Hs; by apply inv_set_host|].
    intros _ w h [Hw He] Hs. split; [by apply inv_set_host|done]. }
  intros _ w [Hw (e' & He)].
  destruct (settle vm_id stopped w e' Hw He) as (w1 & E & Hw1 & Hv & _);
    [constructor; [left; right; by right|done]|right; by right|].
  unfold mbind, io_bind in E |- *. destruct (update vm_id stopped w) as [[[]|?|] w2]; [|done..].
  rewrite E. assert (∃ e0, vms (actor w1) !! vm_id = Some e0 ∧ state e0 = StStopped ∧ pid e0 = None) as Hst.
  { exists (stopped e'). by rewrite Hv, lookup_insert_eq. }
  destruct (tap_device e) as [t|]; [|by split]. unfold remove_tap, logged.
  pose proof (keeps_remove_tap (tap_dev t) (host w1) (inv_dir w1 Hw1)) as Hk.
  destruct (remove_tap_device _ (host w1)) as [[[]|?|] h]; cbn [snd] in Hk;
    [split; [by apply inv_set_host|done]|split; [by apply inv_set_host|done]|by apply inv_set_host].
Qed.

(** Removing an entry together with its file. *)
Lemma inv_remove w vm_id f' :
  Inv w → state_dir f' → files f' !! (vms_parts ++ [json_name vm_id]) = None →
  (∀ n, n ≠ json_name vm_id → files f' !! (vms_parts ++ [n]) = files (fs (host w)) !! (vms_parts ++ [n])) →
  Inv (set_vms (set_host w (set_fs (host w) f')) (delete vm_id (vms (actor w)))).
Proof.
  intros Hw Hd Hn Hf. constructor; cbn [actor host set_host set_vms vms fs set_fs]; [done|..].
  - intros id' e' Hl. apply lookup_delete_Some in Hl as [Hne Hl].
    destruct (inv_entry w Hw id' e' Hl) as (? & ? & p & (s & t & E & ?) & ?).
    split_and!; [done..|]. exists p. split; [|done]. exists s, t. rewrite Hf; [done|].
    intros Ej. by apply json_name_inj in Ej.
  - intros n Hs. destruct (decide (n = json_name vm_id)) as [->|Hne].
    + rewrite Hn in Hs. by destruct Hs.
    + rewrite Hf in Hs by done. destruct (inv_files w Hw n Hs) as (id' & -> & Hi). exists id'. split; [done|].
      rewrite lookup_delete_ne; [done|]. by intros ->.
Qed.

Lemma spec_handle_delete vm_id :
  spec Inv Inv (handle_delete vm_id) (λ _ w, Inv w ∧ vms (actor w) !! vm_id = None).
Proof.
  unfold handle_delete.
  eapply (spec_bind _ _ _ (λ e w, Inv w ∧ vms (actor w) !! vm_id = Some e)); [apply spec_get_entry; auto|].
  intros e. case_bool_decide; [apply spec_bail; by intros w [? _]|].
  eapply (spec_bind _ _ _ (λ _ w, Inv w ∧ vms (actor w) !! vm_id = Some e)).
  { apply spec_logged; [apply keeps_delete_subvolume|intros w [Hw _]; by apply Hw
      |intros w h [Hw _] Hs; by apply inv_set_host|].
    intros w h [Hw He] Hs. split; [by apply inv_set_host|done]. }
  intros _ w [Hw He]. destruct (inv_entry w Hw vm_id e He) as (Hu & _).
  destruct (delete_vm_ok vm_id (host w) (inv_dir w Hw) Hu) as (f' & E & Hd & Hn & Hf).
  unfold mbind, io_bind, logged. rewrite E. cbn [modify]. split.
  - by apply (inv_remove w vm_id f').
  - cbn [actor set_vms vms]. apply lookup_delete_eq.
Qed.

Lemma spec_handle_create vm_id c :
  is_uuid vm_id →
  spec Inv Inv (handle_create vm_id c)
    (λ a w, Inv w ∧ a = vm_id ∧ ∃ e, vms (actor w) !! vm_id = Some e ∧ state e = StCreated ∧ config e = sized c).
Proof.
  intros Hu. unfold handle_create.
  repeat (eapply (spec_bind _ _ _ (λ _, Inv));
    [apply spec_host; [apply keeps_create_subvolume || apply keeps_create_raw || apply keeps_call_id
       |intros w Hw; by apply Hw|intros w h Hw Hs; by apply inv_set_host|intros _ w h; apply inv_set_host]|intros _]).
  eapply (spec_bind _ _ _ (λ _, Inv)); [apply spec_gets; auto|intros now]. intros w Hw.
  set (e := {| config := sized c |}).
  destruct (save_vm_ok vm_id (to_persisted e) (host w) (inv_dir w Hw) Hu) as (f' & E & Hd & Hst & Hf).
  unfold mbind, io_bind, on_host. rewrite E. cbn [modify mret io_ret]. split.
  - apply (inv_put w vm_id e f'); auto; [constructor; [left; by left|done]|by left].
  - split; [done|]. exists e. cbn [actor set_vms vms]. by rewrite lookup_insert_eq.
Qed.

Lemma spec_handle_upload (filename : ustring) data vm_id :
  (∀ i, vm_id = Some i → SLASH ∉ i) →
  spec Inv Inv (handle_upload_file filename data vm_id) (λ _ w, Inv w).
Proof.
  intros Hs. unfold handle_upload_file. destruct vm_id as [i|]; [|apply spec_bail; auto].
  eapply (spec_bind _ _ _ (λ _, Inv)); [apply spec_gets; auto|]. intros [|]; [|apply spec_bail; auto].
  eapply (spec_bind _ _ _ (λ _, Inv)); [|intros _; apply spec_ret; auto].
  apply spec_host; [apply keeps_upload; by apply Hs|intros w Hw; by apply Hw|intros w h; apply inv_set_host|
    intros _ w h; apply inv_set_host].
Qed.

Lemma spec_handle_serial vm_id n : spec Inv Inv (handle_get_serial_log vm_id n) (λ _ w, Inv w).
Proof.
  unfold handle_get_serial_log. eapply (spec_bind _ _ _ (λ _, Inv)); [apply spec_get_entry; auto|intros _].
  eapply (spec_bind _ _ _ (λ _, Inv)); [apply spec_gets; auto|]. intros [|]; [|apply spec_ret; auto].
  eapply (spec_bind _ _ _ (λ _, Inv)); [apply spec_gets; auto|intros read].
  eapply (spec_bind _ _ _ (λ _, Inv)); [apply spec_give; auto|intros content].
  destruct (0 <? n); apply spec_ret; auto.
Qed.
End inv.
