(* ===== verification/VmRecover.v ===== *)
(** The life of the workload daemon: every sequence of commands keeps the
    invariant of its state files, and a restarted daemon finds every machine
    again. *)

From stdpp Require Import gmap.
From S2P Require Import Prelude Io Utf Text Str Order FileSys LuksHeader SysConfig VmHost VmActor VmInv.

(** ** Commands in any order *)

(** Identifiers of new machines come from the generator; an upload names a
    machine by one path component. *)
Definition good_command (cmd : VmCommand) : Prop :=
  match cmd with
  | Create vm_id _ => is_uuid vm_id
  | UploadFile _ _ (Some vm_id) => SLASH ∉ vm_id
  | _ => True
  end.

Section life.
Context `{VmJsonLaws} `{IoText} `{JsonText} `{Sha256} (arch : Arch).
Context (usage : Host → ustring → option DiskUsage).

(** A command, the exit of a process, or a change of what calls will answer and
    of the time. *)
Inductive step : World → World → Prop :=
| step_command cmd w : good_command cmd → step w (dispatch arch usage cmd w).2
| step_exit p w : step w (set_host w (set_procs (host w) (delete p (procs (host w)))))
| step_outcomes o w : step w (set_host w (set_outcomes (host w) o)).

Lemma spec_reply {A} (f : res ustring A → Reply) (m : io World A) (J : A → World → Prop) w :
  spec Inv Inv m J → (∀ a w, J a w → Inv w) → Inv w → Inv (reply f m w).2.
Proof.
  intros Hm HJ Hw. specialize (Hm w Hw). unfold reply. destruct (m w) as [[a|e|] w']; eauto.
Qed.

Lemma dispatch_inv cmd w : good_command cmd → Inv w → Inv (dispatch arch usage cmd w).2.
Proof.
  intros Hg Hw. destruct cmd as [id c|id|id force|id|id| |filename data id|id n]; cbn [dispatch good_command] in *.
  - eapply spec_reply; [by apply spec_handle_create| |done]. by intros a w' [? _].
  - eapply spec_reply; [apply spec_handle_start| |done]. by intros a w' [? _].
  - eapply spec_reply; [apply spec_handle_stop| |done]. by intros a w' [? _].
  - eapply spec_reply; [apply spec_handle_delete| |done]. by intros a w' [? _].
  - unfold reply, handle_get, mbind, io_bind, get_entry, gets. by destruct (vms (actor w) !! id).
  - done.
  - eapply spec_reply; [apply spec_handle_upload| |done]; [|done]. intros i ->. done.
  - eapply spec_reply; [apply spec_handle_serial| |done]. done.
Qed.

Lemma vm_step_inv w w' : step w w' → Inv w → Inv w'.
Proof.
  intros Hs Hw. destruct Hs as [cmd w Hg|p w|o w]; [by apply dispatch_inv|..];
    (apply inv_set_host; [done|]); apply same_states_refl, Hw.
Qed.
Lemma steps_inv w w' : rtc step w w' → Inv w → Inv w'.
Proof. induction 1 as [|w w1 w' Hs _ IH]; [done|]. intros Hw. by eapply IH, vm_step_inv. Qed.

Lemma restart_all_inv ids : ∀ w, Inv w → Inv (restart_all arch ids w).
Proof.
  induction ids as [|id ids IH]; intros w Hw; cbn [restart_all]; [done|]. apply IH.
  pose proof (spec_handle_start arch id w Hw) as Hs. destruct (handle_start arch id w) as [[[]|e|] w']; cbn [snd]; [|done..].
  by destruct Hs.
Qed.
Lemma pending_inv w : Inv w → Inv (process_pending_restarts arch w).
Proof. intros Hw. unfold process_pending_restarts. apply restart_all_inv. by destruct Hw. Qed.
End life.

(** ** Loading the state files *)

Lemma child_of_Some d p n : child_of d p = Some n ↔ p = d ++ [n].
Proof.
  unfold child_of. destruct (last p) as [m|] eqn:El.
  - case_bool_decide as Hp; split.
    + by intros [= <-].
    + intros E. rewrite Hp in E. by apply app_inj_tail in E as [_ ->].
    + done.
    + intros ->. destruct Hp. rewrite last_snoc in El. by injection El as ->.
  - split; [done|]. intros ->. by rewrite last_snoc in El.
Qed.

Lemma elem_of_dir_files f d n : n ∈ dir_files f d ↔ is_Some (files f !! (d ++ [n])).
Proof.
  unfold dir_files. rewrite list_elem_of_omap. split.
  - intros (p & Hp & E). apply child_of_Some in E as ->. apply list_elem_of_fmap in Hp as ([p' v] & Ep & Hin).
    simpl in Ep. subst p'. apply elem_of_map_to_list in Hin. by exists v.
  - intros [v Hv]. exists (d ++ [n]). split; [|by apply child_of_Some].
    apply list_elem_of_fmap. exists (d ++ [n], v). split; [done|]. by apply elem_of_map_to_list.
Qed.

Lemma split_json vm_id : vm_id ≠ [] → split_name (json_name vm_id) = (vm_id, Some (ustr "json")).
Proof.
  intros Hn. unfold split_name, json_name. change (ustr ".json") with (DOT :: ustr "json").
  assert (rsplit_once DOT (vm_id ++ DOT :: ustr "json") = Some (vm_id, ustr "json")) as ->.
  { apply rsplit_once_Some. split; [done|]. apply (bool_decide_eq_true_1 _). reflexivity. }
  by rewrite bool_decide_eq_false_2.
Qed.
Lemma split_json_inv n stem : split_name n = (stem, Some (ustr "json")) → n = json_name stem.
Proof.
  unfold split_name. destruct (rsplit_once DOT n) as [[a b]|] eqn:E; [|done]. case_bool_decide; [done|].
  intros [= <- ->]. apply rsplit_once_Some in E as [-> _]. done.
Qed.

Lemma resolve_vms_dir f : state_dir f → resolve f VMS_DIR = Some vms_parts.
Proof.
  intros Hs. assert (∀ k, (1 ≤ k ≤ 4)%nat → is_dir f (take k vms_parts) = true) as Hd.
  { intros k Hk. by apply is_dir_elem, (sd_dirs f Hs). }
  pose proof (Hd 1%nat ltac:(lia)) as H1. pose proof (Hd 2%nat ltac:(lia)) as H2.
  pose proof (Hd 3%nat ltac:(lia)) as H3. cbn [take vms_parts] in *.
  unfold resolve. change (split_on SLASH VMS_DIR) with ([] :: vms_parts). cbn [walk vms_parts].
  assert (is_dir f [] = true) as -> by (unfold is_dir; by rewrite bool_decide_eq_true_2).
  rewrite (bool_decide_eq_true_2 ([] = [] ∨ _)) by auto.
  repeat (rewrite (bool_decide_eq_false_2 (ustr _ = [] ∨ _)) by (intros [E|E]; discriminate E)).
  repeat (rewrite (bool_decide_eq_false_2 (ustr _ = [DOT; DOT])) by (intros E; discriminate E)).
  cbn [app]. by rewrite H1, H2, H3.
Qed.

Section load.
Context `{VmJsonLaws} `{IoText}.

Lemma load_stored f vm_id p :
  state_dir f → is_uuid vm_id → stored f vm_id p → load_entry f (json_name vm_id) = Some (vm_id, p).
Proof.
  intros Hs Hu (s & t & Ef & Hs' & Ed). unfold load_entry.
  destruct (uuid_cons _ Hu) as (c & r & Hc & _). rewrite split_json by by rewrite Hc.
  rewrite bool_decide_eq_true_2 by done. unfold load_vm_from_path, read_to_string, read_bytes.
  change (path_join VMS_DIR (json_name vm_id)) with (state_file vm_id). rewrite (resolve_state_file f vm_id Hs Hu), Ef, (sd_read _ Hs).
  cbn [bytes mbind res_bind]. rewrite from_utf8_utf8 by done. cbn [ok_or map_err mbind res_bind]. by rewrite Ed.
Qed.

(** What the directory must hold for the daemon to start from it. *)
Definition host_ok (f : Fs) : Prop :=
  state_dir f ∧ ∀ n, is_Some (files f !! (vms_parts ++ [n])) →
    ∃ vm_id e, n = json_name vm_id ∧ is_uuid vm_id ∧ stored f vm_id (to_persisted e) ∧ settled (state e).

Lemma stored_fun f vm_id p q : stored f vm_id p → stored f vm_id q → p = q.
Proof.
  intros (s & t & E & Hs & Ep) (s' & t' & E' & Hs' & Eq). rewrite E in E'. injection E' as Eu _.
  apply utf8_inj in Eu as ->; [congruence|done|done].
Qed.

Lemma load_vms_lookup f vm_id p :
  host_ok f → load_vms f !! vm_id = Some p ↔ is_uuid vm_id ∧ stored f vm_id p.
Proof.
  intros [Hs Hf]. unfold load_vms, exists_. rewrite resolve_vms_dir by done.
  rewrite state_dir_vms, orb_true_r by done.
  assert (∀ i q, (i, q) ∈ omap (load_entry f) (dir_files f vms_parts) ↔ is_uuid i ∧ stored f i q) as Hl.
  { intros i q. rewrite list_elem_of_omap. split.
    - intros (n & Hn & E). apply elem_of_dir_files in Hn. apply Hf in Hn as (id & e & -> & Hu & Hst & _).
      rewrite (load_stored f id _ Hs Hu Hst) in E. by injection E as <- <-.
    - intros [Hu Hst]. exists (json_name i). split; [|by apply load_stored].
      apply elem_of_dir_files. destruct Hst as (s & t & E & _). by rewrite E. }
  split.
  - intros E. apply elem_of_list_to_map_2 in E. by apply Hl.
  - intros Hst. apply elem_of_list_to_map_1'; [|by apply Hl]. intros q Hq. apply Hl in Hq as [_ Hq].
    destruct Hst as [_ Hst]. by eapply stored_fun.
Qed.
End load.

(** ** A restarted daemon *)

Definition was_running (p : VmPersisted) : bool := bool_decide (state_try_from (p_state p) = Some StRunning).
Definition recovered (p : VmPersisted) : VmEntry :=
  if was_running p then with_tap None (with_state StStopped (from_persisted p)) else from_persisted p.

Lemma state_code_roundtrip s : state_try_from (state_code s) = Some s.
Proof. by destruct s. Qed.

(** The loop over the loaded records. *)
Definition recover_step (auto : bool) (acc : gmap ustring VmEntry * list ustring) (r : ustring * VmPersisted)
    : gmap ustring VmEntry * list ustring :=
  (<[r.1 := recovered r.2]> acc.1, if auto && was_running r.2 then acc.2 ++ [r.1] else acc.2).

Lemma load_persisted_foldl `{VmJson} `{IoText} f auto :
  load_persisted_state f auto = foldl (recover_step auto) (∅, []) (sorted_by_id (load_vms f)).
Proof.
  unfold load_persisted_state. generalize (∅ : gmap ustring VmEntry, [] : list ustring). intros acc.
  revert acc. induction (sorted_by_id (load_vms f)) as [|[id p] l IH]; intros [m q]; [done|]. cbn [foldl].
  rewrite IH. f_equal. unfold recover_step, reset_if_running, recovered, was_running. cbn [fst snd].
  destruct (bool_decide _), auto; done.
Qed.

Lemma recover_foldl auto l : ∀ m q,
  let '(m', q') := foldl (recover_step auto) (m, q) l in
  q' = q ++ (filter (λ r, auto && was_running r.2 = true) l).*1 ∧
  (NoDup l.*1 → ∀ id, m' !! id = match list_find (λ r, r.1 = id) l with
                                 | Some (_, r) => Some (recovered r.2)
                                 | None => m !! id
                                 end).
Proof.
  induction l as [|[id p] l IH]; intros m q; cbn [foldl].
  { rewrite filter_nil, app_nil_r. split; [done|]. done. }
  specialize (IH (<[id := recovered p]> m) (if auto && was_running p then q ++ [id] else q)).
  change (recover_step auto (m, q) (id, p)) with
    (<[id := recovered p]> m, if auto && was_running p then q ++ [id] else q).
  destruct (foldl _ _ l) as [m' q']. destruct IH as [-> Hm]. split.
  - rewrite filter_cons. cbn [snd]. destruct (auto && was_running p); [|done].
    rewrite decide_True by done. cbn [fmap list_fmap fst]. by rewrite <-app_assoc.
  - cbn [fmap list_fmap fst]. intros [Hni Hnd]%NoDup_cons i. rewrite Hm by done. cbn [list_find fst].
    case_decide as Hi.
    + subst i. destruct (list_find _ l) as [[j r]|] eqn:E; [|by rewrite lookup_insert_eq].
      apply list_find_Some in E as (Hj & Hr & _). exfalso. apply Hni. rewrite <-Hr.
      apply list_elem_of_fmap_2. by eapply list_elem_of_lookup_2.
    + destruct (list_find _ l) as [[j r]|]; [done|]. by rewrite lookup_insert_ne.
Qed.

Lemma sorted_by_id_elem m r : r ∈ sorted_by_id m ↔ m !! r.1 = Some r.2.
Proof. unfold sorted_by_id. rewrite stable_sort_perm. destruct r. apply elem_of_map_to_list. Qed.
Lemma sorted_by_id_nodup m : NoDup (sorted_by_id m).*1.
Proof. unfold sorted_by_id. rewrite stable_sort_perm. apply NoDup_fst_map_to_list. Qed.

Lemma find_by_id m id :
  list_find (λ r, r.1 = id) (sorted_by_id m) ≫= (λ x, Some (x.2).2) = m !! id.
Proof.
  destruct (list_find _ _) as [[j r]|] eqn:E; cbn [mbind option_bind].
  - apply list_find_Some in E as (Hj & <- & _). apply list_elem_of_lookup_2, sorted_by_id_elem in Hj. done.
  - destruct (m !! id) as [p|] eqn:Em; [|done]. apply list_find_None in E.
    rewrite Forall_forall in E. destruct (E (id, p)); [|done]. by apply sorted_by_id_elem.
Qed.

Lemma sorted_ids (P : ustring * VmPersisted → Prop) `{∀ r, Decision (P r)} m :
  StronglySorted (λ a b, lex_leb (utf8 a) (utf8 b) = true) (filter P (sorted_by_id m)).*1.
Proof.
  assert (sorted (λ a b : ustring * VmPersisted, lex_leb (utf8 a.1) (utf8 b.1)) (sorted_by_id m)) as Hs.
  { apply stable_sort_sorted; [intros; apply lex_leb_total|]. intros x y z. apply lex_leb_trans. }
  unfold sorted in Hs. induction Hs as [|r l _ IH Hr]; [constructor|]. rewrite filter_cons. case_decide; [|done].
  rewrite fmap_cons. constructor; [done|]. rewrite Forall_fmap, Forall_forall in *.
  intros x Hx. apply list_elem_of_filter in Hx as [_ Hx]. by apply Hr.
Qed.

(** Machines whose disk image and directory stay. *)
Definition same_data (vm_id : ustring) (h h' : Host) : Prop :=
  images h' !! vm_id = images h !! vm_id ∧
  ∀ p, below (data_parts ++ [vm_id]) p →
    files (fs h') !! p = files (fs h) !! p ∧ (p ∈ dirs (fs h') ↔ p ∈ dirs (fs h)).

Lemma below_other a b p : below (data_parts ++ [a]) p → below (data_parts ++ [b]) p → a = b.
Proof. unfold below. cbn [length app data_parts]. intros -> [=]. done. Qed.

Lemma delete_subvolume_data x vm_id h : x ≠ vm_id → same_data vm_id h (delete_subvolume x h).2.
Proof.
  intros Hne. unfold same_data, delete_subvolume. destruct (exists_ _ _); [|done]. split.
  { unfold call. destruct (outcomes h) as [|[e|] o]; cbn [snd images set_images set_outcomes]; try done;
      by rewrite lookup_delete_ne. }
  intros p Hp. assert (∀ h, files (remove_tree (data_parts ++ [x]) (fs h)) !! p = files (fs h) !! p ∧
            (p ∈ dirs (remove_tree (data_parts ++ [x]) (fs h)) ↔ p ∈ dirs (fs h))) as Hr.
  { intros h'. assert (¬ below (data_parts ++ [x]) p) as Hb by (intros Hx; by eapply below_other in Hx).
    cbn [files dirs remove_tree]. split; [|rewrite elem_of_filter; tauto].
    destruct (files (fs h') !! p) as [v|] eqn:E; [by apply map_lookup_filter_Some|].
    apply map_lookup_filter_None. by left. }
  unfold call. destruct (outcomes h) as [|[e|] o]; cbn [snd]; [apply (Hr h)|done|apply (Hr (set_outcomes h o))].
Qed.

Lemma delete_all_data ids vm_id : ∀ h, vm_id ∉ ids → same_data vm_id h (delete_all ids h).
Proof.
  induction ids as [|x ids IH]; intros h Hn; cbn [delete_all]; [done|]. apply not_elem_of_cons in Hn as [Hne Hn].
  destruct (delete_subvolume_data x vm_id h ltac:(done)) as [Ei Ef].
  destruct (IH (delete_subvolume x h).2 Hn) as [Ei' Ef']. split; [congruence|]. intros p Hp.
  destruct (Ef p Hp) as [E1 E2], (Ef' p Hp) as [E3 E4]. split; [congruence|tauto].
Qed.
Lemma delete_all_keeps ids : ∀ h, state_dir (fs h) → same_states (fs h) (fs (delete_all ids h)).
Proof.
  induction ids as [|x ids IH]; intros h Hs; cbn [delete_all]; [by apply same_states_refl|].
  pose proof (keeps_delete_subvolume x h Hs) as Hk. eapply same_states_trans; [exact Hk|]. apply IH, Hk.
Qed.

Section recover.
Context `{VmJsonLaws} `{IoText} `{JsonText} `{Sha256} (arch : Arch).
Context (usage : Host → ustring → option DiskUsage).

Lemma inv_host_ok w : Inv w → host_ok (fs (host w)).
Proof.
  intros Hw. split; [apply Hw|]. intros n Hn. destruct (inv_files w Hw n Hn) as (id & -> & [e He]).
  destruct (inv_entry w Hw id e He) as (Hu & _ & p & Hst & [(e' & -> & Hset) _ _ _]). by exists id, e'.
Qed.

Lemma new_vms h bridge kvm auto vm_id :
  vms (actor (new h bridge kvm auto)) !! vm_id = recovered <$> load_vms (fs h) !! vm_id.
Proof.
  unfold new. rewrite load_persisted_foldl.
  pose proof (recover_foldl auto (sorted_by_id (load_vms (fs h))) ∅ []) as Hf.
  destruct (foldl _ _ _) as [m q]. destruct Hf as [_ Hm]. cbn [actor vms].
  rewrite Hm by apply sorted_by_id_nodup. rewrite <-(find_by_id (load_vms (fs h)) vm_id).
  by destruct (list_find _ _) as [[j r]|].
Qed.

Lemma new_host h bridge kvm auto :
  ∃ ids, host (new h bridge kvm auto) = delete_all ids h ∧
    ∀ vm_id, vm_id ∈ ids → load_vms (fs h) !! vm_id = None.
Proof.
  pose proof (new_vms h bridge kvm auto) as Hv. unfold new in *.
  destruct (load_persisted_state (fs h) auto) as [m q]. cbn [actor vms host] in *.
  eexists. split; [reflexivity|]. intros vm_id Hin. apply list_elem_of_filter in Hin as [Hn _].
  rewrite Hv in Hn. by destruct (load_vms (fs h) !! vm_id).
Qed.

Lemma new_pending h bridge kvm auto :
  pending_restarts (actor (new h bridge kvm auto)) =
    (filter (λ r, auto && was_running r.2 = true) (sorted_by_id (load_vms (fs h)))).*1.
Proof.
  unfold new. rewrite load_persisted_foldl.
  pose proof (recover_foldl auto (sorted_by_id (load_vms (fs h))) ∅ []) as Hf.
  destruct (foldl _ _ _) as [m q]. by destruct Hf as [-> _].
Qed.

(** What a record of a settled entry comes back as. *)
Lemma recovered_spec e :
  settled (state e) →
  let e' := recovered (to_persisted e) in
  config e' = config e ∧ created_at e' = created_at e ∧ pid e' = None ∧
  state e' = (if decide (state e = StRunning) then StStopped else state e) ∧
  matches e' (to_persisted e).
Proof.
  intros Hs. unfold recovered, was_running. cbn [p_state to_persisted]. rewrite state_code_roundtrip.
  assert (default StStopped (state_try_from (state_code (state e))) = state e) as Hst by by rewrite state_code_roundtrip.
  case_bool_decide as Hr.
  - assert (state e = StRunning) as Er by congruence. rewrite decide_True by done.
    split_and!; [done..|]. constructor; [by exists e|done|done|]. intros _. right. split; [done|].
    cbn [p_state to_persisted]. by rewrite Er.
  - rewrite decide_False by congruence. cbn [config created_at pid state from_persisted p_config p_state to_persisted].
    rewrite Hst. split_and!; [done..|]. constructor; [by exists e|done|done|]. intros _. left.
    unfold to_persisted, from_persisted. cbn [p_tap p_mac config state tap_device created_at started_at p_config
      p_state p_created_at p_started_at]. rewrite Hst. by destruct (tap_device e) as [[]|].
Qed.

Lemma new_inv h bridge kvm auto : host_ok (fs h) → Inv (new h bridge kvm auto).
Proof.
  intros Hok. pose proof Hok as [Hs Hf]. destruct (new_host h bridge kvm auto) as (ids & Hh & _).
  pose proof (delete_all_keeps ids h Hs) as Hk. rewrite <-Hh in Hk. constructor.
  - apply Hk.
  - intros id e Hl. rewrite new_vms in Hl. destruct (load_vms (fs h) !! id) as [p|] eqn:Ep; [|done].
    injection Hl as <-. apply load_vms_lookup in Ep as [Hu Hst]; [|done].
    pose proof Hst as (s & t & Efile & _).
    destruct (Hf (json_name id)) as (id' & e & Ej & _ & Hst' & Hset); [by rewrite Efile|].
    apply json_name_inj in Ej as <-. rewrite (stored_fun _ _ _ _ Hst Hst') in *.
    destruct (recovered_spec e Hset) as (_ & _ & _ & Est & Hm). split_and!; [done| |].
    + assert (state (recovered (to_persisted e)) ≠ StRunning ∧ settled (state (recovered (to_persisted e)))) as [Hn Hse].
      { rewrite Est. case_decide; [split; [done|right; by right]|done]. }
      constructor; [by left|done].
    + exists (to_persisted e). split; [by eapply stored_same|done].
  - intros n. rewrite (ss_files _ _ Hk). intros Hn. destruct (Hf n Hn) as (id & e & -> & Hu & Hst & _).
    exists id. split; [done|]. rewrite new_vms.
    assert (load_vms (fs h) !! id = Some (to_persisted e)) as -> by by apply load_vms_lookup. by eexists.
Qed.


(** C12: A daemon that is started where another stopped finds the same machines with
    their configurations, none with a process. The machines to restart, if the
    daemon is so configured, are those whose state file says running, in the order
    of their identifiers. A machine that ran is one of them and is found stopped;
    another is one only when its file is older than its state, as while it is
    stopped, or after an earlier restart. A settled machine that did not run keeps
    its state, and the disk image and directory of every machine are left alone. *)
Theorem restart_recovers w bridge kvm auto :
  Inv w →
  let w' := new (host w) bridge kvm auto in
  Inv w' ∧ dom (vms (actor w')) = dom (vms (actor w)) ∧
  (∀ vm_id e, vms (actor w) !! vm_id = Some e →
     same_data vm_id (host w) (host w') ∧
     ∃ e' p, vms (actor w') !! vm_id = Some e' ∧ stored (fs (host w)) vm_id p ∧
       config e' = config e ∧ created_at e' = created_at e ∧ pid e' = None ∧
       (vm_id ∈ pending_restarts (actor w') ↔ auto = true ∧ p_state p = state_code StRunning) ∧
       (state e = StRunning → p_state p = state_code StRunning) ∧
       (settled (state e) → state e' = if decide (state e = StRunning) then StStopped else state e)) ∧
  StronglySorted (λ a b, lex_leb (utf8 a) (utf8 b) = true) (pending_restarts (actor w')).
Proof.
  intros Hw w'. pose proof (inv_host_ok w Hw) as Hok. split; [by apply new_inv|].
  assert (∀ id e, vms (actor w) !! id = Some e → ∃ p, load_vms (fs (host w)) !! id = Some p ∧
    stored (fs (host w)) id p ∧ matches e p) as Hload.
  { intros id e He. destruct (inv_entry w Hw id e He) as (Hu & _ & p & Hst & Hm). exists p.
    split_and!; [by apply load_vms_lookup|done..]. }
  split_and!.
  - apply set_eq. intros id. rewrite !elem_of_dom. unfold w'. rewrite new_vms, fmap_is_Some. split.
    + intros [p Hp]. apply load_vms_lookup in Hp as [_ (s & t & E & _)]; [|done].
      destruct (inv_files w Hw (json_name id)) as (id' & Ej & Hi); [by rewrite E|].
      by apply json_name_inj in Ej as <-.
    + intros [e He]. destruct (Hload id e He) as (p & -> & _). by eexists.
  - intros id e He. destruct (Hload id e He) as (p & Hp & Hst & [(e0 & -> & Hset) Hc Hcr Hs]). split.
    { destruct (new_host (host w) bridge kvm auto) as (ids & Hh & Hids). unfold w'. rewrite Hh.
      apply delete_all_data. intros Hin. apply Hids in Hin. congruence. }
    destruct (recovered_spec e0 Hset) as (R1 & R2 & R3 & R4 & _).
    exists (recovered (to_persisted e0)), (to_persisted e0). split_and!.
    + unfold w'. by rewrite new_vms, Hp.
    + done.
    + by rewrite R1.
    + by rewrite R2.
    + done.
    + unfold w'. rewrite new_pending, list_elem_of_fmap. split.
      * intros ([id' p'] & -> & Hin). apply list_elem_of_filter in Hin as [Hf Hin]. cbn [snd fst] in *.
        apply sorted_by_id_elem in Hin. cbn [fst snd] in Hin. rewrite Hp in Hin. injection Hin as <-.
        apply andb_true_iff in Hf as [-> Hf]. split; [done|]. unfold was_running in Hf.
        apply bool_decide_eq_true in Hf. cbn [p_state to_persisted] in *. rewrite state_code_roundtrip in Hf.
        by injection Hf as ->.
      * intros [-> Er]. exists (id, to_persisted e0). split; [done|]. apply list_elem_of_filter. cbn [snd andb].
        split; [|by apply sorted_by_id_elem]. unfold was_running. apply bool_decide_eq_true. by rewrite Er.
    + intros Er. destruct Hs as [E|[E _]]; [unfold settled; tauto| |congruence].
      rewrite E. cbn [p_state to_persisted]. by rewrite Er.
    + intros Hse. rewrite R4. destruct (Hs Hse) as [E|[E1 E2]].
      * assert (state e0 = state e) as ->; [|done].
        apply (f_equal p_state) in E. cbn [p_state to_persisted] in E. apply (f_equal state_try_from) in E.
        rewrite !state_code_roundtrip in E. by injection E.
      * cbn [p_state to_persisted] in E2. apply (f_equal state_try_from) in E2. rewrite !state_code_roundtrip in E2.
        injection E2 as E2. rewrite E1, E2. rewrite decide_True by done. by rewrite decide_False.
  - unfold w'. rewrite new_pending. apply sorted_ids.
Qed.
End recover.

(** ** What a command leaves *)

Section effects.
Context `{VmJsonLaws} `{IoText} `{JsonText} `{Sha256} (arch : Arch).

Lemma signals_remove_tap t h : signals (remove_tap_device t h).2 = signals h.
Proof.
  unfold remove_tap_device. case_bool_decide; [|done]. unfold call. by destruct (outcomes h) as [|[e|] o].
Qed.

Lemma hypervisor_stop_ok hv p force h h' :
  hypervisor_stop hv p force h = (Ok tt, h') →
  signals h' = signals h ++ [(p, if force then SIGKILL else SIGTERM)] ∧ fs h' = fs h.
Proof.
  unfold hypervisor_stop. repeat (case_bool_decide; [|done]). unfold call.
  destruct (outcomes h) as [|[e|] o]; [|done|]; by intros [= <-].
Qed.

(** A successful stop signals the process of a machine that ran. *)
Lemma stop_effect w vm_id force w' :
  Inv w → handle_stop vm_id force w = (Ok tt, w') →
  ∃ e p, vms (actor w) !! vm_id = Some e ∧ state e = StRunning ∧ pid e = Some p ∧
    signals (host w') = signals (host w) ++ [(p, if force then SIGKILL else SIGTERM)] ∧
    vms (actor w') !! vm_id = Some (stopped e).
Proof.
  intros Hw E. unfold handle_stop, mbind, io_bind, get_entry in E.
  destruct (vms (actor w) !! vm_id) as [e|] eqn:He; [|done]. cbn [ok_or] in E.
  destruct (bool_decide (state e = StRunning)) eqn:Hr; [|done]. apply bool_decide_eq_true in Hr. cbn [negb] in E.
  destruct (inv_entry w Hw vm_id e He) as (Hu & [_ Ho] & _). destruct (Ho Hr) as [(p & Hp) Ht].
  rewrite Hp in E. unfold update at 1, modify in E. unfold on_host in E. cbn [host set_vms] in E.
  destruct (hypervisor_stop _ p force (host w)) as [[[]|err|] h1] eqn:Es; [|done..].
  apply hypervisor_stop_ok in Es as [Hsig Hfs].
  set (w1 := set_host (set_vms w (alter (with_state StStopping) vm_id (vms (actor w)))) h1) in *.
  assert (Inv w1) as Hw1.
  { apply inv_set_host; [by apply (inv_unsettled vm_id _ w e); auto|]. cbn [host set_vms]. rewrite Hfs.
    apply same_states_refl, Hw. }
  assert (vms (actor w1) !! vm_id = Some (with_state StStopping e)) as He1.
  { cbn [w1 actor set_host set_vms vms]. by rewrite lookup_alter_eq, He. }
  destruct (settle vm_id stopped w1 _ Hw1 He1) as (w2 & Es & _ & Hv & _ & _ & Hh & _);
    [constructor; [left; right; by right|done]|right; by right|].
  unfold mbind, io_bind in Es. destruct (update vm_id stopped w1) as [[[]|?|] w3]; [|done..]. rewrite Es in E.
  rewrite Ht in E. unfold remove_tap, logged in E.
  pose proof (signals_remove_tap (tap_dev (tap_of vm_id)) (host w2)) as Hs2.
  destruct (remove_tap_device _ (host w2)) as [r h2]. cbn [snd] in Hs2.
  assert (w' = set_host w2 h2) as -> by (destruct r; congruence).
  exists e, p. split_and!; [done..| |]; cbn [host actor set_host].
  - rewrite Hs2, Hh. exact Hsig.
  - by rewrite Hv, lookup_insert_eq.
Qed.

(** C25: Successful commands, on a host whose state files can be read, written and
    removed: a start leaves a running machine with a live process, its device and
    its file; a stop signalled the process of a running machine and leaves it
    stopped; a machine that is deleted did not run, and neither its entry nor its
    file is left (a removal that fails would be logged only, see
    [delete_keeps_file]). *)
Theorem command_effects w vm_id :
  Inv w →
  (∀ w', handle_start arch vm_id w = (Ok tt, w') → started vm_id w') ∧
  (∀ force w', handle_stop vm_id force w = (Ok tt, w') →
     ∃ e p, vms (actor w) !! vm_id = Some e ∧ state e = StRunning ∧ pid e = Some p ∧
       signals (host w') = signals (host w) ++ [(p, if force then SIGKILL else SIGTERM)] ∧
       vms (actor w') !! vm_id = Some (stopped e)) ∧
  (∀ w', handle_delete vm_id w = (Ok tt, w') →
     (∃ e, vms (actor w) !! vm_id = Some e ∧ state e ≠ StRunning) ∧ vms (actor w') !! vm_id = None ∧
     files (fs (host w')) !! (vms_parts ++ [json_name vm_id]) = None).
Proof.
  intros Hw. split_and!.
  - intros w' E. pose proof (spec_handle_start arch vm_id w Hw) as Hs. by rewrite E in Hs.
  - intros force w'. by apply stop_effect.
  - intros w' E. pose proof (spec_handle_delete vm_id w Hw) as Hs. rewrite E in Hs. destruct Hs as [Hw' Hn].
    split_and!; [|done|].
    + unfold handle_delete, mbind, io_bind, get_entry in E. destruct (vms (actor w) !! vm_id) as [e|]; [|done].
      cbn [ok_or] in E. destruct (bool_decide (state e = StRunning)) eqn:Hr; [done|]. exists e. split; [done|].
      by apply bool_decide_eq_false in Hr.
    + destruct (files (fs (host w')) !! _) as [v|] eqn:Ef; [|done].
      destruct (inv_files w' Hw' (json_name vm_id)) as (id' & Ej & [e He]); [by rewrite Ef|].
      apply json_name_inj in Ej as <-. congruence.
Qed.
End effects.

(** ** Commands touch one machine *)

(** The machine whose entry and file a command may change. *)
Definition target (cmd : VmCommand) : option ustring :=
  match cmd with
  | Create vm_id _ | Start vm_id | Stop vm_id _ | Delete vm_id => Some vm_id
  | _ => None
  end.

Section isolated.
Context `{VmJsonLaws} `{IoText} `{JsonText} `{Sha256} (arch : Arch).
Context (usage : Host → ustring → option DiskUsage).
Context (w0 : World) (vm_id : ustring) (Hu : is_uuid vm_id).

Definition frame (w : World) : Prop :=
  state_dir (fs (host w)) ∧ (∀ id, id ≠ vm_id → vms (actor w) !! id = vms (actor w0) !! id) ∧
  ∀ n, n ≠ json_name vm_id → files (fs (host w)) !! (vms_parts ++ [n]) = files (fs (host w0)) !! (vms_parts ++ [n]).
Definition framed {A} (m : io World A) : Prop := spec frame frame m (λ _, frame).

Lemma frame_set_host w h : frame w → same_states (fs (host w)) (fs h) → frame (set_host w h).
Proof.
  intros (Hd & Hv & Hf) [Hd' Hs]. split_and!; [done|done|]. intros n Hn. cbn [host set_host]. by rewrite Hs, Hf.
Qed.

Lemma framed_bind {A B} (m : io World A) (f : A → io World B) :
  framed m → (∀ a, framed (f a)) → framed (m ≫= f).
Proof. intros Hm Hf. by eapply spec_bind. Qed.
Lemma framed_ret {A} (a : A) : framed (mret a).
Proof. by apply spec_ret. Qed.
Lemma framed_bail {A} e : framed (bail e : io World A).
Proof. by apply spec_bail. Qed.
Lemma framed_give {A} (r : res ustring A) : framed (give r).
Proof. apply spec_give; auto. Qed.
Lemma framed_gets {A} (f : World → A) : framed (gets f).
Proof. by apply spec_gets. Qed.
Lemma framed_entry id : framed (get_entry id).
Proof. apply spec_get_entry; auto. Qed.
Lemma framed_host {A} (m : io Host A) : keeps m → framed (on_host m).
Proof. intros Hk. apply spec_host; [done|by intros w (? & _)|intros w h; apply frame_set_host|intros a w h; apply frame_set_host]. Qed.
Lemma framed_logged (m : io Host unit) : keeps m → framed (logged m).
Proof. intros Hk. apply spec_logged; [done|by intros w (? & _)|intros w h; apply frame_set_host|intros w h; apply frame_set_host]. Qed.
Lemma framed_attempt {A} (m : io Host A) : keeps m → framed (attempt m).
Proof.
  intros Hk. apply spec_attempt; [done|by intros w (? & _)|intros w h; apply frame_set_host|].
  intros a w h Hw _. by apply frame_set_host.
Qed.
Lemma framed_modify f : (∀ m id, id ≠ vm_id → f m !! id = m !! id) → framed (modify f).
Proof.
  intros Hf. apply spec_modify. intros w (Hd & Hv & Hs). split_and!; [done| |done]. intros id Hne.
  cbn [actor set_vms vms]. by rewrite Hf, Hv.
Qed.
Lemma framed_update f : framed (update vm_id f).
Proof. apply framed_modify. intros m id Hne. by rewrite lookup_alter_ne. Qed.
Lemma framed_save_vm p : framed (on_host (save_vm vm_id p)).
Proof.
  intros w (Hd & Hv & Hf). unfold on_host.
  destruct (save_vm_ok vm_id p (host w) Hd Hu) as (f' & -> & Hd' & _ & Hf').
  split_and!; [done|done|]. intros n Hn. cbn [host set_host fs set_fs]. by rewrite Hf', Hf.
Qed.
Lemma framed_save : framed (save vm_id).
Proof. apply framed_bind; [apply framed_entry|intros e; apply framed_save_vm]. Qed.
Lemma framed_delete_vm : framed (logged (delete_vm vm_id)).
Proof.
  intros w (Hd & Hv & Hf). unfold logged.
  destruct (delete_vm_ok vm_id (host w) Hd Hu) as (f' & -> & Hd' & _ & Hf').
  split_and!; [done|done|]. intros n Hn. cbn [host set_host fs set_fs]. by rewrite Hf', Hf.
Qed.

(** Steps of a command, one after the other. *)
Ltac framed_step :=
  match goal with
  | |- framed (_ ≫= _) => apply framed_bind; [|intros ?]
  | |- framed (mret _) => apply framed_ret
  | |- framed (bail _) => apply framed_bail
  | |- framed (give _) => apply framed_give
  | |- framed (gets _) => apply framed_gets
  | |- framed (get_entry _) => apply framed_entry
  | |- framed (update vm_id _) => apply framed_update
  | |- framed (save vm_id) => apply framed_save
  | |- framed (on_host (save_vm vm_id _)) => apply framed_save_vm
  | |- framed (logged (delete_vm vm_id)) => apply framed_delete_vm
  | |- framed (on_host _) => apply framed_host
  | |- framed (logged _) => apply framed_logged
  | |- framed (attempt _) => apply framed_attempt
  | |- framed (resolve_boot_asset _ _) => apply spec_asset; auto
  | |- framed (resolve_disks _ _ _) => apply spec_disks; auto
  | |- framed (if ?b then _ else _) => destruct b
  | |- framed (match ?b with _ => _ end) => destruct b
  | |- keeps _ => auto using keeps_setup, keeps_remove_tap, keeps_stop, keeps_delete_subvolume,
                    keeps_create_subvolume, keeps_create_raw, keeps_call_id
  end.

Lemma framed_start : framed (handle_start arch vm_id).
Proof.
  unfold handle_start, cleanup_tap_on_err, remove_tap. repeat framed_step.
  apply keeps_start. by eapply uuid_not_in; [|left].
Qed.
Lemma framed_stop force : framed (handle_stop vm_id force).
Proof. unfold handle_stop, remove_tap. repeat framed_step. Qed.
Lemma framed_delete : framed (handle_delete vm_id).
Proof.
  unfold handle_delete. repeat framed_step. apply framed_modify. intros m id Hne. by rewrite lookup_delete_ne.
Qed.
Lemma framed_create c : framed (handle_create vm_id c).
Proof.
  unfold handle_create. repeat framed_step. apply framed_modify. intros m id Hne. by rewrite lookup_insert_ne.
Qed.
End isolated.

Section isolation.
Context `{VmJsonLaws} `{IoText} `{JsonText} `{Sha256} (arch : Arch).
Context (usage : Host → ustring → option DiskUsage).

Lemma framed_reply {A} (f : res ustring A → Reply) (m : io World A) w vm_id :
  Inv w → framed w vm_id m → frame w vm_id (reply f m w).2.
Proof.
  intros Hw Hm. assert (frame w vm_id w) as Hf by (split_and!; [apply Hw|done..]).
  specialize (Hm w Hf). unfold reply. by destruct (m w) as [[a|e|] w'].
Qed.

(** A machine that does not exist is not found. *)
Lemma missing_machine w vm_id :
  vms (actor w) !! vm_id = None →
  (handle_start arch vm_id w).2 = w ∧ (∀ force, (handle_stop vm_id force w).2 = w) ∧ (handle_delete vm_id w).2 = w.
Proof.
  intros He. unfold handle_start, handle_stop, handle_delete, mbind, io_bind, gets, get_entry. rewrite He.
  split_and!; try done. destruct (kvm_available (actor w)); [by rewrite He|done].
Qed.

Lemma reply_world {A} (f : res ustring A → Reply) (m : io World A) w : (reply f m w).2 = (m w).2.
Proof. unfold reply. by destruct (m w). Qed.

(** C26: On a host whose state files can be read, written and removed: a command
    changes the entry and the state file of no machine but the one it names, and
    reading and uploading change none, when a machine is created with a UUID and an
    upload names a machine without a slash (one with a slash may replace any file,
    see [upload_replaces_users]). *)
Theorem commands_isolated w cmd :
  Inv w → good_command cmd →
  ∀ vm_id, target cmd ≠ Some vm_id →
    vms (actor (dispatch arch usage cmd w).2) !! vm_id = vms (actor w) !! vm_id ∧
    files (fs (host (dispatch arch usage cmd w).2)) !! (vms_parts ++ [json_name vm_id])
      = files (fs (host w)) !! (vms_parts ++ [json_name vm_id]).
Proof.
  intros Hw Hg vm_id Ht.
  assert (∀ id w', frame w id w' → id ≠ vm_id → vms (actor w') !! vm_id = vms (actor w) !! vm_id ∧
    files (fs (host w')) !! (vms_parts ++ [json_name vm_id]) = files (fs (host w)) !! (vms_parts ++ [json_name vm_id])) as Hfr.
  { intros id w' (_ & Hv & Hf) Hne. split; [by apply Hv|]. apply Hf. intros E. by apply json_name_inj in E. }
  assert (∀ id, is_uuid id ∨ vms (actor w) !! id = None) as Hid.
  { intros id. destruct (vms (actor w) !! id) as [e|] eqn:He; [left|by right]. by apply (inv_entry w Hw) in He as (? & _). }
  destruct cmd as [id c|id|id force|id|id| |filename data id|id n]; cbn [dispatch good_command target] in *.
  - apply (Hfr id); [|congruence]. apply framed_reply; [done|]. by apply framed_create.
  - destruct (Hid id) as [Hu|Hn].
    + apply (Hfr id); [|congruence]. apply framed_reply; [done|]. by apply framed_start.
    + rewrite reply_world. destruct (missing_machine w id Hn) as (-> & _). done.
  - destruct (Hid id) as [Hu|Hn].
    + apply (Hfr id); [|congruence]. apply framed_reply; [done|]. by apply framed_stop.
    + rewrite reply_world. destruct (missing_machine w id Hn) as (_ & -> & _). done.
  - destruct (Hid id) as [Hu|Hn].
    + apply (Hfr id); [|congruence]. apply framed_reply; [done|]. by apply framed_delete.
    + rewrite reply_world. destruct (missing_machine w id Hn) as (_ & _ & ->). done.
  - rewrite reply_world. unfold handle_get, mbind, io_bind, get_entry, gets. by destruct (vms (actor w) !! id).
  - done.
  - rewrite reply_world. unfold handle_upload_file. destruct id as [i|]; [|done].
    unfold mbind, io_bind, gets. destruct (exists_ _ _); [|done]. unfold on_host.
    pose proof (keeps_upload filename data i Hg (host w) (inv_dir w Hw)) as Hk.
    destruct (file_op _ (host w)) as [[[]|e|] h]; cbn [snd actor host set_host vms] in *;
      (split; [done|]; by rewrite (ss_files _ _ Hk)).
  - rewrite reply_world. unfold handle_get_serial_log, mbind, io_bind, get_entry, gets, give.
    destruct (vms (actor w) !! id); [|done]. cbn [ok_or]. destruct (exists_ _ _); [|done].
    destruct (map_err _ _); [|done..]. by destruct (0 <? n).
Qed.
End isolation.

(** ** Concrete runs *)

Module Demo.
#[local] Instance DiskConfig_dec : EqDecision DiskConfig.
Proof. solve_decision. Defined.
#[local] Instance DiskConfig_countable : Countable DiskConfig.
Proof.
  refine (inj_countable' (λ d, (disk_path d, readonly d)) (λ '(a, b), {| disk_path := a; readonly := b |}) _).
  by intros [].
Defined.
#[local] Instance VmConfig_dec : EqDecision VmConfig.
Proof. solve_decision. Defined.
#[local] Instance VmConfig_countable : Countable VmConfig.
Proof.
  refine (inj_countable'
    (λ c, ((name c, vm_cpus c, vm_memory_mb c, vm_kernel c), (vm_initrd c, vm_cmdline c, vm_disks c),
           (hypervisor c, root_disk_size_mb c)))
    (λ '((a, b, c, d), (e, f, g), (h, i)),
       {| name := a; vm_cpus := b; vm_memory_mb := c; vm_kernel := d; vm_initrd := e; vm_cmdline := f;
          vm_disks := g; hypervisor := h; root_disk_size_mb := i |}) _).
  by intros [].
Defined.
#[local] Instance VmPersisted_dec : EqDecision VmPersisted.
Proof. solve_decision. Defined.
#[local] Instance VmPersisted_countable : Countable VmPersisted.
Proof.
  refine (inj_countable'
    (λ p, (p_config p, p_state p, p_created_at p, (p_started_at p, p_tap p, p_mac p)))
    (λ '(a, b, c, (d, e, f)),
       {| p_config := a; p_state := b; p_created_at := c; p_started_at := d; p_tap := e; p_mac := f |}) _).
  by intros [].
Defined.

(** A codec that writes the binary digits of a code of the record. *)
Fixpoint digits (p : positive) : ustring :=
  match p with xH => [50] | xO p => 48 :: digits p | xI p => 49 :: digits p end.
Fixpoint undigits (s : ustring) : option positive :=
  match s with
  | [] => None
  | c :: s => if c =? 50 then Some xH else p ← undigits s; Some (if c =? 48 then xO p else xI p)
  end.
Lemma undigits_digits p : undigits (digits p) = Some p.
Proof. induction p as [p IH|p IH|]; cbn [digits undigits]; [by rewrite IH..|done]. Qed.
Lemma digits_text p : is_ustring (digits p).
Proof. induction p; cbn [digits]; constructor; auto; unfold is_char; lia. Qed.

#[local] Instance demo_json : VmJson := {|
  vm_to_json p := Ok (digits (countable.encode p));
  vm_from_json s := ok_or (undigits s ≫= countable.decode) [] |}.
#[local] Instance demo_json_laws : VmJsonLaws.
Proof.
  split. intros p. exists (digits (countable.encode p)). split_and!; [done|apply digits_text|].
  cbn [vm_from_json demo_json]. rewrite undigits_digits. cbn [mbind option_bind]. by rewrite countable.decode_encode.
Qed.
#[local] Instance demo_io : IoText := λ _, [].
#[local] Instance demo_text : JsonText := λ _, Ok [].
#[local] Instance demo_sha : Sha256 := λ _, replicate 32 7.
Definition demo_usage (h : Host) (id : ustring) : option DiskUsage := None.

Definition id1 : ustring := ustr "00000000-0000-4000-8000-000000000001".
Definition cfg : VmConfig :=
  {| name := ustr "vm"; vm_cpus := 1; vm_memory_mb := 64; vm_kernel := []; vm_initrd := []; vm_cmdline := [];
     vm_disks := []; hypervisor := 3; root_disk_size_mb := 0 |}.
Definition dir (l : list string) : list ustring := ustr <$> l.
Definition host0 : Host :=
  {| fs := {| files := {[dir ["run"; "state"; "auth.toml"] := {| bytes := []; mtime := 1 |}]};
              dirs := {[dir ["run"]; dir ["run"; "data"]; dir ["run"; "state"];
                        dir ["run"; "state"; "workloadd"]; vms_parts]};
              clock := 1; read_error := ∅; write_error := ∅ |};
     images := ∅; taps := ∅; procs := ∅; signals := []; time := 100; outcomes := [] |}.

Definition run (cmd : VmCommand) (w : World) : World := (dispatch X86_64 demo_usage cmd w).2.
Definition start_daemon (auto : bool) (h : Host) : World := new h (ustr "br0") true auto.
Definition world0 : World := start_daemon true host0.
Definition world1 : World := run (Create id1 cfg) world0.
Definition world2 : World := run (UploadFile (ustr "kernel") [1; 2; 3] (Some id1)) world1.
Definition world3 : World := run (Start id1) world2.

Definition state_of (w : World) : option VmState := state <$> vms (actor w) !! id1.

Example states :
  (state_of world1, state_of world2, state_of world3) = (Some StCreated, Some StCreated, Some StRunning).
Proof. vm_compute. reflexivity. Qed.

Lemma id1_uuid : is_uuid id1.
Proof. split; [reflexivity|]. unfold id1. cbn. repeat (apply Forall_cons_2; [lia|]). apply Forall_nil_2. Qed.

Lemma host0_ok : host_ok (fs host0).
Proof.
  split; [constructor|].
  - intros k Hk. cbn [dirs fs host0]. destruct k as [|[|[|[|[|k]]]]]; try lia; set_solver.
  - intros n. cbn [dirs fs host0]. rewrite !not_elem_of_union, !not_elem_of_singleton.
    split_and!; intros E; discriminate E.
  - intros n. apply lookup_empty.
  - intros n. apply lookup_empty.
  - intros n [v Hv]. cbn [files fs host0] in Hv. apply lookup_singleton_Some in Hv as [E _]. discriminate E.
Qed.

Lemma run_step cmd w : good_command cmd → step X86_64 demo_usage w (run cmd w).
Proof. apply step_command. Qed.
Lemma upload_plain : good_command (UploadFile (ustr "kernel") [1; 2; 3] (Some id1)).
Proof. apply (uuid_not_in id1 SLASH id1_uuid). by left. Qed.

Lemma run_steps : rtc (step X86_64 demo_usage) (process_pending_restarts X86_64 world0) world3.
Proof.
  assert (process_pending_restarts X86_64 world0 = world0) as -> by reflexivity.
  apply (rtc_l _ _ world1); [exact (run_step (Create id1 cfg) world0 id1_uuid)|].
  apply (rtc_l _ _ world2); [exact (run_step _ world1 upload_plain)|].
  apply rtc_once. exact (run_step (Start id1) world2 I).
Qed.

Lemma world3_inv : Inv world3.
Proof. apply (steps_inv X86_64 demo_usage _ _ run_steps), pending_inv, new_inv, host0_ok. Qed.


Lemma restart_recovers_witness :
  let w' := new (host world3) (ustr "br0") true true in
  pending_restarts (actor w') = [id1] ∧ state_of w' = Some StStopped ∧
  dom (vms (actor w')) = dom (vms (actor world3)).
Proof.
  intros w'. split; [vm_compute; reflexivity|]. split; [vm_compute; reflexivity|].
  exact (proj1 (proj2 (restart_recovers world3 (ustr "br0") true true world3_inv))).
Defined.

Lemma run_result {A} (m : io World A) w r : (m w).1 = r → m w = (r, (m w).2).
Proof. intros <-. by destruct (m w). Qed.

Lemma command_effects_witness :
  handle_stop id1 true world3 = (Ok tt, (handle_stop id1 true world3).2) ∧
  ∃ e p, vms (actor world3) !! id1 = Some e ∧ state e = StRunning ∧ pid e = Some p ∧
    signals (host (handle_stop id1 true world3).2) = signals (host world3) ++ [(p, SIGKILL)] ∧
    vms (actor (handle_stop id1 true world3).2) !! id1 = Some (stopped e).
Proof.
  assert (handle_stop id1 true world3 = (Ok tt, (handle_stop id1 true world3).2)) as E.
  { refine (run_result (handle_stop id1 true) world3 _ _). vm_compute. reflexivity. }
  split; [exact E|].
  exact (proj1 (proj2 (command_effects X86_64 world3 id1 world3_inv)) true _ E).
Defined.

Definition id2 : ustring := ustr "00000000-0000-4000-8000-000000000002".
Lemma commands_isolated_witness :
  let w' := run (Create id2 cfg) world3 in
  is_Some (vms (actor w') !! id2) ∧ vms (actor w') !! id1 = vms (actor world3) !! id1.
Proof.
  intros w'. split; [apply (bool_decide_eq_true_1 _); vm_compute; reflexivity|].
  refine (proj1 (commands_isolated X86_64 demo_usage world3 (Create id2 cfg) world3_inv _ id1 _)).
  - split; [reflexivity|]. unfold id2. cbn. repeat (apply Forall_cons_2; [lia|]). apply Forall_nil_2.
  - discriminate.
Defined.

(** A machine that is asked to stop counts as stopped at once; started again, it
    has two processes on one disk. *)
Theorem two_processes_one_disk :
  let w := run (Start id1) (run (Stop id1 false) world3) in
  state_of w = Some StRunning ∧ length (map_to_list (procs (host w))) = 2%nat ∧
  map_Forall (λ _ p, argv p = argv (default {| binary := []; argv := [] |} (procs (host w) !! 1))) (procs (host w)).
Proof.
  intros w. split; [vm_compute; reflexivity|]. split; [vm_compute; reflexivity|].
  apply (bool_decide_eq_true_1 _). vm_compute. reflexivity.
Qed.

(** The process of a machine has ended: the daemon still lists it as running, it
    cannot be started, and a stop fails and leaves it stopping for good. *)
Theorem ended_machine_stuck :
  let w := set_host world3 (set_procs (host world3) ∅) in
  state_of w = Some StRunning ∧ state_of (run (Start id1) w) = Some StRunning ∧
  is_ok (handle_start X86_64 id1 w).1 = false ∧ is_ok (handle_stop id1 true w).1 = false ∧
  state_of (run (Stop id1 true) w) = Some StStopping ∧
  is_ok (handle_stop id1 true (run (Stop id1 true) w)).1 = false.
Proof. split_and!; vm_compute; reflexivity. Qed.

(** A start without a kernel fails and leaves the machine starting, with its
    device; a later delete leaves the device behind. *)
Theorem failed_start_leaks_device :
  let w := run (Start id1) world1 in
  is_ok (handle_start X86_64 id1 world1).1 = false ∧ state_of w = Some StStarting ∧
  elements (taps (host w)) = [tap_name_of id1] ∧ state_of (run (Delete id1) w) = None ∧
  elements (taps (host (run (Delete id1) w))) = [tap_name_of id1].
Proof. split_and!; vm_compute; reflexivity. Qed.

(** The machine of an upload is a path: the file of authorized users can be
    replaced through it. *)
Theorem upload_replaces_users :
  let r := handle_upload_file (ustr "auth.toml") [6; 6; 6] (Some (ustr "../state")) world0 in
  r.1 = Ok (ustr "/run/data/../state/auth.toml") ∧
  (bytes <$> files (fs (host r.2)) !! dir ["run"; "state"; "auth.toml"]) = Some [6; 6; 6].
Proof. split; vm_compute; reflexivity. Qed.

(** Without automatic restarts a machine that ran is listed as stopped, but its
    file still says running: a later daemon with automatic restarts starts it. *)
Theorem stopped_machine_restarts :
  let w := start_daemon false (host world3) in
  state_of w = Some StStopped ∧ pending_restarts (actor w) = [] ∧
  pending_restarts (actor (start_daemon true (host w))) = [id1].
Proof. split_and!; vm_compute; reflexivity. Qed.

(** A state file that cannot be removed: the delete is reported as done, and a
    later daemon finds the machine again. *)
Theorem delete_keeps_file :
  let f := fs (host world1) in
  let w := set_host world1 (set_fs (host world1)
    {| files := files f; dirs := dirs f; clock := clock f; read_error := read_error f;
       write_error := {[vms_parts ++ [json_name id1] := (OtherIo 5, 0%nat)]} |}) in
  (handle_delete id1 w).1 = Ok tt ∧ state_of (run (Delete id1) w) = None ∧
  state_of (start_daemon true (host (run (Delete id1) w))) = Some StCreated.
Proof. split_and!; vm_compute; reflexivity. Qed.
End Demo.
