(* ===== verification/Wizard.v ===== *)
(** The build pipeline of the image tool (toolchain/wizard/src/pipeline and the
    declarations of its nodes in toolchain/wizard/src/nodes): planning a graph of
    nodes and streams for the requested artifacts, and binding every end of every
    stream to a node.

    A node's work is not modelled; a pipe is a pair of ends with a number. *)

From stdpp Require Import gmap.
From S2P Require Import Prelude Utf.

(** ** Declarations of the nodes (nodes/, artifact.rs, pipeline/dependency.rs) *)

Inductive NodeKind :=
| InstallerPull | StubPull | KernelPull | LayerPayloads | InitramfsTail | Concat | Uki | Sign | Iso | Raw
| OverlayPull | OverlayTar.
#[global] Instance NodeKind_dec : EqDecision NodeKind.
Proof. solve_decision. Defined.
Definition ALL : list NodeKind :=
  [InstallerPull; StubPull; KernelPull; LayerPayloads; InitramfsTail; Concat; Uki; Sign; Iso; Raw; OverlayPull;
   OverlayTar].
#[global] Instance NodeKind_countable : Countable NodeKind.
Proof.
  refine (inj_countable (λ k, default 0%nat (fst <$> list_find (λ x, x = k) ALL)) (λ n, ALL !! n) _). by intros [].
Defined.

Inductive Artifact := AKernel | AInitramfs | ACmdline | AUki | AIso | ARaw | AOverlays.
#[global] Instance Artifact_dec : EqDecision Artifact.
Proof. solve_decision. Defined.
Definition to_index (a : Artifact) : nat :=
  match a with AKernel => 0 | AInitramfs => 1 | ACmdline => 2 | AUki => 3 | AIso => 4 | ARaw => 5 | AOverlays => 6 end.
Definition COUNT : nat := 7.

(** What planning reads of the build: whether there is an overlay, its assets,
    whether the image is signed, and the extensions. *)
Record BuildContext := {
  has_overlay : bool; overlay_assets : option nat; signing : bool; extensions : nat
}.
Definition payload_layer_count (ctx : BuildContext) : nat := extensions ctx + 1.

Record Dependency := { producer : NodeKind; producer_port : nat; consumer_port : nat }.
Definition dep (k : NodeKind) (p c : nat) : Dependency :=
  {| producer := k; producer_port := p; consumer_port := c |}.
(** [PortId::offset] for a run of ports. The saturating additions of the source are
    exact: their operands are below the length of a vector plus a small constant. *)
Definition dep_run (k : NodeKind) (first_p first_c n : nat) : list Dependency :=
  (λ i, dep k (first_p + i) (first_c + i)) <$> seq 0 n.

(** What each node declares; the pull nodes have no inputs. *)
Definition tail_dependencies (ctx : BuildContext) : list Dependency :=
  dep_run LayerPayloads 0 1 (payload_layer_count ctx).
Definition concat_dependencies : list Dependency := [dep InitramfsTail 0 0; dep InstallerPull 0 1].
Definition uki_dependencies : list Dependency :=
  [dep StubPull 0 0; dep KernelPull 0 2; dep KernelPull 1 1; dep Concat 2 3].
Definition sign_dependencies : list Dependency := [dep Uki 4 0].
Definition media_dependencies (ctx : BuildContext) : list Dependency :=
  (if signing ctx then dep Sign 1 0 else dep Uki 4 0)
  :: match overlay_assets ctx with Some n => dep_run OverlayPull 0 2 n | None => [] end.
Definition tar_dependencies (ctx : BuildContext) : list Dependency :=
  dep_run OverlayPull 0 1 (default 0%nat (overlay_assets ctx)).

Definition dependencies (ctx : BuildContext) (k : NodeKind) : list Dependency :=
  match k with
  | InstallerPull | StubPull | KernelPull | LayerPayloads | OverlayPull => []
  | InitramfsTail => tail_dependencies ctx
  | Concat => concat_dependencies
  | Uki => uki_dependencies
  | Sign => sign_dependencies
  | Iso | Raw => media_dependencies ctx
  | OverlayTar => tar_dependencies ctx
  end.

Definition kernel_produces : list (nat * Artifact) := [(0%nat, AKernel); (1%nat, ACmdline)].
Definition concat_produces : list (nat * Artifact) := [(2%nat, AInitramfs)].
Definition uki_produces (ctx : BuildContext) : list (nat * Artifact) := if signing ctx then [] else [(4%nat, AUki)].
Definition sign_produces (ctx : BuildContext) : list (nat * Artifact) := if signing ctx then [(1%nat, AUki)] else [].
Definition iso_produces : list (nat * Artifact) := [(1%nat, AIso)].
Definition raw_produces : list (nat * Artifact) := [(1%nat, ARaw)].
Definition tar_produces : list (nat * Artifact) := [(0%nat, AOverlays)].

Definition produces (ctx : BuildContext) (k : NodeKind) : list (nat * Artifact) :=
  match k with
  | KernelPull => kernel_produces
  | Concat => concat_produces
  | Uki => uki_produces ctx
  | Sign => sign_produces ctx
  | Iso => iso_produces
  | Raw => raw_produces
  | OverlayTar => tar_produces
  | _ => []
  end.

(** ** The graph (pipeline/node.rs, pipeline/graph.rs) *)

Record PortBinding := { port : nat; stream : nat }.
Record Node := { node_id : nat; kind : NodeKind; inputs : list PortBinding; outputs : list PortBinding }.
Record Stream := {
  stream_id : nat; stream_name : ustring; stream_size : Z; consumers : list nat; artifact : option Artifact
}.
Record Graph := { nodes : list Node; streams : list Stream }.

(** The texts of [WizardError::BuildError]. *)
Inductive BuildError :=
| MissingNode (id : nat) | MissingStream (id : nat) | DuplicateOutput (p n : nat) | DuplicateInput (p n : nat)
| Unnamed (id : nat) | Cycle (k : NodeKind) | MissingInstance (k : NodeKind) | NoOverlay
| SeveralProducers (a : Artifact) | NoProducer (a : Artifact) | NoInputPort (n p : nat) | NoOutputPort (n p : nat)
| EndpointUnavailable (id : nat) | UnconsumedInput | UnconsumedOutput (id : nat) | MissingWriter (a : Artifact)
| NoDestination (name : ustring) | MissingEndpoint (p : nat) | PortCountMismatch (taken expected : nat) | PipeFailed | OutOfFuel.

Definition new_graph : Graph := {| nodes := []; streams := [] |}.
Definition get_node (g : Graph) (id : nat) : res BuildError Node := ok_or (nodes g !! id) (MissingNode id).
Definition get_stream (g : Graph) (id : nat) : res BuildError Stream := ok_or (streams g !! id) (MissingStream id).
Definition set_node (g : Graph) (id : nat) (n : Node) : Graph :=
  {| nodes := <[id := n]> (nodes g); streams := streams g |}.
Definition set_stream (g : Graph) (id : nat) (s : Stream) : Graph :=
  {| nodes := nodes g; streams := <[id := s]> (streams g) |}.

Definition add_node (g : Graph) (k : NodeKind) : nat * Graph :=
  let id := length (nodes g) in
  (id, {| nodes := nodes g ++ [{| node_id := id; kind := k; inputs := []; outputs := [] |}]; streams := streams g |}).

Definition find_port (p : nat) (bs : list PortBinding) : option nat := stream <$> (snd <$> list_find (λ b, port b = p) bs).
Definition input (n : Node) (p : nat) : res BuildError nat := ok_or (find_port p (inputs n)) (NoInputPort (node_id n) p).
Definition output (n : Node) (p : nat) : res BuildError nat := ok_or (find_port p (outputs n)) (NoOutputPort (node_id n) p).

Definition new_stream (id : nat) : Stream :=
  {| stream_id := id; stream_name := []; stream_size := 0; consumers := []; artifact := None |}.

Definition add_output (g : Graph) (n p : nat) : res BuildError (nat * Graph) :=
  let id := length (streams g) in
  let g := {| nodes := nodes g; streams := streams g ++ [new_stream id] |} in
  node ← get_node g n;
  match find_port p (outputs node) with
  | Some _ => Err (DuplicateOutput p n)
  | None =>
      Ok (id, set_node g n {| node_id := node_id node; kind := kind node; inputs := inputs node;
                              outputs := outputs node ++ [{| port := p; stream := id |}] |})
  end.

Definition bind_input (g : Graph) (n p s : nat) : res BuildError Graph :=
  node ← get_node g n;
  match find_port p (inputs node) with
  | Some _ => Err (DuplicateInput p n)
  | None =>
      let g := set_node g n {| node_id := node_id node; kind := kind node;
                               inputs := inputs node ++ [{| port := p; stream := s |}]; outputs := outputs node |} in
      st ← get_stream g s;
      Ok (set_stream g s {| stream_id := stream_id st; stream_name := stream_name st; stream_size := stream_size st;
                            consumers := consumers st ++ [n]; artifact := artifact st |})
  end.

Definition assert_named (g : Graph) : res BuildError unit :=
  match list_find (λ s, stream_name s = []) (streams g) with
  | Some (_, s) => Err (Unnamed (stream_id s))
  | None => Ok tt
  end.

(** ** Planning (pipeline/plan.rs) *)

Inductive VisitState := InProgress | Done.
Record Planner := {
  graph : Graph; instances : gmap NodeKind nat; planned : gmap (NodeKind * nat) nat; states : gmap NodeKind VisitState
}.
Definition set_graph (p : Planner) (g : Graph) : Planner :=
  {| graph := g; instances := instances p; planned := planned p; states := states p |}.
Definition new_planner : Planner := {| graph := new_graph; instances := ∅; planned := ∅; states := ∅ |}.

Definition instance (p : Planner) (k : NodeKind) : res BuildError nat := ok_or (instances p !! k) (MissingInstance k).

Section plan.
Context (ctx : BuildContext).

(** The recursion ends at a kind that is in progress, so that one round per kind
    is enough fuel. *)
Fixpoint ensure (fuel : nat) (k : NodeKind) (p : Planner) : res BuildError (nat * Planner) :=
  match fuel with
  | O => Err OutOfFuel
  | S fuel =>
      match states p !! k with
      | Some Done => id ← instance p k; Ok (id, p)
      | Some InProgress => Err (Cycle k)
      | None =>
          let p := {| graph := graph p; instances := instances p; planned := planned p;
                      states := <[k := InProgress]> (states p) |} in
          p ← foldM (λ p d, '(_, p) ← ensure fuel (producer d) p; Ok p) p (dependencies ctx k);
          let '(id, g) := add_node (graph p) k in
          Ok (id, {| graph := g; instances := <[k := id]> (instances p); planned := planned p;
                     states := <[k := Done]> (states p) |})
      end
  end.
Definition fuel : nat := S (length ALL).

Definition output_stream (p : Planner) (k : NodeKind) (pt prod : nat) : res BuildError (nat * Planner) :=
  match planned p !! (k, pt) with
  | Some s => Ok (s, p)
  | None =>
      '(s, g) ← add_output (graph p) prod pt;
      Ok (s, {| graph := g; instances := instances p; planned := <[(k, pt) := s]> (planned p); states := states p |})
  end.

Definition request (p : Planner) (k : NodeKind) (pt : nat) (a : Artifact) : res BuildError Planner :=
  prod ← instance p k;
  '(s, p) ← output_stream p k pt prod;
  st ← get_stream (graph p) s;
  Ok (set_graph p (set_stream (graph p) s
        {| stream_id := stream_id st; stream_name := stream_name st; stream_size := stream_size st;
           consumers := consumers st; artifact := Some a |})).

Definition bind (p : Planner) (prod cons : nat) (d : Dependency) : res BuildError Planner :=
  '(s, p) ← output_stream p (producer d) (producer_port d) prod;
  g ← bind_input (graph p) cons (consumer_port d) s;
  Ok (set_graph p g).

Definition pending_bindings (g : Graph) : list (nat * Dependency) :=
  nodes g ≫= (λ n, (λ d, (node_id n, d)) <$> dependencies ctx (kind n)).

Definition bind_all (p : Planner) : res BuildError Planner :=
  foldM (λ p '(c, d), prod ← instance p (producer d); bind p prod c d) p (pending_bindings (graph p)).

(** Every declaration of the artifact, over all kinds. *)
Definition declarations (a : Artifact) : list (NodeKind * nat) :=
  ALL ≫= (λ k, (λ x, (k, x.1)) <$> filter (λ x, x.2 = a) (produces ctx k)).
Definition artifact_source (a : Artifact) : res BuildError (NodeKind * nat) :=
  match declarations a with
  | [] => Err (NoProducer a)
  | [s] => Ok s
  | _ => Err (SeveralProducers a)
  end.

Definition plan_artifact (p : Planner) (a : Artifact) : res BuildError Planner :=
  if bool_decide (a = AOverlays) && negb (has_overlay ctx) then Err NoOverlay
  else
    '(k, pt) ← artifact_source a;
    '(_, p) ← ensure fuel k p;
    request p k pt a.

Definition plan (artifacts : list Artifact) : res BuildError Graph :=
  p ← foldM plan_artifact new_planner artifacts;
  p ← bind_all p;
  Ok (graph p).
End plan.

(** ** Binding (pipeline/context.rs, pipeline/prepare.rs, pipeline/runtime.rs) *)

(** The writers of the user, one slot for each artifact; a writer is a number. *)
Definition new_writers (targets : list (Artifact * nat)) : list (option nat) :=
  foldl (λ slots '(a, w), <[to_index a := Some w]> slots) (replicate COUNT None) targets.
Definition take_writer (slots : list (option nat)) (a : Artifact) : option nat * list (option nat) :=
  match slots !! to_index a with
  | Some (Some w) => (Some w, <[to_index a := None]> slots)
  | _ => (None, slots)
  end.

(** The ends of pipes, numbered in the order of their creation. *)
Inductive OutputWriter := Pipe (id : nat) | Target (w : nat) | Fanout (sinks : list OutputWriter).
Record InputStream := { in_name : ustring; in_size : Z; reader : nat }.
Record OutputStream := { out_size : Z; writer : OutputWriter }.

Record PortTable := { table_inputs : list (list (option InputStream)); table_outputs : list (option OutputStream) }.
Record PreparedNode := {
  prepared_kind : NodeKind; in_ports : list (nat * InputStream); out_ports : list (nat * OutputStream)
}.

(** A pipe for each consumer, from the next free number. *)
Definition pipes (st : Stream) (next : nat) : list OutputWriter * list (option InputStream) :=
  (Pipe <$> seq next (length (consumers st)),
   (λ i, Some {| in_name := stream_name st; in_size := stream_size st; reader := i |})
     <$> seq next (length (consumers st))).
(** The system grants [granted] pipes; [Pipe::new] fails at the next one. *)
Definition make_pipes (granted : nat) (st : Stream) (next : nat)
    : res BuildError (list OutputWriter * list (option InputStream)) :=
  if (next + length (consumers st) <=? granted)%nat then Ok (pipes st next) else Err PipeFailed.

Definition join_sinks (st : Stream) (sinks : list OutputWriter) : res BuildError OutputWriter :=
  match sinks with
  | [] => Err (NoDestination (stream_name st))
  | [single] => Ok single
  | _ => Ok (Fanout sinks)
  end.

Fixpoint allocate (granted : nat) (sts : list Stream) (next : nat) (slots : list (option nat)) (t : PortTable)
    : res BuildError (PortTable * list (option nat)) :=
  match sts with
  | [] => Ok (t, slots)
  | st :: sts =>
      '(sinks, readers) ← make_pipes granted st next;
      '(sinks, slots) ←
        match artifact st with
        | None => Ok (sinks, slots)
        | Some a => match take_writer slots a with
                    | (Some w, slots) => Ok (sinks ++ [Target w], slots)
                    | (None, _) => Err (MissingWriter a)
                    end
        end;
      w ← join_sinks st sinks;
      allocate granted sts (next + length (consumers st)) slots
        {| table_inputs := table_inputs t ++ [readers];
           table_outputs := table_outputs t ++ [Some {| out_size := stream_size st; writer := w |}] |}
  end.

(** The last reader that is left. *)
Definition take_input (t : PortTable) (s : nat) : res BuildError (InputStream * PortTable) :=
  match table_inputs t !! s with
  | Some slots =>
      match last slots with
      | Some (Some i) => Ok (i, {| table_inputs := <[s := removelast slots]> (table_inputs t);
                                   table_outputs := table_outputs t |})
      | _ => Err (EndpointUnavailable s)
      end
  | None => Err (EndpointUnavailable s)
  end.
Definition take_output (t : PortTable) (s : nat) : res BuildError (OutputStream * PortTable) :=
  match table_outputs t !! s with
  | Some (Some o) => Ok (o, {| table_inputs := table_inputs t; table_outputs := <[s := None]> (table_outputs t) |})
  | _ => Err (EndpointUnavailable s)
  end.

Definition assert_empty (t : PortTable) : res BuildError unit :=
  if existsb (existsb (λ o, bool_decide (is_Some o))) (table_inputs t) then Err UnconsumedInput
  else match position (λ o, bool_decide (is_Some o)) (table_outputs t) with
       | Some i => Err (UnconsumedOutput i)
       | None => Ok tt
       end.

Fixpoint take_all {X} (take_one : PortTable → nat → res BuildError (X * PortTable)) (bs : list PortBinding)
    (t : PortTable) : res BuildError (list (nat * X) * PortTable) :=
  match bs with
  | [] => Ok ([], t)
  | b :: bs =>
      '(x, t) ← take_one t (stream b);
      '(rest, t) ← take_all take_one bs t;
      Ok ((port b, x) :: rest, t)
  end.

Definition bind_node (n : Node) (t : PortTable) : res BuildError (PreparedNode * PortTable) :=
  '(ins, t) ← take_all take_input (inputs n) t;
  '(outs, t) ← take_all take_output (outputs n) t;
  Ok ({| prepared_kind := kind n; in_ports := ins; out_ports := outs |}, t).

Fixpoint bind_each (ns : list Node) (t : PortTable) : res BuildError (list PreparedNode * PortTable) :=
  match ns with
  | [] => Ok ([], t)
  | n :: ns =>
      '(p, t) ← bind_node n t;
      '(rest, t) ← bind_each ns t;
      Ok (p :: rest, t)
  end.

Definition bind_nodes (granted : nat) (g : Graph) (slots : list (option nat))
    : res BuildError (list PreparedNode * list (option nat)) :=
  '(t, slots) ← allocate granted (streams g) 0 slots {| table_inputs := []; table_outputs := [] |};
  '(ns, t) ← bind_each (nodes g) t;
  _ ← assert_empty t;
  Ok (ns, slots).

(** ** What a node takes of its ports (pipeline/runtime.rs) *)

Definition ports_take {X} (endpoints : list (nat * X)) (p : nat) : res BuildError (X * list (nat * X)) :=
  match list_find (λ e, e.1 = p) endpoints with
  | Some (i, e) => Ok (e.2, delete i endpoints)
  | None => Err (MissingEndpoint p)
  end.
(** All endpoints from a port on; the endpoints are gone in the error case as well. *)
Definition ports_take_from {X} (endpoints : list (nat * X)) (first : nat) (expected : option nat)
    : res BuildError (list (nat * X)) * list (nat * X) :=
  let taken := filter (λ e, (first ≤ e.1)%nat) endpoints in
  let remaining := filter (λ e, ¬ (first ≤ e.1)%nat) endpoints in
  (match expected with
   | Some n => if (length taken =? n)%nat then Ok taken else Err (PortCountMismatch (length taken) n)
   | None => Ok taken
   end, remaining).
