(* ===== verification/WizardPlan.v ===== *)
(** What planning guarantees (toolchain/wizard/src/pipeline/plan.rs): the
    declarations of the nodes have no cycle, so every request for artifacts
    plans; the nodes are in the order of their dependencies, each with exactly
    the inputs it declares; and every stream has one producer, the consumers
    that read it, and a destination. *)

From stdpp Require Import gmap.
From S2P Require Import Prelude Utf Wizard.

#[local] Open Scope nat_scope.

(** ** Lists *)

Lemma bind_insert_perm {A B} (f : A → list B) (l : list A) i x y z :
  l !! i = Some x → f y ≡ₚ f x ++ z → (<[i := y]> l ≫= f) ≡ₚ (l ≫= f) ++ z.
Proof.
  intros Hi Hf. revert i Hi. induction l as [|a l IH]; intros [|i] Hi; simplify_eq/=.
  - rewrite Hf. by rewrite <- !(assoc_L (++)), (Permutation_app_comm z).
  - by rewrite (IH i Hi), (assoc_L (++)).
Qed.

Lemma bind_insert_same {A B} (f : A → list B) (l : list A) i x y :
  l !! i = Some x → f y = f x → (<[i := y]> l ≫= f) = l ≫= f.
Proof.
  intros Hi Hf. revert i Hi. induction l as [|a l IH]; intros [|i] Hi; simplify_eq/=; [by rewrite Hf|].
  by rewrite (IH i Hi).
Qed.

Lemma fmap_insert_same {A B} (f : A → B) (l : list A) i x y :
  l !! i = Some x → f y = f x → f <$> <[i := y]> l = f <$> l.
Proof. intros Hi Hf. rewrite list_fmap_insert, Hf. apply list_insert_id. by rewrite list_lookup_fmap, Hi. Qed.

Lemma NoDup_bind_lookup {A B} (f : A → list B) (l : list A) i j x y e :
  NoDup (l ≫= f) → l !! i = Some x → l !! j = Some y → e ∈ f x → e ∈ f y → i = j.
Proof.
  revert i j. induction l as [|a l IH]; intros i j Hd Hi Hj Hx Hy; [done|].
  cbn in Hd. apply NoDup_app in Hd as (H1 & H2 & H3).
  destruct i as [|i], j as [|j]; simplify_eq/=; try done.
  - destruct (H2 e Hx). apply list_elem_of_bind. exists y. split; [done|]. by eapply list_elem_of_lookup_2.
  - destruct (H2 e Hy). apply list_elem_of_bind. exists x. split; [done|]. by eapply list_elem_of_lookup_2.
  - f_equal. by apply IH.
Qed.
Lemma NoDup_bind_at {A B} (f : A → list B) (l : list A) i x : NoDup (l ≫= f) → l !! i = Some x → NoDup (f x).
Proof.
  revert i. induction l as [|a l IH]; intros [|i] Hd Hi; simplify_eq/=; apply NoDup_app in Hd as (H1 & _ & H3); eauto.
Qed.
Lemma NoDup_fmap_elem {A B} (f : A → B) l x y : NoDup (f <$> l) → x ∈ l → y ∈ l → f x = f y → x = y.
Proof.
  intros Hd [i Hi]%list_elem_of_lookup [j Hj]%list_elem_of_lookup He. cut (i = j); [congruence|].
  eapply (NoDup_lookup _ _ _ (f x) Hd); rewrite list_lookup_fmap; [by rewrite Hi|by rewrite Hj, He].
Qed.

Lemma find_port_None pt bs : find_port pt bs = None ↔ ∀ b, b ∈ bs → port b ≠ pt.
Proof.
  unfold find_port. destruct (list_find _ bs) as [[i b]|] eqn:Hf; cbn.
  - apply list_find_Some in Hf as (Hi & Hb & _). split; [done|].
    intros Hall. by destruct (Hall b (list_elem_of_lookup_2 _ _ _ Hi)).
  - apply list_find_None in Hf. rewrite Forall_forall in Hf. naive_solver.
Qed.

Lemma elem_of_streams pt s (bs : list PortBinding) : {| port := pt; stream := s |} ∈ bs → s ∈ stream <$> bs.
Proof. intros Hb. apply list_elem_of_fmap. eexists. split; [|exact Hb]. done. Qed.

(** ** The declarations *)

(** How deep a kind is in the declarations. *)
Definition rank (k : NodeKind) : nat :=
  match k with
  | InstallerPull | StubPull | KernelPull | LayerPayloads | OverlayPull => 0
  | InitramfsTail | OverlayTar => 1
  | Concat => 2
  | Uki => 3
  | Sign => 4
  | Iso | Raw => 5
  end.

Lemma elem_of_dep_run k a b n d : d ∈ dep_run k a b n → producer d = k.
Proof. unfold dep_run. rewrite list_elem_of_fmap. by intros (i & -> & _). Qed.

Lemma dependencies_rank ctx k d : d ∈ dependencies ctx k → rank (producer d) < rank k.
Proof.
  destruct k; cbn [dependencies];
    unfold media_dependencies, tail_dependencies, tar_dependencies, concat_dependencies, uki_dependencies, sign_dependencies;
    repeat match goal with
    | |- context [if ?b then _ else _] => destruct b
    | |- context [match ?o with Some _ => _ | None => _ end] => destruct o
    end; rewrite ?elem_of_cons, ?elem_of_nil;
    intros; destruct_or?; subst; try done;
    match goal with H : _ ∈ dep_run _ _ _ _ |- _ => apply elem_of_dep_run in H; rewrite H; cbn; lia | _ => cbn; lia end.
Qed.

Lemma dep_run_ports k a b n : consumer_port <$> dep_run k a b n = seq b n.
Proof.
  unfold dep_run. rewrite <- list_fmap_compose. replace (seq b n) with (seq (b + 0) n) by (f_equal; lia).
  apply (fmap_add_seq b 0 n).
Qed.

Lemma dependencies_ports ctx k : NoDup (consumer_port <$> dependencies ctx k).
Proof.
  destruct k; cbn [dependencies];
    unfold media_dependencies, tail_dependencies, tar_dependencies, concat_dependencies, uki_dependencies, sign_dependencies; try rewrite dep_run_ports; try apply NoDup_seq;
    try (apply (bool_decide_eq_true_1 _); reflexivity);
    destruct (signing ctx), (overlay_assets ctx); rewrite fmap_cons, ?dep_run_ports; cbn;
    apply NoDup_cons; (split; [|constructor || apply NoDup_seq]); rewrite ?elem_of_nil, ?elem_of_seq; try tauto; lia.
Qed.

Lemma artifact_source_total ctx a : ∃ s, artifact_source ctx a = Ok s.
Proof. unfold artifact_source, declarations. destruct a; cbn; unfold uki_produces, sign_produces; destruct (signing ctx); cbn; eauto. Qed.

Lemma artifact_source_inj ctx a b s : artifact_source ctx a = Ok s → artifact_source ctx b = Ok s → a = b.
Proof.
  unfold artifact_source, declarations.
  destruct a; cbn; unfold uki_produces, sign_produces; destruct (signing ctx); cbn; intros [= <-]; destruct b; cbn; done.
Qed.

(** ** The invariant of the planner *)

Definition skeleton (g : Graph) : list (nat * NodeKind) := (λ n, (node_id n, kind n)) <$> nodes g.
(** The streams of all outputs, and the nodes that read a stream, with their
    multiplicity. *)
Definition all_outputs (g : Graph) : list nat := nodes g ≫= λ n, stream <$> outputs n.
Definition readers_of (g : Graph) (s : nat) : list nat :=
  nodes g ≫= λ n, (λ _, node_id n) <$> filter (λ b, stream b = s) (inputs n).

Section invariant.
Context (ctx : BuildContext) (needed : NodeKind → Prop).

(** The nodes: numbered in order, one for each kind, after their producers. *)
Record Shape (p : Planner) : Prop := {
  sh_id : ∀ i n k, skeleton (graph p) !! i = Some (n, k) → n = i;
  sh_inst : ∀ k i, instances p !! k = Some i ↔ skeleton (graph p) !! i = Some (i, k);
  sh_done : ∀ k, states p !! k = Some Done ↔ is_Some (instances p !! k);
  sh_topo : ∀ i k d, instances p !! k = Some i → d ∈ dependencies ctx k →
    ∃ j, instances p !! producer d = Some j ∧ j < i;
  sh_need : ∀ k i, instances p !! k = Some i → needed k
}.

(** An input that was bound for a dependency. *)
Definition bound (p : Planner) (b : PortBinding) (d : Dependency) : Prop :=
  port b = consumer_port d ∧ planned p !! (producer d, producer_port d) = Some (stream b).

(** The streams, after the bindings of [todone]. *)
Record Flow (todone : list (nat * Dependency)) (p : Planner) : Prop := {
  fl_sid : ∀ s st, streams (graph p) !! s = Some st → stream_id st = s;
  fl_planned : ∀ k pt s, planned p !! (k, pt) = Some s ↔
    ∃ i n, nodes (graph p) !! i = Some n ∧ kind n = k ∧ {| port := pt; stream := s |} ∈ outputs n;
  fl_outs : all_outputs (graph p) ≡ₚ seq 0 (length (streams (graph p)));
  fl_ins : ∀ i n, nodes (graph p) !! i = Some n →
    Forall2 (bound p) (inputs n) (snd <$> filter (λ x, x.1 = i) todone);
  fl_cons : ∀ s st, streams (graph p) !! s = Some st → consumers st ≡ₚ readers_of (graph p) s;
  fl_art : ∀ s st a, streams (graph p) !! s = Some st → artifact st = Some a →
    ∃ kp, artifact_source ctx a = Ok kp ∧ planned p !! kp = Some s
}.

(** A stream goes somewhere; the artifacts that have a stream. *)
Definition live (st : Stream) : Prop := consumers st ≠ [] ∨ is_Some (artifact st).
Definition Live (p : Planner) : Prop := ∀ s st, streams (graph p) !! s = Some st → live st.
Definition Served (req : list Artifact) (p : Planner) : Prop :=
  ∀ a, a ∈ req ↔ ∃ s st, streams (graph p) !! s = Some st ∧ artifact st = Some a.

Lemma skeleton_add g k :
  skeleton (add_node g k).2 = skeleton g ++ [(length (nodes g), k)].
Proof. unfold skeleton. cbn. by rewrite fmap_app. Qed.
Lemma skeleton_length g : length (skeleton g) = length (nodes g).
Proof. apply length_fmap. Qed.

Lemma add_node_shape p k :
  Shape p → states p !! k ≠ Some Done → needed k →
  (∀ d, d ∈ dependencies ctx k → is_Some (instances p !! producer d)) →
  Shape {| graph := (add_node (graph p) k).2; instances := <[k := length (nodes (graph p))]> (instances p);
           planned := planned p; states := <[k := Done]> (states p) |}.
Proof.
  intros [Hid Hinst Hdone Htopo Hneed] Hk Hnk Hdeps.
  assert (Hnone : instances p !! k = None).
  { apply eq_None_not_Some. by rewrite <- Hdone. }
  assert (Hlt : ∀ k' i, instances p !! k' = Some i → i < length (nodes (graph p))).
  { intros k' i Hi%Hinst%lookup_lt_Some. by rewrite skeleton_length in Hi. }
  split; cbn [graph instances states]; try rewrite skeleton_add.
  - intros i n k' [Hi|(Hle & Hi)]%lookup_app_Some; [eauto|].
    apply list_lookup_singleton_Some in Hi as [Hz [= <- <-]]. rewrite skeleton_length in *. lia.
  - intros k' i. rewrite lookup_app_Some, skeleton_length. destruct (decide (k' = k)) as [->|Hne].
    + rewrite lookup_insert_eq. split.
      * intros [= <-]. right. split; [done|]. by rewrite Nat.sub_diag.
      * intros [Hi|(Hle & Hi)]; [apply Hinst in Hi; congruence|].
        apply list_lookup_singleton_Some in Hi as [Hz [= Hi]]. f_equal. lia.
    + rewrite lookup_insert_ne by done. rewrite Hinst. split; [by left|].
      intros [Hi|(Hle & Hi)]; [done|]. apply list_lookup_singleton_Some in Hi as [_ [= _ ?]]. congruence.
  - intros k'. destruct (decide (k' = k)) as [->|Hne].
    + rewrite !lookup_insert_eq. by split; eauto.
    + rewrite !lookup_insert_ne by done. apply Hdone.
  - intros i k' d Hi Hd. destruct (decide (k' = k)) as [->|Hne].
    + rewrite lookup_insert_eq in Hi. injection Hi as <-. destruct (Hdeps d Hd) as [j Hj].
      exists j. rewrite lookup_insert_ne by congruence. split; [done|eauto].
    + rewrite lookup_insert_ne in Hi by done. destruct (Htopo i k' d Hi Hd) as (j & Hj & Hji).
      exists j. rewrite lookup_insert_ne by congruence. done.
  - intros k' i Hi. destruct (decide (k' = k)) as [->|Hne]; [done|].
    rewrite lookup_insert_ne in Hi by done. eauto.
Qed.

Lemma add_node_flow p k i st :
  Flow [] p →
  Flow [] {| graph := (add_node (graph p) k).2; instances := i; planned := planned p; states := st |}.
Proof.
  intros [Hsid Hpl Houts Hins Hcons Hart]. split; cbn [graph planned]; try done.
  - intros k' pt s. rewrite Hpl. split.
    + intros (j & n & Hj & ? & ?). exists j, n. split; [by apply lookup_app_l_Some|done].
    + intros (j & n & [Hj|(_ & Hj)]%lookup_app_Some & Hkn & Hb); [by exists j, n|].
      apply list_lookup_singleton_Some in Hj as [_ <-]. cbn in Hb. by apply elem_of_nil in Hb.
  - unfold all_outputs. cbn. rewrite bind_app. cbn. by rewrite app_nil_r.
  - intros j n [Hj|(_ & Hj)]%lookup_app_Some; [by apply (Hins j)|].
    apply list_lookup_singleton_Some in Hj as [_ <-]. constructor.
  - intros s st' Hs. rewrite (Hcons s st' Hs). unfold readers_of. cbn. rewrite bind_app. cbn. by rewrite app_nil_r.
Qed.

(** What visiting kinds changes: it only adds nodes. *)
Record Grown (p p' : Planner) : Prop := {
  gr_inst : instances p ⊆ instances p';
  gr_streams : streams (graph p') = streams (graph p);
  gr_open : ∀ k, states p' !! k = Some InProgress ↔ states p !! k = Some InProgress
}.
Lemma grown_trans p1 p2 p3 : Grown p1 p2 → Grown p2 p3 → Grown p1 p3.
Proof.
  intros [H1 H2 H3] [H4 H5 H6].
  split; [by transitivity (instances p2)|congruence|]. intros k. by rewrite H6, H3.
Qed.

Hypothesis needed_producer : ∀ k d, needed k → d ∈ dependencies ctx k → needed (producer d).

Definition ensure_spec (fuel : nat) (k : NodeKind) : Prop := ∀ p,
  Shape p → Flow [] p → needed k → (∀ k', states p !! k' = Some InProgress → rank k < rank k') →
  ∃ id p', ensure ctx fuel k p = Ok (id, p') ∧ Shape p' ∧ Flow [] p' ∧ Grown p p' ∧ instances p' !! k = Some id.

(** The producers of a kind, from a state in which every open kind is deeper. *)
Lemma ensure_each fuel r : (∀ k, rank k < r → ensure_spec fuel k) → ∀ ds p,
  Shape p → Flow [] p → Forall (λ d, needed (producer d) ∧ rank (producer d) < r) ds →
  (∀ k', states p !! k' = Some InProgress → r ≤ rank k') →
  ∃ p', foldM (λ p d, '(_, p) ← ensure ctx fuel (producer d) p; Ok p) p ds = Ok p' ∧
    Shape p' ∧ Flow [] p' ∧ Grown p p' ∧ Forall (λ d, is_Some (instances p' !! producer d)) ds.
Proof.
  intros Hens ds. induction ds as [|d ds IH]; intros p HS HF Hds Hopen.
  { exists p. split_and!; done. }
  apply Forall_cons in Hds as [[Hnd Hr] Hds].
  destruct (Hens (producer d) Hr p HS HF Hnd) as (id & p1 & He & HS1 & HF1 & HG1 & Hi).
  { intros k' Hk'%Hopen. lia. }
  cbn [foldM]. rewrite He. cbn [mbind res_bind].
  destruct (IH p1 HS1 HF1 Hds) as (p' & Hf & HS' & HF' & HG' & Hall).
  { intros k' Hk'%(gr_open _ _ HG1). eauto. }
  exists p'. split_and!; try done; [by eapply grown_trans|]. constructor; [|done].
  exists id. by eapply lookup_weaken, (gr_inst _ _ HG').
Qed.

Lemma open_shape p k :
  Shape p → states p !! k = None →
  Shape {| graph := graph p; instances := instances p; planned := planned p;
           states := <[k := InProgress]> (states p) |}.
Proof.
  intros [Hid Hinst Hdone Htopo Hneed] Hk. split; cbn; try done. intros k'. destruct (decide (k' = k)) as [->|Hne].
  - rewrite lookup_insert_eq, <- Hdone, Hk. by split.
  - rewrite lookup_insert_ne by done. apply Hdone.
Qed.

Lemma ensure_ok fuel : ∀ k, rank k < fuel → ensure_spec fuel k.
Proof.
  induction fuel as [|fuel IH]; intros k Hk p HS HF Hnk Hopen; [lia|]. cbn [ensure].
  destruct (states p !! k) as [[]|] eqn:Hst.
  { apply Hopen in Hst. lia. }
  { apply (sh_done _ HS) in Hst as [id Hid]. exists id, p. unfold instance. rewrite Hid. split_and!; done. }
  set (p1 := {| graph := graph p; instances := _; planned := _; states := <[k := InProgress]> (states p) |}).
  destruct (ensure_each fuel (rank k)) with (ds := dependencies ctx k) (p := p1)
    as (p2 & Hf & HS2 & HF2 & HG2 & Hall).
  - intros k' Hk'. apply IH. lia.
  - by apply open_shape.
  - by destruct HF.
  - apply Forall_forall. intros d Hd. split; [by eapply needed_producer|by apply (dependencies_rank ctx)].
  - cbn. intros k' Hk'. destruct (decide (k' = k)) as [->|Hne]; [done|].
    rewrite lookup_insert_ne in Hk' by done. apply Hopen in Hk'. lia.
  - rewrite Hf. cbn [mbind res_bind].
    assert (H2k : states p2 !! k = Some InProgress) by (apply (gr_open _ _ HG2); cbn; by rewrite lookup_insert_eq).
    eexists _, _. split; [reflexivity|]. split_and!.
    + apply add_node_shape; try done; [by rewrite H2k|]. by apply Forall_forall.
    + by apply add_node_flow.
    + split; cbn.
      * etrans; [apply (gr_inst _ _ HG2)|]. apply insert_subseteq. apply eq_None_not_Some.
        rewrite <- (sh_done _ HS2), H2k. by intros.
      * apply (gr_streams _ _ HG2).
      * intros k'. destruct (decide (k' = k)) as [->|Hne].
        -- rewrite lookup_insert_eq, Hst. by split.
        -- rewrite lookup_insert_ne by done. rewrite (gr_open _ _ HG2). cbn. by rewrite lookup_insert_ne.
    + cbn. apply lookup_insert_eq.
Qed.

(** ** Streams *)

Lemma shape_same p p' :
  skeleton (graph p') = skeleton (graph p) → instances p' = instances p → states p' = states p → Shape p → Shape p'.
Proof. intros Hs Hi Ht [H1 H2 H3 H4 H5]. split; rewrite ?Hs, ?Hi, ?Ht; done. Qed.

Lemma shape_node p k i : Shape p → instances p !! k = Some i → ∃ n, nodes (graph p) !! i = Some n ∧ kind n = k ∧ node_id n = i.
Proof.
  intros HS Hi%(sh_inst _ HS). unfold skeleton in Hi. apply list_lookup_fmap_Some in Hi as (n & [= H1 H2] & Hn).
  exists n. naive_solver.
Qed.
Lemma shape_unique p i j n n' :
  Shape p → nodes (graph p) !! i = Some n → nodes (graph p) !! j = Some n' → kind n = kind n' → i = j.
Proof.
  intros HS Hi Hj Hk.
  assert (Hsk : ∀ i n, nodes (graph p) !! i = Some n → instances p !! kind n = Some i).
  { intros i0 n0 H0. apply (sh_inst _ HS). assert (Hl : skeleton (graph p) !! i0 = Some (node_id n0, kind n0)).
    { unfold skeleton. by rewrite list_lookup_fmap, H0. }
    rewrite Hl. by rewrite (sh_id _ HS _ _ _ Hl). }
  apply Hsk in Hi, Hj. congruence.
Qed.

Lemma planned_lt td p kp s : Flow td p → planned p !! kp = Some s → s < length (streams (graph p)).
Proof.
  intros HF. destruct kp as [k pt]. intros (i & n & Hi & _ & Hb)%(fl_planned _ _ HF).
  cut (s ∈ seq 0 (length (streams (graph p)))); [rewrite elem_of_seq; lia|].
  rewrite <- (fl_outs _ _ HF). unfold all_outputs. apply list_elem_of_bind. exists n. split; [|by eapply list_elem_of_lookup_2].
  by eapply elem_of_streams.
Qed.

Lemma input_lt td p i n b :
  Flow td p → nodes (graph p) !! i = Some n → b ∈ inputs n → stream b < length (streams (graph p)).
Proof.
  intros HF Hi Hb. apply list_elem_of_lookup in Hb as [j Hj].
  destruct (Forall2_lookup_l _ _ _ _ _ (fl_ins _ _ HF i n Hi) Hj) as (d & _ & _ & Hp). by eapply planned_lt.
Qed.

Lemma bound_mono p p' b d : planned p ⊆ planned p' → bound p b d → bound p' b d.
Proof. intros Hsub [H1 H2]. split; [done|]. by eapply lookup_weaken. Qed.

(** What adding streams and bindings keeps. *)
Record Kept (p p' : Planner) : Prop := {
  kp_inst : instances p' = instances p;
  kp_states : states p' = states p;
  kp_skeleton : skeleton (graph p') = skeleton (graph p);
  kp_planned : planned p ⊆ planned p'
}.
Lemma kept_trans p1 p2 p3 : Kept p1 p2 → Kept p2 p3 → Kept p1 p3.
Proof. intros [] []. split; try congruence. by etrans. Qed.
Lemma kept_shape p p' : Kept p p' → Shape p → Shape p'.
Proof. intros []. by apply shape_same. Qed.

Lemma new_output_flow td p k pt prod n :
  Shape p → Flow td p → nodes (graph p) !! prod = Some n → kind n = k → planned p !! (k, pt) = None →
  let s := length (streams (graph p)) in
  Flow td {| graph := {| nodes := <[prod := {| node_id := node_id n; kind := kind n; inputs := inputs n;
                                                outputs := outputs n ++ [{| port := pt; stream := s |}] |}]>
                                     (nodes (graph p));
                         streams := streams (graph p) ++ [new_stream s] |};
             instances := instances p; planned := <[(k, pt) := s]> (planned p); states := states p |}.
Proof.
  intros HS HF Hn Hk Hnone s. pose proof (lookup_lt_Some _ _ _ Hn) as Hlt.
  assert (Hsub : planned p ⊆ <[(k, pt) := s]> (planned p)) by by apply insert_subseteq.
  split; cbn [graph planned nodes streams].
  - intros s' st [Hs|(Hge & Hs)]%lookup_app_Some; [by apply (fl_sid _ _ HF)|].
    apply list_lookup_singleton_Some in Hs as [Hz <-]. cbn. lia.
  - intros k' pt' s'. split.
    + intros [[[= <- <-] <-]|[Hne Hp]]%lookup_insert_Some.
      * eexists prod, _. rewrite list_lookup_insert_eq by done. split; [done|]. split; [done|]. cbn. set_solver.
      * apply (fl_planned _ _ HF) in Hp as (i & n' & Hi & Hk' & Hb). destruct (decide (i = prod)) as [->|Hi'].
        -- eexists prod, _. rewrite list_lookup_insert_eq by done. simplify_eq. split; [done|]. cbn. set_solver.
        -- exists i, n'. rewrite list_lookup_insert_ne by done. done.
    + intros (i & n' & Hi & Hk' & Hb). destruct (decide (i = prod)) as [->|Hi'].
      * rewrite list_lookup_insert_eq in Hi by done. injection Hi as <-. cbn in Hk', Hb.
        apply elem_of_app in Hb as [Hb|Hb].
        -- eapply lookup_weaken; [|exact Hsub]. apply (fl_planned _ _ HF). exists prod, n. done.
        -- apply list_elem_of_singleton in Hb as [= -> ->]. rewrite <- Hk', Hk. apply lookup_insert_eq.
      * rewrite list_lookup_insert_ne in Hi by done.
        eapply lookup_weaken; [|exact Hsub]. apply (fl_planned _ _ HF). by exists i, n'.
  - unfold all_outputs. cbn. rewrite (bind_insert_perm _ _ _ _ _ [s] Hn) by (cbn; by rewrite fmap_app).
    rewrite length_app, seq_app. cbn. apply Permutation_app_tail, (fl_outs _ _ HF).
  - intros i n' Hi. assert (Hin : Forall2 (bound p) (inputs n') (snd <$> filter (λ x, x.1 = i) td)).
    { destruct (decide (i = prod)) as [->|Hi'].
      - rewrite list_lookup_insert_eq in Hi by done. injection Hi as <-. exact (fl_ins _ _ HF prod n Hn).
      - rewrite list_lookup_insert_ne in Hi by done. by apply (fl_ins _ _ HF). }
    eapply Forall2_impl; [exact Hin|]. intros b d. by apply bound_mono.
  - intros s' st Hs. unfold readers_of. cbn. rewrite (bind_insert_same _ _ _ _ _ Hn) by done.
    apply lookup_app_Some in Hs as [Hs|(Hge & Hs)]; [by apply (fl_cons _ _ HF)|].
    apply list_lookup_singleton_Some in Hs as [Hz <-]. cbn. symmetry. apply Permutation_nil_r.
    apply elem_of_nil_inv. intros x (n' & Hx & Hn')%list_elem_of_bind.
    apply list_elem_of_fmap in Hx as (b & _ & [Hb Hbi]%list_elem_of_filter).
    apply list_elem_of_lookup in Hn' as [j Hj]. pose proof (input_lt _ _ _ _ _ HF Hj Hbi). lia.
  - intros s' st a [Hs|(Hge & Hs)]%lookup_app_Some Ha.
    + destruct (fl_art _ _ HF s' st a Hs Ha) as (kp & Hkp & Hp). exists kp. split; [done|]. by eapply lookup_weaken.
    + by apply list_lookup_singleton_Some in Hs as [_ <-].
Qed.

Lemma outputs_NoDup td p : Flow td p → NoDup (all_outputs (graph p)).
Proof. intros HF. rewrite (fl_outs _ _ HF). apply NoDup_seq. Qed.

Lemma planned_inj td p kp kp' s : Flow td p → planned p !! kp = Some s → planned p !! kp' = Some s → kp = kp'.
Proof.
  intros HF. destruct kp as [k pt], kp' as [k' pt'].
  intros (i & n & Hi & <- & Hb)%(fl_planned _ _ HF) (j & n' & Hj & <- & Hb')%(fl_planned _ _ HF).
  pose proof (outputs_NoDup _ _ HF) as Hd. unfold all_outputs in Hd.
  assert (i = j) as <-.
  { apply (NoDup_bind_lookup _ _ _ _ _ _ s Hd Hi Hj); by eapply elem_of_streams. }
  simplify_eq. pose proof (NoDup_bind_at _ _ _ _ Hd Hi) as Hd'. cbn in Hd'.
  by pose proof (NoDup_fmap_elem _ _ _ _ Hd' Hb Hb' eq_refl) as [= ->].
Qed.

Lemma output_stream_ok td p k pt prod :
  Shape p → Flow td p → instances p !! k = Some prod →
  ∃ s p' l, output_stream p k pt prod = Ok (s, p') ∧ Kept p p' ∧ Flow td p' ∧ planned p' !! (k, pt) = Some s ∧
    streams (graph p') = streams (graph p) ++ l ∧ Forall (λ st, artifact st = None) l ∧
    (∀ s' st, streams (graph p') !! s' = Some st → s' = s ∨ streams (graph p) !! s' = Some st).
Proof.
  intros HS HF Hk. unfold output_stream. destruct (planned p !! (k, pt)) as [s|] eqn:Hp.
  { exists s, p, []. rewrite app_nil_r. split_and!; try done. by intros; right. }
  destruct (shape_node _ _ _ HS Hk) as (n & Hn & Hkn & _).
  pose proof (new_output_flow td p k pt prod n HS HF Hn Hkn Hp) as HF'. cbn zeta in HF'.
  unfold add_output, get_node. cbn [nodes]. rewrite Hn. cbn [ok_or mbind res_bind].
  assert (find_port pt (outputs n) = None) as ->.
  { apply find_port_None. intros [pt' s'] Hb [= ->].
    assert (planned p !! (k, pt) = Some s') as Hs; [|congruence].
    apply (fl_planned _ _ HF). exists prod, n. done. }
  cbn [mbind res_bind set_node nodes streams]. eexists _, _, [new_stream _].
  split; [reflexivity|]. split_and!; try done.
  - split; cbn; try done; [|by apply insert_subseteq]. by apply (fmap_insert_same _ _ _ _ _ Hn).
  - cbn. apply lookup_insert_eq.
  - by repeat constructor.
  - cbn. intros s' st [Hs|(Hge & Hs)]%lookup_app_Some; [by right|].
    apply list_lookup_singleton_Some in Hs as [Hz _]. left. lia.
Qed.

(** Stamping a stream with an artifact whose source it is. *)
Lemma stamp_flow td p s st a kp :
  Flow td p → streams (graph p) !! s = Some st → artifact_source ctx a = Ok kp → planned p !! kp = Some s →
  Flow td (set_graph p (set_stream (graph p) s
    {| stream_id := stream_id st; stream_name := stream_name st; stream_size := stream_size st;
       consumers := consumers st; artifact := Some a |})).
Proof.
  intros HF Hs Ha Hp. pose proof (lookup_lt_Some _ _ _ Hs) as Hlt. destruct HF as [Hsid Hpl Houts Hins Hcons Hart].
  split; cbn; try done.
  - intros s' st' [(-> & <- & _)|(_ & Hs')]%list_lookup_insert_Some; cbn; eauto.
  - by rewrite length_insert.
  - intros s' st' [(-> & <- & _)|(_ & Hs')]%list_lookup_insert_Some; cbn; by apply Hcons.
  - intros s' st' b [(-> & <- & _)|(_ & Hs')]%list_lookup_insert_Some; cbn; [|by apply Hart].
    intros [= <-]. eauto.
Qed.

Lemma request_ok req p k pt a prod :
  Shape p → Flow [] p → Live p → Served req p → instances p !! k = Some prod → artifact_source ctx a = Ok (k, pt) →
  ∃ p', request p k pt a = Ok p' ∧ Kept p p' ∧ Flow [] p' ∧ Live p' ∧ Served (req ++ [a]) p'.
Proof.
  intros HS HF HL HR Hk Ha. unfold request, instance. rewrite Hk. cbn [ok_or mbind res_bind].
  destruct (output_stream_ok [] p k pt prod HS HF Hk) as (s & p1 & l & -> & HK & HF1 & Hp & Hl & Hnone & Hold).
  cbn [mbind res_bind]. pose proof (planned_lt _ _ _ _ HF1 Hp) as Hlt.
  destruct (lookup_lt_is_Some_2 _ _ Hlt) as [st Hs]. unfold get_stream. rewrite Hs. cbn [ok_or mbind res_bind].
  eexists. split; [reflexivity|]. split_and!.
  - destruct HK. by split.
  - by eapply stamp_flow.
  - intros s' st' [(-> & <- & _)|(Hne & Hs')]%list_lookup_insert_Some; [right; by eexists|].
    apply Hold in Hs' as [->|Hs']; [done|]. by apply HL in Hs'.
  - intros b. rewrite elem_of_app, list_elem_of_singleton, (HR b). cbn. split.
    + intros [(s' & st' & Hs' & Hb)| -> ].
      * destruct (decide (s' = s)) as [->|Hne].
        -- assert (streams (graph p1) !! s = Some st') as Hst'.
           { rewrite Hl. by apply lookup_app_l_Some. }
           destruct (fl_art _ _ HF1 s st' b Hst' Hb) as (kp & Hkp & Hpk).
           rewrite (planned_inj _ _ _ _ _ HF1 Hpk Hp) in Hkp. rewrite (artifact_source_inj ctx b a _ Hkp Ha).
           eexists s, _. rewrite list_lookup_insert_eq by done. done.
        -- exists s', st'. rewrite list_lookup_insert_ne by done. split; [|done]. rewrite Hl. by apply lookup_app_l_Some.
      * eexists s, _. rewrite list_lookup_insert_eq by done. done.
    + intros (s' & st' & Hs' & Hb).
      apply list_lookup_insert_Some in Hs' as [(-> & <- & _)|(Hne & Hs')]; [right; cbn in Hb; congruence|].
      apply Hold in Hs' as [->|Hs']; [done|]. left. by exists s', st'.
Qed.

Lemma nodes_same_outputs td p g c n n' :
  Flow td p → nodes (graph p) !! c = Some n → nodes g = <[c := n']> (nodes (graph p)) →
  kind n' = kind n → outputs n' = outputs n →
  ∀ k pt s, planned p !! (k, pt) = Some s ↔
    ∃ i n, nodes g !! i = Some n ∧ kind n = k ∧ {| port := pt; stream := s |} ∈ outputs n.
Proof.
  intros HF Hn -> Hk Ho k pt s. rewrite (fl_planned _ _ HF). pose proof (lookup_lt_Some _ _ _ Hn) as Hlt. split.
  - intros (i & x & Hi & Hx & Hb). destruct (decide (i = c)) as [->|Hne].
    + eexists _, n'. rewrite list_lookup_insert_eq by done. simplify_eq. rewrite Ho. done.
    + exists i, x. by rewrite list_lookup_insert_ne.
  - intros (i & x & Hi & Hx & Hb). apply list_lookup_insert_Some in Hi as [(-> & <- & _)|(_ & Hi)].
    + eexists _, n. rewrite <- Ho. split; [done|]. by rewrite <- Hk.
    + by exists i, x.
Qed.

Lemma bind_input_flow td p c n d s st :
  Flow td p → nodes (graph p) !! c = Some n → node_id n = c →
  planned p !! (producer d, producer_port d) = Some s → streams (graph p) !! s = Some st →
  Flow (td ++ [(c, d)]) (set_graph p (set_stream
    (set_node (graph p) c {| node_id := node_id n; kind := kind n;
                             inputs := inputs n ++ [{| port := consumer_port d; stream := s |}]; outputs := outputs n |})
    s {| stream_id := stream_id st; stream_name := stream_name st; stream_size := stream_size st;
         consumers := consumers st ++ [c]; artifact := artifact st |})).
Proof.
  intros HF Hn Hid Hp Hs. pose proof (lookup_lt_Some _ _ _ Hn) as Hlt.
  split; cbn [graph set_graph set_stream set_node nodes streams planned].
  - intros s' st' [(-> & <- & _)|(_ & Hs')]%list_lookup_insert_Some; [cbn|]; by apply (fl_sid _ _ HF).
  - by eapply (nodes_same_outputs td p {| nodes := _; streams := [] |} c n).
  - rewrite length_insert. unfold all_outputs. cbn. rewrite (bind_insert_same _ _ _ _ _ Hn) by done. apply (fl_outs _ _ HF).
  - intros i n' Hi. rewrite filter_app, fmap_app.
    apply list_lookup_insert_Some in Hi as [(-> & <- & _)|(Hne & Hi)].
    + cbn [inputs]. apply Forall2_app; [exact (fl_ins _ _ HF _ n Hn)|].
      rewrite filter_cons_True by done. cbn. by repeat constructor.
    + rewrite filter_cons_False by (cbn; congruence). cbn. rewrite app_nil_r. exact (fl_ins _ _ HF _ n' Hi).
  - intros s' st' Hs'. unfold readers_of. cbn [set_graph graph set_stream set_node nodes].
    apply list_lookup_insert_Some in Hs' as [(-> & <- & _)|(Hne & Hs')]; cbn [consumers].
    + rewrite (bind_insert_perm _ _ _ _ _ [c] Hn).
      * apply Permutation_app_tail, (fl_cons _ _ HF _ st Hs).
      * cbn [inputs node_id]. rewrite filter_app, fmap_app, filter_cons_True by done. cbn. by rewrite Hid.
    + rewrite (bind_insert_same _ _ _ _ _ Hn); [by apply (fl_cons _ _ HF)|].
      cbn [inputs node_id]. rewrite filter_app, fmap_app, filter_cons_False by (cbn; congruence). cbn. by rewrite app_nil_r.
  - intros s' st' a [(-> & <- & _)|(_ & Hs')]%list_lookup_insert_Some; cbn [artifact]; by apply (fl_art _ _ HF).
Qed.

Lemma bind_ok td p prod c d n req :
  Shape p → Flow td p → Live p → Served req p → instances p !! producer d = Some prod →
  nodes (graph p) !! c = Some n → consumer_port d ∉ (consumer_port <$> (snd <$> filter (λ x, x.1 = c) td)) →
  ∃ p', bind p prod c d = Ok p' ∧ Kept p p' ∧ Flow (td ++ [(c, d)]) p' ∧ Live p' ∧ Served req p'.
Proof.
  intros HS HF HL HR Hk Hc Hfresh. unfold bind.
  destruct (output_stream_ok td p (producer d) (producer_port d) prod HS HF Hk)
    as (s & p1 & l & -> & HK & HF1 & Hp & Hl & Hnone & Hold). cbn [mbind res_bind].
  assert (∃ n1, nodes (graph p1) !! c = Some n1 ∧ node_id n1 = c) as (n1 & Hn1 & Hid).
  { assert (skeleton (graph p1) !! c = Some (node_id n, kind n)) as Hsk.
    { rewrite (kp_skeleton _ _ HK). unfold skeleton. by rewrite list_lookup_fmap, Hc. }
    pose proof (sh_id _ (kept_shape _ _ HK HS) _ _ _ Hsk) as Hci. unfold skeleton in Hsk.
    apply list_lookup_fmap_Some in Hsk as (n1 & [= H1 _] & Hn1). exists n1. split; [done|congruence]. }
  destruct (lookup_lt_is_Some_2 _ _ (planned_lt _ _ _ _ HF1 Hp)) as [st Hs].
  unfold bind_input, get_node, get_stream. rewrite Hn1. cbn [ok_or mbind res_bind].
  assert (find_port (consumer_port d) (inputs n1) = None) as ->.
  { apply find_port_None. intros b [j Hj]%list_elem_of_lookup Hport. apply Hfresh.
    destruct (Forall2_lookup_l _ _ _ _ _ (fl_ins _ _ HF1 c n1 Hn1) Hj) as (d' & Hd' & Hpd & _).
    rewrite <- Hport, Hpd. apply list_elem_of_fmap. exists d'. split; [done|]. by eapply list_elem_of_lookup_2. }
  cbn [set_node streams]. rewrite Hs. cbn [ok_or mbind res_bind]. eexists. split; [reflexivity|]. split_and!.
  - eapply kept_trans; [exact HK|]. split; try done. by apply (fmap_insert_same _ _ _ _ _ Hn1).
  - by apply bind_input_flow.
  - intros s' st' [(-> & <- & _)|(Hne & Hs')]%list_lookup_insert_Some.
    + left. cbn. by destruct (consumers st).
    + apply Hold in Hs' as [->|Hs']; [done|]. by apply HL in Hs'.
  - intros a. rewrite (HR a). cbn. split.
    + intros (s' & st' & Hs' & Ha). assert (streams (graph p1) !! s' = Some st') as Hs1.
      { rewrite Hl. by apply lookup_app_l_Some. }
      destruct (decide (s' = s)) as [->|Hne].
      * eexists s, _. rewrite list_lookup_insert_eq by (by eapply lookup_lt_Some). cbn. by simplify_eq.
      * exists s', st'. by rewrite list_lookup_insert_ne.
    + intros (s' & st' & Hs' & Ha). assert (∃ st0, streams (graph p1) !! s' = Some st0 ∧ artifact st0 = Some a)
        as (st0 & Hs0 & Ha0).
      { apply list_lookup_insert_Some in Hs' as [(-> & <- & _)|(Hne & Hs')]; eauto. }
      rewrite Hl in Hs0. apply lookup_app_Some in Hs0 as [Hs0|(_ & Hs0)]; [eauto|].
      rewrite Forall_lookup in Hnone. rewrite (Hnone _ _ Hs0) in Ha0. done.
Qed.

(** ** The whole plan *)

Definition each_bound (p : Planner) (l : list (nat * Dependency)) : res BuildError Planner :=
  foldM (λ p '(c, d), prod ← instance p (producer d); bind p prod c d) p l.

Lemma bind_each_ok req todo : ∀ td p,
  Shape p → Flow td p → Live p → Served req p →
  (∀ c, NoDup (consumer_port <$> (snd <$> filter (λ x, x.1 = c) (td ++ todo)))) →
  (∀ c d, (c, d) ∈ todo → c < length (nodes (graph p)) ∧ is_Some (instances p !! producer d)) →
  ∃ p', each_bound p todo = Ok p' ∧ Kept p p' ∧ Flow (td ++ todo) p' ∧ Live p' ∧ Served req p'.
Proof.
  induction todo as [|[c d] todo IH]; intros td p HS HF HL HR Hnd Hin.
  { exists p. rewrite app_nil_r. split_and!; done. }
  destruct (Hin c d (list_elem_of_here _ _)) as [Hc [prod Hprod]].
  destruct (lookup_lt_is_Some_2 _ _ Hc) as [n Hn].
  destruct (bind_ok td p prod c d n req HS HF HL HR Hprod Hn) as (p1 & Hb & HK & HF1 & HL1 & HR1).
  { specialize (Hnd c). rewrite filter_app, filter_cons_True, !fmap_app in Hnd by done. cbn in Hnd.
    apply NoDup_app in Hnd as (_ & Hdis & _). intros Hd. apply (Hdis _ Hd). set_solver. }
  unfold each_bound. cbn [foldM].
  replace (instance p (producer d)) with (Ok prod : res BuildError nat) by (unfold instance; by rewrite Hprod).
  cbn [mbind res_bind]. rewrite Hb. cbn [res_bind]. destruct (IH (td ++ [(c, d)]) p1) as (p' & Hf & HK' & HF' & HL' & HR'); try done.
  - by eapply kept_shape.
  - by rewrite <- (assoc_L (++)).
  - intros c' d' Hd'. rewrite <- skeleton_length, (kp_skeleton _ _ HK), skeleton_length, (kp_inst _ _ HK).
    apply Hin. by constructor.
  - exists p'. split; [exact Hf|]. rewrite <- (assoc_L (++)) in HF'. split_and!; try done. by eapply kept_trans.
Qed.

Lemma pending_other (ns : list Node) i :
  (∀ n, n ∈ ns → node_id n ≠ i) →
  filter (λ x, x.1 = i) (ns ≫= (λ n, (λ d, (node_id n, d)) <$> dependencies ctx (kind n))) = [].
Proof.
  intros Hne. apply elem_of_nil_inv. intros [c d] [Hc Hx]%list_elem_of_filter. cbn in Hc.
  apply list_elem_of_bind in Hx as (n & Hd & Hn). apply list_elem_of_fmap in Hd as (d' & [= Hcn _] & _).
  apply (Hne n Hn). congruence.
Qed.

Lemma pending_at g i n :
  (∀ i n, nodes g !! i = Some n → node_id n = i) → nodes g !! i = Some n →
  snd <$> filter (λ x, x.1 = i) (pending_bindings ctx g) = dependencies ctx (kind n).
Proof.
  intros Hid Hi. unfold pending_bindings. rewrite <- (take_drop_middle _ _ _ Hi), bind_app, filter_app.
  rewrite pending_other; cycle 1.
  { intros x Hx Hxi. apply list_elem_of_lookup in Hx as [j Hj]. pose proof (lookup_lt_Some _ _ _ Hj) as Hlt.
    apply lookup_take_Some in Hj as [Hj ?]. apply Hid in Hj. lia. }
  rewrite bind_cons, filter_app, (pending_other (drop _ _)); cycle 1.
  { intros x Hx Hxi. apply list_elem_of_lookup in Hx as [j Hj]. rewrite lookup_drop in Hj. apply Hid in Hj. lia. }
  rewrite app_nil_r. cbn. rewrite (Hid _ _ Hi).
  induction (dependencies ctx (kind n)) as [|d ds IH]; [done|].
  rewrite fmap_cons, filter_cons_True by done. cbn. by rewrite IH.
Qed.

Lemma shape_ids p i n : Shape p → nodes (graph p) !! i = Some n → node_id n = i.
Proof.
  intros HS Hi. eapply (sh_id _ HS i (node_id n) (kind n)). unfold skeleton. by rewrite list_lookup_fmap, Hi.
Qed.

Lemma bind_all_ok req p :
  Shape p → Flow [] p → Live p → Served req p →
  ∃ p', bind_all ctx p = Ok p' ∧ Kept p p' ∧ Flow (pending_bindings ctx (graph p)) p' ∧ Live p' ∧ Served req p'.
Proof.
  intros HS HF HL HR. apply (bind_each_ok req (pending_bindings ctx (graph p)) [] p); try done.
  - intros c. cbn [app]. destruct (nodes (graph p) !! c) as [n|] eqn:Hn.
    + rewrite (pending_at _ c n) by (done || (intros; by eapply shape_ids)). apply dependencies_ports.
    + unfold pending_bindings. rewrite pending_other; [constructor|].
      intros n [j Hj]%list_elem_of_lookup <-. rewrite (shape_ids _ _ _ HS Hj) in Hn. congruence.
  - intros c d Hd. unfold pending_bindings in Hd. apply list_elem_of_bind in Hd as (n & Hd & Hn).
    apply list_elem_of_fmap in Hd as (d' & [= -> <-] & Hd). apply list_elem_of_lookup in Hn as [i Hi].
    rewrite (shape_ids _ _ _ HS Hi). split; [by eapply lookup_lt_Some|].
    destruct (sh_topo _ HS i (kind n) d) as (j & Hj & _); [|done|by eexists].
    apply (sh_inst _ HS). unfold skeleton. by rewrite list_lookup_fmap, Hi, <- (shape_ids _ _ _ HS Hi) at 1.
Qed.

Definition Ready (req : list Artifact) (p : Planner) : Prop :=
  Shape p ∧ Flow [] p ∧ Live p ∧ Served req p ∧ ∀ k, states p !! k ≠ Some InProgress.

Lemma plan_artifact_ok req p a :
  Ready req p → (∀ k pt, artifact_source ctx a = Ok (k, pt) → needed k) → (a = AOverlays → has_overlay ctx = true) →
  ∃ p', plan_artifact ctx p a = Ok p' ∧ Ready (req ++ [a]) p'.
Proof.
  intros (HS & HF & HL & HR & Hno) Hneed Hov. unfold plan_artifact.
  assert (bool_decide (a = AOverlays) && negb (has_overlay ctx) = false) as ->.
  { case_bool_decide as Ha; [|done]. by rewrite (Hov Ha). }
  destruct (artifact_source_total ctx a) as [[k pt] Ha]. rewrite Ha. cbn [mbind res_bind].
  destruct (ensure_ok fuel k) with (p := p) as (id & p1 & -> & HS1 & HF1 & HG1 & Hid); try done.
  { destruct k; vm_compute; lia. }
  { by eapply Hneed. }
  { intros k' Hk'. by apply Hno in Hk'. }
  cbn [mbind res_bind].
  destruct (request_ok req p1 k pt a id) as (p2 & -> & HK & HF2 & HL2 & HR2); try done.
  { intros s st. rewrite (gr_streams _ _ HG1). apply HL. }
  { intros b. rewrite (gr_streams _ _ HG1). apply HR. }
  exists p2. split; [done|]. split_and!; try done; [by eapply kept_shape|].
  intros k'. by rewrite (kp_states _ _ HK), (gr_open _ _ HG1).
Qed.

Lemma plan_each todo : ∀ req p,
  Ready req p → (∀ a k pt, a ∈ todo → artifact_source ctx a = Ok (k, pt) → needed k) →
  match foldM (plan_artifact ctx) p todo with
  | Ok p' => Ready (req ++ todo) p' ∧ (AOverlays ∈ todo → has_overlay ctx = true)
  | Err e => e = NoOverlay ∧ AOverlays ∈ todo ∧ has_overlay ctx = false
  | Panic => False
  end.
Proof.
  induction todo as [|a todo IH]; intros req p Hp Hneed; cbn [foldM].
  { rewrite app_nil_r. split; [done|]. by intros ?%elem_of_nil. }
  destruct (decide (a = AOverlays ∧ has_overlay ctx = false)) as [[-> Hov]|Hov].
  { assert (plan_artifact ctx p AOverlays = Err NoOverlay) as -> by (unfold plan_artifact; by rewrite Hov).
    cbn. split; [done|]. split; [constructor|done]. }
  assert (a = AOverlays → has_overlay ctx = true) as Hov'.
  { intros ->. destruct (has_overlay ctx); [done|]. by destruct Hov. }
  destruct (plan_artifact_ok req p a Hp) as (p' & -> & Hp'); [|done|].
  { intros k pt. apply Hneed. by constructor. }
  cbn [mbind res_bind]. specialize (IH (req ++ [a]) p' Hp'). rewrite <- (assoc_L (++)) in IH.
  assert (Hneed' : ∀ b k pt, b ∈ todo → artifact_source ctx b = Ok (k, pt) → needed k).
  { intros b k pt Hb. apply Hneed. by constructor. }
  destruct (foldM _ p' todo) as [p2|e|]; cbn in IH; [| |tauto].
  - destruct (IH Hneed') as [H1 H2]. split; [done|]. intros [<-|Hin]%elem_of_cons; auto.
  - destruct (IH Hneed') as (H1 & H2 & H3). split_and!; try done. by constructor.
Qed.

Lemma new_ready : Ready [] new_planner.
Proof.
  split_and!; try done.
  - split; cbn; try done.
    intros k. rewrite lookup_empty. split; [done|]. by intros [].
  - split; cbn; try done. intros k pt s. rewrite lookup_empty. split; [done|]. by intros (i & n & Hi & _).
  - intros a. cbn. rewrite elem_of_nil. split; [done|]. by intros (s & st & Hs & _).
Qed.
End invariant.

(** The kinds that the artifacts need. *)
Inductive needed (ctx : BuildContext) (arts : list Artifact) : NodeKind → Prop :=
| needed_source a k pt : a ∈ arts → artifact_source ctx a = Ok (k, pt) → needed ctx arts k
| needed_dep k d : needed ctx arts k → d ∈ dependencies ctx k → needed ctx arts (producer d).

(** The wiring of a graph, without the names and sizes of its streams. *)
Record Wired (g : Graph) : Prop := {
  wi_ids : ∀ i n, nodes g !! i = Some n → node_id n = i;
  wi_outputs : all_outputs g ≡ₚ seq 0 (length (streams g));
  wi_inputs : ∀ i n b, nodes g !! i = Some n → b ∈ inputs n → stream b < length (streams g);
  wi_consumers : ∀ s st, streams g !! s = Some st → consumers st ≡ₚ readers_of g s;
  wi_live : ∀ s st, streams g !! s = Some st → live st;
  wi_unique : ∀ s s' st st' a, streams g !! s = Some st → streams g !! s' = Some st' →
    artifact st = Some a → artifact st' = Some a → s = s'
}.

(** An input at position [i]: it is at the port the dependency names, and its
    stream leaves the producer the dependency names, which comes earlier. *)
Definition fed (g : Graph) (i : nat) (b : PortBinding) (d : Dependency) : Prop :=
  port b = consumer_port d ∧
  ∃ j m, j < i ∧ nodes g !! j = Some m ∧ kind m = producer d ∧
    {| port := producer_port d; stream := stream b |} ∈ outputs m.

Record Planned (ctx : BuildContext) (arts : list Artifact) (g : Graph) : Prop := {
  pl_wired : Wired g;
  pl_kinds : NoDup (kind <$> nodes g);
  pl_needed : ∀ k, k ∈ (kind <$> nodes g) ↔ needed ctx arts k;
  pl_inputs : ∀ i n, nodes g !! i = Some n → Forall2 (fed g i) (inputs n) (dependencies ctx (kind n));
  pl_terminals : ∀ a, a ∈ arts ↔ ∃ s st, streams g !! s = Some st ∧ artifact st = Some a;
  pl_sources : ∀ s st a, streams g !! s = Some st → artifact st = Some a →
    ∃ k pt n, artifact_source ctx a = Ok (k, pt) ∧ n ∈ nodes g ∧ kind n = k ∧
      {| port := pt; stream := s |} ∈ outputs n
}.

Lemma shape_has ctx nd p i n : Shape ctx nd p → nodes (graph p) !! i = Some n → instances p !! kind n = Some i.
Proof.
  intros HS Hi. apply (sh_inst _ _ _ HS). unfold skeleton. rewrite list_lookup_fmap, Hi. cbn.
  by rewrite (shape_ids _ _ _ _ _ HS Hi).
Qed.
Lemma shape_kinds ctx nd p k : Shape ctx nd p → k ∈ (kind <$> nodes (graph p)) ↔ is_Some (instances p !! k).
Proof.
  intros HS. rewrite list_elem_of_fmap. split.
  - intros (n & -> & [i Hi]%list_elem_of_lookup). exists i. by eapply shape_has.
  - intros [i Hi]. destruct (shape_node _ _ _ _ _ HS Hi) as (n & Hn & Hk & _). exists n. split; [done|].
    by eapply list_elem_of_lookup_2.
Qed.

Lemma flow_wired ctx nd td p : Shape ctx nd p → Flow ctx td p → Live p → Wired (graph p).
Proof.
  intros HS HF HL. split.
  - intros i n. by eapply shape_ids.
  - apply (fl_outs _ _ _ HF).
  - intros i n b. by apply (input_lt _ _ _ _ _ _ HF).
  - apply (fl_cons _ _ _ HF).
  - exact HL.
  - intros s s' st st' a Hs Hs' Ha Ha'.
    destruct (fl_art _ _ _ HF _ _ _ Hs Ha) as (kp & Hkp & Hp).
    destruct (fl_art _ _ _ HF _ _ _ Hs' Ha') as (kp' & Hkp' & Hp'). congruence.
Qed.

Lemma served_needed ctx arts p k :
  Shape ctx (needed ctx arts) p → Flow ctx (pending_bindings ctx (graph p)) p → Served arts p →
  needed ctx arts k → is_Some (instances p !! k).
Proof.
  intros HS HF HR Hn. induction Hn as [a k pt Ha Hs|k d Hn [i Hi] Hd].
  - apply HR in Ha as (s & st & Hst & Ha). destruct (fl_art _ _ _ HF _ _ _ Hst Ha) as ([k' pt'] & Hk & Hp).
    rewrite Hs in Hk. injection Hk as <- <-. apply (fl_planned _ _ _ HF) in Hp as (i & n & Hi & <- & _).
    exists i. by eapply shape_has.
  - destruct (sh_topo _ _ _ HS i k d Hi Hd) as (j & Hj & _). by exists j.
Qed.

Lemma pending_skeleton ctx g g' : skeleton g = skeleton g' → pending_bindings ctx g = pending_bindings ctx g'.
Proof.
  assert (Hp : ∀ g, pending_bindings ctx g = skeleton g ≫= λ x, (λ d, (x.1, d)) <$> dependencies ctx x.2).
  { intros h. unfold pending_bindings, skeleton. by induction (nodes h) as [|n ns IH]; [|cbn; f_equal]. }
  intros Hs. by rewrite !Hp, Hs.
Qed.

Lemma flow_planned ctx arts p :
  Shape ctx (needed ctx arts) p → Flow ctx (pending_bindings ctx (graph p)) p → Live p → Served arts p →
  Planned ctx arts (graph p).
Proof.
  intros HS HF HL HR. split.
  - by eapply flow_wired.
  - apply NoDup_alt. intros i j k Hi Hj.
    apply list_lookup_fmap_Some in Hi as (n & -> & Hi), Hj as (m & Hm & Hj). by eapply shape_unique.
  - intros k. rewrite (shape_kinds _ _ _ _ HS). split; [|by apply served_needed].
    intros [i Hi]. by eapply (sh_need _ _ _ HS).
  - intros i n Hi. pose proof (fl_ins _ _ _ HF i n Hi) as Hin.
    rewrite (pending_at ctx (graph p) i n) in Hin by (done || (intros; by eapply shape_ids)).
    apply Forall2_same_length_lookup. pose proof (Forall2_length _ _ _ Hin) as Hlen. split; [done|].
    intros j b d Hb Hd. destruct (Forall2_lookup_lr _ _ _ _ _ _ Hin Hb Hd) as [Hport Hp]. split; [done|].
    destruct (sh_topo _ _ _ HS i (kind n) d) as (j' & Hj' & Hlt).
    { by eapply shape_has. }
    { by eapply list_elem_of_lookup_2. }
    apply (fl_planned _ _ _ HF) in Hp as (j2 & m & Hm & Hk & Hbm). exists j2, m. split_and!; try done.
    pose proof (shape_has _ _ _ _ _ HS Hm) as Hj2. rewrite Hk in Hj2. congruence.
  - exact HR.
  - intros s st a Hs Ha. destruct (fl_art _ _ _ HF s st a Hs Ha) as ([k pt] & Hk & Hp).
    apply (fl_planned _ _ _ HF) in Hp as (i & n & Hi & Hkn & Hb). exists k, pt, n. split_and!; try done.
    by eapply list_elem_of_lookup_2.
Qed.

(** What [plan] returns; every other error of the planner is unreachable. *)
Lemma plan_result ctx arts :
  match plan ctx arts with
  | Ok g => Planned ctx arts g ∧ (AOverlays ∈ arts → has_overlay ctx = true)
  | Err e => e = NoOverlay ∧ AOverlays ∈ arts ∧ has_overlay ctx = false
  | Panic => False
  end.
Proof.
  unfold plan.
  pose proof (plan_each ctx (needed ctx arts) (needed_dep ctx arts) arts [] new_planner
    (new_ready _ _) (λ a k pt, needed_source ctx arts a k pt)) as Hp.
  destruct (foldM _ _ _) as [p|e|]; try done. cbn [mbind res_bind app] in Hp |- *.
  destruct Hp as [(HS & HF & HL & HR & _) Hov].
  destruct (bind_all_ok ctx (needed ctx arts) (needed_dep ctx arts) arts p HS HF HL HR) as (p' & -> & HK & HF' & HL' & HR').
  cbn [mbind res_bind]. split; [|done]. apply flow_planned; try done; [by eapply kept_shape|].
  by rewrite (pending_skeleton ctx _ _ (kp_skeleton _ _ HK)).
Qed.

(** C28: planning succeeds for every list of artifacts, except that the overlays of
    a profile without an overlay are refused. The graph has one node for each kind
    the artifacts need and no other; every node has exactly the inputs it declares,
    each from the declared port of a node earlier in the list; every stream leaves
    one output port, lists the nodes that read it, and ends at a node or at an
    artifact; and every requested artifact is the stream of one port. *)
Theorem plan_correct ctx arts :
  match plan ctx arts with
  | Ok g => Planned ctx arts g ∧ (AOverlays ∈ arts → has_overlay ctx = true)
  | Err e => e = NoOverlay ∧ AOverlays ∈ arts ∧ has_overlay ctx = false
  | Panic => False
  end.
Proof. apply plan_result. Qed.

(** The error of a request for missing overlays is returned before any node is made. *)
Lemma plan_no_overlay ctx : has_overlay ctx = false → plan ctx [AOverlays] = Err NoOverlay.
Proof. intros H. unfold plan. cbn [foldM]. unfold plan_artifact. by rewrite H. Qed.
