(* ===== verification/WizardBind.v ===== *)
(** What binding guarantees (toolchain/wizard/src/pipeline/prepare.rs): a planned
    graph binds whenever every requested artifact has a writer, no endpoint is
    left over, and every pipe has one reader and one writer, at the two ends of
    the stream it belongs to. *)

From stdpp Require Import gmap.
From S2P Require Import Prelude Utf Wizard WizardPlan.

#[local] Open Scope nat_scope.

(** ** Writers of the user *)

Lemma to_index_inj a b : to_index a = to_index b → a = b.
Proof. by destruct a, b. Qed.
Lemma to_index_lt a : to_index a < COUNT.
Proof. destruct a; vm_compute; lia. Qed.

Definition has_writer (slots : list (option nat)) (a : Artifact) : Prop := ∃ w, slots !! to_index a = Some (Some w).

Lemma new_writers_has targets a : a ∈ targets.*1 → has_writer (new_writers targets) a.
Proof.
  unfold new_writers, has_writer.
  assert (Hgen : ∀ slots, length slots = COUNT → a ∈ targets.*1 ∨ (∃ w, slots !! to_index a = Some (Some w)) →
    ∃ w, foldl (λ slots '(a, w), <[to_index a := Some w]> slots) slots targets !! to_index a = Some (Some w)).
  { induction targets as [|[b w] ts IH]; intros slots Hlen Hor; cbn.
    { destruct Hor as [Hin|Hs]; [by apply elem_of_nil in Hin|done]. }
    apply IH; [by rewrite length_insert|]. destruct (decide (b = a)) as [->|Hne].
    - right. exists w. apply list_lookup_insert_eq. rewrite Hlen. apply to_index_lt.
    - destruct Hor as [Hin|[w' Hw]].
      + left. by apply elem_of_cons in Hin as [->|Hin].
      + right. exists w'. rewrite list_lookup_insert_ne; [done|]. by intros ?%to_index_inj. }
  intros Hin. apply Hgen; [apply length_replicate|]. by left.
Qed.

(** ** Pipes *)

(** The first pipe of stream [s], and the sinks its producer writes. *)
Definition first_pipe (sts : list Stream) (s : nat) : nat := sum_list ((length ∘ consumers) <$> take s sts).
Definition pipe_count (sts : list Stream) : nat := first_pipe sts (length sts).
Definition target (slots : list (option nat)) (st : Stream) : list OutputWriter :=
  match artifact st with
  | Some a => match slots !! to_index a with Some (Some w) => [Target w] | _ => [] end
  | None => []
  end.
Definition sinks (w : OutputWriter) : list OutputWriter := match w with Fanout l => l | w => [w] end.
Definition joined (l : list OutputWriter) : OutputWriter := match l with [w] => w | _ => Fanout l end.

Definition reader_of (st : Stream) (i : nat) : InputStream :=
  {| in_name := stream_name st; in_size := stream_size st; reader := i |}.
Definition out_end (slots : list (option nat)) (st : Stream) (first : nat) : OutputStream :=
  {| out_size := stream_size st;
     writer := joined ((Pipe <$> seq first (length (consumers st))) ++ target slots st) |}.

Fixpoint all_ends (slots : list (option nat)) (sts : list Stream) (next : nat) : list (list (option InputStream) * OutputStream) :=
  match sts with
  | [] => []
  | st :: sts => ((pipes st next).2, out_end slots st next) :: all_ends slots sts (next + length (consumers st))
  end.

Lemma all_ends_lookup slots sts : ∀ next s st, sts !! s = Some st →
  all_ends slots sts next !! s
    = Some ((pipes st (next + first_pipe sts s)).2, out_end slots st (next + first_pipe sts s)).
Proof.
  induction sts as [|st0 sts IH]; intros next [|s] st Hs; simplify_eq/=.
  - unfold first_pipe. cbn. by rewrite Nat.add_0_r.
  - rewrite (IH _ _ _ Hs). unfold first_pipe. cbn. by rewrite Nat.add_assoc.
Qed.
Lemma all_ends_length slots sts : ∀ next, length (all_ends slots sts next) = length sts.
Proof. induction sts as [|st sts IH]; intros next; cbn; [done|]. by rewrite IH. Qed.

Lemma join_sinks_ok st l : l ≠ [] → join_sinks st l = Ok (joined l).
Proof. by destruct l as [|? []]. Qed.

Lemma take_writer_other slots a b :
  a ≠ b → (take_writer slots a).2 !! to_index b = slots !! to_index b.
Proof.
  intros Hne. unfold take_writer. destruct (slots !! to_index a) as [[w|]|]; cbn; try done.
  rewrite list_lookup_insert_ne; [done|]. by intros ?%to_index_inj.
Qed.

Lemma target_same slots slots' st :
  (∀ a, artifact st = Some a → slots' !! to_index a = slots !! to_index a) → target slots' st = target slots st.
Proof. unfold target. intros Hs. destruct (artifact st) as [a|]; [|done]. by rewrite (Hs a). Qed.

Lemma all_ends_same slots slots' sts :
  (∀ a, a ∈ omap artifact sts → slots' !! to_index a = slots !! to_index a) →
  ∀ next, all_ends slots' sts next = all_ends slots sts next.
Proof.
  induction sts as [|st sts IH]; intros Hs next; cbn; [done|]. f_equal.
  - unfold out_end. rewrite (target_same slots slots'); [done|]. intros a Ha. apply Hs. cbn. rewrite Ha. by left.
  - apply IH. intros a Ha. apply Hs. cbn. destruct (artifact st); [by right|done].
Qed.

Lemma allocate_ok granted sts : ∀ next slots t,
  next + sum_list ((length ∘ consumers) <$> sts) ≤ granted →
  (∀ st, st ∈ sts → live st) → NoDup (omap artifact sts) → (∀ a, a ∈ omap artifact sts → has_writer slots a) →
  ∃ slots', allocate granted sts next slots t =
    Ok ({| table_inputs := table_inputs t ++ (all_ends slots sts next).*1;
           table_outputs := table_outputs t ++ (Some <$> (all_ends slots sts next).*2) |}, slots').
Proof.
  induction sts as [|st sts IH]; intros next slots t Hgr Hlive Hnd Hw; cbn [allocate all_ends].
  { exists slots. cbn. rewrite !app_nil_r. by destruct t. }
  assert (Hst : live st) by (apply Hlive; constructor).
  assert (Hlive' : ∀ st, st ∈ sts → live st) by (intros; apply Hlive; by constructor).
  cbn [omap list_omap] in Hnd, Hw. cbn in Hgr. unfold make_pipes.
  rewrite (proj2 (Nat.leb_le _ _)) by lia. unfold pipes at 1. cbn [mbind res_bind].
  destruct (artifact st) as [a|] eqn:Ha.
  - apply NoDup_cons in Hnd as [Hna Hnd].
    destruct (Hw a) as [w Hwa]; [by left|].
    assert (Hother : ∀ b, b ∈ omap artifact sts → (take_writer slots a).2 !! to_index b = slots !! to_index b).
    { intros b Hb. apply take_writer_other. by intros ->. }
    unfold take_writer in Hother |- *. rewrite Hwa in Hother |- *. cbn [mbind res_bind snd] in Hother |- *.
    rewrite join_sinks_ok by (intros [_ ?]%app_eq_nil; done). cbn [mbind res_bind].
    edestruct (IH (next + length (consumers st)) (<[to_index a := None]> slots)) as [slots' ->]; try done.
    { lia. }
    { intros b Hb. unfold has_writer. rewrite Hother by done. apply Hw. by right. }
    exists slots'. f_equal. f_equal. cbn [table_inputs table_outputs fmap list_fmap fst snd].
    rewrite (all_ends_same slots) by done. rewrite <- !(assoc_L (++)). unfold out_end, target. rewrite Ha, Hwa. done.
  - cbn [mbind res_bind]. destruct Hst as [Hc|Hn]; [|rewrite Ha in Hn; by destruct Hn].
    rewrite join_sinks_ok by (by destruct (consumers st)). cbn [mbind res_bind].
    edestruct (IH (next + length (consumers st)) slots) as [slots' ->]; try done.
    { lia. }
    exists slots'. f_equal. f_equal. cbn [table_inputs table_outputs fmap list_fmap fst snd].
    rewrite <- !(assoc_L (++)). unfold out_end, target. rewrite Ha, app_nil_r. done.
Qed.

(** ** The ledger of endpoints *)

Definition count (s : nat) (l : list nat) : nat := length (filter (λ x, x = s) l).
Lemma count_cons s x l : count s (x :: l) = (if decide (x = s) then 1 else 0) + count s l.
Proof. unfold count. rewrite filter_cons. by destruct (decide (x = s)). Qed.
Lemma count_app s l l' : count s (l ++ l') = count s l + count s l'.
Proof. unfold count. by rewrite filter_app, length_app. Qed.

(** For each entry of a list of streams, how many of the stream come later. *)
Fixpoint tickets (l : list nat) : list (nat * nat) :=
  match l with
  | [] => []
  | s :: l => (s, count s l) :: tickets l
  end.
Lemma elem_of_tickets s i l : (s, i) ∈ tickets l ↔ i < count s l.
Proof.
  induction l as [|x l IH]; cbn [tickets]; [rewrite elem_of_nil; unfold count; cbn; lia|].
  rewrite elem_of_cons, IH, count_cons. destruct (decide (x = s)) as [->|Hne]; split; intros H.
  - destruct H as [[= ->]|H]; lia.
  - destruct (decide (i = count s l)) as [->|]; [by left|right; lia].
  - destruct H as [[= -> ->]|H]; [done|lia].
  - right. lia.
Qed.
Lemma NoDup_tickets l : NoDup (tickets l).
Proof.
  induction l as [|x l IH]; cbn [tickets]; constructor; [|done]. rewrite elem_of_tickets. lia.
Qed.

Lemma last_take_S {A} (l : list A) c x : l !! c = Some x → last (take (S c) l) = Some x ∧ removelast (take (S c) l) = take c l.
Proof.
  intros Hx. rewrite (take_S_r _ _ _ Hx). split; [apply last_snoc|apply removelast_last].
Qed.

Lemma existsb_none {A} (f : A → bool) l : (∀ x, x ∈ l → f x = false) → existsb f l = false.
Proof. induction l as [|x l IH]; intros Hf; cbn; [done|]. rewrite (Hf x), IH; set_solver. Qed.

Section ledger.
Context (R : list (list InputStream)) (O : list OutputStream).

(** The ledger when the readers of [ri] and the writers of [ro] are still to be taken. *)
Definition InLeft (ri : list nat) (t : PortTable) : Prop :=
  length (table_inputs t) = length R ∧
  ∀ s rs, R !! s = Some rs → table_inputs t !! s = Some (Some <$> take (count s ri) rs).
Definition OutLeft (ro : list nat) (t : PortTable) : Prop :=
  length (table_outputs t) = length O ∧
  ∀ s o, O !! s = Some o → table_outputs t !! s = Some (if decide (s ∈ ro) then Some o else None).

Lemma take_input_ok s ri t rs :
  InLeft (s :: ri) t → R !! s = Some rs → count s (s :: ri) ≤ length rs →
  ∃ i t', take_input t s = Ok (i, t') ∧ rs !! count s ri = Some i ∧ InLeft ri t' ∧ table_outputs t' = table_outputs t.
Proof.
  intros [Hlen Ht] Hs Hle. rewrite count_cons, decide_True in Hle by done.
  destruct (lookup_lt_is_Some_2 rs (count s ri)) as [i Hi]; [lia|].
  pose proof (Ht s rs Hs) as Hts. rewrite count_cons, decide_True in Hts by done. cbn [Nat.add] in Hts.
  destruct (last_take_S (Some <$> rs) (count s ri) (Some i)) as [Hlast Hrem]; [by rewrite list_lookup_fmap, Hi|].
  rewrite fmap_take in Hts.
  unfold take_input. rewrite Hts, Hlast, Hrem. eexists i, _. split; [reflexivity|]. split; [done|]. split; [|done].
  split; cbn; [by rewrite length_insert|]. intros s' rs' Hs'. destruct (decide (s' = s)) as [->|Hne].
  - rewrite list_lookup_insert_eq by (rewrite Hlen; by eapply lookup_lt_Some). simplify_eq. by rewrite fmap_take.
  - rewrite list_lookup_insert_ne by done. rewrite (Ht s' rs' Hs'), count_cons, decide_False by done. done.
Qed.

Lemma take_output_ok s ro t o :
  OutLeft (s :: ro) t → O !! s = Some o → s ∉ ro →
  ∃ t', take_output t s = Ok (o, t') ∧ OutLeft ro t' ∧ table_inputs t' = table_inputs t.
Proof.
  intros [Hlen Ht] Hs Hro. pose proof (Ht s o Hs) as Hts. rewrite decide_True in Hts by set_solver.
  unfold take_output. rewrite Hts. eexists. split; [reflexivity|]. split; [|done].
  split; cbn; [by rewrite length_insert|]. intros s' o' Hs'. destruct (decide (s' = s)) as [->|Hne].
  - rewrite list_lookup_insert_eq by (rewrite Hlen; by eapply lookup_lt_Some). by rewrite decide_False.
  - rewrite list_lookup_insert_ne by done. rewrite (Ht s' o' Hs'). repeat f_equal.
    destruct (decide (s' ∈ ro)); [rewrite decide_True by set_solver|rewrite decide_False by set_solver]; done.
Qed.

(** The reader that a ticket stands for. *)
Definition serves (x : nat * InputStream) (tk : nat * nat) : Prop := ∃ rs, R !! tk.1 = Some rs ∧ rs !! tk.2 = Some x.2.

Lemma take_inputs_ok bs : ∀ ri t,
  InLeft ((stream <$> bs) ++ ri) t →
  (∀ s, s ∈ (stream <$> bs) → ∃ rs, R !! s = Some rs ∧ count s ((stream <$> bs) ++ ri) ≤ length rs) →
  ∃ xs t' tks, take_all take_input bs t = Ok (xs, t') ∧ InLeft ri t' ∧ table_outputs t' = table_outputs t ∧
    tickets ((stream <$> bs) ++ ri) = tks ++ tickets ri ∧
    Forall2 serves xs tks ∧ Forall2 (λ x b, x.1 = port b) xs bs ∧ tks.*1 = stream <$> bs.
Proof.
  induction bs as [|b bs IH]; intros ri t Ht Hin.
  { exists [], t, []. split_and!; done. }
  destruct (Hin (stream b)) as (rs & Hs & Hle); [cbn; set_solver|]. cbn [fmap list_fmap app] in Ht, Hle, Hin.
  destruct (take_input_ok _ _ _ _ Ht Hs Hle) as (i & t1 & Htk & Hi & Ht1 & Ho1).
  destruct (IH ri t1 Ht1) as (xs & t' & tks & Hall & Ht' & Ho' & Htks & Hserve & Hport & Hfst).
  { intros s Hsin. destruct (Hin s) as (rs' & Hs' & Hle'); [by right|]. exists rs'. split; [done|].
    rewrite count_cons in Hle'. lia. }
  cbn [take_all]. rewrite Htk. cbn [mbind res_bind]. unfold mbind in Hall. rewrite Hall. cbn [mbind res_bind].
  eexists _, t', ((stream b, count (stream b) ((stream <$> bs) ++ ri)) :: tks). split; [reflexivity|].
  split_and!; try done; try congruence.
  - cbn. by rewrite <- Htks.
  - constructor; [|done]. by exists rs.
  - by constructor.
  - cbn. by rewrite Hfst.
Qed.

Lemma take_outputs_ok bs : ∀ ro t,
  OutLeft ((stream <$> bs) ++ ro) t → NoDup ((stream <$> bs) ++ ro) →
  (∀ s, s ∈ (stream <$> bs) → is_Some (O !! s)) →
  ∃ xs t', take_all take_output bs t = Ok (xs, t') ∧ OutLeft ro t' ∧ table_inputs t' = table_inputs t ∧
    Forall2 (λ x b, x.1 = port b ∧ O !! stream b = Some x.2) xs bs.
Proof.
  induction bs as [|b bs IH]; intros ro t Ht Hnd Hin.
  { exists [], t. split_and!; done. }
  destruct (Hin (stream b)) as [o Ho]; [cbn; set_solver|]. cbn [fmap list_fmap app] in Ht, Hnd, Hin.
  apply NoDup_cons in Hnd as [Hnb Hnd].
  destruct (take_output_ok _ _ _ _ Ht Ho Hnb) as (t1 & Htk & Ht1 & Hi1).
  destruct (IH ro t1 Ht1 Hnd) as (xs & t' & Hall & Ht' & Hi' & Hxs).
  { intros s Hs. apply Hin. by right. }
  cbn [take_all]. rewrite Htk. cbn [mbind res_bind]. rewrite Hall. cbn [mbind res_bind].
  eexists _, t'. split; [reflexivity|]. split_and!; try done; [congruence|]. by constructor.
Qed.

Lemma assert_empty_ok t : InLeft [] t → OutLeft [] t → assert_empty t = Ok tt.
Proof.
  intros [Hli Hi] [Hlo Ho]. unfold assert_empty.
  replace (existsb _ (table_inputs t)) with false; cycle 1.
  { symmetry. apply existsb_none. intros slots [s Hs]%list_elem_of_lookup.
    destruct (lookup_lt_is_Some_2 R s) as [rs Hrs]; [rewrite <- Hli; by eapply lookup_lt_Some|].
    rewrite (Hi _ _ Hrs) in Hs. injection Hs as <-. done. }
  replace (position _ (table_outputs t)) with (@None nat); [done|]. symmetry. apply position_None, Forall_forall.
  intros o [s Hs]%list_elem_of_lookup.
  destruct (lookup_lt_is_Some_2 O s) as [o' Ho']; [rewrite <- Hlo; by eapply lookup_lt_Some|].
  rewrite (Ho _ _ Ho'), decide_False in Hs by set_solver. by injection Hs as <-.
Qed.

Definition node_inputs (ns : list Node) : list nat := ns ≫= λ n, stream <$> inputs n.
Definition node_outputs (ns : list Node) : list nat := ns ≫= λ n, stream <$> outputs n.

(** A node with the ends of the streams it is bound to. *)
Definition attached (pn : PreparedNode) (n : Node) : Prop :=
  prepared_kind pn = kind n ∧
  Forall2 (λ x b, x.1 = port b ∧ ∃ rs, R !! stream b = Some rs ∧ x.2 ∈ rs) (in_ports pn) (inputs n) ∧
  Forall2 (λ x b, x.1 = port b ∧ O !! stream b = Some x.2) (out_ports pn) (outputs n).

Lemma served_inputs xs tks bs :
  Forall2 serves xs tks → Forall2 (λ x b, x.1 = port b) xs bs → tks.*1 = stream <$> bs →
  Forall2 (λ x b, x.1 = port b ∧ ∃ rs, R !! stream b = Some rs ∧ x.2 ∈ rs) xs bs.
Proof.
  intros Hs. revert bs. induction Hs as [|x tk xs tks (rs & Hrs & Hi) Hs IH]; intros bs Hp Hf.
  - inversion Hp. constructor.
  - inversion Hp as [|? b ? bs' Hxb Hp']; subst. cbn in Hf. injection Hf as Htk Hf. constructor; [|by apply IH].
    split; [done|]. exists rs. rewrite <- Htk. split; [done|]. by eapply list_elem_of_lookup_2.
Qed.

Lemma bind_each_nodes ns : ∀ t,
  InLeft (node_inputs ns) t → OutLeft (node_outputs ns) t → NoDup (node_outputs ns) →
  (∀ s, s ∈ node_inputs ns → ∃ rs, R !! s = Some rs ∧ count s (node_inputs ns) ≤ length rs) →
  (∀ s, s ∈ node_outputs ns → is_Some (O !! s)) →
  ∃ pns t', bind_each ns t = Ok (pns, t') ∧ InLeft [] t' ∧ OutLeft [] t' ∧ Forall2 attached pns ns ∧
    Forall2 serves (pns ≫= in_ports) (tickets (node_inputs ns)).
Proof.
  induction ns as [|n ns IH]; intros t Hi Ho Hnd Hin Hout.
  { exists [], t. split_and!; try done; constructor. }
  cbn [node_inputs node_outputs mbind list_bind] in Hi, Ho, Hnd, Hin, Hout |- *.
  fold (node_inputs ns) in *. fold (node_outputs ns) in *.
  change (ns ≫= λ n, stream <$> inputs n) with (node_inputs ns) in *.
  change (ns ≫= λ n, stream <$> outputs n) with (node_outputs ns) in *.
  destruct (take_inputs_ok (inputs n) (node_inputs ns) t Hi) as (xs & t1 & tks & Ht1 & Hi1 & Ho1 & Htk & Hserve & Hport & Hfst).
  { intros s Hs. apply Hin. set_solver. }
  assert (Ho1' : OutLeft ((stream <$> outputs n) ++ node_outputs ns) t1) by (unfold OutLeft; by rewrite Ho1).
  destruct (take_outputs_ok (outputs n) (node_outputs ns) t1 Ho1' Hnd) as (ys & t2 & Ht2 & Ho2 & Hi2 & Hys).
  { intros s Hs. apply Hout. set_solver. }
  assert (Hi2' : InLeft (node_inputs ns) t2) by (unfold InLeft; by rewrite Hi2).
  apply NoDup_app in Hnd as (_ & _ & Hnd).
  destruct (IH t2 Hi2' Ho2 Hnd) as (pns & t3 & Ht3 & Hi3 & Ho3 & Hatt & Hall).
  { intros s Hs. destruct (Hin s) as (rs & Hrs & Hle); [set_solver|]. exists rs. split; [done|].
    rewrite count_app in Hle. lia. }
  { intros s Hs. apply Hout. set_solver. }
  cbn [bind_each]. unfold bind_node. rewrite Ht1. cbn [mbind res_bind]. rewrite Ht2. cbn [mbind res_bind].
  rewrite Ht3. cbn [mbind res_bind]. eexists _, t3. split; [reflexivity|]. split_and!; try done.
  - constructor; [|done]. split_and!; try done. by eapply served_inputs.
  - rewrite Htk. cbn [mbind list_bind in_ports]. by apply Forall2_app.
Qed.
End ledger.

(** ** Numbers of pipes *)

Lemma first_pipe_step sts : ∀ s s' st, sts !! s = Some st → s < s' →
  first_pipe sts s + length (consumers st) ≤ first_pipe sts s'.
Proof.
  unfold first_pipe. induction sts as [|st0 sts IH]; intros [|s] [|s'] st Hs Hlt; simplify_eq/=; try lia.
  specialize (IH s s' st Hs). lia.
Qed.
Lemma pipe_owner sts : ∀ x, x < pipe_count sts →
  ∃ s st i, sts !! s = Some st ∧ i < length (consumers st) ∧ x = first_pipe sts s + i.
Proof.
  unfold pipe_count, first_pipe. induction sts as [|st sts IH]; intros x Hx; cbn in Hx; [lia|].
  destruct (decide (x < length (consumers st))) as [Hlt|Hge].
  - exists 0, st, x. split_and!; [done|lia|cbn; lia].
  - destruct (IH (x - length (consumers st))) as (s & st' & i & Hs & Hi & Heq).
    { cbn in *. lia. }
    exists (S s), st', i. split_and!; try done. cbn. lia.
Qed.
Lemma pipe_owner_unique sts s s' st st' i i' :
  sts !! s = Some st → sts !! s' = Some st' → i < length (consumers st) → i' < length (consumers st') →
  first_pipe sts s + i = first_pipe sts s' + i' → s = s' ∧ i = i'.
Proof.
  intros Hs Hs' Hi Hi' Heq. destruct (Nat.lt_trichotomy s s') as [Hlt|[->|Hlt]].
  - pose proof (first_pipe_step _ _ _ _ Hs Hlt). lia.
  - split; [done|]. lia.
  - pose proof (first_pipe_step _ _ _ _ Hs' Hlt). lia.
Qed.

Lemma tickets_pipes sts l :
  (∀ s, s ∈ l → s < length sts) → (∀ s st, sts !! s = Some st → count s l = length (consumers st)) →
  ((λ tk, first_pipe sts tk.1 + tk.2) <$> tickets l) ≡ₚ seq 0 (pipe_count sts).
Proof.
  intros Hlt Hcount.
  assert (Hin : ∀ s i, (s, i) ∈ tickets l ↔ ∃ st, sts !! s = Some st ∧ i < length (consumers st)).
  { intros s i. rewrite elem_of_tickets. split.
    - intros Hi. assert (Hs : s ∈ l).
      { destruct (decide (s ∈ l)) as [|Hn]; [done|]. unfold count in Hi.
        exfalso. revert Hi.
        replace (filter (λ x, x = s) l) with (@nil nat); [cbn; lia|]. symmetry. apply elem_of_nil_inv.
        intros x [-> Hx]%list_elem_of_filter. done. }
      destruct (lookup_lt_is_Some_2 _ _ (Hlt s Hs)) as [st Hst]. exists st. by rewrite <- (Hcount s st Hst).
    - intros (st & Hst & Hi). by rewrite (Hcount s st Hst). }
  apply NoDup_Permutation.
  - apply NoDup_fmap_2_strong; [|apply NoDup_tickets]. intros [s i] [s' i'] Hx Hy Heq. cbn in Heq.
    apply Hin in Hx as (st & Hs & Hi), Hy as (st' & Hs' & Hi').
    by destruct (pipe_owner_unique _ _ _ _ _ _ _ Hs Hs' Hi Hi' Heq) as [-> ->].
  - apply NoDup_seq.
  - intros x. rewrite list_elem_of_fmap, elem_of_seq. split.
    + intros ([s i] & -> & (st & Hs & Hi)%Hin). cbn [fst snd]. pose proof (lookup_lt_Some _ _ _ Hs) as Hl.
      pose proof (first_pipe_step _ _ _ _ Hs Hl). unfold pipe_count. lia.
    + intros [_ Hx]. destruct (pipe_owner sts x Hx) as (s & st & i & Hs & Hi & ->). exists (s, i).
      split; [done|]. apply Hin. eauto.
Qed.

(** ** Binding a graph *)

(** A node with the ends of its streams: at each input port a pipe of the stream,
    at each output port a writer to all pipes of the stream and to the writer of
    the user when the stream is an artifact. *)
Definition in_end (sts : list Stream) (x : nat * InputStream) (b : PortBinding) : Prop :=
  x.1 = port b ∧ ∃ st, sts !! stream b = Some st ∧ in_name x.2 = stream_name st ∧ in_size x.2 = stream_size st ∧
    reader x.2 ∈ seq (first_pipe sts (stream b)) (length (consumers st)).
Definition out_sinks (sts : list Stream) (slots : list (option nat)) (x : nat * OutputStream) (b : PortBinding) : Prop :=
  x.1 = port b ∧ ∃ st, sts !! stream b = Some st ∧ out_size x.2 = stream_size st ∧
    sinks (writer x.2)
      = (Pipe <$> seq (first_pipe sts (stream b)) (length (consumers st))) ++ target slots st.
Definition prepared (sts : list Stream) (slots : list (option nat)) (pn : PreparedNode) (n : Node) : Prop :=
  prepared_kind pn = kind n ∧ Forall2 (in_end sts) (in_ports pn) (inputs n) ∧
  Forall2 (out_sinks sts slots) (out_ports pn) (outputs n).

Lemma sinks_joined l : (∀ w, w ∈ l → ∀ l', w ≠ Fanout l') → l ≠ [] → sinks (joined l) = l.
Proof.
  intros Hl Hne. destruct l as [|w [|w' l]]; [done| |done]. cbn. destruct w as [i|t|l']; cbn; try done.
  by destruct (Hl (Fanout l') (list_elem_of_here _ _) l').
Qed.

Lemma plain_sinks slots st first w l :
  w ∈ (Pipe <$> seq first (length (consumers st))) ++ target slots st → w ≠ Fanout l.
Proof.
  rewrite elem_of_app, list_elem_of_fmap. intros [(i & -> & _)|Hw]; [done|]. unfold target in Hw.
  destruct (artifact st); [destruct (slots !! _) as [[]|]|]; set_solver.
Qed.

Lemma live_sinks slots st first :
  live st → (∀ a, artifact st = Some a → has_writer slots a) →
  (Pipe <$> seq first (length (consumers st))) ++ target slots st ≠ [].
Proof.
  intros [Hc|[a Ha]] Hw; [by destruct (consumers st)|]. unfold target. rewrite Ha. destruct (Hw a Ha) as [w ->].
  by intros [_ ?]%app_eq_nil.
Qed.

Lemma wired_count g s st : Wired g → streams g !! s = Some st → count s (node_inputs (nodes g)) = length (consumers st).
Proof.
  intros Hw Hs. rewrite (wi_consumers _ Hw s st Hs). unfold count, node_inputs, readers_of.
  induction (nodes g) as [|n ns IH]; [done|]. cbn [mbind list_bind].
  rewrite filter_app, !length_app, length_fmap. f_equal; [|exact IH].
  clear. induction (inputs n) as [|b bs IH]; [done|]. cbn [fmap list_fmap].
  rewrite !filter_cons. destruct (decide (stream b = s)); cbn [length]; [by f_equal|done].
Qed.

Lemma wired_artifacts g : Wired g → NoDup (omap artifact (streams g)).
Proof.
  intros Hw. pose proof (wi_unique _ Hw) as Hu. induction (streams g) as [|st sts IH]; cbn; [constructor|].
  assert (IH' : NoDup (omap artifact sts)).
  { apply IH. intros s s' x x' a Hs Hs' Ha Ha'. pose proof (Hu (S s) (S s') x x' a Hs Hs' Ha Ha'). lia. }
  destruct (artifact st) as [a|] eqn:Ha; [|done]. constructor; [|done].
  intros (x & [s Hs]%list_elem_of_lookup & Hx)%list_elem_of_omap.
  pose proof (Hu 0 (S s) st x a eq_refl Hs Ha Hx). lia.
Qed.

Section bind.
Context (granted : nat) (g : Graph) (slots : list (option nat)) (wired : Wired g)
  (enough : pipe_count (streams g) ≤ granted)
  (writers : ∀ a, a ∈ omap artifact (streams g) → has_writer slots a).

Definition readers_at (s : nat) (st : Stream) : list InputStream :=
  reader_of st <$> seq (first_pipe (streams g) s) (length (consumers st)).
(** The ends that [allocate] makes. *)
Definition reading_ends : list (list InputStream) := imap readers_at (streams g).
Definition writing_ends : list OutputStream := (all_ends slots (streams g) 0).*2.

Lemma ends_readers : (all_ends slots (streams g) 0).*1 = (λ rs : list InputStream, Some <$> rs) <$> reading_ends.
Proof.
  apply list_eq. intros s. unfold reading_ends. rewrite !list_lookup_fmap, list_lookup_imap.
  destruct (streams g !! s) as [st|] eqn:Hs; cbn.
  - rewrite (all_ends_lookup _ _ 0 s st Hs). cbn. unfold readers_at. by rewrite <- list_fmap_compose.
  - rewrite lookup_ge_None_2; [done|]. rewrite all_ends_length. by apply lookup_ge_None.
Qed.

Lemma reading_ends_at s rs :
  reading_ends !! s = Some rs ↔ ∃ st, streams g !! s = Some st ∧ rs = readers_at s st.
Proof. unfold reading_ends. rewrite list_lookup_imap. destruct (streams g !! s); naive_solver. Qed.
Lemma writing_ends_at s o :
  writing_ends !! s = Some o ↔
  ∃ st, streams g !! s = Some st ∧ o = out_end slots st (first_pipe (streams g) s).
Proof.
  unfold writing_ends. rewrite list_lookup_fmap. destruct (streams g !! s) as [st|] eqn:Hs.
  - rewrite (all_ends_lookup _ _ 0 s st Hs). cbn. naive_solver.
  - rewrite lookup_ge_None_2; [naive_solver|]. rewrite all_ends_length. by apply lookup_ge_None.
Qed.

Lemma attached_prepared pn n : attached reading_ends writing_ends pn n → prepared (streams g) slots pn n.
Proof.
  intros (Hk & Hins & Houts). split; [done|]. split.
  - eapply Forall2_impl; [exact Hins|]. intros x b (Hp & rs & (st & Hs & ->)%reading_ends_at & Hx).
    apply list_elem_of_fmap in Hx as (i & Hxi & Hi). split; [done|]. exists st. by rewrite Hxi.
  - eapply Forall2_impl; [exact Houts|]. intros x b (Hp & (st & Hs & Hx)%writing_ends_at). split; [done|].
    exists st. rewrite Hx. split_and!; try done. cbn [out_end writer].
    apply sinks_joined; [intros w Hw l'; by eapply plain_sinks|].
    apply live_sinks; [by apply (wi_live _ wired (stream b))|].
    intros a Ha. apply writers. apply list_elem_of_omap. exists st. split; [by eapply list_elem_of_lookup_2|done].
Qed.

Lemma served_readers xs tks :
  Forall2 (serves reading_ends) xs tks →
  (reader ∘ snd <$> xs) = (λ tk, first_pipe (streams g) tk.1 + tk.2) <$> tks.
Proof.
  induction 1 as [|x tk xs tks (rs & Hrs & Hi) Hs IH]; [done|]. cbn [fmap list_fmap]. f_equal; [|exact IH].
  apply reading_ends_at in Hrs as (st & _ & ->). unfold readers_at in Hi.
  apply list_lookup_fmap_Some in Hi as (i & Hx & Hi). apply lookup_seq in Hi as [-> _]. cbn. by rewrite Hx.
Qed.

Lemma node_inputs_lt s : s ∈ node_inputs (nodes g) → s < length (streams g).
Proof.
  intros (n & Hs & [i Hi]%list_elem_of_lookup)%list_elem_of_bind.
  apply list_elem_of_fmap in Hs as (b & -> & Hb). by eapply (wi_inputs _ wired).
Qed.
Lemma node_outputs_lt s : s ∈ node_outputs (nodes g) ↔ s < length (streams g).
Proof. change (s ∈ all_outputs g ↔ s < length (streams g)). rewrite (wi_outputs _ wired), elem_of_seq. lia. Qed.

(** The ledger is full, for exactly the bindings of the nodes. *)
Definition full_ledger : PortTable :=
  {| table_inputs := (λ rs : list InputStream, Some <$> rs) <$> reading_ends;
     table_outputs := Some <$> writing_ends |}.
Lemma full_inputs : InLeft reading_ends (node_inputs (nodes g)) full_ledger.
Proof.
  split; [by apply length_fmap|]. intros s rs Hrs. cbn. rewrite list_lookup_fmap, Hrs. cbn. do 2 f_equal.
  apply reading_ends_at in Hrs as (st & Hs & ->). symmetry. apply take_ge. unfold readers_at.
  by rewrite length_fmap, length_seq, (wired_count g s st wired Hs).
Qed.
Lemma full_outputs : OutLeft writing_ends (node_outputs (nodes g)) full_ledger.
Proof.
  split; [by apply length_fmap|]. intros s o Ho. cbn. rewrite list_lookup_fmap, Ho. cbn.
  rewrite decide_True; [done|]. apply node_outputs_lt. apply writing_ends_at in Ho as (st & Hs & _).
  by eapply lookup_lt_Some.
Qed.

Lemma bind_result :
  ∃ pns slots', bind_nodes granted g slots = Ok (pns, slots') ∧ Forall2 (prepared (streams g) slots) pns (nodes g) ∧
    (reader ∘ snd <$> (pns ≫= in_ports)) ≡ₚ seq 0 (pipe_count (streams g)).
Proof.
  destruct (allocate_ok granted (streams g) 0 slots {| table_inputs := []; table_outputs := [] |}) as [slots' Halloc].
  { revert enough. unfold pipe_count, first_pipe. by rewrite take_ge by done. }
  { intros st [s Hs]%list_elem_of_lookup. by apply (wi_live _ wired s). }
  { by apply wired_artifacts. }
  { done. }
  cbn [table_inputs table_outputs app] in Halloc. rewrite ends_readers in Halloc.
  destruct (bind_each_nodes reading_ends writing_ends (nodes g) full_ledger full_inputs full_outputs)
    as (pns & t' & Hbind & Hi' & Ho' & Hatt & Hserve).
  - change (NoDup (all_outputs g)). rewrite (wi_outputs _ wired). apply NoDup_seq.
  - intros s Hs. destruct (lookup_lt_is_Some_2 _ _ (node_inputs_lt s Hs)) as [st Hst]. exists (readers_at s st).
    split; [apply reading_ends_at; by exists st|].
    unfold readers_at. by rewrite length_fmap, length_seq, (wired_count g s st wired Hst).
  - intros s Hs%node_outputs_lt. destruct (lookup_lt_is_Some_2 _ _ Hs) as [st Hst]. eexists.
    apply writing_ends_at. by exists st.
  - unfold bind_nodes. rewrite Halloc. cbn [mbind res_bind]. fold writing_ends.
    change ({| table_inputs := _; table_outputs := _ |}) with full_ledger. rewrite Hbind. cbn [mbind res_bind].
    rewrite (assert_empty_ok _ _ t' Hi' Ho'). cbn [mbind res_bind]. exists pns, slots'. split; [done|]. split.
    + eapply Forall2_impl; [exact Hatt|]. intros pn n. apply attached_prepared.
    + rewrite (served_readers _ _ Hserve). apply tickets_pipes; [apply node_inputs_lt|].
      intros s st. by apply wired_count.
Qed.
End bind.

(** What a preflight changes: the names and sizes of streams. *)
Definition relabelled (g g' : Graph) : Prop :=
  nodes g' = nodes g ∧
  Forall2 (λ st st', consumers st' = consumers st ∧ artifact st' = artifact st) (streams g) (streams g').

Lemma relabelled_at g g' s st' :
  relabelled g g' → streams g' !! s = Some st' →
  ∃ st, streams g !! s = Some st ∧ consumers st' = consumers st ∧ artifact st' = artifact st.
Proof. intros [_ Hf] Hs. by destruct (Forall2_lookup_r _ _ _ _ _ Hf Hs) as (st & Hst & Hc & Ha); eauto. Qed.

Lemma relabelled_wired g g' : relabelled g g' → Wired g → Wired g'.
Proof.
  intros Hr Hw. pose proof (relabelled_at g g') as Hat. pose proof Hr as [Hn Hf].
  pose proof (Forall2_length _ _ _ Hf) as Hlen. split; unfold all_outputs, readers_of; rewrite ?Hn, <- ?Hlen.
  - apply (wi_ids _ Hw).
  - apply (wi_outputs _ Hw).
  - apply (wi_inputs _ Hw).
  - intros s st' (st & Hs & -> & _)%Hat; [|done]. by apply (wi_consumers _ Hw).
  - intros s st' (st & Hs & Hc & Ha)%Hat; [|done]. unfold live. rewrite Hc, Ha. by apply (wi_live _ Hw s).
  - intros s1 s2 x y a (st & Hs & _ & Ha)%Hat (st' & Hs' & _ & Ha')%Hat; try done. rewrite Ha, Ha'.
    by apply (wi_unique _ Hw).
Qed.

(** A node finds at the port of each dependency it declares a pipe of the stream
    that the declared producer writes. *)
Lemma take_declared sts g i pn n ctx d :
  Forall2 (in_end sts) (in_ports pn) (inputs n) → Forall2 (fed g i) (inputs n) (dependencies ctx (kind n)) →
  d ∈ dependencies ctx (kind n) →
  ∃ x rest b, ports_take (in_ports pn) (consumer_port d) = Ok (x, rest) ∧ b ∈ inputs n ∧ fed g i b d ∧
    in_end sts (consumer_port d, x) b.
Proof.
  intros Hin Hfed Hd. unfold ports_take.
  assert (Hex : ∃ e, e ∈ in_ports pn ∧ e.1 = consumer_port d).
  { apply list_elem_of_lookup in Hd as [j Hj]. destruct (Forall2_lookup_r _ _ _ _ _ Hfed Hj) as (b & Hb & Hp & _).
    destruct (Forall2_lookup_r _ _ _ _ _ Hin Hb) as (e & He & Hpe & _). exists e.
    split; [by eapply list_elem_of_lookup_2|congruence]. }
  destruct (list_find _ (in_ports pn)) as [[j e]|] eqn:Hf; cycle 1.
  { apply list_find_None in Hf. rewrite Forall_forall in Hf. destruct Hex as (e & He & Hp). by destruct (Hf e He). }
  apply list_find_Some in Hf as (He & Hp & _).
  destruct (Forall2_lookup_l _ _ _ _ _ Hin He) as (b & Hb & Hend).
  destruct (Forall2_lookup_l _ _ _ _ _ Hfed Hb) as (d' & Hd' & Hfd).
  assert (d' = d) as ->.
  { apply (NoDup_fmap_elem consumer_port _ _ _ (dependencies_ports ctx (kind n))); [by eapply list_elem_of_lookup_2|done|].
    destruct Hfd as [Hpb _], Hend as [Hpe _]. congruence. }
  destruct e as [pe x]. cbn in Hp. subst pe.
  eexists x, _, b. split; [done|]. split; [by eapply list_elem_of_lookup_2|done].
Qed.

(** C29: a planned graph, whatever names and sizes its streams were given, binds
    when every requested artifact has a writer and the system grants its pipes. No end of a pipe is missing or left
    over: each node gets at each of its ports an end of the stream bound there, the
    output of a stream writes all pipes of its consumers and the writer of its
    artifact, and every pipe is read by exactly one input. A node that takes the
    port of a dependency it declares gets a pipe that the declared producer, which
    is earlier in the list, writes from the declared port. *)
Theorem planned_binds granted ctx arts g g' targets :
  plan ctx arts = Ok g → relabelled g g' → (∀ a, a ∈ arts → a ∈ targets.*1) → pipe_count (streams g') ≤ granted →
  ∃ pns slots', bind_nodes granted g' (new_writers targets) = Ok (pns, slots') ∧
    Forall2 (prepared (streams g') (new_writers targets)) pns (nodes g) ∧
    (reader ∘ snd <$> (pns ≫= in_ports)) ≡ₚ seq 0 (pipe_count (streams g')) ∧
    ∀ i pn n d, pns !! i = Some pn → nodes g !! i = Some n → d ∈ dependencies ctx (kind n) →
      ∃ x rest b, ports_take (in_ports pn) (consumer_port d) = Ok (x, rest) ∧ b ∈ inputs n ∧ fed g i b d ∧
        in_end (streams g') (consumer_port d, x) b.
Proof.
  intros Hplan Hr Ht Hgr. pose proof (plan_result ctx arts) as Hp. rewrite Hplan in Hp. destruct Hp as [Hp _].
  destruct (bind_result granted g' (new_writers targets)) as (pns & slots' & Hb & Hpre & Hperm).
  - by eapply relabelled_wired, (pl_wired _ _ _ Hp).
  - done.
  - intros a (st' & [s Hs]%list_elem_of_lookup & Ha)%list_elem_of_omap.
    destruct (relabelled_at _ _ _ _ Hr Hs) as (st & Hst & _ & Ha'). apply new_writers_has, Ht, (pl_terminals _ _ _ Hp).
    exists s, st. split; [done|congruence].
  - exists pns, slots'. rewrite (proj1 Hr) in Hpre. split_and!; try done. intros i pn n d Hpn Hn Hd.
    destruct (Forall2_lookup_lr _ _ _ _ _ _ Hpre Hpn Hn) as (_ & Hin & _).
    by apply (take_declared _ _ _ _ _ ctx); [|apply (pl_inputs _ _ _ Hp)|].
Qed.

Module Demo.
(** A signed image with an overlay of two assets and one extension. *)
Definition ctx : BuildContext :=
  {| has_overlay := true; overlay_assets := Some 2; signing := true; extensions := 1 |}.
Definition arts : list Artifact := [AKernel; AUki; ARaw; AOverlays].
Definition g : Graph := match plan ctx arts with Ok g => g | _ => new_graph end.
Definition named : Graph :=
  {| nodes := nodes g;
     streams := (λ st, {| stream_id := stream_id st; stream_name := [110; 101]%Z; stream_size := 512;
                          consumers := consumers st; artifact := artifact st |}) <$> streams g |}.
Definition targets : list (Artifact * nat) := [(ARaw, 3); (AUki, 1); (AKernel, 0); (AOverlays, 2)].

Example kinds_in_order :
  kind <$> nodes g
  = [KernelPull; StubPull; LayerPayloads; InitramfsTail; InstallerPull; Concat; Uki; Sign; OverlayPull; Raw; OverlayTar].
Proof. reflexivity. Qed.

Lemma planned_binds_witness :
  ∃ pns slots', bind_nodes 20 named (new_writers targets) = Ok (pns, slots') ∧
    Forall2 (prepared (streams named) (new_writers targets)) pns (nodes g) ∧
    (reader ∘ snd <$> (pns ≫= in_ports)) ≡ₚ seq 0 (pipe_count (streams named)) ∧
    ∀ i pn n d, pns !! i = Some pn → nodes g !! i = Some n → d ∈ dependencies ctx (kind n) →
      ∃ x rest b, ports_take (in_ports pn) (consumer_port d) = Ok (x, rest) ∧ b ∈ inputs n ∧ fed g i b d ∧
        in_end (streams named) (consumer_port d, x) b.
Proof.
  apply (planned_binds 20 ctx arts g named targets).
  - reflexivity.
  - split; [reflexivity|]. unfold named. cbn [streams]. induction (streams g) as [|st sts IH]; by constructor.
  - intros a. unfold arts, targets. cbn. set_solver.
  - apply Nat.leb_le. reflexivity.
Defined.
End Demo.
