(* ===== verification/Timed.v ===== *)
(** The time daemon (services/timed/src): the SNTP packets, the choice of the clock
    source, one synchronization and the loop of the daemon.

    The network, the clock device and the system clock are what they answer: an
    [Attempt] holds the outcome of every call of one synchronization. *)

From stdpp Require Import gmap.
From S2P Require Import Prelude Utf SvcService SysConfig.

(** ** Packets (ntp/mod.rs, ntp/field.rs) *)

Record Timespec := { tv_sec : Z; tv_nsec : Z }.

Definition NTP_PACKET_SIZE : nat := 48.
Definition NTP_EPOCH_OFFSET : Z := 2208988800.
Definition NTP_VERSION : Z := 4.
Definition MODE_CLIENT : Z := 3.
Definition LI_VN_MODE : nat := 0.
Definition TX_TIMESTAMP_SECS : nat := 40.
Definition TX_TIMESTAMP_FRAC : nat := 44.

Inductive NtpError :=
| ResolveFailed | NoAddress | BindFailed | ConnectFailed | SendFailed | TimedOut | RecvFailed
| Truncated (n : nat) | ZeroTimestamp | BeforeEpoch | SetFailed.

Definition build_request : list Z :=
  <[LI_VN_MODE := Z.lor (Z.shiftl NTP_VERSION 3) MODE_CLIENT]> (replicate NTP_PACKET_SIZE 0).

(** Both conversions to [i64] are exact: the seconds are below two to the 32nd, the
    nanoseconds below ten to the 9th. *)
Definition parse_response (packet : list Z) : res NtpError Timespec :=
  let secs := from_be_bytes (take 4 (drop TX_TIMESTAMP_SECS packet)) in
  let frac := from_be_bytes (take 4 (drop TX_TIMESTAMP_FRAC packet)) in
  if secs =? 0 then Err ZeroTimestamp
  else if secs <? NTP_EPOCH_OFFSET then Err BeforeEpoch
  else Ok {| tv_sec := secs - NTP_EPOCH_OFFSET; tv_nsec := Z.shiftr (frac * 1000000000) 32 |}.

(** ** One synchronization (ntp/mod.rs, hypervisor.rs, source.rs) *)

Inductive Source := Auto | Hypervisor | Ntp.
Inductive Answer := AnswerTimeout | AnswerError | Datagram (bytes : list Z).

(** What the calls of one attempt return; [ptp_before] and [ntp_before] are the
    seconds the system clock shows before it is set, [resolved] the number of
    addresses of the server. *)
Record Attempt := {
  ptp_now : option Timespec; ptp_settable : bool; ptp_before : Z;
  resolved : option nat; bind_ok : bool; connect_ok : bool; send_ok : bool; answer : Answer;
  ntp_settable : bool; ntp_before : Z
}.

Inductive PtpError := PtpUnavailable | PtpSetFailed.
Inductive SyncError := PtpFailed (e : PtpError) | NtpFailed (e : NtpError) | BothFailed (p : PtpError) (e : NtpError).

(** [hypervisor::sync]: the offset in seconds and the time the clock was set to. *)
Definition hypervisor_sync (a : Attempt) : res PtpError (Z * Timespec) :=
  host_time ← ok_or (ptp_now a) PtpUnavailable;
  if ptp_settable a then Ok (Z.abs (tv_sec host_time - ptp_before a), host_time) else Err PtpSetFailed.

Definition guard (b : bool) (e : NtpError) : res NtpError unit := if b then Ok tt else Err e.

(** [ntp::sync]. A longer datagram is cut to the buffer. *)
Definition ntp_sync (a : Attempt) : res NtpError (Z * Timespec) :=
  addresses ← ok_or (resolved a) ResolveFailed;
  _ ← guard (negb (addresses =? 0)%nat) NoAddress;
  _ ← guard (bind_ok a) BindFailed;
  _ ← guard (connect_ok a) ConnectFailed;
  _ ← guard (send_ok a) SendFailed;
  buf ← match answer a with
        | AnswerTimeout => Err TimedOut
        | AnswerError => Err RecvFailed
        | Datagram bytes => Ok (take NTP_PACKET_SIZE bytes)
        end;
  _ ← guard (negb (length buf <? NTP_PACKET_SIZE)%nat) (Truncated (length buf));
  server_time ← parse_response buf;
  _ ← guard (ntp_settable a) SetFailed;
  Ok (Z.abs (tv_sec server_time - ntp_before a), server_time).

Definition from_config (value : ustring) : option Source :=
  if bool_decide (value = []) || bool_decide (value = ustr "auto") then Some Auto
  else if bool_decide (value = ustr "hypervisor") then Some Hypervisor
  else if bool_decide (value = ustr "ntp") then Some Ntp
  else None.
Definition needs_ntp (s : Source) : bool := match s with Hypervisor => false | _ => true end.

(** The source used, the offset and the time set. *)
Definition sync (s : Source) (a : Attempt) : res SyncError (Source * Z * Timespec) :=
  match s with
  | Hypervisor =>
      match hypervisor_sync a with
      | Ok (o, t) => Ok (Hypervisor, o, t)
      | Err e => Err (PtpFailed e)
      | Panic => Panic
      end
  | Ntp =>
      match ntp_sync a with
      | Ok (o, t) => Ok (Ntp, o, t)
      | Err e => Err (NtpFailed e)
      | Panic => Panic
      end
  | Auto =>
      match hypervisor_sync a with
      | Ok (o, t) => Ok (Hypervisor, o, t)
      | Err pe =>
          match ntp_sync a with
          | Ok (o, t) => Ok (Ntp, o, t)
          | Err ne => Err (BothFailed pe ne)
          | Panic => Panic
          end
      | Panic => Panic
      end
  end.

(** ** The daemon (main.rs) *)

Definition INITIAL_RETRY_INTERVAL : Z := 64.
Definition STEADY_STATE_INTERVAL : Z := 3600.

(** What the daemon does, in order: messages to the supervisor, settings of the
    clock and waits, in seconds. *)
Inductive Event :=
| Status (text : ustring) (h : Health) | ReadyMsg | SetClock (t : Timespec) | Wait (secs : Z).

(** A wait ends with a signal or with an attempt, after which the message to the
    supervisor may fail. *)
Inductive Round := Signalled | Elapsed (a : Attempt) (sent : bool).
Inductive Ending := Stopped | NotifyFailed | SignalFailed | StillRunning.

Fixpoint serve (s : Source) (synced_once : bool) (rounds : list Round) : list Event * Ending :=
  let wait := Wait (if synced_once then STEADY_STATE_INTERVAL else INITIAL_RETRY_INTERVAL) in
  match rounds with
  | [] => ([wait], StillRunning)
  | Signalled :: _ => ([wait], Stopped)
  | Elapsed a sent :: rounds =>
      let '(evs, synced) :=
        match sync s a with
        | Ok (_, _, t) => ([SetClock t; Status (ustr "Synchronized") Healthy], true)
        | _ => ([Status (ustr "Sync failed") HDegraded], synced_once)
        end in
      if sent then let '(rest, e) := serve s synced rounds in (wait :: evs ++ rest, e)
      else (wait :: evs, NotifyFailed)
  end.

Inductive StartError := InvalidClock | NoServer.

(** The start: the first attempt, and whether each of the calls that may end the
    daemon succeeds. *)
Record Start := { first : Attempt; init_sent : bool; degraded_sent : bool; ready_sent : bool; signals_ok : bool }.

Definition timed (h : HostConfig) (st : Start) (rounds : list Round) : res StartError (list Event * Ending) :=
  source ← ok_or (from_config (host_clock h)) InvalidClock;
  if needs_ntp source && bool_decide (ntp h = []) then Err NoServer
  else
    let init := Status (ustr "Initializing") Healthy in
    Ok (if init_sent st then
          let '(evs, synced, go_on) :=
            match sync source (first st) with
            | Ok (_, _, t) => ([SetClock t], true, true)
            | _ => ([Status (ustr "Initial sync failed, retrying") HDegraded], false, degraded_sent st)
            end in
          if go_on then
            if ready_sent st then
              if signals_ok st then
                let '(rest, e) := serve source synced rounds in (init :: evs ++ ReadyMsg :: rest, e)
              else (init :: evs ++ [ReadyMsg], SignalFailed)
            else (init :: evs ++ [ReadyMsg], NotifyFailed)
          else (init :: evs, NotifyFailed)
        else ([init], NotifyFailed)).

(** ** Theorems *)

Lemma be4_range l : bytes_ok l → length l = 4%nat → 0 ≤ from_be_bytes l < 4294967296.
Proof.
  intros Hok Hl. destruct l as [|a [|b [|c [|d [|]]]]]; try done. unfold bytes_ok in Hok.
  rewrite !Forall_cons in Hok. unfold is_u8, is_uint in Hok.
  change (from_be_bytes [a; b; c; d]) with (d + 256 * (c + 256 * (b + 256 * (a + 256 * 0)))). lia.
Qed.

Definition valid (t : Timespec) : Prop := 0 ≤ tv_sec t ≤ 2085978495 ∧ 0 ≤ tv_nsec t < 1000000000.

(** The time of a packet, from its two big-endian fields: a valid time up to the
    end of the NTP era, with the fraction rounded down to nanoseconds. *)
Lemma parse_response_correct (pre : list Z) secs frac (post : list Z) :
  length pre = 40%nat → 0 ≤ secs < 4294967296 → 0 ≤ frac < 4294967296 →
  let packet := pre ++ to_be_bytes 4 secs ++ to_be_bytes 4 frac ++ post in
  (secs = 0 → parse_response packet = Err ZeroTimestamp) ∧
  (0 < secs < NTP_EPOCH_OFFSET → parse_response packet = Err BeforeEpoch) ∧
  (NTP_EPOCH_OFFSET ≤ secs → ∃ t, parse_response packet = Ok t ∧ valid t ∧
     tv_sec t = secs - NTP_EPOCH_OFFSET ∧ tv_nsec t = frac * 1000000000 / 4294967296).
Proof.
  intros Hpre Hs Hf packet. unfold parse_response, NTP_EPOCH_OFFSET.
  assert (from_be_bytes (take 4 (drop TX_TIMESTAMP_SECS packet)) = secs) as ->.
  { unfold packet. change TX_TIMESTAMP_SECS with 40%nat. rewrite drop_app_length' by done.
    rewrite take_app_length' by (by rewrite length_to_be_bytes). by apply from_to_be_bytes. }
  assert (from_be_bytes (take 4 (drop TX_TIMESTAMP_FRAC packet)) = frac) as ->.
  { unfold packet. change TX_TIMESTAMP_FRAC with (40 + 4)%nat. rewrite <- drop_drop, drop_app_length' by done.
    rewrite drop_app_length' by (by rewrite length_to_be_bytes).
    rewrite take_app_length' by (by rewrite length_to_be_bytes). by apply from_to_be_bytes. }
  split_and!; intros H.
  - subst. done.
  - destruct (Z.eqb_spec secs 0); [lia|]. destruct (Z.ltb_spec secs 2208988800); [done|lia].
  - destruct (Z.eqb_spec secs 0); [lia|]. destruct (Z.ltb_spec secs 2208988800); [lia|].
    eexists. split; [done|]. unfold valid. cbn. rewrite Z.shiftr_div_pow2 by lia. change (2 ^ 32) with 4294967296.
    split_and!; try lia; [apply Z.div_pos; lia|apply Z.div_lt_upper_bound; lia].
Qed.

(** ** Synchronizing *)

(** Which clock an attempt uses: the hypervisor when it can be read and set and the
    source allows it, the server otherwise. *)
Lemma sync_uses s a :
  match sync s a with
  | Ok (used, o, t) =>
      (used = Hypervisor ∧ s ≠ Ntp ∧ hypervisor_sync a = Ok (o, t)) ∨
      (used = Ntp ∧ s ≠ Hypervisor ∧ ntp_sync a = Ok (o, t) ∧ (s = Auto → ∃ e, hypervisor_sync a = Err e))
  | Err _ => (s ≠ Ntp → ∃ e, hypervisor_sync a = Err e) ∧ (s ≠ Hypervisor → ∃ e, ntp_sync a = Err e)
  | Panic => False
  end.
Proof.
  assert (Hh : hypervisor_sync a ≠ Panic).
  { unfold hypervisor_sync. destruct (ptp_now a); cbn; [by destruct (ptp_settable a)|done]. }
  assert (Hn : ntp_sync a ≠ Panic).
  { unfold ntp_sync, guard. destruct (resolved a) as [n|]; cbn [ok_or negb mbind res_bind]; [|done].
    destruct (n =? 0)%nat; cbn [ok_or negb mbind res_bind]; [done|].
    destruct (bind_ok a), (connect_ok a), (send_ok a), (answer a) as [| |bytes]; cbn [mbind res_bind]; try done.
    destruct (_ <? _)%nat; cbn [negb mbind res_bind]; [done|]. unfold parse_response.
    destruct (_ =? 0); [done|]. destruct (_ <? _); [done|]. cbn [mbind res_bind]. by destruct (ntp_settable a). }
  destruct s; cbn [sync]; destruct (hypervisor_sync a) as [[]| |] eqn:H1, (ntp_sync a) as [[]| |] eqn:H2; naive_solver.
Qed.

(** A time taken from a server is a valid one. *)
Lemma ntp_sync_valid a o t :
  (∀ bytes, answer a = Datagram bytes → bytes_ok bytes) → ntp_sync a = Ok (o, t) → valid t.
Proof.
  intros Hok. unfold ntp_sync, guard. destruct (resolved a) as [n|]; cbn [ok_or negb mbind res_bind]; [|done].
  destruct (n =? 0)%nat; cbn [ok_or negb mbind res_bind]; [done|].
  destruct (bind_ok a), (connect_ok a), (send_ok a); cbn [ok_or negb mbind res_bind]; try done.
  destruct (answer a) as [| |bytes]; try done. cbn [mbind res_bind].
  destruct (length (take NTP_PACKET_SIZE bytes) <? NTP_PACKET_SIZE)%nat eqn:Hlen; cbn [negb mbind res_bind]; [done|].
  apply Nat.ltb_ge in Hlen. specialize (Hok bytes eq_refl).
  set (buf := take NTP_PACKET_SIZE bytes) in *. assert (Hbuf : bytes_ok buf) by (by apply Forall_take).
  assert (Hl : length buf = 48%nat).
  { unfold buf in *. rewrite length_take in *. unfold NTP_PACKET_SIZE in *. lia. }
  unfold parse_response.
  pose proof (be4_range (take 4 (drop TX_TIMESTAMP_SECS buf))) as Hs.
  pose proof (be4_range (take 4 (drop TX_TIMESTAMP_FRAC buf))) as Hf.
  unfold TX_TIMESTAMP_SECS, TX_TIMESTAMP_FRAC, NTP_EPOCH_OFFSET in *.
  specialize (Hs ltac:(by apply Forall_take, Forall_drop) ltac:(rewrite length_take, length_drop; lia)).
  specialize (Hf ltac:(by apply Forall_take, Forall_drop) ltac:(rewrite length_take, length_drop; lia)).
  destruct (_ =? 0); cbn [mbind res_bind]; [done|]. destruct (Z.ltb_spec (from_be_bytes (take 4 (drop 40 buf))) 2208988800) as [|Hge]; [done|].
  cbn [mbind res_bind]. destruct (ntp_settable a); [|done]. cbn [mbind res_bind]. intros [= _ <-].
  unfold valid. cbn [tv_sec tv_nsec]. rewrite Z.shiftr_div_pow2 by lia. change (2 ^ 32) with 4294967296.
  split_and!; try lia; [apply Z.div_pos; lia|apply Z.div_lt_upper_bound; lia].
Qed.

(** ** The daemon *)

(** A configuration that passes the check of the system configuration is accepted
    by the daemon. *)
Lemma validated_starts c st rounds : validate c = Ok tt → ∃ r, timed (host c) st rounds = Ok r.
Proof.
  intros (_ & _ & Hclock & Hntp)%validate_spec. unfold timed.
  assert (∃ s, from_config (host_clock (host c)) = Some s ∧ (s ≠ Hypervisor → ntp (host c) ≠ [])) as (s & -> & Hs).
  { unfold CLOCKS in Hclock. rewrite !elem_of_cons, elem_of_nil in Hclock.
    destruct Hclock as [H|[H|[H|[H|[]]]]]; rewrite H in Hntp |- *; eexists; (split; [reflexivity|]); intros;
      destruct Hntp as [|]; done. }
  cbn [ok_or mbind res_bind]. destruct (needs_ntp s && bool_decide (ntp (host c) = [])) eqn:E; [|eauto].
  apply andb_prop in E as [H1 H2%bool_decide_eq_true]. destruct s; try done; by destruct Hs.
Qed.

Definition set_before (l : list Event) : Prop := ∃ t, SetClock t ∈ l.

(** How long the daemon waits, given whether the clock was set before. *)
Definition paced (synced : bool) (evs : list Event) : Prop := ∀ pre d post, evs = pre ++ Wait d :: post →
  (synced = true ∨ set_before pre → d = STEADY_STATE_INTERVAL) ∧
  (synced = false → ¬ set_before pre → d = INITIAL_RETRY_INTERVAL).

Lemma paced_nil b : paced b [].
Proof. intros pre d post H. by destruct pre. Qed.
Lemma paced_wait b evs :
  paced b evs → paced b (Wait (if b then STEADY_STATE_INTERVAL else INITIAL_RETRY_INTERVAL) :: evs).
Proof.
  intros Hp pre d post H. destruct pre as [|e pre]; cbn in H; simplify_eq.
  - split; intros; [destruct H as [->|(t & Ht)]; [done|by apply elem_of_nil in Ht]|by subst].
  - destruct (Hp pre d post eq_refl) as [H1 H2]. split.
    + intros [?|(t & [Ht|Ht]%elem_of_cons)]; [auto|done|]. apply H1. right. by exists t.
    + intros Hb Hn. apply H2; [done|]. intros (t & Ht). apply Hn. exists t. by right.
Qed.
Lemma paced_set b t evs : paced true evs → paced b (SetClock t :: evs).
Proof.
  intros Hp pre d post H. destruct pre as [|e pre]; cbn in H; simplify_eq.
  destruct (Hp pre d post eq_refl) as [H1 H2]. split; [intros _; apply H1; by left|].
  intros _ Hn. destruct Hn. exists t. constructor.
Qed.
Lemma paced_other b e evs : (∀ t, e ≠ SetClock t) → (∀ d, e ≠ Wait d) → paced b evs → paced b (e :: evs).
Proof.
  intros He Hw Hp pre d post H. destruct pre as [|e' pre]; cbn in H; simplify_eq; [by destruct (Hw d)|].
  destruct (Hp pre d post eq_refl) as [H1 H2]. split.
  - intros [?|(t & [Ht|Ht]%elem_of_cons)]; [auto|by destruct (He t)|]. apply H1. right. by exists t.
  - intros Hb Hn. apply H2; [done|]. intros (t & Ht). apply Hn. exists t. by right.
Qed.

Lemma serve_paced s rounds : ∀ b, paced b (serve s b rounds).1.
Proof.
  induction rounds as [|[|a sent] rounds IH]; intros b; cbn [serve].
  - apply paced_wait, paced_nil.
  - apply paced_wait, paced_nil.
  - destruct (sync s a) as [[[u o] t]| |]; destruct sent;
      try specialize (IH true) as IHt; specialize (IH b) as IHb;
      repeat match goal with |- context [serve s ?x rounds] => destruct (serve s x rounds) end;
      cbn [fst app] in *; apply paced_wait; repeat first [apply paced_set | apply paced_other; [done|done|] | done | apply paced_nil].
Qed.

(** The daemon waits 64 seconds between attempts until the clock has been set once,
    and an hour ever after. *)
Theorem timed_paced h st rounds evs e :
  timed h st rounds = Ok (evs, e) →
  ∀ pre d post, evs = pre ++ Wait d :: post →
    (set_before pre → d = STEADY_STATE_INTERVAL) ∧ (¬ set_before pre → d = INITIAL_RETRY_INTERVAL).
Proof.
  intros Ht. cut (paced false evs).
  { intros Hp pre d post H. destruct (Hp pre d post H) as [H1 H2]. split; [|by apply H2]. intros. apply H1. by right. }
  revert Ht. unfold timed. destruct (from_config (host_clock h)) as [s|]; [|done]. cbn [ok_or mbind res_bind].
  destruct (needs_ntp s && _); [done|]. intros [= H]. revert H.
  pose proof (serve_paced s rounds true) as Ht. pose proof (serve_paced s rounds false) as Hf.
  destruct (init_sent st), (sync s (first st)) as [[[u o] t]| |], (degraded_sent st), (ready_sent st), (signals_ok st);
    repeat match goal with |- context [serve s ?x rounds] => destruct (serve s x rounds) end;
    cbn [fst app] in *; intros [= <- <-];
    repeat first [apply paced_set | apply paced_other; [done|done|] | done | apply paced_nil].
Qed.

(** Nothing but a signal or a failed call ends the daemon. *)
Lemma serve_ends s rounds b :
  match (serve s b rounds).2 with
  | Stopped => Signalled ∈ rounds
  | NotifyFailed => ∃ a, Elapsed a false ∈ rounds
  | SignalFailed => False
  | StillRunning => ∀ r, r ∈ rounds → ∃ a, r = Elapsed a true
  end.
Proof.
  revert b. induction rounds as [|[|a sent] rounds IH]; intros b; cbn [serve].
  - cbn. by intros r ?%elem_of_nil.
  - cbn. by left.
  - destruct sent.
    + assert (∀ b', match (serve s b' rounds).2 with
          | Stopped => Signalled ∈ Elapsed a true :: rounds
          | NotifyFailed => ∃ x, Elapsed x false ∈ Elapsed a true :: rounds
          | SignalFailed => False
          | StillRunning => ∀ r, r ∈ Elapsed a true :: rounds → ∃ x, r = Elapsed x true
          end) as Hgen.
      { intros b'. specialize (IH b'). destruct (serve s b' rounds) as [? []]; cbn in *; try done.
        - by right.
        - destruct IH as [x Hx]. exists x. by right.
        - intros r [->|Hr]%elem_of_cons; eauto. }
      destruct (sync s a) as [[[u o] t]| |].
      * specialize (Hgen true). by destruct (serve s true rounds).
      * specialize (Hgen b). by destruct (serve s b rounds).
      * specialize (Hgen b). by destruct (serve s b rounds).
    + destruct (sync s a) as [[[u o] t]| |]; cbn; exists a; by left.
Qed.

Module Demo.
Definition zero40 : list Z := replicate 40 0.
(** 2024-01-01 and a half second. *)
Definition packet : list Z := zero40 ++ [233; 60; 127; 0; 128; 0; 0; 0].
Example packet_time : parse_response packet = Ok {| tv_sec := 1704067200; tv_nsec := 500000000 |}.
Proof. reflexivity. Qed.

(** The header of the answer is not looked at: a packet of stratum zero, in client
    mode and with the alarm bits set, is taken for a time like any other. *)
Definition kiss_of_death : list Z := <[0%nat := 227]> packet.
Example header_ignored : parse_response kiss_of_death = parse_response packet.
Proof. reflexivity. Qed.
(** A timestamp of the era that begins in 2036 is refused. *)
Example second_era_refused : parse_response (zero40 ++ [0; 0; 0; 1; 0; 0; 0; 0]) = Err BeforeEpoch.
Proof. reflexivity. Qed.
(** The request itself, echoed, is refused. *)
Example echo_refused : parse_response build_request = Err ZeroTimestamp.
Proof. reflexivity. Qed.
End Demo.
