(* ===== verification/Kmsg.v ===== *)
(** Writing to the kernel log (libs/kmsg/src/lib.rs): the record of a message, its
    truncation to one atomic write, the fallback to standard error and the default
    component of a process. *)

From stdpp Require Import gmap.
From S2P Require Import Prelude Utf Text.

Definition MAX_KMSG_SIZE : nat := 992.
Definition TRUNCATED_WARNING : list Z := utf8 (ustr " [TRUNCATED]" ++ [10]).

Inductive Level := Error | Warn | Info | Debug.
Definition level_number (l : Level) : Z := match l with Error => 3 | Warn => 4 | Info => 6 | Debug => 7 end.

Definition prepare_data_to_write (data : list Z) : list Z :=
  if (length data <=? MAX_KMSG_SIZE)%nat then data
  else take (MAX_KMSG_SIZE - length TRUNCATED_WARNING) data ++ TRUNCATED_WARNING.

(** What happens to the calls of one message: opening the device, and how many
    bytes are written when writing succeeds. *)
Record Device := { opens : bool; writes : option nat }.
(** What was written: to the device, and to standard error. *)
Record Written := { to_kmsg : option (list Z); to_stderr : option ustring }.

Definition format_stderr_fallback_message (m : ustring) : ustring :=
  ustr "Failed to write to kmsg (falling back to stderr): " ++ m.

(** [debug] says whether debug assertions are compiled in. The data is the UTF-8 of
    the message, so that its lossy decoding is the message. *)
Definition write_to_kmsg_or_stderr (debug : bool) (dev : Device) (m : ustring) : res Empty_set Written :=
  let data_to_write := prepare_data_to_write (utf8 m) in
  if debug && negb (length (utf8 m) <=? MAX_KMSG_SIZE)%nat then Panic
  else
    let sent := if opens dev then match writes dev with Some n => Some (take n data_to_write) | None => None end else None in
    let written := match sent with Some l => (length l =? length data_to_write)%nat | None => false end in
    Ok {| to_kmsg := sent; to_stderr := if written then None else Some (format_stderr_fallback_message m) |}.

(** The component is set once in the life of a process. *)
Definition init (cell : option ustring) (component : ustring) : option ustring * bool :=
  match cell with
  | None => (Some component, true)
  | Some c => (Some c, false)
  end.

Definition format_log (l : Level) (component message : ustring) : ustring :=
  if bool_decide (component = []) then ustr "<" ++ decimal (level_number l) ++ ustr "> " ++ message ++ [10]
  else ustr "<" ++ decimal (level_number l) ++ ustr ">[" ++ component ++ ustr "] " ++ message ++ [10].

Definition write_log (debug : bool) (dev : Device) (cell : option ustring) (l : Level) (component : option ustring)
    (message : ustring) : res Empty_set Written :=
  write_to_kmsg_or_stderr debug dev (format_log l (default (default [] cell) component) message).
Definition print (debug : bool) (dev : Device) (message : ustring) : res Empty_set Written :=
  write_to_kmsg_or_stderr debug dev (message ++ [10]).

(** ** Theorems *)

(** A record fits one atomic write; it is the message, or its beginning with the
    warning that it was cut. *)
Lemma prepared_fits data :
  (length (prepare_data_to_write data) ≤ MAX_KMSG_SIZE)%nat ∧
  (prepare_data_to_write data = data ∨
   ∃ rest, (length data > MAX_KMSG_SIZE)%nat ∧ data = take 979 data ++ rest ∧
     prepare_data_to_write data = take 979 data ++ TRUNCATED_WARNING).
Proof.
  unfold prepare_data_to_write. assert (Hw : length TRUNCATED_WARNING = 13%nat) by reflexivity.
  destruct (Nat.leb_spec (length data) MAX_KMSG_SIZE) as [Hle|Hgt]; [auto|]. unfold MAX_KMSG_SIZE in *.
  rewrite Hw. split.
  - rewrite length_app, length_take, Hw. lia.
  - right. exists (drop 979 data). split; [lia|]. by rewrite take_drop.
Qed.

(** A message is never lost: it is in the device whole, or it was cut to the size of
    a record that is there whole, or it is on standard error whole. *)
Lemma message_reported debug dev m w :
  write_to_kmsg_or_stderr debug dev m = Ok w →
  (to_kmsg w = Some (prepare_data_to_write (utf8 m)) ∧ to_stderr w = None) ∨
  to_stderr w = Some (format_stderr_fallback_message m).
Proof.
  unfold write_to_kmsg_or_stderr. destruct (debug && _); [done|]. intros [= <-]. cbn.
  destruct (opens dev), (writes dev) as [n|]; cbn; auto.
  destruct (Nat.eqb_spec (length (take n (prepare_data_to_write (utf8 m)))) (length (prepare_data_to_write (utf8 m))))
    as [He|]; [left|by right]. split; [|done]. f_equal. apply take_ge. rewrite length_take in He. lia.
Qed.

(** Only a build with debug assertions panics, and exactly on the messages that are
    cut otherwise. *)
Lemma panics_iff debug dev m :
  write_to_kmsg_or_stderr debug dev m = Panic ↔ debug = true ∧ (MAX_KMSG_SIZE < length (utf8 m))%nat.
Proof.
  unfold write_to_kmsg_or_stderr. destruct debug; cbn [andb]; [|naive_solver].
  destruct (Nat.leb_spec (length (utf8 m)) MAX_KMSG_SIZE); cbn [negb]; split; try done; intros []; lia.
Qed.
